(* ===== verification/_CoqProject ===== *)
-Q . S2P
Prelude.v
GoStd.v
Protocol.v
ClientRequest.v
ClientResponse.v
HandlerSlot.v
ClientWire.v
IdGen.v
Pool.v
PoolRegistry.v
WorkerPack.v
AgentIO.v
Agent.v
AgentStop.v
AgentDelivery.v
Worker.v
WorkerAbilities.v
WorkerJobs.v
System.v
Redial.v
Disconnect.v
ClientLoop.v
EndToEnd.v
Client.v
ClientReplies.v
ClientStop.v
ClientTimer.v
ClientApp.v
PoolClients.v
GoText.v
JobFuncs.v
ExampleWorker.v
ExampleClient.v
