(* ===== verification/Prelude.v ===== *)
(** * A model of the Gearman client and worker library

    The repository is a Go library for Gearman, a job queue: a client package
    (client/) submits jobs to a job server and receives their results, a worker
    package (worker/) announces functions to job servers, is assigned jobs and
    sends back what they return.  The job server itself is not part of it.  This
    library translates both packages into Rocq functions and step relations and
    proves what makes them correct.

    ** The program and its model

    Each file models one part; a definition has the name of the Go function it
    translates where Rocq allows it.

    - Prelude.v (this file): bytes and slices, Go's integers at their width, the
      [outcome] of code that can panic with its monad, in-place slice
      operations, big-endian words; shared tactics and lemmas.
    - GoStd.v: what the source uses of Go's standard library: error values,
      [bytes.IndexByte], [bytes.SplitN], [strconv], [bufio.Reader] and
      [bufio.Writer] over a connection, [io.ReadFull].
    - Protocol.v: client/common.go (module CC) and worker/common.go (module WC).
    - ClientRequest.v: client/request.go.
    - ClientResponse.v: client/response.go, client/status.go, client/error.go.
    - HandlerSlot.v: client/handler_slot.go and client/status_handlers.go, the
      queues that match replies to requests.
    - ClientWire.v: [writeTo] and [readPacket] of client/client.go.
    - IdGen.v: client/id.go.
    - Pool.v: client/pool.go, against the interface [ClientIface] of a client;
      PoolRegistry.v: the atomic registry it refines.
    - WorkerPack.v: worker/outpack.go, worker/inpack.go, worker/error.go.
    - AgentIO.v: [read] and [write] of worker/agent.go with its buffer pool.
    - Agent.v: [Connect], [reconnect], [work], [disconnect_error] and [Close] of
      worker/agent.go as interleaved actions on one agent; AgentStop.v: its loops
      end; AgentDelivery.v: what they hand on.
    - Worker.v: worker/worker.go and the types of worker/func.go: methods as
      programs of a state monad, and the running worker as interleaved actions.
    - WorkerAbilities.v: what each job server has on record for a worker, and
      [reconnect] interleaved with [AddFunc] and [RemoveFunc].
    - WorkerJobs.v: what a job writes, and how often it is answered.
    - System.v: the worker and the loops of all its agents over the one channel
      [worker.in], with the main loop of [Work] and its drain: each action is
      some actions of Worker.v and of Agent.v.  Redial.v: what a redial of a read
      loop leaves out, in that system.
    - Disconnect.v: WorkerDisconnectError of worker/worker.go, in that system.
    - ClientLoop.v: [processLoop] and [deliver] of client/client.go.
    - EndToEnd.v: the two packages composed, with the server forwarding.
    - Client.v: client/client.go as a system of any number of callers,
      [readLoop] and [processLoop], interleaved; ClientReplies.v: which packets
      the results of calls come from; ClientStop.v: how it ends.
    - ClientTimer.v: [startTimer] and [stopTimer] over a timer of either kind Go
      has had.
    - ClientApp.v: [New] with its options, the error handler, [Do] and [DoBg] over
      any [IdGenerator], and the ids the default one gives.
    - PoolClients.v: that client as an instance of [ClientIface], and the pool
      running over such clients while they run themselves.
    - GoText.v: UTF-8, [strings.ToUpper] and the part of encoding/json the job
      functions use.
    - JobFuncs.v: the interface of worker/job.go as a class, and the built-in
      functions of worker/func.go.
    - ExampleWorker.v, ExampleClient.v: example/worker/worker.go and
      example/client/client.go, each on its package's model, and both together.

    ** Conventions

    A byte slice is a list of bytes, and an option of one where nil is
    observable ([slice]).  Integers are [Z] with their wrap-around written out
    ([uint32], [uint64], [int64]); [int] and [uint] have the width of the class
    [GoArch], and theorems that do not fix it hold on 32- and 64-bit builds.
    Code that can panic returns an [outcome]; an index, slice or make out of
    range, a nil dereference and a store into a nil map are panics, so a theorem
    that some code returns [Val] says that it does not panic.  Errors are values
    of one type [error].  The clock, the numbers of [rand.Intn], the order of
    [range] over a map and the results of dials are arguments, so a statement for
    all of them is one for every run.

    A connection is the list of events it delivers: chunks of any size and
    errors.  [stream] is the sequence of bytes and errors they amount to, and
    the reading functions are shown to depend on nothing else.  A read for which
    not enough has arrived yet is [Blocked], an outcome distinct from an error.

    Concurrency is explicit.  A lock that is held for a few assignments makes
    them one action; a lock held across blocking calls ([client.Mutex],
    [a.Mutex] in [Connect]) is part of the state.  Actions are enabled or not
    ([option]), and theorems quantify over all sequences of them.  [processLoop]
    is one action per packet: the [take] of a handler and its call are not
    interleaved with anything else.  [Reset] of the worker is one action of its
    own in the sequences; its two halves are definitions, and what may happen
    between them is a theorem ([reset_drops_new_function]).  Some states carry a
    history that no action reads: what arrived on a connection ([c_log]), the
    packets handed on ([handled], [served]), the ids drawn.

    Recursion is structural, with fuel in four places.  The loop of
    [bufio.Writer]'s Write ([write_loop]) gets four rounds: a round empties the
    argument, empties the buffer or sets the error, so three are enough.  The
    loop of [writeTo] gets one round more than the packet has bytes, and is
    shown never to run out.  The digits of a number ([format_loop]) are at most
    one per bit, and the number is shown to be read back from them.  A loop over
    the runes of a string ([range_runes]) gets one round per byte, and a round
    takes at least one.  Termination of the loops that run for ever by design is
    stated as a measure that every action of a closed client or worker decreases.

    ** What the theorems show

    - Bytes.  The encoders of both packages write exactly the packets of the
      protocol, also into reused buffers, and distinct jobs have distinct
      packets; the decoders do not panic on any input the readers let through,
      lose nothing and invert the encoders; the statuses and identifiers printed
      in decimal are the ones parsed (ClientRequest, ClientResponse, WorkerPack,
      IdGen).
    - Streams.  Both readers take exactly the packets sent off a connection, in
      order, however the network splits them, and agree with each other but for
      a header cut short; both writers put only whole packets on it, up to the
      first failure (ClientWire, AgentIO).
    - Correlation.  A waiting handler is never lost or evicted, a late reply is
      absorbed by the request it answers, queues are bounded; every handler that
      waits is that of the one call that holds the mutex; a job's handler is
      called with its own job's packets until the terminal one; the negotiation
      of exceptions is settled by the first reply; no packet makes the
      dispatcher panic; what a call returns comes from a packet of the type it
      waits for, it times out on its own time only, and with the default
      generator its id is one no other client of the process draws
      (HandlerSlot, ClientLoop, Client, ClientReplies, ClientTimer, ClientApp).
    - Life cycles.  A closed client has no connection and gets none; a call that
      holds the mutex always has a step of its own to take, nothing else moves it,
      and at most four such steps give the mutex back; the option request is first on every connection; no connection of an agent has two
      readers; a pool accounts for every client it dialled, also while the
      clients run, and is an atomic registry of addresses and rates; [Close] of a
      worker closes its channel once; after [Close] the loops of an agent and the
      goroutines of a client come to an end, and [Work] drains its channel and
      returns (Client, ClientStop, Agent, AgentStop, Pool, PoolRegistry,
      PoolClients, Worker, System).
    - The worker.  Every server knows exactly the worker's functions; the limit
      on dispatched jobs holds and its hand-over cannot deadlock; packets are
      answered on the connection they came from; a job gets at most one answer,
      timeouts included; what arrives on a connection is handed to the main loop
      in order, and only the packet a loop holds may be missing; nothing panics
      in the background; a handler that reconnects brings a lost worker back
      (Worker, WorkerAbilities, WorkerJobs, AgentDelivery, System, Disconnect).
    - Job functions.  [SysInfo] returns what the runtime says; [MemInfo] returns
      every field of the statistics, from its own snapshot or a later one of
      another call (JobFuncs).
    - End to end.  A submitted job reaches the worker as submitted, and what it
      returns or reports is what the client's [Result], [Update] and [Status]
      say; the jobs of the example worker are followed to the log of the example
      client, whose [main] makes its calls in order, each only after the one
      before it has succeeded, and never meets a nil status (EndToEnd,
      ExampleWorker, ExampleClient).
    - Some theorems exhibit runs in which the code does not do what it means to:
      [stale_reply_misdelivered] and [reset_loses_handler] (Client),
      [temporary_error_desyncs], [reconnect_leaks] and [redial_after_close]
      (Agent), [late_function_unannounced], [removed_function_reannounced] and
      [reset_drops_new_function] (WorkerAbilities), the last part of
      [pool_stays_small] (AgentIO), [meminfo_torn] (JobFuncs),
      [lost_connection_unnoticed] (ExampleWorker) and [SelectWithRate_first]
      (Pool), which contradicts its comment.  [redial_forgets_abilities] (Redial)
      says it of every run: a redial leaves its server without functions.  And
      [replies_typed] (ClientReplies) leaves no room for the ERROR branch of
      [do]'s handler: no call ever returns a server's ERROR.
      [limit_not_running] (WorkerJobs) and [stale_tick_before_1_23] (ClientTimer)
      show why comments warn as they do.

    ** What is not modelled

    Go's memory model: each access to a shared variable under its lock or atomic
    is taken to be sequentially consistent, and an unprotected one ([memState])
    to be atomic field by field.  What a user's handlers do in return: a handler
    is a number whose calls are recorded, and what it may do next, such as
    [Reconnect], is an action of its own.  Time other than that of the shared
    timer: a job's timeout or a caller's may fire at any point of the wait.  How
    long a write takes: the action is its return, and the code sets no deadline
    for it.  package unicode's case table, the runtime's statistics and the process's
    signals are arguments or left out.  gearman.go has only documentation.

    ** Plan

    Next: the actions of [processLoop] split at the call of a handler, with
    handlers that call back into the client; [Ready], [Work] and [reconnect]
    interleaved in System.v, with [abilities_in_sync] over redials; a model of
    the job server, so that the examples run as one system. *)

From Stdlib Require Export Strings.Byte ZArith Lia.
From stdpp Require Export base tactics list gmap strings countable.
Export List.ListNotations.

#[export] Set Default Goal Selector "!".

(** ** Bytes, Go strings and byte slices

    Go strings and byte slices are both sequences of bytes.  A field of type
    [[]byte] can moreover be nil, which some of the code documents as an
    observable result; such fields have type [slice]. *)

Abbreviation bytes := (list byte).
Abbreviation slice := (option bytes).

#[export] Instance byte_eq_decision : EqDecision byte := Byte.byte_eq_dec.

#[export] Instance byte_countable : Countable byte :=
  inj_countable Byte.to_N Byte.of_N Byte.of_to_N.

(** The contents of a possibly nil slice; [len] of a nil slice is 0. *)
Definition sl (s : slice) : bytes := default [] s.

(** [blen b] is Go's [len(b)], an [int]. *)
Definition blen (b : bytes) : Z := Z.of_nat (length b).

(** A Go string literal as its bytes. *)
Abbreviation str s := (String.list_byte_of_string s%string).

(** ** Machine integers *)

(** The width of Go's [int] and [uint]: the one thing in this library that
    differs between builds. *)
Inductive width := W32 | W64.

Class GoArch := int_width : width.

Definition int_bits (w : width) : Z :=
  match w with W32 => 32 | W64 => 64 end.

(** Conversion to an unsigned and to a signed two's complement integer. *)
Definition to_unsigned (bits z : Z) : Z := z `mod` 2 ^ bits.
Definition to_signed (bits z : Z) : Z :=
  (z + 2 ^ (bits - 1)) `mod` 2 ^ bits - 2 ^ (bits - 1).

Definition uint32 (z : Z) : Z := to_unsigned 32 z.
Definition uint64 (z : Z) : Z := to_unsigned 64 z.
Definition int64 (z : Z) : Z := to_signed 64 z.

(** [int(z)], at the width of the build. *)
Definition go_int `{GoArch} (z : Z) : Z := to_signed (int_bits int_width) z.

(** The largest value of type [uint] and of type [int]. *)
Definition max_uint `{GoArch} : Z := 2 ^ int_bits int_width - 1.
Definition max_int `{GoArch} : Z := 2 ^ (int_bits int_width - 1) - 1.

(** ** Outcomes

    A Go function body either runs to a value or panics.  The library turns no
    panic into an error outside two deferred [recover] calls, so a panic is a
    result of its own and never an error value. *)
Inductive panic :=
| IndexOutOfRange
| SliceBoundsOutOfRange
| MakeLenOutOfRange
| NilDereference
| NilMapWrite
| IntnArgument
| CloseOfClosedChannel
| SendOnClosedChannel
| UserPanic.

Inductive outcome (A : Type) :=
| Val (a : A)
| Panics (p : panic).
Arguments Val {A} _.
Arguments Panics {A} _.

#[export] Instance outcome_ret : MRet outcome := @Val.
#[export] Instance outcome_bind : MBind outcome := λ A B f m,
  match m with Val a => f a | Panics p => Panics p end.
#[export] Instance outcome_fmap : FMap outcome := λ A B f m,
  match m with Val a => Val (f a) | Panics p => Panics p end.

(** ** Bounds-checked access to a slice

    For every slice the library takes a sub-slice of, capacity and length
    agree or the bound is a length, so the check is against the length. *)

(** [b[lo:hi]] *)
Definition sub (b : bytes) (lo hi : Z) : outcome bytes :=
  if decide (0 ≤ lo ≤ hi ∧ hi ≤ blen b)%Z
  then Val (take (Z.to_nat (hi - lo)) (drop (Z.to_nat lo) b))
  else Panics SliceBoundsOutOfRange.

(** [b[lo:]] *)
Definition sub_from (b : bytes) (lo : Z) : outcome bytes := sub b lo (blen b).

(** [b[i]] *)
Definition idx (b : bytes) (i : Z) : outcome byte :=
  if decide (0 ≤ i)%Z then
    match b !! Z.to_nat i with
    | Some x => Val x
    | None => Panics IndexOutOfRange
    end
  else Panics IndexOutOfRange.

(** [b[i] = x] *)
Definition set_idx (b : bytes) (i : Z) (x : byte) : outcome bytes :=
  if decide (0 ≤ i < blen b)%Z then Val (<[Z.to_nat i := x]> b)
  else Panics IndexOutOfRange.

(** [copy(b[lo:hi], src)]: the buffer afterwards and the number of bytes
    copied, the shorter of the two lengths. *)
Definition copy_in (b : bytes) (lo hi : Z) (src : bytes) : outcome (bytes * Z) :=
  if decide (0 ≤ lo ≤ hi ∧ hi ≤ blen b)%Z then
    let n := Nat.min (Z.to_nat (hi - lo)) (length src) in
    Val (take (Z.to_nat lo) b ++ take n src ++ drop (Z.to_nat lo + n) b,
         Z.of_nat n)
  else Panics SliceBoundsOutOfRange.

(** [make([]byte, n)] *)
Definition make_bytes (n : Z) : outcome bytes :=
  if decide (0 ≤ n)%Z then Val (replicate (Z.to_nat n) x00)
  else Panics MakeLenOutOfRange.

(** ** encoding/binary, big endian *)

Definition byte_of (z : Z) : byte :=
  default x00 (Byte.of_N (Z.to_N (z `mod` 256))).
Definition byte_val (b : byte) : Z := Z.of_N (Byte.to_N b).

(** The four bytes [PutUint32] stores. *)
Definition be32 (v : Z) : bytes :=
  [byte_of (Z.shiftr v 24); byte_of (Z.shiftr v 16);
   byte_of (Z.shiftr v 8); byte_of v].

#[global] Arguments be32 : simpl never.

(** [binary.BigEndian.PutUint32(b[lo:hi], v)]; it panics on fewer than four
    bytes, through its bounds check on the last one. *)
Definition put_uint32 (b : bytes) (lo hi v : Z) : outcome bytes :=
  if decide (hi - lo < 4)%Z then Panics IndexOutOfRange
  else fst <$> copy_in b lo hi (be32 v).

(** [binary.BigEndian.Uint32(b)] *)
Definition get_uint32 (b : bytes) : outcome Z :=
  match b with
  | b0 :: b1 :: b2 :: b3 :: _ =>
      Val (Z.lor (byte_val b3) (Z.lor (Z.shiftl (byte_val b2) 8)
             (Z.lor (Z.shiftl (byte_val b1) 16) (Z.shiftl (byte_val b0) 24))))
  | _ => Panics IndexOutOfRange
  end.

(** ** Automation *)

(** Rewrites [bytes] equations keep: lengths, [take]/[drop] of appends. *)
Create Rewrite HintDb gobytes.
Create HintDb godb.

(** Case analysis on the outermost [match] or [decide] of goal or hypotheses. *)
Ltac case_all :=
  repeat (case_match || case_decide); simplify_eq.

(** Close a goal about concrete values by evaluating a decision procedure. *)
Ltac by_decide := apply (bool_decide_eq_true_1 _); vm_compute; reflexivity.

#[export] Instance Val_inj {A} : Inj (=) (=) (@Val A).
Proof. by intros a b [= ->]. Qed.

Lemma outcome_bind_Val {A B} (m : outcome A) (f : A → outcome B) (b : B) :
  (m ≫= f) = Val b ↔ ∃ a, m = Val a ∧ f a = Val b.
Proof. destruct m; simpl; split; [eauto | by intros (? & [= ->] & ?) | done | by intros (? & ? & ?)]. Qed.

Lemma outcome_bind_ret {A B} (a : A) (f : A → outcome B) : (Val a ≫= f) = f a.
Proof. done. Qed.

Lemma outcome_fmap_Val {A B} (m : outcome A) (f : A → B) (b : B) :
  (f <$> m) = Val b ↔ ∃ a, m = Val a ∧ b = f a.
Proof.
  destruct m; unfold fmap, outcome_fmap; split;
    [by intros [= <-]; eauto | by intros (? & [= ->] & ->) | done | by intros (? & ? & ?)].
Qed.

(** ** Bytes and big-endian words *)

Lemma byte_val_range b : (0 ≤ byte_val b < 256)%Z.
Proof.
  unfold byte_val. pose proof (Byte.to_N_bounded b). lia.
Qed.

Lemma byte_val_of z : byte_val (byte_of z) = (z `mod` 256)%Z.
Proof.
  unfold byte_val, byte_of.
  pose proof (Z.mod_pos_bound z 256 eq_refl) as Hz.
  destruct (Byte.of_N (Z.to_N (z `mod` 256))) as [b|] eqn:Hb.
  - apply Byte.to_of_N in Hb. simpl. rewrite Hb. lia.
  - apply Byte.of_N_None_iff in Hb. lia.
Qed.

Lemma byte_val_inj a b : byte_val a = byte_val b → a = b.
Proof.
  unfold byte_val. intros H. apply N2Z.inj in H.
  pose proof (Byte.of_to_N a) as Ha. rewrite H, Byte.of_to_N in Ha. congruence.
Qed.

Lemma byte_of_val b : byte_of (byte_val b) = b.
Proof.
  apply byte_val_inj. rewrite byte_val_of. apply Z.mod_small, byte_val_range.
Qed.

(** Numbers below [2^n] and multiples of [2^n] share no bit. *)
Lemma land_low_high a b n :
  (0 ≤ n → 0 ≤ a < 2 ^ n → Z.land a (b * 2 ^ n) = 0)%Z.
Proof.
  intros Hn Ha. apply Z.bits_inj'. intros i Hi. rewrite Z.land_spec, Z.bits_0.
  destruct (decide (i < n)%Z).
  - rewrite Z.mul_pow2_bits_low by lia. apply andb_false_r.
  - rewrite <- (Z.mod_small a (2 ^ n)) by lia.
    rewrite Z.mod_pow2_bits_high by lia. done.
Qed.

(** A word built from shifted bytes with [Z.lor] is the usual sum. *)
Lemma lor_shiftl_add a b n :
  (0 ≤ n → 0 ≤ a < 2 ^ n → Z.lor a (Z.shiftl b n) = a + b * 2 ^ n)%Z.
Proof.
  intros Hn Ha. rewrite Z.shiftl_mul_pow2 by lia.
  rewrite <- Z.lxor_lor by (by apply land_low_high).
  symmetry. by apply Z.add_nocarry_lxor, land_low_high.
Qed.

Lemma get_uint32_sum b0 b1 b2 b3 rest :
  get_uint32 (b0 :: b1 :: b2 :: b3 :: rest) =
  Val (byte_val b3 + 2^8 * (byte_val b2 + 2^8 * (byte_val b1 + 2^8 * byte_val b0)))%Z.
Proof.
  pose proof (byte_val_range b0). pose proof (byte_val_range b1).
  pose proof (byte_val_range b2). pose proof (byte_val_range b3).
  simpl. f_equal.
  rewrite (Z.lor_assoc (byte_val b3)), (Z.lor_assoc (Z.lor _ _)).
  rewrite (lor_shiftl_add (byte_val b3)) by lia.
  rewrite (lor_shiftl_add (byte_val b3 + _)) by lia.
  rewrite lor_shiftl_add by lia. lia.
Qed.

(** Storing a word and reading it back truncates it to 32 bits. *)
Lemma get_be32 v rest : get_uint32 (be32 v ++ rest) = Val (uint32 v).
Proof.
  unfold be32. simpl app. rewrite get_uint32_sum. f_equal.
  rewrite !byte_val_of, !Z.shiftr_div_pow2 by lia.
  unfold uint32, to_unsigned.
  change (2 ^ 24)%Z with (256 * 256 * 256)%Z. change (2 ^ 16)%Z with (256 * 256)%Z.
  change (2 ^ 8)%Z with 256%Z.
  change (2 ^ 32)%Z with (256 * (256 * (256 * 256)))%Z.
  rewrite (Z.rem_mul_r v 256), (Z.rem_mul_r (v / 256) 256),
    (Z.rem_mul_r (v / 256 / 256) 256) by lia.
  rewrite !Z.div_div by lia. lia.
Qed.

Lemma be32_uint32 v : be32 (uint32 v) = be32 v.
Proof.
  unfold be32, uint32, to_unsigned. rewrite !Z.shiftr_div_pow2 by lia.
  assert (∀ k, 0 ≤ k ≤ 24 → byte_of (v `mod` 2 ^ 32 / 2 ^ k) = byte_of (v / 2 ^ k))%Z
    as Hk.
  { intros k Hk. apply byte_val_inj. rewrite !byte_val_of.
    rewrite <- !Z.shiftr_div_pow2 by lia.
    change 256%Z with (2 ^ 8)%Z. apply Z.bits_inj'. intros i Hi.
    rewrite !Z.testbit_mod_pow2, !Z.shiftr_spec, Z.testbit_mod_pow2 by lia.
    destruct (decide (i < 8)%Z).
    - rewrite (proj2 (Z.ltb_lt (i + k) 32)) by lia. done.
    - rewrite (proj2 (Z.ltb_ge i 8)) by lia. done. }
  rewrite !Hk by lia.
  pose proof (Hk 0%Z) as H0. rewrite !Z.div_1_r in H0. rewrite H0 by lia. done.
Qed.

Lemma get_uint32_range b v : get_uint32 b = Val v → (0 ≤ v < 2 ^ 32)%Z.
Proof.
  destruct b as [|b0 [|b1 [|b2 [|b3 rest]]]]; try done.
  rewrite get_uint32_sum. intros [= <-].
  pose proof (byte_val_range b0). pose proof (byte_val_range b1).
  pose proof (byte_val_range b2). pose proof (byte_val_range b3). lia.
Qed.

Lemma get_uint32_total b : (4 ≤ blen b)%Z → ∃ v, get_uint32 b = Val v.
Proof.
  unfold blen. destruct b as [|b0 [|b1 [|b2 [|b3 rest]]]]; simpl; try lia. eauto.
Qed.

Lemma length_be32 v : length (be32 v) = 4.
Proof. done. Qed.

(** ** Lengths, sub-slices and copies *)

Lemma blen_app a b : blen (a ++ b) = (blen a + blen b)%Z.
Proof. unfold blen. rewrite length_app. lia. Qed.

Lemma blen_cons x b : blen (x :: b) = (1 + blen b)%Z.
Proof. unfold blen. simpl. lia. Qed.

Lemma blen_nil : blen [] = 0%Z.
Proof. done. Qed.

Lemma blen_be32 v : blen (be32 v) = 4%Z.
Proof. done. Qed.

Lemma blen_replicate n x : blen (replicate n x) = Z.of_nat n.
Proof. unfold blen. by rewrite length_replicate. Qed.

Lemma blen_nonneg b : (0 ≤ blen b)%Z.
Proof. unfold blen. lia. Qed.

Lemma to_nat_blen b : Z.to_nat (blen b) = length b.
Proof. unfold blen. lia. Qed.

#[export] Hint Rewrite blen_app blen_cons blen_nil blen_be32 blen_replicate to_nat_blen : gobytes.

(** Linear arithmetic over slice lengths. *)
Ltac blia :=
  autorewrite with gobytes in *;
  repeat match goal with
  | |- context [blen ?b] =>
      lazymatch goal with H : (0 ≤ blen b)%Z |- _ => fail | _ => pose proof (blen_nonneg b) end
  | _ : context [blen ?b] |- _ =>
      lazymatch goal with H : (0 ≤ blen b)%Z |- _ => fail | _ => pose proof (blen_nonneg b) end
  end; lia.

(** Linear arithmetic over the lengths of lists. *)
Ltac lenlia :=
  unfold blen in *; repeat rewrite ?length_app, ?length_replicate, ?length_cons in *;
  simpl length in *; lia.

(** The middle of a concatenation, by its bounds. *)
Lemma sub_middle a b c lo hi :
  lo = blen a → hi = (blen a + blen b)%Z → sub (a ++ b ++ c) lo hi = Val b.
Proof.
  intros -> ->. unfold sub. rewrite decide_True by blia. f_equal.
  replace (Z.to_nat (blen a + blen b - blen a)) with (length b) by (unfold blen; lia).
  rewrite to_nat_blen, drop_app_length. apply take_app_length.
Qed.

Lemma sub_prefix a c hi : hi = blen a → sub (a ++ c) 0 hi = Val a.
Proof. intros ->. by apply (sub_middle [] a c). Qed.

Lemma sub_suffix a b lo hi :
  lo = blen a → hi = blen (a ++ b) → sub (a ++ b) lo hi = Val b.
Proof.
  intros -> ->. rewrite <- (app_nil_r b) at 1. apply sub_middle; [done|].
  by rewrite blen_app.
Qed.

Lemma sub_from_suffix a b lo : lo = blen a → sub_from (a ++ b) lo = Val b.
Proof. intros ->. by apply sub_suffix. Qed.

Lemma sub_total b lo hi :
  (0 ≤ lo ≤ hi)%Z → (hi ≤ blen b)%Z →
  ∃ a m c, sub b lo hi = Val m ∧ b = a ++ m ++ c ∧ blen a = lo ∧ blen m = (hi - lo)%Z.
Proof.
  intros Hlo Hhi. unfold sub. rewrite decide_True by lia.
  exists (take (Z.to_nat lo) b).
  set (m := take _ (drop _ _)). exists m, (drop (Z.to_nat (hi - lo)) (drop (Z.to_nat lo) b)).
  split; [done|]. unfold m. rewrite take_drop, take_drop.
  unfold blen in *. rewrite !length_take, length_drop. split_and!; [done|lia|lia].
Qed.

Lemma idx_app a x b i : i = blen a → idx (a ++ x :: b) i = Val x.
Proof.
  intros ->. unfold idx. rewrite decide_True by blia.
  by rewrite to_nat_blen, list_lookup_middle.
Qed.

(** Overwriting a region with bytes of the same length. *)
Lemma copy_in_region pre old post lo hi src :
  lo = blen pre → length old = length src →
  (blen pre + blen src ≤ hi ≤ blen (pre ++ old ++ post))%Z →
  copy_in (pre ++ old ++ post) lo hi src = Val (pre ++ src ++ post, blen src).
Proof.
  intros -> Hlen Hhi. unfold copy_in. rewrite decide_True by blia.
  assert (Nat.min (Z.to_nat (hi - blen pre)) (length src) = length src) as ->.
  { unfold blen in *. lia. }
  rewrite to_nat_blen, take_app_length, firstn_all.
  rewrite drop_app_add, <- Hlen, drop_app_length. unfold blen. by rewrite Hlen.
Qed.

Lemma copy_in_prefix old post hi src :
  length old = length src → (blen src ≤ hi ≤ blen (old ++ post))%Z →
  copy_in (old ++ post) 0 hi src = Val (src ++ post, blen src).
Proof. intros. by apply (copy_in_region [] old post 0 hi src). Qed.

Lemma set_idx_app pre x y post i :
  i = blen pre → set_idx (pre ++ [x] ++ post) i y = Val (pre ++ [y] ++ post).
Proof.
  intros ->. unfold set_idx. rewrite decide_True by blia.
  rewrite to_nat_blen. f_equal. by rewrite insert_app_r_alt, Nat.sub_diag by lia.
Qed.

Lemma put_uint32_region pre old post lo hi v :
  lo = blen pre → hi = (blen pre + 4)%Z → length old = 4 →
  put_uint32 (pre ++ old ++ post) lo hi v = Val (pre ++ be32 v ++ post).
Proof.
  intros -> -> Hlen. unfold put_uint32. rewrite decide_False by lia.
  rewrite copy_in_region; [done|done|by rewrite length_be32|].
  assert (blen old = 4)%Z by (unfold blen; lia). blia.
Qed.

Lemma make_bytes_nonneg n :
  (0 ≤ n)%Z → make_bytes n = Val (replicate (Z.to_nat n) x00).
Proof. intros. unfold make_bytes. by rewrite decide_True. Qed.

(** ** Conversions that lose nothing *)

Lemma uint32_small z : (0 ≤ z < 2 ^ 32)%Z → uint32 z = z.
Proof. apply Z.mod_small. Qed.

Lemma uint32_range z : (0 ≤ uint32 z < 2 ^ 32)%Z.
Proof. apply Z.mod_pos_bound. lia. Qed.

(** A 32-bit value below [2^31] is the same [int] on every build. *)
Lemma go_int_small `{GoArch} z : (0 ≤ z < 2 ^ 31)%Z → go_int z = z.
Proof.
  intros Hz. unfold go_int, to_signed, int_bits. destruct int_width.
  - simpl Z.sub. rewrite Z.mod_small by lia. lia.
  - simpl Z.sub. rewrite Z.mod_small by lia. lia.
Qed.

(** ** Prefixes *)

(** A prefix of a shortened list is a prefix of the list. *)
Lemma take_app_take {A} k (a p : list A) m :
  ∃ k', take k (a ++ take m p) = take k' (a ++ p).
Proof.
  exists (Nat.min k (length (a ++ take m p))).
  rewrite <- (take_drop m p) at 3. rewrite (app_assoc a).
  rewrite (take_app_le (a ++ take m p)) by lia. rewrite <- take_take. by rewrite (firstn_all (a ++ _)).
Qed.

(** ** Filters *)

Lemma filter_keeps_all {A} (P : A → Prop) `{∀ x, Decision (P x)} (l : list A) :
  Forall P l → filter P l = l.
Proof. induction 1 as [|x l Hx _ IH]; [done|]. by rewrite filter_cons_True, IH. Qed.

Lemma filter_drops_all {A} (P : A → Prop) `{∀ x, Decision (P x)} (l : list A) :
  Forall (λ x, ¬ P x) l → filter P l = [].
Proof. induction 1 as [|x l Hx _ IH]; [done|]. by rewrite filter_cons_False. Qed.

Lemma Forall_sublist {A} (P : A → Prop) (l k : list A) :
  l `sublist_of` k → Forall P k → Forall P l.
Proof.
  induction 1 as [|x l k _ IH|x l k _ IH]; [done| |];
    intros [Hx Hk]%Forall_cons_1; [constructor; [done|]|]; by apply IH.
Qed.

(** A non-negative value of type [int] converts to itself. *)
Lemma go_int_range `{GoArch} z : (0 ≤ z ≤ max_int)%Z → go_int z = z.
Proof.
  unfold go_int, to_signed, max_int, int_bits. intros Hz.
  destruct int_width; simpl Z.sub in *; rewrite Z.mod_small; lia.
Qed.

(** ** Lists updated in place *)

Lemma sum_alter {A} (f : A → nat) (g : A → A) i (l : list A) x :
  l !! i = Some x → sum_list_with f (alter g i l) + f x = sum_list_with f l + f (g x).
Proof.
  revert i. induction l as [|y l IH]; intros [|i] Hi; [done..| |].
  - injection Hi as ->. simpl. lia.
  - specialize (IH i Hi). unfold alter in *. simpl. lia.
Qed.

Lemma sum_insert {A} (f : A → nat) i (l : list A) x y :
  l !! i = Some x → sum_list_with f (<[i := y]> l) + f x = sum_list_with f l + f y.
Proof.
  revert i. induction l as [|z l IH]; intros [|i] Hi; [done..| |].
  - injection Hi as ->. simpl. lia.
  - specialize (IH i Hi). change (<[S i:=y]> (z :: l)) with (z :: <[i:=y]> l). simpl sum_list_with. lia.
Qed.

Lemma list_alter_none {A} (g : A → A) i (l : list A) : l !! i = None → alter g i l = l.
Proof.
  intros Hi. apply list_eq. intros j. rewrite list_lookup_alter. case_decide; [|done].
  subst. by rewrite Hi.
Qed.

Lemma alter_alter {A} (f g : A → A) i (l : list A) : alter f i (alter g i l) = alter (f ∘ g) i l.
Proof. revert i. induction l; intros [|i]; f_equal/=; auto. Qed.
