(* ===== verification/GoStd.v ===== *)
(** * The part of Go's standard library the code uses

    Error values, [bytes.IndexByte] and [bytes.SplitN], [strconv]'s decimal
    conversions, and buffered connections: [bufio.Reader] with [Peek],
    [Discard] and [io.ReadFull], [bufio.Writer] with [Write] and [Flush].

    A connection is given by the script of what its [Read] calls return and of
    how its [Write] calls end.  A script that has run out means that the peer
    sends nothing more for now: the reader blocks.  Quantifying over scripts is
    quantifying over every way the network can split, coalesce, delay or break
    a stream. *)

From S2P Require Import Prelude.

(** ** Errors *)

Inductive fmt_arg :=
| ABytes (b : bytes)
| AInt (z : Z).

(** An error is a sentinel made by [errors.New], which in this library is
    determined by its text; the result of [fmt.Errorf]; a [*net.OpError] with
    the answers of its [Timeout] and [Temporary] methods; the worker's
    [*WorkerDisconnectError] with the agent it is about; or an error value
    made by code the caller supplies. *)
Inductive error :=
| New (text : string)
| Errorf (format : string) (args : list fmt_arg)
| OpError (timeout temporary : bool)
| Disconnect (err : error) (agent : nat)
| UserError (tag : Z).

#[export] Instance fmt_arg_eq_dec : EqDecision fmt_arg.
Proof. solve_decision. Defined.

#[export] Instance error_eq_dec : EqDecision error.
Proof. solve_decision. Defined.

Definition EOF : error := New "EOF".
Definition ErrUnexpectedEOF : error := New "unexpected EOF".
Definition ErrShortWrite : error := New "short write".

(** ** Package bytes *)

(** [bytes.IndexByte(b, c)]: the first index of [c], or -1. *)
Fixpoint IndexByte (b : bytes) (c : byte) : Z :=
  match b with
  | [] => -1
  | x :: b' =>
      if decide (x = c) then 0
      else let i := IndexByte b' c in if decide (i < 0)%Z then -1 else i + 1
  end.

(** [bytes.SplitN(b, []byte{c}, 2)] *)
Definition SplitN2 (b : bytes) (c : byte) : list bytes :=
  let i := IndexByte b c in
  if decide (i < 0)%Z then [b]
  else [take (Z.to_nat i) b; drop (Z.to_nat i + 1) b].

(** ** Package strconv, base 10 *)

Inductive num_error := ErrSyntax | ErrRange.

Definition is_digit (c : byte) : bool :=
  bool_decide (48 ≤ byte_val c ≤ 57)%Z.
Definition digit_val (c : byte) : Z := byte_val c - 48.
Definition digit_byte (d : Z) : byte := byte_of (48 + d).

(** The loop of [ParseUint]: [n] is a [uint64], and [max] the largest value of
    the requested bit size. *)
Definition cutoff : Z := (2 ^ 64 - 1) / 10 + 1.

Fixpoint parse_loop (max : Z) (s : bytes) (n : Z) : Z * option num_error :=
  match s with
  | [] => (n, None)
  | c :: s' =>
      if is_digit c then
        if decide (cutoff ≤ n)%Z then (max, Some ErrRange)
        else
          let n := (n * 10)%Z in
          let n1 := uint64 (n + digit_val c) in
          if decide (n1 < n ∨ max < n1)%Z then (max, Some ErrRange)
          else parse_loop max s' n1
      else (0%Z, Some ErrSyntax)
  end.

(** [strconv.ParseUint(s, 10, 0)]: bit size 0 is the width of [uint]. *)
Definition ParseUint `{GoArch} (s : bytes) : Z * option num_error :=
  match s with
  | [] => (0%Z, Some ErrSyntax)
  | _ => parse_loop max_uint s 0
  end.

Fixpoint format_loop (fuel : nat) (n : Z) (acc : bytes) : bytes :=
  match fuel with
  | O => acc
  | S fuel =>
      let acc := digit_byte (n `mod` 10) :: acc in
      if decide (n / 10 = 0)%Z then acc else format_loop fuel (n / 10) acc
  end.

(** [strconv.FormatUint(n, 10)]; a number has at most one digit per bit. *)
Definition FormatUint (n : Z) : bytes :=
  format_loop (S (Z.to_nat (Z.log2 n))) n [].

(** [strconv.FormatInt(n, 10)] and [strconv.Itoa(n)] *)
Definition FormatInt (n : Z) : bytes :=
  if decide (n < 0)%Z then x2d :: FormatUint (- n) else FormatUint n.

(** The number a string of digits denotes. *)
Definition digits_value (s : bytes) : Z :=
  fold_left (λ n c, n * 10 + digit_val c)%Z s 0%Z.

(** ** Reading from a connection *)

(** One [Read] call on the connection: the bytes it returned, or its error. *)
Inductive read_event :=
| Chunk (b : bytes)
| Fail (e : error).

(** A [bufio.Reader]: what it has buffered and what its connection will do. *)
Record Reader := mkReader {
  rbuf : bytes;
  rconn : list read_event
}.

(** How an attempt to read ended. *)
Inductive read_result :=
| Got (b : bytes)
| Failed (e : error)
| Blocked.

Inductive fill_result := Filled | FillErr (e : error) | FillBlocked.

(** Read from the connection until [n] bytes are buffered. *)
Fixpoint fill (n : nat) (buf : bytes) (conn : list read_event) :
    fill_result * bytes * list read_event :=
  if decide (n ≤ length buf) then (Filled, buf, conn)
  else match conn with
       | [] => (FillBlocked, buf, [])
       | Chunk c :: conn' => fill n (buf ++ c) conn'
       | Fail e :: conn' => (FillErr e, buf, conn')
       end.

(** [r.Peek(n)], [n] below the buffer size: nothing is consumed, whether it
    succeeds or not. *)
Definition Peek (n : nat) (r : Reader) : read_result * Reader :=
  match fill n (rbuf r) (rconn r) with
  | (Filled, buf, conn) => (Got (take n buf), mkReader buf conn)
  | (FillErr e, buf, conn) => (Failed e, mkReader buf conn)
  | (FillBlocked, buf, conn) => (Blocked, mkReader buf conn)
  end.

(** [r.Discard(n)] of bytes that are buffered. *)
Definition Discard (n : nat) (r : Reader) : Reader :=
  mkReader (drop n (rbuf r)) (rconn r).

(** [io.ReadFull(r, p)] with [len(p) = n]: an EOF after the first byte is
    [ErrUnexpectedEOF], and the bytes read before an error are gone. *)
Definition ReadFull (n : nat) (r : Reader) : read_result * Reader :=
  match fill n (rbuf r) (rconn r) with
  | (Filled, buf, conn) => (Got (take n buf), mkReader (drop n buf) conn)
  | (FillErr e, buf, conn) =>
      (Failed (if decide (e = EOF ∧ buf ≠ []) then ErrUnexpectedEOF else e),
       mkReader [] conn)
  | (FillBlocked, buf, conn) => (Blocked, mkReader buf conn)
  end.

(** ** Writing to a connection *)

(** The failure of one [Write] call on the connection after [k] bytes. *)
Record write_fault := mkFault { fault_after : nat; fault_err : error }.

(** A [bufio.Writer] over a connection: what is buffered, the sticky error,
    the bytes the peer has been sent, and how the coming [Write] calls on the
    connection end ([None] or an exhausted script: all bytes accepted). *)
Record Writer := mkWriter {
  wbuf : bytes;
  werr : option error;
  wire : bytes;
  wscript : list (option write_fault)
}.

(** The default size of a [bufio.Writer]. *)
Definition bufsize : nat := 4096.

(** [conn.Write(p)]: how many bytes it took and its error. *)
Definition conn_write (p : bytes) (w : Writer) : nat * option error * Writer :=
  match wscript w with
  | Some f :: script =>
      let n := Nat.min (fault_after f) (length p) in
      (n, Some (fault_err f),
       mkWriter (wbuf w) (werr w) (wire w ++ take n p) script)
  | None :: script =>
      (length p, None, mkWriter (wbuf w) (werr w) (wire w ++ p) script)
  | [] => (length p, None, mkWriter (wbuf w) (werr w) (wire w ++ p) [])
  end.

(** [w.Flush()] *)
Definition Flush (w : Writer) : option error * Writer :=
  match werr w with
  | Some e => (Some e, w)
  | None =>
      match wbuf w with
      | [] => (None, w)
      | buf =>
          let '(n, err, w') := conn_write buf w in
          match err with
          | Some e => (Some e, mkWriter (drop n buf) (Some e) (wire w') (wscript w'))
          | None => (None, mkWriter [] None (wire w') (wscript w'))
          end
      end
  end.

(** One round of the loop of [w.Write]: straight to the connection when
    nothing is buffered, else top the buffer up and flush it.  The result is
    the number of bytes of [p] taken. *)
Definition write_round (p : bytes) (w : Writer) : nat * Writer :=
  match wbuf w with
  | [] =>
      let '(n, err, w') := conn_write p w in
      (n, mkWriter [] err (wire w') (wscript w'))
  | buf =>
      let n := Nat.min (bufsize - length buf) (length p) in
      (n, snd (Flush (mkWriter (buf ++ take n p) (werr w) (wire w) (wscript w))))
  end.

Fixpoint write_loop (fuel : nat) (p : bytes) (nn : nat) (w : Writer) :
    nat * option error * Writer :=
  match fuel with
  | O => (nn, werr w, w)
  | S fuel =>
      if decide (bufsize - length (wbuf w) < length p ∧ werr w = None) then
        let '(n, w') := write_round p w in
        write_loop fuel (drop n p) (nn + n) w'
      else match werr w with
           | Some e => (nn, Some e, w)
           | None => (nn + length p, None,
                      mkWriter (wbuf w ++ p) None (wire w) (wscript w))
           end
  end.

(** [w.Write(p)].  A round either empties [p], sets the error, or empties the
    buffer, so three rounds are always enough. *)
Definition BufWrite (p : bytes) (w : Writer) : nat * option error * Writer :=
  write_loop 4 p 0 w.

(** ** What a reader will deliver

    The stream behind a reader forgets how the bytes are split between the
    buffer and the coming [Read] calls, and keeps the errors in their place.
    Two readers with the same stream are equivalent. *)

Definition event_stream (e : read_event) : list (byte + error) :=
  match e with Chunk b => inl <$> b | Fail e => [inr e] end.

Definition stream (r : Reader) : list (byte + error) :=
  (inl <$> rbuf r) ++ concat (event_stream <$> rconn r).

#[export] Instance reader_equiv : Equiv Reader := λ r1 r2, stream r1 = stream r2.

#[export] Instance reader_equivalence : Equivalence (≡@{Reader}).
Proof. split; unfold equiv, reader_equiv; repeat intro; congruence. Qed.

(** The bytes before the first error, and what follows them. *)
Fixpoint lead (s : list (byte + error)) : bytes :=
  match s with inl b :: s' => b :: lead s' | _ => [] end.

Fixpoint after (s : list (byte + error)) : list (byte + error) :=
  match s with inl b :: s' => after s' | _ => s end.

(** [Peek] and [io.ReadFull] on streams: the reference for the buffered ones. *)
Definition peek_stream (n : nat) (s : list (byte + error)) :
    read_result * list (byte + error) :=
  if decide (n ≤ length (lead s)) then (Got (take n (lead s)), s)
  else match after s with
       | inr e :: s' => (Failed e, (inl <$> lead s) ++ s')
       | _ => (Blocked, s)
       end.

Definition readfull_stream (n : nat) (s : list (byte + error)) :
    read_result * list (byte + error) :=
  if decide (n ≤ length (lead s)) then (Got (take n (lead s)), drop n s)
  else match after s with
       | inr e :: s' =>
           (Failed (if decide (e = EOF ∧ lead s ≠ []) then ErrUnexpectedEOF else e), s')
       | _ => (Blocked, s)
       end.

(** ** Lemmas: searching *)

Lemma IndexByte_range b c : (-1 ≤ IndexByte b c < blen b)%Z ∨ IndexByte b c = (-1)%Z.
Proof.
  induction b as [|x b IH]; simpl; [by right|].
  rewrite blen_cons. pose proof (blen_nonneg b).
  case_all; try (right; done); left; lia.
Qed.

Lemma IndexByte_first a c rest :
  c ∉ a → IndexByte (a ++ c :: rest) c = blen a.
Proof.
  induction a as [|x a IH]; intros Hc; simpl.
  - by rewrite decide_True.
  - apply not_elem_of_cons in Hc as [Hx Hc]. rewrite decide_False by done.
    rewrite IH by done. rewrite decide_False by blia. rewrite blen_cons. lia.
Qed.

Lemma IndexByte_absent b c : c ∉ b → IndexByte b c = (-1)%Z.
Proof.
  induction b as [|x b IH]; intros Hc; simpl; [done|].
  apply not_elem_of_cons in Hc as [Hx Hc]. rewrite decide_False by done.
  by rewrite IH.
Qed.

(** What a search result says about the bytes searched. *)
Lemma IndexByte_spec b c :
  (IndexByte b c = (-1)%Z ∧ c ∉ b) ∨
  (∃ a rest, b = a ++ (c :: rest) ∧ (c ∉ a) ∧ IndexByte b c = blen a).
Proof.
  destruct (decide (c ∈ b)) as [Hc|Hc].
  - right. apply list_elem_of_split_l in Hc as (a & rest & -> & Ha).
    exists a, rest. split_and!; [done..|by apply IndexByte_first].
  - left. split; [by apply IndexByte_absent|done].
Qed.

Lemma SplitN2_two a c rest : c ∉ a → SplitN2 (a ++ c :: rest) c = [a; rest].
Proof.
  intros Hc. unfold SplitN2. rewrite IndexByte_first by done.
  rewrite decide_False by blia. rewrite to_nat_blen, take_app_length.
  rewrite drop_app_add. done.
Qed.

Lemma SplitN2_one b c : c ∉ b → SplitN2 b c = [b].
Proof. intros Hc. unfold SplitN2. by rewrite IndexByte_absent. Qed.

(** ** Lemmas: decimal numbers *)

Lemma digits_value_snoc s c :
  digits_value (s ++ [c]) = (digits_value s * 10 + digit_val c)%Z.
Proof. unfold digits_value. by rewrite fold_left_app. Qed.

Lemma is_digit_val c : is_digit c = true → (0 ≤ digit_val c ≤ 9)%Z.
Proof. unfold is_digit, digit_val. rewrite bool_decide_eq_true. lia. Qed.

Lemma digit_byte_is_digit d : (0 ≤ d ≤ 9)%Z → is_digit (digit_byte d) = true.
Proof.
  intros Hd. unfold is_digit, digit_byte. rewrite bool_decide_eq_true, byte_val_of.
  rewrite Z.mod_small; lia.
Qed.

Lemma digit_byte_val d : (0 ≤ d ≤ 9)%Z → digit_val (digit_byte d) = d.
Proof.
  intros Hd. unfold digit_val, digit_byte. rewrite byte_val_of, Z.mod_small; lia.
Qed.

Lemma fold_digits_ge s n :
  Forall (λ c, is_digit c = true) s → (0 ≤ n)%Z →
  (n ≤ fold_left (λ n c, n * 10 + digit_val c) s n)%Z.
Proof.
  intros Hs. revert n. induction Hs as [|c s Hc _ IH]; intros n Hn; simpl; [lia|].
  apply is_digit_val in Hc. etrans; [|apply IH; lia]. lia.
Qed.

Lemma cutoff_eq : cutoff = 1844674407370955162%Z.
Proof. done. Qed.

(** [ParseUint]'s loop computes the denoted number when it fits. *)
Lemma parse_loop_fits max s n :
  (0 ≤ n ≤ max)%Z → (max < 2 ^ 64)%Z →
  Forall (λ c, is_digit c = true) s →
  (fold_left (λ n c, n * 10 + digit_val c) s n ≤ max)%Z →
  parse_loop max s n = (fold_left (λ n c, n * 10 + digit_val c)%Z s n, None).
Proof.
  intros Hn Hmax Hs. revert n Hn.
  induction Hs as [|c s Hc Hs IH]; intros n Hn Hfit; simpl; [done|].
  simpl in Hfit. rewrite Hc. apply is_digit_val in Hc.
  pose proof (fold_digits_ge s (n * 10 + digit_val c) Hs ltac:(lia)) as Hge.
  rewrite decide_False by (rewrite cutoff_eq; lia). unfold uint64, to_unsigned.
  rewrite Z.mod_small by lia. rewrite decide_False by lia. apply IH; lia.
Qed.

(** It accepts nothing else. *)
Lemma parse_loop_ok max s n v :
  (0 ≤ n ≤ max)%Z → (max < 2 ^ 64)%Z →
  parse_loop max s n = (v, None) →
  Forall (λ c, is_digit c = true) s ∧
  v = fold_left (λ n c, n * 10 + digit_val c)%Z s n ∧ (v ≤ max)%Z.
Proof.
  intros Hn Hmax. revert n Hn. induction s as [|c s IH]; simpl; intros n Hn Hp.
  - simplify_eq. split_and!; [done..|lia].
  - destruct (is_digit c) eqn:Hc; [|done]. pose proof (is_digit_val c Hc).
    case_decide; [done|]. case_decide as Hw; [done|].
    rewrite cutoff_eq in *. unfold uint64, to_unsigned in *.
    assert ((n * 10 + digit_val c) `mod` 2 ^ 64 = n * 10 + digit_val c)%Z as Hm.
    { apply Z.mod_small. split; [lia|].
      destruct (decide (n * 10 + digit_val c < 2 ^ 64)%Z); [done|].
      exfalso. pose proof (Z.mod_pos_bound (n * 10 + digit_val c) (2 ^ 64) ltac:(lia)).
      assert ((n * 10 + digit_val c) `mod` 2 ^ 64 = n * 10 + digit_val c - 2 ^ 64)%Z; [|lia].
      symmetry. apply (Z.mod_unique _ _ 1); lia. }
    rewrite Hm in *. apply IH in Hp as (? & ? & ?); [|lia]. split_and!; [by constructor|done..].
Qed.

Lemma max_uint_bound `{GoArch} : (2 ^ 32 - 1 ≤ max_uint < 2 ^ 64)%Z.
Proof. unfold max_uint, int_bits. destruct int_width; lia. Qed.

(** [ParseUint] accepts exactly the non-empty strings of digits whose value
    fits the build's [uint], and returns that value. *)
Lemma ParseUint_iff `{GoArch} s v :
  ParseUint s = (v, None) ↔
  s ≠ [] ∧ Forall (λ c, is_digit c = true) s ∧ v = digits_value s ∧ (v ≤ max_uint)%Z.
Proof.
  pose proof max_uint_bound. unfold ParseUint. destruct s as [|c s]; [split; [done|by intros (? & _)]|].
  set (t := c :: s). unfold digits_value. split.
  - intros Hp. apply parse_loop_ok in Hp as (? & ? & ?); [|lia..]. done.
  - intros (_ & Hd & -> & Hv). apply parse_loop_fits; [lia..|done|done].
Qed.

(** The digits [FormatUint] produces denote the number formatted. *)
Lemma format_loop_spec fuel n acc :
  (0 ≤ n < 10 ^ Z.of_nat fuel)%Z → fuel ≠ O →
  ∃ s, format_loop fuel n acc = s ++ acc ∧ s ≠ [] ∧
       Forall (λ c, is_digit c = true) s ∧ digits_value s = n.
Proof.
  revert n acc. induction fuel as [|fuel IH]; intros n acc Hn Hf; [done|]. simpl.
  pose proof (Z.mod_pos_bound n 10 ltac:(lia)) as Hm.
  pose proof (Z.div_mod n 10 ltac:(lia)) as Hdm.
  case_decide as Hz.
  - exists [digit_byte (n `mod` 10)]. split_and!; [done|done| |].
    + constructor; [|done]. apply digit_byte_is_digit. lia.
    + unfold digits_value. simpl. rewrite digit_byte_val by lia. lia.
  - assert (0 ≤ n / 10 < 10 ^ Z.of_nat fuel)%Z as Hd.
    { split; [apply Z.div_pos; lia|]. apply Z.div_lt_upper_bound; [lia|].
      rewrite <- Z.pow_succ_r by lia. rewrite <- Nat2Z.inj_succ. apply Hn. }
    destruct (decide (fuel = 0)) as [->|Hf']; [simpl in Hd; lia|].
    destruct (IH (n / 10)%Z (digit_byte (n `mod` 10) :: acc) Hd Hf')
      as (s & -> & Hs & Hall & Hv).
    exists (s ++ [digit_byte (n `mod` 10)]). split_and!.
    + by rewrite <- app_assoc.
    + by destruct s.
    + apply Forall_app. split; [done|]. constructor; [|done].
      apply digit_byte_is_digit. lia.
    + rewrite digits_value_snoc, Hv, digit_byte_val by lia. lia.
Qed.

Lemma FormatUint_spec n :
  (0 ≤ n)%Z →
  FormatUint n ≠ [] ∧ Forall (λ c, is_digit c = true) (FormatUint n) ∧
  digits_value (FormatUint n) = n.
Proof.
  intros Hn. unfold FormatUint.
  destruct (format_loop_spec (S (Z.to_nat (Z.log2 n))) n []) as (s & -> & ? & ? & ?).
  - split; [done|]. pose proof (Z.log2_nonneg n).
    rewrite Nat2Z.inj_succ, Z2Nat.id by lia.
    destruct (decide (n = 0)%Z) as [->|]; [simpl; lia|].
    pose proof (Z.log2_spec n ltac:(lia)) as [_ Hlt].
    eapply Z.lt_le_trans; [exact Hlt|]. apply Z.pow_le_mono_l. lia.
  - done.
  - by rewrite app_nil_r.
Qed.

Lemma digit_not_nul c : is_digit c = true → c ≠ x00.
Proof. intros Hc ->. done. Qed.

Lemma FormatUint_no_nul n : (0 ≤ n)%Z → x00 ∉ FormatUint n.
Proof.
  intros Hn Hin. destruct (FormatUint_spec n Hn) as (_ & Hall & _).
  rewrite Forall_forall in Hall.
  by apply (digit_not_nul x00 (Hall _ (proj1 (list_elem_of_In _ _) Hin))).
Qed.

Lemma FormatInt_no_nul n : x00 ∉ FormatInt n.
Proof.
  unfold FormatInt. case_decide; [|apply FormatUint_no_nul; lia].
  apply not_elem_of_cons. split; [done|]. apply FormatUint_no_nul. lia.
Qed.

(** Formatting and parsing back. *)
Lemma ParseUint_FormatUint `{GoArch} n :
  (0 ≤ n ≤ max_uint)%Z → ParseUint (FormatUint n) = (n, None).
Proof.
  intros Hn. destruct (FormatUint_spec n) as (? & ? & ?); [lia|].
  apply ParseUint_iff. split_and!; [done..|lia].
Qed.

#[export] Hint Resolve FormatInt_no_nul : godb.

(** ** Lemmas: buffered reading *)

Lemma lead_app b s : lead ((inl <$> b) ++ s) = b ++ lead s.
Proof. induction b as [|x b IH]; csimpl; [done|]. by rewrite IH. Qed.

Lemma after_app b s : after ((inl <$> b) ++ s) = after s.
Proof. by induction b as [|x b IH]. Qed.

Lemma lead_inl b : lead (inl <$> b) = b.
Proof. pose proof (lead_app b []) as H. by rewrite !app_nil_r in H. Qed.

Lemma after_inl b : after (inl <$> b) = [].
Proof. by induction b. Qed.

Lemma lead_after s : s = (inl <$> lead s) ++ after s.
Proof. induction s as [|[b|e] s IH]; csimpl; [done| |done]. f_equal. exact IH. Qed.

Lemma drop_lead n s : n ≤ length (lead s) → drop n s = (inl <$> drop n (lead s)) ++ after s.
Proof.
  intros Hn. rewrite (lead_after s) at 1. rewrite drop_app_le by by rewrite length_fmap.
  by rewrite fmap_drop.
Qed.

Lemma stream_push b c conn :
  stream (mkReader b (Chunk c :: conn)) = stream (mkReader (b ++ c) conn).
Proof. unfold stream. simpl. by rewrite fmap_app, app_assoc. Qed.

(** [fill] on the stream: enough bytes before the first error, an error, or
    neither. *)
Lemma fill_stream n buf conn :
  let s := stream (mkReader buf conn) in
  match fill n buf conn with
  | (Filled, buf', conn') =>
      n ≤ length (lead s) ∧ n ≤ length buf' ∧ stream (mkReader buf' conn') = s
  | (FillErr e, buf', conn') =>
      ¬ n ≤ length (lead s) ∧ buf' = lead s ∧
      after s = inr e :: stream (mkReader [] conn')
  | (FillBlocked, buf', conn') =>
      ¬ n ≤ length (lead s) ∧ after s = [] ∧ stream (mkReader buf' conn') = s
  end.
Proof.
  revert buf. induction conn as [|[c|e] conn IH]; intros buf; simpl; case_decide as Hn.
  - unfold stream. simpl. rewrite app_nil_r, lead_inl. done.
  - unfold stream. simpl. rewrite app_nil_r, lead_inl. split_and!; [done| |done].
    apply after_inl.
  - unfold stream at 1. simpl. rewrite lead_app, length_app. split_and!; [lia|done..].
  - rewrite stream_push. apply IH.
  - unfold stream at 1. simpl. rewrite lead_app, length_app. split_and!; [lia|done..].
  - unfold stream. simpl. rewrite lead_app, after_app. simpl. rewrite app_nil_r. done.
Qed.

Lemma take_lead_buf n buf conn :
  n ≤ length buf → take n (lead (stream (mkReader buf conn))) = take n buf.
Proof. intros Hn. unfold stream. simpl. by rewrite lead_app, take_app_le. Qed.

Lemma stream_drop n buf conn :
  n ≤ length buf → stream (mkReader (drop n buf) conn) = drop n (stream (mkReader buf conn)).
Proof.
  intros Hn. unfold stream. simpl.
  rewrite drop_app_le by by rewrite length_fmap. by rewrite fmap_drop.
Qed.

Lemma Peek_stream n r :
  (Peek n r).1 = (peek_stream n (stream r)).1 ∧
  stream (Peek n r).2 = (peek_stream n (stream r)).2.
Proof.
  destruct r as [buf conn]. unfold Peek, peek_stream. simpl rbuf. simpl rconn.
  pose proof (fill_stream n buf conn) as H. simpl in H.
  destruct (fill n buf conn) as [[[|e|] buf'] conn'].
  - destruct H as (H1 & H2 & H3). rewrite decide_True by done. simpl.
    by rewrite <- H3, take_lead_buf.
  - destruct H as (H1 & -> & H3). rewrite decide_False by done. by rewrite H3.
  - destruct H as (H1 & H2 & H3). rewrite decide_False by done. by rewrite H2.
Qed.

Lemma ReadFull_stream n r :
  (ReadFull n r).1 = (readfull_stream n (stream r)).1 ∧
  stream (ReadFull n r).2 = (readfull_stream n (stream r)).2.
Proof.
  destruct r as [buf conn]. unfold ReadFull, readfull_stream. simpl rbuf. simpl rconn.
  pose proof (fill_stream n buf conn) as H. simpl in H.
  destruct (fill n buf conn) as [[[|e|] buf'] conn'].
  - destruct H as (H1 & H2 & H3). rewrite decide_True by done. simpl.
    rewrite <- H3. split; [by rewrite take_lead_buf|by apply stream_drop].
  - destruct H as (H1 & -> & H3). rewrite (decide_False (P := _ ≤ _)) by done. by rewrite H3.
  - destruct H as (H1 & H2 & H3). rewrite decide_False by done. by rewrite H2.
Qed.

(** Equivalent readers answer alike and stay equivalent. *)
#[export] Instance Peek_proper n :
  Proper ((≡) ==> (prod_relation (=) (≡))) (Peek n).
Proof.
  intros r1 r2 Hr. unfold equiv, reader_equiv in Hr.
  destruct (Peek_stream n r1) as [H1 H2], (Peek_stream n r2) as [H3 H4].
  split; unfold equiv, reader_equiv; congruence.
Qed.

#[export] Instance ReadFull_proper n :
  Proper ((≡) ==> (prod_relation (=) (≡))) (ReadFull n).
Proof.
  intros r1 r2 Hr. unfold equiv, reader_equiv in Hr.
  destruct (ReadFull_stream n r1) as [H1 H2], (ReadFull_stream n r2) as [H3 H4].
  split; unfold equiv, reader_equiv; congruence.
Qed.

(** Reading exactly the next [b] off a stream that starts with it. *)
Lemma readfull_stream_app b s n :
  n = length b → readfull_stream n ((inl <$> b) ++ s) = (Got b, s).
Proof.
  intros ->. unfold readfull_stream. rewrite lead_app, decide_True by (rewrite length_app; lia).
  by rewrite take_app_length, drop_app_length' by by rewrite length_fmap.
Qed.

(** What a successful read took is what it returned. *)
Lemma readfull_stream_got n s b s' :
  readfull_stream n s = (Got b, s') → length b = n ∧ s = (inl <$> b) ++ s'.
Proof.
  unfold readfull_stream. case_decide as Hn; intros Heq; [|by case_all].
  simplify_eq. rewrite length_take. split; [lia|].
  rewrite (lead_after s) at 1. rewrite drop_lead by done.
  rewrite app_assoc, <- fmap_app, take_drop. done.
Qed.

(** A stream that fails before [n] bytes are in. *)
Lemma readfull_stream_cut n b e s :
  length b < n →
  readfull_stream n ((inl <$> b) ++ inr e :: s) =
  (Failed (if decide (e = EOF ∧ b ≠ []) then ErrUnexpectedEOF else e), s).
Proof.
  intros Hn. unfold readfull_stream. rewrite lead_app, after_app. simpl.
  rewrite app_nil_r. by rewrite (decide_False (P := n ≤ _)) by lia.
Qed.

Lemma peek_stream_app b s n :
  n = length b → peek_stream n ((inl <$> b) ++ s) = (Got b, (inl <$> b) ++ s).
Proof.
  intros ->. unfold peek_stream. rewrite lead_app, decide_True by (rewrite length_app; lia).
  by rewrite take_app_length.
Qed.

(** ** Lemmas: buffered writing *)

(** What a step of the writer may do to the peer: everything accepted so far is
    on the wire or buffered, or the writer is broken and the wire holds a
    prefix of it. *)
Definition wrote (w w' : Writer) (p : bytes) : Prop :=
  (werr w' = None ∧ wire w' ++ wbuf w' = wire w ++ wbuf w ++ p) ∨
  (∃ e k, werr w' = Some e ∧ wire w' = wire w ++ take k (wbuf w ++ p)).

(** What reading leaves behind. *)
Lemma length_after_lead s : length s = length (lead s) + length (after s).
Proof. rewrite (lead_after s) at 1. by rewrite length_app, length_fmap. Qed.

Lemma peek_stream_length n s r s' :
  peek_stream n s = (r, s') →
  match r with Failed _ => length s' < length s | _ => s' = s end.
Proof.
  unfold peek_stream. case_decide; [by intros [= <- <-]|].
  destruct (after s) as [|[b|e] s1] eqn:Ha; intros [= <- <-]; [done..|].
  pose proof (length_after_lead s) as Hl. rewrite Ha in Hl. simpl in Hl.
  rewrite length_app, length_fmap. lia.
Qed.

Lemma readfull_stream_length n s r s' :
  readfull_stream n s = (r, s') →
  match r with Failed _ => length s' < length s | _ => length s' ≤ length s end.
Proof.
  unfold readfull_stream. case_decide; [intros [= <- <-]; rewrite length_drop; lia|].
  destruct (after s) as [|[b|e] s1] eqn:Ha; intros [= <- <-]; [done..|].
  pose proof (length_after_lead s) as Hl. rewrite Ha in Hl. simpl in Hl. lia.
Qed.

Lemma rbuf_lead rd : length (rbuf rd) ≤ length (lead (stream rd)).
Proof. unfold stream. rewrite lead_app, length_app. lia. Qed.

Lemma conn_write_spec p w n err w' :
  conn_write p w = (n, err, w') →
  wbuf w' = wbuf w ∧ werr w' = werr w ∧ wire w' = wire w ++ take n p ∧
  (err = None → n = length p).
Proof.
  unfold conn_write. intros H.
  destruct (wscript w) as [|[f|] script]; simplify_eq/=; rewrite ?firstn_all; done.
Qed.

Lemma Flush_spec w err w' :
  werr w = None → Flush w = (err, w') →
  (err = None ∧ werr w' = None ∧ wbuf w' = [] ∧ wire w' = wire w ++ wbuf w) ∨
  (∃ e k, err = Some e ∧ werr w' = Some e ∧ wire w' = wire w ++ take k (wbuf w)).
Proof.
  intros Hw. unfold Flush. rewrite Hw. destruct (wbuf w) as [|b buf] eqn:Hbuf.
  - intros [= <- <-]. left. by rewrite Hbuf, app_nil_r.
  - destruct (conn_write (b :: buf) w) as [[n e] w1] eqn:Hc.
    apply conn_write_spec in Hc as (_ & _ & Hwire & Hn).
    destruct e as [e|]; intros [= <- <-]; simpl.
    + right. by exists e, n.
    + left. by rewrite Hwire, Hn, firstn_all.
Qed.

Lemma Flush_broken w e : werr w = Some e → Flush w = (Some e, w).
Proof. intros Hw. unfold Flush. by rewrite Hw. Qed.

Lemma write_round_spec p w n w' :
  werr w = None → write_round p w = (n, w') →
  (werr w' = None ∧ wbuf w' = [] ∧ wire w' = wire w ++ wbuf w ++ take n p ∧
   (wbuf w = [] → n = length p)) ∨
  (∃ e k, werr w' = Some e ∧ wire w' = wire w ++ take k (wbuf w ++ p)).
Proof.
  intros Hw. unfold write_round. destruct (wbuf w) as [|b buf] eqn:Hbuf.
  - destruct (conn_write p w) as [[m e] w1] eqn:Hc.
    apply conn_write_spec in Hc as (_ & _ & Hwire & Hn).
    intros [= <- <-]. destruct e as [e|]; simpl; [right|left].
    + by exists e, m.
    + split_and!; [done|done|done|auto].
  - set (m := Nat.min _ _). destruct (Flush _) as [e w1] eqn:Hf.
    intros [= <- <-]. apply Flush_spec in Hf as [(_ & ? & ? & ->)|(e' & k & _ & ? & ->)];
      [left|right|done]; simpl.
    + split_and!; done.
    + destruct (take_app_take k (b :: buf) p m) as [k' Hk].
      exists e', k'. split; [done|]. simpl in *. by rewrite Hk.
Qed.

Lemma write_loop_broken fuel p nn w e :
  werr w = Some e → write_loop (S fuel) p nn w = (nn, Some e, w).
Proof.
  intros Hw. simpl. rewrite decide_False by (intros [_ ?]; congruence). by rewrite Hw.
Qed.

Lemma write_loop_short fuel p nn w :
  werr w = None → length p ≤ bufsize - length (wbuf w) →
  write_loop (S fuel) p nn w =
  (nn + length p, None, mkWriter (wbuf w ++ p) None (wire w) (wscript w)).
Proof. intros Hw Hp. simpl. rewrite decide_False by lia. by rewrite Hw. Qed.

(** A broken writer takes nothing: the error is sticky. *)
Lemma BufWrite_broken p w e : werr w = Some e → BufWrite p w = (0, Some e, w).
Proof. intros. by apply write_loop_broken. Qed.

(** From an empty buffer, one round suffices. *)
Lemma write_loop_empty fuel p nn w n err w' :
  werr w = None → wbuf w = [] → write_loop (S (S fuel)) p nn w = (n, err, w') →
  (err = None ∧ werr w' = None ∧ n = nn + length p ∧
   ∃ x, wire w' = wire w ++ x ∧ x ++ wbuf w' = p) ∨
  (∃ e k, err = Some e ∧ werr w' = Some e ∧ wire w' = wire w ++ take k p).
Proof.
  intros Hw Hb Hl. destruct (decide (length p ≤ bufsize - length (wbuf w))) as [Hp|Hp].
  - rewrite write_loop_short in Hl by done. simplify_eq/=. left. rewrite Hb.
    split_and!; [done..|]. exists []. by rewrite app_nil_r.
  - change (write_loop (S (S fuel)) p nn w) with
      (if decide (bufsize - length (wbuf w) < length p ∧ werr w = None) then
         let '(n, w') := write_round p w in write_loop (S fuel) (drop n p) (nn + n) w'
       else match werr w with
            | Some e => (nn, Some e, w)
            | None => (nn + length p, None, mkWriter (wbuf w ++ p) None (wire w) (wscript w))
            end) in Hl.
    rewrite decide_True in Hl by (split; [lia|done]).
    destruct (write_round p w) as [m w1] eqn:Hr.
    apply write_round_spec in Hr as [(He & Hb1 & Hwire & Hm)|(e & k & He & Hwire)]; [| |done].
    + rewrite (Hm Hb), drop_all in *. rewrite write_loop_short in Hl; [|done|simpl; lia].
      simplify_eq/=. left. rewrite Hb1, Hb, Hwire, firstn_all in *.
      split_and!; [done..|lia|]. exists p. by rewrite !app_nil_r.
    + rewrite (write_loop_broken _ _ _ _ e) in Hl by done. simplify_eq/=.
      right. rewrite Hb in Hwire. by exists e, k.
Qed.

(** ** Fields separated by NUL

    The reference for the decoders' scans with [IndexByte]: the bytes before the
    first NUL and the bytes after it. *)
Fixpoint split_nul (b : bytes) : option (bytes * bytes) :=
  match b with
  | [] => None
  | x :: b' =>
      if decide (x = x00) then Some ([], b')
      else match split_nul b' with
           | Some (h, d) => Some (x :: h, d)
           | None => None
           end
  end.

(** [k] NUL-terminated fields, by the reference split. *)
Fixpoint split_fields (k : nat) (b : bytes) : option (list bytes * bytes) :=
  match k with
  | O => Some ([], b)
  | S k =>
      match split_nul b with
      | None => None
      | Some (f, rest) =>
          match split_fields k rest with
          | Some (fs, rest) => Some (f :: fs, rest)
          | None => None
          end
      end
  end.

Lemma split_nul_app a rest : x00 ∉ a → split_nul (a ++ x00 :: rest) = Some (a, rest).
Proof.
  induction a as [|x a IH]; intros Ha; simpl; [done|].
  apply not_elem_of_cons in Ha as [Hx Ha]. rewrite decide_False by done. by rewrite IH.
Qed.

Lemma split_nul_None b : split_nul b = None ↔ x00 ∉ b.
Proof.
  split.
  - intros Hs Hin. apply list_elem_of_split_l in Hin as (a & rest & -> & Ha).
    by rewrite split_nul_app in Hs.
  - induction b as [|x b IH]; simpl; [done|]. rewrite not_elem_of_cons.
    intros [Hx Hb]. rewrite decide_False by done. by rewrite IH.
Qed.

Lemma split_nul_Some b h d : split_nul b = Some (h, d) ↔ b = h ++ x00 :: d ∧ x00 ∉ h.
Proof.
  split.
  - intros Hs. destruct (decide (x00 ∈ b)) as [Hin|Hin].
    + apply list_elem_of_split_l in Hin as (a & rest & -> & Ha).
      rewrite split_nul_app in Hs by done. by simplify_eq.
    + apply split_nul_None in Hin. congruence.
  - intros [-> Hh]. by apply split_nul_app.
Qed.

Lemma split_nul_Index b :
  match split_nul b with
  | Some (h, d) =>
      IndexByte b x00 = blen h ∧ sub b 0 (blen h) = Val h ∧
      sub_from b (blen h + 1) = Val d
  | None => IndexByte b x00 = (-1)%Z
  end.
Proof.
  destruct (split_nul b) as [[h d]|] eqn:Hs.
  - apply split_nul_Some in Hs as [-> Hh]. split_and!.
    + by apply IndexByte_first.
    + by apply sub_prefix.
    + rewrite (cons_middle x00 h d), app_assoc. apply sub_from_suffix. blia.
  - apply split_nul_None in Hs. by apply IndexByte_absent.
Qed.

Lemma split_fields_length k b fs rest :
  split_fields k b = Some (fs, rest) → length fs = k.
Proof.
  revert b fs rest. induction k as [|k IH]; simpl; intros b fs rest Hs; [by simplify_eq|].
  destruct (split_nul b) as [[f b']|]; [|done].
  destruct (split_fields k b') as [[fs' rest']|] eqn:Hk; [|done].
  simplify_eq/=. f_equal. by eapply IH.
Qed.

Lemma split_fields_3 b f0 f1 f2 f3 :
  split_fields 3 b = Some ([f0; f1; f2], f3) ↔
  b = f0 ++ x00 :: f1 ++ x00 :: f2 ++ x00 :: f3 ∧ x00 ∉ f0 ∧ x00 ∉ f1 ∧ x00 ∉ f2.
Proof.
  simpl. split.
  - destruct (split_nul b) as [[g0 b1]|] eqn:H0; [|done].
    destruct (split_nul b1) as [[g1 b2]|] eqn:H1; [|done].
    destruct (split_nul b2) as [[g2 b3]|] eqn:H2; [|done].
    intros [= -> -> -> ->].
    apply split_nul_Some in H0 as [-> ?], H1 as [-> ?], H2 as [-> ?]. done.
  - intros (-> & ? & ? & ?). rewrite !split_nul_app by done. done.
Qed.
