(* ===== verification/Protocol.v ===== *)
(** * The constants of the protocol

    [client/common.go] and [worker/common.go] each declare the packet types and
    limits.  Both copies are here, in a module each, with the facts that make
    the two packages speak one protocol: the shared names have equal values,
    the magic numbers are the big-endian readings of the magic strings, and no
    two packet types of the client collide. *)

From S2P Require Import Prelude.

Module CC.

Definition queueSize : Z := 8.
Definition minPacketLength : Z := 12.
Definition maxPacketLength : Z := Z.shiftl 64 20.

Definition req : Z := 5391697.
Definition reqStr : bytes := x00 :: str "REQ".
Definition res : Z := 5391699.
Definition resStr : bytes := x00 :: str "RES".

Definition dtCanDo : Z := 1.
Definition dtCantDo : Z := 2.
Definition dtResetAbilities : Z := 3.
Definition dtPreSleep : Z := 4.
Definition dtNoop : Z := 6.
Definition dtJobCreated : Z := 8.
Definition dtGrabJob : Z := 9.
Definition dtNoJob : Z := 10.
Definition dtJobAssign : Z := 11.
Definition dtWorkStatus : Z := 12.
Definition dtWorkComplete : Z := 13.
Definition dtWorkFail : Z := 14.
Definition dtGetStatus : Z := 15.
Definition dtEchoReq : Z := 16.
Definition dtEchoRes : Z := 17.
Definition dtError : Z := 19.
Definition dtStatusRes : Z := 20.
Definition dtSetClientId : Z := 22.
Definition dtCanDoTimeout : Z := 23.
Definition dtAllYours : Z := 24.
Definition dtWorkException : Z := 25.
Definition dtOptionReq : Z := 26.
Definition dtOptionRes : Z := 27.
Definition dtWorkData : Z := 28.
Definition dtWorkWarning : Z := 29.
Definition dtGrabJobUniq : Z := 30.
Definition dtJobAssignUniq : Z := 31.
Definition dtSubmitJob : Z := 7.
Definition dtSubmitJobBg : Z := 18.
Definition dtSubmitJobHigh : Z := 21.
Definition dtSubmitJobHighBg : Z := 32.
Definition dtSubmitJobLow : Z := 33.
Definition dtSubmitJobLowBg : Z := 34.

Definition optionExceptions : bytes := str "exceptions".

(** Not a packet type: the marker [connect] sends itself. *)
Definition dtOptionSent : Z := Z.shiftl 1 31.

(** Job priorities, the [flag byte] of [Do] and [DoBg]. *)
Definition JobNormal : Z := 0.
Definition JobLow : Z := 1.
Definition JobHigh : Z := 2.

(** The types of a job's packets as exported. *)
Definition WorkComplate : Z := dtWorkComplete.
Definition WorkComplete : Z := dtWorkComplete.
Definition WorkData : Z := dtWorkData.
Definition WorkStatus : Z := dtWorkStatus.
Definition WorkWarning : Z := dtWorkWarning.
Definition WorkFail : Z := dtWorkFail.
Definition WorkException : Z := dtWorkException.

(** The types the client can meet on the wire, requests and responses. *)
Definition data_types : list Z :=
  [dtCanDo; dtCantDo; dtResetAbilities; dtPreSleep; dtNoop; dtJobCreated; dtGrabJob; dtNoJob; dtJobAssign; dtWorkStatus; dtWorkComplete; dtWorkFail; dtGetStatus; dtEchoReq; dtEchoRes; dtError; dtStatusRes; dtSetClientId; dtCanDoTimeout; dtAllYours; dtWorkException; dtOptionReq; dtOptionRes; dtWorkData; dtWorkWarning; dtGrabJobUniq; dtJobAssignUniq; dtSubmitJob; dtSubmitJobBg; dtSubmitJobHigh; dtSubmitJobHighBg; dtSubmitJobLow; dtSubmitJobLowBg].

Definition getBuffer (l : Z) : outcome bytes := make_bytes l.

End CC.

Module WC.

Definition queueSize : Z := 8.
Definition minPacketLength : Z := 12.
Definition maxPacketLength : Z := Z.shiftl 64 20.

Definition req : Z := 5391697.
Definition reqStr : bytes := x00 :: str "REQ".
Definition res : Z := 5391699.
Definition resStr : bytes := x00 :: str "RES".

Definition dtCanDo : Z := 1.
Definition dtCantDo : Z := 2.
Definition dtResetAbilities : Z := 3.
Definition dtPreSleep : Z := 4.
Definition dtNoop : Z := 6.
Definition dtJobCreated : Z := 8.
Definition dtGrabJob : Z := 9.
Definition dtNoJob : Z := 10.
Definition dtJobAssign : Z := 11.
Definition dtWorkStatus : Z := 12.
Definition dtWorkComplete : Z := 13.
Definition dtWorkFail : Z := 14.
Definition dtGetStatus : Z := 15.
Definition dtEchoReq : Z := 16.
Definition dtEchoRes : Z := 17.
Definition dtError : Z := 19.
Definition dtStatusRes : Z := 20.
Definition dtSetClientId : Z := 22.
Definition dtCanDoTimeout : Z := 23.
Definition dtAllYours : Z := 24.
Definition dtWorkException : Z := 25.
Definition dtWorkData : Z := 28.
Definition dtWorkWarning : Z := 29.
Definition dtGrabJobUniq : Z := 30.
Definition dtJobAssignUniq : Z := 31.

Definition data_types : list Z :=
  [dtCanDo; dtCantDo; dtResetAbilities; dtPreSleep; dtNoop; dtJobCreated; dtGrabJob; dtNoJob; dtJobAssign; dtWorkStatus; dtWorkComplete; dtWorkFail; dtGetStatus; dtEchoReq; dtEchoRes; dtError; dtStatusRes; dtSetClientId; dtCanDoTimeout; dtAllYours; dtWorkException; dtWorkData; dtWorkWarning; dtGrabJobUniq; dtJobAssignUniq].

Definition getBuffer (l : Z) : outcome bytes := make_bytes l.

End WC.

(** Twelve bytes of header: magic, packet type and body length. *)
Definition header (magic dt l : Z) : bytes := be32 magic ++ be32 dt ++ be32 l.

(** A packet as the job server frames it. *)
Definition frame (dt : Z) (body : bytes) : bytes :=
  header CC.res dt (blen body) ++ body.

#[global] Arguments header : simpl never.
#[global] Arguments frame : simpl never.

Lemma blen_header magic dt l : blen (header magic dt l) = 12%Z.
Proof. done. Qed.

Lemma length_header magic dt l : length (header magic dt l) = 12.
Proof. done. Qed.

Lemma frame_length dt body : length (frame dt body) = 12 + length body.
Proof. unfold frame. by rewrite length_app, length_header. Qed.

#[export] Hint Rewrite blen_header : gobytes.

(** The fields of a header, read back. *)
Lemma header_magic m dt l rest : sub (header m dt l ++ rest) 0 4 = Val (be32 m).
Proof.
  unfold header. rewrite <- !app_assoc. by apply sub_prefix.
Qed.

Lemma header_type m dt l rest : sub (header m dt l ++ rest) 4 8 = Val (be32 dt).
Proof.
  unfold header. rewrite <- !app_assoc. by apply sub_middle.
Qed.

Lemma header_len m dt l rest : sub (header m dt l ++ rest) 8 12 = Val (be32 l).
Proof.
  unfold header. rewrite <- !app_assoc, (app_assoc (be32 m)). by apply sub_middle.
Qed.

Lemma get_uint32_be32 v : get_uint32 (be32 v) = Val (uint32 v).
Proof. rewrite <- (app_nil_r (be32 v)). apply get_be32. Qed.

Lemma magic_strings :
  be32 CC.req = CC.reqStr ∧ be32 CC.res = CC.resStr ∧
  be32 WC.req = WC.reqStr ∧ be32 WC.res = WC.resStr.
Proof. by vm_compute. Qed.

(** Any four bytes are the encoding of a 32-bit value, so any twelve are a
    header. *)
Lemma be32_surj b0 b1 b2 b3 : ∃ v, (0 ≤ v < 2 ^ 32)%Z ∧ [b0; b1; b2; b3] = be32 v.
Proof.
  pose proof (get_uint32_sum b0 b1 b2 b3 []) as Hg.
  set (v := (byte_val b3 + _)%Z) in Hg. exists v.
  split; [by apply (get_uint32_range _ _ Hg)|].
  pose proof (byte_val_range b0). pose proof (byte_val_range b1).
  pose proof (byte_val_range b2). pose proof (byte_val_range b3).
  unfold be32. rewrite !Z.shiftr_div_pow2 by lia.
  rewrite <- (byte_of_val b0), <- (byte_of_val b1), <- (byte_of_val b2), <- (byte_of_val b3).
  assert (∀ x y, (∃ q, y = x + 256 * q)%Z → byte_of x = byte_of y) as Hb.
  { intros x y [q ->]. apply byte_val_inj. rewrite !byte_val_of.
    by rewrite Z.mul_comm, Z_mod_plus_full. }
  f_equal; [|f_equal; [|f_equal; [|f_equal]]]; apply Hb; unfold v.
  - exists 0%Z. rewrite Z.mul_0_r, Z.add_0_r. symmetry. apply Z.div_unique with
      (byte_val b3 + 2 ^ 8 * (byte_val b2 + 2 ^ 8 * byte_val b1))%Z; lia.
  - exists (byte_val b0). symmetry. apply Z.div_unique with
      (byte_val b3 + 2 ^ 8 * byte_val b2)%Z; lia.
  - exists (byte_val b1 + 2 ^ 8 * byte_val b0)%Z. symmetry.
    apply Z.div_unique with (byte_val b3); lia.
  - exists (byte_val b2 + 2 ^ 8 * (byte_val b1 + 2 ^ 8 * byte_val b0))%Z. lia.
Qed.

Lemma header_decompose data :
  (12 ≤ blen data)%Z →
  ∃ m ty l rest, data = header m ty l ++ rest ∧
    (0 ≤ m < 2 ^ 32)%Z ∧ (0 ≤ ty < 2 ^ 32)%Z ∧ (0 ≤ l < 2 ^ 32)%Z.
Proof.
  unfold blen. intros Hl.
  destruct data as [|b0 [|b1 [|b2 [|b3 [|b4 [|b5 [|b6 [|b7 [|b8 [|b9 [|b10 [|b11 rest]]]]]]]]]]]];
    try (simpl in Hl; lia).
  destruct (be32_surj b0 b1 b2 b3) as (m & Hm & Em).
  destruct (be32_surj b4 b5 b6 b7) as (ty & Ht & Et).
  destruct (be32_surj b8 b9 b10 b11) as (l & Hl' & El).
  exists m, ty, l, rest. split; [|done]. unfold header. by rewrite <- Em, <- Et, <- El.
Qed.

Lemma be32_ne v w :
  (0 ≤ v < 2 ^ 32)%Z → (0 ≤ w < 2 ^ 32)%Z → v ≠ w → be32 v ≠ be32 w.
Proof.
  intros Hv Hw Hne Heq. apply Hne.
  assert (Val (uint32 v) = Val (uint32 w)) as E by (rewrite <- !get_uint32_be32; congruence).
  rewrite !uint32_small in E by done. congruence.
Qed.

(** ** The fields a packet declares *)

(** The body length the header declares. *)
Definition declared_len (data : bytes) : Z :=
  match sub data 8 12 with
  | Val w => match get_uint32 w with Val v => v | Panics _ => 0%Z end
  | Panics _ => 0%Z
  end.

(** The packet type the header declares. *)
Definition declared_type (data : bytes) : Z :=
  match sub data 4 8 with
  | Val w => match get_uint32 w with Val v => v | Panics _ => 0%Z end
  | Panics _ => 0%Z
  end.

Lemma declared_header m ty l rest :
  (0 ≤ ty < 2 ^ 32)%Z → (0 ≤ l < 2 ^ 32)%Z →
  declared_len (header m ty l ++ rest) = l ∧ declared_type (header m ty l ++ rest) = ty.
Proof.
  intros Hty Hl. unfold declared_len, declared_type.
  rewrite header_len, header_type, !get_uint32_be32, !uint32_small by done. done.
Qed.

Lemma declared_len_header m ty l :
  (0 ≤ l < 2 ^ 32)%Z → declared_len (header m ty l) = l.
Proof.
  intros Hl. unfold declared_len. pose proof (header_len m ty l []) as E.
  rewrite app_nil_r in E. by rewrite E, get_uint32_be32, uint32_small.
Qed.

Lemma declared_len_range data : (0 ≤ declared_len data < 2 ^ 32)%Z.
Proof.
  unfold declared_len. destruct (sub data 8 12) as [w|]; [|lia].
  destruct (get_uint32 w) as [v|] eqn:Hv; [|lia]. by apply get_uint32_range in Hv.
Qed.


Section lengths.
Context `{GoArch}.

(** Lengths a slice of this build can have with a header in front. *)
Definition safe_len (l : Z) : Prop :=
  (0 ≤ l)%Z ∧ match int_width with W32 => (l < 2 ^ 31 - 12)%Z | W64 => (l < 2 ^ 32)%Z end.

Lemma safe_len_int l :
  safe_len l → go_int l = l ∧ go_int (12 + l) = (12 + l)%Z ∧ go_int (l + 12) = (l + 12)%Z.
Proof.
  unfold safe_len, go_int, to_signed, int_bits. intros [H0 Hl].
  destruct int_width; simpl Z.sub; rewrite !Z.mod_small by lia; lia.
Qed.

End lengths.
