(* ===== verification/ClientRequest.v ===== *)
(** * Encoding requests: client/request.go

    Each encoder allocates one zeroed buffer, stores the header and fills the
    body region of the same buffer in place.  The definitions do the same
    stores in the same order, on one buffer, with Go's bounds checks; the body
    slice [packet[minPacketLength:]] is the region of the packet from offset
    12, so a store into [body[n]] is a store at [12 + n].

    The reference encodings say what the bytes should be; the lemmas at the end
    show that the stores produce them and never panic. *)

From S2P Require Import Prelude GoStd Protocol.
Import CC.

Section request.
Context `{GoArch}.

(** The packet with its header written; its body region starts at
    [minPacketLength]. *)
Definition newPacket (dataType bodyLen : Z) : outcome bytes :=
  packet ← getBuffer (go_int (minPacketLength + bodyLen));
  '(packet, _) ← copy_in packet 0 4 reqStr;
  packet ← put_uint32 packet 4 8 dataType;
  put_uint32 packet 8 12 (uint32 bodyLen).

Definition encodeRequest (dataType : Z) (arg : bytes) : outcome bytes :=
  packet ← newPacket dataType (blen arg);
  '(packet, _) ← copy_in packet minPacketLength (blen packet) arg;
  mret packet.

Definition encodeRequestString (dataType : Z) (arg : bytes) : outcome bytes :=
  packet ← newPacket dataType (blen arg);
  '(packet, _) ← copy_in packet minPacketLength (blen packet) arg;
  mret packet.

Definition encodeJob (dataType : Z) (funcname id data : bytes) : outcome bytes :=
  packet ← newPacket dataType
    (go_int (blen funcname + 1 + blen id + 1 + blen data));
  '(packet, n) ← copy_in packet minPacketLength (blen packet) funcname;
  packet ← set_idx packet (minPacketLength + n) x00;
  let n := (n + 1)%Z in
  '(packet, m) ← copy_in packet (minPacketLength + n) (blen packet) id;
  let n := (n + m)%Z in
  packet ← set_idx packet (minPacketLength + n) x00;
  let n := (n + 1)%Z in
  '(packet, _) ← copy_in packet (minPacketLength + n) (blen packet) data;
  mret packet.

(** The reference encodings: a header that declares the length of the body,
    then the body, its fields separated by NUL. *)
Definition request_bytes (dataType : Z) (body : bytes) : bytes :=
  header req dataType (uint32 (blen body)) ++ body.

Definition job_body (funcname id data : bytes) : bytes :=
  funcname ++ [x00] ++ id ++ [x00] ++ data.

(** A body that fits a Go slice together with its header. *)
Definition fits (n : Z) : Prop := (0 ≤ n ≤ max_int - 12)%Z.

Lemma go_int_fits n : fits n → go_int (minPacketLength + n) = (12 + n)%Z.
Proof. unfold fits, minPacketLength. intros Hn. apply go_int_range. lia. Qed.

Lemma go_int_fits' n : fits n → go_int n = n.
Proof. unfold fits. intros Hn. apply go_int_range. lia. Qed.

Lemma newPacket_spec dt n :
  fits n →
  newPacket dt n = Val (header req dt (uint32 n) ++ replicate (Z.to_nat n) x00).
Proof.
  intros Hn. unfold newPacket, getBuffer. rewrite go_int_fits by done.
  destruct Hn as [Hn _]. rewrite make_bytes_nonneg by lia.
  replace (Z.to_nat (12 + n)) with (4 + (4 + (4 + Z.to_nat n))) by lia.
  rewrite !replicate_add. set (z4 := replicate 4 x00).
  set (zs := replicate (Z.to_nat n) x00). rewrite outcome_bind_ret.
  assert (blen reqStr = 4%Z) by done. assert (blen z4 = 4%Z) by done.
  rewrite (copy_in_prefix z4) by (done || blia).
  rewrite outcome_bind_ret. cbv beta iota.
  rewrite (put_uint32_region reqStr z4 (z4 ++ zs) 4 8) by done.
  rewrite outcome_bind_ret.
  rewrite (app_assoc reqStr), (put_uint32_region (reqStr ++ be32 dt) z4 zs 8 12) by done.
  unfold header. rewrite <- !app_assoc. done.
Qed.

(** Filling the whole body region of a fresh packet. *)
Lemma fill_body hdr n src :
  blen hdr = 12%Z → n = length src →
  copy_in (hdr ++ replicate n x00) minPacketLength (blen (hdr ++ replicate n x00)) src
  = Val (hdr ++ src, blen src).
Proof.
  intros Hh ->. rewrite <- (app_nil_r (replicate _ _)) at 1.
  rewrite copy_in_region; [by rewrite app_nil_r|done|by rewrite length_replicate|].
  rewrite !blen_app, blen_replicate. unfold blen in *. simpl. lia.
Qed.

Lemma encodeRequest_spec dt arg :
  fits (blen arg) → encodeRequest dt arg = Val (request_bytes dt arg).
Proof.
  intros Hn. unfold encodeRequest. rewrite newPacket_spec by done.
  rewrite outcome_bind_ret, to_nat_blen, fill_body by done. done.
Qed.

Lemma encodeRequestString_spec dt arg :
  fits (blen arg) → encodeRequestString dt arg = Val (request_bytes dt arg).
Proof. apply encodeRequest_spec. Qed.

Lemma blen_job_body f id d :
  blen (job_body f id d) = (blen f + 1 + blen id + 1 + blen d)%Z.
Proof. unfold job_body. blia. Qed.

(** The zeroed body region, split at the places the stores go. *)
Lemma zero_job_body f id d :
  replicate (length (job_body f id d)) x00 =
  replicate (length f) x00 ++ [x00] ++ replicate (length id) x00 ++ [x00] ++
  replicate (length d) x00.
Proof. unfold job_body. by rewrite !length_app, !replicate_add. Qed.

Lemma encodeJob_spec dt f id d :
  fits (blen (job_body f id d)) →
  encodeJob dt f id d = Val (request_bytes dt (job_body f id d)).
Proof.
  intros Hn. unfold encodeJob. rewrite <- blen_job_body.
  rewrite go_int_fits', newPacket_spec by done. rewrite outcome_bind_ret.
  rewrite to_nat_blen, zero_job_body.
  set (hdr := header _ _ _). assert (blen hdr = 12%Z) as Hh by done.
  set (zf := replicate (length f) x00). set (zi := replicate (length id) x00).
  set (zd := replicate (length d) x00).
  assert (length zf = length f) as Hf by apply length_replicate.
  assert (length zi = length id) as Hi by apply length_replicate.
  assert (length zd = length d) as Hd by apply length_replicate.
  assert (blen zf = blen f) by (unfold blen; lia).
  assert (blen zi = blen id) by (unfold blen; lia).
  assert (blen zd = blen d) by (unfold blen; lia).
  change minPacketLength with 12%Z.
  rewrite (copy_in_region hdr zf) by (done || blia).
  rewrite outcome_bind_ret. cbv beta iota.
  rewrite (app_assoc hdr f), (set_idx_app (hdr ++ f)) by blia.
  rewrite outcome_bind_ret. cbv zeta. rewrite (app_assoc (hdr ++ f)).
  rewrite (copy_in_region ((hdr ++ f) ++ [x00]) zi) by (done || blia).
  rewrite outcome_bind_ret. cbv beta iota zeta.
  rewrite (app_assoc (_ ++ [x00]) id), (set_idx_app (_ ++ id)) by blia.
  rewrite outcome_bind_ret. rewrite (app_assoc (_ ++ id)).
  rewrite <- (app_nil_r zd), (copy_in_region _ zd []) by (done || blia).
  rewrite outcome_bind_ret, app_nil_r. cbv beta iota.
  unfold request_bytes, job_body. fold hdr. by rewrite <- !app_assoc.
Qed.

Lemma nul_split_inj (a a' r r' : bytes) :
  x00 ∉ a → x00 ∉ a' → a ++ [x00] ++ r = a' ++ [x00] ++ r' → a = a' ∧ r = r'.
Proof.
  intros Ha Ha' Heq. simpl in Heq.
  assert (SplitN2 (a ++ x00 :: r) x00 = SplitN2 (a' ++ x00 :: r') x00) as Hs
    by by rewrite Heq.
  rewrite !SplitN2_two in Hs by done. by simplify_eq.
Qed.

Lemma header_inj m dt l m' dt' l' rest rest' :
  header m dt l ++ rest = header m' dt' l' ++ rest' →
  uint32 dt = uint32 dt' ∧ rest = rest'.
Proof.
  intros Heq. split.
  - pose proof (header_type m dt l rest) as H1. rewrite Heq, header_type in H1.
    assert (Val (uint32 dt) = Val (uint32 dt')) as H2; [|congruence].
    rewrite <- !get_uint32_be32. congruence.
  - by apply app_inj_1 in Heq as [_ ?].
Qed.

(** The encoders write the packets of the protocol.  The in-place stores of
    [encodeRequest], [encodeRequestString] and [encodeJob] leave in the one
    buffer exactly the REQ header, with the packet type and the length of the
    body (at 32 bits), followed by the body -- for a job the function name, the
    unique id and the payload separated by NUL -- with no bounds violation,
    whenever header and body together fit a Go slice. *)
Theorem requests_encoded dt arg f id d :
  (fits (blen arg) →
   encodeRequest dt arg = Val (request_bytes dt arg) ∧
   encodeRequestString dt arg = Val (request_bytes dt arg)) ∧
  (fits (blen (job_body f id d)) →
   encodeJob dt f id d = Val (request_bytes dt (job_body f id d))).
Proof.
  split; [|apply encodeJob_spec].
  intros Hn. split; [by apply encodeRequest_spec|by apply encodeRequestString_spec].
Qed.

(** Distinct jobs have distinct packets.  From the bytes of a SUBMIT_JOB
    the packet type, function name, unique id and payload can be recovered,
    for any payload, as long as name and id contain no NUL. *)
Theorem encodeJob_injective dt f id d dt' f' id' d' :
  fits (blen (job_body f id d)) → fits (blen (job_body f' id' d')) →
  x00 ∉ f → x00 ∉ id → x00 ∉ f' → x00 ∉ id' →
  encodeJob dt f id d = encodeJob dt' f' id' d' →
  uint32 dt = uint32 dt' ∧ f = f' ∧ id = id' ∧ d = d'.
Proof.
  intros Hn Hn' Hf Hi Hf' Hi'. rewrite !encodeJob_spec by done.
  intros Heq%(inj Val). apply header_inj in Heq as [? Heq]. split; [done|].
  apply nul_split_inj in Heq as [-> Heq]; [|done..].
  by apply nul_split_inj in Heq as [-> ->].
Qed.
End request.

Lemma requests_encoded_witness :
  fits (H := W32) (blen (job_body (str "ToUpper") (str "42") (str "hi"))) ∧
  encodeJob (H := W32) dtSubmitJob (str "ToUpper") (str "42") (str "hi") =
  Val (request_bytes dtSubmitJob (job_body (str "ToUpper") (str "42") (str "hi"))).
Proof.
  assert (fits (H := W32) (blen (job_body (str "ToUpper") (str "42") (str "hi"))))
    as Hf by (vm_compute; split; congruence).
  split; [exact Hf|].
  exact (proj2 (requests_encoded (H := W32) dtSubmitJob [] (str "ToUpper") (str "42")
    (str "hi")) Hf).
Defined.

Lemma encodeJob_injective_witness :
  encodeJob (H := W64) dtSubmitJob (str "f") (str "1") (str "x") =
  encodeJob (H := W64) (dtSubmitJob + 2 ^ 32) (str "f") (str "1") (str "x") ∧
  uint32 dtSubmitJob = uint32 (dtSubmitJob + 2 ^ 32).
Proof.
  split; [vm_compute; reflexivity|].
  refine (proj1 (encodeJob_injective (H := W64) dtSubmitJob (str "f") (str "1") (str "x")
    (dtSubmitJob + 2 ^ 32) (str "f") (str "1") (str "x") _ _ _ _ _ _ _)).
  - vm_compute. split; congruence.
  - vm_compute. split; congruence.
  - by_decide.
  - by_decide.
  - by_decide.
  - by_decide.
  - vm_compute. reflexivity.
Defined.
