(* ===== verification/ClientResponse.v ===== *)
(** * Decoding responses: client/response.go, client/status.go, client/error.go

    [decodeResponse] turns one framed packet into a [Response]; [Result],
    [Update], [Status] and [_status] read the fields of one.  Go's multiple
    results are tuples, including the partly filled ones that accompany an
    error.

    [split_nul] is the reference for the scans: the bytes before the first NUL
    and the bytes after it. *)

From S2P Require Import Prelude GoStd Protocol.
Import CC.

(** client/error.go *)
Definition ErrWorkWarning : error := New "Work warning".
Definition ErrInvalidData : error := New "Invalid data".
Definition ErrInvalidId : error := New "Invalid ID".
Definition ErrWorkFail : error := New "Work fail".
Definition ErrWorkException : error := New "Work exeption".
Definition ErrDataType : error := New "Invalid data type".
Definition ErrLostConn : error := New "Lost connection with Gearmand".

Definition getError (data : bytes) : error :=
  match SplitN2 data x00 with
  | [code; text] => Errorf "%s: %s" [ABytes code; ABytes text]
  | _ => Errorf "Not a error data: %v" [ABytes data]
  end.

Record Response := mkResponse {
  DataType : Z;
  Data : slice;
  UID : slice;
  Handle : bytes
}.

(** client/status.go *)
Record Status := mkStatus {
  sHandle : bytes;
  Known : bool;
  Running : bool;
  Numerator : Z;
  Denominator : Z
}.

Definition getResponse : Response := mkResponse 0 None None [].

(** [resp.Result()] *)
Definition Result (resp : Response) : slice * option error :=
  if decide (DataType resp = dtWorkFail) then (None, Some ErrWorkFail)
  else if decide (DataType resp = dtWorkException) then (Data resp, Some ErrWorkException)
  else if decide (DataType resp = dtWorkComplete) then (Data resp, None)
  else (None, Some ErrDataType).

(** [resp.Update()] *)
Definition Update (resp : Response) : slice * option error :=
  if decide (DataType resp ≠ dtWorkData ∧ DataType resp ≠ dtWorkWarning)
  then (None, Some ErrDataType)
  else (Data resp,
        if decide (DataType resp = dtWorkWarning) then Some ErrWorkWarning else None).

Definition invalid_data (data : bytes) : error := Errorf "Invalid data: %v" [ABytes data].
Definition invalid_integer (s : bytes) : error := Errorf "Invalid Integer: %s" [ABytes s].

(** The types whose body is a handle, a NUL and data. *)
Definition handle_data_types : list Z :=
  [dtStatusRes; dtWorkData; dtWorkWarning; dtWorkStatus; dtWorkComplete; dtWorkException].

Section response.
Context `{GoArch}.

(** The [switch] of [decodeResponse], on a body that is all there: it fills in
    the response, or reports an error. *)
Definition decode_body (data : bytes) (ty : Z) (dt : bytes) :
    outcome (Response * option error) :=
  if decide (ty = dtJobCreated) then mret (mkResponse ty None None dt, None)
  else if decide (ty ∈ handle_data_types) then
    let i := IndexByte dt x00 in
    if decide (i < 0)%Z then mret (mkResponse ty None None [], Some (invalid_data data))
    else
      h ← sub dt 0 i;
      d ← sub_from dt (i + 1);
      mret (mkResponse ty (Some d) None h, None)
  else if decide (ty = dtWorkFail) then
    let i := IndexByte dt x00 in
    if decide (0 ≤ i)%Z then
      h ← sub dt 0 i; mret (mkResponse ty None None h, None)
    else mret (mkResponse ty None None dt, None)
  else mret (mkResponse ty (Some dt) None [], None).

(** [decodeResponse(data)]: the response, the bytes it used and the error. *)
Definition decodeResponse (data : bytes) :
    outcome (option Response * Z * option error) :=
  let a := blen data in
  if decide (a < minPacketLength)%Z then mret (None, 0%Z, Some (invalid_data data))
  else
    lw ← sub data 8 12;
    dl ← go_int <$> get_uint32 lw;
    if decide (a < go_int (minPacketLength + dl))%Z
    then mret (None, 0%Z, Some (invalid_data data))
    else
      dt ← sub data minPacketLength (go_int (dl + minPacketLength));
      if decide (blen dt ≠ dl) then mret (None, 0%Z, Some (invalid_data data))
      else
        tw ← sub data 4 8;
        ty ← get_uint32 tw;
        '(resp, err) ← decode_body data ty dt;
        match err with
        | Some e => mret (Some resp, 0%Z, Some e)
        | None => mret (Some resp, go_int (dl + minPacketLength), None)
        end.

(** [resp.Status()], the progress of a WORK_STATUS *)
Definition resp_Status (resp : Response) : option Status * option error :=
  match SplitN2 (sl (Data resp)) x00 with
  | [d0; d1] =>
      let '(num, e0) := ParseUint d0 in
      match e0 with
      | Some _ => (Some (mkStatus (Handle resp) true true num 0), Some (invalid_integer d0))
      | None =>
          let '(den, e1) := ParseUint d1 in
          let st := mkStatus (Handle resp) true true num den in
          match e1 with
          | Some _ => (Some st, Some (invalid_integer d1))
          | None => (Some st, None)
          end
      end
  | _ => (None, Some (invalid_data (sl (Data resp))))
  end.

(** The scan of [_status]: [k] fields ended by NUL and what is left. *)
Fixpoint scan_fields (k : nat) (rest : bytes) : outcome (option (list bytes * bytes)) :=
  match k with
  | O => mret (Some ([], rest))
  | S k =>
      let j := IndexByte rest x00 in
      if decide (j < 0)%Z then mret None
      else
        f ← sub rest 0 j;
        rest ← sub_from rest (j + 1);
        r ← scan_fields k rest;
        mret (match r with Some (fs, rest) => Some (f :: fs, rest) | None => None end)
  end.

(** [resp._status()], a STATUS_RES *)
Definition _status (resp : Response) : outcome (option Status * option error) :=
  let bad := (None, Some (invalid_data (sl (Data resp)))) in
  r ← scan_fields 3 (sl (Data resp));
  match r with
  | Some ([f0; f1; f2], f3) =>
      if decide (blen f0 = 0%Z ∨ blen f1 = 0%Z) then mret bad
      else
        k ← idx f0 0;
        u ← idx f1 0;
        let known := bool_decide (k = x31) in
        let running := bool_decide (u = x31) in
        let '(num, e2) := ParseUint f2 in
        match e2 with
        | Some _ => mret (Some (mkStatus (Handle resp) known running num 0),
                          Some (invalid_integer f2))
        | None =>
            let '(den, e3) := ParseUint f3 in
            let st := mkStatus (Handle resp) known running num den in
            match e3 with
            | Some _ => mret (Some st, Some (invalid_integer f3))
            | None => mret (Some st, None)
            end
        end
  | _ => mret bad
  end.
End response.

(** What a response body of each type means. *)
Definition body_meaning (ty : Z) (body : bytes) : option Response :=
  if decide (ty = dtJobCreated) then Some (mkResponse ty None None body)
  else if decide (ty ∈ handle_data_types) then
    match split_nul body with
    | Some (h, d) => Some (mkResponse ty (Some d) None h)
    | None => None
    end
  else if decide (ty = dtWorkFail) then
    Some (mkResponse ty None None
            (match split_nul body with Some (h, _) => h | None => body end))
  else Some (mkResponse ty (Some body) None []).

(** What [decodeResponse] should make of any bytes at all. *)
Definition decode_meaning (data : bytes) : option Response * Z * option error :=
  let l := declared_len data in
  let ty := declared_type data in
  if decide (blen data < 12 + l)%Z then (None, 0%Z, Some (invalid_data data))
  else match body_meaning ty (take (Z.to_nat l) (drop 12 data)) with
       | Some r => (Some r, (12 + l)%Z, None)
       | None => (Some (mkResponse ty None None []), 0%Z, Some (invalid_data data))
       end.

(** The body of a STATUS_RES after the handle, as gearmand prints it. *)
Definition status_body (known running : bool) (num den : Z) : bytes :=
  let flag (b : bool) : bytes := if b then str "1" else str "0" in
  flag known ++ [x00] ++ flag running ++ [x00] ++ FormatUint num ++ [x00] ++ FormatUint den.

(** The body a decoded response stands for. *)
Definition response_body (r : Response) : bytes :=
  if decide (DataType r = dtJobCreated ∨ DataType r = dtWorkFail) then Handle r
  else if decide (DataType r ∈ handle_data_types) then Handle r ++ x00 :: sl (Data r)
  else sl (Data r).

Section response_facts.
Context `{GoArch}.

(** The scan of the body means what [body_meaning] says. *)
Lemma decode_body_spec data ty body :
  decode_body data ty body =
  Val (match body_meaning ty body with
       | Some r => (r, None)
       | None => (mkResponse ty None None [], Some (invalid_data data))
       end).
Proof.
  unfold decode_body, body_meaning. pose proof (split_nul_Index body) as Hs.
  destruct (decide (ty = dtJobCreated)); [done|].
  destruct (split_nul body) as [[h d]|].
  - destruct Hs as (-> & Hh & Hd). pose proof (blen_nonneg h).
    rewrite (decide_False (P := (_ < 0)%Z)), (decide_True (P := (0 ≤ _)%Z)) by lia.
    rewrite Hh, Hd. by case_all.
  - rewrite Hs. rewrite (decide_True (P := (-1 < 0)%Z)), (decide_False (P := (0 ≤ -1)%Z)) by lia.
    by case_all.
Qed.

(** The complete behaviour of [decodeResponse] on a header and what follows. *)
Lemma decodeResponse_header m ty l rest :
  (0 ≤ ty < 2 ^ 32)%Z → (0 ≤ l < 2 ^ 32)%Z → safe_len l →
  let data := header m ty l ++ rest in
  decodeResponse data =
  Val (if decide (blen rest < l)%Z then (None, 0%Z, Some (invalid_data data))
       else match body_meaning ty (take (Z.to_nat l) rest) with
            | Some r => (Some r, (12 + l)%Z, None)
            | None => (Some (mkResponse ty None None []), 0%Z, Some (invalid_data data))
            end).
Proof.
  intros Hty Hl Hs data. apply safe_len_int in Hs as (Hi1 & Hi2 & Hi3).
  unfold decodeResponse. change minPacketLength with 12%Z.
  assert (blen data = 12 + blen rest)%Z as Hdata by (unfold data; blia).
  rewrite decide_False by blia. rewrite (header_len m ty l rest : sub data 8 12 = _), outcome_bind_ret.
  rewrite get_uint32_be32, uint32_small by done. simpl fmap. rewrite outcome_bind_ret.
  rewrite Hi1, Hi2, Hi3, Hdata.
  destruct (decide (blen rest < l)%Z) as [Hlt|Hge]; [by rewrite decide_True by lia|].
  rewrite decide_False by lia.
  assert (sub data 12 (l + 12) = Val (take (Z.to_nat l) rest)) as ->.
  { unfold data. rewrite <- (take_drop (Z.to_nat l) rest) at 1.
    apply sub_middle; [done|]. rewrite blen_header. unfold blen in *.
    rewrite length_take. lia. }
  rewrite outcome_bind_ret, decide_False.
  2: { unfold blen in *. rewrite length_take. lia. }
  rewrite (header_type m ty l rest : sub data 4 8 = _), outcome_bind_ret.
  rewrite get_uint32_be32, uint32_small, outcome_bind_ret by done.
  rewrite decode_body_spec, outcome_bind_ret.
  destruct (body_meaning _ _); [|done]. by rewrite Z.add_comm.
Qed.

Lemma decodeResponse_spec data :
  safe_len (declared_len data) → decodeResponse data = Val (decode_meaning data).
Proof.
  intros Hs. destruct (decide (blen data < 12)%Z) as [Hlt|Hge].
  - unfold decodeResponse, decode_meaning. destruct Hs as [Hs _].
    change minPacketLength with 12%Z. by rewrite !decide_True by lia.
  - destruct (header_decompose data) as (m & ty & l & rest & -> & _ & Hty & Hl); [lia|].
    unfold decode_meaning. destruct (declared_header m ty l rest Hty Hl) as [E1 E2].
    rewrite E1, E2 in *. rewrite decodeResponse_header by done.
    rewrite drop_app_length' by done. rewrite blen_app, blen_header.
    destruct (decide (blen rest < l)%Z).
    + by rewrite decide_True by lia.
    + by rewrite decide_False by lia.
Qed.

Lemma scan_fields_spec k b : scan_fields k b = Val (split_fields k b).
Proof.
  revert b. induction k as [|k IH]; intros b; simpl; [done|].
  pose proof (split_nul_Index b) as Hs. destruct (split_nul b) as [[h d]|].
  - destruct Hs as (-> & Hh & Hd). pose proof (blen_nonneg h).
    rewrite decide_False by lia. rewrite Hh, outcome_bind_ret, Hd, outcome_bind_ret, IH.
    done.
  - by rewrite Hs.
Qed.

Lemma frame_safe body :
  (blen body ≤ maxPacketLength)%Z → safe_len (blen body) ∧ (0 ≤ blen body < 2 ^ 32)%Z.
Proof.
  change maxPacketLength with 67108864%Z. pose proof (blen_nonneg body). intros.
  unfold safe_len. destruct int_width; lia.
Qed.

(** Decoding a framed body that the reader would let through. *)
Lemma decodeResponse_frame ty body r :
  (0 ≤ ty < 2 ^ 32)%Z → (blen body ≤ maxPacketLength)%Z → body_meaning ty body = Some r →
  decodeResponse (frame ty body) = Val (Some r, blen (frame ty body), None).
Proof.
  intros Hty Hb Hm. destruct (frame_safe body Hb) as [Hs Hr].
  unfold frame. rewrite decodeResponse_header by done.
  rewrite decide_False by lia. rewrite to_nat_blen, firstn_all, Hm.
  by rewrite blen_app, blen_header.
Qed.

(** [decodeResponse] is total and means what the protocol says.  On a 64-bit
    build for every byte sequence whatever, and on a 32-bit build for every one
    whose declared length is within the reader's limit, it does not panic; it
    reports an error for a truncated packet and for a body that lacks its
    separator, and otherwise returns the response the body stands for and the
    length of the packet, ignoring what follows it. *)
Theorem decodeResponse_never_panics data :
  int_width = W64 ∨ (declared_len data ≤ maxPacketLength)%Z →
  decodeResponse data = Val (decode_meaning data).
Proof.
  change maxPacketLength with 67108864%Z. intros Hw. apply decodeResponse_spec.
  pose proof (declared_len_range data). unfold safe_len. split; [lia|].
  destruct Hw as [->|Hle]; [lia|]. destruct int_width; lia.
Qed.

(** A response decodes to the handle and the payload it was framed from: the
    handle-and-data types split at the first NUL and keep every later NUL in
    the payload, JOB_CREATED is all handle, WORK_FAIL is a handle with or
    without a separator, and any other type is all payload. *)
Theorem decode_frame_roundtrip ty h d :
  (0 ≤ ty < 2 ^ 32)%Z → x00 ∉ h → (blen (h ++ x00 :: d) ≤ maxPacketLength)%Z →
  let decoded body r := decodeResponse (frame ty body) = Val (Some r, blen (frame ty body), None) in
  (ty ∈ handle_data_types → decoded (h ++ x00 :: d) (mkResponse ty (Some d) None h)) ∧
  (ty = dtJobCreated → decoded h (mkResponse ty None None h)) ∧
  (ty = dtWorkFail → decoded h (mkResponse ty None None h) ∧
                     decoded (h ++ x00 :: d) (mkResponse ty None None h)) ∧
  (ty ∉ handle_data_types → ty ≠ dtJobCreated → ty ≠ dtWorkFail →
   decoded d (mkResponse ty (Some d) None [])).
Proof.
  intros Hty Hh Hb. cbv zeta.
  assert (blen h ≤ maxPacketLength ∧ blen d ≤ maxPacketLength)%Z as [Hbh Hbd].
  { rewrite blen_app, blen_cons in Hb. pose proof (blen_nonneg h).
    pose proof (blen_nonneg d). lia. }
  split_and!.
  - intros Hin. apply decodeResponse_frame; [done..|]. unfold body_meaning.
    rewrite decide_False by (by intros ->; set_solver).
    by rewrite decide_True, split_nul_app by done.
  - intros ->. by apply decodeResponse_frame.
  - intros ->. split; apply decodeResponse_frame; try done; unfold body_meaning; simpl.
    + by rewrite (proj2 (split_nul_None h) Hh).
    + by rewrite split_nul_app.
  - intros H1 H2 H3. apply decodeResponse_frame; [done..|]. unfold body_meaning.
    by rewrite !decide_False by done.
Qed.

(** Decoding loses nothing.  When [decodeResponse] succeeds, the length it
    reports is the header plus the declared body, and the body can be rebuilt
    from the response, for every type but WORK_FAIL, whose body is rebuilt up
    to a tolerated separator and what follows it. *)
Theorem decodeResponse_lossless data r n :
  safe_len (declared_len data) → decodeResponse data = Val (Some r, n, None) →
  n = (12 + declared_len data)%Z ∧ DataType r = declared_type data ∧
  let body := take (Z.to_nat (declared_len data)) (drop 12 data) in
  body = response_body r ∨
  (DataType r = dtWorkFail ∧ ∃ tail, body = response_body r ++ x00 :: tail).
Proof.
  intros Hs. rewrite decodeResponse_spec by done. unfold decode_meaning.
  case_decide; [done|].
  destruct (body_meaning _ _) as [r'|] eqn:Hm; intros Heq%(inj Val); [|done].
  simplify_eq. set (body := take _ _) in *. split; [done|].
  unfold body_meaning in Hm. unfold response_body.
  destruct (decide (declared_type data = dtJobCreated)) as [Hj|Hj].
  { simplify_eq/=. split; [done|]. rewrite decide_True by auto. by left. }
  destruct (decide (declared_type data ∈ handle_data_types)) as [Hd|Hd].
  { destruct (split_nul body) as [[h d]|] eqn:Hn; [|done]. simplify_eq/=.
    apply split_nul_Some in Hn as [-> _]. split; [done|]. left.
    rewrite decide_False by (intros [?|Hf]; [done|]; rewrite Hf in Hd; set_solver).
    by rewrite decide_True. }
  destruct (decide (declared_type data = dtWorkFail)) as [Hf|Hf].
  { simplify_eq/=. split; [done|]. rewrite decide_True by auto.
    destruct (split_nul body) as [[h d]|] eqn:Hn; [|by left].
    apply split_nul_Some in Hn as [-> _]. eauto. }
  simplify_eq/=. split; [done|]. left. rewrite !decide_False by tauto. done.
Qed.

(** [Result] on a decoded terminal packet is what its documentation
    promises: WORK_COMPLETE gives the payload and no error, WORK_EXCEPTION the
    payload -- never nil, possibly empty -- with [ErrWorkException], WORK_FAIL
    nil with [ErrWorkFail] whatever its body holds, and any other packet nil
    with [ErrDataType]. *)
Theorem Result_of_decoded data r n :
  safe_len (declared_len data) → decodeResponse data = Val (Some r, n, None) →
  Result r =
  (if decide (declared_type data = dtWorkComplete) then (Data r, None)
   else if decide (declared_type data = dtWorkException) then (Data r, Some ErrWorkException)
   else if decide (declared_type data = dtWorkFail) then (None, Some ErrWorkFail)
   else (None, Some ErrDataType)) ∧
  (declared_type data = dtWorkComplete ∨ declared_type data = dtWorkException →
   ∃ payload, Data r = Some payload ∧
     take (Z.to_nat (declared_len data)) (drop 12 data) = Handle r ++ x00 :: payload).
Proof.
  intros Hs. rewrite decodeResponse_spec by done. unfold decode_meaning.
  case_decide; [done|].
  destruct (body_meaning _ _) as [r'|] eqn:Hm; intros Heq%(inj Val); [|done].
  simplify_eq. set (body := take _ _) in *.
  assert (DataType r = declared_type data) as Hty.
  { unfold body_meaning in Hm. by case_all. }
  split.
  - unfold Result. rewrite Hty. unfold dtWorkFail, dtWorkException, dtWorkComplete.
    repeat case_decide; (done || lia).
  - intros Ht. unfold body_meaning in Hm.
    rewrite decide_False in Hm by (by destruct Ht as [->| ->]).
    rewrite decide_True in Hm by (destruct Ht as [->| ->]; set_solver).
    destruct (split_nul body) as [[h d]|] eqn:Hn; [|done]. simplify_eq/=.
    apply split_nul_Some in Hn as [Hn _]. by exists d.
Qed.

Lemma idx_first x b : idx (x :: b) 0 = Val x.
Proof. done. Qed.

(** [_status] on three scanned fields and the rest. *)
Lemma _status_fields resp f0 f1 f2 f3 :
  split_fields 3 (sl (Data resp)) = Some ([f0; f1; f2], f3) →
  f0 ≠ [] → f1 ≠ [] →
  _status resp =
  Val (let known := bool_decide (hd x00 f0 = x31) in
       let running := bool_decide (hd x00 f1 = x31) in
       match ParseUint f2 with
       | (num, Some _) => (Some (mkStatus (Handle resp) known running num 0),
                           Some (invalid_integer f2))
       | (num, None) =>
           match ParseUint f3 with
           | (den, Some _) => (Some (mkStatus (Handle resp) known running num den),
                               Some (invalid_integer f3))
           | (den, None) => (Some (mkStatus (Handle resp) known running num den), None)
           end
       end).
Proof.
  intros Hf H0 H1. unfold _status. rewrite scan_fields_spec, outcome_bind_ret, Hf.
  destruct f0 as [|k f0], f1 as [|u f1]; try done.
  rewrite decide_False by (rewrite !blen_cons; pose proof (blen_nonneg f0);
    pose proof (blen_nonneg f1); lia).
  rewrite !idx_first, !outcome_bind_ret. simpl hd.
  destruct (ParseUint f2) as [num [e|]]; [done|]. by destruct (ParseUint f3) as [den [e|]].
Qed.

(** It never reads a flag out of an empty field. *)
Lemma _status_malformed resp :
  (∀ f0 f1 f2 f3, split_fields 3 (sl (Data resp)) = Some ([f0; f1; f2], f3) →
     f0 = [] ∨ f1 = []) →
  _status resp = Val (None, Some (invalid_data (sl (Data resp)))).
Proof.
  intros Hf. unfold _status. rewrite scan_fields_spec, outcome_bind_ret.
  destruct (split_fields 3 _) as [[fs f3]|]; [|done].
  destruct fs as [|f0 [|f1 [|f2 [|? ?]]]]; try done.
  rewrite decide_True; [done|]. destruct (Hf f0 f1 f2 f3 eq_refl) as [->| ->]; [by left|by right].
Qed.

(** [_status] never panics, whatever a job server puts into a STATUS_RES, and
    accepts exactly the well-formed ones: four fields, the first three without
    NUL, non-empty flags, and two decimal numbers that fit the build's [uint].
    The flags are read by their first byte. *)
Theorem status_exact resp :
  (∃ res, _status resp = Val res) ∧
  ∀ st, _status resp = Val (Some st, None) ↔
    ∃ f0 f1 f2 f3,
      sl (Data resp) = f0 ++ x00 :: f1 ++ x00 :: f2 ++ x00 :: f3 ∧
      x00 ∉ f0 ∧ x00 ∉ f1 ∧ x00 ∉ f2 ∧ f0 ≠ [] ∧ f1 ≠ [] ∧
      ParseUint f2 = (Numerator st, None) ∧ ParseUint f3 = (Denominator st, None) ∧
      sHandle st = Handle resp ∧
      Known st = bool_decide (hd x00 f0 = x31) ∧
      Running st = bool_decide (hd x00 f1 = x31).
Proof.
  destruct (split_fields 3 (sl (Data resp))) as [[fs f3]|] eqn:Hf.
  - pose proof (split_fields_length _ _ _ _ Hf) as Hl.
    destruct fs as [|f0 [|f1 [|f2 [|? ?]]]]; try done.
    destruct (decide (f0 = [] ∨ f1 = [])) as [He|He].
    + rewrite _status_malformed by (intros; by simplify_eq). split; [by eexists|].
      intros st. split; [done|]. intros (g0 & g1 & g2 & g3 & Hd & ? & ? & ? & ? & ? & _).
      rewrite (proj2 (split_fields_3 _ g0 g1 g2 g3)) in Hf by done. naive_solver.
    + rewrite (_status_fields _ f0 f1 f2 f3) by tauto. split; [by eexists|].
      apply split_fields_3 in Hf as Hf'. destruct Hf' as (Hd & ? & ? & ?). intros st. split.
      * destruct (ParseUint f2) as [num [e|]] eqn:Hp2; [done|].
        destruct (ParseUint f3) as [den [e|]] eqn:Hp3; [done|]. intros Heq%(inj Val).
        simplify_eq/=. exists f0, f1, f2, f3. naive_solver.
      * intros (g0 & g1 & g2 & g3 & Hd' & ? & ? & ? & ? & ? & Hp2 & Hp3 & ? & ? & ?).
        rewrite (proj2 (split_fields_3 _ g0 g1 g2 g3)) in Hf by done. simplify_eq.
        rewrite Hp2, Hp3. destruct st; simpl in *. by subst.
  - rewrite _status_malformed by (intros; congruence). split; [by eexists|].
    intros st. split; [done|]. intros (g0 & g1 & g2 & g3 & Hd & ? & ? & ? & _).
    by rewrite (proj2 (split_fields_3 _ g0 g1 g2 g3)) in Hf.
Qed.

(** The status gearmand prints is the status the client reads, for every
    pair of flags and every two counters the build's [uint] holds. *)
Theorem status_roundtrip h known running num den :
  (0 ≤ num ≤ max_uint)%Z → (0 ≤ den ≤ max_uint)%Z →
  _status (mkResponse dtStatusRes (Some (status_body known running num den)) None h) =
  Val (Some (mkStatus h known running num den), None).
Proof.
  intros Hn Hd.
  rewrite (_status_fields _ (if known then str "1" else str "0")
    (if running then str "1" else str "0") (FormatUint num) (FormatUint den)).
  - rewrite !ParseUint_FormatUint by done. by destruct known, running.
  - apply split_fields_3. split_and!; [by destruct known, running|..].
    + by destruct known; by_decide.
    + by destruct running; by_decide.
    + apply FormatUint_no_nul. lia.
  - by destruct known.
  - by destruct running.
Qed.
End response_facts.

Lemma decodeResponse_never_panics_witness :
  decodeResponse (H := W32) (frame dtWorkComplete (str "H:1" ++ x00 :: str "ok")) =
  Val (decode_meaning (frame dtWorkComplete (str "H:1" ++ x00 :: str "ok"))).
Proof.
  apply (decodeResponse_never_panics (H := W32)). right. vm_compute. congruence.
Defined.

Lemma decode_frame_roundtrip_witness :
  decodeResponse (H := W32) (frame dtWorkData (str "H:1" ++ x00 :: str "ok")) =
  Val (Some (mkResponse dtWorkData (Some (str "ok")) None (str "H:1")), 18%Z, None).
Proof.
  refine (proj1 (decode_frame_roundtrip (H := W32) dtWorkData (str "H:1") (str "ok") _ _ _) _).
  - vm_compute. split; congruence.
  - by_decide.
  - vm_compute. congruence.
  - by_decide.
Defined.

Lemma decodeResponse_lossless_witness :
  let data := frame dtWorkException (str "H:1" ++ x00 :: str "boom") in
  20%Z = (12 + declared_len data)%Z ∧ dtWorkException = declared_type data.
Proof.
  cbv zeta.
  destruct (decodeResponse_lossless (H := W64)
    (frame dtWorkException (str "H:1" ++ x00 :: str "boom"))
    (mkResponse dtWorkException (Some (str "boom")) None (str "H:1")) 20) as (H1 & H2 & _).
  - vm_compute. split; congruence.
  - vm_compute. reflexivity.
  - exact (conj H1 H2).
Defined.

Lemma Result_of_decoded_witness :
  Result (mkResponse dtWorkFail None None (str "H:1")) = (None, Some ErrWorkFail).
Proof.
  refine (proj1 (Result_of_decoded (H := W64) (frame dtWorkFail (str "H:1"))
    (mkResponse dtWorkFail None None (str "H:1")) 15 _ _)).
  - vm_compute. split; congruence.
  - vm_compute. reflexivity.
Defined.

Lemma status_roundtrip_witness :
  _status (H := W32)
    (mkResponse dtStatusRes (Some (status_body true false 50 100)) None (str "H:1")) =
  Val (Some (mkStatus (str "H:1") true false 50 100), None).
Proof. apply (status_roundtrip (H := W32)); vm_compute; split; congruence. Defined.
