(* ===== verification/HandlerSlot.v ===== *)
(** * Handlers waiting for a reply: client/handler_slot.go, client/status_handlers.go

    [handlerSlot] is the FIFO that matches JOB_CREATED and ECHO_RES packets,
    which carry no correlation id, to the requests they answer;
    [statusHandlers] is the map that matches STATUS_RES by job handle.  The
    types of the handlers are parameters: the code only tests an internal
    handler for nil and hands both on.

    Time is an integer of nanoseconds and the zero [time.Time] of [expires] is
    [None].  The clock is an argument of the operations that read it. *)

From stdpp Require Import sorting.
From S2P Require Import Prelude GoStd Protocol.
Import CC.

Section slot.
Context {I E : Type}.

Record handledResponse := mkHandled {
  internal : option I;
  external : option E
}.

Record slotEntry := mkEntry {
  eid : Z;
  eh : handledResponse;
  expires : option Z
}.

Record handlerSlot := mkSlot {
  queue : list slotEntry;
  nextID : Z
}.

Definition no_handler : handledResponse := mkHandled None None.

(** The zero value is ready to use. *)
Definition empty_slot : handlerSlot := mkSlot [] 0.

Definition handlerSlotCap : Z := queueSize.

Definition slot_set (int : option I) (ext : option E) (s : handlerSlot) : Z * handlerSlot :=
  let q :=
    match queue s with
    | e :: q' =>
        if decide (handlerSlotCap ≤ Z.of_nat (length (queue s)) ∧ internal (eh e) = None)%Z
        then q' else queue s
    | [] => []
    end in
  (nextID s, mkSlot (q ++ [mkEntry (nextID s) (mkHandled int ext) None])
                    (uint64 (nextID s + 1))).

(** The test that ends [take]'s loop over expired entries, negated. *)
Definition expired (now : Z) (e : slotEntry) : bool :=
  match internal (eh e), expires e with
  | None, Some t => bool_decide (t ≤ now)%Z
  | _, _ => false
  end.

Fixpoint drop_expired (now : Z) (q : list slotEntry) : list slotEntry :=
  match q with
  | e :: q' => if expired now e then drop_expired now q' else q
  | [] => []
  end.

Definition slot_take (now : Z) (s : handlerSlot) : handledResponse * handlerSlot :=
  match drop_expired now (queue s) with
  | [] => (no_handler, mkSlot [] (nextID s))
  | e :: q => (eh e, mkSlot q (nextID s))
  end.

Fixpoint remove_id (id : Z) (q : list slotEntry) : list slotEntry :=
  match q with
  | [] => []
  | e :: q' => if decide (eid e = id) then q' else e :: remove_id id q'
  end.

Definition slot_cancel (id : Z) (s : handlerSlot) : handlerSlot :=
  mkSlot (remove_id id (queue s)) (nextID s).

Fixpoint spend_id (id until : Z) (q : list slotEntry) : list slotEntry :=
  match q with
  | [] => []
  | e :: q' =>
      if decide (eid e = id) then mkEntry (eid e) no_handler (Some until) :: q'
      else e :: spend_id id until q'
  end.

Definition slot_abandon (id now ttl : Z) (s : handlerSlot) : handlerSlot :=
  mkSlot (spend_id id (now + ttl) (queue s)) (nextID s).

Definition slot_reset (s : handlerSlot) : handlerSlot := mkSlot [] (nextID s).

(** ** Operations as data

    One step of a slot, for statements about any sequence of them. *)
Inductive slot_op :=
| OpSet (int : option I) (ext : option E)
| OpTake (now : Z)
| OpCancel (id : Z)
| OpAbandon (id now ttl : Z)
| OpReset.

(** The slot after a step, and what the step handed out. *)
Definition slot_apply (o : slot_op) (s : handlerSlot) : handledResponse * handlerSlot :=
  match o with
  | OpSet int ext => (no_handler, snd (slot_set int ext s))
  | OpTake now => slot_take now s
  | OpCancel id => (no_handler, slot_cancel id s)
  | OpAbandon id now ttl => (no_handler, slot_abandon id now ttl s)
  | OpReset => (no_handler, slot_reset s)
  end.

Definition slot_run (os : list slot_op) (s : handlerSlot) : handlerSlot :=
  fold_left (λ s o, snd (slot_apply o s)) os s.

(** ** The invariant

    Identifiers are issued in increasing order, so none is queued twice.  The
    counter is a [uint64]; the statements are about slots that have issued
    fewer than [2^64] of them. *)

Definition live (e : slotEntry) : Prop := internal (eh e) ≠ None.
#[global] Instance live_dec e : Decision (live e).
Proof. unfold live. destruct (internal (eh e)); [left|right]; naive_solver. Defined.

Definition lives (s : handlerSlot) : list slotEntry := filter live (queue s).

Definition ids (s : handlerSlot) : list Z := eid <$> queue s.

Record slot_wf (s : handlerSlot) : Prop := {
  wf_sorted : StronglySorted Z.lt (ids s);
  wf_issued : Forall (λ i, 0 ≤ i < nextID s)%Z (ids s);
  wf_counter : (0 ≤ nextID s < 2 ^ 64)%Z
}.

(** The discipline of callers that hold one mutex for a whole round trip: only
    the newest entry can be live, and the queue stays within its cap. *)
Fixpoint spent_but_newest (q : list slotEntry) : Prop :=
  match q with
  | e :: q' => match q' with [] => True | _ => ¬ live e ∧ spent_but_newest q' end
  | [] => True
  end.

Record one_live (s : handlerSlot) : Prop := {
  ol_newest : spent_but_newest (queue s);
  ol_cap : (Z.of_nat (length (queue s)) ≤ handlerSlotCap)%Z
}.

(** A caller that holds the mutex registers a handler only when no other
    handler is waiting, and registers a real one. *)
Definition disciplined (o : slot_op) (s : handlerSlot) : Prop :=
  match o with
  | OpSet int _ => lives s = [] ∧ int ≠ None
  | _ => True
  end.

Inductive disciplined_run : list slot_op → handlerSlot → Prop :=
| run_nil s : disciplined_run [] s
| run_cons o os s :
    disciplined o s → disciplined_run os (snd (slot_apply o s)) →
    disciplined_run (o :: os) s.
End slot.

Arguments handledResponse : clear implicits.
Arguments slotEntry : clear implicits.
Arguments handlerSlot : clear implicits.

(** ** Status handlers *)

(** A missing key and a nil map both read as the zero [handledResponse]. *)
Abbreviation statusHandlers I E := (gmap bytes (handledResponse I E)).

Definition status_set {I E} (handle : bytes) (int : I) (m : statusHandlers I E) :
    statusHandlers I E :=
  <[handle := mkHandled (Some int) None]> m.

Definition status_take {I E} (handle : bytes) (m : statusHandlers I E) :
    handledResponse I E * statusHandlers I E :=
  (default no_handler (m !! handle), delete handle m).

Definition status_cancel {I E} (handle : bytes) (m : statusHandlers I E) :
    statusHandlers I E :=
  delete handle m.

(** ** Lemmas *)

Section slot_facts.
Context {I E : Type}.
Implicit Types (s : handlerSlot I E) (e : slotEntry I E) (q : list (slotEntry I E)).

(** [set] evicts at most the oldest entry, and only a spent one. *)
Lemma slot_set_queue (int : option I) (ext : option E) s :
  ∃ p q, queue s = p ++ q ∧ Forall (λ e, ¬ live e) p ∧ length p ≤ 1 ∧
    queue (slot_set int ext s).2 = q ++ [mkEntry (nextID s) (mkHandled int ext) None] ∧
    (p = [] → Z.of_nat (length (queue s)) < handlerSlotCap ∨ ∃ e q', queue s = e :: q' ∧ live e)%Z.
Proof.
  unfold slot_set. simpl. destruct (queue s) as [|e q'] eqn:Hq.
  - exists [], []. split_and!; simpl; auto. intros _. left. done.
  - case_decide as Hc.
    + exists [e], q'. split_and!; [done| |simpl; lia|done|done].
      constructor; [|done]. unfold live. tauto.
    + exists [], (e :: q'). split_and!; [done|done|simpl; lia|done|].
      intros _. destruct (decide (live e)) as [Hl|Hl]; [eauto|].
      left. unfold live in Hl. destruct (internal (eh e)); [by destruct Hl|].
      apply Znot_ge_lt. intros Hge. apply Hc. split; [lia|done].
Qed.

Lemma drop_expired_split now q :
  ∃ p, q = p ++ drop_expired now q ∧ Forall (λ e, expired now e = true) p.
Proof.
  induction q as [|e q (p & Hp & Hall)]; simpl; [by exists []|].
  destruct (expired now e) eqn:He.
  - exists (e :: p). split; [simpl; by rewrite <- Hp|by constructor].
  - by exists [].
Qed.

Lemma drop_expired_head now q e q' :
  drop_expired now q = e :: q' → expired now e = false.
Proof.
  induction q as [|x q IH]; simpl; [done|].
  destruct (expired now x) eqn:He; [done|]. by intros [= <- _].
Qed.

Lemma expired_not_live now e : expired now e = true → ¬ live e.
Proof. unfold expired, live. destruct (internal (eh e)); [done|]. intros _ Hn. by apply Hn. Qed.

(** [take] skips expired entries, then consumes exactly one entry. *)
Lemma slot_take_queue now s h s' :
  slot_take now s = (h, s') →
  ∃ p, Forall (λ e, expired now e = true) p ∧ nextID s' = nextID s ∧
    ((queue s = p ∧ h = no_handler ∧ queue s' = []) ∨
     (∃ e, queue s = p ++ e :: queue s' ∧ h = eh e ∧ expired now e = false)).
Proof.
  unfold slot_take. destruct (drop_expired_split now (queue s)) as (p & Hp & Hall).
  destruct (drop_expired now (queue s)) as [|e q] eqn:Hd; intros [= <- <-]; exists p.
  - rewrite app_nil_r in Hp. split_and!; [done|done|]. by left.
  - split_and!; [done..|]. right. exists e. split_and!; [done|done|].
    by apply drop_expired_head in Hd.
Qed.

Lemma remove_id_filter id q :
  NoDup (eid <$> q) → remove_id id q = filter (λ e, eid e ≠ id) q.
Proof.
  induction q as [|e q IH]; csimpl; [done|]. rewrite list.NoDup_cons. intros [He Hq].
  case_decide as Hid.
  - rewrite filter_cons_False by auto. symmetry. apply filter_keeps_all, Forall_lookup.
    intros i x Hi Hx. apply He. rewrite Hid, <- Hx.
    by apply list_elem_of_fmap_2, list_elem_of_lookup_2 with i.
  - rewrite filter_cons_True by done. by rewrite IH.
Qed.

Lemma spend_id_map id until q :
  NoDup (eid <$> q) →
  spend_id id until q =
  (λ e, if decide (eid e = id) then mkEntry (eid e) no_handler (Some until) else e) <$> q.
Proof.
  induction q as [|e q IH]; csimpl; [done|]. rewrite list.NoDup_cons. intros [He Hq].
  case_decide as Hid; [|by rewrite IH].
  f_equal. symmetry. rewrite <- (list_fmap_id q) at 2. apply list_fmap_ext.
  intros i x Hi. rewrite decide_False; [done|]. intros Hx. apply He.
  rewrite Hid, <- Hx. by apply list_elem_of_fmap_2, list_elem_of_lookup_2 with i.
Qed.

Lemma sorted_NoDup (l : list Z) : StronglySorted Z.lt l → NoDup l.
Proof.
  induction 1 as [|x l _ IH Hx]; constructor; [|done].
  intros Hin. rewrite list.Forall_forall in Hx.
  specialize (Hx _ Hin). lia.
Qed.

Lemma slot_wf_NoDup s : slot_wf s → NoDup (eid <$> queue s).
Proof. intros [Hs _ _]. by apply sorted_NoDup. Qed.

Lemma sorted_sublist (l k : list Z) :
  l `sublist_of` k → StronglySorted Z.lt k → StronglySorted Z.lt l.
Proof.
  induction 1 as [|x l k Hlk IH|x l k Hlk IH]; intros Hs; [done| |];
    apply StronglySorted_inv in Hs as [Hs Hx]; [|by apply IH].
  constructor; [by apply IH|]. by apply (Forall_sublist _ _ _ Hlk).
Qed.

Lemma remove_id_sublist id q : remove_id id q `sublist_of` q.
Proof.
  induction q as [|e q IH]; simpl; [done|].
  case_decide; [by constructor|by constructor].
Qed.

Lemma spend_id_ids id until q : eid <$> spend_id id until q = eid <$> q.
Proof. induction q as [|e q IH]; csimpl; [done|]. case_decide; csimpl; by rewrite ?IH. Qed.

(** Queues whose identifiers are among those of a well-formed one. *)
Lemma slot_wf_sublist s s' :
  slot_wf s → ids s' `sublist_of` ids s → nextID s' = nextID s → slot_wf s'.
Proof.
  intros [Hs Hi Hc] Hsub Hn. constructor; [by eapply sorted_sublist| |by rewrite Hn].
  rewrite Hn. by apply (Forall_sublist _ _ _ Hsub).
Qed.

Lemma slot_take_sublist now s : ids (slot_take now s).2 `sublist_of` ids s.
Proof.
  destruct (slot_take now s) as [h s'] eqn:Ht.
  apply slot_take_queue in Ht as (p & _ & _ & [(_ & _ & Hq)|(e & Hq & _)]);
    unfold ids; simpl; rewrite Hq; [apply sublist_nil_l|].
  apply fmap_sublist. apply sublist_inserts_l. by constructor.
Qed.

Lemma slot_set_wf int ext s :
  slot_wf s → (nextID s + 1 < 2 ^ 64)%Z → slot_wf (slot_set int ext s).2.
Proof.
  intros Hwf Hn. destruct (slot_set_queue int ext s) as (p & q & Hq & _ & _ & Hq' & _).
  destruct Hwf as [Hs Hi Hc]. unfold ids in *. rewrite Hq, fmap_app in *.
  apply StronglySorted_app in Hs as (_ & _ & Hs). apply Forall_app in Hi as [_ Hi].
  assert (nextID (slot_set int ext s).2 = nextID s + 1)%Z as Hn'.
  { simpl. unfold uint64, to_unsigned. rewrite Z.mod_small; lia. }
  constructor; unfold ids; rewrite ?Hn', ?Hq', ?fmap_app.
  - apply StronglySorted_app_2; [|done|repeat constructor].
    intros x1 x2 H1 ->%list_elem_of_singleton.
    rewrite list.Forall_forall in Hi. specialize (Hi _ H1). simpl. lia.
  - apply Forall_app. split; [|simpl; constructor; [lia|done]].
    eapply Forall_impl; [|exact Hi]. simpl. lia.
  - lia.
Qed.

(** Every operation keeps the slot well formed. *)
Lemma slot_apply_wf o s :
  slot_wf s → (nextID s + 1 < 2 ^ 64)%Z → slot_wf (slot_apply o s).2.
Proof.
  intros Hwf Hn. destruct o as [int ext|now|id|id now ttl|].
  - by apply slot_set_wf.
  - eapply slot_wf_sublist; [done|apply slot_take_sublist|].
    simpl. unfold slot_take. by destruct (drop_expired _ _).
  - eapply slot_wf_sublist; [done| |done]. unfold ids. simpl.
    apply fmap_sublist, remove_id_sublist.
  - eapply slot_wf_sublist; [done| |done]. unfold ids. simpl. by rewrite spend_id_ids.
  - eapply slot_wf_sublist; [done| |done]. unfold ids. simpl. apply sublist_nil_l.
Qed.

Lemma slot_apply_next o s :
  nextID (slot_apply o s).2 = nextID s ∨
  nextID (slot_apply o s).2 = uint64 (nextID s + 1).
Proof.
  destruct o; simpl; auto. left. unfold slot_take. by destruct (drop_expired _ _).
Qed.

Lemma slot_run_wf_from os s :
  slot_wf s → (nextID s + Z.of_nat (length os) < 2 ^ 64)%Z → slot_wf (slot_run os s).
Proof.
  unfold slot_run. revert s. induction os as [|o os IH]; intros s Hwf Hn; simpl; [done|].
  simpl in Hn. pose proof (wf_counter _ Hwf). apply IH.
  - apply slot_apply_wf; [done|lia].
  - destruct (slot_apply_next o s) as [->| ->]; [lia|].
    unfold uint64, to_unsigned. rewrite Z.mod_small; lia.
Qed.

Lemma empty_slot_wf : slot_wf (empty_slot (I := I) (E := E)).
Proof. constructor; simpl; [constructor|constructor|lia]. Qed.

(** Identifiers identify.  After any sequence of fewer than [2^64] operations
    on a fresh slot, in any order and with any arguments, the queued entries
    carry pairwise distinct identifiers in the order they were issued, all of
    them already issued -- so [cancel] and [abandon] reach the entry of the
    caller that names it and no other. *)
Theorem slot_run_wf (os : list (slot_op (I := I) (E := E))) :
  (Z.of_nat (length os) < 2 ^ 64)%Z → slot_wf (slot_run os empty_slot).
Proof. intros Hn. apply slot_run_wf_from; [apply empty_slot_wf|simpl; lia]. Qed.

Lemma elem_remove_id id q e : e ∈ q → eid e ≠ id → e ∈ remove_id id q.
Proof.
  induction q as [|x q IH]; simpl; [by intros ?%not_elem_of_nil|].
  rewrite elem_of_cons. intros [->|Hin] Hne; case_decide; try done;
    rewrite ?elem_of_cons; auto.
Qed.

Lemma elem_spend_id id until q e : e ∈ q → eid e ≠ id → e ∈ spend_id id until q.
Proof.
  induction q as [|x q IH]; simpl; [by intros ?%not_elem_of_nil|].
  rewrite elem_of_cons. intros [->|Hin] Hne; case_decide; try done;
    rewrite !elem_of_cons; auto.
Qed.

(** C22: a waiting handler is never lost.  Whatever operation runs, a live entry
    stays queued unexpired unless that operation is the [take] that hands out
    exactly its handler, a [cancel] or [abandon] that names its identifier, or
    the [reset] of the whole connection.  In particular overflow evicts spent
    entries only, and expiry drops spent entries only. *)
Theorem live_never_lost (o : slot_op) s e :
  e ∈ queue s → live e →
  e ∈ queue (slot_apply o s).2 ∨
  (∃ now, o = OpTake now ∧ (slot_apply o s).1 = eh e) ∨
  o = OpCancel (eid e) ∨ (∃ now ttl, o = OpAbandon (eid e) now ttl) ∨ o = OpReset.
Proof.
  intros Hin Hl. destruct o as [int ext|now|id|id now ttl|]; [..|by auto].
  - left. destruct (slot_set_queue int ext s) as (p & q & Hq & Hp & _ & Hq' & _).
    simpl in *. rewrite Hq' in *. rewrite Hq, elem_of_app in Hin.
    destruct Hin as [Hin|Hin]; [|set_solver].
    rewrite list.Forall_forall in Hp. by destruct (Hp _ Hin).
  - simpl. destruct (slot_take now s) as [h s'] eqn:Ht.
    apply slot_take_queue in Ht as (p & Hp & _ & Hcase). rewrite list.Forall_forall in Hp.
    assert (e ∉ p) as Hnp by (intros H'; by apply (expired_not_live now e); [apply Hp|]).
    destruct Hcase as [(Hq & _)|(e' & Hq & -> & _)]; rewrite Hq in Hin; [done|].
    apply elem_of_app in Hin as [Hin|Hin]; [done|].
    apply elem_of_cons in Hin as [->|Hin]; [right; left; by exists now|by left].
  - destruct (decide (eid e = id)) as [->|Hne]; [by auto|].
    left. by apply elem_remove_id.
  - destruct (decide (eid e = id)) as [->|Hne]; [right; right; right; left; eauto|].
    left. by apply elem_spend_id.
Qed.

Lemma spent_but_newest_cons e q :
  spent_but_newest (e :: q) ↔ q = [] ∨ (¬ live e ∧ spent_but_newest q).
Proof. destruct q; simpl; naive_solver. Qed.

Lemma spent_but_newest_sublist q k :
  q `sublist_of` k → spent_but_newest k → spent_but_newest q.
Proof.
  induction 1 as [|x q k Hqk IH|x q k Hqk IH]; [done| |]; rewrite spent_but_newest_cons.
  - intros [->|[Hx Hk]]; [by apply sublist_nil_r in Hqk as ->|].
    apply spent_but_newest_cons. auto.
  - intros [->|[_ Hk]]; [by apply sublist_nil_r in Hqk as ->|auto].
Qed.

Lemma spent_but_newest_snoc q e :
  Forall (λ e, ¬ live e) q → spent_but_newest (q ++ [e]).
Proof.
  induction 1 as [|x q Hx _ IH]; [done|]. simpl app. apply spent_but_newest_cons. auto.
Qed.

Lemma spent_but_newest_spend id until q :
  spent_but_newest q → spent_but_newest (spend_id id until q).
Proof.
  induction q as [|e q IH]; [done|]. rewrite spent_but_newest_cons. simpl.
  intros [->|[He Hq]].
  - by case_decide.
  - case_decide; apply spent_but_newest_cons; right; [|by auto].
    split; [|done]. intros Hl. by apply Hl.
Qed.

Lemma lives_nil_spent s : lives s = [] → Forall (λ e, ¬ live e) (queue s).
Proof.
  unfold lives. intros Hf. apply list.Forall_forall. intros e He Hl.
  assert (e ∈ filter live (queue s)) as Hin by by apply list_elem_of_filter.
  rewrite Hf in Hin. by apply not_elem_of_nil in Hin.
Qed.

Lemma length_spend_id id until q : length (spend_id id until q) = length q.
Proof. rewrite <- (length_fmap eid), spend_id_ids. apply length_fmap. Qed.

(** A queue made of some of the entries of a disciplined one. *)
Lemma one_live_sublist s s' :
  one_live s → queue s' `sublist_of` queue s → one_live s'.
Proof.
  intros [Hn Hc] Hsub. constructor; [by eapply spent_but_newest_sublist|].
  apply sublist_length in Hsub. lia.
Qed.

Lemma slot_take_queue_sublist now s : queue (slot_take now s).2 `sublist_of` queue s.
Proof.
  destruct (slot_take now s) as [h s'] eqn:Ht.
  apply slot_take_queue in Ht as (p & _ & _ & [(_ & _ & Hq)|(e & Hq & _)]);
    simpl; rewrite Hq; [apply sublist_nil_l|].
  apply sublist_inserts_l. by constructor.
Qed.

Lemma one_live_step o s : one_live s → disciplined o s → one_live (slot_apply o s).2.
Proof.
  intros Hol Hd. destruct o as [int ext|now|id|id now ttl|]; cbn [slot_apply snd].
  - destruct Hd as [Hl _]. apply lives_nil_spent in Hl as Hspent.
    destruct (slot_set_queue int ext s) as (p & q & Hq & Hp & Hlp & Hq' & Hcap).
    rewrite Hq in Hspent. apply Forall_app in Hspent as [_ Hsq].
    constructor; rewrite Hq'; [by apply spent_but_newest_snoc|].
    rewrite length_app. simpl. pose proof (ol_cap _ Hol) as Hc. rewrite Hq, length_app in *.
    destruct p as [|e p]; [|simpl in *; lia].
    destruct (Hcap eq_refl) as [Hlt|(e & q' & Heq & He)]; [simpl in *; lia|].
    simpl in Heq. rewrite Heq in Hsq. by apply Forall_cons_1 in Hsq as [? _].
  - eapply one_live_sublist; [done|apply slot_take_queue_sublist].
  - eapply one_live_sublist; [done|apply remove_id_sublist].
  - destruct Hol as [Hn Hc]. constructor; simpl; [by apply spent_but_newest_spend|].
    by rewrite length_spend_id.
  - constructor; simpl; [done|]. unfold handlerSlotCap, queueSize. lia.
Qed.

(** The queue is bounded and serves its newest caller.  As long as a handler
    is registered only when none is waiting -- which is what holding the
    client's mutex for a whole round trip gives -- any sequence of operations
    on a fresh slot keeps at most [handlerSlotCap] entries, and every entry but
    the newest is spent. *)
Theorem disciplined_slot_bounded (os : list (slot_op (I := I) (E := E))) :
  disciplined_run os empty_slot → one_live (slot_run os empty_slot).
Proof.
  assert (one_live (empty_slot (I := I) (E := E))) as H0.
  { constructor; simpl; [done|]. unfold handlerSlotCap, queueSize. lia. }
  revert H0. generalize (empty_slot (I := I) (E := E)). unfold slot_run.
  induction os as [|o os IH]; intros s Hol Hr; simpl; [done|].
  inversion Hr; subst. apply IH; [by apply one_live_step|done].
Qed.

(** A late reply goes to the request it answers.  When the only waiting
    caller gives up at time [t] and another caller registers a handler, a reply
    that arrives before [t + ttl] is absorbed by the entry left behind and the
    next reply reaches the new caller; once the entry has expired, the first
    reply reaches the new caller. *)
Theorem late_reply_absorbed s e t ttl int ext now now' :
  queue s = [e] →
  let s1 := slot_abandon (eid e) t ttl s in
  let s2 := (slot_set (Some int) ext s1).2 in
  let new := mkHandled (Some int) ext in
  ((now < t + ttl)%Z →
   (slot_take now s2).1 = no_handler ∧
   slot_take now' (slot_take now s2).2 = (new, slot_reset s2)) ∧
  ((t + ttl ≤ now)%Z → slot_take now s2 = (new, slot_reset s2)).
Proof.
  intros Hq. cbv zeta. unfold slot_abandon. rewrite Hq. simpl.
  rewrite (decide_True (P := eid e = eid e)) by done.
  unfold slot_set, slot_take, slot_reset. simpl.
  split; intros Ht.
  - unfold expired; simpl. rewrite bool_decide_false by lia. done.
  - unfold expired; simpl. rewrite bool_decide_true by lia. done.
Qed.
End slot_facts.

(** ** Status handlers *)

(** A STATUS_RES reaches the handler registered under its handle, once:
    registering and taking under one handle gives that handler back and leaves
    nothing behind, taking or cancelling another handle does not disturb it,
    and a cancelled or unknown handle yields no handler. *)
Theorem status_correlated {I E} (h h' : bytes) (int : I) (m : statusHandlers I E) :
  let m1 := status_set h int m in
  (status_take h m1).1 = mkHandled (Some int) None ∧
  (status_take h (status_take h m1).2).1 = no_handler ∧
  (status_take h (status_cancel h m1)).1 = no_handler ∧
  (h ≠ h' → (status_take h (status_take h' m1).2).1 = mkHandled (Some int) None ∧
            (status_take h (status_cancel h' m1)).1 = mkHandled (Some int) None ∧
            (status_take h' m1).1 = (status_take h' m).1).
Proof.
  unfold status_set, status_take, status_cancel. simpl. split_and!.
  - by rewrite lookup_insert_eq.
  - by rewrite lookup_delete_eq.
  - by rewrite lookup_delete_eq.
  - intros Hne. by rewrite !lookup_delete_ne, lookup_insert_eq, lookup_insert_ne.
Qed.

(** ** Witnesses *)

Lemma slot_run_wf_witness :
  slot_wf (slot_run [OpSet (Some 1) (Some 2); OpAbandon 0 10 5; OpSet (Some 3) None; OpTake 11]
             empty_slot).
Proof. apply (slot_run_wf (I := nat) (E := nat)). reflexivity. Defined.

Lemma live_never_lost_witness :
  let e := mkEntry (I := nat) (E := nat) 7 (mkHandled (Some 1) None) None in
  (slot_apply (OpTake 0) (mkSlot [e] 8)).1 = eh e.
Proof.
  cbv zeta.
  destruct (live_never_lost (I := nat) (E := nat) (OpTake 0)
    (mkSlot [mkEntry 7 (mkHandled (Some 1) None) None] 8)
    (mkEntry 7 (mkHandled (Some 1) None) None)) as [H|[(now & _ & H)|[H|[H|H]]]].
  - apply list_elem_of_singleton. reflexivity.
  - intros [=].
  - apply elem_of_nil in H. destruct H.
  - exact H.
  - discriminate H.
  - destruct H as (? & ? & [=]).
  - discriminate H.
Defined.

Lemma disciplined_slot_bounded_witness :
  one_live (slot_run [OpSet (Some 1) (Some 2); OpAbandon 0 10 5; OpSet (Some 3) None]
             (empty_slot (I := nat) (E := nat))).
Proof.
  apply (disciplined_slot_bounded (I := nat) (E := nat)).
  repeat (apply run_cons; [first [exact Logic.I|split; [reflexivity|intros [=]]]|]).
  apply run_nil.
Defined.

Lemma late_reply_absorbed_witness :
  let s := mkSlot [mkEntry (I := nat) (E := nat) 0 (mkHandled (Some 1) None) None] 1 in
  let s2 := (slot_set (Some 2) None (slot_abandon 0 100 50 s)).2 in
  (slot_take 120 s2).1 = no_handler ∧ slot_take 160 s2 = (mkHandled (Some 2) None, slot_reset s2).
Proof.
  cbv zeta. split.
  - refine (proj1 (proj1 (late_reply_absorbed (I := nat) (E := nat) (mkSlot [mkEntry 0 (mkHandled (Some 1) None) None] 1)
      (mkEntry 0 (mkHandled (Some 1) None) None) 100 50 2 None 120 0 _) _)); reflexivity.
  - refine (proj2 (late_reply_absorbed (I := nat) (E := nat) (mkSlot [mkEntry 0 (mkHandled (Some 1) None) None] 1)
      (mkEntry 0 (mkHandled (Some 1) None) None) 100 50 2 None 160 0 _) _).
    + reflexivity.
    + vm_compute. congruence.
Defined.
