(* ===== verification/ClientWire.v ===== *)
(** * Whole packets on a connection: [writeTo] and [readPacket] of client/client.go

    [writeTo] pushes one encoded packet through a [bufio.Writer]; [readPacket]
    takes one whole packet off a [bufio.Reader].  The reader's contract is that
    the packets it delivers depend on the bytes the server sent and not on how
    the network split them into reads, that it never returns a fragment, and
    that what it returns is safe to hand to [decodeResponse]. *)

From S2P Require Import Prelude GoStd Protocol ClientResponse.
Import CC.

(** The loop of [writeTo], with the number of rounds as fuel: [None] would mean
    that it ran out. *)
Fixpoint writeTo_loop (fuel i : nat) (buf : bytes) (w : Writer) :
    option (option error * Writer) :=
  match fuel with
  | O => None
  | S fuel =>
      if decide (i < length buf) then
        let '(n, err, w') := BufWrite (drop i buf) w in
        match err with
        | Some e => Some (Some e, w')
        | None => writeTo_loop fuel (i + n) buf w'
        end
      else Some (Flush w)
  end.

Definition writeTo (w : Writer) (buf : bytes) : option (option error * Writer) :=
  writeTo_loop (S (length buf)) 0 buf w.

(** A writer between packets: nothing buffered, or broken for good. *)
Definition settled (w : Writer) : Prop := werr w = None → wbuf w = [].

Section read.
Context `{GoArch}.

Definition bad_magic (m : bytes) : error :=
  Errorf "bad packet magic %q, want %q" [ABytes m; ABytes resStr].
Definition too_long (n : Z) : error :=
  Errorf "packet body of %d bytes exceeds the %d-byte limit" [AInt n; AInt maxPacketLength].

(** [client.readPacket(hdr)] on the reader [getRW] returned. *)
Definition readPacket (rw : Reader) : outcome (read_result * Reader) :=
  match ReadFull (Z.to_nat minPacketLength) rw with
  | (Got hdr, rw) =>
      mw ← sub hdr 0 4;
      magic ← get_uint32 mw;
      if decide (magic ≠ res) then mret (Failed (bad_magic mw), rw)
      else
        lw ← sub hdr 8 12;
        bodyLen ← get_uint32 lw;
        if decide (maxPacketLength < bodyLen)%Z then mret (Failed (too_long bodyLen), rw)
        else
          packet ← getBuffer (go_int (minPacketLength + go_int bodyLen));
          '(packet, _) ← copy_in packet 0 (blen packet) hdr;
          if decide (0 < bodyLen)%Z then
            match ReadFull (Z.to_nat (blen packet - minPacketLength)) rw with
            | (Got body, rw) =>
                '(packet, _) ← copy_in packet minPacketLength (blen packet) body;
                mret (Got packet, rw)
            | (Failed e, rw) => mret (Failed e, rw)
            | (Blocked, rw) => mret (Blocked, rw)
            end
          else mret (Got packet, rw)
  | (Failed e, rw) => mret (Failed e, rw)
  | (Blocked, rw) => mret (Blocked, rw)
  end.

(** Reading [n] packets one after the other. *)
Fixpoint readPackets (n : nat) (rw : Reader) : outcome (list bytes * Reader) :=
  match n with
  | O => mret ([], rw)
  | S n =>
      '(r, rw) ← readPacket rw;
      match r with
      | Got p => '(ps, rw) ← readPackets n rw; mret (p :: ps, rw)
      | _ => mret ([], rw)
      end
  end.

(** The reference: one packet off a stream. *)
Definition read_packet_stream (s : list (byte + error)) : read_result * list (byte + error) :=
  match readfull_stream 12 s with
  | (Got hdr, s) =>
      let m := take 4 hdr in
      let l := declared_len hdr in
      if decide (m ≠ resStr) then (Failed (bad_magic m), s)
      else if decide (maxPacketLength < l)%Z then (Failed (too_long l), s)
      else if decide (0 < l)%Z then
        match readfull_stream (Z.to_nat l) s with
        | (Got body, s) => (Got (hdr ++ body), s)
        | (Failed e, s) => (Failed e, s)
        | (Blocked, s) => (Blocked, s)
        end
      else (Got hdr, s)
  | (Failed e, s) => (Failed e, s)
  | (Blocked, s) => (Blocked, s)
  end.
End read.

(** ** Lemmas: writing *)

Lemma writeTo_broken w buf e :
  werr w = Some e → writeTo w buf = Some (Some e, w).
Proof.
  intros Hw. unfold writeTo. simpl. case_decide.
  - by rewrite (BufWrite_broken _ _ e).
  - by rewrite (Flush_broken _ e).
Qed.

(** One packet on a settled writer: all of it reaches the peer, or a prefix of
    it does and the writer is broken. *)
Lemma writeTo_spec w buf :
  settled w →
  ∃ err w', writeTo w buf = Some (err, w') ∧ settled w' ∧
  ((err = None ∧ werr w = None ∧ werr w' = None ∧ wire w' = wire w ++ buf) ∨
   (∃ e k, err = Some e ∧ werr w' = Some e ∧ wire w' = wire w ++ take k buf)).
Proof.
  intros Hs. destruct (werr w) as [e|] eqn:Hw.
  { rewrite (writeTo_broken _ _ e) by done. exists (Some e), w.
    split_and!; [done..|]. right. exists e, 0. by rewrite take_0, app_nil_r. }
  specialize (Hs Hw). unfold writeTo. destruct buf as [|b buf].
  - simpl. unfold Flush. rewrite Hw, Hs. exists None, w. rewrite app_nil_r.
    split_and!; [done|by intros _|by left].
  - set (p := b :: buf). cbn [writeTo_loop]. rewrite decide_True by (simpl; lia).
    rewrite drop_0. unfold BufWrite. destruct (write_loop 4 p 0 w) as [[n err] w1] eqn:Hl.
    apply write_loop_empty in Hl as [(-> & He & -> & x & Hwire & Hx)|(e & k & -> & He & Hwire)]; [| |done..].
    + replace (length p) with (S (length buf)) by done. cbn [writeTo_loop].
      rewrite decide_False by (simpl; lia). destruct (Flush w1) as [err w2] eqn:Hf.
      exists err, w2. split; [done|].
      apply Flush_spec in Hf as [(-> & He2 & Hb & Hwire2)|(e & k & -> & He2 & Hwire2)]; [| |done].
      * split; [by intros _|]. left. split_and!; [done..|].
        by rewrite Hwire2, Hwire, <- app_assoc, Hx.
      * split; [intros ?; congruence|]. right. exists e, (length x + k).
        split_and!; [done..|]. by rewrite Hwire2, Hwire, <- Hx, take_app_add, app_assoc.
    + exists (Some e), w1. split; [done|]. split; [intros ?; congruence|]. right.
      by exists e, k.
Qed.

(** Packets written one after the other, whatever became of the earlier ones. *)
Fixpoint writeAll (w : Writer) (ps : list bytes) : option (list (option error) * Writer) :=
  match ps with
  | [] => Some ([], w)
  | p :: ps =>
      '(err, w) ← writeTo w p;
      '(errs, w) ← writeAll w ps;
      Some (err :: errs, w)
  end.

Lemma writeAll_broken w ps e :
  werr w = Some e → writeAll w ps = Some (replicate (length ps) (Some e), w).
Proof.
  intros Hw. induction ps as [|p ps IH]; simpl; [done|].
  rewrite (writeTo_broken _ _ e) by done. simpl. by rewrite IH.
Qed.

(** A sequence of packets on a settled writer. *)
Lemma writeAll_spec w ps :
  settled w → werr w = None →
  ∃ errs w' sent rest,
    writeAll w ps = Some (errs, w') ∧ ps = sent ++ rest ∧
    ((rest = [] ∧ errs = replicate (length sent) None ∧ wire w' = wire w ++ concat sent) ∨
     (∃ e k p, hd_error rest = Some p ∧
        errs = replicate (length sent) None ++ replicate (length rest) (Some e) ∧
        wire w' = wire w ++ concat sent ++ take k p)).
Proof.
  revert w. induction ps as [|p ps IH]; intros w Hs Hw; simpl.
  { exists [], w, [], []. split_and!; [done..|left]. by rewrite app_nil_r. }
  destruct (writeTo_spec w p Hs) as (err & w1 & -> & Hs1 & Hcase). simpl.
  destruct Hcase as [(-> & _ & He & Hwire)|(e & k & -> & He & Hwire)].
  - destruct (IH w1 Hs1 He) as (errs & w' & sent & rest & -> & -> & Hcase).
    exists (None :: errs), w', (p :: sent), rest. split_and!; [done..|].
    destruct Hcase as [(-> & -> & ->)|(e & k & q & Hr & -> & ->)]; [left|right].
    + split_and!; [done..|]. simpl. by rewrite Hwire, <- app_assoc.
    + exists e, k, q. split_and!; [done..|]. simpl. by rewrite Hwire, <- !app_assoc.
  - rewrite (writeAll_broken _ _ e) by done. simpl.
    exists (Some e :: replicate (length ps) (Some e)), w1, [], (p :: ps).
    split_and!; [done..|right]. by exists e, k, p.
Qed.

(** C31: a connection carries whole packets.  However the connection accepts or
    breaks off the writes, [writeTo] returns, and a sequence of packets written
    to a fresh connection puts on the wire exactly the packets whose write
    reported success, in order; the first failed write may add a prefix of its
    packet, and after it nothing is written at all, so no packet ever starts in
    the middle of another. *)
Theorem writeAll_framed ps script :
  ∃ errs w' sent rest,
    writeAll (mkWriter [] None [] script) ps = Some (errs, w') ∧ ps = sent ++ rest ∧
    ((rest = [] ∧ errs = replicate (length sent) None ∧ wire w' = concat sent) ∨
     (∃ e k p, hd_error rest = Some p ∧
        errs = replicate (length sent) None ++ replicate (length rest) (Some e) ∧
        wire w' = concat sent ++ take k p)).
Proof.
  exact (writeAll_spec (mkWriter [] None [] script) ps (λ _, eq_refl) eq_refl).
Qed.

(** ** Lemmas: reading *)

Section read_facts.
Context `{GoArch}.

(** [readPacket] once its header is in. *)
Lemma readPacket_header rw m ty l rw1 :
  ReadFull 12 rw = (Got (header m ty l), rw1) →
  (0 ≤ m < 2 ^ 32)%Z → (0 ≤ l < 2 ^ 32)%Z →
  readPacket rw =
  Val (if decide (be32 m ≠ resStr) then (Failed (bad_magic (be32 m)), rw1)
       else if decide (maxPacketLength < l)%Z then (Failed (too_long l), rw1)
       else if decide (0 < l)%Z then
         match ReadFull (Z.to_nat l) rw1 with
         | (Got body, rw2) => (Got (header m ty l ++ body), rw2)
         | (Failed e, rw2) => (Failed e, rw2)
         | (Blocked, rw2) => (Blocked, rw2)
         end
       else (Got (header m ty l), rw1)).
Proof.
  intros Hread Hm Hl. unfold readPacket. change (Z.to_nat minPacketLength) with 12.
  rewrite Hread. pose proof (header_magic m ty l []) as E3.
  pose proof (header_len m ty l []) as E4. rewrite app_nil_r in E3, E4.
  rewrite E3, outcome_bind_ret, get_uint32_be32, outcome_bind_ret, uint32_small by done.
  destruct magic_strings as (_ & Hres & _ & _).
  destruct (decide (m = res)) as [->|Hne].
  2: { rewrite !decide_True by (done || rewrite <- Hres; by apply be32_ne). done. }
  rewrite (decide_False (P := res ≠ res)), (decide_False (P := be32 res ≠ resStr)) by tauto.
  rewrite E4, outcome_bind_ret, get_uint32_be32, outcome_bind_ret, uint32_small by done.
  case_decide as Hmax; [done|]. change maxPacketLength with 67108864%Z in Hmax.
  rewrite (go_int_small l) by lia. change minPacketLength with 12%Z.
  rewrite go_int_small by lia. unfold getBuffer. rewrite make_bytes_nonneg by lia.
  rewrite outcome_bind_ret. replace (Z.to_nat (12 + l)) with (12 + Z.to_nat l) by lia.
  rewrite replicate_add, copy_in_prefix; [|done|rewrite !blen_app, !blen_replicate; blia].
  rewrite outcome_bind_ret. cbv beta iota. rewrite blen_app, blen_header, blen_replicate.
  case_decide as Hpos.
  2: { replace (Z.to_nat l) with 0 by lia. by rewrite app_nil_r. }
  replace (Z.to_nat (12 + Z.of_nat (Z.to_nat l) - 12)) with (Z.to_nat l) by lia.
  destruct (ReadFull_stream (Z.to_nat l) rw1) as [E1 E2].
  destruct (ReadFull (Z.to_nat l) rw1) as [[body|e|] rw2]; [|done..].
  destruct (readfull_stream _ _) as [r s] eqn:Hr. simpl in E1. subst r.
  apply readfull_stream_got in Hr as [Hlen _].
  rewrite <- (app_nil_r (replicate _ _)), copy_in_region;
    [by rewrite app_nil_r|done|by rewrite length_replicate|].
  rewrite app_nil_r. unfold blen. rewrite length_app, length_header, length_replicate. lia.
Qed.

Lemma readPacket_stream rw :
  ∃ r rw', readPacket rw = Val (r, rw') ∧ read_packet_stream (stream rw) = (r, stream rw').
Proof.
  unfold read_packet_stream. destruct (ReadFull_stream 12 rw) as [E1 E2].
  destruct (readfull_stream 12 (stream rw)) as [r2 s2] eqn:Hr. simpl in E1, E2. subst r2 s2.
  destruct (ReadFull 12 rw) as [[hdr|e|] rw1] eqn:Hread; simpl in *.
  2: { unfold readPacket. change (Z.to_nat minPacketLength) with 12. rewrite Hread. eauto. }
  2: { unfold readPacket. change (Z.to_nat minPacketLength) with 12. rewrite Hread. eauto. }
  apply readfull_stream_got in Hr as [Hlen _].
  destruct (header_decompose hdr) as (m & ty & l & rest & -> & Hm & Hty & Hl);
    [unfold blen; lia|].
  assert (rest = []) as ->; [|rewrite app_nil_r in *].
  { rewrite length_app, length_header in Hlen. apply length_zero_iff_nil. lia. }
  rewrite declared_len_header, (readPacket_header _ _ _ _ _ Hread) by done.
  change (take 4 (header m ty l)) with (be32 m).
  case_decide; [by eauto|]. case_decide; [by eauto|]. case_decide; [|by eauto].
  destruct (ReadFull_stream (Z.to_nat l) rw1) as [E1 E2].
  destruct (readfull_stream (Z.to_nat l) (stream rw1)) as [r2 s2]. simpl in E1, E2. subst r2 s2.
  destruct (ReadFull (Z.to_nat l) rw1) as [[body|e|] rw2]; simpl; eauto.
Qed.

(** A stream that starts with a frame the limit allows yields that frame. *)
Lemma read_packet_stream_frame dt body s :
  (blen body ≤ maxPacketLength)%Z →
  read_packet_stream ((inl <$> frame dt body) ++ s) = (Got (frame dt body), s).
Proof.
  intros Hb. change maxPacketLength with 67108864%Z in Hb. pose proof (blen_nonneg body).
  unfold frame, read_packet_stream. rewrite fmap_app, <- app_assoc.
  rewrite readfull_stream_app by done.
  rewrite declared_len_header by lia.
  change (take 4 (header res dt (blen body))) with (be32 res).
  destruct magic_strings as (_ & -> & _).
  rewrite (decide_False (P := resStr ≠ resStr)) by tauto.
  change maxPacketLength with 67108864%Z. rewrite decide_False by lia.
  case_decide.
  - by rewrite readfull_stream_app by apply to_nat_blen.
  - assert (body = []) as -> by (apply length_zero_iff_nil; unfold blen in *; lia).
    by rewrite app_nil_r.
Qed.

(** Framing does not depend on the network.  Two connections that deliver
    the same bytes and errors, however split into reads and whatever is already
    buffered, give [readPacket] the same result and are left in the same state;
    and [readPacket] never panics. *)
Theorem readPacket_chunking rw1 rw2 :
  rw1 ≡ rw2 →
  ∃ r rw1' rw2', readPacket rw1 = Val (r, rw1') ∧ readPacket rw2 = Val (r, rw2') ∧
    rw1' ≡ rw2'.
Proof.
  unfold equiv, reader_equiv. intros Heq.
  destruct (readPacket_stream rw1) as (r1 & rw1' & E1 & S1).
  destruct (readPacket_stream rw2) as (r2 & rw2' & E2 & S2).
  rewrite Heq, S2 in S1. simplify_eq. eauto 10.
Qed.

(** C4: the packets read are the packets sent.  From a connection that delivers a
    sequence of response packets, cut into reads anywhere -- inside headers,
    between packets, several at once -- [readPacket] called once per packet
    returns exactly those packets in order and leaves what follows unread. *)
Theorem readPackets_framed (ps : list (Z * bytes)) rw s :
  Forall (λ p, (blen p.2 ≤ maxPacketLength)%Z) ps →
  stream rw = (inl <$> concat ((λ p, frame p.1 p.2) <$> ps)) ++ s →
  ∃ rw', readPackets (length ps) rw = Val ((λ p, frame p.1 p.2) <$> ps, rw') ∧
    stream rw' = s.
Proof.
  intros Hall. revert rw. induction Hall as [|[dt body] ps Hp _ IH]; intros rw Hs; simpl.
  { by exists rw. }
  destruct (readPacket_stream rw) as (r & rw1 & -> & Hr).
  change (stream rw = (inl <$> (frame dt body ++ concat ((λ p, frame p.1 p.2) <$> ps))) ++ s)
    in Hs. rewrite fmap_app, <- app_assoc in Hs.
  rewrite Hs, read_packet_stream_frame in Hr by done. simplify_eq.
  rewrite outcome_bind_ret. cbv beta iota.
  destruct (IH rw1) as (rw' & -> & Hs'); [done|]. by exists rw'.
Qed.

(** A packet read off a stream is one whole packet. *)
Lemma read_packet_stream_whole s p s' :
  read_packet_stream s = (Got p, s') →
  s = (inl <$> p) ++ s' ∧ take 4 p = resStr ∧
  (declared_len p ≤ maxPacketLength)%Z ∧ blen p = (12 + declared_len p)%Z.
Proof.
  intros Hr. unfold read_packet_stream in Hr.
  destruct (readfull_stream 12 s) as [[hdr|e|] s1] eqn:H1; try done.
  apply readfull_stream_got in H1 as [Hlen Hs1].
  case_decide as Hm; [done|]. case_decide as Hmax; [done|].
  assert (∃ body, p = hdr ++ body ∧ Z.of_nat (length body) = declared_len hdr ∧
    s1 = (inl <$> body) ++ s') as (body & -> & Hbody & ->).
  { pose proof (declared_len_range hdr). case_decide.
    - destruct (readfull_stream _ s1) as [[body|e|] s2] eqn:H2; try done.
      simplify_eq. apply readfull_stream_got in H2 as [Hb ->].
      exists body. split_and!; [done|lia|done].
    - simplify_eq. exists []. rewrite app_nil_r. split_and!; [done|simpl; lia|done]. }
  assert (declared_len (hdr ++ body) = declared_len hdr) as Hd.
  { destruct (header_decompose hdr) as (m & ty & l & rest & -> & _ & Hty & Hl);
      [unfold blen; lia|].
    rewrite <- app_assoc. by rewrite !(proj1 (declared_header m ty l _ Hty Hl)). }
  rewrite Hd. split_and!.
  - by rewrite Hs1, fmap_app, <- app_assoc.
  - rewrite take_app_le by lia. done.
  - lia.
  - unfold blen in *. rewrite length_app. lia.
Qed.

Lemma limit_safe l : (0 ≤ l ≤ maxPacketLength)%Z → safe_len l.
Proof.
  change maxPacketLength with 67108864%Z. unfold safe_len. destruct int_width; lia.
Qed.

(** No fragments, and nothing the decoder cannot take.  Whatever the server
    sends, a packet returned by [readPacket] is one whole packet: the RES magic,
    a declared length within the limit, exactly that many bytes of body, and
    the connection is left at the byte after it.  On every build
    [decodeResponse] runs on it without panicking. *)
Theorem readPacket_whole rw p rw' :
  readPacket rw = Val (Got p, rw') →
  stream rw = (inl <$> p) ++ stream rw' ∧ take 4 p = resStr ∧
  (declared_len p ≤ maxPacketLength)%Z ∧ blen p = (12 + declared_len p)%Z ∧
  decodeResponse p = Val (decode_meaning p).
Proof.
  intros Hp. destruct (readPacket_stream rw) as (r & rw1 & E & Hr).
  rewrite Hp in E. injection E as <- <-.
  apply read_packet_stream_whole in Hr as (Hs & Hm & Hl & Hb). split_and!; [done..|].
  apply decodeResponse_spec, limit_safe. pose proof (declared_len_range p). lia.
Qed.

(** Reading a header and finding it acceptable or not. *)
Lemma read_packet_stream_header m dt l s :
  (0 ≤ m < 2 ^ 32)%Z → (0 ≤ l < 2 ^ 32)%Z →
  read_packet_stream ((inl <$> header m dt l) ++ s) =
  if decide (m ≠ res) then (Failed (bad_magic (be32 m)), s)
  else if decide (maxPacketLength < l)%Z then (Failed (too_long l), s)
  else if decide (0 < l)%Z then
    match readfull_stream (Z.to_nat l) s with
    | (Got body, s) => (Got (header m dt l ++ body), s)
    | (Failed e, s) => (Failed e, s)
    | (Blocked, s) => (Blocked, s)
    end
  else (Got (header m dt l), s).
Proof.
  intros Hm Hl. unfold read_packet_stream. rewrite readfull_stream_app by done.
  rewrite declared_len_header by done. change (take 4 (header m dt l)) with (be32 m).
  destruct magic_strings as (_ & Hres & _).
  destruct (decide (m = res)) as [->|Hne].
  - by rewrite (decide_False (P := be32 res ≠ resStr)), (decide_False (P := res ≠ res)) by tauto.
  - rewrite !decide_True by (done || rewrite <- Hres; by apply be32_ne). done.
Qed.

(** What is not a whole packet is an error.  A connection that ends between
    packets gives [io.EOF], one that ends inside a header or inside a body
    gives [io.ErrUnexpectedEOF], and a header with another magic or with a
    declared length beyond the limit is rejected with only the header read. *)
Theorem readPacket_errors rw s :
  (∀ b, stream rw = (inl <$> b) ++ inr EOF :: s → length b < 12 →
     ∃ rw', readPacket rw =
       Val (Failed (if decide (b = []) then EOF else ErrUnexpectedEOF), rw')) ∧
  (∀ dt l b, stream rw = (inl <$> header res dt l) ++ (inl <$> b) ++ inr EOF :: s →
     b ≠ [] → (blen b < l ≤ maxPacketLength)%Z →
     ∃ rw', readPacket rw = Val (Failed ErrUnexpectedEOF, rw')) ∧
  (∀ m dt l, stream rw = (inl <$> header m dt l) ++ s → (0 ≤ m < 2 ^ 32)%Z →
     (0 ≤ l < 2 ^ 32)%Z → m ≠ res ∨ (maxPacketLength < l)%Z →
     ∃ rw' e, readPacket rw = Val (Failed e, rw') ∧ stream rw' = s).
Proof.
  destruct (readPacket_stream rw) as (r & rw' & -> & Hr). split_and!.
  - intros b Hs Hb. exists rw'. rewrite Hs in Hr. unfold read_packet_stream in Hr.
    rewrite readfull_stream_cut in Hr by done. destruct (decide (b = [])) as [->|Hne].
    + rewrite decide_False in Hr by naive_solver. by simplify_eq.
    + rewrite decide_True in Hr by done. by simplify_eq.
  - intros dt l b Hs Hne Hl. exists rw'. rewrite Hs in Hr. pose proof (blen_nonneg b).
    change maxPacketLength with 67108864%Z in Hl.
    rewrite read_packet_stream_header in Hr by (unfold res; lia).
    rewrite (decide_False (P := res ≠ res)) in Hr by tauto.
    rewrite decide_False in Hr by (change maxPacketLength with 67108864%Z; lia).
    rewrite decide_True in Hr by lia.
    rewrite readfull_stream_cut in Hr by (unfold blen in *; lia).
    rewrite decide_True in Hr by done. by simplify_eq.
  - intros m dt l Hs Hm Hl Hbad. rewrite Hs, read_packet_stream_header in Hr by done.
    case_decide; [by simplify_eq; eauto|]. rewrite decide_True in Hr by tauto.
    simplify_eq. eauto.
Qed.
End read_facts.

(** ** Witnesses *)

(** A reply cut inside its header and inside its body, with a second one behind
    it in the same read. *)
Definition split_reader : Reader :=
  let p := frame dtWorkComplete (str "H:1" ++ x00 :: str "ok") in
  mkReader [] [Chunk (take 5 p); Chunk (take 9 (drop 5 p)); Chunk (drop 14 p ++ frame dtEchoRes [])].

Definition whole_reader : Reader :=
  mkReader (frame dtWorkComplete (str "H:1" ++ x00 :: str "ok") ++ frame dtEchoRes []) [].

Lemma readPacket_chunking_witness :
  ∃ r rw1' rw2', readPacket (H := W64) split_reader = Val (r, rw1') ∧
    readPacket (H := W64) whole_reader = Val (r, rw2') ∧ rw1' ≡ rw2'.
Proof. apply (readPacket_chunking (H := W64)). vm_compute. reflexivity. Defined.

Lemma readPackets_framed_witness :
  ∃ rw', readPackets (H := W64) 2 split_reader =
    Val ([frame dtWorkComplete (str "H:1" ++ x00 :: str "ok"); frame dtEchoRes []], rw') ∧
    stream rw' = [].
Proof.
  apply (readPackets_framed (H := W64)
    [(dtWorkComplete, str "H:1" ++ x00 :: str "ok"); (dtEchoRes, [])] split_reader []).
  - repeat constructor; vm_compute; congruence.
  - vm_compute. reflexivity.
Defined.

Lemma readPacket_whole_witness :
  decodeResponse (H := W32) (frame dtEchoRes (str "ping")) =
  Val (decode_meaning (frame dtEchoRes (str "ping"))).
Proof.
  refine (proj2 (proj2 (proj2 (proj2 (readPacket_whole (H := W32)
    (mkReader (frame dtEchoRes (str "ping")) []) _ (mkReader [] []) _))))).
  vm_compute. reflexivity.
Defined.

Lemma readPacket_errors_witness :
  ∃ rw', readPacket (H := W64) (mkReader [] [Chunk (str "abc"); Fail EOF]) =
    Val (Failed ErrUnexpectedEOF, rw').
Proof.
  refine (proj1 (readPacket_errors (H := W64) (mkReader [] [Chunk (str "abc"); Fail EOF]) [])
    (str "abc") _ _).
  - vm_compute. reflexivity.
  - vm_compute. lia.
Defined.
