(* ===== verification/IdGen.v ===== *)
(** * Unique ids: client/id.go

    The default generator counts up from the nanosecond fraction of its start
    time, shifted past 32 bits.  The counter is an [int64] incremented
    atomically, so concurrent callers draw successive values. *)

From S2P Require Import Prelude GoStd.

(** The state of an [autoincId]. *)
Record autoincId := mkAutoInc { value : Z }.

(** [NewAutoIncId()] at a moment with the given [time.Now().Nanosecond()]. *)
Definition NewAutoIncId (nanosecond : Z) : autoincId :=
  mkAutoInc (int64 (Z.shiftl nanosecond 32)).

(** [ai.Id()] *)
Definition Id (ai : autoincId) : bytes * autoincId :=
  let next := int64 (value ai + 1) in
  (FormatInt next, mkAutoInc next).

(** The next [n] ids. *)
Fixpoint draw (n : nat) (ai : autoincId) : list bytes :=
  match n with
  | O => []
  | S n => let '(id, ai) := Id ai in id :: draw n ai
  end.

Lemma FormatUint_inj a b : (0 ≤ a)%Z → (0 ≤ b)%Z → FormatUint a = FormatUint b → a = b.
Proof.
  intros Ha Hb Heq. destruct (FormatUint_spec a Ha) as (_ & _ & <-).
  destruct (FormatUint_spec b Hb) as (_ & _ & <-). by rewrite Heq.
Qed.

Lemma FormatUint_no_sign a s : (0 ≤ a)%Z → FormatUint a ≠ x2d :: s.
Proof.
  intros Ha Heq. destruct (FormatUint_spec a Ha) as (_ & Hd & _).
  rewrite Heq in Hd. by apply Forall_cons_1 in Hd as [? _].
Qed.

Lemma FormatInt_inj a b : FormatInt a = FormatInt b → a = b.
Proof.
  unfold FormatInt. case_decide; case_decide; intros Heq.
  - simplify_eq. apply FormatUint_inj in Heq; lia.
  - symmetry in Heq. by apply FormatUint_no_sign in Heq; [|lia].
  - by apply FormatUint_no_sign in Heq; [|lia].
  - apply FormatUint_inj; [lia..|done].
Qed.

Lemma FormatInt_nonempty a : FormatInt a ≠ [].
Proof.
  unfold FormatInt. case_decide; [done|].
  destruct (FormatUint_spec a) as (? & _); [lia|done].
Qed.

Lemma int64_eq a b : int64 a = int64 b → (a `mod` 2 ^ 64 = b `mod` 2 ^ 64)%Z.
Proof.
  unfold int64, to_signed. change (64 - 1)%Z with 63%Z. intros E%Z.sub_cancel_r.
  apply (f_equal (λ x, (x - 2 ^ 63) `mod` 2 ^ 64)%Z) in E.
  by rewrite !Zminus_mod_idemp_l, !Z.add_simpl_r in E.
Qed.

Lemma int64_add a k : int64 (int64 a + k) = int64 (a + k).
Proof.
  unfold int64, to_signed. change (64 - 1)%Z with 63%Z. f_equal.
  set (m := (2 ^ 63)%Z).
  replace ((a + m) `mod` 2 ^ 64 - m + k + m)%Z with ((a + m) `mod` 2 ^ 64 + k)%Z by ring.
  rewrite Zplus_mod_idemp_l. f_equal. ring.
Qed.

Lemma draw_lookup n ai i :
  i < n → draw n ai !! i = Some (FormatInt (int64 (value ai + 1 + Z.of_nat i))).
Proof.
  revert ai i. induction n as [|n IH]; intros ai i Hi; [lia|].
  destruct i as [|i]; simpl; [by rewrite Z.add_0_r|].
  rewrite IH by lia. simpl. do 2 f_equal. rewrite <- Z.add_assoc, int64_add. f_equal. lia.
Qed.

(** Generated ids are unique.  A generator hands out [2^64] pairwise distinct
    ids before any repeats, wrapping through negative numbers included; none is
    empty, so [do] never rejects one as [ErrInvalidId], and none contains the
    NUL that separates the fields of a SUBMIT_JOB. *)
Theorem ids_unique ai i j a b n :
  (Z.of_nat n ≤ 2 ^ 64)%Z →
  draw n ai !! i = Some a → draw n ai !! j = Some b →
  (i ≠ j → a ≠ b) ∧ a ≠ [] ∧ x00 ∉ a.
Proof.
  intros Hn Ha Hb.
  assert (length (draw n ai) = n) as Hlen.
  { clear. revert ai. induction n as [|n IH]; intros ai; simpl; [done|]. by rewrite IH. }
  assert (i < n ∧ j < n) as [Hi Hj].
  { apply lookup_lt_Some in Ha, Hb. lia. }
  rewrite draw_lookup in Ha, Hb by lia. simplify_eq. split_and!.
  - intros Hne Heq. apply FormatInt_inj, int64_eq in Heq. apply Hne.
    assert (∃ q, Z.of_nat i - Z.of_nat j = q * 2 ^ 64)%Z as [q Hq].
    { apply Z.mod_divide; [lia|].
      replace (Z.of_nat i - Z.of_nat j)%Z
        with ((value ai + 1 + Z.of_nat i) - (value ai + 1 + Z.of_nat j))%Z by lia.
      by rewrite Zminus_mod, Heq, Z.sub_diag. }
    assert (q = 0)%Z; nia.
  - apply FormatInt_nonempty.
  - apply FormatInt_no_nul.
Qed.

(** Generators started at different nanoseconds do not collide: their first
    [2^32 - 1] ids are pairwise distinct. *)
Theorem generators_disjoint t t' i j n a b :
  (0 ≤ t < 10 ^ 9)%Z → (0 ≤ t' < 10 ^ 9)%Z → t ≠ t' → (Z.of_nat n < 2 ^ 32)%Z →
  draw n (NewAutoIncId t) !! i = Some a → draw n (NewAutoIncId t') !! j = Some b → a ≠ b.
Proof.
  intros Ht Ht' Hne Hn Ha Hb.
  assert (∀ ai, length (draw n ai) = n) as Hlen.
  { clear. induction n as [|n IH]; intros ai; simpl; [done|]. by rewrite IH. }
  assert (i < n ∧ j < n) as [Hi Hj].
  { apply lookup_lt_Some in Ha, Hb. rewrite Hlen in *. lia. }
  rewrite draw_lookup in Ha, Hb by lia. simplify_eq. intros Heq.
  apply FormatInt_inj in Heq. simpl in Heq. rewrite <- !Z.add_assoc, !int64_add in Heq.
  apply int64_eq in Heq. rewrite !Z.shiftl_mul_pow2 in Heq by lia.
  rewrite !Z.mod_small in Heq by lia. lia.
Qed.

Lemma ids_unique_witness :
  (0 ≠ 1 → str "1" ≠ str "2") ∧ str "1" ≠ [] ∧ x00 ∉ str "1".
Proof.
  apply (ids_unique (mkAutoInc 0) 0 1 (str "1") (str "2") 2).
  - vm_compute. congruence.
  - vm_compute. reflexivity.
  - vm_compute. reflexivity.
Defined.

Lemma generators_disjoint_witness : str "4294967297" ≠ str "8589934593".
Proof.
  apply (generators_disjoint 1 2 0 0 1).
  - lia.
  - lia.
  - discriminate.
  - lia.
  - vm_compute. reflexivity.
  - vm_compute. reflexivity.
Defined.
