(* ===== verification/Pool.v ===== *)
(** * The pool of clients: client/pool.go

    A [Pool] maps server addresses to clients.  The pool calls into its clients
    only through the interface [ClientIface]: their address, closing them, and
    installing an error handler.  Clients are shared objects, so they live in a
    heap and the pool holds references.

    Each method is given as its critical sections under [pool.mutex] and the
    calls it makes outside them, which are the points where other goroutines
    can run.  [pool_step] interleaves the sections of any number of concurrent
    calls.  [SelectionHandler]s are functions of the map and the last address;
    the order in which Go iterates a map and the numbers [rand.Intn] returns
    are arguments, so a statement for all of them is a statement for every run. *)

From S2P Require Import Prelude GoStd Protocol ClientResponse.

(** client/pool.go *)
Definition ErrNotFound : error := New "Server Not Found".

(** What the pool relies on of a client; [HD] is the type of error handlers. *)
Class ClientIface (C HD : Type) := {
  c_addr : C → bytes;
  c_closed : C → bool;
  c_handler : C → option HD;
  c_close : C → option error * C;
  c_set_handler : option HD → C → C;
  c_close_closed c : c_closed (c_close c).2 = true;
  c_close_addr c : c_addr (c_close c).2 = c_addr c;
  c_set_handler_addr h c : c_addr (c_set_handler h c) = c_addr c;
  c_set_handler_closed h c : c_closed (c_set_handler h c) = c_closed c;
  c_set_handler_handler h c : c_handler (c_set_handler h c) = h
}.

Record PoolClient := mkPoolClient {
  ref : nat;   (** the embedded [*Client] *)
  Rate : Z
}.

Section pool.
Context `{GoArch}.
Context {C HD : Type} `{!ClientIface C HD}.

(** The fields of [Pool] that its mutex or atomics guard. *)
Record Pool := mkPool {
  Clients : gmap bytes PoolClient;
  last : bytes;
  errorHandler : option HD
}.

Definition NewPool : Pool := mkPool ∅ [] None.

(** The pool together with the heap its client pointers point into. *)
Record World := mkWorld {
  pool : Pool;
  heap : gmap nat C
}.

(** [item.addr] *)
Definition item_addr (h : gmap nat C) (item : PoolClient) : bytes :=
  match h !! ref item with Some c => c_addr c | None => [] end.

(** ** Selection *)

(** [rand.Intn(n)], the [k]-th draw of the run *)
Definition Intn (rnd : nat → Z → Z) (k : nat) (n : Z) : outcome Z :=
  if decide (n ≤ 0)%Z then Panics IntnArgument else Val (rnd k n).

(** [SelectWithRate], ranging over the items in the order the map yields them;
    [total] is an [int]. *)
Fixpoint SelectWithRate_loop (addr_of : PoolClient → bytes) (rnd : nat → Z → Z) (k : nat)
    (total : Z) (items : list PoolClient) (lst : bytes) : outcome bytes :=
  match items with
  | [] => Val lst
  | item :: items =>
      let total := go_int (total + Rate item) in
      if decide (0 < total)%Z then
        r ← Intn rnd k total;
        if decide (r < Rate item)%Z then Val (addr_of item)
        else SelectWithRate_loop addr_of rnd (S k) total items lst
      else SelectWithRate_loop addr_of rnd k total items lst
  end.

Definition SelectWithRate (addr_of : PoolClient → bytes) (rnd : nat → Z → Z)
    (items : list PoolClient) (lst : bytes) : outcome bytes :=
  SelectWithRate_loop addr_of rnd 0 0 items lst.

(** [SelectRandom], ranging over the keys in the order the map yields them. *)
Fixpoint SelectRandom_loop (r i : Z) (keys : list bytes) (lst : bytes) : bytes :=
  match keys with
  | [] => lst
  | k :: keys => if decide (r = i) then k else SelectRandom_loop r (i + 1) keys lst
  end.

Definition SelectRandom (rnd : nat → Z → Z) (keys : list bytes) (lst : bytes) : outcome bytes :=
  if decide (keys = []) then Val lst
  else
    r ← Intn rnd 0 (Z.of_nat (length keys));
    Val (SelectRandom_loop r 0 keys lst).

(** [pool.selectServer()], one critical section. *)
Definition selectServer (handler : gmap bytes PoolClient → bytes → outcome bytes) (p : Pool) :
    outcome (option PoolClient * option error * Pool) :=
  if decide (Clients p = ∅) then Val (None, Some ErrNotFound, p)
  else
    addr ← handler (Clients p) (last p);
    match Clients p !! addr with
    | None => Val (None, Some ErrNotFound, p)
    | Some client => Val (Some client, None, mkPool (Clients p) addr (errorHandler p))
    end.

(** ** Membership *)

Definition set_clients (m : gmap bytes PoolClient) (w : World) : World :=
  mkWorld (mkPool m (last (pool w)) (errorHandler (pool w))) (heap w).
Definition set_heap (h : gmap nat C) (w : World) : World := mkWorld (pool w) h.

(** [c.Close()] on the client [r] points to. *)
Definition close_ref (r : nat) (w : World) : option error * World :=
  match heap w !! r with
  | Some c => let '(err, c') := c_close c in (err, set_heap (<[r := c']> (heap w)) w)
  | None => (None, w)
  end.

Definition set_handler_ref (h : option HD) (r : nat) (w : World) : World :=
  match heap w !! r with
  | Some c => set_heap (<[r := c_set_handler h c]> (heap w)) w
  | None => w
  end.

(** The first critical section of [Add]: true when it has returned. *)
Definition Add_check (addr : bytes) (rate : Z) (w : World) : bool * World :=
  match Clients (pool w) !! addr with
  | Some item => (true, set_clients (<[addr := mkPoolClient (ref item) rate]> (Clients (pool w))) w)
  | None => (false, w)
  end.

(** Between the sections: [New] has built the client; install the pool's
    handler on it if there is one. *)
Definition Add_handler (r : nat) (w : World) : World :=
  match errorHandler (pool w) with
  | Some h => set_handler_ref (Some h) r w
  | None => w
  end.

(** The second critical section of [Add]: the loser of a race is closed. *)
Definition Add_insert (addr : bytes) (rate : Z) (r : nat) (w : World) : World :=
  match Clients (pool w) !! addr with
  | Some item =>
      let w := set_clients (<[addr := mkPoolClient (ref item) rate]> (Clients (pool w))) w in
      snd (close_ref r w)
  | None => set_clients (<[addr := mkPoolClient r rate]> (Clients (pool w))) w
  end.

(** The critical section of [Remove], and the client it has to close. *)
Definition Remove_section (addr : bytes) (w : World) : option nat * World :=
  (ref <$> Clients (pool w) !! addr, set_clients (delete addr (Clients (pool w))) w).

(** The snapshot [SetErrorHandler] and [Close] take under the read lock. *)
Definition snapshot (w : World) : list nat :=
  (λ kv, ref kv.2) <$> map_to_list (Clients (pool w)).

Definition SetErrorHandler_store (h : option HD) (w : World) : World :=
  mkWorld (mkPool (Clients (pool w)) (last (pool w)) h) (heap w).

(** ** The methods, run without interference *)

(** [pool.Add(net, addr, rate)]; [dial] is what [New] returns. *)
Definition Add (addr : bytes) (rate : Z) (dial : C + error) (w : World) : option error * World :=
  let '(done, w) := Add_check addr rate w in
  if done then (None, w)
  else match dial with
       | inr e => (Some e, w)
       | inl c =>
           let r := fresh (dom (heap w)) in
           let w := set_heap (<[r := c]> (heap w)) w in
           (None, Add_insert addr rate r (Add_handler r w))
       end.

(** [pool.Remove(addr)] *)
Definition Remove (addr : bytes) (w : World) : World :=
  let '(item, w) := Remove_section addr w in
  match item with Some r => snd (close_ref r w) | None => w end.

(** [pool.SetErrorHandler(h)] *)
Definition SetErrorHandler (h : option HD) (w : World) : World :=
  let w := SetErrorHandler_store h w in
  foldr (set_handler_ref h) w (snapshot w).

(** [pool.Close()]: the error of each client by its address. *)
Definition CloseAll (w : World) : gmap bytes (option error) * World :=
  foldr (λ r '(errs, w),
           let addr := match heap w !! r with Some c => c_addr c | None => [] end in
           let '(err, w) := close_ref r w in (<[addr := err]> errs, w))
        (∅, w) (snapshot w).

(** [pool.Do] and [pool.DoBg]: select, then submit on the client; [submit] is
    what the client's method returns. *)
Definition PoolDo (handler : gmap bytes PoolClient → bytes → outcome bytes)
    (submit : nat → bytes * option error) (w : World) :
    outcome (bytes * bytes * option error * World) :=
  '(client, err, p) ← selectServer handler (pool w);
  let w := mkWorld p (heap w) in
  match client, err with
  | Some c, None => let '(handle, err) := submit (ref c) in
                    Val (item_addr (heap w) c, handle, err, w)
  | _, _ => Val ([], [], err, w)
  end.

(** [pool.Status(addr, handle)] *)
Definition PoolStatus (addr : bytes) (status : nat → option Status * option error) (w : World) :
    option Status * option error :=
  match Clients (pool w) !! addr with
  | None => (None, Some ErrNotFound)
  | Some c => status (ref c)
  end.

(** [pool.Echo(addr, data)] *)
Definition PoolEcho (handler : gmap bytes PoolClient → bytes → outcome bytes) (addr : bytes)
    (echo : nat → slice * option error) (w : World) : outcome (slice * option error * World) :=
  if decide (addr = []) then
    '(client, err, p) ← selectServer handler (pool w);
    let w := mkWorld p (heap w) in
    match client, err with
    | Some c, None => let '(data, err) := echo (ref c) in Val (data, err, w)
    | _, _ => Val (None, err, w)
    end
  else match Clients (pool w) !! addr with
       | None => Val (None, Some ErrNotFound, w)
       | Some c => let '(data, err) := echo (ref c) in Val (data, err, w)
       end.

Definition PoolDoBg (handler : gmap bytes PoolClient → bytes → outcome bytes)
    (submit : nat → bytes * option error) (w : World) :
    outcome (bytes * bytes * option error * World) :=
  '(client, err, p) ← selectServer handler (pool w);
  let w := mkWorld p (heap w) in
  match client, err with
  | Some c, None => let '(handle, err) := submit (ref c) in
                    Val (item_addr (heap w) c, handle, err, w)
  | _, _ => Val ([], [], err, w)
  end.

(** ** Concurrent calls

    Calls that change the membership, and what becomes of one: it starts, it
    takes effect, or it returns an error. *)
Inductive regop :=
| RAdd (addr : bytes) (rate : Z)
| RRemove (addr : bytes).

Inductive pool_event :=
| Invoked (k : regop)
| Effect (k : regop)
| Refused (k : regop).

#[export] Instance regop_eq_dec : EqDecision regop.
Proof. solve_decision. Defined.

(** The pool with the calls in flight on it: the [Add]s that are dialling, the
    ones whose client is built but not yet inserted, and the clients that some
    [Remove] or [Close] has still to close. *)
Record Sys := mkSys {
  world : World;
  dialing : list (bytes * Z);
  built : list (bytes * Z * nat);
  closing : list nat
}.

Definition init_sys : Sys := mkSys (mkWorld NewPool ∅) [] [] [].

(** One critical section, or one call into a client, with its events. *)
Inductive pool_lstep : Sys → list pool_event → Sys → Prop :=
| step_add_hit addr rate w w' ds bs cs :
    Add_check addr rate w = (true, w') →
    pool_lstep (mkSys w ds bs cs) [Invoked (RAdd addr rate); Effect (RAdd addr rate)]
      (mkSys w' ds bs cs)
| step_add_miss addr rate w w' ds bs cs :
    Add_check addr rate w = (false, w') →
    pool_lstep (mkSys w ds bs cs) [Invoked (RAdd addr rate)]
      (mkSys w' ((addr, rate) :: ds) bs cs)
| step_dial_fail addr rate w ds1 ds2 bs cs :
    pool_lstep (mkSys w (ds1 ++ (addr, rate) :: ds2) bs cs) [Refused (RAdd addr rate)]
      (mkSys w (ds1 ++ ds2) bs cs)
| step_dial_ok addr rate r c w ds1 ds2 bs cs :
    heap w !! r = None → c_addr c = addr → c_closed c = false →
    pool_lstep (mkSys w (ds1 ++ (addr, rate) :: ds2) bs cs) []
      (mkSys (set_heap (<[r := c]> (heap w)) w) (ds1 ++ ds2) ((addr, rate, r) :: bs) cs)
| step_add_handler addr rate r w ds bs cs :
    (addr, rate, r) ∈ bs →
    pool_lstep (mkSys w ds bs cs) []
      (mkSys (Add_handler r w) ds bs cs)
| step_add_insert addr rate r w ds bs1 bs2 cs :
    pool_lstep (mkSys w ds (bs1 ++ (addr, rate, r) :: bs2) cs) [Effect (RAdd addr rate)]
      (mkSys (Add_insert addr rate r w) ds (bs1 ++ bs2) cs)
| step_remove addr item w w' ds bs cs :
    Remove_section addr w = (item, w') →
    pool_lstep (mkSys w ds bs cs) [Invoked (RRemove addr); Effect (RRemove addr)]
      (mkSys w' ds bs (option_list item ++ cs))
| step_close_all w ds bs cs :
    pool_lstep (mkSys w ds bs cs) []
      (mkSys w ds bs (snapshot w ++ cs))
| step_close r w ds bs cs1 cs2 :
    pool_lstep (mkSys w ds bs (cs1 ++ r :: cs2)) []
      (mkSys (snd (close_ref r w)) ds bs (cs1 ++ cs2))
| step_select handler client err p w ds bs cs :
    selectServer handler (pool w) = Val (client, err, p) →
    pool_lstep (mkSys w ds bs cs) []
      (mkSys (mkWorld p (heap w)) ds bs cs)
| step_store_handler h w ds bs cs :
    pool_lstep (mkSys w ds bs cs) []
      (mkSys (SetErrorHandler_store h w) ds bs cs)
| step_set_handler h r w ds bs cs :
    pool_lstep (mkSys w ds bs cs) []
      (mkSys (set_handler_ref h r w) ds bs cs).

Definition pool_step (s s' : Sys) : Prop := ∃ l, pool_lstep s l s'.

(** ** The invariant *)

(** Every pooled client is filed under its own address, every built one is for
    the address its [Add] was called with. *)
Definition filed (w : World) : Prop :=
  ∀ a pc, Clients (pool w) !! a = Some pc →
    ∃ c, heap w !! ref pc = Some c ∧ c_addr c = a.

Definition built_ok (s : Sys) : Prop :=
  ∀ a rate r, (a, rate, r) ∈ built s →
    ∃ c, heap (world s) !! r = Some c ∧ c_addr c = a.

(** Every client ever created is closed, pooled, about to be inserted, or about
    to be closed. *)
Definition accounted (s : Sys) : Prop :=
  ∀ r c, heap (world s) !! r = Some c →
    c_closed c = true ∨
    (∃ a pc, Clients (pool (world s)) !! a = Some pc ∧ ref pc = r) ∨
    (∃ a rate, (a, rate, r) ∈ built s) ∨ r ∈ closing s.

Record sys_inv (s : Sys) : Prop := {
  inv_filed : filed (world s);
  inv_built : built_ok s;
  inv_accounted : accounted s
}.

(** A heap update that keeps addresses and re-opens nothing. *)
Definition heap_evolves (h h' : gmap nat C) : Prop :=
  ∀ r c, h !! r = Some c →
    ∃ c', h' !! r = Some c' ∧ c_addr c' = c_addr c ∧ (c_closed c = true → c_closed c' = true).
End pool.

Section pool_facts.
Context `{GoArch}.
Context {C HD : Type} `{!ClientIface C HD}.
Implicit Types (w : World (C := C) (HD := HD)) (s : Sys (C := C) (HD := HD)).

Lemma heap_evolves_refl (h : gmap nat C) : heap_evolves h h.
Proof. intros r c Hr. eauto. Qed.

Lemma close_ref_spec r w :
  pool (close_ref r w).2 = pool w ∧ heap_evolves (heap w) (heap (close_ref r w).2) ∧
  (∀ r' c, heap (close_ref r w).2 !! r' = Some c →
     if decide (r' = r) then c_closed c = true else heap w !! r' = Some c).
Proof.
  unfold close_ref. destruct (heap w !! r) as [c|] eqn:Hr.
  - pose proof (c_close_closed c) as Hc. pose proof (c_close_addr c) as Ha.
    destruct (c_close c) as [err c']. simpl in *. split_and!; [done|..].
    + intros r' c0 H0. destruct (decide (r' = r)) as [->|Hne].
      * exists c'. rewrite lookup_insert_eq. simplify_eq. done.
      * exists c0. by rewrite lookup_insert_ne.
    + intros r' c0. case_decide as Hr'; [subst; rewrite lookup_insert_eq; congruence|].
      by rewrite lookup_insert_ne.
  - simpl. split_and!; [done|apply heap_evolves_refl|].
    intros r' c0 H0. case_decide; [congruence|done].
Qed.

Lemma set_handler_ref_spec h r w :
  pool (set_handler_ref h r w) = pool w ∧
  heap_evolves (heap w) (heap (set_handler_ref h r w)) ∧
  (∀ r' c', heap (set_handler_ref h r w) !! r' = Some c' →
     ∃ c, heap w !! r' = Some c ∧ c_closed c' = c_closed c).
Proof.
  unfold set_handler_ref. destruct (heap w !! r) as [c|] eqn:Hr; simpl.
  - split_and!; [done|..].
    + intros r' c0 H0. destruct (decide (r' = r)) as [->|Hne].
      * exists (c_set_handler h c). rewrite lookup_insert_eq, c_set_handler_addr,
          c_set_handler_closed. simplify_eq. done.
      * exists c0. by rewrite lookup_insert_ne.
    + intros r' c'. destruct (decide (r' = r)) as [->|Hne].
      * rewrite lookup_insert_eq. intros [= <-]. exists c. by rewrite c_set_handler_closed.
      * rewrite lookup_insert_ne by done. eauto.
  - split_and!; [done|apply heap_evolves_refl|eauto].
Qed.

(** An update of the heap alone keeps the invariant if it closes or accounts
    for what it touches. *)
Lemma sys_inv_heap s w' ds' bs' cs' :
  sys_inv s → pool w' = pool (world s) → heap_evolves (heap (world s)) (heap w') →
  (∀ x, x ∈ bs' → x ∈ built s) →
  accounted (mkSys w' ds' bs' cs') → sys_inv (mkSys w' ds' bs' cs').
Proof.
  intros [Hf Hb _] Hp He Hsub Ha. constructor; [| |done].
  - intros a pc Hpc. simpl in *. rewrite Hp in Hpc. destruct (Hf a pc Hpc) as (c & Hc & <-).
    destruct (He _ _ Hc) as (c' & ? & ? & _). eauto.
  - intros a rate r Hin. simpl in *. destruct (Hb a rate r (Hsub _ Hin)) as (c & Hc & <-).
    destruct (He _ _ Hc) as (c' & ? & ? & _). eauto.
Qed.

Lemma accounted_set_handler h r s ds' :
  accounted s →
  accounted (mkSys (set_handler_ref h r (world s)) ds' (built s) (closing s)).
Proof.
  intros Ha. destruct (set_handler_ref_spec h r (world s)) as (Hp & _ & Hc).
  intros r' c' Hr'. simpl in *. destruct (Hc r' c' Hr') as (c & Hrc & ->). rewrite Hp.
  apply (Ha r' c Hrc).
Qed.

Lemma accounted_weaken w ds bs cs ds' bs' cs' :
  accounted (mkSys w ds bs cs) → (∀ x, x ∈ bs → x ∈ bs') → (∀ x, x ∈ cs → x ∈ cs') →
  accounted (mkSys w ds' bs' cs').
Proof.
  intros Ha Hb Hc r c Hr. destruct (Ha r c Hr) as [?|[?|[(a & rate & ?)|?]]]; simpl in *.
  - auto.
  - auto.
  - right; right; left. exists a, rate. auto.
  - auto.
Qed.

(** Updating the rate of an entry keeps which clients are pooled, and where. *)
Lemma rate_update_inv addr rate item w ds bs cs :
  Clients (pool w) !! addr = Some item → sys_inv (mkSys w ds bs cs) →
  sys_inv (mkSys (set_clients (<[addr := mkPoolClient (ref item) rate]> (Clients (pool w))) w)
             ds bs cs).
Proof.
  intros Hi [Hf Hb Ha]. constructor; simpl in *.
  - intros a pc. simpl. destruct (decide (a = addr)) as [->|Hne].
    + rewrite lookup_insert_eq. intros [= <-]. apply (Hf addr item Hi).
    + rewrite lookup_insert_ne by done. apply Hf.
  - exact Hb.
  - intros r c Hr. destruct (Ha r c Hr) as [?|[(a & pc & Hpc & <-)|?]]; simpl in *; auto.
    right; left. destruct (decide (a = addr)) as [->|Hne].
    + exists addr, (mkPoolClient (ref item) rate). rewrite lookup_insert_eq.
      simpl in *. by simplify_eq.
    + exists a, pc. by rewrite lookup_insert_ne.
Qed.

Lemma close_inv r w ds bs cs bs' cs' :
  sys_inv (mkSys w ds bs cs) → (∀ x, x ∈ bs' → x ∈ bs) →
  (∀ a rate r', (a, rate, r') ∈ bs → r' ≠ r → (a, rate, r') ∈ bs') →
  (∀ r', r' ∈ cs → r' ≠ r → r' ∈ cs') →
  sys_inv (mkSys (close_ref r w).2 ds bs' cs').
Proof.
  intros Hinv Hsub Hb Hc. destruct (close_ref_spec r w) as (Hp & He & Hr).
  eapply (sys_inv_heap (mkSys w ds bs cs)); [done..|].
  intros r' c Hr'. simpl in Hr'. specialize (Hr r' c Hr').
  destruct (decide (r' = r)) as [->|Hne]; [by left|].
  destruct (inv_accounted _ Hinv r' c Hr) as [?|[?|[(a & rate & ?)|?]]]; simpl in *.
  - auto.
  - rewrite Hp. auto.
  - right; right; left. exists a, rate. auto.
  - auto.
Qed.

Lemma add_insert_inv addr rate r w ds bs1 bs2 cs :
  sys_inv (mkSys w ds (bs1 ++ (addr, rate, r) :: bs2) cs) →
  sys_inv (mkSys (Add_insert addr rate r w) ds (bs1 ++ bs2) cs).
Proof.
  intros Hinv. unfold Add_insert. destruct (Clients (pool w) !! addr) as [item|] eqn:Hi.
  - eapply close_inv.
    + by apply rate_update_inv.
    + set_solver.
    + intros a rt r' Hin Hne. rewrite !elem_of_app, elem_of_cons in *.
      destruct Hin as [?|[[=]|?]]; auto; congruence.
    + auto.
  - destruct Hinv as [Hf Hb Ha]. constructor; simpl in *.
    + intros a pc. simpl. destruct (decide (a = addr)) as [->|Hne].
      * rewrite lookup_insert_eq. intros [= <-]. simpl. apply (Hb addr rate). set_solver.
      * rewrite lookup_insert_ne by done. apply Hf.
    + intros a rt r' Hin. simpl in *. apply (Hb a rt). set_solver.
    + intros r' c Hr'. destruct (Ha r' c Hr') as [?|[(a & pc & Hpc & <-)|[(a & rt & Hin)|?]]];
        simpl in *; auto.
      * right; left. exists a, pc. rewrite lookup_insert_ne; [done|congruence].
      * rewrite elem_of_app, elem_of_cons in Hin. destruct Hin as [Hin|[[= -> -> ->]|Hin]].
        -- right; right; left. exists a, rt. set_solver.
        -- right; left. exists addr, (mkPoolClient r rate). by rewrite lookup_insert_eq.
        -- right; right; left. exists a, rt. set_solver.
Qed.

Lemma remove_inv addr w ds bs cs :
  sys_inv (mkSys w ds bs cs) →
  sys_inv (mkSys (Remove_section addr w).2 ds bs
             (option_list (Remove_section addr w).1 ++ cs)).
Proof.
  intros [Hf Hb Ha]. unfold Remove_section. constructor; simpl in *.
  - intros a pc. simpl. rewrite lookup_delete_Some. intros [_ Hpc]. by apply Hf.
  - exact Hb.
  - intros r c Hr. destruct (Ha r c Hr) as [?|[(a & pc & Hpc & <-)|[?|?]]]; simpl in *; auto.
    + destruct (decide (a = addr)) as [->|Hne].
      * right; right; right. rewrite Hpc. simpl. set_solver.
      * right; left. exists a, pc. by rewrite lookup_delete_ne.
    + right; right; right. set_solver.
Qed.

Lemma dial_ok_inv addr rate r c w ds ds' bs cs :
  heap w !! r = None → c_addr c = addr → sys_inv (mkSys w ds bs cs) →
  sys_inv (mkSys (set_heap (<[r := c]> (heap w)) w) ds' ((addr, rate, r) :: bs) cs).
Proof.
  intros Hr Hc [Hf Hb Ha]. constructor; simpl in *.
  - intros a pc Hpc. destruct (Hf a pc Hpc) as (c0 & H0 & <-). exists c0. simpl.
    rewrite lookup_insert_ne by congruence. done.
  - intros a rt r'. simpl. rewrite elem_of_cons. intros [[= -> -> ->]|Hin].
    + exists c. by rewrite lookup_insert_eq.
    + destruct (Hb a rt r' Hin) as (c0 & H0 & <-). exists c0. simpl in *.
      rewrite lookup_insert_ne by congruence. done.
  - intros r' c0. simpl. destruct (decide (r' = r)) as [->|Hne].
    + intros _. right; right; left. exists addr, rate. set_solver.
    + rewrite lookup_insert_ne by done. intros H0.
      destruct (Ha r' c0 H0) as [?|[?|[(a & rt & ?)|?]]]; simpl in *; auto.
      right; right; left. exists a, rt. set_solver.
Qed.

Lemma pool_step_inv s s' : pool_step s s' → sys_inv s → sys_inv s'.
Proof.
  intros [l Hs]. destruct Hs as [addr rate w w' ds bs cs Hc|addr rate w w' ds bs cs Hc
    |addr rate w ds1 ds2 bs cs|addr rate r c w ds1 ds2 bs cs Hr Ha _
    |addr rate r w ds bs cs _|addr rate r w ds bs1 bs2 cs|addr item w w' ds bs cs Hr
    |w ds bs cs|r w ds bs cs1 cs2|handler client err p w ds bs cs Hs|h w ds bs cs|h r w ds bs cs];
    intros Hinv.
  - unfold Add_check in Hc. destruct (Clients (pool w) !! addr) as [item|] eqn:Hi; [|done].
    injection Hc as <-. by apply rate_update_inv.
  - unfold Add_check in Hc. destruct (Clients (pool w) !! addr); [done|]. injection Hc as <-.
    by destruct Hinv.
  - by destruct Hinv.
  - by eapply dial_ok_inv.
  - unfold Add_handler. destruct (errorHandler (pool w)) as [h|]; [|done].
    destruct (set_handler_ref_spec (Some h) r w) as (Hp & He & _).
    eapply (sys_inv_heap (mkSys w ds bs cs)); [done..|].
    by apply (accounted_set_handler _ _ (mkSys w ds bs cs)), Hinv.
  - by apply add_insert_inv.
  - pose proof (remove_inv addr w ds bs cs Hinv) as Hrm. by rewrite Hr in Hrm.
  - destruct Hinv as [Hf Hb Ha]. constructor; [done..|].
    eapply accounted_weaken; [exact Ha|done|set_solver].
  - eapply close_inv; [exact Hinv|done|done|]. intros r' Hin Hne. set_solver.
  - assert (Clients p = Clients (pool w)) as Hp.
    { unfold selectServer in Hs. case_decide; [by simplify_eq|].
      apply outcome_bind_Val in Hs as (addr & _ & Hs).
      by destruct (Clients (pool w) !! addr); simplify_eq. }
    destruct Hinv as [Hf Hb Ha]. constructor; unfold filed, accounted in *; simpl in *;
      rewrite ?Hp; done.
  - by destruct Hinv.
  - destruct (set_handler_ref_spec h r w) as (Hp & He & _).
    eapply (sys_inv_heap (mkSys w ds bs cs)); [done..|].
    by apply (accounted_set_handler _ _ (mkSys w ds bs cs)), Hinv.
Qed.

Lemma pool_reach_inv s : rtc pool_step init_sys s → sys_inv s.
Proof.
  intros Hr. assert (sys_inv (C := C) (HD := HD) init_sys) as H0.
  { constructor; [intros a pc Hx|intros a rt r Hx|intros r c Hx]; simpl in Hx.
    - by rewrite lookup_empty in Hx.
    - by apply not_elem_of_nil in Hx.
    - by rewrite lookup_empty in Hx. }
  revert H0. induction Hr as [|s1 s2 s3 Hstep _ IH]; [done|].
  intros H0. apply IH. by eapply pool_step_inv.
Qed.

(** The pool leaks no client.  Whatever calls of [Add], [Remove],
    [SetErrorHandler], [Close] and the submitting methods interleave, every
    client ever dialled is closed, in the pool under its own address, or in the
    hands of a call that is about to insert it or close it; once no call is in
    flight, every open client is in the pool. *)
Theorem pool_no_leak s r c :
  rtc pool_step init_sys s → heap (world s) !! r = Some c → c_closed c = false →
  (∃ pc, Clients (pool (world s)) !! c_addr c = Some pc ∧ ref pc = r) ∨
  (∃ rate, (c_addr c, rate, r) ∈ built s) ∨ r ∈ closing s.
Proof.
  intros Hreach Hr Hopen. destruct (pool_reach_inv s Hreach) as [Hf Hb Ha].
  destruct (Ha r c Hr) as [Hc|[(a & pc & Hpc & <-)|[(a & rate & Hin)|Hcl]]].
  - congruence.
  - left. destruct (Hf a pc Hpc) as (c' & Hc' & <-). simplify_eq. eauto.
  - right; left. destruct (Hb a rate r Hin) as (c' & Hc' & <-). simplify_eq. eauto.
  - auto.
Qed.

(** ** Selection *)

(** The first item with a positive rate, in iteration order. *)
Fixpoint first_positive (items : list PoolClient) : option PoolClient :=
  match items with
  | [] => None
  | item :: items => if decide (0 < Rate item)%Z then Some item else first_positive items
  end.

(** [rand.Intn(n)] returns a number in [0, n). *)
Definition valid_rnd (rnd : nat → Z → Z) : Prop :=
  ∀ k n, (0 < n → 0 ≤ rnd k n < n)%Z.

Lemma SelectWithRate_spec addr_of rnd items lst :
  valid_rnd rnd → Forall (λ i, 0 ≤ Rate i ≤ max_int)%Z items →
  SelectWithRate addr_of rnd items lst =
  Val (match first_positive items with Some i => addr_of i | None => lst end).
Proof.
  intros Hrnd Hr. unfold SelectWithRate. induction Hr as [|i items Hi _ IH]; simpl; [done|].
  rewrite Z.add_0_l, go_int_range by done. case_decide as Hpos; [|].
  - unfold Intn. rewrite decide_False by lia. rewrite outcome_bind_ret.
    specialize (Hrnd 0 (Rate i) Hpos). by rewrite decide_True by lia.
  - replace (Rate i) with 0%Z by lia. done.
Qed.

Lemma first_positive_in items i :
  first_positive items = Some i → i ∈ items ∧ (0 < Rate i)%Z.
Proof.
  induction items as [|x items IH]; simpl; [done|].
  case_decide; [intros [= <-]; set_solver|]. intros [? ?]%IH. set_solver.
Qed.

Lemma first_positive_exists items i :
  i ∈ items → (0 < Rate i)%Z → is_Some (first_positive items).
Proof.
  induction items as [|x items IH]; simpl; [by intros ?%not_elem_of_nil|].
  rewrite elem_of_cons. intros [->|Hin] Hi; case_decide; eauto. lia.
Qed.

(** The rates do not weight the choice.  For non-negative rates
    [SelectWithRate] returns the first server of positive rate in the order the
    map is iterated, or the last one used if there is none, whatever numbers
    [rand.Intn] returns: the draw is always accepted. *)
Theorem SelectWithRate_first addr_of rnd rnd' items lst :
  valid_rnd rnd → valid_rnd rnd' → Forall (λ i, 0 ≤ Rate i ≤ max_int)%Z items →
  SelectWithRate addr_of rnd items lst = SelectWithRate addr_of rnd' items lst ∧
  SelectWithRate addr_of rnd items lst =
  Val (match first_positive items with Some i => addr_of i | None => lst end).
Proof. intros. by rewrite !SelectWithRate_spec. Qed.

Lemma SelectWithRate_total addr_of rnd k total items lst :
  ∃ a, SelectWithRate_loop addr_of rnd k total items lst = Val a.
Proof.
  revert k total. induction items as [|i items IH]; intros k total; simpl; [eauto|].
  case_decide; [|apply IH]. unfold Intn. rewrite decide_False by lia.
  rewrite outcome_bind_ret. case_decide; [eauto|apply IH].
Qed.

Lemma SelectRandom_loop_lookup r i keys lst :
  (i ≤ r)%Z → SelectRandom_loop r i keys lst = default lst (keys !! Z.to_nat (r - i)).
Proof.
  revert i. induction keys as [|k keys IH]; intros i Hi; simpl; [done|].
  case_decide as Hr.
  - by replace (Z.to_nat (r - i)) with 0 by lia.
  - rewrite IH by lia. replace (Z.to_nat (r - i)) with (S (Z.to_nat (r - (i + 1)))) by lia. done.
Qed.

(** Selection never panics and stays inside the pool.  [SelectWithRate] never
    passes [rand.Intn] a non-positive argument, for any rates at all, overflow
    included; [SelectRandom] returns the key at the drawn position, so a member
    of any non-empty pool and [last] for an empty one. *)
Theorem selection_total addr_of rnd items keys lst :
  valid_rnd rnd →
  (∃ a, SelectWithRate addr_of rnd items lst = Val a) ∧
  (keys = [] → SelectRandom rnd keys lst = Val lst) ∧
  (keys ≠ [] → ∃ k, keys !! Z.to_nat (rnd 0 (Z.of_nat (length keys))) = Some k ∧
                     SelectRandom rnd keys lst = Val k).
Proof.
  intros Hrnd. split_and!.
  - apply SelectWithRate_total.
  - intros ->. done.
  - intros Hne. unfold SelectRandom. rewrite decide_False by done.
    assert (0 < Z.of_nat (length keys))%Z as Hl by (destruct keys; simpl; [done|lia]).
    specialize (Hrnd 0 _ Hl). unfold Intn. rewrite decide_False by lia.
    rewrite outcome_bind_ret, SelectRandom_loop_lookup, Z.sub_0_r by lia.
    destruct (lookup_lt_is_Some_2 keys (Z.to_nat (rnd 0 (Z.of_nat (length keys)))))
      as [k Hk]; [lia|]. exists k. by rewrite Hk.
Qed.

(** The default handler on a pool: the items in some iteration order. *)
Definition default_handler (h : gmap nat C) (rnd : nat → Z → Z)
    (items : gmap bytes PoolClient → list PoolClient)
    (m : gmap bytes PoolClient) (lst : bytes) : outcome bytes :=
  SelectWithRate (item_addr h) rnd (items m) lst.

(** An iteration yields exactly the values of the map. *)
Definition iterates (items : gmap bytes PoolClient → list PoolClient) : Prop :=
  ∀ m i, i ∈ items m ↔ ∃ a, m !! a = Some i.

(** One attempt at selection is enough.  An empty pool is [ErrNotFound]
    without consulting the handler; a handler that names an unknown server is
    [ErrNotFound] and leaves the pool as it was; and with the default handler,
    in every reachable pool whose rates are non-negative and not all zero, the
    single attempt finds a server of positive rate and remembers it. *)
Theorem selectServer_single_attempt s handler rnd items :
  rtc pool_step init_sys s →
  let p := pool (world s) in
  (Clients p = ∅ → selectServer handler p = Val (None, Some ErrNotFound, p)) ∧
  (∀ addr, Clients p ≠ ∅ → handler (Clients p) (last p) = Val addr →
     Clients p !! addr = None → selectServer handler p = Val (None, Some ErrNotFound, p)) ∧
  (valid_rnd rnd → iterates items →
   (∀ a i, Clients p !! a = Some i → 0 ≤ Rate i ≤ max_int)%Z →
   (∃ a i, Clients p !! a = Some i ∧ (0 < Rate i)%Z) →
   ∃ a i, selectServer (default_handler (heap (world s)) rnd items) p =
            Val (Some i, None, mkPool (Clients p) a (errorHandler p)) ∧
          Clients p !! a = Some i ∧ (0 < Rate i)%Z).
Proof.
  intros Hreach p. destruct (pool_reach_inv s Hreach) as [Hf _ _].
  unfold selectServer. split_and!.
  - intros Hemp. by rewrite decide_True.
  - intros addr Hne Hh Hl. rewrite decide_False by done. by rewrite Hh, outcome_bind_ret, Hl.
  - intros Hrnd Hit Hrates (a0 & i0 & H0 & Hpos0).
    rewrite decide_False by (intros Hemp; rewrite Hemp, lookup_empty in H0; done).
    unfold default_handler. rewrite SelectWithRate_spec; [|done|].
    2: { apply list.Forall_forall. intros i Hin. apply Hit in Hin as [a Ha]. by eapply Hrates. }
    destruct (first_positive_exists (items (Clients p)) i0) as [i Hi];
      [by apply Hit; eauto|done|]. rewrite Hi, outcome_bind_ret.
    apply first_positive_in in Hi as [Hin Hpos]. apply Hit in Hin as [a Ha].
    destruct (Hf a i Ha) as (c & Hc & Hca). unfold item_addr. rewrite Hc, Hca, Ha. eauto.
Qed.

(** ** Error handlers *)

Lemma foldr_set_handler h rs w :
  let w' := foldr (set_handler_ref h) w rs in
  pool w' = pool w ∧
  (∀ r c, heap w !! r = Some c →
     ∃ c', heap w' !! r = Some c' ∧ (r ∈ rs ∨ c_handler c = h → c_handler c' = h)).
Proof.
  induction rs as [|r0 rs [IHp IH]]; simpl.
  { split; [done|]. intros r c Hr. exists c. split; [done|].
    intros [?%not_elem_of_nil|?]; done. }
  set (w1 := foldr _ w rs) in *. split.
  { destruct (set_handler_ref_spec h r0 w1) as (-> & _). done. }
  intros r c Hr. destruct (IH r c Hr) as (c1 & H1 & Hh). unfold set_handler_ref.
  destruct (decide (r = r0)) as [->|Hne].
  - rewrite H1. simpl. rewrite lookup_insert_eq. exists (c_set_handler h c1).
    split; [done|]. intros _. apply c_set_handler_handler.
  - exists c1. split.
    + destruct (heap w1 !! r0); simpl; [by rewrite lookup_insert_ne|done].
    + intros [Hin|Hc]; apply Hh; [left|by right]. set_solver.
Qed.

(** [SetErrorHandler] reaches every client of the pool, now and later: after
    it has run, each pooled client has the handler, and so has a client that a
    following [Add] brings in. *)
Theorem SetErrorHandler_reaches_all h w a pc c :
  filed w → Clients (pool w) !! a = Some pc → 
  let w' := SetErrorHandler h w in
  (∃ c', heap w' !! ref pc = Some c' ∧ c_handler c' = h) ∧
  (∀ b rate, Clients (pool w) !! b = None → h ≠ None → c_addr c = b →
     ∃ pc' c', Clients (pool (Add b rate (inl c) w').2) !! b = Some pc' ∧
       heap (Add b rate (inl c) w').2 !! ref pc' = Some c' ∧ c_handler c' = h).
Proof.
  intros Hf Ha. cbv zeta. unfold SetErrorHandler.
  set (w1 := SetErrorHandler_store h w).
  destruct (foldr_set_handler h (snapshot w1) w1) as [Hp Hall]. split.
  - destruct (Hf a pc Ha) as (c0 & Hc0 & _). destruct (Hall _ _ Hc0) as (c' & Hc' & Hh).
    exists c'. split; [done|]. apply Hh. left. unfold snapshot.
    apply list_elem_of_fmap. exists (a, pc). split; [done|]. by apply elem_of_map_to_list.
  - intros b rate Hb Hh Hcb. set (w' := foldr _ _ _) in *. unfold Add, Add_check.
    rewrite Hp. simpl. rewrite Hb. unfold Add_handler. simpl. rewrite Hp. simpl.
    destruct h as [h|]; [|done]. unfold set_handler_ref. simpl. rewrite lookup_insert_eq.
    unfold Add_insert. simpl. rewrite Hp. simpl. rewrite Hb. simpl.
    exists (mkPoolClient (fresh (dom (heap w'))) rate), (c_set_handler (Some h) c). simpl.
    rewrite !lookup_insert_eq. split_and!; [done..|apply c_set_handler_handler].
Qed.
End pool_facts.

(** ** Witnesses

    The least a client has to be: its address, whether it is closed, and its
    handler. *)
Record plainClient := mkPlain {
  p_addr : bytes;
  p_closed : bool;
  p_handler : option nat
}.

#[export] Program Instance plain_iface : ClientIface plainClient nat := {|
  c_addr := p_addr;
  c_closed := p_closed;
  c_handler := p_handler;
  c_close c := (None, mkPlain (p_addr c) true (p_handler c));
  c_set_handler h c := mkPlain (p_addr c) (p_closed c) h
|}.
Solve All Obligations with done.

(** Two [Add]s race for one address; the loser's client is closed. *)
Definition racing_sys : Sys (C := plainClient) (HD := nat) :=
  mkSys (mkWorld (mkPool {[ str "a" := mkPoolClient 0 5 ]} [] None)
                 (<[1 := mkPlain (str "a") true None]> {[ 0 := mkPlain (str "a") false None ]}))
        [] [] [].

Lemma racing_reachable : rtc (pool_step (C := plainClient) (HD := nat)) init_sys racing_sys.
Proof.
  eapply rtc_l; [eexists; apply (step_add_miss (str "a") 5); reflexivity|].
  eapply rtc_l; [eexists; apply (step_add_miss (str "a") 5); reflexivity|].
  eapply rtc_l; [eexists; apply (step_dial_ok (str "a") 5 0 (mkPlain (str "a") false None) _ []); done|].
  eapply rtc_l; [eexists; apply (step_dial_ok (str "a") 5 1 (mkPlain (str "a") false None) _ []); done|].
  eapply rtc_l.
  { eexists. apply (step_add_insert (str "a") 5 0 _ _ [(str "a", 5%Z, 1)] []). }
  eapply rtc_l; [eexists; apply (step_add_insert (str "a") 5 1 _ _ [] [])|].
  vm_compute. apply rtc_refl.
Qed.

Lemma pool_no_leak_witness :
  (∃ pc, Clients (pool (world racing_sys)) !! str "a" = Some pc ∧ ref pc = 0) ∨
  (∃ rate, (str "a", rate, 0) ∈ built racing_sys) ∨ 0 ∈ closing racing_sys.
Proof.
  refine (pool_no_leak racing_sys 0 (mkPlain (str "a") false None) _ _ _).
  - exact racing_reachable.
  - vm_compute. reflexivity.
  - reflexivity.
Defined.

Lemma SelectWithRate_first_witness :
  SelectWithRate (H := W64) (λ i, if decide (ref i = 0) then str "a" else str "b")
    (λ _ _, 0%Z) [mkPoolClient 0 1; mkPoolClient 1 1000] [] = Val (str "a").
Proof.
  refine (proj2 (SelectWithRate_first (H := W64) _ (λ _ _, 0%Z) (λ _ n, (n - 1)%Z)
    [mkPoolClient 0 1; mkPoolClient 1 1000] [] _ _ _)).
  - intros k n Hn. lia.
  - intros k n Hn. lia.
  - repeat constructor; vm_compute; congruence.
Defined.

Lemma selection_total_witness :
  ∃ k, [str "a"; str "b"] !! 1 = Some k ∧
    SelectRandom (λ _ n, (n - 1)%Z) [str "a"; str "b"] [] = Val k.
Proof.
  refine (proj2 (proj2 (selection_total (H := W64) (λ _, []) (λ _ n, (n - 1)%Z) []
    [str "a"; str "b"] [] _)) _).
  - intros k n Hn. lia.
  - discriminate.
Defined.

Lemma selectServer_single_attempt_witness :
  ∃ a i, selectServer (default_handler (H := W64) (heap (world racing_sys)) (λ _ _, 0%Z)
           (λ m, (map_to_list m).*2)) (pool (world racing_sys)) =
         Val (Some i, None, mkPool (Clients (pool (world racing_sys))) a None) ∧
         Clients (pool (world racing_sys)) !! a = Some i ∧ (0 < Rate i)%Z.
Proof.
  refine (proj2 (proj2 (selectServer_single_attempt (H := W64) racing_sys (λ _ _, Val [])
    (λ _ _, 0%Z) (λ m, (map_to_list m).*2) racing_reachable)) _ _ _ _).
  - intros k n Hn. lia.
  - intros m i. split.
    + intros ([a j] & -> & Hin)%list_elem_of_fmap. apply elem_of_map_to_list in Hin. eauto.
    + intros [a Ha]. apply list_elem_of_fmap. exists (a, i). split; [done|].
      by apply elem_of_map_to_list.
  - intros a i Ha. simpl in Ha. apply lookup_singleton_Some in Ha as [_ <-].
    vm_compute. split; congruence.
  - exists (str "a"), (mkPoolClient 0 5). split; [vm_compute; reflexivity|reflexivity].
Defined.

Lemma SetErrorHandler_reaches_all_witness :
  ∃ c', heap (SetErrorHandler (Some 7) (world racing_sys)) !! 0 = Some c' ∧
    c_handler c' = Some 7.
Proof.
  refine (proj1 (SetErrorHandler_reaches_all (Some 7) (world racing_sys) (str "a")
    (mkPoolClient 0 5) (mkPlain [] false None) _ _)).
  - intros a pc Ha. simpl in Ha. apply lookup_singleton_Some in Ha as [<- <-].
    exists (mkPlain (str "a") false None). split; vm_compute; reflexivity.
  - vm_compute. reflexivity.
Defined.
