(* ===== verification/PoolRegistry.v ===== *)
(** * What a pool promises: client/pool.go as an atomic registry

    [Add] checks, dials without the lock and checks again, and any number of
    calls interleave.  Seen from outside the pool is a table from addresses to
    rates that each call changes in one step: the refinement proved here, with
    each call's effect falling between its start and its return, exactly once. *)

From S2P Require Import Prelude GoStd Protocol ClientResponse Pool.

(** ** The specification *)

Abbreviation registry := (gmap bytes Z).

Definition reg_apply (m : registry) (k : regop) : registry :=
  match k with
  | RAdd addr rate => <[addr := rate]> m
  | RRemove addr => delete addr m
  end.

(** The calls of a trace that took effect, in that order. *)
Definition effects (tr : list pool_event) : list regop :=
  omap (λ e, match e with Effect k => Some k | _ => None end) tr.

Definition started (k : regop) (tr : list pool_event) : nat :=
  sum_list_with (λ e, match e with Invoked k' => if decide (k = k') then 1 else 0 | _ => 0 end) tr.
Definition took_effect (k : regop) (tr : list pool_event) : nat :=
  sum_list_with (λ e, match e with Effect k' => if decide (k = k') then 1 else 0 | _ => 0 end) tr.
Definition refused (k : regop) (tr : list pool_event) : nat :=
  sum_list_with (λ e, match e with Refused k' => if decide (k = k') then 1 else 0 | _ => 0 end) tr.

Section registry.
Context `{GoArch}.
Context {C HD : Type} `{!ClientIface C HD}.
Implicit Types (w : World (C := C) (HD := HD)) (s : Sys (C := C) (HD := HD)).

(** The pool as a registry, and the calls in flight on it. *)
Definition registry_of (p : Pool (HD := HD)) : registry := Rate <$> Clients p.

Definition in_flight (k : regop) (s : Sys (C := C) (HD := HD)) : nat :=
  sum_list_with (λ x, if decide (k = RAdd x.1 x.2) then 1 else 0) (dialing s) +
  sum_list_with (λ x, if decide (k = RAdd x.1.1 x.1.2) then 1 else 0) (built s).

Inductive pool_trace : Sys (C := C) (HD := HD) → list pool_event → Sys (C := C) (HD := HD) → Prop :=
| trace_nil s : pool_trace s [] s
| trace_cons s l s1 tr s2 : pool_lstep s l s1 → pool_trace s1 tr s2 → pool_trace s (l ++ tr) s2.

(** ** One step *)

Lemma close_ref_pool r w : pool (close_ref r w).2 = pool w.
Proof. unfold close_ref. destruct (heap w !! r) as [c|]; [|done]. by destruct (c_close c). Qed.

Lemma set_handler_pool h r w : pool (set_handler_ref h r w) = pool w.
Proof. unfold set_handler_ref. by destruct (heap w !! r). Qed.

Lemma selectServer_clients handler p client err p' :
  selectServer (HD := HD) handler p = Val (client, err, p') →
  Clients p' = Clients p ∧
  ∀ c, client = Some c → Clients p !! last p' = Some c.
Proof.
  unfold selectServer. case_decide; [by intros [= <- <- <-]|]. rewrite outcome_bind_Val.
  intros (addr & _ & E). destruct (Clients p !! addr) as [c|] eqn:Hc; injection E as <- <- <-; [|done].
  split; [done|]. by intros c' [= <-].
Qed.

Lemma Add_insert_registry addr rate r w :
  registry_of (pool (Add_insert addr rate r w)) = <[addr := rate]> (registry_of (pool w)).
Proof.
  unfold Add_insert, registry_of. destruct (Clients (pool w) !! addr) as [item|].
  - rewrite close_ref_pool. simpl. by rewrite fmap_insert.
  - simpl. by rewrite fmap_insert.
Qed.

(** A section either changes the registry by the call whose effect it is, or
    does not change it. *)
Lemma pool_lstep_registry s l s' :
  pool_lstep s l s' →
  registry_of (pool (world s')) = foldl reg_apply (registry_of (pool (world s))) (effects l).
Proof.
  destruct 1 as [addr rate w w' ds bs cs Hc|addr rate w w' ds bs cs Hc
    |addr rate w ds1 ds2 bs cs|addr rate r c w ds1 ds2 bs cs _ _ _
    |addr rate r w ds bs cs _|addr rate r w ds bs1 bs2 cs|addr item w w' ds bs cs Hr
    |w ds bs cs|r w ds bs cs1 cs2|handler client err p w ds bs cs Hs|h w ds bs cs|h r w ds bs cs];
    cbn [world effects omap list_omap foldl reg_apply]; try done.
  - unfold Add_check in Hc. destruct (Clients (pool w) !! addr); [|done]. injection Hc as <-.
    unfold registry_of. simpl. by rewrite fmap_insert.
  - unfold Add_check in Hc. by destruct (Clients (pool w) !! addr); simplify_eq.
  - unfold Add_handler. destruct (errorHandler (pool w)); [by rewrite set_handler_pool|done].
  - apply Add_insert_registry.
  - unfold Remove_section in Hr. injection Hr as <- <-. unfold registry_of. simpl. by rewrite fmap_delete.
  - by rewrite close_ref_pool.
  - unfold registry_of. simpl. by destruct (selectServer_clients _ _ _ _ _ Hs) as [-> _].
  - by rewrite set_handler_pool.
Qed.

(** Calls start, take effect and are refused as they enter and leave the lists
    of calls in flight. *)
Lemma pool_lstep_flight k s l s' :
  pool_lstep s l s' →
  in_flight k s + started k l = in_flight k s' + took_effect k l + refused k l.
Proof.
  destruct 1; unfold in_flight, started, took_effect, refused; simpl;
    rewrite ?sum_list_with_app; simpl; lia.
Qed.

Lemma trace_registry s tr s' :
  pool_trace s tr s' →
  registry_of (pool (world s')) = foldl reg_apply (registry_of (pool (world s))) (effects tr).
Proof.
  induction 1 as [|s l s1 tr s2 Hs _ IH]; [done|].
  unfold effects. rewrite omap_app, foldl_app. fold (effects l). fold (effects tr).
  by rewrite IH, (pool_lstep_registry _ _ _ Hs).
Qed.

Lemma trace_flight k s tr s' :
  pool_trace s tr s' →
  in_flight k s + started k tr = in_flight k s' + took_effect k tr + refused k tr.
Proof.
  induction 1 as [|s l s1 tr s2 Hs _ IH]; [by rewrite !Nat.add_0_r|].
  apply (pool_lstep_flight k) in Hs. unfold started, took_effect, refused in *.
  rewrite !sum_list_with_app. lia.
Qed.

(** C9: the pool is an atomic registry.  However calls interleave, the addresses
    and rates in the pool are those of a table on which the calls of [Add] and
    [Remove] that have taken effect were performed one after the other; each call
    takes effect between its start and its return and at most once - of the calls
    started, those in flight apart, each has either taken effect once or, an
    [Add] whose dial failed, not at all - and a server that is selected is in the
    table at that moment. *)
Theorem pool_linearizable s tr :
  pool_trace init_sys tr s →
  registry_of (pool (world s)) = foldl reg_apply ∅ (effects tr) ∧
  (∀ k, started k tr = took_effect k tr + refused k tr + in_flight k s) ∧
  (∀ addr, refused (RRemove addr) tr = 0 ∧ in_flight (RRemove addr) s = 0) ∧
  ∀ handler c err p, selectServer handler (pool (world s)) = Val (Some c, err, p) →
    registry_of (pool (world s)) !! last p = Some (Rate c).
Proof.
  intros Ht. split_and!.
  - by apply trace_registry in Ht.
  - intros k. apply (trace_flight k) in Ht. unfold in_flight at 1 in Ht. simpl in Ht. lia.
  - intros addr. split.
    + clear - Ht. induction Ht as [|s l s1 tr s2 Hs _ IH]; [done|]. unfold refused in *.
      rewrite sum_list_with_app, IH. by destruct Hs.
    + unfold in_flight. induction (dialing s); simpl; [|done]. by induction (built s).
  - intros handler c err p [_ Hc]%selectServer_clients. unfold registry_of.
    by rewrite lookup_fmap, (Hc c eq_refl).
Qed.
End registry.

(** ** Witness *)

(** Two [Add]s for one address race, with different rates; the one that inserts
    last sets the rate. *)
Definition race : list pool_event :=
  [Invoked (RAdd (str "a") 5)] ++ [Invoked (RAdd (str "a") 7)] ++ [] ++ [] ++
  [Effect (RAdd (str "a") 7)] ++ [Effect (RAdd (str "a") 5)] ++ [].

Definition race_end : Sys (C := plainClient) (HD := nat) :=
  mkSys (mkWorld (mkPool {[ str "a" := mkPoolClient 1 5 ]} [] None)
                 (<[1 := mkPlain (str "a") false None]> {[ 0 := mkPlain (str "a") true None ]}))
        [] [] [].

Lemma race_trace : pool_trace init_sys race race_end.
Proof.
  eapply trace_cons; [apply (step_add_miss (str "a") 5); reflexivity|].
  eapply trace_cons; [apply (step_add_miss (str "a") 7); reflexivity|].
  eapply trace_cons; [apply (step_dial_ok (str "a") 5 0 (mkPlain (str "a") false None) _ [(str "a", 7%Z)]); done|].
  eapply trace_cons; [apply (step_dial_ok (str "a") 7 1 (mkPlain (str "a") false None) _ []); done|].
  eapply trace_cons; [apply (step_add_insert (str "a") 7 1 _ _ [] [(str "a", 5%Z, 0)])|].
  eapply trace_cons; [apply (step_add_insert (str "a") 5 0 _ _ [] [])|].
  vm_compute. apply trace_nil.
Qed.

Lemma pool_linearizable_witness :
  registry_of (pool (world race_end)) = foldl reg_apply ∅ [RAdd (str "a") 7; RAdd (str "a") 5].
Proof. refine (proj1 (pool_linearizable race_end race _)). exact race_trace. Defined.
