(* ===== verification/WorkerPack.v ===== *)
(** * The worker's packets: worker/outpack.go, worker/inpack.go, worker/error.go

    [encodeInto] writes a packet into a buffer that may be a reused one with
    arbitrary contents; [decodeInPack] reads a packet from the job server, and
    [SendData], [SendWarning] and [UpdateStatus] build the packets a running job
    reports with.  As in the client, the stores and scans are the code's own,
    with Go's bounds checks. *)

From S2P Require Import Prelude GoStd Protocol.
Import WC.

(** worker/error.go *)
Definition ErrNoneAgents : error := New "None active agents".
Definition ErrNoneFuncs : error := New "None functions".
Definition ErrTimeOut : error := New "Executing time out".
Definition ErrUnknown : error := New "Unknown error".

Definition wgetError (data : bytes) : error :=
  match SplitN2 data x00 with
  | [code; text] => Errorf "%s: %s" [ABytes code; ABytes text]
  | _ => Errorf "Not a error data: %v" [ABytes data]
  end.

Record outPack := mkOutPack {
  oType : Z;
  oData : slice;
  oHandle : bytes
}.

Record inPack := mkInPack {
  iType : Z;
  iData : slice;
  iHandle : bytes;
  iUniqueId : bytes;
  iFn : bytes
}.

Definition getOutPack : outPack := mkOutPack 0 None [].
Definition getInPack : inPack := mkInPack 0 None [] [] [].

(** [inpack.Err()] *)
Definition inPack_Err (p : inPack) : option error :=
  if decide (iType p = dtError) then Some (wgetError (sl (iData p))) else None.

Section pack.
Context `{GoArch}.

(** The body length [encodeInto] computes, an [int]. *)
Definition body_len (o : outPack) : Z :=
  if decide (oType o = dtWorkFail) then blen (oHandle o)
  else
    let l := blen (sl (oData o)) in
    if decide (oHandle o ≠ []) then go_int (l + (blen (oHandle o) + 1)) else l.

(** [outpack.encodeInto(buf)], [buf] given by its contents up to its capacity. *)
Definition encodeInto (o : outPack) (buf : bytes) : outcome bytes :=
  let l := body_len o in
  let n := go_int (l + minPacketLength) in
  data ← (if decide (blen buf < n)%Z then getBuffer n else sub buf 0 n);
  data ← put_uint32 data 0 4 req;
  data ← put_uint32 data 4 8 (oType o);
  data ← put_uint32 data 8 minPacketLength (uint32 l);
  let i := minPacketLength in
  '(data, i) ←
    (if decide (oHandle o ≠ []) then
       let hi := (blen (oHandle o) + i)%Z in
       '(data, _) ← copy_in data i hi (oHandle o);
       data ← (if decide (oType o ≠ dtWorkFail) then set_idx data hi x00 else mret data);
       mret (data, (hi + 1)%Z)
     else mret (data, i));
  if decide (oType o ≠ dtWorkFail) then
    '(data, _) ← copy_in data i (blen data) (sl (oData o));
    mret data
  else mret data.

(** [outpack.Encode()] *)
Definition Encode (o : outPack) : outcome bytes := encodeInto o [].

(** The body a packet stands for. *)
Definition out_body (o : outPack) : bytes :=
  if decide (oType o = dtWorkFail) then oHandle o
  else if decide (oHandle o = []) then sl (oData o)
  else oHandle o ++ [x00] ++ sl (oData o).

(** A packet small enough for a Go slice. *)
Definition out_fits (o : outPack) : Prop := (blen (out_body o) + 12 ≤ max_int)%Z.

(** The two-field and three-field scans of [decodeInPack]; a missing separator
    leaves every field zero. *)
Definition scan_assign (ty : Z) (dt : bytes) : outcome inPack :=
  let zero := mkInPack ty None [] [] [] in
  let i := IndexByte dt x00 in
  if decide (i < 0)%Z then mret zero
  else
    t ← sub_from dt (i + 1);
    let j := IndexByte t x00 in
    if decide (j < 0)%Z then mret zero
    else
      let j := (j + (i + 1))%Z in
      handle ← sub dt 0 i;
      fn ← sub dt (i + 1) j;
      data ← sub_from dt (j + 1);
      mret (mkInPack ty (Some data) handle [] fn).

Definition scan_assign_uniq (ty : Z) (dt : bytes) : outcome inPack :=
  let zero := mkInPack ty None [] [] [] in
  let i := IndexByte dt x00 in
  if decide (i < 0)%Z then mret zero
  else
    t ← sub_from dt (i + 1);
    let j := IndexByte t x00 in
    if decide (j < 0)%Z then mret zero
    else
      let j := (j + (i + 1))%Z in
      t ← sub_from dt (j + 1);
      let k := IndexByte t x00 in
      if decide (k < 0)%Z then mret zero
      else
        let k := (k + (j + 1))%Z in
        handle ← sub dt 0 i;
        fn ← sub dt (i + 1) j;
        uid ← sub dt (j + 1) k;
        data ← sub_from dt (k + 1);
        mret (mkInPack ty (Some data) handle uid fn).

Definition invalid_data (data : bytes) : error := Errorf "Invalid data: %v" [ABytes data].
Definition not_enough (data : bytes) : error := Errorf "Not enough data: %v" [ABytes data].

(** [decodeInPack(data)] *)
Definition decodeInPack (data : bytes) : outcome (option inPack * Z * option error) :=
  if decide (blen data < minPacketLength)%Z then mret (None, 0%Z, Some (invalid_data data))
  else
    lw ← sub data 8 12;
    dl ← go_int <$> get_uint32 lw;
    if decide (blen data < go_int (dl + minPacketLength))%Z
    then mret (None, 0%Z, Some (not_enough data))
    else
      dt ← sub data minPacketLength (go_int (dl + minPacketLength));
      if decide (blen dt ≠ dl) then mret (None, 0%Z, Some (invalid_data data))
      else
        tw ← sub data 4 8;
        ty ← get_uint32 tw;
        inpack ←
          (if decide (ty = dtJobAssign) then scan_assign ty dt
           else if decide (ty = dtJobAssignUniq) then scan_assign_uniq ty dt
           else mret (mkInPack ty (Some dt) [] [] []));
        mret (Some inpack, go_int (dl + minPacketLength), None).

(** What the body of an incoming packet means. *)
Definition in_meaning (ty : Z) (body : bytes) : inPack :=
  if decide (ty = dtJobAssign) then
    match split_fields 2 body with
    | Some ([h; f], d) => mkInPack ty (Some d) h [] f
    | _ => mkInPack ty None [] [] []
    end
  else if decide (ty = dtJobAssignUniq) then
    match split_fields 3 body with
    | Some ([h; f; u], d) => mkInPack ty (Some d) h u f
    | _ => mkInPack ty None [] [] []
    end
  else mkInPack ty (Some body) [] [] [].

(** [inpack.SendData(data)] and [inpack.SendWarning(data)] up to the write: the
    separator is the zero [getBuffer] left. *)
Definition data_outpack (ty : Z) (handle data : bytes) : outcome outPack :=
  let hl := blen handle in
  let l := go_int (hl + blen data + 1) in
  buf ← getBuffer l;
  '(buf, _) ← copy_in buf 0 (blen buf) handle;
  '(buf, _) ← copy_in buf (hl + 1) (blen buf) data;
  mret (mkOutPack ty (Some buf) []).

Definition SendData (p : inPack) (data : bytes) : outcome outPack :=
  data_outpack dtWorkData (iHandle p) data.

Definition SendWarning (p : inPack) (data : bytes) : outcome outPack :=
  data_outpack dtWorkWarning (iHandle p) data.

(** [inpack.UpdateStatus(numerator, denominator)] up to the write. *)
Definition UpdateStatus (p : inPack) (numerator denominator : Z) : outcome outPack :=
  let n := FormatInt numerator in
  let d := FormatInt denominator in
  let hl := blen (iHandle p) in
  let nl := blen n in
  let dl := blen d in
  buf ← getBuffer (go_int (hl + nl + dl + 2));
  '(buf, _) ← copy_in buf 0 (blen buf) (iHandle p);
  '(buf, _) ← copy_in buf (hl + 1) (blen buf) n;
  '(buf, _) ← copy_in buf (hl + nl + 2) (blen buf) d;
  mret (mkOutPack dtWorkStatus (Some buf) []).
End pack.

(** ** Encoding into a reused buffer *)

(** Any bytes split where a length says. *)
Lemma bytes_split (d : bytes) a b :
  length d = a + b → ∃ x y, d = x ++ y ∧ length x = a ∧ length y = b.
Proof.
  intros Hl. exists (take a d), (drop a d).
  rewrite take_drop, length_take, length_drop. split_and!; [done|lia..].
Qed.

Section pack_facts.
Context `{GoArch}.

Lemma body_len_spec o : out_fits o → body_len o = blen (out_body o).
Proof.
  unfold out_fits, body_len, out_body. intros Hf. repeat case_decide; try done.
  rewrite go_int_range; blia.
Qed.

(** The three header stores overwrite the first twelve bytes whatever they are. *)
Lemma put_header (d : bytes) m dt l n :
  length d = 12 + n →
  ∃ rest, length rest = n ∧
    ∀ A (k : bytes → outcome A),
      (d1 ← put_uint32 d 0 4 m; d2 ← put_uint32 d1 4 8 dt; d3 ← put_uint32 d2 8 12 l; k d3)
      = k (header m dt l ++ rest).
Proof.
  intros Hl.
  destruct (bytes_split d 4 (4 + (4 + n)) Hl) as (h0 & d1 & -> & H0 & H1).
  destruct (bytes_split d1 _ _ H1) as (h1 & d2 & -> & H1' & H2).
  destruct (bytes_split d2 _ _ H2) as (h2 & rest & -> & H2' & H3).
  exists rest. split; [done|]. intros A k.
  pose proof (put_uint32_region [] h0 (h1 ++ h2 ++ rest) 0 4 m eq_refl eq_refl H0) as E.
  rewrite !app_nil_l in E. rewrite E, outcome_bind_ret.
  rewrite (put_uint32_region (be32 m) h1) by done. rewrite outcome_bind_ret.
  rewrite (app_assoc (be32 m)), (put_uint32_region (be32 m ++ be32 dt) h2) by done.
  rewrite outcome_bind_ret. unfold header. by rewrite <- !app_assoc.
Qed.

Lemma copy_all pre old src lo :
  lo = blen pre → length old = length src →
  copy_in (pre ++ old) lo (blen (pre ++ old)) src = Val (pre ++ src, blen src).
Proof.
  intros -> Hl. rewrite <- (app_nil_r old) at 1.
  rewrite copy_in_region; [by rewrite app_nil_r|done|done|].
  rewrite app_nil_r. unfold blen in *. rewrite length_app. lia.
Qed.

(** The stores after the header, on a region of the body's length. *)
Lemma encode_stores o hdr rest :
  blen hdr = 12%Z → length rest = length (out_body o) →
  ('(data, i) ←
    (if decide (oHandle o ≠ []) then
       let hi := (blen (oHandle o) + 12)%Z in
       '(data, _) ← copy_in (hdr ++ rest) 12 hi (oHandle o);
       data ← (if decide (oType o ≠ dtWorkFail) then set_idx data hi x00 else mret data);
       mret (data, (hi + 1)%Z)
     else mret (hdr ++ rest, 12%Z));
   if decide (oType o ≠ dtWorkFail) then
    '(data, _) ← copy_in data i (blen data) (sl (oData o));
    mret data
   else mret data) = Val (hdr ++ out_body o).
Proof.
  intros Hh Hl. unfold out_body in *.
  destruct (decide (oType o = dtWorkFail)) as [Ht|Ht].
  - destruct (decide (oType o ≠ dtWorkFail)); [done|].
    destruct (decide (oHandle o ≠ [])) as [Hn|Hn].
    + assert (blen rest = blen (oHandle o)) by (unfold blen; lia). cbv zeta.
      rewrite <- (app_nil_r rest), copy_in_region by (done || blia).
      simpl. by rewrite app_nil_r.
    + apply dec_stable in Hn. rewrite Hn in *. destruct rest; [done|]. discriminate Hl.
  - destruct (decide (oType o ≠ dtWorkFail)) as [_|?]; [|done].
    destruct (decide (oHandle o = [])) as [Hn|Hn].
    + rewrite decide_False by tauto. unfold mret, outcome_ret. rewrite outcome_bind_ret.
      cbv beta iota. rewrite copy_all by done. done.
    + rewrite decide_True by done. cbv zeta. rewrite !length_app in Hl.
      destruct (bytes_split rest _ _ Hl) as (rh & r1 & -> & H1 & H2).
      destruct (bytes_split r1 1 _ H2) as (rn & rd & -> & H3 & H4).
      destruct rn as [|x [|? ?]]; [done| |done].
      assert (blen rh = blen (oHandle o)) by (unfold blen; lia).
      rewrite (copy_in_region hdr rh) by (done || blia). rewrite outcome_bind_ret.
      cbv beta iota. rewrite (app_assoc hdr), (set_idx_app (hdr ++ oHandle o)) by blia.
      unfold mret, outcome_ret. rewrite !outcome_bind_ret. cbv beta iota.
      rewrite (app_assoc (hdr ++ _)), copy_all by (done || blia). simpl.
      by rewrite <- !app_assoc.
Qed.

Lemma encodeInto_spec o buf :
  out_fits o →
  encodeInto o buf = Val (header req (oType o) (uint32 (blen (out_body o))) ++ out_body o).
Proof.
  intros Hf. unfold encodeInto. rewrite body_len_spec by done.
  change minPacketLength with 12%Z. cbv zeta.
  rewrite go_int_range by (unfold out_fits in Hf; pose proof (blen_nonneg (out_body o)); lia).
  set (n := (blen (out_body o) + 12)%Z).
  assert (∃ d, (if decide (blen buf < n)%Z then getBuffer n else sub buf 0 n) = Val d ∧
               length d = 12 + length (out_body o)) as (d & -> & Hd).
  { case_decide.
    - unfold getBuffer. rewrite make_bytes_nonneg by (unfold n; blia). eexists. split; [done|].
      rewrite length_replicate. unfold n, blen. lia.
    - destruct (sub_total buf 0 n) as (a & m & c & Hs & _ & _ & Hm); [unfold n; blia|lia|].
      exists m. split; [done|]. unfold n, blen in Hm. lia. }
  rewrite outcome_bind_ret.
  destruct (put_header d req (oType o) (uint32 (blen (out_body o))) _ Hd) as (rest & Hr & Hk).
  rewrite Hk. by apply encode_stores.
Qed.

(** ** Decoding *)

Lemma split_fields_2 b f0 f1 rest :
  split_fields 2 b = Some ([f0; f1], rest) ↔
  b = f0 ++ x00 :: f1 ++ x00 :: rest ∧ x00 ∉ f0 ∧ x00 ∉ f1.
Proof.
  simpl. split.
  - destruct (split_nul b) as [[g0 b1]|] eqn:H0; [|done].
    destruct (split_nul b1) as [[g1 b2]|] eqn:H1; [|done].
    intros [= -> -> ->]. apply split_nul_Some in H0 as [-> ?], H1 as [-> ?]. done.
  - intros (-> & ? & ?). by rewrite !split_nul_app.
Qed.

(** The second and third scans, continued at an offset into the body. *)
Lemma scan_step pre t :
  match split_nul t with
  | Some (f, d) =>
      IndexByte t x00 = blen f ∧
      sub (pre ++ t) (blen pre) (blen f + blen pre) = Val f ∧
      sub_from (pre ++ t) (blen f + blen pre + 1) = Val d
  | None => IndexByte t x00 = (-1)%Z
  end.
Proof.
  pose proof (split_nul_Index t) as Hs. destruct (split_nul t) as [[f d]|] eqn:Ht; [|done].
  apply split_nul_Some in Ht as [-> _]. destruct Hs as (Hi & _ & _). split; [done|]. split.
  - apply sub_middle; [done|lia].
  - rewrite app_assoc, (app_assoc (pre ++ f) [x00] d : (pre ++ f) ++ x00 :: d = _).
    apply sub_from_suffix. blia.
Qed.

Lemma scan_assign_spec ty body :
  scan_assign ty body =
  Val (match split_fields 2 body with
       | Some ([h; f], d) => mkInPack ty (Some d) h [] f
       | _ => mkInPack ty None [] [] []
       end).
Proof.
  unfold scan_assign. simpl split_fields. pose proof (scan_step [] body) as Hs.
  destruct (split_nul body) as [[h t]|] eqn:Hb; [|by rewrite Hs].
  apply split_nul_Some in Hb as [-> _]. destruct Hs as (-> & Hh & Ht).
  rewrite app_nil_l, blen_nil, Z.add_0_r in Hh, Ht.
  pose proof (blen_nonneg h). rewrite decide_False by lia. rewrite Ht, outcome_bind_ret.
  pose proof (scan_step (h ++ [x00]) t) as Hs. rewrite <- app_assoc in Hs.
  destruct (split_nul t) as [[f d]|]; [|by rewrite Hs].
  destruct Hs as (-> & Hf & Hd). pose proof (blen_nonneg f). rewrite decide_False by lia.
  rewrite blen_app in Hf, Hd. change (blen [x00]) with 1%Z in *.
  change ([x00] ++ t) with (x00 :: t) in *.
  rewrite Hh, outcome_bind_ret, Hf, outcome_bind_ret, Hd. done.
Qed.

Lemma scan_assign_uniq_spec ty body :
  scan_assign_uniq ty body =
  Val (match split_fields 3 body with
       | Some ([h; f; u], d) => mkInPack ty (Some d) h u f
       | _ => mkInPack ty None [] [] []
       end).
Proof.
  unfold scan_assign_uniq. simpl split_fields. pose proof (scan_step [] body) as Hs.
  destruct (split_nul body) as [[h t]|] eqn:Hb; [|by rewrite Hs].
  apply split_nul_Some in Hb as [-> _]. destruct Hs as (-> & Hh & Ht).
  rewrite app_nil_l, blen_nil, Z.add_0_r in Hh, Ht.
  pose proof (blen_nonneg h). rewrite decide_False by lia. rewrite Ht, outcome_bind_ret.
  pose proof (scan_step (h ++ [x00]) t) as Hs. rewrite <- app_assoc in Hs.
  destruct (split_nul t) as [[f d]|] eqn:Hb; [|by rewrite Hs].
  apply split_nul_Some in Hb as [-> _].
  destruct Hs as (-> & Hf & Hd). pose proof (blen_nonneg f). rewrite decide_False by lia.
  rewrite blen_app in Hf, Hd. change (blen [x00]) with 1%Z in *.
  pose proof (scan_step (h ++ [x00] ++ f ++ [x00]) d) as Hs.
  rewrite !blen_app in Hs. change (blen [x00]) with 1%Z in *.
  replace ((h ++ [x00] ++ f ++ [x00]) ++ d) with (h ++ x00 :: f ++ x00 :: d) in Hs
    by (by rewrite <- !app_assoc).
  change ([x00] ++ f ++ x00 :: d) with (x00 :: f ++ x00 :: d) in *.
  rewrite Hd, outcome_bind_ret. destruct (split_nul d) as [[u d']|]; [|by rewrite Hs].
  destruct Hs as (-> & Hu & Hd'). pose proof (blen_nonneg u). rewrite decide_False by lia.
  replace (blen h + (1 + (blen f + 1)))%Z with (blen f + (blen h + 1) + 1)%Z in * by lia.
  rewrite Hh, outcome_bind_ret, Hf, outcome_bind_ret, Hu, outcome_bind_ret, Hd'. done.
Qed.

(** What [decodeInPack] should make of any bytes at all. *)
Definition in_decode_meaning (data : bytes) : option inPack * Z * option error :=
  let l := declared_len data in
  if decide (blen data < 12)%Z then (None, 0%Z, Some (invalid_data data))
  else if decide (blen data < l + 12)%Z then (None, 0%Z, Some (not_enough data))
  else (Some (in_meaning (declared_type data) (take (Z.to_nat l) (drop 12 data))),
        (l + 12)%Z, None).

Lemma decodeInPack_spec data :
  safe_len (declared_len data) → decodeInPack data = Val (in_decode_meaning data).
Proof.
  intros Hs. unfold decodeInPack, in_decode_meaning. change minPacketLength with 12%Z.
  destruct (decide (blen data < 12)%Z) as [|Hge]; [done|].
  destruct (header_decompose data) as (m & ty & l & rest & -> & _ & Hty & Hl); [lia|].
  destruct (declared_header m ty l rest Hty Hl) as [E1 E2]. rewrite E1, E2 in *.
  apply safe_len_int in Hs as (Hi1 & _ & Hi3).
  rewrite header_len, outcome_bind_ret, get_uint32_be32, uint32_small by done.
  simpl fmap. rewrite outcome_bind_ret, Hi1, Hi3.
  case_decide as Hlt; [done|]. rewrite blen_app, blen_header in Hlt.
  rewrite drop_app_length' by done. set (body := take (Z.to_nat l) rest).
  assert (blen body = l) as Hb by (unfold body, blen in *; rewrite length_take; lia).
  assert (sub (header m ty l ++ rest) 12 (l + 12) = Val body) as ->.
  { unfold body. rewrite <- (take_drop (Z.to_nat l) rest) at 1.
    apply sub_middle; [done|]. fold body. rewrite blen_header. lia. }
  rewrite outcome_bind_ret, decide_False by tauto.
  rewrite header_type, outcome_bind_ret, get_uint32_be32, uint32_small, outcome_bind_ret by done.
  unfold in_meaning. rewrite scan_assign_spec, scan_assign_uniq_spec. by repeat case_decide.
Qed.

(** A framed packet that the reader would let through. *)
Lemma decodeInPack_frame ty body :
  (0 ≤ ty < 2 ^ 32)%Z → (blen body ≤ maxPacketLength)%Z →
  decodeInPack (frame ty body) = Val (Some (in_meaning ty body), blen (frame ty body), None).
Proof.
  change maxPacketLength with 67108864%Z. intros Hty Hbody. pose proof (blen_nonneg body).
  unfold frame. destruct (declared_header CC.res ty (blen body) body) as [E1 E2]; [done|lia|].
  rewrite decodeInPack_spec.
  2: { rewrite E1. unfold safe_len. split; [lia|]. destruct int_width; lia. }
  unfold in_decode_meaning. rewrite E1, E2, !blen_app, blen_header, !decide_False by lia.
  rewrite drop_app_length' by done. rewrite to_nat_blen, firstn_all.
  by rewrite Z.add_comm.
Qed.

(** ** Reports of a running job *)

Lemma replicate_split n a b :
  n = a + b → replicate n x00 = replicate a x00 ++ replicate b x00.
Proof. intros ->. apply replicate_add. Qed.

Lemma data_outpack_spec ty h d :
  (blen h + blen d + 1 ≤ max_int)%Z →
  data_outpack ty h d = Val (mkOutPack ty (Some (h ++ x00 :: d)) []).
Proof.
  intros Hf. unfold data_outpack. pose proof (blen_nonneg h). pose proof (blen_nonneg d).
  rewrite go_int_range by lia. unfold getBuffer. rewrite make_bytes_nonneg by lia.
  rewrite outcome_bind_ret.
  rewrite (replicate_split _ (length h) (1 + length d)) by (unfold blen; lia).
  rewrite copy_in_prefix; [|by rewrite length_replicate|lenlia].
  rewrite outcome_bind_ret. cbv beta iota. rewrite replicate_add, (app_assoc h).
  rewrite copy_all; [|lenlia|by rewrite length_replicate].
  simpl. by rewrite <- app_assoc.
Qed.

Lemma UpdateStatus_spec p n d :
  (blen (iHandle p) + blen (FormatInt n) + blen (FormatInt d) + 2 ≤ max_int)%Z →
  UpdateStatus p n d =
  Val (mkOutPack dtWorkStatus
         (Some (iHandle p ++ x00 :: FormatInt n ++ x00 :: FormatInt d)) []).
Proof.
  intros Hf. unfold UpdateStatus. set (h := iHandle p) in *.
  set (sn := FormatInt n) in *. set (sd := FormatInt d) in *.
  pose proof (blen_nonneg h). pose proof (blen_nonneg sn). pose proof (blen_nonneg sd).
  rewrite go_int_range by lia. unfold getBuffer. rewrite make_bytes_nonneg by lia.
  rewrite outcome_bind_ret.
  rewrite (replicate_split _ (length h) (1 + (length sn + (1 + length sd))))
    by (unfold blen; lia).
  rewrite copy_in_prefix; [|by rewrite length_replicate|lenlia].
  rewrite outcome_bind_ret. cbv beta iota. rewrite !replicate_add, (app_assoc h).
  rewrite copy_in_region; [|lenlia|by rewrite length_replicate|lenlia].
  rewrite outcome_bind_ret. cbv beta iota. rewrite !app_assoc.
  rewrite copy_all; [|lenlia|by rewrite length_replicate].
  simpl. by rewrite <- !app_assoc.
Qed.

(** ** Properties *)

(** C34: a reused buffer leaks nothing.  Whatever the pooled buffer given to
    [encodeInto] holds and however large it is, the packet is the same: the REQ
    header with the type and the body length, then the handle, the separator
    and the data -- for WORK_FAIL the handle alone -- and no bounds check fails,
    as long as the packet fits a Go slice.  [Encode] is the case of no buffer. *)
Theorem encodeInto_reused o buf :
  out_fits o →
  encodeInto o buf = Val (header req (oType o) (uint32 (blen (out_body o))) ++ out_body o) ∧
  encodeInto o buf = Encode o.
Proof. intros Hf. unfold Encode. by rewrite !encodeInto_spec. Qed.

(** [decodeInPack] is total.  On a 64-bit build for every byte sequence, and
    on a 32-bit build for every one whose declared length the reader lets
    through, it does not panic: it reports a short header or a short body, and
    otherwise returns the packet its body stands for.  A job assignment with
    too few separators leaves handle, function, unique id and data all zero,
    never some of them. *)
Theorem decodeInPack_total data :
  int_width = W64 ∨ (declared_len data ≤ maxPacketLength)%Z →
  decodeInPack data = Val (in_decode_meaning data).
Proof.
  change maxPacketLength with 67108864%Z. intros Hw. apply decodeInPack_spec.
  pose proof (declared_len_range data). unfold safe_len. split; [lia|].
  destruct Hw as [->|Hle]; [lia|]. destruct int_width; lia.
Qed.

(** A job assignment arrives as it was sent.  JOB_ASSIGN and
    JOB_ASSIGN_UNIQ decode to the handle, function, unique id and payload they
    were framed from, for every payload, NUL bytes included, and the reported
    length is the packet's. *)
Theorem job_assign_roundtrip h f u d :
  x00 ∉ h → x00 ∉ f → x00 ∉ u →
  (blen (h ++ x00 :: f ++ x00 :: u ++ x00 :: d) ≤ maxPacketLength)%Z →
  let p1 := frame dtJobAssign (h ++ x00 :: f ++ x00 :: d) in
  let p2 := frame dtJobAssignUniq (h ++ x00 :: f ++ x00 :: u ++ x00 :: d) in
  decodeInPack p1 = Val (Some (mkInPack dtJobAssign (Some d) h [] f), blen p1, None) ∧
  decodeInPack p2 = Val (Some (mkInPack dtJobAssignUniq (Some d) h u f), blen p2, None).
Proof.
  intros Hh Hf Hu Hb. cbv zeta. split; rewrite decodeInPack_frame.
  - unfold in_meaning. simpl decide. by rewrite (proj2 (split_fields_2 _ h f d)).
  - vm_compute. split; congruence.
  - revert Hb. lenlia.
  - unfold in_meaning. rewrite decide_False, decide_True by done.
    by rewrite (proj2 (split_fields_3 _ h f u d)).
  - vm_compute. split; congruence.
  - done.
Qed.

(** The packets a running job reports with carry its handle and its data,
    separated by one NUL that no store writes but the zeroed buffer holds;
    UPDATE_STATUS carries both numbers in decimal.  Encoded for the wire, the
    body is exactly handle, NUL and data. *)
Theorem reports_encoded p data n d :
  (blen (iHandle p) + blen data + 13 ≤ max_int)%Z →
  (blen (iHandle p) + blen (FormatInt n) + blen (FormatInt d) + 14 ≤ max_int)%Z →
  let on_wire ty body := Val (header req ty (uint32 (blen body)) ++ body) in
  (SendData p data ≫= Encode) = on_wire dtWorkData (iHandle p ++ x00 :: data) ∧
  (SendWarning p data ≫= Encode) = on_wire dtWorkWarning (iHandle p ++ x00 :: data) ∧
  (UpdateStatus p n d ≫= Encode) =
    on_wire dtWorkStatus (iHandle p ++ x00 :: FormatInt n ++ x00 :: FormatInt d).
Proof.
  intros H1 H2. cbv zeta. unfold SendData, SendWarning.
  rewrite !data_outpack_spec, UpdateStatus_spec by lia. rewrite !outcome_bind_ret.
  unfold Encode. rewrite !encodeInto_spec; [done|..]; unfold out_fits, out_body; simpl;
    rewrite !blen_app, !blen_cons, ?blen_app, ?blen_cons; lia.
Qed.
End pack_facts.

(** ** Witnesses *)

Definition sample_job : inPack :=
  mkInPack dtJobAssignUniq (Some (str "hi")) (str "H:1") (str "42") (str "ToUpper").

Lemma encodeInto_reused_witness :
  let o := mkOutPack dtWorkComplete (Some (str "OK")) (str "H:1") in
  encodeInto (H := W32) o (replicate 300 xff) =
    Val (header req dtWorkComplete 6 ++ str "H:1" ++ x00 :: str "OK") ∧
  encodeInto (H := W32) o (replicate 300 xff) = Encode (H := W32) o.
Proof.
  apply (encodeInto_reused (H := W32)
    (mkOutPack dtWorkComplete (Some (str "OK")) (str "H:1")) (replicate 300 xff)).
  vm_compute. congruence.
Defined.

Lemma decodeInPack_total_witness :
  decodeInPack (H := W32) (frame dtJobAssign (str "H:1" ++ x00 :: str "nofn")) =
  Val (Some (mkInPack dtJobAssign None [] [] []), 20%Z, None).
Proof.
  apply (decodeInPack_total (H := W32)
    (frame dtJobAssign (str "H:1" ++ x00 :: str "nofn"))).
  right. vm_compute. congruence.
Defined.

Lemma job_assign_roundtrip_witness :
  decodeInPack (H := W64)
    (frame dtJobAssignUniq (str "H:1" ++ x00 :: str "ToUpper" ++ x00 :: str "42" ++ x00 :: str "hi")) =
  Val (Some sample_job, 29%Z, None).
Proof.
  refine (proj2 (job_assign_roundtrip (H := W64) (str "H:1") (str "ToUpper") (str "42")
    (str "hi") _ _ _ _)).
  - by_decide.
  - by_decide.
  - by_decide.
  - vm_compute. congruence.
Defined.

Lemma reports_encoded_witness :
  (SendData (H := W32) sample_job (str "part") ≫= Encode (H := W32)) =
  Val (header req dtWorkData 8 ++ str "H:1" ++ x00 :: str "part").
Proof.
  refine (proj1 (reports_encoded (H := W32) sample_job (str "part") 1 2 _ _)).
  - vm_compute. congruence.
  - vm_compute. congruence.
Defined.
