(* ===== verification/AgentIO.v ===== *)
(** * Whole packets in the worker: [read] and [write] of worker/agent.go

    The worker's reader peeks at the header instead of consuming it and copies
    header and body into one slice; its writer encodes into a buffer borrowed
    from a pool.  The reader is shown to take the same packets off a connection
    as the client's, and the pool to be invisible on the wire. *)

From S2P Require Import Prelude GoStd Protocol ClientWire WorkerPack.
Import WC.

Section agent_io.
Context `{GoArch}.

(** [agent.read(rw)] *)
Definition agent_read (rw : Reader) : outcome (read_result * Reader) :=
  match Peek (Z.to_nat minPacketLength) rw with
  | (Got hdr, rw) =>
      mw ← sub hdr 0 4;
      magic ← get_uint32 mw;
      if decide (magic ≠ res) then mret (Failed (bad_magic mw), rw)
      else
        lw ← sub hdr 8 12;
        bodyLen ← get_uint32 lw;
        if decide (maxPacketLength < bodyLen)%Z then mret (Failed (too_long bodyLen), rw)
        else
          data ← getBuffer (go_int (minPacketLength + go_int bodyLen));
          '(data, _) ← copy_in data 0 (blen data) hdr;
          let rw := Discard (Z.to_nat minPacketLength) rw in
          if decide (0 < bodyLen)%Z then
            match ReadFull (Z.to_nat (blen data - minPacketLength)) rw with
            | (Got body, rw) =>
                '(data, _) ← copy_in data minPacketLength (blen data) body;
                mret (Got data, rw)
            | (Failed e, rw) => mret (Failed e, rw)
            | (Blocked, rw) => mret (Blocked, rw)
            end
          else mret (Got data, rw)
  | (Failed e, rw) => mret (Failed e, rw)
  | (Blocked, rw) => mret (Blocked, rw)
  end.

(** Reading [n] packets one after the other. *)
Fixpoint agent_reads (n : nat) (rw : Reader) : outcome (list bytes * Reader) :=
  match n with
  | O => mret ([], rw)
  | S n =>
      '(r, rw) ← agent_read rw;
      match r with
      | Got p => '(ps, rw) ← agent_reads n rw; mret (p :: ps, rw)
      | _ => mret ([], rw)
      end
  end.

Definition encodeBufSize : Z := 256.
Definition encodeBufKeep : Z := Z.shiftl 64 10.

(** What [encodeBufPool.New] makes, by its contents up to its capacity. *)
Definition new_pool_buf : bytes := replicate (Z.to_nat encodeBufSize) x00.

(** [agent.write(outpack)] with the pooled buffer [p] and the pair [getRW]
    returned; the result has the buffer that goes back into the pool ([None]
    would mean that the write loop ran out of rounds). *)
Definition agent_write (p : bytes) (o : outPack) (rw : option Writer) :
    outcome (option (option error * Writer * bytes)) :=
  buf ← encodeInto o p;
  let grown := bool_decide (blen p < blen buf)%Z in
  let cap := if grown then blen buf else blen p in
  let kept := if grown then buf else buf ++ drop (length buf) p in
  let p := if decide (cap ≤ encodeBufKeep)%Z then kept else p in
  match rw with
  | None => Panics NilDereference
  | Some w => mret ('(err, w) ← writeTo w buf; Some (err, w, p))
  end.

(** [grab] and [PreSleep] write these. *)
Definition grab_pack : outPack := mkOutPack dtGrabJobUniq None [].
Definition presleep_pack : outPack := mkOutPack dtPreSleep None [].

(** Packets written one after the other to one connection, each with the buffer
    the pool hands out: the last one returned, or one of any other contents. *)
Fixpoint agent_writes (w : Writer) (ps : list (bytes * outPack)) :
    outcome (option (list (option error) * Writer)) :=
  match ps with
  | [] => mret (Some ([], w))
  | (p, o) :: ps =>
      r ← agent_write p o (Some w);
      match r with
      | None => mret None
      | Some (err, w, _) =>
          rs ← agent_writes w ps;
          mret ('(errs, w) ← rs; Some (err :: errs, w))
      end
  end.
End agent_io.

(** ** Lemmas: reading *)

(** The reference: one packet off a stream, a rejected header left in it. *)
Definition agent_read_stream (s : list (byte + error)) : read_result * list (byte + error) :=
  match peek_stream 12 s with
  | (Got hdr, s) =>
      let m := take 4 hdr in
      let l := declared_len hdr in
      if decide (m ≠ resStr) then (Failed (bad_magic m), s)
      else if decide (maxPacketLength < l)%Z then (Failed (too_long l), s)
      else if decide (0 < l)%Z then
        match readfull_stream (Z.to_nat l) (drop 12 s) with
        | (Got body, s) => (Got (hdr ++ body), s)
        | (Failed e, s) => (Failed e, s)
        | (Blocked, s) => (Blocked, s)
        end
      else (Got hdr, drop 12 s)
  | (Failed e, s) => (Failed e, s)
  | (Blocked, s) => (Blocked, s)
  end.

Lemma Peek_buffered n r b r' :
  Peek n r = (Got b, r') → length b = n ∧ n ≤ length (rbuf r').
Proof.
  unfold Peek. pose proof (fill_stream n (rbuf r) (rconn r)) as Hf.
  destruct (fill _ _ _) as [[[|e|] buf] conn]; [|done..].
  destruct Hf as (_ & Hn & _). intros [= <- <-]. simpl. rewrite length_take. lia.
Qed.

Lemma Discard_stream n r : n ≤ length (rbuf r) → stream (Discard n r) = drop n (stream r).
Proof. destruct r as [buf conn]. apply stream_drop. Qed.

Section agent_facts.
Context `{GoArch}.

(** [agent_read] once its header is in the buffer. *)
Lemma agent_read_header rw m ty l rw1 :
  Peek 12 rw = (Got (header m ty l), rw1) →
  (0 ≤ m < 2 ^ 32)%Z → (0 ≤ l < 2 ^ 32)%Z →
  agent_read rw =
  Val (if decide (be32 m ≠ resStr) then (Failed (bad_magic (be32 m)), rw1)
       else if decide (maxPacketLength < l)%Z then (Failed (too_long l), rw1)
       else if decide (0 < l)%Z then
         match ReadFull (Z.to_nat l) (Discard 12 rw1) with
         | (Got body, rw2) => (Got (header m ty l ++ body), rw2)
         | (Failed e, rw2) => (Failed e, rw2)
         | (Blocked, rw2) => (Blocked, rw2)
         end
       else (Got (header m ty l), Discard 12 rw1)).
Proof.
  intros Hread Hm Hl. unfold agent_read. change (Z.to_nat minPacketLength) with 12.
  rewrite Hread. pose proof (header_magic m ty l []) as E3.
  pose proof (header_len m ty l []) as E4. rewrite app_nil_r in E3, E4.
  rewrite E3, outcome_bind_ret, get_uint32_be32, outcome_bind_ret, uint32_small by done.
  destruct magic_strings as (_ & _ & _ & Hres).
  destruct (decide (m = res)) as [->|Hne].
  2: { rewrite !decide_True by (done || rewrite <- Hres; by apply be32_ne). done. }
  rewrite (decide_False (P := res ≠ res)), (decide_False (P := be32 res ≠ resStr)) by tauto.
  rewrite E4, outcome_bind_ret, get_uint32_be32, outcome_bind_ret, uint32_small by done.
  case_decide as Hmax; [done|]. change maxPacketLength with 67108864%Z in Hmax.
  rewrite (go_int_small l) by lia. change minPacketLength with 12%Z.
  rewrite go_int_small by lia. unfold getBuffer. rewrite make_bytes_nonneg by lia.
  rewrite outcome_bind_ret. replace (Z.to_nat (12 + l)) with (12 + Z.to_nat l) by lia.
  rewrite replicate_add, copy_in_prefix; [|done|rewrite !blen_app, !blen_replicate; blia].
  rewrite outcome_bind_ret. cbv beta iota zeta. rewrite blen_app, blen_header, blen_replicate.
  case_decide as Hpos.
  2: { replace (Z.to_nat l) with 0 by lia. by rewrite app_nil_r. }
  replace (Z.to_nat (12 + Z.of_nat (Z.to_nat l) - 12)) with (Z.to_nat l) by lia.
  destruct (ReadFull_stream (Z.to_nat l) (Discard 12 rw1)) as [E1 E2].
  destruct (ReadFull (Z.to_nat l) (Discard 12 rw1)) as [[body|e|] rw2]; [|done..].
  destruct (readfull_stream _ _) as [r s] eqn:Hr. simpl in E1. subst r.
  apply readfull_stream_got in Hr as [Hlen _].
  pose proof (copy_all (header res ty l) (replicate (Z.to_nat l) x00) body 12) as E.
  rewrite blen_app, blen_header, blen_replicate in E. rewrite E; [done|done|].
  by rewrite length_replicate.
Qed.

Lemma agent_read_refines rw :
  ∃ r rw', agent_read rw = Val (r, rw') ∧ agent_read_stream (stream rw) = (r, stream rw').
Proof.
  unfold agent_read_stream. destruct (Peek_stream 12 rw) as [E1 E2].
  destruct (peek_stream 12 (stream rw)) as [r2 s2] eqn:Hr. simpl in E1, E2. subst r2 s2.
  destruct (Peek 12 rw) as [[hdr|e|] rw1] eqn:Hread; simpl in *.
  2: { unfold agent_read. change (Z.to_nat minPacketLength) with 12. rewrite Hread. eauto. }
  2: { unfold agent_read. change (Z.to_nat minPacketLength) with 12. rewrite Hread. eauto. }
  apply Peek_buffered in Hread as Hb. destruct Hb as [Hlen Hbuf].
  destruct (header_decompose hdr) as (m & ty & l & rest & -> & Hm & Hty & Hl);
    [unfold blen; lia|].
  assert (rest = []) as ->; [|rewrite app_nil_r in *].
  { rewrite length_app, length_header in Hlen. apply length_zero_iff_nil. lia. }
  rewrite declared_len_header, (agent_read_header _ _ _ _ _ Hread) by done.
  rewrite <- Discard_stream by done.
  change (take 4 (header m ty l)) with (be32 m).
  case_decide; [by eauto|]. case_decide; [by eauto|]. case_decide; [|by eauto].
  destruct (ReadFull_stream (Z.to_nat l) (Discard 12 rw1)) as [E1 E2].
  destruct (readfull_stream (Z.to_nat l) (stream (Discard 12 rw1))) as [r2 s2].
  simpl in E1, E2. subst r2 s2.
  destruct (ReadFull (Z.to_nat l) (Discard 12 rw1)) as [[body|e|] rw2]; simpl; eauto.
Qed.

(** A header cut short by the end of the connection: some of it has come, not
    all. *)
Definition header_cut (s : list (byte + error)) : Prop :=
  0 < length (lead s) < 12 ∧ head (after s) = Some (inr EOF).
#[global] Instance header_cut_dec s : Decision (header_cut s).
Proof. unfold header_cut. apply _. Defined.

(** What peeking leaves in the buffer when a read fails: the header, or as much
    of it as has come, unless it has been accepted. *)
Definition header_kept (s : list (byte + error)) : bytes :=
  let hdr := take 12 (lead s) in
  if decide (length (lead s) < 12 ∨ take 4 hdr ≠ resStr ∨ (maxPacketLength < declared_len hdr)%Z)
  then hdr else [].

Lemma stream_lead n s : n ≤ length (lead s) → s = (inl <$> take n (lead s)) ++ drop n s.
Proof.
  revert s. induction n as [|n IH]; intros [|[b|e] s] Hn; simpl in *; try (done || lia).
  f_equal. apply IH. lia.
Qed.

(** The worker's reader and the client's on the same stream. *)
Lemma agent_vs_client s :
  match read_packet_stream s with
  | (Failed e, s') =>
      agent_read_stream s =
        (Failed (if decide (header_cut s) then EOF else e), (inl <$> header_kept s) ++ s') ∧
      (header_cut s → e = ErrUnexpectedEOF)
  | r => agent_read_stream s = r
  end.
Proof.
  unfold read_packet_stream, agent_read_stream, header_kept. cbv zeta.
  unfold readfull_stream at 1, peek_stream. destruct (decide (12 ≤ length (lead s))) as [Hl|Hl].
  - assert (¬ header_cut s) as Hc by (unfold header_cut; lia).
    change WC.resStr with CC.resStr. change WC.maxPacketLength with CC.maxPacketLength.
    set (hdr := take 12 (lead s)). destruct (decide (take 4 hdr ≠ CC.resStr)) as [Hm|Hm].
    { rewrite decide_False, decide_True by (done || auto).
      split; [f_equal; by apply stream_lead|done]. }
    destruct (decide (CC.maxPacketLength < declared_len hdr)%Z) as [Hd|Hd].
    { rewrite decide_False, decide_True by (done || auto).
      split; [f_equal; by apply stream_lead|done]. }
    case_decide; [|done]. destruct (readfull_stream _ (drop 12 s)) as [[]]; [done| |done].
    rewrite (decide_False (P := header_cut s)) by done.
    by rewrite decide_False by (intros [?|[?|?]]; [lia|done..]).
  - destruct (after s) as [|[b|e] s'] eqn:Ha; [done|done|].
    rewrite (decide_True (P := _ < _ ∨ _)) by (left; lia). rewrite take_ge by lia.
    assert (header_cut s ↔ e = EOF ∧ lead s ≠ []) as Hc.
    { unfold header_cut. rewrite Ha. simpl. destruct (lead s); simpl in *; naive_solver lia. }
    split; [|rewrite Hc; intros; by rewrite decide_True]. do 2 f_equal.
    destruct (decide (header_cut s)) as [Hh|Hh], (decide (e = EOF ∧ lead s ≠ [])) as [He|He].
    + by destruct He as [-> _].
    + by rewrite <- Hc in He.
    + by rewrite Hc in Hh.
    + done.
Qed.

(** C26: both packages frame alike.  On connections that deliver the same bytes,
    split in whatever ways, the worker's [read] -- which peeks -- and the
    client's [readPacket] -- which consumes -- return the same packets and
    leave the connections in the same state, block together and fail together.
    They fail with the same error in every case but one: a header of which some
    but not all has come before the end of the connection is [io.EOF] for the
    worker and [io.ErrUnexpectedEOF] for the client.  And after a failure the
    worker's connection still holds the header the client has consumed when the
    header was incomplete or refused; when the body failed, both are at the same
    place.  Neither panics. *)
Theorem agent_client_agree rw1 rw2 :
  rw1 ≡ rw2 →
  ∃ ra rwa rc rwc, agent_read rw1 = Val (ra, rwa) ∧ readPacket rw2 = Val (rc, rwc) ∧
    match rc with
    | Failed e =>
        ra = Failed (if decide (header_cut (stream rw2)) then EOF else e) ∧
        (header_cut (stream rw2) → e = ErrUnexpectedEOF) ∧
        stream rwa = (inl <$> header_kept (stream rw2)) ++ stream rwc
    | _ => ra = rc ∧ rwa ≡ rwc
    end.
Proof.
  unfold equiv, reader_equiv. intros Heq.
  destruct (agent_read_refines rw1) as (ra & rwa & E1 & S1).
  destruct (readPacket_stream rw2) as (rc & rwc & E2 & S2).
  exists ra, rwa, rc, rwc. split_and!; [done..|]. rewrite Heq in S1.
  pose proof (agent_vs_client (stream rw2)) as Hv. rewrite S2 in Hv.
  destruct rc; rewrite S1 in Hv; [by simplify_eq| |by simplify_eq].
  destruct Hv as [Hv He]. by simplify_eq.
Qed.

(** C27: the worker reads the packets the job server sent, in order and whole,
    wherever the network cuts the stream, and leaves what follows unread; each
    of them is safe for [decodeInPack] on every build. *)
Theorem agent_reads_framed (ps : list (Z * bytes)) rw s :
  Forall (λ p, (blen p.2 ≤ maxPacketLength)%Z) ps →
  stream rw = (inl <$> concat ((λ p, frame p.1 p.2) <$> ps)) ++ s →
  (∃ rw', agent_reads (length ps) rw = Val ((λ p, frame p.1 p.2) <$> ps, rw') ∧
    stream rw' = s) ∧
  Forall (λ p, decodeInPack (frame p.1 p.2) = Val (in_decode_meaning (frame p.1 p.2))) ps.
Proof.
  intros Hall Hs. split.
  - revert rw Hs. induction Hall as [|[dt body] ps Hp _ IH]; intros rw Hs; simpl.
    { by exists rw. }
    destruct (agent_read_refines rw) as (r & rw1 & -> & Hr).
    change (stream rw = (inl <$> (frame dt body ++ concat ((λ p, frame p.1 p.2) <$> ps))) ++ s)
      in Hs. rewrite fmap_app, <- app_assoc in Hs.
    pose proof (agent_vs_client (stream rw)) as Hv.
    rewrite Hs, read_packet_stream_frame, <- Hs, Hr in Hv by done. simplify_eq.
    rewrite outcome_bind_ret. cbv beta iota.
    destruct (IH rw1) as (rw' & -> & Hs'); [congruence|]. by exists rw'.
  - eapply Forall_impl; [|exact Hall]. intros [dt body] Hb. simpl in *.
    apply decodeInPack_spec, limit_safe. pose proof (blen_nonneg body).
    unfold frame, declared_len. rewrite header_len, get_uint32_be32. rewrite uint32_small; [done|].
    change maxPacketLength with 67108864%Z in Hb. lia.
Qed.

(** A rejected header is never consumed.  When a packet starts with another
    magic or declares more than the limit, [read] fails with the connection
    unchanged, so that reading again fails the same way, any number of times:
    only replacing the connection, as [work] does, gets past it. *)
Theorem rejected_header_stays rw m ty l s :
  stream rw = (inl <$> header m ty l) ++ s →
  (0 ≤ m < 2 ^ 32)%Z → (0 ≤ l < 2 ^ 32)%Z → m ≠ res ∨ (maxPacketLength < l)%Z →
  ∃ e, e = (if decide (m ≠ res) then bad_magic (be32 m) else too_long l) ∧
  ∀ rw1, rw1 ≡ rw → ∃ rw2, agent_read rw1 = Val (Failed e, rw2) ∧ rw2 ≡ rw.
Proof.
  intros Hs Hm Hl Hbad. eexists. split; [done|]. intros rw1 Heq.
  destruct (agent_read_refines rw1) as (r & rw2 & -> & Hr). exists rw2.
  unfold equiv, reader_equiv in *. rewrite Heq, Hs in Hr. unfold agent_read_stream in Hr.
  rewrite peek_stream_app, declared_len_header in Hr by done.
  change (take 4 (header m ty l)) with (be32 m) in Hr.
  destruct magic_strings as (_ & _ & _ & Hres).
  destruct (decide (m = res)) as [->|Hne].
  - rewrite (decide_False (P := res ≠ res)) by tauto.
    rewrite (decide_False (P := be32 res ≠ resStr)), (decide_True (P := (_ < l)%Z)) in Hr by tauto.
    simplify_eq. split; [done|congruence].
  - rewrite (decide_True (P := m ≠ res)) by done.
    rewrite decide_True in Hr by (rewrite <- Hres; by apply be32_ne).
    simplify_eq. split; [done|congruence].
Qed.

(** An error inside a body loses the place in the stream.  When the
    connection reports an error after the header and part [b1] of the body of a
    packet are in, [read] returns that error and the next byte to be read is
    the first of the rest [b2] of that body, not the start of a packet. *)
Theorem midbody_error_desyncs rw ty b1 b2 e s :
  stream rw = (inl <$> header res ty (blen (b1 ++ b2)) ++ b1) ++ inr e :: (inl <$> b2) ++ s →
  b2 ≠ [] → e ≠ EOF → (blen (b1 ++ b2) ≤ maxPacketLength)%Z →
  ∃ rw', agent_read rw = Val (Failed e, rw') ∧ stream rw' = (inl <$> b2) ++ s.
Proof.
  intros Hs Hb2 He Hl. change maxPacketLength with 67108864%Z in Hl.
  destruct (agent_read_refines rw) as (r & rw' & -> & Hr). exists rw'.
  assert (0 < blen b2)%Z by (destruct b2; [done|]; rewrite blen_cons; blia).
  pose proof (blen_nonneg b1). rewrite blen_app in *.
  rewrite Hs, fmap_app, <- app_assoc in Hr. unfold agent_read_stream in Hr.
  rewrite peek_stream_app, declared_len_header in Hr by (done || lia).
  change (take 4 (header res ty _)) with (be32 res) in Hr.
  destruct magic_strings as (_ & _ & _ & Hres). rewrite Hres in Hr.
  rewrite (decide_False (P := resStr ≠ resStr)) in Hr by tauto.
  rewrite decide_False in Hr by (change maxPacketLength with 67108864%Z; lia).
  rewrite decide_True in Hr by lia.
  rewrite drop_app_length', readfull_stream_cut in Hr by (done || unfold blen in *; lia).
  rewrite decide_False in Hr by tauto. by simplify_eq.
Qed.

(** ** Writing through the pool *)

Definition out_bytes (o : outPack) : bytes :=
  header req (oType o) (uint32 (blen (out_body o))) ++ out_body o.

Lemma agent_write_spec p o w :
  out_fits o →
  ∃ p', agent_write p o (Some w) =
    Val ('(err, w) ← writeTo w (out_bytes o); Some (err, w, p')) ∧
    ((blen p ≤ encodeBufKeep)%Z → (blen p' ≤ encodeBufKeep)%Z) ∧
    (blen p ≤ blen p')%Z.
Proof.
  intros Hf. unfold agent_write. rewrite encodeInto_spec by done. fold (out_bytes o).
  rewrite outcome_bind_ret. eexists. split; [done|].
  case_bool_decide as Hg; case_decide; try lia; rewrite blen_app; unfold blen in *;
    rewrite length_drop; lia.
Qed.

Lemma agent_writes_spec w ps :
  Forall (λ p, out_fits p.2) ps →
  agent_writes w ps = Val (writeAll w ((λ p, out_bytes p.2) <$> ps)).
Proof.
  intros Hall. revert w. induction Hall as [|[p o] ps Ho _ IH]; intros w; [done|].
  destruct (agent_write_spec p o w Ho) as (p' & E & _). csimpl. rewrite E.
  rewrite outcome_bind_ret. destruct (writeTo w (out_bytes o)) as [[err w']|]; [|done].
  simpl. rewrite IH. by destruct (writeAll w' _) as [[errs w2]|].
Qed.

(** C30: the pool is invisible on the wire.  Packets written through [agent.write],
    each encoded into whatever buffer the pool handed out, appear on a fresh
    connection as their encodings, whole and in order, up to the first failed
    write; after it nothing is written. *)
Theorem pooled_writes_framed (ps : list (bytes * outPack)) script :
  Forall (λ p, out_fits p.2) ps →
  ∃ errs w' sent rest,
    agent_writes (mkWriter [] None [] script) ps = Val (Some (errs, w')) ∧
    ps = sent ++ rest ∧
    ((rest = [] ∧ errs = replicate (length sent) None ∧
      wire w' = concat ((λ p, out_bytes p.2) <$> sent)) ∨
     (∃ e k p, hd_error rest = Some p ∧
        errs = replicate (length sent) None ++ replicate (length rest) (Some e) ∧
        wire w' = concat ((λ p, out_bytes p.2) <$> sent) ++ take k (out_bytes p.2))).
Proof.
  intros Hall. rewrite agent_writes_spec by done.
  destruct (writeAll_spec (mkWriter [] None [] script) ((λ p, out_bytes p.2) <$> ps)
    (λ _, eq_refl) eq_refl) as (errs & w' & sent & rest & E & Hps & Hcase).
  apply fmap_app_inv in Hps as (sent' & rest' & -> & -> & ->).
  exists errs, w', sent', rest'. rewrite E. split_and!; [done..|].
  rewrite !length_fmap in Hcase. destruct Hcase as [(Hr & -> & ->)|(e & k & q & Hr & -> & ->)].
  - left. split_and!; [|done..]. by destruct rest'.
  - right. destruct rest' as [|p rest']; [done|]. simpl in Hr. simplify_eq. by exists e, k, p.
Qed.

(** The pool stays small and its buffers only grow.  A buffer of at most
    64 KiB that goes through [agent.write] comes back at least as large and
    still at most 64 KiB, whatever packet was encoded, and the buffers [New]
    makes start below that; before [Connect] has published a pair, [write]
    dereferences nil instead. *)
Theorem pool_stays_small p o w :
  out_fits o →
  (blen new_pool_buf ≤ encodeBufKeep)%Z ∧
  (∀ err w' p', agent_write p o (Some w) = Val (Some (err, w', p')) →
     (blen p ≤ encodeBufKeep)%Z → (blen p ≤ blen p' ≤ encodeBufKeep)%Z) ∧
  agent_write p o None = Panics NilDereference.
Proof.
  intros Hf. split_and!.
  - by vm_compute.
  - intros err w' p' E Hp. destruct (agent_write_spec p o w Hf) as (p1 & E1 & Hk & Hg).
    rewrite E in E1. apply (inj Val) in E1.
    destruct (writeTo w (out_bytes o)) as [[err1 w1]|]; [|done].
    simpl in E1. simplify_eq. auto.
  - unfold agent_write. by rewrite encodeInto_spec.
Qed.
End agent_facts.

(** ** Witnesses *)

Definition noop_then_job : Reader :=
  let p := frame dtNoop [] ++ frame dtJobAssign (str "H:1" ++ x00 :: str "f" ++ x00 :: str "in") in
  mkReader (take 3 p) [Chunk (take 20 (drop 3 p)); Chunk []; Chunk (drop 23 p)].

(** Seven bytes of a header, cut in two, and the end of the connection. *)
Definition cut_header : Reader :=
  mkReader [] [Chunk (take 3 (frame dtNoop [])); Chunk (take 4 (drop 3 (frame dtNoop []))); Fail EOF].

Lemma agent_client_agree_witness :
  ∃ ra rwa rc rwc, agent_read (H := W64) cut_header = Val (ra, rwa) ∧
    readPacket (H := W64) cut_header = Val (rc, rwc) ∧
    match rc with
    | Failed e =>
        ra = Failed (if decide (header_cut (stream cut_header)) then EOF else e) ∧
        (header_cut (stream cut_header) → e = ErrUnexpectedEOF) ∧
        stream rwa = (inl <$> header_kept (stream cut_header)) ++ stream rwc
    | _ => ra = rc ∧ rwa ≡ rwc
    end.
Proof. apply (agent_client_agree (H := W64)). reflexivity. Defined.

Lemma agent_reads_framed_witness :
  ∃ rw', agent_reads (H := W32) 2 noop_then_job =
    Val ([frame dtNoop []; frame dtJobAssign (str "H:1" ++ x00 :: str "f" ++ x00 :: str "in")], rw') ∧
    stream rw' = [].
Proof.
  refine (proj1 (agent_reads_framed (H := W32)
    [(dtNoop, []); (dtJobAssign, str "H:1" ++ x00 :: str "f" ++ x00 :: str "in")]
    noop_then_job [] _ _)).
  - repeat constructor; vm_compute; congruence.
  - vm_compute. reflexivity.
Defined.

Lemma rejected_header_stays_witness :
  ∃ e, e = bad_magic reqStr ∧
  ∀ rw1, rw1 ≡ mkReader [] [Chunk (header req dtNoop 0)] →
    ∃ rw2, agent_read (H := W64) rw1 = Val (Failed e, rw2) ∧
      rw2 ≡ mkReader [] [Chunk (header req dtNoop 0)].
Proof.
  apply (rejected_header_stays (H := W64)
    (mkReader [] [Chunk (header req dtNoop 0)]) req dtNoop 0 []).
  - vm_compute. reflexivity.
  - vm_compute. split; congruence.
  - vm_compute. split; congruence.
  - left. vm_compute. congruence.
Defined.

(** A body cut by a temporary error: the next read starts inside it. *)
Definition cut_body : Reader :=
  mkReader [] [Chunk (header res dtEchoRes 6 ++ str "abc"); Fail (OpError true true);
               Chunk (str "def" ++ frame dtNoop [])].

Lemma midbody_error_desyncs_witness :
  ∃ rw', agent_read (H := W64) cut_body = Val (Failed (OpError true true), rw') ∧
    stream rw' = (inl <$> str "def") ++ (inl <$> frame dtNoop []).
Proof.
  apply (midbody_error_desyncs (H := W64) cut_body dtEchoRes (str "abc") (str "def")).
  - vm_compute. reflexivity.
  - vm_compute. congruence.
  - vm_compute. congruence.
  - vm_compute. congruence.
Defined.

Lemma pooled_writes_framed_witness :
  let ps := [(replicate 300 xff, mkOutPack dtWorkComplete (Some (str "OK")) (str "H:1"));
             (new_pool_buf, grab_pack)] in
  ∃ errs w' sent rest,
    agent_writes (H := W32) (mkWriter [] None [] [None; Some (mkFault 5 EOF)]) ps =
      Val (Some (errs, w')) ∧ ps = sent ++ rest ∧
    ((rest = [] ∧ errs = replicate (length sent) None ∧
      wire w' = concat ((λ p, out_bytes p.2) <$> sent)) ∨
     (∃ e k p, hd_error rest = Some p ∧
        errs = replicate (length sent) None ++ replicate (length rest) (Some e) ∧
        wire w' = concat ((λ p, out_bytes p.2) <$> sent) ++ take k (out_bytes p.2))).
Proof.
  apply (pooled_writes_framed (H := W32)). repeat constructor; vm_compute; congruence.
Defined.

Lemma pool_stays_small_witness :
  agent_write (H := W64) new_pool_buf grab_pack None = Panics NilDereference.
Proof.
  refine (proj2 (proj2 (pool_stays_small (H := W64) new_pool_buf grab_pack
    (mkWriter [] None [] []) _))).
  vm_compute. congruence.
Defined.
