(* ===== verification/Agent.v ===== *)
(** * The life of an agent's connection: worker/agent.go

    An [agent] owns at most one published connection at a time, replaced by
    [Connect], by [reconnect] and by the read loop [work] itself.  These run on
    goroutines of their own and synchronise only through [connMu], held for one
    access to [conn], [rw] and [epoch], so the model is a system of actions, each
    one critical section or one blocking call, in any order.  A connection and
    the [bufio] pair over it are named by the position of their dial.

    A dial and the publish that follows it are one action: nothing else can
    reach the connection in between.  So are the publish and the start of the
    read loop, which may be delayed by leaving the new loop at its first read.
    A handler installed with [SetErrorHandler] may call [Reconnect] or [Close];
    these are the actions [ReconnectDial] and [AgentClose], enabled at any time. *)

From S2P Require Import Prelude GoStd Protocol ClientWire WorkerPack AgentIO.
Import WC.

(** [conn], [rw] and [epoch] of an [agent] *)
Record agent := mkAgent {
  a_conn : option nat;
  a_rw : option nat;
  a_epoch : Z
}.

Definition newAgent : agent := mkAgent None None 0.
Definition getConn (a : agent) : option nat := a_conn a.
Definition getRW (a : agent) : option nat := a_rw a.
Definition currentEpoch (a : agent) : Z := a_epoch a.

(** [a.setConn(conn, rw)] *)
Definition setConn (c : nat) (a : agent) : agent * Z :=
  let e := uint64 (a_epoch a + 1) in (mkAgent (Some c) (Some c) e, e).

(** A connection: what its buffered reader will deliver, and whether this side
    has closed it.  [c_log] is its history, everything that has ever arrived on
    it; no operation looks at it. *)
Record conn := mkConn { c_in : Reader; c_open : bool; c_log : list (byte + error) }.

(** Where a read loop is. *)
Inductive pc :=
| AtRead
| AtCheck (r : read_result)
| AtDisconnect (e : error)
| AtRedial
| AtDial (old : option nat)
| AtCloseOld (old : option nat)
| AtSend (p : inPack)
| Stopped.

(** [work(epoch, rw)] *)
Record loop := mkLoop { l_epoch : Z; l_rw : nat; l_pc : pc }.

(** An agent with its goroutines: [connecting] is [Connect] between its check
    and its dial, holding [a.Mutex]; [reported] is what [worker.err] was called
    with, [inbox] is the channel [worker.in] and [handled] what the main loop
    received from it.  When the main loop receives is not the agent's affair:
    [MainTake] is that receive, made by the agent's environment, which may make
    it at any time or never; when it really happens is in System.v. *)
Record sys := mkSys {
  ag : agent;
  conns : list conn;
  connecting : bool;
  loops : list loop;
  reported : list error;
  inbox : list inPack;
  handled : list inPack;
  quit : bool
}.

Definition init : sys := mkSys newAgent [] false [] [] [] [] false.

Definition set_pc (i : nat) (p : pc) (s : sys) : sys :=
  mkSys (ag s) (conns s) (connecting s)
    (alter (λ l, mkLoop (l_epoch l) (l_rw l) p) i (loops s))
    (reported s) (inbox s) (handled s) (quit s).

Definition set_connecting (b : bool) (s : sys) : sys :=
  mkSys (ag s) (conns s) b (loops s) (reported s) (inbox s) (handled s) (quit s).

Definition report (e : error) (s : sys) : sys :=
  mkSys (ag s) (conns s) (connecting s) (loops s) (reported s ++ [e]) (inbox s)
    (handled s) (quit s).

(** [conn.Close()] on a connection, which a nil [oldConn] skips. *)
Definition close_conn (c : option nat) (s : sys) : sys :=
  match c with
  | None => s
  | Some c =>
      mkSys (ag s) (alter (λ k, mkConn (c_in k) false (c_log k)) c (conns s)) (connecting s) (loops s)
        (reported s) (inbox s) (handled s) (quit s)
  end.

(** A dialled connection published with [setConn], its epoch and its name. *)
Definition publish (rd : Reader) (s : sys) : sys * Z * nat :=
  let c := length (conns s) in
  let '(a, e) := setConn c (ag s) in
  (mkSys a (conns s ++ [mkConn rd true (stream rd)]) (connecting s) (loops s) (reported s) (inbox s)
     (handled s) (quit s), e, c).

(** [go a.work(epoch, rw)] *)
Definition spawn (e : Z) (c : nat) (s : sys) : sys :=
  mkSys (ag s) (conns s) (connecting s) (loops s ++ [mkLoop e c AtRead])
    (reported s) (inbox s) (handled s) (quit s).

(** The result of [net.Dial]. *)
Abbreviation dial := (Reader + error)%type.

Inductive act :=
| ConnectBegin
| ConnectDial (d : dial)
| ReconnectDial (d : dial)
| NetIn (c : nat) (ev : read_event)
| LoopRead (i : nat)
| LoopCheck (i : nat)
| LoopDisconnect (i : nat)
| LoopSnapshot (i : nat)
| LoopDial (i : nat) (d : dial)
| LoopCloseOld (i : nat)
| LoopSend (i : nat)
| LoopQuit (i : nat)
| MainTake
| CloseQuit
| AgentClose.

(** A read on a connection this side has closed. *)
Definition use_of_closed : error := OpError false false.

(** A recovered run-time panic as the error [worker.err] gets. *)
Definition runtime_error : error := New "runtime error".

Section agent.
Context `{GoArch}.

(** [Connect], the part up to the dial: it returns at once when there is a
    connection. *)
Definition connect_begin (s : sys) : option sys :=
  if connecting s then None
  else match getConn (ag s) with
       | Some _ => Some s
       | None => Some (set_connecting true s)
       end.

Definition connect_dial (d : dial) (s : sys) : option sys :=
  if connecting s then
    match d with
    | inl rd => let '(s, e, c) := publish rd s in Some (spawn e c (set_connecting false s))
    | inr _ => Some (set_connecting false s)
    end
  else None.

(** [reconnect], its publish and its loop; the packets it registers with are in
    Worker.v. *)
Definition reconnect_dial (d : dial) (s : sys) : sys :=
  match d with
  | inl rd => let '(s, e, c) := publish rd s in spawn e c s
  | inr _ => s
  end.

(** What the reader of a connection has to offer: once this side has closed it,
    only what the buffer holds. *)
Definition source (k : conn) : Reader :=
  if c_open k then c_in k else mkReader (rbuf (c_in k)) [Fail use_of_closed].

Definition consumed (k : conn) (rd : Reader) : conn :=
  mkConn (if c_open k then rd else mkReader (rbuf rd) (rconn (c_in k))) (c_open k) (c_log k).

(** [data, err = a.read(rw)]: enabled when it returns. *)
Definition loop_read (i : nat) (l : loop) (s : sys) : option sys :=
  k ← conns s !! l_rw l;
  match agent_read (source k) with
  | Val (Blocked, _) => None
  | Val (r, rd) =>
      Some (set_pc i (AtCheck r)
        (mkSys (ag s) (<[l_rw l := consumed k rd]> (conns s)) (connecting s) (loops s)
           (reported s) (inbox s) (handled s) (quit s)))
  | Panics _ => Some (set_pc i Stopped (report runtime_error s))
  end.

(** The epoch check and the routing of the read's result. *)
Definition loop_check (i : nat) (l : loop) (r : read_result) (s : sys) : option sys :=
  if decide (currentEpoch (ag s) ≠ l_epoch l) then Some (set_pc i Stopped s)
  else match r with
       | Blocked => None
       | Failed (OpError _ true) => Some (set_pc i AtRead s)
       | Failed (OpError t false) => Some (set_pc i (AtDisconnect (OpError t false)) s)
       | Failed e =>
           if decide (e = EOF ∨ e = ErrUnexpectedEOF)
           then Some (set_pc i (AtDisconnect e) s)
           else Some (set_pc i AtRedial (report e s))
       | Got data =>
           match decodeInPack data with
           | Val (_, _, Some e) => Some (set_pc i AtRead (report e s))
           | Val (Some p, _, None) => Some (set_pc i (AtSend p) s)
           | Val (None, _, None) | Panics _ => Some (set_pc i Stopped (report runtime_error s))
           end
       end.

(** [a.disconnect_error(err)] and the [break] after it. *)
Definition disconnect_error (i : nat) (e : error) (s : sys) : sys :=
  set_pc i Stopped
    (match getConn (ag s) with Some _ => report (Disconnect e 0) s | None => s end).

(** The redial: dial, publish the new pair and continue on it. *)
Definition loop_dial (i : nat) (old : option nat) (d : dial) (s : sys) : sys :=
  match d with
  | inr e => set_pc i Stopped (close_conn old (report e s))
  | inl rd =>
      let '(s, e, c) := publish rd s in
      mkSys (ag s) (conns s) (connecting s) (<[i := mkLoop e c (AtCloseOld old)]> (loops s))
        (reported s) (inbox s) (handled s) (quit s)
  end.

(** [select { case a.worker.in <- inpack: case <-a.worker.quit: return }] *)
Definition loop_send (i : nat) (p : inPack) (s : sys) : option sys :=
  if decide (Z.of_nat (length (inbox s)) < queueSize)%Z then
    Some (set_pc i AtRead
      (mkSys (ag s) (conns s) (connecting s) (loops s) (reported s) (inbox s ++ [p])
         (handled s) (quit s)))
  else None.

(** [a.Close()] *)
Definition agent_close (s : sys) : sys :=
  match a_conn (ag s) with
  | None => s
  | Some c =>
      close_conn (Some c)
        (mkSys (mkAgent None (a_rw (ag s)) (a_epoch (ag s))) (conns s) (connecting s) (loops s)
           (reported s) (inbox s) (handled s) (quit s))
  end.

Definition do_act (a : act) (s : sys) : option sys :=
  match a with
  | ConnectBegin => connect_begin s
  | ConnectDial d => connect_dial d s
  | ReconnectDial d => Some (reconnect_dial d s)
  | NetIn c ev =>
      k ← conns s !! c;
      Some (mkSys (ag s)
        (<[c := mkConn (mkReader (rbuf (c_in k)) (rconn (c_in k) ++ [ev])) (c_open k)
                  (c_log k ++ event_stream ev)]> (conns s))
        (connecting s) (loops s) (reported s) (inbox s) (handled s) (quit s))
  | LoopRead i =>
      l ← loops s !! i;
      match l_pc l with AtRead => loop_read i l s | _ => None end
  | LoopCheck i =>
      l ← loops s !! i;
      match l_pc l with AtCheck r => loop_check i l r s | _ => None end
  | LoopDisconnect i =>
      l ← loops s !! i;
      match l_pc l with AtDisconnect e => Some (disconnect_error i e s) | _ => None end
  | LoopSnapshot i =>
      l ← loops s !! i;
      match l_pc l with AtRedial => Some (set_pc i (AtDial (getConn (ag s))) s) | _ => None end
  | LoopDial i d =>
      l ← loops s !! i;
      match l_pc l with AtDial old => Some (loop_dial i old d s) | _ => None end
  | LoopCloseOld i =>
      l ← loops s !! i;
      match l_pc l with AtCloseOld old => Some (set_pc i AtRead (close_conn old s)) | _ => None end
  | LoopSend i =>
      l ← loops s !! i;
      match l_pc l with AtSend p => loop_send i p s | _ => None end
  | LoopQuit i =>
      l ← loops s !! i;
      match l_pc l with
      | AtSend p => if quit s then Some (set_pc i Stopped s) else None
      | _ => None
      end
  | MainTake =>
      match inbox s with
      | p :: q => Some (mkSys (ag s) (conns s) (connecting s) (loops s) (reported s) q
                          (handled s ++ [p]) (quit s))
      | [] => None
      end
  | CloseQuit => Some (mkSys (ag s) (conns s) (connecting s) (loops s) (reported s) (inbox s)
                         (handled s) true)
  | AgentClose => Some (agent_close s)
  end.

Fixpoint run (acts : list act) (s : sys) : option sys :=
  match acts with
  | [] => Some s
  | a :: acts => s ← do_act a s; run acts s
  end.

Definition reachable (s : sys) : Prop := ∃ acts, run acts init = Some s.
End agent.

(** ** The invariant *)

(** The last connection dialled. *)
Definition last_conn (s : sys) : option nat :=
  match length (conns s) with O => None | S n => Some n end.

(** The epoch counts the publishes, the published pair belongs to the last
    connection dialled, and every loop reads a connection of its own with the
    epoch of its publish. *)
Record inv (s : sys) : Prop := {
  inv_epoch : a_epoch (ag s) = uint64 (Z.of_nat (length (conns s)));
  inv_rw : a_rw (ag s) = last_conn s;
  inv_conn : a_conn (ag s) = None ∨ a_conn (ag s) = a_rw (ag s);
  inv_loop : Forall (λ l, l_rw l < length (conns s) ∧
                          l_epoch l = uint64 (Z.of_nat (l_rw l) + 1)) (loops s);
  inv_owner : NoDup (l_rw <$> loops s)
}.

(** What most actions do, for the invariant: keep agent, connections and loop
    owners, and enter [Connect]'s dial only without a connection. *)
Definition quiet (s s' : sys) : Prop :=
  ag s' = ag s ∧ length (conns s') = length (conns s) ∧
  (λ l, (l_epoch l, l_rw l)) <$> loops s' = (λ l, (l_epoch l, l_rw l)) <$> loops s ∧
  (connecting s' = true → connecting s = true ∨ a_conn (ag s) = None).

Lemma quiet_refl s : quiet s s.
Proof. unfold quiet. naive_solver. Qed.

Lemma quiet_trans s1 s2 s3 : quiet s1 s2 → quiet s2 s3 → quiet s1 s3.
Proof.
  intros (? & ? & ? & Hc1) (E & ? & ? & Hc2). unfold quiet. split_and!; try congruence.
  intros [?|Hn]%Hc2; [by apply Hc1|]. right. congruence.
Qed.

Lemma set_pc_quiet i p s : quiet s (set_pc i p s).
Proof.
  unfold quiet. simpl. split_and!; [done..| |by left].
  apply list_eq. intros j. rewrite !list_lookup_fmap.
  rewrite list_lookup_alter. case_decide; [subst|done]. by destruct (loops s !! j).
Qed.

Lemma report_quiet e s : quiet s (report e s).
Proof. unfold quiet. naive_solver. Qed.

Lemma close_conn_quiet c s : quiet s (close_conn c s).
Proof. destruct c; unfold quiet; simpl; rewrite ?length_alter; naive_solver. Qed.

Create HintDb agentdb.
#[local] Hint Resolve quiet_refl set_pc_quiet report_quiet close_conn_quiet : agentdb.
#[local] Hint Extern 4 (quiet _ (set_pc _ _ _)) =>
  eapply quiet_trans; [|apply set_pc_quiet] : agentdb.
#[local] Hint Extern 4 (quiet _ (close_conn _ _)) =>
  eapply quiet_trans; [|apply close_conn_quiet] : agentdb.
#[local] Hint Extern 9 (quiet _ _) =>
  unfold quiet, set_connecting; simpl; rewrite ?length_insert, ?length_alter; naive_solver : agentdb.

(** Agents that differ at most in having forgotten the connection. *)
Lemma inv_frame s s' :
  length (conns s') = length (conns s) → a_rw (ag s') = a_rw (ag s) →
  a_epoch (ag s') = a_epoch (ag s) →
  a_conn (ag s') = a_conn (ag s) ∨ a_conn (ag s') = None →
  (λ l, (l_epoch l, l_rw l)) <$> loops s' = (λ l, (l_epoch l, l_rw l)) <$> loops s →
  inv s → inv s'.
Proof.
  intros Hc Hrw He Hconn Hl [I1 I2 I3 I4 I5]. split.
  - congruence.
  - unfold last_conn. by rewrite Hrw, Hc.
  - rewrite Hrw. destruct Hconn as [-> | ->]; auto.
  - rewrite Hc. apply (Forall_fmap (λ l, (l_epoch l, l_rw l))
      (λ q, q.2 < length (conns s) ∧ q.1 = uint64 (Z.of_nat q.2 + 1))).
    rewrite Hl. by apply Forall_fmap.
  - apply (f_equal (fmap snd)) in Hl. rewrite <- !list_fmap_compose in Hl.
    change ((λ l, l_rw l) <$> loops s' = (λ l, l_rw l) <$> loops s) in Hl.
    change (NoDup ((λ l, l_rw l) <$> loops s')). by rewrite Hl.
Qed.

Lemma quiet_inv s s' : quiet s s' → inv s → inv s'.
Proof. intros (Ha & ? & ? & _). apply inv_frame; try done; try (left; congruence); congruence. Qed.

Lemma agent_close_inv s : inv s → inv (agent_close s).
Proof.
  unfold agent_close. destruct (a_conn (ag s)) as [c|]; [|done].
  apply inv_frame; simpl; try done; [by rewrite length_alter|by right].
Qed.

(** Publishing: everything an action can then do with the new pair. *)
Lemma publish_inv rd s s' e c ls :
  inv s → publish rd s = (s', e, c) →
  (ls = loops s ++ [mkLoop e c AtRead] ∨
   ∃ i old, i < length (loops s) ∧ ls = <[i := mkLoop e c (AtCloseOld old)]> (loops s)) →
  ∀ cg, inv (mkSys (ag s') (conns s') cg ls (reported s') (inbox s') (handled s') (quit s')).
Proof.
  intros [I1 I2 I3 I4 I5] Hp Hls cg. unfold publish in Hp. simpl in Hp. injection Hp as <- <- <-.
  set (n := length (conns s)) in *.
  assert (uint64 (a_epoch (ag s) + 1) = uint64 (Z.of_nat n + 1)) as He.
  { rewrite I1. unfold uint64, to_unsigned. by rewrite Z.add_mod_idemp_l. }
  assert (∀ l, l ∈ loops s → l_rw l < n) as Hlt.
  { intros l Hl. rewrite list.Forall_forall in I4. by apply I4. }
  assert (length (conns s ++ [mkConn rd true (stream rd)]) = S n) as Hlen.
  { rewrite length_app. simpl. unfold n. lia. }
  split; simpl.
  - rewrite He, Hlen. f_equal. lia.
  - unfold last_conn. simpl. by rewrite Hlen.
  - by right.
  - rewrite Hlen. assert (Forall (λ l, l_rw l < S n ∧ l_epoch l = uint64 (Z.of_nat (l_rw l) + 1))
      (loops s)) as Hold.
    { eapply Forall_impl; [|exact I4]. intros l [? ?]. split; [lia|done]. }
    destruct Hls as [-> | (i & old & _ & ->)].
    + apply Forall_app. split; [done|]. repeat constructor. by simpl.
    + apply Forall_insert; [done|]. simpl. split; [lia|done].
  - destruct Hls as [-> | (i & old & Hi & ->)].
    + rewrite fmap_app. simpl. apply list.NoDup_app. split_and!; [done| |apply NoDup_singleton].
      intros x (l & -> & Hl)%list_elem_of_fmap Hn%list_elem_of_singleton.
      apply Hlt in Hl. lia.
    + rewrite list_fmap_insert. simpl. rewrite insert_take_drop by by rewrite length_fmap.
      rewrite <- (take_drop i (l_rw <$> loops s)) in I5.
      destruct (lookup_lt_is_Some_2 (l_rw <$> loops s) i) as [x Hx]; [by rewrite length_fmap|].
      rewrite (drop_S _ x i Hx) in I5.
      assert (∀ y, y ∈ take i (l_rw <$> loops s) ++ drop (S i) (l_rw <$> loops s) → y < n) as Hy.
      { intros y Hy. assert (y ∈ l_rw <$> loops s) as (l & -> & Hl)%list_elem_of_fmap; [|by apply Hlt].
        rewrite <- (take_drop i (l_rw <$> loops s)), (drop_S _ x i Hx). set_solver. }
      rewrite Permutation_app_comm in I5 |- *. simpl in *. rewrite list.NoDup_cons in I5 |- *.
      destruct I5 as [_ I5]. split; [|done]. intros Hn.
      assert (n < n); [|lia]. apply Hy. set_solver.
Qed.

Section agent_facts.
Context `{GoArch}.

(** Every action is quiet, closes the agent, or publishes. *)
Lemma do_act_cases a s s' :
  do_act a s = Some s' →
  quiet s s' ∨ (a = AgentClose ∧ s' = agent_close s) ∨
  ∃ rd s1 e c ls cg, publish rd s = (s1, e, c) ∧
    ((ls = loops s ++ [mkLoop e c AtRead] ∧
      ((∃ d, a = ConnectDial d ∧ connecting s = true ∧ cg = false) ∨ ∃ d, a = ReconnectDial d)) ∨
     ∃ i old d, a = LoopDial i d ∧ i < length (loops s) ∧
       ls = <[i := mkLoop e c (AtCloseOld old)]> (loops s)) ∧
    s' = mkSys (ag s1) (conns s1) cg ls (reported s1) (inbox s1) (handled s1) (quit s1).
Proof.
  intros Ha. destruct a; simpl in Ha.
  - left. unfold connect_begin in Ha. case_all; auto with agentdb.
  - unfold connect_dial in Ha. destruct (connecting s) eqn:Hc; [|done]. destruct d as [rd|e].
    + right; right. destruct (publish rd s) as [[s1 e] c] eqn:Hp. simplify_eq/=.
      exists rd, s1, e, c, (loops s ++ [mkLoop e c AtRead]), false.
      split_and!; [done|left; split; [done|by eauto]|]. unfold publish in Hp. simpl in Hp. by simplify_eq/=.
    + left. simplify_eq. auto with agentdb.
  - unfold reconnect_dial in Ha. destruct d as [rd|e]; simplify_eq; [|auto with agentdb].
    right; right. destruct (publish rd s) as [[s1 e] c] eqn:Hp.
    exists rd, s1, e, c, (loops s ++ [mkLoop e c AtRead]), (connecting s1).
    split_and!; [done|left; split; [done|by eauto]|]. unfold publish in Hp. simpl in Hp. by simplify_eq/=.
  - left. destruct (conns s !! c); [|done]. simplify_eq/=. auto with agentdb.
  - left. destruct (loops s !! i) as [l|]; [|done]. simpl in Ha.
    destruct (l_pc l); try done. unfold loop_read in Ha.
    destruct (conns s !! l_rw l) as [k|]; [|done]. simpl in Ha.
    destruct (agent_read (source k)) as [[[] rd]|]; simplify_eq; eauto with agentdb.
  - left. destruct (loops s !! i) as [l|]; [|done]. simpl in Ha.
    destruct (l_pc l); try done. unfold loop_check in Ha. case_all; eauto with agentdb.
  - left. destruct (loops s !! i) as [l|]; [|done]. simpl in Ha.
    destruct (l_pc l); try done. unfold disconnect_error in Ha. case_all; eauto with agentdb.
  - left. destruct (loops s !! i) as [l|]; [|done]. simpl in Ha.
    destruct (l_pc l); simplify_eq; eauto with agentdb.
  - destruct (loops s !! i) as [l|] eqn:Hi; [|done]. simpl in Ha.
    destruct (l_pc l); try done. injection Ha as <-. unfold loop_dial.
    destruct d as [rd|e]; [|left; eauto with agentdb]. right; right.
    destruct (publish rd s) as [[s1 e] c] eqn:Hp.
    exists rd, s1, e, c, (<[i := mkLoop e c (AtCloseOld old)]> (loops s)), (connecting s1).
    split_and!; [done| |].
    + right. exists i, old, (inl rd). split_and!; [done|by eapply lookup_lt_Some|done].
    + unfold publish in Hp. simpl in Hp. by simplify_eq/=.
  - left. destruct (loops s !! i) as [l|]; [|done]. simpl in Ha.
    destruct (l_pc l); simplify_eq; eauto with agentdb.
  - left. destruct (loops s !! i) as [l|]; [|done]. simpl in Ha.
    destruct (l_pc l); try done. unfold loop_send in Ha. case_all; eauto with agentdb.
  - left. destruct (loops s !! i) as [l|]; [|done]. simpl in Ha.
    destruct (l_pc l); try done. case_all; eauto with agentdb.
  - left. case_all; auto with agentdb.
  - left. simplify_eq. auto with agentdb.
  - right; left. by simplify_eq.
Qed.

Lemma do_act_inv a s s' : inv s → do_act a s = Some s' → inv s'.
Proof.
  intros Hi Ha.
  apply do_act_cases in Ha as [Ho|[[_ ->]|(rd & s1 & e & c & ls & cg & Hp & Hl & ->)]].
  - by eapply quiet_inv.
  - by apply agent_close_inv.
  - eapply publish_inv; [done..|]. naive_solver.
Qed.

Lemma init_inv : inv init.
Proof. split; simpl; [done|done|by left|constructor|constructor]. Qed.

Lemma run_app xs ys s : run (xs ++ ys) s = (run xs s ≫= run ys).
Proof.
  revert s. induction xs as [|a xs IH]; intros s; simpl; [done|].
  destruct (do_act a s); simpl; [apply IH|done].
Qed.

Lemma run_ind (P : sys → Prop) acts s s' :
  (∀ a s s', P s → do_act a s = Some s' → P s') → P s → run acts s = Some s' → P s'.
Proof.
  intros Hstep. revert s. induction acts as [|a acts IH]; intros s Hs Hr; simpl in Hr.
  { by simplify_eq. }
  destruct (do_act a s) as [s1|] eqn:Ha; [|done]. simpl in Hr. eauto.
Qed.

Lemma reachable_inv s : reachable s → inv s.
Proof. intros [acts Hr]. eapply run_ind; eauto using do_act_inv, init_inv. Qed.

(** C7: a connection has one reader.  In every interleaving of [Connect],
    [reconnect], [Close] and any number of read loops, no two loops ever read
    the same connection; a published connection and the published buffered
    pair belong together; and, short of 2^64 publishes, a loop whose epoch is
    the current one reads the published connection, so there is at most one
    such loop. *)
Theorem one_reader_per_connection s :
  reachable s →
  NoDup (l_rw <$> loops s) ∧
  (∀ c, getConn (ag s) = Some c → getRW (ag s) = Some c) ∧
  ((Z.of_nat (length (conns s)) < 2 ^ 64)%Z →
   ∀ i l, loops s !! i = Some l → l_epoch l = currentEpoch (ag s) →
     getRW (ag s) = Some (l_rw l) ∧
     ∀ j l', loops s !! j = Some l' → l_epoch l' = currentEpoch (ag s) → j = i).
Proof.
  intros [I1 I2 I3 I4 I5]%reachable_inv. split; [done|]. split.
  { intros c Hc. unfold getConn, getRW in *. destruct I3; congruence. }
  intros Hn. unfold currentEpoch, getRW. rewrite I1, I2.
  assert (∀ i l, loops s !! i = Some l → l_epoch l = uint64 (Z.of_nat (length (conns s))) →
    length (conns s) = S (l_rw l)) as Hcur.
  { intros i l Hl He. rewrite list.Forall_forall in I4.
    destruct (I4 l) as [Hlt He']; [by eapply list_elem_of_lookup_2|].
    rewrite He' in He. unfold uint64, to_unsigned in He. rewrite !Z.mod_small in He by lia. lia. }
  intros i l Hl He. split.
  { unfold last_conn. by rewrite (Hcur _ _ Hl He). }
  intros j l' Hl' He'. eapply (NoDup_lookup (l_rw <$> loops s)); [done|..].
  - by rewrite list_lookup_fmap, Hl'.
  - rewrite list_lookup_fmap, Hl. simpl. f_equal.
    pose proof (Hcur _ _ Hl He). pose proof (Hcur _ _ Hl' He'). lia.
Qed.

(** A superseded loop stops.  Once a later connection has been published, by
    whichever goroutine, a loop that returns from its read does nothing more:
    it reports no error, dials nothing, hands on no packet and closes nothing. *)
Theorem superseded_loop_stops s i l r :
  reachable s → (Z.of_nat (length (conns s)) < 2 ^ 64)%Z →
  loops s !! i = Some l → l_pc l = AtCheck r → S (l_rw l) < length (conns s) →
  do_act (LoopCheck i) s = Some (set_pc i Stopped s).
Proof.
  intros [I1 _ _ I4 _]%reachable_inv Hn Hl Hpc Hlt. simpl. rewrite Hl. simpl. rewrite Hpc.
  unfold loop_check, currentEpoch. rewrite decide_True; [done|].
  rewrite list.Forall_forall in I4.
  destruct (I4 l) as [_ ->]; [by eapply list_elem_of_lookup_2|]. rewrite I1.
  unfold uint64, to_unsigned. rewrite !Z.mod_small by lia. lia.
Qed.

(** ** Dialling once *)

(** Everything but closing the agent, [reconnect] and a loop's own redial. *)
Definition only_connects (a : act) : Prop :=
  match a with AgentClose | ReconnectDial _ | LoopDial _ _ => False | _ => True end.

Definition once (s : sys) : Prop :=
  length (conns s) ≤ 1 ∧ (a_conn (ag s) = None → length (conns s) = 0) ∧
  (connecting s = true → a_conn (ag s) = None).

Lemma only_connects_once a s s' :
  only_connects a → once s → do_act a s = Some s' → once s'.
Proof.
  intros Hc (O1 & O2 & O3) Ha. unfold once.
  apply do_act_cases in Ha as [(-> & -> & _ & Hg)|[[-> _]|(rd & s1 & e & c & ls & cg & Hp & Hl & ->)]].
  - split_and!; [done..|]. intros [?|?]%Hg; auto.
  - done.
  - unfold publish in Hp. simpl in Hp. simplify_eq/=.
    destruct Hl as [[_ [(d & _ & Hcon & ->)|(d & ->)]]|(i & old & d & -> & _)]; [|done..].
    rewrite length_app, (O2 (O3 Hcon)). simpl. split_and!; [lia|done|done].
Qed.

(** [Connect] is idempotent under concurrency.  However many goroutines call
    [Connect] -- a retried [Ready], [Work]'s own -- and however they interleave
    with the read loop, the agent dials one connection at most, as long as it
    is not closed and nothing replaces the connection. *)
Theorem connect_dials_once acts s :
  Forall only_connects acts → run acts init = Some s → length (conns s) ≤ 1.
Proof.
  intros Hall Hr. enough (once s) as [? _] by done.
  assert (once init) as Hi by (unfold once; simpl; auto). revert Hi Hr. generalize init.
  induction Hall as [|a acts Ha _ IH]; intros s0 Hi Hr; simpl in Hr; [by simplify_eq|].
  destruct (do_act a s0) as [s1|] eqn:E; [|done]. eapply IH; [|exact Hr].
  by eapply only_connects_once.
Qed.

(** ** What [reconnect] leaves open *)

(** Whether a loop is about to close [c]. *)
Definition holds (c : nat) (p : pc) : Prop := p = AtDial (Some c) ∨ p = AtCloseOld (Some c).

(** An open connection that neither the agent nor a loop remembers to close. *)
Definition orphan (c : nat) (s : sys) : Prop :=
  c_open <$> conns s !! c = Some true ∧ a_conn (ag s) ≠ Some c ∧
  Forall (λ l, ¬ holds c (l_pc l)) (loops s).

Lemma orphan_set_pc c i p s : orphan c s → ¬ holds c p → orphan c (set_pc i p s).
Proof.
  intros (? & ? & Hall) Hp. split_and!; [done..|]. simpl. apply Forall_alter; [done|].
  intros l _. done.
Qed.

Lemma orphan_report c e s : orphan c s → orphan c (report e s).
Proof. done. Qed.

Lemma orphan_close_conn c c' s : orphan c s → c' ≠ Some c → orphan c (close_conn c' s).
Proof.
  intros (Ho & ? & ?) Hne. destruct c' as [c'|]; [|done]. split_and!; [|done..]. simpl.
  rewrite list_lookup_alter_ne by congruence. done.
Qed.

Lemma orphan_publish c rd s s' e k :
  orphan c s → publish rd s = (s', e, k) →
  orphan c s' ∧ k ≠ c ∧ length (loops s') = length (loops s).
Proof.
  intros (Ho & Hc & Hl) Hp. unfold publish in Hp. simpl in Hp. simplify_eq/=.
  destruct (conns s !! c) as [kc|] eqn:Hk; [|done].
  apply lookup_lt_Some in Hk as Hlt. split_and!; [|lia|done].
  split_and!; simpl; [by rewrite lookup_app_l, Hk|intros [=]; lia|done].
Qed.

Create HintDb orphandb.
#[local] Hint Resolve orphan_set_pc orphan_report orphan_close_conn : orphandb.
#[local] Hint Extern 1 (¬ holds _ _) => unfold holds, getConn in *; naive_solver : orphandb.

Lemma do_act_orphan c a s s' : orphan c s → do_act a s = Some s' → orphan c s'.
Proof.
  intros Ho Ha. destruct (Ho) as (Hopen & Hconn & Hall).
  assert (∀ i l, loops s !! i = Some l → ¬ holds c (l_pc l)) as Hpc.
  { intros i l Hl. rewrite list.Forall_forall in Hall.
    apply Hall. by eapply list_elem_of_lookup_2. }
  destruct a; simpl in Ha.
  - unfold connect_begin in Ha. case_all; done.
  - unfold connect_dial in Ha. destruct (connecting s); [|done]. destruct d as [rd|e]; [|by simplify_eq].
    destruct (publish rd s) as [[s1 e] k] eqn:Hp. injection Ha as <-.
    destruct (orphan_publish _ _ _ _ _ _ Ho Hp) as ((? & ? & ?) & ? & _).
    split_and!; [done..|]. simpl. apply Forall_app. split; [done|]. repeat constructor.
    unfold holds. naive_solver.
  - unfold reconnect_dial in Ha. destruct d as [rd|e]; [|by simplify_eq].
    destruct (publish rd s) as [[s1 e] k] eqn:Hp. injection Ha as <-.
    destruct (orphan_publish _ _ _ _ _ _ Ho Hp) as ((? & ? & ?) & ? & _).
    split_and!; [done..|]. simpl. apply Forall_app. split; [done|]. repeat constructor.
    unfold holds. naive_solver.
  - destruct (conns s !! c0) as [k|] eqn:Hk; [|done]. injection Ha as <-.
    split_and!; [|done..]. simpl. rewrite list_lookup_insert. case_decide as Hd; [|done].
    destruct Hd as [-> _]. simpl. by rewrite Hk in Hopen.
  - destruct (loops s !! i) as [l|]; [|done]. simpl in Ha.
    destruct (l_pc l); try done. unfold loop_read in Ha.
    destruct (conns s !! l_rw l) as [k|] eqn:Hk; [|done]. simpl in Ha.
    destruct (agent_read (source k)) as [[[] rd]|]; simplify_eq; auto with orphandb;
      (apply orphan_set_pc; [|unfold holds; naive_solver]);
      (split_and!; [|done..]); simpl; rewrite list_lookup_insert; (case_decide as Hd; [|done]);
      destruct Hd as [<- _]; by rewrite Hk in Hopen.
  - destruct (loops s !! i) as [l|]; [|done]. simpl in Ha.
    destruct (l_pc l); try done. unfold loop_check in Ha. case_all; auto with orphandb.
  - destruct (loops s !! i) as [l|]; [|done]. simpl in Ha.
    destruct (l_pc l); try done. unfold disconnect_error in Ha. case_all; auto with orphandb.
  - destruct (loops s !! i) as [l|]; [|done]. simpl in Ha.
    destruct (l_pc l); simplify_eq; auto with orphandb.
  - destruct (loops s !! i) as [l|] eqn:Hi; [|done]. simpl in Ha. specialize (Hpc i l Hi).
    destruct (l_pc l); try done. injection Ha as <-. unfold loop_dial.
    assert (old ≠ Some c) by (unfold holds in Hpc; naive_solver).
    destruct d as [rd|e]; [|auto with orphandb].
    destruct (publish rd s) as [[s1 e] k] eqn:Hp.
    destruct (orphan_publish _ _ _ _ _ _ Ho Hp) as ((? & ? & ?) & ? & _).
    split_and!; [done..|]. simpl. apply Forall_insert; [done|]. unfold holds. simpl. naive_solver.
  - destruct (loops s !! i) as [l|] eqn:Hi; [|done]. simpl in Ha. specialize (Hpc i l Hi).
    destruct (l_pc l); simplify_eq.
    assert (old ≠ Some c) by (unfold holds in Hpc; naive_solver). auto with orphandb.
  - destruct (loops s !! i) as [l|]; [|done]. simpl in Ha.
    destruct (l_pc l); try done. unfold loop_send in Ha. case_all. auto with orphandb.
  - destruct (loops s !! i) as [l|]; [|done]. simpl in Ha.
    destruct (l_pc l); try done. case_all. auto with orphandb.
  - case_all. done.
  - by simplify_eq.
  - injection Ha as <-. unfold agent_close. destruct (a_conn (ag s)) as [c'|]; [|done].
    apply orphan_close_conn; [|done]. done.
Qed.

(** [reconnect] does not close the connection it replaces, and nothing else
    ever does.  Once a loop has handed a dead connection to the disconnect
    handler and no loop is redialling, [Reconnect] publishes the new connection
    over it, and in every continuation, closing the worker included, the old
    connection is never closed by this side. *)
Theorem reconnect_leaks s c rd acts s' :
  reachable s → getConn (ag s) = Some c → c_open <$> conns s !! c = Some true →
  Forall (λ l, ¬ holds c (l_pc l)) (loops s) →
  run (ReconnectDial (inl rd) :: acts) s = Some s' →
  c_open <$> conns s' !! c = Some true.
Proof.
  intros [_ I2 I3 _ _]%reachable_inv Hc Hopen Hall Hr. simpl in Hr.
  enough (orphan c s') as [? _] by done. eapply run_ind; [apply do_act_orphan| |exact Hr].
  assert (c < length (conns s)) as Hlt.
  { unfold getConn in Hc. destruct I3 as [?|Heq]; [congruence|].
    rewrite Heq, I2 in Hc. unfold last_conn in Hc. destruct (length (conns s)); simplify_eq. lia. }
  destruct (conns s !! c) as [k|] eqn:Hk; [|done]. split_and!; simpl.
  - by rewrite lookup_app_l, Hk.
  - intros [=]. lia.
  - apply Forall_app. split; [done|]. repeat constructor. unfold holds. naive_solver.
Qed.

(** ** Forwarding *)

(** A loop about to read its own open connection, current and with room in the
    worker's channel. *)
Definition ready_loop (i : nat) (l : loop) (st : list (byte + error)) (s : sys) : Prop :=
  loops s !! i = Some l ∧ l_pc l = AtRead ∧ l_epoch l = currentEpoch (ag s) ∧
  inbox s = [] ∧ ∃ k, conns s !! l_rw l = Some k ∧ c_open k = true ∧ stream (c_in k) = st.

(** The actions that take one packet to the main loop. *)
Definition one_packet (i : nat) : list act := [LoopRead i; LoopCheck i; LoopSend i; MainTake].

Lemma set_pc_lookup i l p s :
  loops s !! i = Some l → loops (set_pc i p s) !! i = Some (mkLoop (l_epoch l) (l_rw l) p).
Proof. intros Hl. simpl. by rewrite list_lookup_alter_eq, Hl. Qed.

Lemma forward_one i l ty body st s :
  (0 ≤ ty < 2 ^ 32)%Z → (blen body ≤ maxPacketLength)%Z →
  ready_loop i l ((inl <$> frame ty body) ++ st) s →
  ∃ s', run (one_packet i) s = Some s' ∧ ready_loop i l st s' ∧
    handled s' = handled s ++ [in_meaning ty body] ∧ reported s' = reported s.
Proof.
  intros Hty Hb (Hl & Hpc & He & Hin & k & Hk & Ho & Hst).
  destruct (agent_read_refines (c_in k)) as (r & rd & Hread & Hr).
  pose proof (agent_vs_client (stream (c_in k))) as Hv.
  rewrite Hst, read_packet_stream_frame, <- Hst, Hr in Hv by done. simplify_eq.
  unfold one_packet. cbn [run do_act]. rewrite Hl. cbn [mbind option_bind]. rewrite Hpc.
  unfold loop_read. rewrite Hk. cbn [mbind option_bind]. unfold source, consumed. rewrite Ho, Hread.
  cbn [mbind option_bind]. set (s1 := set_pc i (AtCheck _) _).
  assert (loops s1 !! i = Some (mkLoop (l_epoch l) (l_rw l) (AtCheck (Got (frame ty body)))))
    as Hl1 by (by apply set_pc_lookup).
  rewrite Hl1. cbn [mbind option_bind l_pc]. unfold loop_check. cbn [l_epoch].
  rewrite decide_False by (intros Hne; apply Hne; symmetry; exact He).
  rewrite decodeInPack_frame by done. cbn [mbind option_bind]. set (s2 := set_pc i (AtSend _) s1).
  assert (loops s2 !! i = Some (mkLoop (l_epoch l) (l_rw l) (AtSend (in_meaning ty body))))
    as Hl2 by (by apply (set_pc_lookup i _ _ s1 Hl1)).
  rewrite Hl2. cbn [mbind option_bind l_pc]. unfold loop_send.
  assert (inbox s2 = []) as Hin2 by done. rewrite Hin2, decide_True by done.
  cbn [mbind option_bind set_pc inbox app]. eexists. split; [reflexivity|].
  split; [|done]. split_and!; simpl; try done.
  - rewrite list_lookup_alter_eq. simpl in Hl2. rewrite Hl2. simpl. destruct l. simpl in *. by subst.
  - eexists. split_and!; [apply list_lookup_insert_eq; by eapply lookup_lt_Some|done..].
Qed.

(** The read loop forwards every packet, in order.  A current loop on a
    connection that delivers whole packets, cut into reads anywhere, hands
    each of them decoded to the main loop, in the order sent, with no error
    reported, and then stands at whatever follows. *)
Theorem work_forwards_in_order i l (ps : list (Z * bytes)) st s :
  Forall (λ p, (0 ≤ p.1 < 2 ^ 32)%Z ∧ (blen p.2 ≤ maxPacketLength)%Z) ps →
  ready_loop i l ((inl <$> concat ((λ p, frame p.1 p.2) <$> ps)) ++ st) s →
  ∃ s', run (concat (replicate (length ps) (one_packet i))) s = Some s' ∧
    ready_loop i l st s' ∧
    handled s' = handled s ++ ((λ p, in_meaning p.1 p.2) <$> ps) ∧ reported s' = reported s.
Proof.
  intros Hall. revert s. induction Hall as [|[ty body] ps [Hty Hb] _ IH]; intros s Hs.
  { exists s. rewrite app_nil_r. done. }
  change (ready_loop i l ((inl <$> (frame ty body ++ concat ((λ p, frame p.1 p.2) <$> ps))) ++ st) s)
    in Hs. rewrite fmap_app, <- app_assoc in Hs.
  apply forward_one in Hs as (s1 & E1 & Hs1 & Hh1 & Hr1); [|done..].
  destruct (IH s1 Hs1) as (s' & E2 & Hs' & Hh & Hr). exists s'.
  cbn [length replicate concat]. rewrite run_app, E1. simpl. split_and!; [done|done| |congruence].
  rewrite Hh, Hh1, <- app_assoc. done.
Qed.
End agent_facts.

(** ** Two interleavings *)

Definition no_events : Reader := mkReader [] [].

(** A connection whose first packet has the request magic. *)
Definition bad_conn : Reader := mkReader [] [Chunk (header req dtNoop 0)].

(** [worker.Close] between a failed read and the epoch check of the same loop. *)
Definition close_during_read : list act :=
  [ConnectBegin; ConnectDial (inl bad_conn); LoopRead 0; CloseQuit; AgentClose].
Definition redial : list act :=
  [LoopCheck 0; LoopSnapshot 0; LoopDial 0 (inl no_events); LoopCloseOld 0].

(** Closing the worker does not stop a redial.  [Close] leaves the epoch
    alone, so a loop that has just read a malformed packet passes its epoch
    check after [Close] is done, dials, and publishes a connection on the
    closed agent, which stays open with the loop reading it. *)
Theorem redial_after_close (w : GoArch) :
  ∃ s1 s2, run close_during_read init = Some s1 ∧
    quit s1 = true ∧ getConn (ag s1) = None ∧ Forall (λ k, c_open k = false) (conns s1) ∧
    run redial s1 = Some s2 ∧
    getConn (ag s2) = Some 1 ∧ c_open <$> conns s2 !! 1 = Some true ∧
    l_pc <$> loops s2 !! 0 = Some AtRead.
Proof.
  destruct w; (eexists _, _; split; [vm_compute; reflexivity|]; split_and!; try done;
    [repeat constructor|..]; vm_compute; reflexivity).
Qed.

(** One ECHO_RES whose payload contains the bytes of a NOOP packet, interrupted
    by a temporary error in front of them. *)
Definition interrupted_echo : Reader :=
  mkReader [] [Chunk (header res dtEchoRes 15 ++ str "abc"); Fail (OpError false true);
               Chunk (frame dtNoop [])].

(** A temporary error inside a packet desynchronises the worker.  [work]
    treats a temporary [*net.OpError] as harmless and reads on, but the bytes
    [read] had taken are gone: the job server sends one ECHO_RES, and the main
    loop is handed a NOOP that is part of its payload. *)
Theorem temporary_error_desyncs (w : GoArch) :
  ∃ s, run [ConnectBegin; ConnectDial (inl interrupted_echo); LoopRead 0; LoopCheck 0;
            LoopRead 0; LoopCheck 0; LoopSend 0; MainTake] init = Some s ∧
    stream interrupted_echo =
      (inl <$> header res dtEchoRes 15 ++ str "abc") ++
      inr (OpError false true) :: (inl <$> frame dtNoop []) ∧
    handled s = [mkInPack dtNoop (Some []) [] [] []] ∧ reported s = [].
Proof. destruct w; (eexists; split; [vm_compute; reflexivity|]; done). Qed.

(** ** Witnesses *)

(** Connected, the connection ended by the server, the handler told. *)
Definition disconnected : list act :=
  [ConnectBegin; ConnectDial (inl (mkReader [] [Fail EOF])); LoopRead 0; LoopCheck 0;
   LoopDisconnect 0].

Definition run_state (acts : list act) : sys := default init (run (H := W64) acts init).

Lemma one_reader_per_connection_witness :
  NoDup (l_rw <$> loops (run_state (disconnected ++ [ReconnectDial (inl no_events)]))).
Proof.
  refine (proj1 (one_reader_per_connection (H := W64) _ _)).
  exists (disconnected ++ [ReconnectDial (inl no_events)]). vm_compute. reflexivity.
Defined.

Lemma superseded_loop_stops_witness :
  let s := run_state [ConnectBegin; ConnectDial (inl (mkReader [] [Fail EOF]));
                      ReconnectDial (inl no_events); LoopRead 0] in
  do_act (H := W64) (LoopCheck 0) s = Some (set_pc 0 Stopped s).
Proof.
  cbv zeta. eapply (superseded_loop_stops (H := W64)).
  - exists [ConnectBegin; ConnectDial (inl (mkReader [] [Fail EOF]));
            ReconnectDial (inl no_events); LoopRead 0]. vm_compute. reflexivity.
  - vm_compute. reflexivity.
  - vm_compute. reflexivity.
  - vm_compute. reflexivity.
  - vm_compute. lia.
Defined.

Lemma connect_dials_once_witness :
  length (conns (run_state [ConnectBegin; ConnectDial (inr EOF); ConnectBegin;
    ConnectDial (inl no_events); ConnectBegin])) ≤ 1.
Proof.
  apply (connect_dials_once (H := W64) [ConnectBegin; ConnectDial (inr EOF); ConnectBegin;
    ConnectDial (inl no_events); ConnectBegin]).
  - repeat constructor.
  - vm_compute. reflexivity.
Defined.

Lemma reconnect_leaks_witness :
  c_open <$> conns (run_state (disconnected ++
    [ReconnectDial (inl no_events); CloseQuit; AgentClose])) !! 0 = Some true.
Proof.
  apply (reconnect_leaks (H := W64) (run_state disconnected) 0 no_events [CloseQuit; AgentClose]).
  - exists disconnected. vm_compute. reflexivity.
  - vm_compute. reflexivity.
  - vm_compute. reflexivity.
  - unfold holds. vm_compute. repeat constructor. intros [Hf|Hf]; discriminate Hf.
  - vm_compute. reflexivity.
Defined.

Lemma work_forwards_in_order_witness :
  let s := run_state [ConnectBegin; ConnectDial (inl noop_then_job)] in
  ∃ s', run (H := W64) (concat (replicate 2 (one_packet 0))) s = Some s' ∧
    ready_loop 0 (mkLoop 1 0 AtRead) [] s' ∧
    handled s' = handled s ++ [mkInPack dtNoop (Some []) [] [] [];
      mkInPack dtJobAssign (Some (str "in")) (str "H:1") [] (str "f")] ∧
    reported s' = reported s.
Proof.
  apply (work_forwards_in_order (H := W64) 0 (mkLoop 1 0 AtRead)
    [(dtNoop, []); (dtJobAssign, str "H:1" ++ x00 :: str "f" ++ x00 :: str "in")] []).
  - do 2 (constructor; [vm_compute; split_and!; congruence|]). constructor.
  - split_and!; [vm_compute; reflexivity..|].
    eexists. split_and!; vm_compute; reflexivity.
Defined.
