(* ===== verification/AgentStop.v ===== *)
(** * The read loops come to an end: worker/agent.go

    The loops of an agent move on their own only as long as there is something
    to read: a measure bounds how many steps they can take before they need a new
    packet, a dial that succeeds, or a call, whatever the main loop does
    meanwhile.  Once the worker is closed they stop. *)

From S2P Require Import Prelude GoStd Protocol ClientWire WorkerPack AgentIO Agent.
Import WC.

(** ** How much there is to read *)

Definition temporary (r : read_result) : Prop :=
  match r with Failed (OpError _ true) => True | _ => False end.

#[export] Instance temporary_dec r : Decision (temporary r).
Proof. unfold temporary. repeat case_match; apply _. Defined.

Definition progress (r : read_result) : Prop :=
  match r with Got _ => True | _ => temporary r end.

(** A read that leads to another one has used something up. *)
Lemma agent_read_stream_length s r s' :
  agent_read_stream s = (r, s') →
  length s' ≤ length s ∧ (progress r → length s' < length s).
Proof.
  unfold agent_read_stream. destruct (peek_stream 12 s) as [[hdr|e|] s1] eqn:Hp;
    pose proof (peek_stream_length _ _ _ _ Hp) as Hl; simpl in Hl.
  2: intros [= <- <-]; split; lia.
  2: intros [= <- <-]; subst; by split.
  subst s1. assert (12 ≤ length s) as H12.
  { unfold peek_stream in Hp. case_decide as Hd; [|by case_all].
    rewrite length_after_lead. lia. }
  case_decide; [by intros [= <- <-]|]. case_decide; [by intros [= <- <-]|].
  assert (length (drop 12 s) < length s) as Hd by (rewrite length_drop; lia).
  case_decide; [|intros [= <- <-]; split; lia].
  destruct (readfull_stream _ (drop 12 s)) as [[body|e|] s1] eqn:Hr; intros [= <- <-];
    pose proof (readfull_stream_length _ _ _ _ Hr) as Hl; simpl in Hl; split; simpl; lia.
Qed.

(** Reading what is left of a connection this side has closed: it always
    returns, and never a temporary error. *)
Lemma agent_read_closed b r s' :
  agent_read_stream ((inl <$> b) ++ [inr use_of_closed]) = (r, s') →
  r ≠ Blocked ∧ ¬ temporary r ∧ length (lead s') ≤ length b ∧
  (progress r → length (lead s') < length b).
Proof.
  unfold agent_read_stream. destruct (decide (12 ≤ length b)) as [Hb|Hb].
  - assert (peek_stream 12 ((inl <$> b) ++ [inr use_of_closed]) =
      (Got (take 12 b), (inl <$> b) ++ [inr use_of_closed])) as ->.
    { unfold peek_stream. rewrite lead_app. simpl. rewrite app_nil_r, decide_True by done. done. }
    case_decide; [intros [= <- <-]; rewrite lead_app, app_nil_r; simpl; split_and!; (done || lia)|].
    case_decide; [intros [= <- <-]; rewrite lead_app, app_nil_r; simpl; split_and!; (done || lia)|].
    rewrite drop_app_le, <- fmap_drop by (rewrite length_fmap; lia).
    case_decide.
    2: { intros [= <- <-]. rewrite lead_app, app_nil_r, length_drop. simpl. split_and!; (done || lia). }
    unfold readfull_stream at 1. rewrite lead_app, after_app, app_nil_r. simpl after. cbv beta iota.
    case_decide as Hl.
    + intros [= <- <-]. rewrite drop_app_le, <- fmap_drop, lead_app, app_nil_r, !length_drop
        by (rewrite length_fmap; lia). simpl. split_and!; (done || lia).
    + intros [= <- <-]. simpl. split_and!; (done || lia).
  - assert (peek_stream 12 ((inl <$> b) ++ [inr use_of_closed]) =
      (Failed use_of_closed, inl <$> b)) as ->.
    { unfold peek_stream. rewrite lead_app, after_app, app_nil_r, decide_False by done. simpl.
      by rewrite app_nil_r. }
    intros [= <- <-]. rewrite lead_inl. simpl. split_and!; (done || lia).
Qed.

(** ** The measure *)

(** What a loop can still take from a connection. *)
Definition left_in (k : conn) : nat :=
  if c_open k then length (stream (c_in k)) else length (rbuf (c_in k)).

(** How far a loop is from its next read, or from its end. *)
Definition rank (p : pc) : nat :=
  match p with
  | Stopped => 0
  | AtDisconnect _ | AtDial _ => 1
  | AtRedial => 2
  | AtCheck r => if decide (temporary r) then 5 else match r with Got _ => 7 | _ => 3 end
  | AtRead => 4
  | AtCloseOld _ => 5
  | AtSend _ => 6
  end.

Definition measure (s : sys) : nat :=
  4 * sum_list_with left_in (conns s) + sum_list_with (rank ∘ l_pc) (loops s).

(** The steps the loops take by themselves; a dial they ask for may fail at any
    time. *)
Definition internal (a : act) : Prop :=
  match a with
  | LoopRead _ | LoopCheck _ | LoopDisconnect _ | LoopSnapshot _ | LoopDial _ (inr _)
  | LoopCloseOld _ | LoopSend _ | LoopQuit _ => True
  | _ => False
  end.
#[export] Instance internal_dec a : Decision (internal a).
Proof. unfold internal. repeat case_match; apply _. Defined.

Lemma set_pc_measure i l p s :
  loops s !! i = Some l → measure (set_pc i p s) + rank (l_pc l) = measure s + rank p.
Proof.
  intros Hl. unfold measure. simpl.
  pose proof (sum_alter (rank ∘ l_pc) (λ l, mkLoop (l_epoch l) (l_rw l) p) i _ l Hl) as Hs.
  simpl in Hs. lia.
Qed.

Lemma report_measure e s : measure (report e s) = measure s.
Proof. done. Qed.

(** Closing leaves less to read. *)
Lemma close_conn_measure c s : measure (close_conn c s) ≤ measure s.
Proof.
  destruct c as [c|]; [|done]. unfold measure. simpl.
  destruct (conns s !! c) as [k|] eqn:Hk.
  - pose proof (sum_alter left_in (λ k, mkConn (c_in k) false (c_log k)) c _ k Hk) as Hs.
    assert (left_in (mkConn (c_in k) false (c_log k)) ≤ left_in k).
    { unfold left_in. simpl. destruct (c_open k); [|done]. unfold stream.
      rewrite length_app, length_fmap. lia. }
    lia.
  - rewrite list_alter_none by done. lia.
Qed.

Section stop.
Context `{GoArch}.

(** One read: it always leaves no more behind, and less when the loop will read
    again. *)
Lemma read_left k r rd :
  agent_read (source k) = Val (r, rd) →
  left_in (consumed k rd) ≤ left_in k ∧
  (progress r → left_in (consumed k rd) < left_in k) ∧
  (c_open k = false → r ≠ Blocked).
Proof.
  destruct (agent_read_refines (source k)) as (r1 & rd1 & -> & Hs). intros [= -> ->].
  unfold source, consumed, left_in in *. revert Hs. simpl. destruct (c_open k); intros Hs.
  - destruct (agent_read_stream_length _ _ _ Hs) as [Hle Hlt]. by split_and!; [|exact Hlt|].
  - unfold stream at 1 in Hs. simpl in Hs. apply agent_read_closed in Hs as (? & ? & ? & Hp).
    pose proof (rbuf_lead rd). simpl. split_and!; [lia| |done]. intros Hr. specialize (Hp Hr). lia.
Qed.

Lemma internal_measure a s s' :
  internal a → do_act a s = Some s' → measure s' < measure s.
Proof.
  assert (∀ i l p s0, loops s0 !! i = Some l → rank p < rank (l_pc l) → measure s0 ≤ measure s →
    measure (set_pc i p s0) < measure s) as Hset.
  { intros i l p s0 Hl Hr Hm. pose proof (set_pc_measure i l p s0 Hl). lia. }
  intros Hint Ha. destruct a as [|d|d|c ev|i|i|i|i|i [rd|e]|i|i|i| | |]; try done; simpl in Ha.
  1-8: destruct (loops s !! i) as [l|] eqn:Hl; [|done]; simpl in Ha;
    destruct (l_pc l) as [|r|er| |old|old|p|] eqn:Hpc; try done.
  - unfold loop_read in Ha. destruct (conns s !! l_rw l) as [k|] eqn:Hk; [|done]. simpl in Ha.
    destruct (agent_read (source k)) as [[r rd]|] eqn:Hr.
    2: { injection Ha as <-. eapply (Hset i l); [done|rewrite Hpc; simpl; lia|done]. }
    destruct (read_left _ _ _ Hr) as (Hle & Hlt & _).
    pose proof (sum_insert left_in _ _ _ (consumed k rd) Hk) as Hsum.
    assert (measure s' + rank (l_pc l) + 4 * left_in k =
            measure s + rank (AtCheck r) + 4 * left_in (consumed k rd)) as Hm.
    { destruct r; [..|done]; injection Ha as <-;
        (match goal with |- measure (set_pc i ?p ?s1) + _ + _ = _ =>
           pose proof (set_pc_measure i l p s1 Hl) end);
        unfold measure in *; simpl in *; lia. }
    rewrite Hpc in Hm. unfold rank in Hm. destruct (decide (temporary r)) as [Ht|Ht].
    + assert (progress r) as Hp by by destruct r. specialize (Hlt Hp). lia.
    + destruct r; [specialize (Hlt I)|..]; lia.
  - unfold loop_check in Ha. case_decide.
    { injection Ha as <-. eapply (Hset i l); [done| |done]. rewrite Hpc. simpl. repeat case_match; lia. }
    assert (∀ p s0, loops s0 = loops s → measure s0 = measure s → rank p < rank (l_pc l) →
      Some (set_pc i p s0) = Some s' → measure s' < measure s) as Hgo.
    { intros p s0 E1 E2 Hr [= <-]. eapply (Hset i l); [by rewrite E1|done|lia]. }
    rewrite Hpc in Hgo. destruct r as [d|[| |t [|]| |]|].
    + destruct (decodeInPack d) as [[[[p|] ?] [e|]]|]; (eapply Hgo; [..|exact Ha]; simpl; (done || lia)).
    + case_decide; (eapply Hgo; [..|exact Ha]; simpl; (done || lia)).
    + case_decide; (eapply Hgo; [..|exact Ha]; simpl; (done || lia)).
    + eapply Hgo; [..|exact Ha]; simpl; (done || lia).
    + eapply Hgo; [..|exact Ha]; simpl; (done || lia).
    + case_decide; (eapply Hgo; [..|exact Ha]; simpl; (done || lia)).
    + case_decide; (eapply Hgo; [..|exact Ha]; simpl; (done || lia)).
    + done.
  - injection Ha as <-. unfold disconnect_error. destruct (getConn (ag s));
      (eapply (Hset i l); [done|rewrite Hpc; simpl; lia|done]).
  - injection Ha as <-. eapply (Hset i l); [done|rewrite Hpc; simpl; lia|done].
  - injection Ha as <-. unfold loop_dial. eapply (Hset i l).
    + destruct old; done.
    + rewrite Hpc. simpl. lia.
    + etrans; [apply close_conn_measure|done].
  - injection Ha as <-. eapply (Hset i l).
    + destruct old; done.
    + rewrite Hpc. simpl. lia.
    + apply close_conn_measure.
  - unfold loop_send in Ha. case_decide; [|done]. injection Ha as <-.
    match goal with |- measure (set_pc i ?p ?s1) < _ => pose proof (set_pc_measure i l p s1 Hl) as Hm end.
    rewrite Hpc in Hm. unfold measure in *. cbn [conns loops rank set_pc] in *. lia.
  - destruct (quit s); [|done]. injection Ha as <-. eapply (Hset i l); [done|rewrite Hpc; simpl; lia|done].
Qed.

Lemma internal_run acts s s' :
  Forall (λ a, internal a ∨ a = MainTake) acts → run acts s = Some s' →
  length (filter internal acts) + measure s' ≤ measure s.
Proof.
  intros Hall. revert s. induction Hall as [|a acts Ha _ IH]; intros s Hr; simpl in Hr.
  { simplify_eq. simpl. lia. }
  destruct (do_act a s) as [s1|] eqn:E; [|done]. simpl in Hr. specialize (IH _ Hr).
  rewrite filter_cons. destruct (decide (internal a)) as [Hi|Hn].
  - apply internal_measure in E; [|done]. simpl. lia.
  - destruct Ha as [?| ->]; [done|]. simpl in E. destruct (inbox s); [done|]. by injection E as <-.
Qed.

(** A loop has a result to check only when its read has returned. *)
Definition returned (s : sys) : Prop := Forall (λ l, l_pc l ≠ AtCheck Blocked) (loops s).

Lemma returned_set_pc i p s : returned s → p ≠ AtCheck Blocked → returned (set_pc i p s).
Proof. intros Hs Hp. apply Forall_alter; [exact Hs|]. by intros l _. Qed.

Lemma do_act_returned a s s' : returned s → do_act a s = Some s' → returned s'.
Proof.
  intros Hs Ha.
  assert (∀ i p s0, loops s0 = loops s → p ≠ AtCheck Blocked → returned (set_pc i p s0)) as Hset.
  { intros i p s0 E Hp. apply returned_set_pc; [|done]. unfold returned. by rewrite E. }
  assert (∀ e c s0, loops s0 = loops s → returned (spawn e c s0)) as Hspawn.
  { intros e c s0 E. apply Forall_app. rewrite E. split; [exact Hs|]. by repeat constructor. }
  assert (∀ rd s1 e c, publish rd s = (s1, e, c) → loops s1 = loops s) as Hpub.
  { intros rd s1 e c Hp. unfold publish in Hp. simpl in Hp. by simplify_eq. }
  destruct a; simpl in Ha.
  - unfold connect_begin in Ha. case_all; done.
  - unfold connect_dial in Ha. case_all; [apply Hspawn; simpl; eauto|done].
  - unfold reconnect_dial in Ha. case_all; [apply Hspawn; simpl; eauto|done].
  - destruct (conns s !! c); simplify_eq/=. exact Hs.
  - destruct (loops s !! i) as [l|]; [|done]. simpl in Ha. destruct (l_pc l); try done.
    unfold loop_read in Ha. destruct (conns s !! l_rw l); [|done]. simpl in Ha.
    destruct (agent_read _) as [[[] ?]|]; simplify_eq; by apply Hset.
  - destruct (loops s !! i) as [l|]; [|done]. simpl in Ha. destruct (l_pc l); try done.
    unfold loop_check in Ha. case_all; by apply Hset.
  - destruct (loops s !! i) as [l|]; [|done]. simpl in Ha. destruct (l_pc l); try done.
    injection Ha as <-. unfold disconnect_error. apply Hset; [|done]. by destruct (getConn (ag s)).
  - destruct (loops s !! i) as [l|]; [|done]. simpl in Ha. destruct (l_pc l); simplify_eq. by apply Hset.
  - destruct (loops s !! i) as [l|]; [|done]. simpl in Ha. destruct (l_pc l); simplify_eq.
    unfold loop_dial. destruct d as [rd|e].
    + apply Forall_insert; [exact Hs|done].
    + apply Hset; [|done]. by destruct old.
  - destruct (loops s !! i) as [l|]; [|done]. simpl in Ha. destruct (l_pc l); simplify_eq.
    apply Hset; [|done]. by destruct old.
  - destruct (loops s !! i) as [l|]; [|done]. simpl in Ha. destruct (l_pc l); try done.
    unfold loop_send in Ha. case_decide; simplify_eq. by apply Hset.
  - destruct (loops s !! i) as [l|]; [|done]. simpl in Ha. destruct (l_pc l); try done.
    destruct (quit s); simplify_eq. by apply Hset.
  - destruct (inbox s); simplify_eq. exact Hs.
  - simplify_eq. exact Hs.
  - simplify_eq. unfold agent_close. by destruct (a_conn (ag s)).
Qed.

(** A loop that cannot move: it has returned, it waits for the server on a
    connection that is open, or for room in the channel of a worker that is not
    closed. *)
Definition at_rest (s : sys) (l : loop) : Prop :=
  l_pc l = Stopped ∨
  (l_pc l = AtRead ∧ ∃ k rd, conns s !! l_rw l = Some k ∧ c_open k = true ∧
     agent_read (c_in k) = Val (Blocked, rd)) ∨
  ((∃ p, l_pc l = AtSend p) ∧ quit s = false ∧ (queueSize ≤ Z.of_nat (length (inbox s)))%Z).

Lemma stuck_at_rest s i l :
  inv s → returned s → (∀ a, internal a → do_act a s = None) →
  loops s !! i = Some l → at_rest s l.
Proof.
  intros [_ _ _ I4 _] Hret Hstuck Hl. unfold at_rest.
  destruct (l_pc l) as [|r|e| |old|old|p|] eqn:Hpc; [|exfalso..| |by left].
  - right; left. split; [done|]. specialize (Hstuck (LoopRead i) I). simpl in Hstuck.
    rewrite Hl in Hstuck. simpl in Hstuck. rewrite Hpc in Hstuck. unfold loop_read in Hstuck.
    destruct (Forall_lookup_1 _ _ _ _ I4 Hl) as [Hlt _].
    apply lookup_lt_is_Some_2 in Hlt as [k Hk]. rewrite Hk in Hstuck. simpl in Hstuck.
    destruct (agent_read (source k)) as [[r rd]|] eqn:Hr; [|done].
    pose proof (read_left _ _ _ Hr) as (_ & _ & Hb). destruct r; [done..|].
    exists k, rd. unfold source in Hr. destruct (c_open k); [done|by destruct (Hb eq_refl)].
  - specialize (Hstuck (LoopCheck i) I). simpl in Hstuck. rewrite Hl in Hstuck. simpl in Hstuck.
    rewrite Hpc in Hstuck. unfold loop_check in Hstuck. case_decide; [done|].
    assert (r ≠ Blocked) as Hr.
    { intros ->. by apply (Forall_lookup_1 _ _ _ _ Hret Hl). }
    case_all; done.
  - specialize (Hstuck (LoopDisconnect i) I). simpl in Hstuck. rewrite Hl in Hstuck. simpl in Hstuck.
    by rewrite Hpc in Hstuck.
  - specialize (Hstuck (LoopSnapshot i) I). simpl in Hstuck. rewrite Hl in Hstuck. simpl in Hstuck.
    by rewrite Hpc in Hstuck.
  - specialize (Hstuck (LoopDial i (inr EOF)) I). simpl in Hstuck. rewrite Hl in Hstuck.
    simpl in Hstuck. by rewrite Hpc in Hstuck.
  - specialize (Hstuck (LoopCloseOld i) I). simpl in Hstuck. rewrite Hl in Hstuck. simpl in Hstuck.
    by rewrite Hpc in Hstuck.
  - right; right. split; [by exists p|].
    pose proof (Hstuck (LoopQuit i) I) as Hq. simpl in Hq. rewrite Hl in Hq. simpl in Hq.
    rewrite Hpc in Hq. pose proof (Hstuck (LoopSend i) I) as Hs. simpl in Hs. rewrite Hl in Hs.
    simpl in Hs. rewrite Hpc in Hs. unfold loop_send in Hs. case_decide; [done|].
    destruct (quit s); [done|]. split; [done|lia].
Qed.

(** C13: the read loops terminate.  From any reachable state of an agent, however
    its loops are scheduled and whenever - or whether at all - the main loop
    receives from the channel in between, the loops take at most [measure] steps -
    reads, checks, error reports, failed redials, hand-overs - before they need a
    new packet, a successful dial or a call from outside.  When none of them can
    move, every loop has returned, waits for the server on an open connection, or
    waits for room in the full channel of a worker that is not closed; so once
    [quit] is closed every loop whose connection has been closed has returned,
    even if nobody receives from the channel any more. *)
Theorem loops_terminate s acts s' :
  reachable s → Forall (λ a, internal a ∨ a = MainTake) acts → run acts s = Some s' →
  length (filter internal acts) ≤ measure s ∧
  ((∀ a, internal a → do_act a s' = None) →
   (∀ i l, loops s' !! i = Some l → at_rest s' l) ∧
   (quit s' = true → ∀ i l k, loops s' !! i = Some l → conns s' !! l_rw l = Some k →
      c_open k = false → l_pc l = Stopped)).
Proof.
  intros [acts0 Hr0] Hint Hr. split; [apply internal_run in Hr; [lia|done]|]. intros Hstuck.
  assert (returned s') as Hret.
  { eapply run_ind; [eauto using do_act_returned| |exact Hr].
    eapply run_ind; [eauto using do_act_returned| |exact Hr0]. constructor. }
  assert (inv s') as Hinv.
  { eapply run_ind; [eauto using do_act_inv| |exact Hr].
    eapply run_ind; [eauto using do_act_inv| |exact Hr0]. apply init_inv. }
  assert (∀ i l, loops s' !! i = Some l → at_rest s' l) as Hrest by eauto using stuck_at_rest.
  split; [done|]. intros Hq i l k Hl Hk Ho.
  destruct (Hrest _ _ Hl) as [?|[(_ & k' & rd & Hk' & Ho' & _)|(_ & Hq' & _)]]; [done|congruence..].
Qed.
End stop.

(** ** Witness *)

(** A packet and a half when the worker is closed; nobody receives. *)
Definition closing : list act :=
  [ConnectBegin; ConnectDial (inl (mkReader [] [Chunk (frame dtNoop [] ++ str "half")]));
   LoopRead 0; CloseQuit; AgentClose].

Lemma loops_terminate_witness :
  let acts := [LoopCheck 0; LoopSend 0; LoopRead 0; LoopCheck 0; LoopDisconnect 0] in
  let s' := run_state (closing ++ acts) in
  length acts ≤ measure (run_state closing) ∧ l_pc <$> loops s' !! 0 = Some Stopped ∧
  length (inbox s') = 1.
Proof.
  intros acts s'. split_and!; [|vm_compute; reflexivity..].
  refine (proj1 (loops_terminate (H := W64) (run_state closing) acts s' _ _ _)).
  - exists closing. vm_compute. reflexivity.
  - repeat constructor.
  - vm_compute. reflexivity.
Defined.
