(* ===== verification/AgentDelivery.v ===== *)
(** * What a read loop hands on: [work] of worker/agent.go

    Everything that arrives on a connection is read off it packet by packet and
    sent to the main loop.  [takes] says what reading a stream gives; the
    invariant follows each connection from what has arrived on it ([c_log]) to
    what its loop has sent, through every interleaving of loops, redials,
    reconnects, network events and [Close].  Nothing is left out but the packet
    a loop has in its hand, or had when the worker was closed or its connection
    replaced. *)

From S2P Require Import Prelude GoStd Protocol ClientWire WorkerPack AgentIO Agent AgentStop.
Import WC.

(** ** Streams that grow *)

Lemma lead_grow D E : ∃ x, lead (D ++ E) = lead D ++ x.
Proof.
  induction D as [|[b|e] D [x IH]]; simpl; [by eexists| |by exists []]. exists x. by rewrite IH.
Qed.

Lemma after_grow D E e s : after D = inr e :: s → lead (D ++ E) = lead D ∧ after (D ++ E) = inr e :: s ++ E.
Proof.
  induction D as [|[b|e'] D IH]; simpl; intros Ha; [done| |by simplify_eq].
  destruct (IH Ha) as [-> ->]. done.
Qed.

Lemma after_error D : after D = [] ∨ ∃ e s, after D = inr e :: s.
Proof. induction D as [|[b|e] D IH]; simpl; eauto. Qed.

Lemma length_lead D : length (lead D) ≤ length D.
Proof. induction D as [|[b|e] D IH]; simpl; lia. Qed.

(** A read that has returned would have returned the same, had more been there. *)
Lemma peek_grow n D E r D' :
  peek_stream n D = (r, D') → r ≠ Blocked → peek_stream n (D ++ E) = (r, D' ++ E).
Proof.
  unfold peek_stream. intros Hp Hr. destruct (decide (n ≤ length (lead D))) as [Hn|Hn].
  - injection Hp as <- <-. destruct (lead_grow D E) as [x ->].
    rewrite decide_True by (rewrite length_app; lia). by rewrite take_app_le.
  - destruct (after_error D) as [Ha|(e & s & Ha)]; rewrite Ha in Hp; injection Hp as <- <-; [done|].
    destruct (after_grow D E e s Ha) as [-> ->]. rewrite decide_False by done.
    by rewrite <- (assoc_L app).
Qed.

Lemma readfull_grow n D E r D' :
  readfull_stream n D = (r, D') → r ≠ Blocked → readfull_stream n (D ++ E) = (r, D' ++ E).
Proof.
  unfold readfull_stream. intros Hp Hr. destruct (decide (n ≤ length (lead D))) as [Hn|Hn].
  - injection Hp as <- <-. destruct (lead_grow D E) as [x ->].
    rewrite decide_True by (rewrite length_app; lia). rewrite take_app_le by done.
    pose proof (length_lead D). by rewrite drop_app_le by lia.
  - destruct (after_error D) as [Ha|(e & s & Ha)]; rewrite Ha in Hp; injection Hp as <- <-; [done|].
    destruct (after_grow D E e s Ha) as [-> ->]. by rewrite decide_False by done.
Qed.

Lemma agent_read_grow D E r D' :
  agent_read_stream D = (r, D') → r ≠ Blocked → agent_read_stream (D ++ E) = (r, D' ++ E).
Proof.
  unfold agent_read_stream. destruct (peek_stream 12 D) as [[hdr|e|] s] eqn:Hp.
  - rewrite (peek_grow _ _ E _ _ Hp) by done. pose proof (peek_stream_length _ _ _ _ Hp) as ->.
    assert (12 ≤ length D) as H12.
    { unfold peek_stream in Hp. case_decide as Hd; [|by case_all]. pose proof (length_lead D). lia. }
    cbv zeta. case_decide; [by intros [= <- <-]|]. case_decide; [by intros [= <- <-]|].
    case_decide; [|intros [= <- <-]; by rewrite drop_app_le].
    rewrite drop_app_le by done.
    destruct (readfull_stream _ (drop 12 D)) as [rb sb] eqn:Hb. intros Hr Hne.
    rewrite (readfull_grow _ _ E _ _ Hb) by (intros ->; congruence).
    destruct rb; by simplify_eq.
  - intros [= <- <-] _. by rewrite (peek_grow _ _ E _ _ Hp).
  - by intros [= <- <-].
Qed.

(** A packet read off what is buffered does not depend on what follows. *)
Lemma agent_read_buffered b e d s' :
  agent_read_stream ((inl <$> b) ++ [inr e]) = (Got d, s') →
  ∃ b', s' = (inl <$> b') ++ [inr e] ∧
    ∀ E, agent_read_stream ((inl <$> b) ++ E) = (Got d, (inl <$> b') ++ E).
Proof.
  intros Hr.
  assert (∃ b', agent_read_stream (inl <$> b) = (Got d, inl <$> b')) as [b' Hb].
  { revert Hr. unfold agent_read_stream, peek_stream. rewrite lead_app, lead_inl, after_app, after_inl.
    simpl after. rewrite app_nil_r. case_decide as Hn; [|done]. cbv zeta.
    case_decide; [done|]. case_decide; [done|].
    rewrite drop_app_le, <- fmap_drop by (rewrite length_fmap; lia).
    case_decide; [|intros [= <- _]; by eexists].
    unfold readfull_stream. rewrite lead_app, lead_inl, after_app, after_inl. simpl after.
    rewrite app_nil_r. case_decide; [|done]. intros [= <- _].
    rewrite <- fmap_drop. by eexists. }
  exists b'. rewrite (agent_read_grow _ [inr e] _ _ Hb) in Hr by done. simplify_eq.
  split; [done|]. intros E. by rewrite (agent_read_grow _ E _ _ Hb).
Qed.

(** ** What reading a stream gives *)

(** Packets of several connections in the order they were sent to the channel:
    each list in order, mixed in any way. *)
Inductive interleaving {A} : list (list A) → list A → Prop :=
| il_none : interleaving [] []
| il_new ls xs : interleaving ls xs → interleaving (ls ++ [[]]) xs
| il_next ls c l x xs :
    interleaving ls xs → ls !! c = Some l → interleaving (<[c := l ++ [x]]> ls) (xs ++ [x]).

Section delivery.
Context `{GoArch}.

(** The packet in what a read has returned, unless it cannot be decoded. *)
Definition packet_of (data : bytes) : option inPack :=
  match decodeInPack data with Val (Some p, _, None) => Some p | _ => None end.

(** Reading the stream [D] packet by packet, past temporary errors and packets
    that cannot be decoded, gives [ps] and leaves the rest. *)
Inductive takes : list (byte + error) → list inPack → list (byte + error) → Prop :=
| takes_none D : takes D [] D
| takes_packet D data D1 ps D2 :
    agent_read_stream D = (Got data, D1) → takes D1 ps D2 →
    takes D (option_list (packet_of data) ++ ps) D2
| takes_temporary D e D1 ps D2 :
    agent_read_stream D = (Failed e, D1) → temporary (Failed e) → takes D1 ps D2 → takes D ps D2.

Lemma takes_grow D ps D' E : takes D ps D' → takes (D ++ E) ps (D' ++ E).
Proof.
  induction 1 as [|D data D1 ps D2 Hr _ IH|D e D1 ps D2 Hr Ht _ IH]; [constructor|..].
  - eapply takes_packet; [by apply agent_read_grow|exact IH].
  - eapply takes_temporary; [by apply agent_read_grow|done|exact IH].
Qed.

Lemma takes_next D ps D1 data D2 :
  takes D ps D1 → agent_read_stream D1 = (Got data, D2) →
  takes D (ps ++ option_list (packet_of data)) D2.
Proof.
  induction 1 as [D|D d D1 ps D3 Hr _ IH|D e D1 ps D3 Hr Ht _ IH]; intros Hd.
  - rewrite <- (app_nil_r ([] ++ _)). simpl. eapply takes_packet; [exact Hd|constructor].
  - rewrite <- (assoc_L app). eapply takes_packet; eauto.
  - eapply takes_temporary; eauto.
Qed.

Lemma takes_past D ps D1 e D2 :
  takes D ps D1 → agent_read_stream D1 = (Failed e, D2) → temporary (Failed e) → takes D ps D2.
Proof.
  induction 1 as [D|D d D1 ps D3 Hr _ IH|D e' D1 ps D3 Hr Ht _ IH]; intros Hd He.
  - eapply takes_temporary; [exact Hd|done|constructor].
  - eapply takes_packet; eauto.
  - eapply takes_temporary; eauto.
Qed.

(** ** One read of a connection *)

Lemma fill_rest n buf conn : ∃ m, (fill n buf conn).2 = drop m conn.
Proof.
  revert buf. induction conn as [|[c|e] conn IH]; intros buf; simpl; case_decide; try (by exists 0).
  - destruct (IH (buf ++ c)) as [m Hm]. by exists (S m).
  - by exists 1.
Qed.

Lemma agent_read_rest rw r rw' : agent_read rw = Val (r, rw') → ∃ m, rconn rw' = drop m (rconn rw).
Proof.
  unfold agent_read, Peek. destruct (fill_rest (Z.to_nat minPacketLength) (rbuf rw) (rconn rw)) as [m Hm].
  destruct (fill _ (rbuf rw) _) as [[[|e|] buf] conn]; simpl in Hm; subst conn.
  2-3: intros [= <- <-]; by exists m.
  rewrite outcome_bind_Val. intros (mw & _ & E). rewrite outcome_bind_Val in E. destruct E as (g & _ & E).
  case_decide; [injection E as <- <-; by exists m|].
  rewrite outcome_bind_Val in E. destruct E as (lw & _ & E). rewrite outcome_bind_Val in E.
  destruct E as (bl & _ & E). case_decide; [injection E as <- <-; by exists m|].
  rewrite outcome_bind_Val in E. destruct E as (d & _ & E). rewrite outcome_bind_Val in E.
  destruct E as ([d1 n1] & _ & E). cbv zeta in E.
  case_decide; [|injection E as <- <-; by exists m]. unfold ReadFull, Discard in E. simpl in E.
  destruct (fill_rest (Z.to_nat (blen d1 - minPacketLength)) (drop (Z.to_nat minPacketLength) buf)
    (drop m (rconn rw))) as [m2 Hm2].
  destruct (fill _ (drop _ buf) _) as [[[|e|] buf2] conn2]; simpl in Hm2; subst conn2; rewrite drop_drop in E.
  - rewrite outcome_bind_Val in E. destruct E as ([d2 n2] & _ & [= <- <-]). by eexists.
  - injection E as <- <-. by eexists.
  - injection E as <- <-. by eexists.
Qed.

Lemma inl_error_inj (b b' : bytes) (e : error) :
  (inl <$> b) ++ [inr e] = (inl <$> b') ++ [inr e] → b = b'.
Proof. intros E. apply (f_equal lead) in E. by rewrite !lead_app, !app_nil_r in E. Qed.

(** Whatever the read returns, a packet or a temporary error has been taken off
    the front of what the connection had to offer, also on one this side has
    closed. *)
Lemma read_conn k r rd :
  agent_read (source k) = Val (r, rd) →
  (∀ d, r = Got d → agent_read_stream (stream (c_in k)) = (r, stream (c_in (consumed k rd)))) ∧
  (temporary r → agent_read_stream (stream (c_in k)) = (r, stream (c_in (consumed k rd)))).
Proof.
  intros Hr. pose proof (agent_read_rest _ _ _ Hr) as [m Hm].
  destruct (agent_read_refines (source k)) as (r1 & rd1 & E & Hs). rewrite Hr in E. injection E as <- <-.
  unfold source, consumed in *. destruct (c_open k); simpl in *; [by split|].
  unfold stream at 1 in Hs. simpl in Hs. split.
  - intros d ->. destruct (agent_read_buffered _ _ _ _ Hs) as (b' & Hb & HE).
    assert (rbuf rd = b') as Hrb.
    { destruct rd as [rb rc]. simpl in Hm. unfold stream in Hb. simpl in Hb.
      destruct m as [|m]; simpl in Hm; subst rc; simpl in Hb.
      - by apply inl_error_inj in Hb.
      - rewrite drop_nil in Hb. simpl in Hb. rewrite app_nil_r in Hb.
        apply (f_equal after) in Hb. by rewrite after_inl, after_app in Hb. }
    unfold stream. simpl. rewrite Hrb. apply HE.
  - intros Ht. by apply agent_read_closed in Hs as (_ & Hnt & _).
Qed.

(** ** Where a connection stands

    [sent] is what has been handed on from connection [c], one of [n]; [q] is
    whether the worker has been closed. *)

(** All of it that was read, but for one packet dropped because the worker was
    closed or the connection replaced. *)
Definition loose (q : bool) (n c : nat) (k : conn) (sent : list inPack) : Prop :=
  ∃ hand rest, takes (c_log k) (sent ++ hand) rest ∧
    (hand = [] ∨ (∃ p, hand = [p]) ∧ (q = true ∨ S c < n)).

Definition stands (q : bool) (n c : nat) (p : pc) (k : conn) (sent : list inPack) : Prop :=
  match p with
  | AtRead | AtCloseOld _ => takes (c_log k) sent (stream (c_in k))
  | AtCheck (Got d) =>
      ∃ D, takes (c_log k) sent D ∧ agent_read_stream D = (Got d, stream (c_in k))
  | AtCheck r =>
      if decide (temporary r) then takes (c_log k) sent (stream (c_in k))
      else ∃ rest, takes (c_log k) sent rest
  | AtSend x => takes (c_log k) (sent ++ [x]) (stream (c_in k))
  | AtDisconnect _ | AtRedial | AtDial _ => ∃ rest, takes (c_log k) sent rest
  | Stopped => loose q n c k sent
  end.

Definition delivery (q : bool) (cs : list conn) (ls : list loop) (xs : list inPack) : Prop :=
  ∃ sents, length sents = length cs ∧ interleaving sents xs ∧
    ∀ c k sent, cs !! c = Some k → sents !! c = Some sent →
      (∀ i l, ls !! i = Some l → l_rw l = c → stands q (length cs) c (l_pc l) k sent) ∧
      ((∀ i l, ls !! i = Some l → l_rw l ≠ c) → loose q (length cs) c k sent).

Lemma loose_mono (q q' : bool) n n' c k k' sent E :
  (q = true → q' = true) → n ≤ n' → c_log k' = c_log k ++ E →
  loose q n c k sent → loose q' n' c k' sent.
Proof.
  intros Hq Hn Hk (hand & rest & Ht & Hh). exists hand, (rest ++ E). rewrite Hk.
  split; [by apply takes_grow|]. destruct Hh as [?|[? [?|?]]]; [by left|right..]; (split; [done|]).
  - left. auto.
  - right. lia.
Qed.

Lemma takes_loose q n c k sent rest : takes (c_log k) sent rest → loose q n c k sent.
Proof. intros Ht. exists [], rest. rewrite app_nil_r. auto. Qed.

Lemma stands_mono (q q' : bool) n n' c p k k' sent E :
  (q = true → q' = true) → n ≤ n' → c_log k' = c_log k ++ E →
  stream (c_in k') = stream (c_in k) ++ E → stands q n c p k sent → stands q' n' c p k' sent.
Proof.
  intros Hq Hn Hk Hs.
  assert (∀ ps, takes (c_log k) ps (stream (c_in k)) → takes (c_log k') ps (stream (c_in k'))) as Ht
    by (intros ps ?; rewrite Hk, Hs; by apply takes_grow).
  assert ((∃ rest, takes (c_log k) sent rest) → ∃ rest, takes (c_log k') sent rest) as He
    by (intros [rest ?]; exists (rest ++ E); rewrite Hk; by apply takes_grow).
  destruct p as [|[d|e|]| | | | | |]; simpl; auto.
  - intros (D & HD & Hr). exists (D ++ E). rewrite Hk, Hs.
    split; [by apply takes_grow|by apply agent_read_grow].
  - case_match; auto.
  - by eapply loose_mono.
Qed.

(** Loop [i] has moved on, and its connection and what was sent from it. *)
Lemma delivery_move q cs ls xs xs' i l k k' p g :
  NoDup (l_rw <$> ls) → ls !! i = Some l → cs !! l_rw l = Some k →
  (∀ sents sent, interleaving sents xs → sents !! l_rw l = Some sent →
     interleaving (<[l_rw l := g sent]> sents) xs') →
  (∀ sent, stands q (length cs) (l_rw l) (l_pc l) k sent →
     stands q (length cs) (l_rw l) p k' (g sent)) →
  delivery q cs ls xs →
  delivery q (<[l_rw l := k']> cs) (alter (λ l, mkLoop (l_epoch l) (l_rw l) p) i ls) xs'.
Proof.
  intros Hnd Hl Hk Hxs Hst (sents & Hlen & Hil & Hall).
  assert (∃ sent0, sents !! l_rw l = Some sent0) as [sent0 Hs0].
  { apply lookup_lt_is_Some_2. rewrite Hlen. by eapply lookup_lt_Some. }
  exists (<[l_rw l := g sent0]> sents). rewrite !length_insert.
  split_and!; [done|by apply Hxs|]. intros c kc sent Hc Hs.
  assert (∀ j l', alter (λ l, mkLoop (l_epoch l) (l_rw l) p) i ls !! j = Some l' →
    ∃ l0, ls !! j = Some l0 ∧ l_rw l' = l_rw l0 ∧ (j = i ∧ l_pc l' = p ∨ j ≠ i ∧ l_pc l' = l_pc l0)) as Hlk.
  { intros j l' Hj. rewrite list_lookup_alter in Hj. case_decide; [subst j|by exists l'; auto].
    rewrite Hl in Hj. injection Hj as <-. exists l. by auto. }
  assert (∀ j l0, ls !! j = Some l0 → l_rw l0 = l_rw l → j = i) as Hown.
  { intros j l0 Hj Hrw. eapply (NoDup_lookup (l_rw <$> ls)); [done|..];
      rewrite list_lookup_fmap, ?Hj, ?Hl; simpl; [by rewrite Hrw|done]. }
  destruct (decide (c = l_rw l)) as [->|Hne].
  - rewrite list_lookup_insert_eq in Hc by by eapply lookup_lt_Some. injection Hc as <-.
    rewrite list_lookup_insert_eq in Hs by by eapply lookup_lt_Some. injection Hs as <-.
    destruct (Hall _ _ _ Hk Hs0) as [H1 _]. split.
    + intros j l' (l0 & Hj & E & Hp)%Hlk Hrw. rewrite E in Hrw.
      pose proof (Hown _ _ Hj Hrw) as ->. destruct Hp as [[_ ->]|[? _]]; [|done].
      apply Hst. by eapply H1.
    + intros Hno. exfalso. apply (Hno i (mkLoop (l_epoch l) (l_rw l) p)); [|done].
      rewrite list_lookup_alter. by rewrite decide_True, Hl.
  - rewrite list_lookup_insert_ne in Hc by done. rewrite list_lookup_insert_ne in Hs by done.
    destruct (Hall _ _ _ Hc Hs) as [H1 H2]. split.
    + intros j l' (l0 & Hj & E & Hp)%Hlk Hrw. destruct Hp as [[-> _]|[_ ->]].
      * congruence.
      * eapply H1; [exact Hj|congruence].
    + intros Hno. apply H2. intros j l0 Hj Hrw. destruct (decide (j = i)) as [->|Hji].
      * eapply (Hno i); [rewrite list_lookup_alter, decide_True, Hj by done; reflexivity|done].
      * eapply (Hno j); [rewrite list_lookup_alter, decide_False by done; exact Hj|done].
Qed.

Lemma delivery_loop q cs ls xs i l k k' p :
  NoDup (l_rw <$> ls) → ls !! i = Some l → cs !! l_rw l = Some k →
  (∀ sent, stands q (length cs) (l_rw l) (l_pc l) k sent →
     stands q (length cs) (l_rw l) p k' sent) →
  delivery q cs ls xs →
  delivery q (<[l_rw l := k']> cs) (alter (λ l, mkLoop (l_epoch l) (l_rw l) p) i ls) xs.
Proof.
  intros Hnd Hl Hk Hst. apply (delivery_move q cs ls xs xs i l k k' p id); try done.
  intros sents sent Hil Hs. simpl. by rewrite list_insert_id.
Qed.

(** ... without reading. *)
Lemma delivery_pc q cs ls xs i l p :
  NoDup (l_rw <$> ls) → ls !! i = Some l → l_rw l < length cs →
  (∀ k sent, cs !! l_rw l = Some k → stands q (length cs) (l_rw l) (l_pc l) k sent →
     stands q (length cs) (l_rw l) p k sent) →
  delivery q cs ls xs → delivery q cs (alter (λ l, mkLoop (l_epoch l) (l_rw l) p) i ls) xs.
Proof.
  intros Hnd Hl [k Hk]%lookup_lt_is_Some_2 Hst Hd.
  rewrite <- (list_insert_id cs (l_rw l) k Hk). eapply delivery_loop; eauto.
Qed.

(** More has arrived, a connection is closed, the worker is closed. *)
Lemma delivery_conns (q q' : bool) cs cs' ls xs :
  (q = true → q' = true) → length cs' = length cs →
  (∀ c k', cs' !! c = Some k' → ∃ k E, cs !! c = Some k ∧ c_log k' = c_log k ++ E ∧
     stream (c_in k') = stream (c_in k) ++ E) →
  delivery q cs ls xs → delivery q' cs' ls xs.
Proof.
  intros Hq Hn Hcs (sents & Hlen & Hil & Hall). exists sents. rewrite Hn. split_and!; [done..|].
  intros c k' sent (k & E & Hk & E1 & E2)%Hcs Hs. destruct (Hall _ _ _ Hk Hs) as [H1 H2]. split.
  - intros i l Hl Hrw. by eapply stands_mono; [exact Hq| |exact E1|exact E2|eapply H1].
  - intros Hno. by eapply loose_mono; [exact Hq| |exact E1|apply H2].
Qed.

(** A new connection, with a loop of its own: a new one, or one that has left
    its connection. *)
Lemma delivery_publish q cs ls ls' xs rd e p :
  p = AtRead ∨ (∃ old, p = AtCloseOld old) →
  Forall (λ l, l_rw l < length cs) ls →
  (ls' = ls ++ [mkLoop e (length cs) p] ∨
   ∃ i l, ls !! i = Some l ∧ (∃ old, l_pc l = AtDial old) ∧ ls' = <[i := mkLoop e (length cs) p]> ls) →
  delivery q cs ls xs → delivery q (cs ++ [mkConn rd true (stream rd)]) ls' xs.
Proof.
  intros Hp Hlt Hls (sents & Hlen & Hil & Hall). exists (sents ++ [[]]). rewrite !length_app. simpl.
  split_and!; [lia|by constructor|]. intros c k sent Hc Hs.
  assert (∀ j l', ls' !! j = Some l' → l' = mkLoop e (length cs) p ∨ ls !! j = Some l') as Hold.
  { intros j l' Hj. destruct Hls as [-> |(i & l & Hi & _ & ->)].
    - apply lookup_app_Some in Hj as [?|[_ Hj]]; [by right|].
      apply list_lookup_singleton_Some in Hj as [_ <-]. by left.
    - rewrite list_lookup_insert in Hj. case_decide; [|by right]. injection Hj as <-. by left. }
  destruct (decide (c = length cs)) as [->|Hne].
  - assert (k = mkConn rd true (stream rd)) as ->.
    { rewrite lookup_app_r, Nat.sub_diag in Hc by done. by injection Hc as <-. }
    assert (sent = []) as -> by (rewrite lookup_app_r, Hlen, Nat.sub_diag in Hs by lia; by injection Hs as <-).
    assert (takes (stream rd) [] (stream rd)) as Ht by constructor. split.
    + intros j l' [-> |Hj]%Hold Hrw; [by destruct Hp as [-> |[? ->]]|].
      exfalso. apply (Forall_lookup_1 _ _ _ _ Hlt) in Hj. lia.
    + intros _. by eapply takes_loose.
  - assert (c < length cs) as Hcl by (apply lookup_lt_Some in Hc; rewrite length_app in Hc; simpl in Hc; lia).
    rewrite lookup_app_l in Hc by done. rewrite lookup_app_l in Hs by lia.
    destruct (Hall _ _ _ Hc Hs) as [H1 H2]. split.
    + intros j l' [-> |Hj]%Hold Hrw; [simpl in Hrw; lia|].
      eapply (stands_mono q q (length cs) _ c _ k k sent []); rewrite ?app_nil_r; [done|lia|done|done|by eapply H1].
    + intros Hno. eapply (loose_mono q q (length cs) _ c k k sent []); rewrite ?app_nil_r; [done|lia|done|].
      destruct Hls as [-> |(i & l & Hi & [old Hpc] & ->)].
      { apply H2. intros j l0 Hj. eapply Hno. by apply lookup_app_l_Some. }
      destruct (decide (l_rw l = c)) as [Hrw|Hrw].
      { pose proof (H1 i l Hi Hrw) as Hst. rewrite Hpc in Hst. destruct Hst as [rest Ht].
        by eapply takes_loose. }
      apply H2. intros j l0 Hj. destruct (decide (j = i)) as [->|Hji]; [congruence|].
      eapply (Hno j). by rewrite list_lookup_insert_ne.
Qed.

(** A packet goes from a loop's hand into the channel. *)
Lemma delivery_send q cs ls xs i l x :
  NoDup (l_rw <$> ls) → ls !! i = Some l → l_rw l < length cs → l_pc l = AtSend x →
  delivery q cs ls xs →
  delivery q cs (alter (λ l, mkLoop (l_epoch l) (l_rw l) AtRead) i ls) (xs ++ [x]).
Proof.
  intros Hnd Hl [k Hk]%lookup_lt_is_Some_2 Hpc. rewrite <- (list_insert_id cs (l_rw l) k Hk) at 2.
  apply (delivery_move q cs ls xs _ i l k k AtRead (λ sent, sent ++ [x])); try done.
  - intros sents sent Hil Hs. by constructor.
  - intros sent. by rewrite Hpc.
Qed.

(** ** Every action *)

Definition delivers (s : sys) : Prop :=
  delivery (quit s) (conns s) (loops s) (handled s ++ inbox s).

Lemma close_conn_delivers c s : delivers s → delivers (close_conn c s).
Proof.
  destruct c as [c|]; [|done]. apply delivery_conns; simpl; [done|apply length_alter|].
  intros j k' Hj. rewrite list_lookup_alter in Hj. case_decide; [subst j|exists k', []; by rewrite !app_nil_r].
  destruct (conns s !! c) as [k|]; [|done]. injection Hj as <-. exists k, []. by rewrite !app_nil_r.
Qed.

(** A read that has returned, with what it has in hand. *)
Lemma stands_check q n c r k sent :
  stands q n c (AtCheck r) k sent →
  ∃ rest, takes (c_log k) (sent ++ match r with Got d => option_list (packet_of d) | _ => [] end) rest.
Proof.
  destruct r as [d|e|]; simpl; rewrite ?app_nil_r.
  - intros (D & HD & Hr). eexists. by eapply takes_next.
  - case_match; eauto.
  - done.
Qed.

Lemma loop_check_delivers i l r s s' :
  inv s → delivers s → loops s !! i = Some l → l_pc l = AtCheck r → loop_check i l r s = Some s' →
  delivers s'.
Proof.
  intros [I1 _ _ I4 I5] Hd Hl Hpc Hs. destruct (Forall_lookup_1 _ _ _ _ I4 Hl) as [Hlt He].
  assert (∀ p s0, conns s0 = conns s → loops s0 = loops s → quit s0 = quit s →
    handled s0 ++ inbox s0 = handled s ++ inbox s →
    (∀ k sent, stands (quit s) (length (conns s)) (l_rw l) (AtCheck r) k sent →
       stands (quit s) (length (conns s)) (l_rw l) p k sent) →
    delivers (set_pc i p s0)) as Hgo.
  { intros p s0 E1 E2 E3 E4 Hst. unfold delivers. simpl. rewrite E1, E2, E3, E4.
    eapply delivery_pc; [done|exact Hl|done| |exact Hd]. intros k sent _. rewrite Hpc. apply Hst. }
  assert (∀ d k sent, stands (quit s) (length (conns s)) (l_rw l) (AtCheck (Got d)) k sent →
    takes (c_log k) (sent ++ option_list (packet_of d)) (stream (c_in k))) as Hgot.
  { intros d k sent (D & HD & Hr). by eapply takes_next. }
  unfold loop_check in Hs. case_decide as Hep.
  - injection Hs as <-. apply Hgo; try done. intros k sent Hst.
    assert (S (l_rw l) < length (conns s)) as Hsup.
    { unfold currentEpoch in Hep. rewrite I1, He in Hep.
      destruct (decide (S (l_rw l) = length (conns s))) as [E|]; [|lia].
      exfalso. apply Hep. f_equal. lia. }
    apply stands_check in Hst as [rest Ht]. eexists _, _. split; [exact Ht|].
    destruct r as [d| |]; [|by left..]. destruct (packet_of d); simpl; [right; eauto|by left].
  - destruct r as [d|e|]; [| |done].
    + destruct (decodeInPack d) as [[[[p|] n] [e|]]|] eqn:Hdec; injection Hs as <-;
        (apply Hgo; [done..|]; intros k sent Hst%Hgot); unfold packet_of in Hst; rewrite Hdec in Hst;
        simpl in Hst; rewrite ?app_nil_r in Hst; first [exact Hst | by eapply takes_loose].
    + assert (∀ k sent, stands (quit s) (length (conns s)) (l_rw l) (AtCheck (Failed e)) k sent →
        ∃ rest, takes (c_log k) sent rest) as Hex.
      { intros k sent [rest Hst]%stands_check. rewrite app_nil_r in Hst. eauto. }
      destruct e as [| |t [|]| |]; try (case_decide); injection Hs as <-; (apply Hgo; [done..|]);
        first [exact Hex | intros k sent Hst; exact Hst].
Qed.

Lemma do_act_delivers a s s' : inv s → delivers s → do_act a s = Some s' → delivers s'.
Proof.
  intros Hinv Hd Ha. pose proof Hinv as [_ _ _ I4 I5].
  assert (Forall (λ l, l_rw l < length (conns s)) (loops s)) as Hlt
    by (eapply Forall_impl; [|exact I4]; by intros l []).
  assert (∀ i l p s0, loops s !! i = Some l → delivers s0 → loops s0 = loops s →
    length (conns s0) = length (conns s) →
    (∀ k sent, stands (quit s0) (length (conns s0)) (l_rw l) (l_pc l) k sent →
       stands (quit s0) (length (conns s0)) (l_rw l) p k sent) → delivers (set_pc i p s0)) as Hset.
  { intros i l p s0 Hl Hd0 E En Hst. unfold delivers. simpl. eapply delivery_pc; [by rewrite E|by rewrite E| | |exact Hd0].
    - rewrite En. by apply (Forall_lookup_1 _ _ _ _ Hlt Hl).
    - intros k sent _. apply Hst. }
  destruct a; simpl in Ha.
  - unfold connect_begin in Ha. by case_all.
  - unfold connect_dial in Ha. destruct (connecting s); [|done]. destruct d as [rd|e]; [|by simplify_eq].
    injection Ha as <-. unfold delivers. simpl. eapply delivery_publish; [by left|exact Hlt|by left|exact Hd].
  - destruct d as [rd|e]; simplify_eq/=; [|done].
    unfold delivers. simpl. eapply delivery_publish; [by left|exact Hlt|by left|exact Hd].
  - destruct (conns s !! c) as [k|] eqn:Hk; [|done]. injection Ha as <-.
    eapply delivery_conns; [done| |  |exact Hd]; simpl; [by rewrite length_insert|].
    intros j k' Hj. rewrite list_lookup_insert in Hj. case_decide as Hc; [|exists k', []; by rewrite !app_nil_r].
    destruct Hc as [<- _]. injection Hj as <-. exists k, (event_stream ev). split_and!; [done..|]. simpl.
    unfold stream. simpl. by rewrite fmap_app, concat_app, (assoc_L app); simpl; rewrite app_nil_r.
  - destruct (loops s !! i) as [l|] eqn:Hl; [|done]. simpl in Ha. destruct (l_pc l) eqn:Hpc; try done.
    unfold loop_read in Ha. destruct (conns s !! l_rw l) as [k|] eqn:Hk; [|done]. simpl in Ha.
    destruct (agent_read_refines (source k)) as (r0 & rd0 & Hr & _). rewrite Hr in Ha.
    destruct (read_conn _ _ _ Hr) as [Hg Ht].
    destruct r0 as [d|e|]; [..|done]; injection Ha as <-; unfold delivers; simpl;
      (eapply delivery_loop; [done|done|exact Hk| |exact Hd]); intros sent; rewrite Hpc; intros Hst.
    + exists (stream (c_in k)). split; [exact Hst|]. by eapply Hg.
    + simpl. case_match; [|by eexists]. by eapply takes_past; [exact Hst|apply Ht|].
  - destruct (loops s !! i) as [l|] eqn:Hl; [|done]. simpl in Ha. destruct (l_pc l) eqn:Hpc; try done.
    by eapply loop_check_delivers.
  - destruct (loops s !! i) as [l|] eqn:Hl; [|done]. simpl in Ha. destruct (l_pc l) eqn:Hpc; try done.
    injection Ha as <-. unfold disconnect_error. eapply Hset; [exact Hl|by destruct (getConn (ag s))..|].
    intros k sent. rewrite Hpc. intros [rest Hr]. by eapply takes_loose.
  - destruct (loops s !! i) as [l|] eqn:Hl; [|done]. simpl in Ha. destruct (l_pc l) eqn:Hpc; try done.
    injection Ha as <-. eapply Hset; [exact Hl|done..|]. by rewrite Hpc.
  - destruct (loops s !! i) as [l|] eqn:Hl; [|done]. simpl in Ha. destruct (l_pc l) eqn:Hpc; try done.
    injection Ha as <-. unfold loop_dial. destruct d as [rd|e].
    + unfold delivers. simpl. eapply delivery_publish; [by right; eexists|exact Hlt| |exact Hd].
      right. exists i, l. split_and!; [done|by eexists|done].
    + eapply Hset; [exact Hl|by apply close_conn_delivers|by destruct old| |].
      * destruct old; [apply length_alter|done].
      * intros k sent. rewrite Hpc. intros [rest Hr]. by eapply takes_loose.
  - destruct (loops s !! i) as [l|] eqn:Hl; [|done]. simpl in Ha. destruct (l_pc l) eqn:Hpc; try done.
    injection Ha as <-. eapply Hset; [exact Hl|by apply close_conn_delivers|by destruct old| |].
    + destruct old; [apply length_alter|done].
    + by rewrite Hpc.
  - destruct (loops s !! i) as [l|] eqn:Hl; [|done]. simpl in Ha. destruct (l_pc l) eqn:Hpc; try done.
    unfold loop_send in Ha. case_decide; [|done]. injection Ha as <-. unfold delivers. simpl.
    rewrite (assoc_L app). eapply delivery_send; [done|done| |done|exact Hd].
    by apply (Forall_lookup_1 _ _ _ _ Hlt Hl).
  - destruct (loops s !! i) as [l|] eqn:Hl; [|done]. simpl in Ha. destruct (l_pc l) eqn:Hpc; try done.
    destruct (quit s) eqn:Hq; [|done]. injection Ha as <-. eapply Hset; [exact Hl|done..|].
    intros k sent. rewrite Hpc, Hq. intros Ht. eexists _, _. split; [exact Ht|]. eauto.
  - destruct (inbox s) as [|p q] eqn:Hin; [done|]. injection Ha as <-. unfold delivers in *. simpl.
    rewrite Hin in Hd. by rewrite <- (assoc_L app).
  - injection Ha as <-. eapply (delivery_conns (quit s) true (conns s)); [done|done| |exact Hd].
    intros c k Hk. exists k, []. by rewrite !app_nil_r.
  - injection Ha as <-. unfold agent_close. destruct (a_conn (ag s)) as [c|]; [|done].
    by apply (close_conn_delivers (Some c)
      (mkSys (mkAgent None (a_rw (ag s)) (a_epoch (ag s))) (conns s) (connecting s) (loops s)
         (reported s) (inbox s) (handled s) (quit s))).
Qed.

(** ** What is handed on *)

(** Reading whole packets to the end gives all of them. *)
Lemma takes_framed (ps : list (Z * bytes)) xs :
  Forall (λ p, (0 ≤ p.1 < 2 ^ 32)%Z ∧ (blen p.2 ≤ maxPacketLength)%Z) ps →
  takes (inl <$> concat ((λ p, frame p.1 p.2) <$> ps)) xs [] → xs = (λ p, in_meaning p.1 p.2) <$> ps.
Proof.
  intros Hall. revert xs. induction Hall as [|[ty body] ps [Hty Hb] _ IH]; intros xs Ht.
  { inversion Ht as [| D d D1 ps D2 Hr|D e D1 ps D2 Hr]; [done|discriminate Hr..]. }
  cbn [fmap list_fmap concat fst snd] in *. rewrite fmap_app in Ht.
  pose proof (agent_vs_client ((inl <$> frame ty body) ++ (inl <$> concat ((λ p, frame p.1 p.2) <$> ps)))) as Hv.
  rewrite read_packet_stream_frame in Hv by done.
  remember ((inl <$> frame ty body) ++ _) as D0 eqn:HD in Ht. rewrite <- HD in Hv.
  inversion Ht as [D E1 E2 E3|D d D1 ys D2 Hr Hy|D e D1 ys D2 Hr].
  - exfalso. apply (f_equal length) in HD. rewrite length_app, length_fmap in HD.
    unfold frame in HD. rewrite length_app, length_header in HD.
    destruct D0; [simpl in HD; lia|done].
  - rewrite Hv in Hr. injection Hr as <- <-. unfold packet_of.
    rewrite decodeInPack_frame by done. simpl. f_equal. by apply IH.
  - rewrite Hv in Hr. discriminate.
Qed.

Definition in_hand (p : pc) : Prop :=
  match p with AtCheck (Got _) | AtSend _ => True | _ => False end.

(** What was handed on from connection [c] is everything read off it but for at
    most one packet: the one its loop has in its hand, or had when the worker was
    closed or the connection replaced. *)
Definition accounted (s : sys) (c : nat) (k : conn) (sent : list inPack) : Prop :=
  ∃ hand rest, takes (c_log k) (sent ++ hand) rest ∧ length hand ≤ 1 ∧
    (hand ≠ [] → quit s = true ∨ S c < length (conns s) ∨
       ∃ i l, loops s !! i = Some l ∧ l_rw l = c ∧ in_hand (l_pc l)).

(** [xs] is what the read loops of [s] have handed on: the packets of each
    connection in the order they arrived, mixed with those of the others in some
    way, and all accounted for.  A loop that is back at its read has left nothing
    out, what it has not handed on is still to be read; so of whole packets read
    to the end, all have been handed on. *)
Definition handed_on (s : sys) (xs : list inPack) : Prop :=
  ∃ sents, length sents = length (conns s) ∧ interleaving sents xs ∧
    ∀ c k sent, conns s !! c = Some k → sents !! c = Some sent →
      accounted s c k sent ∧
      ∀ i l, loops s !! i = Some l → l_rw l = c → l_pc l = AtRead →
        takes (c_log k) sent (stream (c_in k)) ∧
        ∀ ps : list (Z * bytes),
          Forall (λ p, (0 ≤ p.1 < 2 ^ 32)%Z ∧ (blen p.2 ≤ maxPacketLength)%Z) ps →
          c_log k = inl <$> concat ((λ p, frame p.1 p.2) <$> ps) → stream (c_in k) = [] →
          sent = (λ p, in_meaning p.1 p.2) <$> ps.

Lemma loose_handed q n c k sent :
  loose q n c k sent →
  ∃ hand rest, takes (c_log k) (sent ++ hand) rest ∧ length hand ≤ 1 ∧
    (hand ≠ [] → q = true ∨ S c < n).
Proof.
  intros (hand & rest & Ht & Hh). exists hand, rest. split; [done|].
  destruct Hh as [-> |[[p ->] ?]]; [|done]. split; [simpl; lia|done].
Qed.

Lemma delivers_handed_on s : delivers s → handed_on s (handled s ++ inbox s).
Proof.
  intros (sents & Hlen & Hil & Hall). exists sents. split_and!; [done..|].
  intros c k sent Hc Hs. destruct (Hall _ _ _ Hc Hs) as [H1 H2]. split.
  - assert (∀ ps rest, takes (c_log k) (sent ++ ps) rest → length ps ≤ 1 →
      (ps ≠ [] → ∃ i l, loops s !! i = Some l ∧ l_rw l = c ∧ in_hand (l_pc l)) →
      accounted s c k sent) as Hgo.
    { intros ps rest Ht Hp Hi. exists ps, rest. split_and!; [done..|]. auto. }
    assert (loose (quit s) (length (conns s)) c k sent → accounted s c k sent) as Hlo.
    { intros (hand & rest & ? & ? & Hh)%loose_handed. exists hand, rest. split_and!; [done..|].
      intros [?|?]%Hh; auto. }
    destruct (decide (Exists (λ l, l_rw l = c) (loops s))) as [He|He].
    2: { apply Hlo, H2. intros i l Hl Hrw. apply He, list.Exists_exists. exists l.
         split; [by eapply list_elem_of_lookup_2|done]. }
    apply list.Exists_exists in He as (l & [i Hl]%list_elem_of_lookup & Hrw). pose proof (H1 i l Hl Hrw) as Hst.
    destruct (l_pc l) as [|r|e| |old|old|p|] eqn:Hpc;
      [|apply stands_check in Hst as [rest Ht]; eapply Hgo; [exact Ht|..]|..].
    + apply Hlo. by eapply takes_loose.
    + destruct r as [d| |]; simpl; try lia. destruct (packet_of d); simpl; lia.
    + destruct r as [d| |]; try done. intros _. exists i, l. by rewrite Hpc.
    + destruct Hst as [rest Ht]. apply Hlo. by eapply takes_loose.
    + destruct Hst as [rest Ht]. apply Hlo. by eapply takes_loose.
    + destruct Hst as [rest Ht]. apply Hlo. by eapply takes_loose.
    + apply Hlo. by eapply takes_loose.
    + eapply Hgo; [exact Hst|done|]. intros _. exists i, l. by rewrite Hpc.
    + by apply Hlo.
  - intros i l Hl Hrw Hpc. pose proof (H1 i l Hl Hrw) as Hst. rewrite Hpc in Hst. split; [exact Hst|].
    intros ps Hps Hlog Hempty. apply takes_framed; [done|]. by rewrite <- Hlog, <- Hempty.
Qed.

Lemma reachable_delivers s : reachable s → delivers s.
Proof.
  intros [acts Hr]. eapply (run_ind (λ s, inv s ∧ delivers s)); [| |exact Hr].
  - intros a s1 s2 [Hi Hd] Ha. split; [by eapply do_act_inv|by eapply do_act_delivers].
  - split; [apply init_inv|]. exists []. split_and!; [done|constructor|done].
Qed.
End delivery.
