(* ===== verification/Worker.v ===== *)
(** * The worker: worker/worker.go

    [Worker] keeps the table of job functions, announces it to the job servers
    of its agents, dispatches the packets its agents hand it and bounds how many
    jobs are dispatched at once.  Its methods are programs of a small state
    monad over the worker, its agents with what was written to each connection,
    and the goroutines it has started; they can panic.  A [Write] to an agent is
    recorded as the packet handed to the agent's current connection (its bytes
    are the subject of AgentIO.v), and a write error is dropped, as by every
    caller in worker.go. *)

From S2P Require Import Prelude GoStd Protocol ClientWire WorkerPack AgentIO Agent.
Import WC.

(** The limits with a name. *)
Definition Unlimited : Z := 0.
Definition OneByOne : Z := 1.

(** What a job function sends while it runs, through the methods of [Job]. *)
Inductive job_report :=
| Sends_data (data : bytes)
| Sends_warning (data : bytes)
| Updates_status (numerator denominator : Z).

(** How it ends: it returns, or panics with an error or another value. *)
Inductive fn_result :=
| Returns (data : slice) (err : option error)
| PanicsError (e : error)
| PanicsOther.

(** A job function, as what it does with a job: its reports in order, its end. *)
Definition JobFunc : Type := inPack → list job_report * fn_result.

Record jobFunc := mkJobFunc { jf_f : JobFunc; jf_timeout : Z }.

Abbreviation jobFuncs := (gmap bytes jobFunc).

(** [type Worker struct]; [limit] is the capacity of the channel, if there is
    one, and the handlers are the stored pointers. *)
Record Worker := mkWorker {
  funcs : jobFuncs;
  running : bool;
  ready : bool;
  closed : bool;
  Id : bytes;
  errorHandler : bool;
  jobHandler : option (inPack → option error);
  limit : option Z
}.

(** The agents, and what has been written to each connection dialled. *)
Record Net := mkNet { agents : list agent; wires : list (list outPack) }.

(** A goroutine started for a job: before the lookup of its function, inside the
    function with what it has still to report and how it will end, under
    [execTimeout] or not, past the check of [running] with the result it is about
    to write, or done and about to receive from [worker.limit] with the error it
    will report. *)
Inductive job_state :=
| Executing
| Running (rs : list job_report) (res : fn_result) (timed : bool)
| Replying (d : slice) (err : option error)
| Finishing (err : option error).
Record job := mkJob { j_agent : nat; j_pack : inPack; j_state : job_state }.

(** A function that missed its timeout is given up on, not stopped: what it has
    still to report for its job. *)
Record stray := mkStray { s_agent : nat; s_pack : inPack; s_reports : list job_report }.

(** The goroutines, the contents of [worker.limit], whether the main loop is
    parked sending to it, with the agent it will grab from next, and the
    functions that outlive their jobs. *)
Record Dispatch := mkDispatch {
  jobs : list job;
  tokens : Z;
  waiting : option nat;
  strays : list stray
}.

(** Calls into the two handlers. *)
Record Log := mkLog { errs : list error; customs : list inPack }.

(** Whether [quit] is closed, and how many calls of [Close] are between their
    locked section and closing it. *)
Record Shutdown := mkShutdown { quit_closed : bool; closers : nat }.

Record W := mkW { wk : Worker; nt : Net; ds : Dispatch; lg : Log; sd : Shutdown }.

(** ** The monad *)

Definition M (A : Type) : Type := W → outcome (A * W).

#[export] Instance M_ret : MRet M := λ A a w, Val (a, w).
#[export] Instance M_bind : MBind M := λ A B f m w,
  match m w with Val (a, w) => f a w | Panics p => Panics p end.

Definition getW : M W := λ w, Val (w, w).
Definition modW (f : W → W) : M unit := λ w, Val ((), f w).
Definition lift {A} (o : outcome A) : M A := λ w,
  match o with Val a => Val (a, w) | Panics p => Panics p end.

Definition mod_wk (f : Worker → Worker) : M unit :=
  modW (λ w, mkW (f (wk w)) (nt w) (ds w) (lg w) (sd w)).
Definition mod_nt (f : Net → Net) : M unit :=
  modW (λ w, mkW (wk w) (f (nt w)) (ds w) (lg w) (sd w)).
Definition mod_ds (f : Dispatch → Dispatch) : M unit :=
  modW (λ w, mkW (wk w) (nt w) (f (ds w)) (lg w) (sd w)).
Definition mod_lg (f : Log → Log) : M unit :=
  modW (λ w, mkW (wk w) (nt w) (ds w) (f (lg w)) (sd w)).
Definition mod_sd (f : Shutdown → Shutdown) : M unit :=
  modW (λ w, mkW (wk w) (nt w) (ds w) (lg w) (f (sd w))).

Fixpoint for_each {A} (xs : list A) (f : A → M unit) : M unit :=
  match xs with
  | [] => mret ()
  | x :: xs => f x ;; for_each xs f
  end.

Definition set_funcs (m : jobFuncs) (k : Worker) : Worker :=
  mkWorker m (running k) (ready k) (closed k) (Id k) (errorHandler k) (jobHandler k) (limit k).
Definition set_running (b : bool) (k : Worker) : Worker :=
  mkWorker (funcs k) b (ready k) (closed k) (Id k) (errorHandler k) (jobHandler k) (limit k).
Definition set_ready (b : bool) (k : Worker) : Worker :=
  mkWorker (funcs k) (running k) b (closed k) (Id k) (errorHandler k) (jobHandler k) (limit k).
Definition set_closed (b : bool) (k : Worker) : Worker :=
  mkWorker (funcs k) (running k) (ready k) b (Id k) (errorHandler k) (jobHandler k) (limit k).
Definition set_Id (i : bytes) (k : Worker) : Worker :=
  mkWorker (funcs k) (running k) (ready k) (closed k) i (errorHandler k) (jobHandler k) (limit k).
Definition set_errorHandler (h : bool) (k : Worker) : Worker :=
  mkWorker (funcs k) (running k) (ready k) (closed k) (Id k) h (jobHandler k) (limit k).
Definition set_jobHandler (h : option (inPack → option error)) (k : Worker) : Worker :=
  mkWorker (funcs k) (running k) (ready k) (closed k) (Id k) (errorHandler k) h (limit k).

(** ** Construction, handlers, servers *)

(** [New(limit)]; a negative capacity is a run-time panic. *)
Definition New_worker (lim : Z) : outcome W :=
  if decide (lim < 0)%Z then Panics MakeLenOutOfRange
  else
    let l := if decide (lim ≠ 0)%Z then Some (lim - 1)%Z else None in
    Val (mkW (mkWorker ∅ false false false [] false None l) (mkNet [] [])
           (mkDispatch [] 0 None []) (mkLog [] []) (mkShutdown false 0)).

Definition SetErrorHandler (h : bool) : M unit := mod_wk (set_errorHandler h).
Definition SetJobHandler (h : option (inPack → option error)) : M unit :=
  mod_wk (set_jobHandler h).

(** [worker.err(e)] *)
Definition werr (e : error) : M unit :=
  w ← getW;
  if errorHandler (wk w)
  then mod_lg (λ l, mkLog (errs l ++ [e]) (customs l))
  else mret ().

(** [AddServer(net, addr)] *)
Definition AddServer : M (option error) :=
  mod_nt (λ n, mkNet (agents n ++ [newAgent]) (wires n)) ;; mret None.

(** ** Writing to agents *)

(** [a.Write(outpack)] on agent [i]: a nil [rw] is dereferenced. *)
Definition agent_Write (i : nat) (o : outPack) : M unit :=
  w ← getW;
  match agents (nt w) !! i ≫= getRW with
  | None => lift (Panics NilDereference)
  | Some c => mod_nt (λ n, mkNet (agents n) (alter (λ l, l ++ [o]) c (wires n)))
  end.

Definition Grab (i : nat) : M unit := agent_Write i grab_pack.
Definition PreSleep (i : nat) : M unit := agent_Write i presleep_pack.

Definition broadcast (o : outPack) : M unit :=
  w ← getW;
  for_each (seq 0 (length (agents (nt w)))) (λ i, agent_Write i o).

(** ** Job functions *)

Section worker.
Context `{GoArch}.

Definition prepFuncOutpack (funcname : bytes) (timeout : Z) : outcome outPack :=
  if decide (timeout = 0)%Z then mret (mkOutPack dtCanDo (Some funcname) [])
  else
    let l := blen funcname in
    let timeoutString := FormatUint timeout in
    data ← getBuffer (go_int (l + blen timeoutString + 1));
    '(data, _) ← copy_in data 0 (blen data) funcname;
    data ← set_idx data l x00;
    '(data, _) ← copy_in data (l + 1) (blen data) timeoutString;
    mret (mkOutPack dtCanDoTimeout (Some data) []).

Definition addFunc (funcname : bytes) (timeout : Z) : M unit :=
  o ← lift (prepFuncOutpack funcname timeout); broadcast o.

Definition AddFunc (funcname : bytes) (f : JobFunc) (timeout : Z) : M (option error) :=
  w ← getW;
  match funcs (wk w) !! funcname with
  | Some _ => mret (Some (Errorf "The function already exists: %s" [ABytes funcname]))
  | None =>
      mod_wk (λ k, set_funcs (<[funcname := mkJobFunc f timeout]> (funcs k)) k) ;;
      (if running (wk w) then addFunc funcname timeout else mret ()) ;;
      mret None
  end.

Definition removeFunc (funcname : bytes) : M unit :=
  broadcast (mkOutPack dtCantDo (Some funcname) []).

Definition RemoveFunc (funcname : bytes) : M (option error) :=
  w ← getW;
  match funcs (wk w) !! funcname with
  | None => mret (Some (Errorf "The function does not exist: %s" [ABytes funcname]))
  | Some _ =>
      mod_wk (λ k, set_funcs (delete funcname (funcs k)) k) ;;
      (if running (wk w) then removeFunc funcname else mret ()) ;;
      mret None
  end.

Definition Echo (data : slice) : M unit := broadcast (mkOutPack dtEchoReq data []).

(** [Reset()]: the packet is sent outside [worker.Mutex], then the table is
    cleared; as one action it is a call no other one comes between. *)
Definition Reset_send : M unit := broadcast (mkOutPack dtResetAbilities None []).
Definition Reset_clear : M unit := mod_wk (set_funcs ∅).
Definition Reset : M unit := Reset_send ;; Reset_clear.

Definition SetId (id : bytes) : M unit :=
  mod_wk (set_Id id) ;; broadcast (mkOutPack dtSetClientId (Some id) []).

(** ** Connections *)

(** Publish a new connection for agent [i]. *)
Definition publish_conn (i : nat) : M unit :=
  mod_nt (λ n, mkNet (alter (λ a, (setConn (length (wires n)) a).1) i (agents n))
                 (wires n ++ [[]])).

(** [a.Connect()] on agent [i], with the error of its dial if it has one. *)
Definition Connect (i : nat) (dialErr : option error) : M (option error) :=
  w ← getW;
  match agents (nt w) !! i ≫= getConn with
  | Some _ => mret None
  | None =>
      match dialErr with
      | Some e => mret (Some e)
      | None => publish_conn i ;; mret None
      end
  end.

(** The loop over the agents in [Ready]: the first dial that fails ends it. *)
Fixpoint connect_all (ixs : list nat) (dials : nat → option error) : M (option error) :=
  match ixs with
  | [] => mret None
  | i :: ixs =>
      e ← Connect i (dials i);
      match e with Some e => mret (Some e) | None => connect_all ixs dials end
  end.

(** The order in which [range] visits a map; Go does not specify it. *)
Variable range : jobFuncs → list (bytes * jobFunc).

(** [Ready()] *)
Definition Ready (dials : nat → option error) : M (option error) :=
  w ← getW;
  if decide (length (agents (nt w)) = 0) then mret (Some ErrNoneAgents)
  else
    let fs := funcs (wk w) in
    if decide (fs = ∅) then mret (Some ErrNoneFuncs)
    else
      e ← connect_all (seq 0 (length (agents (nt w)))) dials;
      match e with
      | Some e => mret (Some e)
      | None =>
          for_each (range fs) (λ p, addFunc p.1 (jf_timeout p.2)) ;;
          mod_wk (set_ready true) ;;
          mret None
      end.

(** [Work()] up to its loop: it panics with [Ready]'s error. *)
Definition Work_start (dials : nat → option error) : M unit :=
  w ← getW;
  (if ready (wk w) then mret ()
   else e ← Ready dials;
        match e with Some _ => lift (Panics UserPanic) | None => mret () end) ;;
  mod_wk (set_running true) ;;
  for_each (seq 0 (length (agents (nt w)))) Grab.

(** [funcOutpacks()] *)
Fixpoint prep_all (fs : list (bytes * jobFunc)) : outcome (list outPack) :=
  match fs with
  | [] => mret []
  | (name, f) :: fs =>
      o ← prepFuncOutpack name (jf_timeout f); os ← prep_all fs; mret (o :: os)
  end.

Definition funcOutpacks : M (list outPack) :=
  w ← getW; lift (prep_all (range (funcs (wk w)))).

(** [a.reconnect()], not interleaved. *)
Definition reconnect (i : nat) (dialErr : option error) : M (option error) :=
  match dialErr with
  | Some e => mret (Some e)
  | None =>
      publish_conn i ;;
      os ← funcOutpacks;
      for_each os (agent_Write i) ;;
      Grab i ;;
      mret None
  end.

(** ** Executing jobs *)

(** A report through [Job], up to the write and with it. *)
Definition report_pack (p : inPack) (r : job_report) : outcome outPack :=
  match r with
  | Sends_data d => SendData p d
  | Sends_warning d => SendWarning p d
  | Updates_status n d => UpdateStatus p n d
  end.

Definition send_report (i : nat) (p : inPack) (r : job_report) : M unit :=
  o ← lift (report_pack p r); agent_Write i o.

(** The lookup of [exec] and the call of the function. *)
Definition exec_start (p : inPack) (k : Worker) : job_state :=
  match funcs k !! iFn p with
  | None => Finishing (Some (Errorf "The function does not exist: %s" [ABytes (iFn p)]))
  | Some f => let '(rs, res) := jf_f f p in Running rs res (bool_decide (jf_timeout f ≠ 0%Z))
  end.

(** The packet [exec] answers with, and the error it returns. *)
Definition reply_pack (p : inPack) (d : slice) (e : option error) : outPack :=
  mkOutPack
    (match e with
     | None => dtWorkComplete
     | Some _ => if decide (blen (sl d) = 0)%Z then dtWorkFail else dtWorkException
     end) d (iHandle p).

(** The check of [running] once the function has returned: only a running worker
    will answer. *)
Definition exec_check (d : slice) (e : option error) (k : Worker) : job_state :=
  if running k then Replying d e else Finishing None.

(** ** Handling packets *)

Definition customeHandler (p : inPack) : M unit :=
  w ← getW;
  match jobHandler (wk w) with
  | None => mret ()
  | Some h =>
      mod_lg (λ l, mkLog (errs l) (customs l ++ [p])) ;;
      match h p with Some e => werr e | None => mret () end
  end.

(** [handleInPack(inpack)] for a packet of agent [i].  A job starts a goroutine;
    with a limit the main loop then parks on the channel and grabs the next job
    once its send has gone through. *)
Definition handleInPack (i : nat) (p : inPack) : M unit :=
  if decide (iType p = dtNoJob) then PreSleep i
  else if decide (iType p = dtNoop) then Grab i
  else if decide (iType p = dtJobAssign ∨ iType p = dtJobAssignUniq) then
    mod_ds (λ d, mkDispatch (jobs d ++ [mkJob i p Executing]) (tokens d) (waiting d) (strays d)) ;;
    w ← getW;
    match limit (wk w) with
    | Some _ => mod_ds (λ d, mkDispatch (jobs d) (tokens d) (Some i) (strays d))
    | None => Grab i
    end
  else
    (if decide (iType p = dtError) then
       match inPack_Err p with Some e => werr e | None => mret () end
     else mret ()) ;;
    customeHandler p.

(** ** Closing *)

(** [Close()] up to releasing the lock: only the first call goes on. *)
Definition Close_begin : M unit :=
  w ← getW;
  if closed (wk w) then mret ()
  else
    mod_wk (λ k, set_running false (set_closed true k)) ;;
    mod_sd (λ s, mkShutdown (quit_closed s) (S (closers s))).

(** The rest of it: closing a closed channel panics. *)
Definition Close_finish : M unit :=
  w ← getW;
  if quit_closed (sd w) then lift (Panics CloseOfClosedChannel)
  else
    mod_sd (λ s, mkShutdown true (pred (closers s))) ;;
    mod_nt (λ n, mkNet ((λ a, mkAgent None (a_rw a) (a_epoch a)) <$> agents n) (wires n)).

(** ** The running worker

    Calls of its methods, packets reaching the main loop, jobs ending and the
    hand-over through [worker.limit], in any order. *)
Inductive wact :=
| AAddServer
| AReady (dials : nat → option error)
| AWork (dials : nat → option error)
| ACloseBegin
| ACloseFinish
| AAddFunc (name : bytes) (f : JobFunc) (timeout : Z)
| ARemoveFunc (name : bytes)
| AReset
| AEcho (data : slice)
| ASetId (id : bytes)
| ASetErrorHandler (h : bool)
| ASetJobHandler (h : option (inPack → option error))
| AReconnect (i : nat) (dialErr : option error)
| APacket (i : nat) (p : inPack)
| ARedial (i : nat)
| AAgentErr (e : error)
| AJobStart (j : nat)
| AJobReport (j : nat)
| AJobReturn (j : nat)
| AJobTimeout (j : nat)
| AJobWrite (j : nat)
| AStrayReport (k : nat)
| AJobFinish (j : nat)
| ATokenSend
| ARendezvous (j : nat).

(** The goroutine [j] ends: its error goes to the handler. *)
Definition job_end (j : nat) (err : option error) : M unit :=
  mod_ds (λ d, mkDispatch (delete j (jobs d)) (tokens d) (waiting d) (strays d)) ;;
  match err with Some e => werr e | None => mret () end.

(** The main loop's send has gone through: it grabs the next job. *)
Definition send_done (i : nat) : M unit :=
  mod_ds (λ d, mkDispatch (jobs d) (tokens d) None (strays d)) ;; Grab i.

Definition add_tokens (n : Z) : M unit :=
  mod_ds (λ d, mkDispatch (jobs d) (tokens d + n) (waiting d) (strays d)).

Definition set_job (j : nat) (st : job_state) : M unit :=
  mod_ds (λ d, mkDispatch (alter (λ x, mkJob (j_agent x) (j_pack x) st) j (jobs d))
                 (tokens d) (waiting d) (strays d)).

Definition add_stray (x : stray) : M unit :=
  mod_ds (λ d, mkDispatch (jobs d) (tokens d) (waiting d) (strays d ++ [x])).

Definition set_stray (k : nat) (rs : list job_report) : M unit :=
  mod_ds (λ d, mkDispatch (jobs d) (tokens d) (waiting d)
                 (alter (λ x, mkStray (s_agent x) (s_pack x) rs) k (strays d))).

(** [m], with what goroutine [j] does when it returns and when it panics: the
    panic is recovered, by [exec] or by [execTimeout]. *)
Definition recovering {A} (m : M A) (ok : A → M unit) (panicked : M unit) : M unit := λ w,
  match m w with
  | Val (a, w) => ok a w
  | Panics _ => panicked w
  end.

(** A step of goroutine [j] of job [x]: the lookup, one report, the end of the
    function, the timer of [execTimeout], the write of the result.  A function
    that panics under [execTimeout] sends no result, so only the timer ends the
    job. *)
Definition job_start (j : nat) (x : job) : M unit :=
  w ← getW; set_job j (exec_start (j_pack x) (wk w)).

Definition job_report_step (j : nat) (x : job) : option (M unit) :=
  match j_state x with
  | Running (r :: rs) res timed =>
      Some (recovering (send_report (j_agent x) (j_pack x) r)
        (λ _, set_job j (Running rs res timed))
        (set_job j (if timed then Running [] (PanicsError runtime_error) true
                    else Finishing (Some runtime_error))))
  | _ => None
  end.

Definition job_check (j : nat) (d : slice) (e : option error) : M unit :=
  w ← getW; set_job j (exec_check d e (wk w)).

Definition job_return (j : nat) (x : job) : option (M unit) :=
  match j_state x with
  | Running [] (Returns d e) _ => Some (job_check j d e)
  | Running [] (PanicsError e) false => Some (set_job j (Finishing (Some e)))
  | Running [] PanicsOther false => Some (set_job j (Finishing (Some ErrUnknown)))
  | _ => None
  end.

Definition job_timeout (j : nat) (x : job) : option (M unit) :=
  match j_state x with
  | Running rs _ true =>
      Some (add_stray (mkStray (j_agent x) (j_pack x) rs) ;; job_check j None (Some ErrTimeOut))
  | _ => None
  end.

Definition job_write (j : nat) (x : job) : option (M unit) :=
  match j_state x with
  | Replying d e =>
      Some (recovering (agent_Write (j_agent x) (reply_pack (j_pack x) d e))
              (λ _, set_job j (Finishing e)) (set_job j (Finishing (Some runtime_error))))
  | _ => None
  end.

Definition stray_step (k : nat) (x : stray) : option (M unit) :=
  match s_reports x with
  | r :: rs => Some (recovering (send_report (s_agent x) (s_pack x) r)
                       (λ _, set_stray k rs) (set_stray k []))
  | [] => None
  end.

(** [None]: the action is not enabled, a goroutine is blocked. *)
Definition do_wact (a : wact) (w : W) : option (outcome (unit * W)) :=
  match a with
  | AAddServer => Some ((AddServer ;; mret ()) w)
  | AReady dials => Some ((Ready dials ;; mret ()) w)
  | AWork dials => Some (Work_start dials w)
  | ACloseBegin => Some (Close_begin w)
  | ACloseFinish => if decide (closers (sd w) = 0) then None else Some (Close_finish w)
  | AAddFunc name f t => Some ((AddFunc name f t ;; mret ()) w)
  | ARemoveFunc name => Some ((RemoveFunc name ;; mret ()) w)
  | AReset => Some (Reset w)
  | AEcho d => Some (Echo d w)
  | ASetId id => Some (SetId id w)
  | ASetErrorHandler h => Some (SetErrorHandler h w)
  | ASetJobHandler h => Some (SetJobHandler h w)
  | AReconnect i d => Some ((reconnect i d ;; mret ()) w)
  | APacket i p =>
      match waiting (ds w) with None => Some (handleInPack i p w) | Some _ => None end
  | ARedial i => Some (publish_conn i w)
  | AAgentErr e => Some (werr e w)
  | AJobStart j =>
      x ← jobs (ds w) !! j;
      match j_state x with Executing => Some (job_start j x w) | _ => None end
  | AJobReport j => x ← jobs (ds w) !! j; m ← job_report_step j x; Some (m w)
  | AJobReturn j => x ← jobs (ds w) !! j; m ← job_return j x; Some (m w)
  | AJobTimeout j => x ← jobs (ds w) !! j; m ← job_timeout j x; Some (m w)
  | AJobWrite j => x ← jobs (ds w) !! j; m ← job_write j x; Some (m w)
  | AStrayReport k => x ← strays (ds w) !! k; m ← stray_step k x; Some (m w)
  | AJobFinish j =>
      match jobs (ds w) !! j with
      | Some (mkJob _ _ (Finishing e)) =>
          match limit (wk w) with
          | None => Some (job_end j e w)
          | Some _ =>
              if decide (0 < tokens (ds w))%Z
              then Some ((add_tokens (-1) ;; job_end j e) w)
              else None
          end
      | _ => None
      end
  | ATokenSend =>
      match waiting (ds w), limit (wk w) with
      | Some i, Some cap =>
          if decide (tokens (ds w) < cap)%Z then Some ((add_tokens 1 ;; send_done i) w) else None
      | _, _ => None
      end
  | ARendezvous j =>
      match waiting (ds w), limit (wk w), jobs (ds w) !! j with
      | Some i, Some cap, Some (mkJob _ _ (Finishing e)) =>
          if decide (cap = 0)%Z then Some ((job_end j e ;; send_done i) w) else None
      | _, _, _ => None
      end
  end.

Fixpoint wrun (acts : list wact) (w : W) : option (outcome W) :=
  match acts with
  | [] => Some (Val w)
  | a :: acts =>
      match do_wact a w with
      | None => None
      | Some (Panics p) => Some (Panics p)
      | Some (Val (_, w)) => wrun acts w
      end
  end.
End worker.

(** ** Programs that keep something *)

(** Whatever [m] returns, the states before and after are related. *)
Definition keeps {A} (R : W → W → Prop) (m : M A) : Prop :=
  ∀ w a w', m w = Val (a, w') → R w w'.

Lemma M_bind_Val {A B} (m : M A) (f : A → M B) w b w' :
  (m ≫= f) w = Val (b, w') ↔ ∃ a w1, m w = Val (a, w1) ∧ f a w1 = Val (b, w').
Proof.
  unfold mbind, M_bind. destruct (m w) as [[a w1]|p]; split; try done.
  - eauto.
  - by intros (? & ? & [= <- <-] & ?).
  - by intros (? & ? & ? & ?).
Qed.

Section keeps.
Context (R : W → W → Prop) `{!PreOrder R}.

Lemma keeps_bind {A B} (m : M A) (f : A → M B) :
  keeps R m → (∀ a, keeps R (f a)) → keeps R (m ≫= f).
Proof. intros Hm Hf w b w' (a & w1 & E1 & E2)%M_bind_Val. etrans; [by eapply Hm|by eapply Hf]. Qed.

Lemma keeps_ret {A} (a : A) : keeps R (mret a).
Proof. intros w b w' [= _ <-]. reflexivity. Qed.

Lemma keeps_getW : keeps R getW.
Proof. intros w b w' [= _ <-]. reflexivity. Qed.

Lemma keeps_lift {A} (o : outcome A) : keeps R (lift o).
Proof. intros w b w'. unfold lift. destruct o; intros [= _ <-]. reflexivity. Qed.

Lemma keeps_lift_bind {A B} (o : outcome A) (f : A → M B) :
  (∀ a, o = Val a → keeps R (f a)) → keeps R (lift o ≫= f).
Proof.
  intros Hf w b w' (a & w1 & E1 & E2)%M_bind_Val. unfold lift in E1.
  destruct o as [x|] eqn:Ho; [|done]. injection E1 as <- <-. by eapply (Hf x).
Qed.

Lemma keeps_modW f : (∀ w, R w (f w)) → keeps R (modW f).
Proof. intros Hf w b w' [= _ <-]. apply Hf. Qed.

Lemma keeps_for_each {A} (xs : list A) f : (∀ x, keeps R (f x)) → keeps R (for_each xs f).
Proof.
  intros Hf. induction xs as [|x xs IH]; [apply keeps_ret|].
  apply keeps_bind; [apply Hf|]. intros _. apply IH.
Qed.
End keeps.

(** The dispatch state and the limit are untouched. *)
Definition same_dispatch (w w' : W) : Prop :=
  ds w' = ds w ∧ limit (wk w') = limit (wk w).

#[export] Instance same_dispatch_preorder : PreOrder same_dispatch.
Proof. split; unfold same_dispatch; [done|]. intros ??? [??] [??]. split; congruence. Qed.

(** Walk through a program down to its accesses. *)
Ltac keeps := repeat first
  [ match goal with |- ∀ _, _ => intro end
  | apply keeps_ret; exact _ | apply keeps_getW; exact _ | apply keeps_lift; exact _
  | apply keeps_modW; intros; by split
  | apply keeps_bind; [exact _|..] | apply keeps_for_each; [exact _|]
  | progress cbv zeta | case_decide | case_match ].

Section dispatch_facts.
Context `{GoArch}.
Variable range : jobFuncs → list (bytes * jobFunc).

Lemma agent_Write_keeps i o : keeps same_dispatch (agent_Write i o).
Proof. unfold agent_Write, mod_nt. keeps. Qed.

Lemma broadcast_keeps o : keeps same_dispatch (broadcast o).
Proof. unfold broadcast. keeps. Qed.

Lemma werr_keeps e : keeps same_dispatch (werr e).
Proof. unfold werr, mod_lg. keeps. Qed.

Lemma method_keeps :
  (∀ n f t, keeps same_dispatch (AddFunc n f t)) ∧
  (∀ n, keeps same_dispatch (RemoveFunc n)) ∧
  keeps same_dispatch Reset ∧ (∀ d, keeps same_dispatch (Echo d)) ∧
  (∀ d, keeps same_dispatch (SetId d)) ∧
  (∀ i d, keeps same_dispatch (reconnect range i d)) ∧
  (∀ i o, keeps same_dispatch (agent_Write i o)) ∧
  (∀ i p r, keeps same_dispatch (send_report i p r)) ∧
  (∀ i, keeps same_dispatch (publish_conn i)) ∧
  (∀ p, keeps same_dispatch (customeHandler p)) ∧
  keeps same_dispatch AddServer ∧ (∀ d, keeps same_dispatch (Ready range d)) ∧
  (∀ d, keeps same_dispatch (Work_start range d)) ∧
  keeps same_dispatch Close_begin ∧ keeps same_dispatch Close_finish.
Proof.
  assert (∀ ixs d, keeps same_dispatch (connect_all ixs d)) as Hca.
  { intros ixs d. induction ixs as [|i ixs IH]; simpl; keeps; apply IH. }
  assert (∀ d, keeps same_dispatch (Ready range d)) as Hrd.
  { intros d. unfold Ready, mod_wk. keeps; try apply Hca. }
  unfold Work_start, AddServer, Close_begin, Close_finish, mod_sd, AddFunc, RemoveFunc, Reset, Reset_send,
    Reset_clear, Echo, SetId, reconnect, customeHandler, addFunc, removeFunc, send_report, funcOutpacks, publish_conn, Grab, mod_wk, mod_nt, mod_lg.
  split_and!; keeps; try apply Hrd; apply Hca.
Qed.

(** Each dispatched job has a token in the channel, but for the one the main
    loop is about to send. *)
Definition dinv (l : option Z) (w : W) : Prop :=
  limit (wk w) = l ∧
  match l with
  | None => waiting (ds w) = None
  | Some cap =>
      (0 ≤ tokens (ds w) ≤ cap)%Z ∧
      Z.of_nat (length (jobs (ds w))) =
        (tokens (ds w) + match waiting (ds w) with Some _ => 1 | None => 0 end)%Z
  end.

Lemma same_dispatch_dinv l w w' : same_dispatch w w' → dinv l w → dinv l w'.
Proof. intros [E1 E2]. unfold dinv. by rewrite E1, E2. Qed.

(** The state after a return, related to one where only the log differs. *)
Lemma job_end_ds j e w w' :
  job_end j e w = Val ((), w') →
  ds w' = mkDispatch (delete j (jobs (ds w))) (tokens (ds w)) (waiting (ds w)) (strays (ds w)) ∧
  limit (wk w') = limit (wk w).
Proof.
  unfold job_end. intros ([] & w1 & [= <-] & E)%M_bind_Val.
  destruct e as [e|]; [|by injection E as <-].
  by destruct (werr_keeps _ _ _ _ E) as [-> ->].
Qed.

Lemma send_done_ds i w w' :
  send_done i w = Val ((), w') →
  ds w' = mkDispatch (jobs (ds w)) (tokens (ds w)) None (strays (ds w)) ∧
  limit (wk w') = limit (wk w).
Proof.
  unfold send_done. intros ([] & w1 & [= <-] & E)%M_bind_Val.
  by destruct (agent_Write_keeps _ _ _ _ _ E) as [-> ->].
Qed.

Lemma handleInPack_dinv l i p w w' :
  waiting (ds w) = None → dinv l w → handleInPack i p w = Val ((), w') → dinv l w'.
Proof.
  intros Hw Hd. unfold handleInPack.
  case_decide; [intros E; eapply same_dispatch_dinv; [by eapply agent_Write_keeps|done]|].
  case_decide; [intros E; eapply same_dispatch_dinv; [by eapply agent_Write_keeps|done]|].
  case_decide.
  - intros ([] & w1 & [= <-] & E)%M_bind_Val.
    apply M_bind_Val in E as (wa & wb & [= <- <-] & E). simpl in E.
    unfold dinv in *. destruct Hd as [Hlim Hd]. rewrite Hlim in E. destruct l as [cap|].
    + injection E as <-. simpl. rewrite length_app. simpl. rewrite Hw in Hd.
      destruct Hd. split; [done|lia].
    + destruct (agent_Write_keeps _ _ _ _ _ E) as [-> ->]. done.
  - intros E. eapply same_dispatch_dinv; [|done].
    destruct method_keeps as (_ & _ & _ & _ & _ & _ & _ & _ & _ & Hc & _).
    revert E. eapply keeps_bind; [exact _| |intros []; apply Hc].
    keeps; apply werr_keeps.
Qed.

(** The steps of one job: as many jobs and tokens as before. *)
Definition job_shape (w w' : W) : Prop :=
  length (jobs (ds w')) = length (jobs (ds w)) ∧ tokens (ds w') = tokens (ds w) ∧
  waiting (ds w') = waiting (ds w) ∧ limit (wk w') = limit (wk w).

#[export] Instance job_shape_preorder : PreOrder job_shape.
Proof.
  split; unfold job_shape; [done|].
  intros ??? (? & ? & ? & ?) (? & ? & ? & ?). split_and!; congruence.
Qed.

Lemma job_shape_dinv l w w' : job_shape w w' → dinv l w → dinv l w'.
Proof. intros (E1 & E2 & E3 & E4). unfold dinv. by rewrite E1, E2, E3, E4. Qed.

Lemma keeps_weaken {A} (R S : W → W → Prop) (m : M A) :
  (∀ w w', R w w' → S w w') → keeps R m → keeps S m.
Proof. intros HRS Hm w a w' E. by eapply HRS, Hm. Qed.

Lemma keeps_recovering {A} R `{!PreOrder R} (m : M A) ok panicked :
  keeps R m → (∀ a, keeps R (ok a)) → keeps R panicked → keeps R (recovering m ok panicked).
Proof.
  intros Hm Ho Hp w a w' E. unfold recovering in E. destruct (m w) as [[x w1]|] eqn:Ex.
  - etrans; [by eapply Hm|by eapply Ho].
  - by eapply Hp.
Qed.

Lemma same_dispatch_shape w w' : same_dispatch w w' → job_shape w w'.
Proof. intros [E1 E2]. unfold job_shape. by rewrite E1, E2. Qed.

(** Every step of a job or of a stray function keeps the shape. *)
Lemma job_step_shape j x m :
  m = job_start j x ∨ job_report_step j x = Some m ∨ job_return j x = Some m ∨
  job_timeout j x = Some m ∨ job_write j x = Some m → keeps job_shape m.
Proof.
  destruct method_keeps as (_ & _ & _ & _ & _ & _ & Kr & Ks & _).
  assert (∀ st, keeps job_shape (set_job j st)) as Hset.
  { intros st. apply keeps_modW. intros w. unfold job_shape. simpl. by rewrite length_alter. }
  assert (∀ i o, keeps job_shape (agent_Write i o)) as Kr'
    by (intros; eapply keeps_weaken; [apply same_dispatch_shape|apply Kr]).
  assert (∀ d e, keeps job_shape (job_check j d e)) as Kc
    by (intros; apply keeps_bind; [exact _|apply keeps_getW; exact _|intros; apply Hset]).
  assert (∀ i p r, keeps job_shape (send_report i p r)) as Ks'
    by (intros; eapply keeps_weaken; [apply same_dispatch_shape|apply Ks]).
  intros [->|[Hm|[Hm|[Hm|Hm]]]].
  - apply keeps_bind; [exact _|apply keeps_getW; exact _|]. intros w. apply Hset.
  - unfold job_report_step in Hm. case_match; try done. destruct rs as [|r rs]; [done|].
    injection Hm as <-. apply keeps_recovering; [exact _|apply Ks'|intros; apply Hset|apply Hset].
  - unfold job_return in Hm. repeat case_match; simplify_eq; (apply Hset || apply Kc).
  - unfold job_timeout in Hm. repeat case_match; simplify_eq.
    apply keeps_bind; [exact _| |intros _; apply Kc]. apply keeps_modW. intros w. by split_and!.
  - unfold job_write in Hm. case_match; simplify_eq.
    apply keeps_recovering; [exact _|apply Kr'|intros; apply Hset|apply Hset].
Qed.

Lemma stray_step_shape k x m : stray_step k x = Some m → keeps job_shape m.
Proof.
  destruct method_keeps as (_ & _ & _ & _ & _ & _ & _ & Ks & _).
  assert (∀ rs, keeps job_shape (set_stray k rs)) as Hset
    by (intros rs; apply keeps_modW; intros w; by split_and!).
  unfold stray_step. case_match; [done|]. intros [= <-].
  apply keeps_recovering; [exact _| |intros; apply Hset|apply Hset].
  eapply keeps_weaken; [apply same_dispatch_shape|apply Ks].
Qed.

Lemma do_wact_dinv l a w w' :
  do_wact range a w = Some (Val ((), w')) → dinv l w → dinv l w'.
Proof.
  destruct method_keeps as (K1 & K2 & K3 & K4 & K5 & K6 & _ & _ & K7 & _ & K9 & K10 & K11 & K12 & K13).
  intros Ha Hd.
  assert (∀ {A} (m : M A), keeps same_dispatch m → ∀ x, m w = Val (x, w') → dinv l w') as Hk.
  { intros A m Hm x E. eapply same_dispatch_dinv; [by eapply Hm|done]. }
  assert (∀ {A} (m : M A), keeps same_dispatch m → (m ;; mret ()) w = Val ((), w') → dinv l w')
    as Hk'.
  { intros A m Hm. apply Hk. apply keeps_bind; [exact _|done|keeps]. }
  destruct a; simpl in Ha; try (injection Ha as Ha;
    solve [eapply Hk'; [|exact Ha]; eauto | eapply Hk; [|exact Ha]; eauto]).
  - injection Ha as <-. done.
  - case_decide; [done|]. injection Ha as Ha. by eapply (Hk _ Close_finish).
  - injection Ha as <-. done.
  - injection Ha as <-. done.
  - destruct (waiting (ds w)) eqn:Hw; [done|]. injection Ha as Ha. by eapply handleInPack_dinv.
  - injection Ha as <-. done.
  - injection Ha as Ha. eapply Hk; [apply werr_keeps|exact Ha].
  - destruct (jobs (ds w) !! j) as [x|]; [|done]. simpl in Ha. destruct (j_state x); try done.
    injection Ha as <-. eapply job_shape_dinv; [|done].
    by eapply (job_step_shape j x (job_start j x)); [by left|].
  - destruct (jobs (ds w) !! j) as [x|]; [|done]. simpl in Ha.
    destruct (job_report_step j x) as [m|] eqn:Hm; [|done]. injection Ha as Ha.
    eapply job_shape_dinv; [|done].
    eapply (job_step_shape j x); [|exact Ha]. eauto.
  - destruct (jobs (ds w) !! j) as [x|]; [|done]. simpl in Ha.
    destruct (job_return j x) as [m|] eqn:Hm; [|done]. injection Ha as Ha.
    eapply job_shape_dinv; [|done].
    eapply (job_step_shape j x); [|exact Ha]. eauto.
  - destruct (jobs (ds w) !! j) as [x|]; [|done]. simpl in Ha.
    destruct (job_timeout j x) as [m|] eqn:Hm; [|done]. injection Ha as Ha.
    eapply job_shape_dinv; [|done].
    eapply (job_step_shape j x); [|exact Ha]. eauto 6.
  - destruct (jobs (ds w) !! j) as [x|]; [|done]. simpl in Ha.
    destruct (job_write j x) as [m|] eqn:Hm; [|done]. injection Ha as Ha.
    eapply job_shape_dinv; [|done].
    eapply (job_step_shape j x); [|exact Ha]. eauto 6.
  - destruct (strays (ds w) !! k) as [x|]; [|done]. simpl in Ha.
    destruct (stray_step k x) as [m|] eqn:Hm; [|done]. injection Ha as Ha.
    eapply job_shape_dinv; [|done].
    by eapply (stray_step_shape k x).
  - destruct (jobs (ds w) !! j) as [[ai p [| | |e]]|] eqn:Hj; [done|done|done| |done].
    pose proof (lookup_lt_Some _ _ _ Hj) as Hlt. unfold dinv in *.
    destruct Hd as [Hlim Hd]. rewrite Hlim in Ha. destruct l as [cap|].
    + case_decide; [|done]. injection Ha as Ha. apply M_bind_Val in Ha as ([] & w1 & [= <-] & E).
      destruct (job_end_ds _ _ _ _ E) as [-> ->]. simpl. rewrite length_delete by (eexists; exact Hj).
      destruct Hd. split; [done|]. lia.
    + injection Ha as E. by destruct (job_end_ds _ _ _ _ E) as [-> ->].
  - destruct (waiting (ds w)) as [i|] eqn:Hw; [|done]. unfold dinv in *.
    destruct Hd as [Hlim Hd]. rewrite Hlim in Ha. destruct l as [cap|]; [|done].
    case_decide; [|done].
    injection Ha as Ha. apply M_bind_Val in Ha as ([] & w1 & [= <-] & E).
    destruct (send_done_ds _ _ _ E) as [-> ->]. simpl. rewrite Hw in Hd.
    split; [done|]. lia.
  - destruct (waiting (ds w)) as [i|] eqn:Hw; [|done]. unfold dinv in *.
    destruct Hd as [Hlim Hd]. rewrite Hlim in Ha. destruct l as [cap|]; [|done].
    destruct (jobs (ds w) !! j) as [[ai p [| | |e]]|] eqn:Hj; [done|done|done| |done].
    pose proof (lookup_lt_Some _ _ _ Hj) as Hlt. case_decide; [|done].
    injection Ha as Ha. apply M_bind_Val in Ha as ([] & w1 & E1 & E2).
    destruct (job_end_ds _ _ _ _ E1) as [D1 L1]. destruct (send_done_ds _ _ _ E2) as [-> ->].
    rewrite D1, L1. simpl. rewrite length_delete by (eexists; exact Hj). rewrite Hw in Hd.
    split; [done|]. lia.
Qed.

Lemma wrun_ind (P : W → Prop) acts w w' :
  (∀ a w w', do_wact range a w = Some (Val ((), w')) → P w → P w') →
  P w → wrun range acts w = Some (Val w') → P w'.
Proof.
  intros Hstep. revert w. induction acts as [|a acts IH]; intros w Hw Hr; simpl in Hr.
  { by simplify_eq. }
  destruct (do_wact range a w) as [[[[] w1]|]|] eqn:Ha; [|done..]. eauto.
Qed.


Lemma wrun_app acts1 acts2 w :
  wrun range (acts1 ++ acts2) w =
  match wrun range acts1 w with
  | Some (Val w1) => wrun range acts2 w1
  | Some (Panics q) => Some (Panics q)
  | None => None
  end.
Proof.
  revert w. induction acts1 as [|a acts1 IH]; intros w; simpl; [done|].
  destruct (do_wact range a w) as [[[[] w1]|]|]; [apply IH|done..].
Qed.

(** A new worker, whatever its limit. *)
Lemma New_dinv lim w0 :
  New_worker lim = Val w0 →
  dinv (if decide (lim ≠ 0)%Z then Some (lim - 1)%Z else None) w0 ∧ (0 ≤ lim)%Z.
Proof.
  unfold New_worker. case_decide; [done|]. intros [= <-]. split; [|lia].
  unfold dinv. simpl. case_decide; simpl; split_and!; (done || lia).
Qed.

(** C6: the limit holds.  A worker made with [New(limit)], [limit > 0], never has
    more than [limit] jobs dispatched and not yet ended, in any interleaving of
    its methods, the packets of any number of agents, jobs ending in any order
    and the hand-over of the channel; and jobs and tokens always agree. *)
Theorem dispatch_bounded lim acts w0 w :
  New_worker lim = Val w0 → lim ≠ 0%Z → wrun range acts w0 = Some (Val w) →
  (Z.of_nat (length (jobs (ds w))) ≤ lim)%Z ∧
  Z.of_nat (length (jobs (ds w))) =
    (tokens (ds w) + match waiting (ds w) with Some _ => 1 | None => 0 end)%Z.
Proof.
  intros [Hd Hlim]%New_dinv Hne Hr. rewrite decide_True in Hd by done.
  assert (dinv (Some (lim - 1)%Z) w) as (_ & Ht & Hj)
    by (eapply wrun_ind; eauto using do_wact_dinv).
  split; [|done]. destruct (waiting (ds w)); lia.
Qed.

(** C32: the hand-over cannot deadlock.  While the main loop is parked on the
    channel, some goroutine can move: the send itself, a job that has ended, or
    a job still executing; and once any job has ended, the send or that job's
    receive is enabled, so a parked main loop always resumes. *)
Theorem dispatch_no_deadlock lim acts w0 w i :
  New_worker lim = Val w0 → lim ≠ 0%Z → wrun range acts w0 = Some (Val w) →
  waiting (ds w) = Some i →
  (do_wact range ATokenSend w ≠ None ∨
   ∃ j x, jobs (ds w) !! j = Some x) ∧
  ∀ j x e, jobs (ds w) !! j = Some x → j_state x = Finishing e →
    do_wact range ATokenSend w ≠ None ∨ do_wact range (AJobFinish j) w ≠ None ∨
    do_wact range (ARendezvous j) w ≠ None.
Proof.
  intros [Hd Hlim]%New_dinv Hne Hr Hw. rewrite decide_True in Hd by done.
  assert (dinv (Some (lim - 1)%Z) w) as (Hl & Ht & Hj)
    by (eapply wrun_ind; eauto using do_wact_dinv).
  simpl. rewrite Hw, Hl in *. split.
  - right. destruct (jobs (ds w)) as [|x js]; [simpl in Hj; lia|]. by exists 0, x.
  - intros j [ai p st] e Hx Hst. simpl in Hst. subst st. rewrite Hx.
    destruct (decide (tokens (ds w) < lim - 1)%Z); [by left|right].
    destruct (decide (0 < tokens (ds w))%Z); [by left|right].
    rewrite decide_True by lia. done.
Qed.
End dispatch_facts.

(** ** Closing *)

(** The shutdown state is untouched. *)
Definition same_shutdown (w w' : W) : Prop :=
  sd w' = sd w ∧ closed (wk w') = closed (wk w).

#[export] Instance same_shutdown_preorder : PreOrder same_shutdown.
Proof. split; unfold same_shutdown; [done|]. intros ??? [??] [??]. split; congruence. Qed.

(** A program that leaves the shutdown state alone and closes no channel twice. *)
Definition calm {A} (m : M A) : Prop := ∀ w,
  match m w with
  | Val (_, w') => same_shutdown w w'
  | Panics p => p ≠ CloseOfClosedChannel
  end.

Lemma calm_bind {A B} (m : M A) (f : A → M B) :
  calm m → (∀ a, calm (f a)) → calm (m ≫= f).
Proof.
  intros Hm Hf w. unfold mbind, M_bind. specialize (Hm w).
  destruct (m w) as [[a w1]|q]; [|done]. specialize (Hf a w1).
  destruct (f a w1) as [[b w2]|q]; [|done]. by etrans.
Qed.

Lemma calm_ret {A} (a : A) : calm (mret a).
Proof. intros w. by split. Qed.

Lemma calm_getW : calm getW.
Proof. intros w. by split. Qed.

Lemma calm_modW f : (∀ w, same_shutdown w (f w)) → calm (modW f).
Proof. intros Hf w. apply Hf. Qed.

Lemma calm_lift {A} (o : outcome A) : o ≠ Panics CloseOfClosedChannel → calm (lift o).
Proof. intros Ho w. unfold lift. destruct o; [by split|congruence]. Qed.

Lemma calm_for_each {A} (xs : list A) f : (∀ x, calm (f x)) → calm (for_each xs f).
Proof.
  intros Hf. induction xs as [|x xs IH]; [apply calm_ret|].
  apply calm_bind; [apply Hf|]. intros _. apply IH.
Qed.

Lemma outcome_bind_ne {A B} p (o : outcome A) (f : A → outcome B) :
  o ≠ Panics p → (∀ a, f a ≠ Panics p) → (o ≫= f) ≠ Panics p.
Proof. intros Ho Hf. destruct o; simpl; [apply Hf|]. congruence. Qed.

Ltac calm_by known := repeat first
  [ match goal with |- ∀ _, _ => intro end | known
  | apply calm_ret | apply calm_getW | apply calm_modW; intros; by split
  | apply calm_lift; done | apply calm_bind
  | apply calm_for_each | progress cbv zeta | case_decide | case_match ].
Ltac calm := calm_by fail.

Section close_facts.
Context `{GoArch}.
Variable range : jobFuncs → list (bytes * jobFunc).

Lemma prepFuncOutpack_calm n t : calm (lift (prepFuncOutpack n t)).
Proof.
  apply calm_lift. unfold prepFuncOutpack. case_decide; [done|]. cbv zeta.
  apply outcome_bind_ne; [unfold getBuffer, make_bytes; by case_decide|]. intros d.
  apply outcome_bind_ne; [unfold copy_in; by case_decide|]. intros [d1 ?].
  apply outcome_bind_ne; [unfold set_idx; by case_decide|]. intros d2.
  apply outcome_bind_ne; [unfold copy_in; by case_decide|]. by intros [? ?].
Qed.

Lemma prep_all_calm fs : calm (lift (prep_all fs)).
Proof.
  apply calm_lift. induction fs as [|[n f] fs IH]; simpl; [done|].
  apply outcome_bind_ne; [|intros o; by apply outcome_bind_ne].
  intros E. pose proof (prepFuncOutpack_calm n (jf_timeout f)
    (mkW (mkWorker ∅ false false false [] false None None) (mkNet [] []) (mkDispatch [] 0 None [])
      (mkLog [] []) (mkShutdown false 0))) as Hc. unfold lift in Hc. by rewrite E in Hc.
Qed.

Lemma connect_all_calm ixs d : calm (connect_all ixs d).
Proof. induction ixs as [|i ixs IH]; simpl; calm; apply IH. Qed.

Lemma Ready_calm d : calm (Ready range d).
Proof.
  unfold Ready, addFunc, mod_wk. calm; try apply connect_all_calm; apply prepFuncOutpack_calm.
Qed.

Lemma calm_recovering {A} (m : M A) ok panicked :
  calm m → (∀ a, calm (ok a)) → calm panicked → calm (recovering m ok panicked).
Proof.
  intros Hm Ho Hp w. unfold recovering. specialize (Hm w).
  destruct (m w) as [[x w1]|]; [|apply Hp]. specialize (Ho x w1).
  destruct (ok x w1) as [[[] w2]|]; [|done]. by etrans.
Qed.

Lemma send_report_calm i p r : calm (send_report i p r).
Proof.
  unfold send_report. calm. apply calm_lift.
  assert (∀ b s1 s2 c, copy_in b s1 s2 c ≠ Panics CloseOfClosedChannel) as Hc
    by (intros; unfold copy_in; by case_decide).
  assert (∀ n, getBuffer n ≠ Panics CloseOfClosedChannel) as Hg
    by (intros; unfold getBuffer, make_bytes; by case_decide).
  destruct r; simpl; unfold SendData, SendWarning, data_outpack, UpdateStatus; cbv zeta;
    repeat first [apply outcome_bind_ne; [solve [apply Hc|apply Hg]|]
                 |match goal with |- ∀ _, _ => intros [? ?] || intro end | done].
Qed.

Lemma job_step_calm j x m :
  m = job_start j x ∨ job_report_step j x = Some m ∨ job_return j x = Some m ∨
  job_timeout j x = Some m ∨ job_write j x = Some m → calm m.
Proof.
  assert (∀ st, calm (set_job j st)) as Hset by (intros; unfold set_job, mod_ds; calm).
  assert (∀ d e, calm (job_check j d e)) as Hck by (intros; unfold job_check; calm).
  intros [->|[Hm|[Hm|[Hm|Hm]]]].
  - unfold job_start. calm.
  - unfold job_report_step in Hm. case_match; try done. destruct rs as [|r rs]; [done|].
    injection Hm as <-. apply calm_recovering; [apply send_report_calm|intros; apply Hset|apply Hset].
  - unfold job_return in Hm. repeat case_match; simplify_eq; first [apply Hset | apply Hck].
  - unfold job_timeout in Hm. repeat case_match; simplify_eq. apply calm_bind; [|intros _].
    + unfold add_stray, mod_ds. calm.
    + apply Hck.
  - unfold job_write in Hm. case_match; simplify_eq.
    apply calm_recovering; [calm|intros; apply Hset|apply Hset].
Qed.

Lemma stray_step_calm k x m : stray_step k x = Some m → calm m.
Proof.
  unfold stray_step. case_match; [done|]. intros [= <-].
  apply calm_recovering; [apply send_report_calm|intros; unfold set_stray, mod_ds; calm..].
Qed.

Lemma do_wact_calm a w :
  a ≠ ACloseBegin → a ≠ ACloseFinish →
  match do_wact range a w with
  | None => True
  | Some (Val (_, w')) => same_shutdown w w'
  | Some (Panics p) => p ≠ CloseOfClosedChannel
  end.
Proof.
  intros H1 H2.
  assert (∀ m : M unit, calm m → match Some (m w) with
    | None => True | Some (Val (_, w')) => same_shutdown w w'
    | Some (Panics p) => p ≠ CloseOfClosedChannel end) as Hk by (intros m Hm; apply Hm).
  assert (∀ j e, calm (job_end j e)) as Hje by (intros; unfold job_end, werr, mod_ds, mod_lg; calm).
  assert (∀ i, calm (send_done i)) as Hsd by (intros; unfold send_done, Grab, mod_ds; calm).
  destruct a; simpl; try done; try (apply Hk); try by split.
  - calm_by ltac:(apply Ready_calm).
  - unfold Work_start, mod_wk, Grab. calm_by ltac:(apply Ready_calm).
  - unfold AddFunc, addFunc, mod_wk. calm. apply prepFuncOutpack_calm.
  - unfold RemoveFunc, removeFunc, mod_wk. calm.
  - unfold Reset, Reset_send, Reset_clear, mod_wk. calm.
  - unfold Echo. calm.
  - unfold SetId, mod_wk. calm.
  - unfold reconnect, publish_conn, funcOutpacks, mod_nt, Grab. calm. apply prep_all_calm.
  - destruct (waiting (ds w)); [done|]. apply Hk.
    unfold handleInPack, customeHandler, PreSleep, Grab, mod_ds. calm.
  - unfold werr, mod_lg. calm.
  - destruct (jobs (ds w) !! j) as [x|]; [|done]. simpl.
    destruct (j_state x); [|done..]. apply Hk. eapply job_step_calm. by left.
  - destruct (jobs (ds w) !! j) as [x|]; [|done]. simpl.
    destruct (job_report_step j x) as [m|] eqn:Hm; [|done]. apply Hk. eapply job_step_calm. eauto.
  - destruct (jobs (ds w) !! j) as [x|]; [|done]. simpl.
    destruct (job_return j x) as [m|] eqn:Hm; [|done]. apply Hk. eapply job_step_calm. eauto.
  - destruct (jobs (ds w) !! j) as [x|]; [|done]. simpl.
    destruct (job_timeout j x) as [m|] eqn:Hm; [|done]. apply Hk. eapply job_step_calm. eauto.
  - destruct (jobs (ds w) !! j) as [x|]; [|done]. simpl.
    destruct (job_write j x) as [m|] eqn:Hm; [|done]. apply Hk. eapply job_step_calm. eauto 6.
  - destruct (strays (ds w) !! k) as [x|]; [|done]. simpl.
    destruct (stray_step k x) as [m|] eqn:Hm; [|done]. apply Hk. by eapply stray_step_calm.
  - destruct (jobs (ds w) !! j) as [[ai p [| | |e]]|]; [done..| |done].
    destruct (limit (wk w)); [|apply Hk, Hje]. case_decide; [|done].
    apply Hk. unfold add_tokens, mod_ds. calm_by ltac:(apply Hje).
  - destruct (waiting (ds w)) as [i|]; [|done]. destruct (limit (wk w)); [|done].
    case_decide; [|done]. apply Hk. unfold add_tokens, mod_ds. calm_by ltac:(apply Hsd).
  - destruct (waiting (ds w)) as [i|]; [|done]. destruct (limit (wk w)); [|done].
    destruct (jobs (ds w) !! j) as [[ai p [| | |e]]|]; [done..| |done]. case_decide; [|done].
    apply Hk, calm_bind; [apply Hje|]. intros _. apply Hsd.
Qed.

(** As many calls have passed the guard as have closed [quit] or are about to. *)
Definition qinv (w : W) : Prop :=
  closers (sd w) + (if quit_closed (sd w) then 1 else 0) = (if closed (wk w) then 1 else 0).

Lemma do_wact_qinv a w :
  qinv w →
  match do_wact range a w with
  | None => True
  | Some (Val (_, w')) => qinv w'
  | Some (Panics p) => p ≠ CloseOfClosedChannel
  end.
Proof.
  intros Hq.
  assert (a ≠ ACloseBegin → a ≠ ACloseFinish → match do_wact range a w with
    | None => True | Some (Val (_, w')) => qinv w'
    | Some (Panics p) => p ≠ CloseOfClosedChannel end) as Hcalm.
  { intros H1 H2. pose proof (do_wact_calm a w H1 H2) as Hc.
    destruct (do_wact range a w) as [[[[] w']|]|]; [|done..].
    destruct Hc as [E1 E2]. unfold qinv. by rewrite E1, E2. }
  destruct a; try (by apply Hcalm); unfold qinv in *; simpl.
  - unfold Close_begin, mbind, M_bind, getW.
    destruct (closed (wk w)) eqn:Hc; simpl; rewrite ?Hc; destruct (quit_closed (sd w)); lia.
  - case_decide; [done|]. unfold Close_finish, mbind, M_bind, getW, lift, mod_sd, mod_nt, modW.
    destruct (quit_closed (sd w)), (closed (wk w)) eqn:Hc; simpl; rewrite ?Hc;
      first [lia | exfalso; lia].
Qed.

(** [Close] is idempotent and safe under concurrency.  However many calls of
    [Close] overlap with each other and with everything else the worker does,
    the channel [quit] is closed at most once, so closing it never panics, and
    once a [Close] has run the worker stays closed. *)
Theorem quit_closed_once lim acts w0 :
  New_worker lim = Val w0 →
  wrun range acts w0 ≠ Some (Panics CloseOfClosedChannel) ∧
  ∀ w, wrun range acts w0 = Some (Val w) → quit_closed (sd w) = true → closed (wk w) = true.
Proof.
  intros Hn. assert (qinv w0) as Hq.
  { unfold New_worker in Hn. case_decide; simplify_eq. done. }
  clear Hn. revert w0 Hq. induction acts as [|a acts IH]; intros w0 Hq; simpl.
  - split; [done|]. intros w [= <-] Hc. unfold qinv in Hq. rewrite Hc in Hq.
    destruct (closed (wk w0)); [done|lia].
  - pose proof (do_wact_qinv a w0 Hq) as Hs.
    destruct (do_wact range a w0) as [[[[] w1]|p]|]; [by apply IH|split; [congruence|done]|done].
Qed.
End close_facts.

(** ** Witnesses *)

(** One server, limit one, two jobs: the second is dispatched only after the
    first has ended. *)
Definition one_by_one : list wact :=
  [AAddServer; AAddFunc (str "f") (λ p, ([], Returns (iData p) None)) 0; AWork (λ _, None);
   APacket 0 (mkInPack dtJobAssign (Some []) (str "H:1") [] (str "f")); AJobStart 0; AJobReturn 0;
   AJobWrite 0].

Definition new_one : W :=
  match New_worker 1 with
  | Val w => w
  | Panics _ => mkW (mkWorker ∅ false false false [] false None None) (mkNet [] [])
                  (mkDispatch [] 0 None []) (mkLog [] []) (mkShutdown false 0)
  end.

Definition after_acts (acts : list wact) : W :=
  match wrun (H := W64) map_to_list acts new_one with Some (Val w) => w | _ => new_one end.

Lemma dispatch_bounded_witness :
  (Z.of_nat (length (jobs (ds (after_acts one_by_one)))) ≤ 1)%Z.
Proof.
  refine (proj1 (dispatch_bounded (H := W64) map_to_list 1 one_by_one new_one _ _ _ _)).
  - reflexivity.
  - lia.
  - vm_compute. reflexivity.
Defined.

Lemma dispatch_no_deadlock_witness :
  do_wact (H := W64) map_to_list ATokenSend (after_acts one_by_one) ≠ None ∨
  do_wact (H := W64) map_to_list (AJobFinish 0) (after_acts one_by_one) ≠ None ∨
  do_wact (H := W64) map_to_list (ARendezvous 0) (after_acts one_by_one) ≠ None.
Proof.
  eapply (proj2 (dispatch_no_deadlock (H := W64) map_to_list 1 one_by_one new_one
    (after_acts one_by_one) 0 _ _ _ _)).
  - vm_compute. reflexivity.
  - vm_compute. reflexivity.
  Unshelve.
  + reflexivity.
  + lia.
  + vm_compute. reflexivity.
  + vm_compute. reflexivity.
Defined.

Lemma quit_closed_once_witness :
  wrun (H := W64) map_to_list [ACloseBegin; ACloseBegin; ACloseFinish; ACloseBegin] new_one
    ≠ Some (Panics CloseOfClosedChannel).
Proof. refine (proj1 (quit_closed_once (H := W64) map_to_list 1 _ new_one _)). reflexivity. Defined.
