(* ===== verification/WorkerAbilities.v ===== *)
(** * What the job servers know of a worker: worker/worker.go, worker/agent.go

    A job server learns a worker's functions from the CAN_DO, CAN_DO_TIMEOUT,
    CANT_DO and RESET_ABILITIES packets on the worker's connection.  [abilities]
    is the server's side of that protocol.  The theorems say that the worker's
    table and what every server believes stay equal while the worker runs, and
    how a job is answered. *)

From S2P Require Import Prelude GoStd Protocol ClientWire WorkerPack AgentIO Agent Worker.
Import WC.

(** ** The job server's side *)

(** The effect of one packet on the functions a server has on record for a
    connection, each with its timeout. *)
Definition ability (m : gmap bytes Z) (o : outPack) : gmap bytes Z :=
  if decide (oType o = dtCanDo) then <[out_body o := 0%Z]> m
  else if decide (oType o = dtCanDoTimeout) then
    match split_nul (out_body o) with
    | Some (name, t) => <[name := digits_value t]> m
    | None => m
    end
  else if decide (oType o = dtCantDo) then delete (out_body o) m
  else if decide (oType o = dtResetAbilities) then ∅
  else m.

Definition abilities (log : list outPack) : gmap bytes Z := fold_left ability log ∅.

(** The packet that announces a function. *)
Definition can_do (name : bytes) (t : Z) : outPack :=
  if decide (t = 0)%Z then mkOutPack dtCanDo (Some name) []
  else mkOutPack dtCanDoTimeout (Some (name ++ x00 :: FormatUint t)) [].

(** Packets that say nothing about abilities. *)
Definition neutral (o : outPack) : Prop :=
  oType o ∉ [dtCanDo; dtCanDoTimeout; dtCantDo; dtResetAbilities].

(** ** Agents and their connections *)

(** What has been written to the current connection of agent [i]. *)
Definition view (i : nat) (w : W) : option (list outPack) :=
  a ← agents (nt w) !! i; c ← getRW a; wires (nt w) !! c.

(** Every agent has a connection of its own. *)
Record nwf (n : Net) : Prop := {
  nwf_conn : ∀ i a, agents n !! i = Some a → ∃ c, getRW a = Some c ∧ c < length (wires n);
  nwf_own : ∀ i j a b c, agents n !! i = Some a → agents n !! j = Some b →
    getRW a = Some c → getRW b = Some c → i = j
}.

(** Only the network has changed, each agent's log by [f]. *)
Record net_step (f : nat → list outPack → list outPack) (w w' : W) : Prop := {
  ns_wk : wk w' = wk w;
  ns_ds : ds w' = ds w;
  ns_lg : lg w' = lg w;
  ns_sd : sd w' = sd w;
  ns_wf : nwf (nt w');
  ns_len : length (agents (nt w')) = length (agents (nt w));
  ns_view : ∀ j, view j w' = f j <$> view j w
}.

Lemma net_step_trans f g w1 w2 w3 :
  net_step f w1 w2 → net_step g w2 w3 → net_step (λ j l, g j (f j l)) w1 w3.
Proof.
  intros [] []. split; try congruence. intros j. rewrite ns_view1, ns_view0.
  by destruct (view j w1).
Qed.

Lemma net_step_ext f g w w' : (∀ j l, f j l = g j l) → net_step f w w' → net_step g w w'.
Proof.
  intros Hfg []. split; try done. intros j. rewrite ns_view0.
  destruct (view j w); simpl; [by rewrite Hfg|done].
Qed.

Lemma net_step_refl w : nwf (nt w) → net_step (λ _ l, l) w w.
Proof. intros Hw. split; try done. intros j. by destruct (view j w). Qed.

Lemma agent_Write_step i o w :
  nwf (nt w) → i < length (agents (nt w)) →
  ∃ w', agent_Write i o w = Val ((), w') ∧
    net_step (λ j l, if decide (j = i) then l ++ [o] else l) w w'.
Proof.
  intros [Hc Ho] Hi. apply lookup_lt_is_Some_2 in Hi as [a Ha].
  destruct (Hc i a Ha) as (c & Hrw & Hlt).
  unfold agent_Write, mbind at 1, M_bind, getW. rewrite Ha. simpl. rewrite Hrw.
  eexists. split; [reflexivity|]. split; simpl; try done.
  - split; simpl; [|done]. intros j b Hb. rewrite length_alter. eauto.
  - intros j. unfold view. simpl. destruct (agents (nt w) !! j) as [b|] eqn:Hb; [|done]. simpl.
    destruct (getRW b) as [c'|] eqn:Hrb; [|done]. simpl. rewrite list_lookup_alter.
    destruct (decide (j = i)) as [->|Hne].
    + simplify_eq. by rewrite decide_True.
    + rewrite decide_False; [by destruct (wires (nt w) !! c')|]. intros ->. by eapply Hne, Ho.
Qed.

(** Several packets to one agent, and one packet to all of them. *)
Lemma writes_step i os w :
  nwf (nt w) → i < length (agents (nt w)) →
  ∃ w', for_each os (agent_Write i) w = Val ((), w') ∧
    net_step (λ j l, if decide (j = i) then l ++ os else l) w w'.
Proof.
  revert w. induction os as [|o os IH]; intros w Hw Hi; simpl.
  { exists w. split; [done|]. eapply net_step_ext; [|by apply net_step_refl].
    intros j l. simpl. case_decide; by rewrite ?app_nil_r. }
  destruct (agent_Write_step i o w Hw Hi) as (w1 & E1 & S1).
  destruct (IH w1) as (w2 & E2 & S2); [apply S1|by rewrite (ns_len _ _ _ S1)|].
  exists w2. split.
  - unfold mbind, M_bind. by rewrite E1.
  - eapply net_step_ext; [|by eapply net_step_trans]. intros j l. simpl.
    case_decide; [|done]. by rewrite <- app_assoc.
Qed.

Lemma broadcast_step o w :
  nwf (nt w) → ∃ w', broadcast o w = Val ((), w') ∧ net_step (λ _ l, l ++ [o]) w w'.
Proof.
  intros Hw. unfold broadcast, mbind at 1, M_bind, getW.
  assert (∀ ixs w1, NoDup ixs → nwf (nt w1) → Forall (λ i, i < length (agents (nt w1))) ixs →
    ∃ w', for_each ixs (λ i, agent_Write i o) w1 = Val ((), w') ∧
      net_step (λ j l, if decide (j ∈ ixs) then l ++ [o] else l) w1 w') as Hgen.
  { clear. induction ixs as [|i ixs IH]; intros w1 Hnd Hw Hall; cbn [for_each].
    { exists w1. split; [done|]. eapply net_step_ext; [|by apply net_step_refl].
      intros j l. by rewrite decide_False by set_solver. }
    apply list.NoDup_cons in Hnd as [Hi Hnd]. apply Forall_cons_1 in Hall as [Hlt Hall].
    destruct (agent_Write_step i o w1 Hw Hlt) as (w2 & E2 & S2).
    destruct (IH w2) as (w3 & E3 & S3); [done|apply S2|by rewrite (ns_len _ _ _ S2)|].
    exists w3. split; [unfold mbind, M_bind; by rewrite E2|].
    eapply net_step_ext; [|by eapply net_step_trans]. intros j l. cbv beta.
    repeat case_decide; subst; (done || set_solver). }
  destruct (Hgen (seq 0 (length (agents (nt w)))) w) as (w' & E & S).
  - apply NoDup_seq.
  - done.
  - apply list.Forall_forall. intros i Hi%elem_of_seq. lia.
  - exists w'. split; [done|]. destruct S. split; try done.
    intros j. rewrite ns_view0. destruct (view j w) as [l|] eqn:Hv; [|done]. simpl.
    rewrite decide_True; [done|]. apply elem_of_seq. unfold view in Hv.
    destruct (agents (nt w) !! j) as [a|] eqn:Ha; [|done]. apply lookup_lt_Some in Ha. lia.
Qed.

(** ** Abilities of a log *)

Lemma abilities_app l os : abilities (l ++ os) = fold_left ability os (abilities l).
Proof. unfold abilities. apply fold_left_app. Qed.

Lemma abilities_snoc l o : abilities (l ++ [o]) = ability (abilities l) o.
Proof. apply abilities_app. Qed.

Lemma ability_can_do m name t :
  x00 ∉ name → (0 ≤ t)%Z → ability m (can_do name t) = <[name := t]> m.
Proof.
  intros Hn Ht. unfold can_do. case_decide as H0; [by subst|].
  unfold ability, out_body. simpl. rewrite split_nul_app by done.
  by destruct (FormatUint_spec t Ht) as (_ & _ & ->).
Qed.

Lemma ability_neutral m o : neutral o → ability m o = m.
Proof.
  unfold neutral, ability. intros Ho. rewrite !decide_False by set_solver. done.
Qed.

(** Announcing a list of functions with distinct names. *)
Lemma fold_insert_lookup (fs : list (bytes * jobFunc)) (m : gmap bytes Z) k :
  NoDup fs.*1 →
  fold_left (λ m p, <[p.1 := jf_timeout p.2]> m) fs m !! k =
  match (list_to_map fs : jobFuncs) !! k with Some f => Some (jf_timeout f) | None => m !! k end.
Proof.
  revert m. induction fs as [|[n f] fs IH]; intros m Hnd; csimpl; [done|].
  apply list.NoDup_cons in Hnd as [Hn Hnd]. rewrite IH by done.
  destruct (decide (n = k)) as [->|Hne].
  - rewrite lookup_insert_eq. rewrite (not_elem_of_list_to_map_1 fs k) by done.
    by rewrite lookup_insert_eq.
  - by rewrite !lookup_insert_ne by done.
Qed.

Lemma abilities_announced (fs : list (bytes * jobFunc)) (m : jobFuncs) :
  fs ≡ₚ map_to_list m → map_Forall (λ n f, x00 ∉ n ∧ (0 ≤ jf_timeout f)%Z) m →
  abilities ((λ p, can_do p.1 (jf_timeout p.2)) <$> fs) = jf_timeout <$> m.
Proof.
  intros Hp Hok.
  assert (∀ m0, fold_left ability ((λ p, can_do p.1 (jf_timeout p.2)) <$> fs) m0 =
    fold_left (λ m p, <[p.1 := jf_timeout p.2]> m) fs m0) as Hf.
  { assert (Forall (λ p, x00 ∉ p.1 ∧ (0 ≤ jf_timeout p.2)%Z) fs) as Hall.
    { apply list.Forall_forall. intros [n f] Hin. rewrite Hp in Hin.
      apply elem_of_map_to_list in Hin. by apply (Hok n f). }
    clear Hp Hok. induction Hall as [|p fs [H1 H2] _ IH]; intros m0; csimpl; [done|].
    by rewrite ability_can_do, IH. }
  assert (NoDup fs.*1) as Hnd by (rewrite Hp; apply NoDup_fst_map_to_list).
  unfold abilities. rewrite Hf. apply map_eq. intros k.
  rewrite fold_insert_lookup by done. rewrite (list_to_map_proper _ _ Hnd Hp).
  rewrite list_to_map_to_list, lookup_fmap, lookup_empty. by destruct (m !! k).
Qed.

Section abilities.
Context `{GoArch}.

(** A function a job server can be told about. *)
Definition fvalid (name : bytes) (t : Z) : Prop :=
  x00 ∉ name ∧ (0 ≤ t < 2 ^ 32)%Z ∧ (blen name + blen (FormatUint t) + 1 ≤ max_int)%Z.

Lemma prepFuncOutpack_spec name t :
  fvalid name t → prepFuncOutpack name t = Val (can_do name t).
Proof.
  intros (_ & _ & Hf). unfold prepFuncOutpack, can_do. case_decide; [done|].
  set (ts := FormatUint t) in *. pose proof (blen_nonneg name). pose proof (blen_nonneg ts).
  rewrite go_int_range by lia. unfold getBuffer. rewrite make_bytes_nonneg by lia.
  rewrite outcome_bind_ret.
  rewrite (replicate_split _ (length name) (1 + length ts)) by (unfold blen; lia).
  rewrite copy_in_prefix; [|by rewrite length_replicate|lenlia].
  rewrite outcome_bind_ret. cbv beta iota. rewrite replicate_add.
  change (replicate 1 x00) with [x00].
  rewrite (set_idx_app name x00 x00) by done. rewrite outcome_bind_ret, (app_assoc name).
  rewrite copy_all; [|lenlia|by rewrite length_replicate].
  simpl. by rewrite <- app_assoc.
Qed.

Definition funcs_ok (m : jobFuncs) : Prop := map_Forall (λ n f, fvalid n (jf_timeout f)) m.

Lemma funcs_ok_weak m :
  funcs_ok m → map_Forall (λ n f, x00 ∉ n ∧ (0 ≤ jf_timeout f)%Z) m.
Proof. intros Hm n f Hn. destruct (Hm n f Hn) as (? & ? & _). split; [done|lia]. Qed.

Lemma prep_all_spec fs :
  Forall (λ p, fvalid p.1 (jf_timeout p.2)) fs →
  prep_all fs = Val ((λ p, can_do p.1 (jf_timeout p.2)) <$> fs).
Proof.
  induction 1 as [|[n f] fs Hf _ IH]; [done|]. csimpl in *.
  by rewrite prepFuncOutpack_spec, outcome_bind_ret, IH.
Qed.

Lemma range_valid (fs : list (bytes * jobFunc)) m :
  fs ≡ₚ map_to_list m → funcs_ok m → Forall (λ p, fvalid p.1 (jf_timeout p.2)) fs.
Proof.
  intros Hp Hok. apply list.Forall_forall. intros [n f] Hin. rewrite Hp in Hin.
  apply elem_of_map_to_list in Hin. by apply (Hok n f).
Qed.

Lemma addFunc_step name t w :
  nwf (nt w) → fvalid name t →
  ∃ w', addFunc name t w = Val ((), w') ∧ net_step (λ _ l, l ++ [can_do name t]) w w'.
Proof.
  intros Hw Hv. unfold addFunc, mbind, M_bind, lift. rewrite prepFuncOutpack_spec by done.
  by apply broadcast_step.
Qed.

(** Every server believes what the worker's table says. *)
Definition synced (w : W) : Prop :=
  ∀ j, j < length (agents (nt w)) →
    abilities <$> view j w = Some (jf_timeout <$> funcs (wk w)).

(** Jobs, functions that outlive them and the main loop's hand-over are for one
    of [n] agents. *)
Record ds_ok (n : nat) (d : Dispatch) : Prop := {
  do_jobs : Forall (λ x, j_agent x < n) (jobs d);
  do_wait : ∀ i, waiting d = Some i → i < n;
  do_strays : Forall (λ x, s_agent x < n) (strays d)
}.

(** A running worker, connected to all its servers. *)
Record sinv (w : W) : Prop := {
  si_wf : nwf (nt w);
  si_running : running (wk w) = true;
  si_ok : funcs_ok (funcs (wk w));
  si_sync : synced w;
  si_ds : ds_ok (length (agents (nt w))) (ds w)
}.

Lemma net_step_sinv f w w' :
  net_step f w w' →
  (∀ j l, abilities l = jf_timeout <$> funcs (wk w) →
          abilities (f j l) = jf_timeout <$> funcs (wk w)) →
  sinv w → sinv w'.
Proof.
  intros [] Hf []. split; [done|congruence|by rewrite ns_wk0|..].
  - intros j Hj. rewrite ns_view0, ns_wk0.
    rewrite ns_len0 in Hj. specialize (si_sync0 j Hj).
    destruct (view j w) as [l|]; [|done]. simpl in *. f_equal. apply Hf. by simplify_eq.
  - by rewrite ns_ds0, ns_len0.
Qed.

(** Changes outside the network, the table and the running flag. *)
Lemma frame_sinv w w' :
  nt w' = nt w → funcs (wk w') = funcs (wk w) → running (wk w') = running (wk w) →
  ds_ok (length (agents (nt w))) (ds w') → sinv w → sinv w'.
Proof.
  intros E1 E2 E3 Hd []. split; rewrite ?E1, ?E2, ?E3; try done.
  intros j. unfold view. rewrite E1, E2. apply si_sync0.
Qed.

(** Programs that run to their end and keep the invariant. *)
Definition good {A} (n : nat) (m : M A) : Prop := ∀ w,
  sinv w → length (agents (nt w)) = n →
  ∃ a w', m w = Val (a, w') ∧ sinv w' ∧ length (agents (nt w')) = n.

Lemma good_bind {A B} n (m : M A) (f : A → M B) :
  good n m → (∀ a, good n (f a)) → good n (m ≫= f).
Proof.
  intros Hm Hf w Hw Hn. destruct (Hm w Hw Hn) as (a & w1 & E1 & Hw1 & Hn1).
  destruct (Hf a w1 Hw1 Hn1) as (b & w2 & E2 & ?). exists b, w2.
  split; [|done]. unfold mbind, M_bind. by rewrite E1.
Qed.

Lemma good_ret {A} n (a : A) : good n (mret a).
Proof. intros w Hw Hn. by exists a, w. Qed.

Lemma good_getW n : good n getW.
Proof. intros w Hw Hn. by exists w, w. Qed.

(** Updates of the log, the handlers and the worker's id. *)
Lemma good_mod n f :
  (∀ w, nt (f w) = nt w ∧ funcs (wk (f w)) = funcs (wk w) ∧
        running (wk (f w)) = running (wk w) ∧ ds (f w) = ds w) → good n (modW f).
Proof.
  intros Hf w Hw Hn. exists (), (f w). destruct (Hf w) as (E1 & E2 & E3 & E4).
  split_and!; [done| |by rewrite E1].
  apply (frame_sinv w); try done; rewrite E4; apply Hw.
Qed.

(** Updates of the jobs and of the main loop's agent. *)
Lemma good_mod_ds n f : (∀ d, ds_ok n d → ds_ok n (f d)) → good n (mod_ds f).
Proof.
  intros Hf w Hw Hn. eexists (), _. split; [reflexivity|]. simpl. split; [|done].
  apply (frame_sinv w); simpl; try done. rewrite Hn. apply Hf. rewrite <- Hn. apply Hw.
Qed.

Lemma good_write n i o : i < n → neutral o → good n (agent_Write i o).
Proof.
  intros Hi Ho w Hw <-. destruct (agent_Write_step i o w) as (w' & E & S); [apply Hw|done|].
  exists (), w'. split_and!; [done| |by apply S]. eapply net_step_sinv; [exact S| |done].
  intros j l Hl. cbv beta. case_decide; [|done]. by rewrite abilities_snoc, ability_neutral.
Qed.

Lemma good_broadcast n o : neutral o → good n (broadcast o).
Proof.
  intros Ho w Hw <-. destruct (broadcast_step o w) as (w' & E & S); [apply Hw|].
  exists (), w'. split_and!; [done| |by apply S]. eapply net_step_sinv; [exact S| |done].
  intros j l Hl. cbv beta. by rewrite abilities_snoc, ability_neutral.
Qed.

(** The types the worker writes besides. *)
Definition neutral_types : list Z :=
  [dtGrabJobUniq; dtPreSleep; dtEchoReq; dtSetClientId; dtWorkComplete; dtWorkFail;
   dtWorkException; dtWorkData; dtWorkWarning; dtWorkStatus].

Lemma neutral_const o : oType o ∈ neutral_types → neutral o.
Proof.
  assert (Forall (λ t, t ∉ [dtCanDo; dtCanDoTimeout; dtCantDo; dtResetAbilities]) neutral_types)
    as Hall by by_decide.
  rewrite list.Forall_forall in Hall. apply Hall.
Qed.

Lemma good_werr n e : good n (werr e).
Proof.
  unfold werr, mod_lg. apply good_bind; [apply good_getW|]. intros w0.
  destruct (errorHandler _); [by apply good_mod|apply good_ret].
Qed.

Lemma good_reply n i p d e : i < n → good n (agent_Write i (reply_pack p d e)).
Proof.
  intros Hi. apply good_write; [done|]. apply neutral_const. unfold reply_pack. simpl.
  destruct e; [case_decide|]; set_solver.
Qed.

Lemma report_pack_neutral p r o : report_pack p r = Val o → neutral o.
Proof.
  intros E. apply neutral_const. revert E.
  destruct r; simpl; unfold SendData, SendWarning, data_outpack, UpdateStatus; cbv zeta;
    rewrite !outcome_bind_Val; intros (? & _ & E); rewrite !outcome_bind_Val in E;
    destruct E as ([? ?] & _ & E); rewrite !outcome_bind_Val in E; destruct E as ([? ?] & _ & E);
    try (rewrite !outcome_bind_Val in E; destruct E as ([? ?] & _ & E)); injection E as <-; set_solver.
Qed.

(** A report is written, or its goroutine panics and nothing has happened. *)
Lemma good_report n i p r (ok panicked : M unit) :
  i < n → good n ok → good n panicked →
  good n (recovering (send_report i p r) (λ _, ok) panicked).
Proof.
  intros Hi Hok Hp w Hw Hn. unfold recovering, send_report, mbind, M_bind, lift.
  destruct (report_pack p r) as [o|] eqn:Ho; [|by apply Hp].
  destruct (good_write n i o Hi (report_pack_neutral _ _ _ Ho) w Hw Hn) as ([] & w1 & -> & Hw1 & Hn1).
  by apply Hok.
Qed.

Lemma good_recovering {A} n (m : M A) ok panicked :
  good n m → (∀ a, good n (ok a)) → good n (recovering m ok panicked).
Proof.
  intros Hm Hok w Hw Hn. unfold recovering. destruct (Hm w Hw Hn) as (a & w1 & -> & Hw1 & Hn1).
  by apply Hok.
Qed.

Lemma good_set_job n j st : good n (set_job j st).
Proof.
  apply good_mod_ds. intros d [Hd Hw Hs]. split; simpl; try done.
  apply Forall_alter; [done|]. intros y Hy _. rewrite list.Forall_forall in Hd.
  simpl. by eapply Hd, list_elem_of_lookup_2.
Qed.

Lemma good_job_check n j d e : good n (job_check j d e).
Proof. apply good_bind; [apply good_getW|]. intros w. apply good_set_job. Qed.

(** Every step of a job or of a function that outlives it. *)
Lemma good_job_step n j x m :
  j_agent x < n →
  m = job_start j x ∨ job_report_step j x = Some m ∨ job_return j x = Some m ∨
  job_timeout j x = Some m ∨ job_write j x = Some m → good n m.
Proof.
  intros Hi [->|[Hm|[Hm|[Hm|Hm]]]].
  - apply good_bind; [apply good_getW|]. intros w. apply good_set_job.
  - unfold job_report_step in Hm. case_match; try done. destruct rs as [|r rs]; [done|].
    injection Hm as <-. apply good_report; [done|apply good_set_job..].
  - unfold job_return in Hm. repeat case_match; simplify_eq;
      first [apply good_set_job | apply good_job_check].
  - unfold job_timeout in Hm. repeat case_match; simplify_eq. apply good_bind; [|intros _].
    + apply good_mod_ds. intros d []. split; simpl; try done. apply Forall_app. split; [done|].
      by repeat constructor.
    + apply good_job_check.
  - unfold job_write in Hm. case_match; simplify_eq.
    apply good_recovering; [by apply good_reply|intros; apply good_set_job].
Qed.

Lemma good_stray_step n k x m : s_agent x < n → stray_step k x = Some m → good n m.
Proof.
  intros Hi. unfold stray_step. case_match; [done|]. intros [= <-].
  assert (∀ rs, good n (set_stray k rs)) as Hset.
  { intros rs. apply good_mod_ds. intros d [Hd Hw Hs]. split; simpl; try done.
    apply Forall_alter; [done|]. intros y Hy _. rewrite list.Forall_forall in Hs.
    simpl. by eapply Hs, list_elem_of_lookup_2. }
  by apply good_report.
Qed.

Lemma good_custome n p : good n (customeHandler p).
Proof.
  unfold customeHandler, mod_lg. apply good_bind; [apply good_getW|]. intros w0.
  destruct (jobHandler _) as [h|]; [|apply good_ret].
  apply good_bind; [by apply good_mod|]. intros _. destruct (h p); [apply good_werr|apply good_ret].
Qed.

Lemma good_handle n i p : i < n → good n (handleInPack i p).
Proof.
  intros Hi. unfold handleInPack, PreSleep, Grab.
  assert (∀ o, o = grab_pack ∨ o = presleep_pack → good n (agent_Write i o)) as Hg.
  { intros o Ho. apply good_write; [done|]. apply neutral_const.
    destruct Ho as [-> | ->]; simpl; set_solver. }
  case_decide; [by apply Hg; right|]. case_decide; [by apply Hg; left|]. case_decide.
  - apply good_bind; [|intros _; apply good_bind; [apply good_getW|]; intros w0].
    + apply good_mod_ds. intros d []. split; simpl; try done. apply Forall_app.
      split; [done|]. by repeat constructor.
    + destruct (limit _); [|by apply Hg; left]. apply good_mod_ds. intros d []. split; simpl; try done.
      by intros k [= <-].
  - apply good_bind; [|intros _; apply good_custome]. case_decide; [|apply good_ret].
    destruct (inPack_Err p); [apply good_werr|apply good_ret].
Qed.

Lemma good_job_end n j e : good n (job_end j e).
Proof.
  unfold job_end. apply good_bind.
  - apply good_mod_ds. intros d []. split; simpl; try done. by apply Forall_delete.
  - intros _. destruct e; [apply good_werr|apply good_ret].
Qed.

Lemma good_send_done n i : i < n → good n (send_done i).
Proof.
  intros Hi. unfold send_done, Grab. apply good_bind.
  - apply good_mod_ds. intros d []. by split.
  - intros _. apply good_write; [done|]. apply neutral_const. simpl. set_solver.
Qed.

(** The table and the servers change together. *)
Lemma table_sinv w w' m' o :
  sinv w → wk w' = set_funcs m' (wk w) → ds w' = ds w → nwf (nt w') →
  length (agents (nt w')) = length (agents (nt w)) →
  (∀ j, view j w' = (λ l, l ++ [o]) <$> view j w) →
  ability (jf_timeout <$> funcs (wk w)) o = jf_timeout <$> m' → funcs_ok m' → sinv w'.
Proof.
  intros [] Ewk Eds Hwf Hlen Hview Hab Hok. split; rewrite ?Ewk, ?Eds, ?Hlen; try done.
  intros j Hj. rewrite Hview, Ewk. rewrite Hlen in Hj. specialize (si_sync0 j Hj).
  destruct (view j w) as [l|]; [|done]. simpl in *. f_equal.
  rewrite abilities_snoc. simplify_eq. congruence.
Qed.

(** [AddFunc] of a name that is free, on a running worker. *)
Lemma AddFunc_step name f t w :
  nwf (nt w) → running (wk w) = true → fvalid name t → funcs (wk w) !! name = None →
  ∃ w', AddFunc name f t w = Val (None, w') ∧
    wk w' = set_funcs (<[name := mkJobFunc f t]> (funcs (wk w))) (wk w) ∧ ds w' = ds w ∧
    nwf (nt w') ∧ length (agents (nt w')) = length (agents (nt w)) ∧
    ∀ j, view j w' = (λ l, l ++ [can_do name t]) <$> view j w.
Proof.
  intros Hw Hrun Hv Hf. unfold AddFunc, mbind at 1, M_bind, getW. rewrite Hf, Hrun.
  set (m' := <[name := mkJobFunc f t]> (funcs (wk w))).
  set (w1 := mkW (set_funcs m' (wk w)) (nt w) (ds w) (lg w) (sd w)).
  destruct (addFunc_step name t w1) as (w2 & E & S); [done|done|].
  exists w2. split_and!; try apply S.
  unfold mod_wk, modW, mbind, M_bind. fold m'. fold w1. by rewrite E.
Qed.

Lemma AddFunc_taken name f t w g :
  funcs (wk w) !! name = Some g → ∃ e, AddFunc name f t w = Val (Some e, w).
Proof. intros Hf. unfold AddFunc, mbind, M_bind, getW. rewrite Hf. by eexists. Qed.

Lemma good_AddFunc n name f t : fvalid name t → good n (AddFunc name f t).
Proof.
  intros Hv w Hw Hn. destruct (funcs (wk w) !! name) eqn:Hf.
  { destruct (AddFunc_taken name f t w _ Hf) as [e E]. by exists (Some e), w. }
  destruct (AddFunc_step name f t w) as (w2 & E & Ewk & Eds & Hwf & Hlen & Hview);
    [apply Hw|apply Hw|done|done|].
  exists None, w2. split_and!; [done| |congruence].
  eapply (table_sinv w w2 _ (can_do name t)); try done.
  - destruct Hv as (? & ? & _). rewrite ability_can_do by (done || lia). by rewrite fmap_insert.
  - apply map_Forall_insert_2; [done|apply Hw].
Qed.

Lemma good_RemoveFunc n name : good n (RemoveFunc name).
Proof.
  intros w Hw Hn. unfold RemoveFunc, mbind at 1, M_bind, getW.
  destruct (funcs (wk w) !! name) eqn:Hf; [|by eexists _, w].
  rewrite (si_running w Hw). set (m' := delete name (funcs (wk w))).
  set (w1 := mkW (set_funcs m' (wk w)) (nt w) (ds w) (lg w) (sd w)).
  set (o := mkOutPack dtCantDo (Some name) []).
  destruct (broadcast_step o w1) as (w2 & E & S); [apply Hw|].
  exists None, w2. split_and!.
  - unfold removeFunc, mod_wk, modW, mbind, M_bind. fold m'. fold w1. fold o. by rewrite E.
  - apply (table_sinv w w2 m' o); try apply S; [done|..].
    + change (delete name (jf_timeout <$> funcs (wk w)) = jf_timeout <$> m').
      unfold m'. by rewrite fmap_delete.
    + apply map_Forall_delete, Hw.
  - by rewrite (ns_len _ _ _ S).
Qed.

Lemma good_Reset n : good n Reset.
Proof.
  intros w Hw Hn. set (o := mkOutPack dtResetAbilities None []).
  destruct (broadcast_step o w) as (w2 & E & S); [apply Hw|]. unfold Reset, Reset_send, Reset_clear. fold o.
  eexists (), _. split_and!.
  - unfold mod_wk, modW, mbind, M_bind. rewrite E. reflexivity.
  - apply (table_sinv w _ ∅ o); simpl; try apply S; [done|by rewrite (ns_wk _ _ _ S)|..].
    + by rewrite fmap_empty.
    + apply map_Forall_empty.
  - simpl. by rewrite (ns_len _ _ _ S).
Qed.

(** The same without every agent being connected. *)
Record wwf (n : Net) : Prop := {
  wwf_conn : ∀ i a c, agents n !! i = Some a → getRW a = Some c → c < length (wires n);
  wwf_own : ∀ i j a b c, agents n !! i = Some a → agents n !! j = Some b →
    getRW a = Some c → getRW b = Some c → i = j
}.

Lemma nwf_wwf n : nwf n → wwf n.
Proof.
  intros [Hc Ho]. split; [|done]. intros i a c Ha Hrw.
  destruct (Hc i a Ha) as (c' & ? & ?). by simplify_eq.
Qed.

Lemma wwf_nwf w :
  wwf (nt w) → (∀ j, j < length (agents (nt w)) → is_Some (view j w)) → nwf (nt w).
Proof.
  intros [Hc Ho] Hv. split; [|done]. intros i a Ha.
  destruct (Hv i) as [l Hl]; [by eapply lookup_lt_Some|]. unfold view in Hl. rewrite Ha in Hl.
  simpl in Hl. destruct (getRW a) as [c|] eqn:Hrw; [|done]. eauto.
Qed.

Lemma publish_step i w :
  wwf (nt w) → i < length (agents (nt w)) →
  ∃ w', publish_conn i w = Val ((), w') ∧ wk w' = wk w ∧ ds w' = ds w ∧ lg w' = lg w ∧
    sd w' = sd w ∧ wwf (nt w') ∧ length (agents (nt w')) = length (agents (nt w)) ∧
    view i w' = Some [] ∧
    (∀ j, j ≠ i → view j w' = view j w ∧ agents (nt w') !! j = agents (nt w) !! j).
Proof.
  intros [Hc Ho] Hi. eexists. split; [reflexivity|]. simpl.
  apply lookup_lt_is_Some_2 in Hi as [a Ha].
  split_and!; [done..| |by rewrite length_alter| |].
  - split; simpl.
    + intros j b c. rewrite list_lookup_alter, length_app. simpl. case_decide as Hd.
      * subst. rewrite Ha. simpl. intros [= <-] [= <-]. lia.
      * intros Hb Hrw. pose proof (Hc j b c Hb Hrw). lia.
    + intros j k b b' c. rewrite !list_lookup_alter, Ha. simpl.
      destruct (decide (i = j)) as [<-|], (decide (i = k)) as [<-|]; [done| | |by eauto].
      * intros [= <-] Hb [= <-] Hrw. pose proof (Hc k b' _ Hb Hrw). lia.
      * intros Hb [= <-] Hrw [= <-]. pose proof (Hc j b _ Hb Hrw). lia.
  - unfold view. simpl. rewrite list_lookup_alter_eq, Ha. simpl. by apply list_lookup_middle.
  - intros j Hj. unfold view. simpl. rewrite list_lookup_alter_ne by done. split; [|done].
    destruct (agents (nt w) !! j) as [b|] eqn:Hb; [|done]. simpl.
    destruct (getRW b) as [c|] eqn:Hrw; [|done]. simpl.
    by rewrite lookup_app_l by by eapply Hc.
Qed.

(** [Ready]'s loop over agents none of which is connected yet. *)
Lemma connect_all_step ixs w :
  NoDup ixs → wwf (nt w) → (∀ i, i ∈ ixs → agents (nt w) !! i = Some newAgent) →
  (∀ j, j < length (agents (nt w)) → j ∉ ixs → view j w = Some []) →
  ∃ w', connect_all ixs (λ _, None) w = Val (None, w') ∧ wk w' = wk w ∧ ds w' = ds w ∧
    nwf (nt w') ∧ length (agents (nt w')) = length (agents (nt w)) ∧
    ∀ j, j < length (agents (nt w)) → view j w' = Some [].
Proof.
  revert w. induction ixs as [|i ixs IH]; intros w Hnd Hwf Hnew Hold; cbn [connect_all].
  { exists w. assert (∀ j, j < length (agents (nt w)) → view j w = Some []) as Hv
      by (intros j Hj; apply Hold; [done|set_solver]).
    split_and!; try done. apply wwf_nwf; [done|]. intros j Hj. rewrite Hv by done. done. }
  apply list.NoDup_cons in Hnd as [Hi Hnd].
  pose proof (Hnew i ltac:(set_solver)) as Ha.
  destruct (publish_step i w Hwf) as (w1 & E & E1 & E2 & _ & _ & Hwf1 & Hlen & Hvi & Hvj);
    [by eapply lookup_lt_Some|].
  destruct (IH w1) as (w2 & E3 & E4 & E5 & Hwf2 & Hlen2 & Hv2).
  - done.
  - done.
  - intros k Hk. rewrite (proj2 (Hvj k ltac:(set_solver))). apply Hnew. set_solver.
  - intros j Hj Hjn. rewrite Hlen in Hj. destruct (decide (j = i)) as [->|Hne]; [done|].
    rewrite (proj1 (Hvj j Hne)). apply Hold; [done|set_solver].
  - exists w2. split_and!; try congruence.
    + unfold Connect, mbind, M_bind, getW. rewrite Ha.
      cbn [mbind option_bind getConn a_conn newAgent]. rewrite E. exact E3.
    + intros j Hj. apply Hv2. by rewrite Hlen.
Qed.

Variable range : jobFuncs → list (bytes * jobFunc).

(** A redial that succeeds: the functions, in some order, and a grab on the new
    connection. *)
Lemma reconnect_step i w :
  (∀ m, range m ≡ₚ map_to_list m) → sinv w → i < length (agents (nt w)) →
  ∃ w3, reconnect range i None w = Val (None, w3) ∧ sinv w3 ∧ wk w3 = wk w ∧
    length (agents (nt w3)) = length (agents (nt w)) ∧
    view i w3 = Some (((λ p, can_do p.1 (jf_timeout p.2)) <$> range (funcs (wk w))) ++ [grab_pack]).
Proof.
  intros Hrange Hw Hi. unfold reconnect.
  destruct (publish_step i w) as (w1 & E1 & Ewk & Eds & Elg & Esd & Hwf1 & Hlen1 & Hvi & Hvj);
    [apply nwf_wwf, Hw|lia|].
  assert (nwf (nt w1)) as Hnwf.
  { apply wwf_nwf; [done|]. intros j Hj. rewrite Hlen1 in Hj.
    destruct (decide (j = i)) as [->|Hne]; [by rewrite Hvi|].
    rewrite (proj1 (Hvj j Hne)). pose proof (si_sync w Hw j Hj) as Hs.
    by destruct (view j w). }
  set (os := (λ p, can_do p.1 (jf_timeout p.2)) <$> range (funcs (wk w))).
  assert (prep_all (range (funcs (wk w1))) = Val os) as Hos.
  { rewrite Ewk. apply prep_all_spec. eapply range_valid; [apply Hrange|]. apply Hw. }
  destruct (writes_step i os w1) as (w2 & E2 & S2); [done|lia|].
  destruct (agent_Write_step i grab_pack w2) as (w3 & E3 & S3);
    [apply S2|rewrite (ns_len _ _ _ S2); lia|].
  pose proof (net_step_trans _ _ _ _ _ S2 S3) as S.
  assert (wk w3 = wk w) as Ewk3 by (rewrite (ns_wk _ _ _ S); done).
  assert (ds w3 = ds w) as Eds3 by (rewrite (ns_ds _ _ _ S); done).
  assert (length (agents (nt w3)) = length (agents (nt w))) as Elen3
    by (rewrite (ns_len _ _ _ S); done).
  assert (view i w3 = Some (os ++ [grab_pack])) as Hv3
    by (rewrite (ns_view _ _ _ S), Hvi; simpl; by rewrite !decide_True by done).
  exists w3. split_and!; [|destruct Hw; split|done..].
  - unfold funcOutpacks, Grab, lift, getW, mbind, M_bind. rewrite E1, Hos, E2, E3. done.
  - apply S.
  - by rewrite Ewk3.
  - by rewrite Ewk3.
  - intros j Hj. rewrite Elen3 in Hj. rewrite Ewk3. destruct (decide (j = i)) as [->|Hne].
    + rewrite Hv3. simpl. rewrite abilities_snoc by done. f_equal.
      apply abilities_announced; [apply Hrange|by apply funcs_ok_weak].
    + rewrite (ns_view _ _ _ S), (proj1 (Hvj j Hne)). specialize (si_sync0 j Hj).
      destruct (view j w); [|done]. simpl in *. by rewrite !decide_False.
  - by rewrite Elen3, Eds3.
Qed.

Lemma good_reconnect n i d :
  (∀ m, range m ≡ₚ map_to_list m) → i < n → good n (reconnect range i d).
Proof.
  intros Hrange Hi w Hw Hn. destruct d as [e|]; [by eexists _, w|].
  destruct (reconnect_step i w Hrange Hw) as (w3 & E & Hw3 & _ & Hl & _); [lia|].
  exists None, w3. split_and!; [done..|lia].
Qed.

(** A worker whose servers and functions are set up and which has not connected. *)
Record fresh (w : W) : Prop := {
  fr_agents : length (agents (nt w)) ≠ 0 ∧ Forall (λ a, a = newAgent) (agents (nt w));
  fr_funcs : funcs (wk w) ≠ ∅ ∧ funcs_ok (funcs (wk w));
  fr_ready : ready (wk w) = false;
  fr_dispatch : jobs (ds w) = [] ∧ waiting (ds w) = None ∧ strays (ds w) = []
}.

(** Announcing each function of a list to all servers. *)
Lemma announce_step (fs : list (bytes * jobFunc)) w :
  nwf (nt w) → Forall (λ p, fvalid p.1 (jf_timeout p.2)) fs →
  ∃ w', for_each fs (λ p, addFunc p.1 (jf_timeout p.2)) w = Val ((), w') ∧
    net_step (λ _ l, l ++ ((λ p, can_do p.1 (jf_timeout p.2)) <$> fs)) w w'.
Proof.
  intros Hw Hall. revert w Hw. induction Hall as [|[n f] fs Hv _ IH]; intros w Hw; csimpl.
  { exists w. split; [done|]. eapply net_step_ext; [|by apply net_step_refl].
    intros j l. cbv beta. by rewrite app_nil_r. }
  destruct (addFunc_step n (jf_timeout f) w Hw Hv) as (w1 & E1 & S1).
  destruct (IH w1) as (w2 & E2 & S2); [apply S1|]. exists w2. split.
  - unfold mbind, M_bind. by rewrite E1.
  - eapply net_step_ext; [|by eapply net_step_trans]. intros j l. cbv beta.
    by rewrite <- app_assoc.
Qed.

Lemma grabs_step w :
  nwf (nt w) →
  ∃ w', for_each (seq 0 (length (agents (nt w)))) Grab w = Val ((), w') ∧
    net_step (λ _ l, l ++ [grab_pack]) w w'.
Proof. apply (broadcast_step grab_pack w). Qed.

Lemma Work_start_sinv w :
  (∀ m, range m ≡ₚ map_to_list m) → fresh w →
  ∃ w', Work_start range (λ _, None) w = Val ((), w') ∧ sinv w' ∧
    length (agents (nt w')) = length (agents (nt w)).
Proof.
  intros Hrange [[Hn Hnew] [Hne Hok] Hready (Hjobs & Hwait & Hstrays)].
  assert (∀ i a, agents (nt w) !! i = Some a → a = newAgent) as Hall.
  { intros i a Ha. rewrite list.Forall_forall in Hnew. by eapply Hnew, list_elem_of_lookup_2. }
  destruct (connect_all_step (seq 0 (length (agents (nt w)))) w)
    as (w1 & E1 & Ewk1 & Eds1 & Hwf1 & Hlen1 & Hv1).
  { apply NoDup_seq. }
  { split; intros i; [intros a c Ha|intros j a b c Ha Hb]; by rewrite (Hall _ _ Ha). }
  { intros i Hi%elem_of_seq. destruct (lookup_lt_is_Some_2 (agents (nt w)) i) as [a Ha]; [lia|].
    rewrite Ha. f_equal. by eapply Hall. }
  { intros j Hj Hjn. rewrite elem_of_seq in Hjn. lia. }
  destruct (announce_step (range (funcs (wk w))) w1 Hwf1) as (w2 & E2 & S2).
  { by eapply range_valid. }
  set (w3 := mkW (set_running true (set_ready true (wk w2))) (nt w2) (ds w2) (lg w2) (sd w2)).
  destruct (grabs_step w3) as (w4 & E4 & S4); [apply S2|].
  assert (length (agents (nt w3)) = length (agents (nt w))) as Hlen3
    by (simpl; rewrite (ns_len _ _ _ S2); done).
  rewrite Hlen3 in E4. exists w4. split_and!.
  - unfold Work_start, Ready, mbind, M_bind, getW. rewrite Hready.
    rewrite decide_False, decide_False by done. rewrite E1, E2. exact E4.
  - assert (wk w4 = wk w3) as Ewk4 by apply S4.
    assert (wk w2 = wk w) as Ewk2 by (rewrite (ns_wk _ _ _ S2); done).
    assert (ds w4 = ds w) as Eds4
      by (rewrite (ns_ds _ _ _ S4); simpl; rewrite (ns_ds _ _ _ S2); done).
    assert (length (agents (nt w4)) = length (agents (nt w))) as Hlen4
      by (rewrite (ns_len _ _ _ S4); done).
    split; rewrite ?Eds4, ?Ewk4; simpl; rewrite ?Ewk2; try done; [apply S4| |].
    + intros j Hj. rewrite Hlen4 in Hj. rewrite (ns_view _ _ _ S4), Ewk4. simpl.
      change (view j w3) with (view j w2). rewrite (ns_view _ _ _ S2), Hv1, Ewk2 by done. simpl.
      rewrite abilities_snoc. f_equal. rewrite ability_neutral.
      * apply abilities_announced; [apply Hrange|by apply funcs_ok_weak].
      * apply neutral_const. simpl. set_solver.
    + split; [by rewrite Hjobs|by intros i; rewrite Hwait|by rewrite Hstrays].
  - rewrite (ns_len _ _ _ S4). done.
Qed.

(** The calls and events of a running worker with [n] agents: neither set-up nor
    shutdown, nor a redial by a read loop, which announces nothing. *)
Definition act_ok (n : nat) (a : wact) : Prop :=
  match a with
  | AAddServer | AReady _ | AWork _ | ACloseBegin | ACloseFinish | ARedial _ => False
  | AAddFunc name _ t => fvalid name t
  | AReconnect i _ | APacket i _ => i < n
  | _ => True
  end.

Lemma do_wact_good n a w :
  (∀ m, range m ≡ₚ map_to_list m) → act_ok n a → sinv w → length (agents (nt w)) = n →
  do_wact range a w = None ∨
  ∃ w', do_wact range a w = Some (Val ((), w')) ∧ sinv w' ∧ length (agents (nt w')) = n.
Proof.
  intros Hrange Ha Hw Hn.
  assert (∀ m : M unit, good n m → Some (m w) = None ∨ ∃ w', Some (m w) = Some (Val ((), w')) ∧
    sinv w' ∧ length (agents (nt w')) = n) as Hk.
  { intros m Hm. right. destruct (Hm w Hw Hn) as ([] & w' & -> & ?). eauto. }
  assert (∀ A (m : M A), good n m → good n (m ;; mret ())) as Hu.
  { intros A m Hm. apply good_bind; [done|]. intros _. apply good_ret. }
  assert (∀ j x, jobs (ds w) !! j = Some x → j_agent x < n) as Hjob.
  { intros j x Hx. rewrite <- Hn. destruct (si_ds w Hw) as [Hj _ _].
    rewrite list.Forall_forall in Hj. by eapply Hj, list_elem_of_lookup_2. }
  assert (∀ k x, strays (ds w) !! k = Some x → s_agent x < n) as Hstray.
  { intros k x Hx. rewrite <- Hn. destruct (si_ds w Hw) as [_ _ Hj].
    rewrite list.Forall_forall in Hj. by eapply Hj, list_elem_of_lookup_2. }
  assert (∀ k, good n (add_tokens k)) as Htok
    by (intros k; apply good_mod_ds; intros d []; by split).
  destruct a; simpl in Ha; try done; simpl.
  - by apply Hk, Hu, good_AddFunc.
  - apply Hk, Hu, good_RemoveFunc.
  - apply Hk, good_Reset.
  - apply Hk, good_broadcast, neutral_const. simpl. set_solver.
  - apply Hk. unfold SetId, mod_wk. apply good_bind; [by apply good_mod|].
    intros _. apply good_broadcast, neutral_const. simpl. set_solver.
  - apply (Hk (SetErrorHandler h)). by apply good_mod.
  - apply (Hk (SetJobHandler h)). by apply good_mod.
  - apply Hk, Hu. by apply good_reconnect.
  - destruct (waiting (ds w)); [by left|]. by apply Hk, good_handle.
  - apply Hk, good_werr.
  - destruct (jobs (ds w) !! j) as [x|] eqn:Hj; [|by left]. simpl.
    destruct (j_state x); [|by left..]. apply Hk. eapply good_job_step; [by eapply Hjob|by left].
  - destruct (jobs (ds w) !! j) as [x|] eqn:Hj; [|by left]. simpl.
    destruct (job_report_step j x) as [m|] eqn:Hm; [|by left]. apply Hk.
    eapply good_job_step; [by eapply Hjob|eauto].
  - destruct (jobs (ds w) !! j) as [x|] eqn:Hj; [|by left]. simpl.
    destruct (job_return j x) as [m|] eqn:Hm; [|by left]. apply Hk.
    eapply good_job_step; [by eapply Hjob|eauto].
  - destruct (jobs (ds w) !! j) as [x|] eqn:Hj; [|by left]. simpl.
    destruct (job_timeout j x) as [m|] eqn:Hm; [|by left]. apply Hk.
    eapply good_job_step; [by eapply Hjob|eauto].
  - destruct (jobs (ds w) !! j) as [x|] eqn:Hj; [|by left]. simpl.
    destruct (job_write j x) as [m|] eqn:Hm; [|by left]. apply Hk.
    eapply good_job_step; [by eapply Hjob|eauto 6].
  - destruct (strays (ds w) !! k) as [x|] eqn:Hx; [|by left]. simpl.
    destruct (stray_step k x) as [m|] eqn:Hm; [|by left]. apply Hk.
    eapply good_stray_step; [by eapply Hstray|done].
  - destruct (jobs (ds w) !! j) as [[ai p [| | |e]]|]; [by left..| |by left].
    destruct (limit (wk w)); [|by apply Hk, good_job_end]. case_decide; [|by left].
    apply Hk, good_bind; [done|]. intros _. apply good_job_end.
  - destruct (waiting (ds w)) as [i|] eqn:Hi; [|by left]. destruct (limit (wk w)); [|by left].
    case_decide; [|by left]. apply Hk, good_bind; [done|]. intros _. apply good_send_done.
    rewrite <- Hn. by apply (si_ds w Hw).
  - destruct (waiting (ds w)) as [i|] eqn:Hi; [|by left]. destruct (limit (wk w)); [|by left].
    destruct (jobs (ds w) !! j) as [[ai p [| | |e]]|]; [by left..| |by left]. case_decide; [|by left].
    apply Hk, good_bind; [apply good_job_end|]. intros _. apply good_send_done.
    rewrite <- Hn. by apply (si_ds w Hw).
Qed.

(** C5: the servers always know the worker's functions.  A worker that is set up,
    connects and starts tells every server exactly its table, names and
    timeouts; and from then on, after any sequence of [AddFunc], [RemoveFunc],
    [Reset], [Echo], [SetId], reconnects, packets, jobs and hand-overs, what
    each server has on record for the worker's current connection is again
    exactly the worker's table -- whatever order [range] visits maps in -- and
    none of it panics. *)
Theorem abilities_in_sync w0 acts :
  (∀ m, range m ≡ₚ map_to_list m) → fresh w0 →
  Forall (act_ok (length (agents (nt w0)))) acts →
  ∃ w1, Work_start range (λ _, None) w0 = Val ((), w1) ∧ synced w1 ∧
    match wrun range acts w1 with
    | None => True
    | Some r => ∃ w2, r = Val w2 ∧ synced w2
    end.
Proof.
  intros Hrange Hfresh Hall. destruct (Work_start_sinv w0 Hrange Hfresh) as (w1 & E & Hw & Hn).
  exists w1. split_and!; [done|apply Hw|]. clear E. revert w1 Hw Hn.
  induction Hall as [|a acts Ha _ IH]; intros w1 Hw Hn; simpl.
  { exists w1. split; [done|apply Hw]. }
  destruct (do_wact_good _ a w1 Hrange Ha Hw Hn) as [->|(w2 & -> & Hw2 & Hn2)]; [done|].
  by apply IH.
Qed.

(** C35: every packet of a server is answered.  A running worker answers NO_JOB
    with PRE_SLEEP and NOOP with GRAB_JOB_UNIQ on the connection of the agent
    the packet came from, and on no other; a job assignment starts exactly one
    job and, without a limit, grabs the next; any other packet is answered on
    no connection and starts nothing. *)
Theorem packets_answered w i p :
  sinv w → i < length (agents (nt w)) →
  ∃ w', handleInPack i p w = Val ((), w') ∧
  let assign := bool_decide (iType p = dtJobAssign ∨ iType p = dtJobAssignUniq) in
  let answer :=
    if decide (iType p = dtNoJob) then [presleep_pack]
    else if decide (iType p = dtNoop) then [grab_pack]
    else if assign then match limit (wk w) with None => [grab_pack] | Some _ => [] end
    else [] in
  (∀ j, view j w' = (λ l, if decide (j = i) then l ++ answer else l) <$> view j w) ∧
  jobs (ds w') = jobs (ds w) ++ (if assign then [mkJob i p Executing] else []) ∧
  (assign = true → limit (wk w) ≠ None → waiting (ds w') = Some i).
Proof.
  intros Hw Hi. cbv zeta.
  assert (∀ w1, nt w1 = nt w → view i w1 = view i w ∧
    ∀ j, view j w1 = (λ l, if decide (j = i) then l ++ [] else l) <$> view j w) as Hsame.
  { intros w1 E. unfold view. rewrite E. split; [done|]. intros j.
    destruct (a ← agents (nt w) !! j; _) as [l|]; [|done]. simpl.
    case_decide; by rewrite ?app_nil_r. }
  unfold handleInPack. case_decide as H1.
  { destruct (agent_Write_step i presleep_pack w) as (w' & E & S); [apply Hw|done|].
    exists w'. rewrite bool_decide_eq_false_2 by (rewrite H1; by intros [?|?]).
    split; [done|]. rewrite app_nil_r. split_and!; [apply S|by rewrite (ns_ds _ _ _ S)|done]. }
  case_decide as H2.
  { destruct (agent_Write_step i grab_pack w) as (w' & E & S); [apply Hw|done|].
    exists w'. rewrite bool_decide_eq_false_2 by (rewrite H2; by intros [?|?]).
    split; [done|]. rewrite app_nil_r. split_and!; [apply S|by rewrite (ns_ds _ _ _ S)|done]. }
  case_decide as H3.
  { rewrite bool_decide_eq_true_2 by done. unfold mod_ds, modW, getW, mbind, M_bind. simpl.
    destruct (limit (wk w)) as [cap|].
    - eexists. split; [reflexivity|]. split_and!; [|done..]. by apply Hsame.
    - set (w1 := mkW _ _ _ _ _). destruct (agent_Write_step i grab_pack w1) as (w' & E & S);
        [apply Hw|done|]. exists w'. split; [exact E|].
      split_and!; [apply S|by rewrite (ns_ds _ _ _ S)|done]. }
  rewrite bool_decide_eq_false_2 by done.
  set (m := (_ ;; customeHandler p) : M unit).
  assert (keeps (λ w w', nt w' = nt w ∧ ds w' = ds w) m) as Hm.
  { assert (PreOrder (λ w w' : W, nt w' = nt w ∧ ds w' = ds w)) by (split; [done|]; intros ??? [] []; split; congruence).
    unfold m, customeHandler, werr, mod_lg. keeps. }
  destruct (good_handle _ i p Hi w Hw eq_refl) as ([] & w' & E & _ & _).
  unfold handleInPack in E. rewrite !decide_False in E by done. fold m in E.
  exists w'. split; [exact E|]. destruct (Hm _ _ _ E) as [E1 E2].
  rewrite app_nil_r, E2. split_and!; [|done..]. by apply Hsame.
Qed.

(** ** [reconnect] interleaved with [AddFunc]

    [reconnect] holds no lock across its steps: it publishes the connection,
    takes the snapshot of the functions under [worker.Mutex], writes the packets
    one by one and grabs.  [AddFunc] holds [worker.Mutex] throughout and can
    come between any two of these. *)
Inductive rphase := Published | Registering (os : list outPack) | Registered.

Inductive ract :=
| RAddFunc (name : bytes) (f : JobFunc) (t : Z)
| RSnapshot
| RWrite
| RGrab.

Definition do_ract (i : nat) (a : ract) (s : W * rphase) : option (W * rphase) :=
  let ran {A} (r : outcome (A * W)) (k : A → rphase) :=
    match r with Val (x, w) => Some (w, k x) | Panics _ => None end in
  let '(w, ph) := s in
  match a, ph with
  | RAddFunc name f t, _ => ran (AddFunc name f t w) (λ _, ph)
  | RSnapshot, Published => ran (funcOutpacks range w) Registering
  | RWrite, Registering (o :: os) => ran (agent_Write i o w) (λ _, Registering os)
  | RGrab, Registering [] => ran (Grab i w) (λ _, Registered)
  | _, _ => None
  end.

Fixpoint rrun (i : nat) (acts : list ract) (s : W * rphase) : option (W * rphase) :=
  match acts with
  | [] => Some s
  | a :: acts => s ← do_ract i a s; rrun i acts s
  end.

Definition ract_ok (a : ract) : Prop :=
  match a with RAddFunc name _ t => fvalid name t | _ => True end.

(** Each function of the table is announced or about to be, and what is about
    to be announced is in the table. *)
Definition covered (i : nat) (os : list outPack) (w : W) : Prop :=
  (∃ l, view i w = Some l ∧
    ∀ name f, funcs (wk w) !! name = Some f →
      abilities l !! name = Some (jf_timeout f) ∨ can_do name (jf_timeout f) ∈ os) ∧
  ∀ o, o ∈ os → ∃ name f, funcs (wk w) !! name = Some f ∧ o = can_do name (jf_timeout f).

Record rinv (i : nat) (s : W * rphase) : Prop := {
  ri_wf : nwf (nt s.1);
  ri_running : running (wk s.1) = true;
  ri_ok : funcs_ok (funcs (wk s.1));
  ri_agent : i < length (agents (nt s.1));
  ri_covered : match s.2 with
               | Published => True
               | Registering os => covered i os s.1
               | Registered => covered i [] s.1
               end
}.

Lemma covered_write i o os w w' :
  covered i (o :: os) w → funcs_ok (funcs (wk w)) →
  net_step (λ j l, if decide (j = i) then l ++ [o] else l) w w' → covered i os w'.
Proof.
  intros [(l & Hv & Hc) Ho] Hok S. unfold covered. rewrite (ns_wk _ _ _ S).
  split; [|intros o' Ho'; apply Ho; set_solver].
  exists (l ++ [o]). split; [by rewrite (ns_view _ _ _ S), Hv; simpl; rewrite decide_True|].
  destruct (Ho o) as (n1 & f1 & Hf1 & ->); [set_solver|].
  destruct (Hok n1 f1 Hf1) as (Hn1 & Ht1 & _).
  intros n f Hf. rewrite abilities_snoc, ability_can_do by (done || lia).
  destruct (decide (n1 = n)) as [->|Hne].
  - left. rewrite lookup_insert_eq. by simplify_eq.
  - rewrite lookup_insert_ne by done. destruct (Hc n f Hf) as [?|Hin]; [by left|].
    apply elem_of_cons in Hin as [Heq|?]; [|by right].
    exfalso. apply Hne. destruct (Hok n f Hf) as (Hn & Ht & _).
    pose proof (ability_can_do ∅ n (jf_timeout f) Hn ltac:(lia)) as E1.
    pose proof (ability_can_do ∅ n1 (jf_timeout f1) Hn1 ltac:(lia)) as E2.
    rewrite Heq, E2 in E1. apply (f_equal (λ m, m !! n1)) in E1.
    rewrite lookup_insert_eq, lookup_insert in E1. by case_decide.
Qed.

Lemma covered_neutral i o w w' :
  covered i [] w → neutral o →
  net_step (λ j l, if decide (j = i) then l ++ [o] else l) w w' → covered i [] w'.
Proof.
  intros [(l & Hv & Hc) _] Ho S. unfold covered. rewrite (ns_wk _ _ _ S).
  split; [|intros o' Ho'; set_solver].
  exists (l ++ [o]). split; [by rewrite (ns_view _ _ _ S), Hv; simpl; rewrite decide_True|].
  intros n f Hf. rewrite abilities_snoc, ability_neutral by done. by apply Hc.
Qed.

Lemma covered_add i os name f t w w' :
  covered i os w → funcs (wk w) !! name = None → fvalid name t →
  wk w' = set_funcs (<[name := mkJobFunc f t]> (funcs (wk w))) (wk w) →
  (∀ j, view j w' = (λ l, l ++ [can_do name t]) <$> view j w) → covered i os w'.
Proof.
  intros [(l & Hv & Hc) Ho] Hf (Hn & Ht & _) Ewk Hview. unfold covered. rewrite Ewk. simpl. split.
  - exists (l ++ [can_do name t]). split; [by rewrite Hview, Hv|].
    intros n g Hg. rewrite abilities_snoc, ability_can_do by (done || lia).
    destruct (decide (name = n)) as [->|Hne].
    + rewrite lookup_insert_eq in Hg. injection Hg as <-. left. by rewrite lookup_insert_eq.
    + rewrite lookup_insert_ne in Hg by done. rewrite lookup_insert_ne by done. by apply Hc.
  - intros o Hin. destruct (Ho o Hin) as (n & g & Hg & ->). exists n, g.
    split; [|done]. rewrite lookup_insert_ne; [done|]. intros ->. congruence.
Qed.

Lemma do_ract_rinv i a s s' :
  (∀ m, range m ≡ₚ map_to_list m) → ract_ok a → rinv i s → do_ract i a s = Some s' → rinv i s'.
Proof.
  intros Hrange Ha [Hwf Hrun Hok Hi Hc] Hr. destruct s as [w ph]. simpl in *.
  destruct a as [name f t| | |]; simpl in Hr.
  - destruct (funcs (wk w) !! name) as [g|] eqn:Hf.
    { destruct (AddFunc_taken name f t w g Hf) as [e E]. rewrite E in Hr. by simplify_eq. }
    destruct (AddFunc_step name f t w) as (w' & E & Ewk & _ & Hwf' & Hlen & Hview); [done..|].
    rewrite E in Hr. injection Hr as <-. split; simpl; rewrite ?Ewk, ?Hlen; try done.
    + apply map_Forall_insert_2; done.
    + destruct ph; [done|..]; by eapply covered_add.
  - destruct ph; [|done..]. unfold funcOutpacks, lift, mbind, M_bind, getW in Hr.
    assert (Forall (λ p, fvalid p.1 (jf_timeout p.2)) (range (funcs (wk w)))) as Hall
      by (eapply range_valid; [apply Hrange|done]).
    rewrite prep_all_spec in Hr by done. injection Hr as <-. split; try done. simpl.
    apply lookup_lt_is_Some_2 in Hi as [ag Hag].
    destruct Hwf as [Hconn _]. destruct (Hconn i ag Hag) as (c & Hrw & Hlt).
    apply lookup_lt_is_Some_2 in Hlt as [l Hl]. split.
    + exists l. split; [unfold view; rewrite Hag; simpl; rewrite Hrw; exact Hl|].
      intros n f Hf. right. apply list_elem_of_fmap. exists (n, f). split; [done|].
      rewrite Hrange. by apply elem_of_map_to_list.
    + intros o ([n f] & -> & Hin)%list_elem_of_fmap. rewrite Hrange in Hin.
      apply elem_of_map_to_list in Hin. by exists n, f.
  - destruct ph as [|[|o os]|]; try done.
    destruct (agent_Write_step i o w) as (w' & E & S); [done..|]. rewrite E in Hr.
    injection Hr as <-. split; simpl; rewrite ?(ns_wk _ _ _ S), ?(ns_len _ _ _ S); try done;
      [apply S|]. by eapply covered_write.
  - destruct ph as [|[|o os]|]; try done. unfold Grab in Hr.
    destruct (agent_Write_step i grab_pack w) as (w' & E & S); [done..|]. rewrite E in Hr.
    injection Hr as <-. split; simpl; rewrite ?(ns_wk _ _ _ S), ?(ns_len _ _ _ S); try done;
      [apply S|]. eapply covered_neutral; [done| |done]. apply neutral_const. simpl. set_solver.
Qed.

(** C36: a function added during a reconnect is not lost.  However calls of
    [AddFunc] fall between the publish, the snapshot, the single registration
    writes and the grab of [reconnect], when it is done every function in the
    worker's table has been announced on the new connection with its timeout. *)
Theorem addfunc_during_reconnect w0 w1 i acts w2 :
  (∀ m, range m ≡ₚ map_to_list m) → sinv w0 → i < length (agents (nt w0)) →
  publish_conn i w0 = Val ((), w1) → Forall ract_ok acts →
  rrun i acts (w1, Published) = Some (w2, Registered) →
  ∃ l, view i w2 = Some l ∧
    ∀ name f, funcs (wk w2) !! name = Some f → abilities l !! name = Some (jf_timeout f).
Proof.
  intros Hrange Hw Hi Hp Hall Hr.
  destruct (publish_step i w0) as (w1' & E & Ewk & _ & _ & _ & Hwf & Hlen & Hvi & Hvj);
    [apply nwf_wwf, Hw|done|]. rewrite Hp in E. injection E as <-.
  assert (rinv i (w1, Published)) as H0.
  { split; simpl; rewrite ?Ewk, ?Hlen; try done; [|apply Hw..].
    apply wwf_nwf; [done|]. intros j Hj. rewrite Hlen in Hj.
    destruct (decide (j = i)) as [->|Hne]; [by rewrite Hvi|].
    rewrite (proj1 (Hvj j Hne)). pose proof (si_sync w0 Hw j Hj) as Hs. by destruct (view j w0). }
  assert (rinv i (w2, Registered)) as [_ _ _ _ [(l & Hv & Hc) _]].
  { clear Hp Hvi Hvj Hwf. revert H0 Hr. generalize (w1, Published).
    induction Hall as [|a acts Ha _ IH]; intros s Hs Hr; simpl in Hr; [by simplify_eq|].
    destruct (do_ract i a s) as [s'|] eqn:E; [|done]. eapply IH; [|exact Hr].
    by eapply do_ract_rinv. }
  exists l. split; [done|]. intros name f Hf. destruct (Hc name f Hf); [done|set_solver].
Qed.
End abilities.

(** ** Three calls that leave a server misinformed *)

Definition upper : JobFunc := λ p, ([], Returns (iData p) None).

(** A worker for one server with the function [a]. *)
Definition set_up : W :=
  mkW (mkWorker {[str "a" := mkJobFunc upper 0]} false false false [] true None None)
    (mkNet [newAgent] []) (mkDispatch [] 0 None []) (mkLog [] []) (mkShutdown false 0).

Definition names (w : W) : list bytes := (map_to_list (funcs (wk w))).*1.

(** What can be seen after a program has run on [set_up]: whether the worker is
    running, the names in its table, and what its server has on record. *)
Definition observe (m : M unit) : outcome (bool * list bytes * option (list (bytes * Z))) :=
  match m set_up with
  | Val (_, w) =>
      Val (running (wk w), names w, (λ l, map_to_list (abilities l)) <$> view 0 w)
  | Panics p => Panics p
  end.

(** A function added between [Ready] and [Work] is never announced.  [AddFunc]
    writes CAN_DO only while the worker is running, and [Work] does not
    register again after a [Ready] of its own: the worker ends up running with
    a function in its table that its server has never heard of. *)
Theorem late_function_unannounced (w : GoArch) :
  observe (Ready map_to_list (λ _, None) ;;
           AddFunc (str "b") upper 0 ;;
           Work_start map_to_list (λ _, None)) =
  Val (true, [str "b"; str "a"], Some [(str "a", 0%Z)]).
Proof. destruct w; vm_compute; reflexivity. Qed.

(** A function removed during a reconnect can come back.  [RemoveFunc]
    between the snapshot of [reconnect] and its registration writes sends
    CANT_DO first and lets the stale CAN_DO follow: the server keeps assigning
    jobs of a function the worker no longer has. *)
Theorem removed_function_reannounced (w : GoArch) :
  observe (Work_start map_to_list (λ _, None) ;;
           publish_conn 0 ;;
           os ← funcOutpacks map_to_list;
           RemoveFunc (str "a") ;;
           for_each os (agent_Write 0) ;; Grab 0) =
  Val (true, [], Some [(str "a", 0%Z)]).
Proof. destruct w; vm_compute; reflexivity. Qed.

(** A function added during a [Reset] is dropped and stays announced.  [Reset]
    writes RESET_ABILITIES before it takes [worker.Mutex] to clear the table, so
    an [AddFunc] in between is announced to the server and then forgotten by the
    worker: its jobs are assigned and fail. *)
Theorem reset_drops_new_function (w : GoArch) :
  observe (Work_start map_to_list (λ _, None) ;;
           Reset_send ;;
           AddFunc (str "b") upper 0 ;;
           Reset_clear) =
  Val (true, [], Some [(str "b", 0%Z)]).
Proof. destruct w; vm_compute; reflexivity. Qed.

(** ** Witnesses *)

Definition started : W :=
  match Work_start (H := W64) map_to_list (λ _, None) set_up with
  | Val (_, w) => w | Panics _ => set_up
  end.

Lemma set_up_fresh : fresh (H := W64) set_up.
Proof.
  split.
  - split; [done|]. by repeat constructor.
  - split.
    + intros Hm. apply (f_equal (λ m : jobFuncs, m !! str "a")) in Hm.
      vm_compute in Hm. discriminate Hm.
    + apply map_Forall_singleton. split; [by_decide|]. split; [done|]. vm_compute. congruence.
  - done.
  - done.
Qed.

Lemma started_sinv : sinv (H := W64) started.
Proof.
  destruct (Work_start_sinv (H := W64) map_to_list set_up) as (w & E & Hw & _);
    [done|exact set_up_fresh|]. unfold started. by rewrite E.
Qed.

Definition sample_acts : list wact :=
  [AAddFunc (str "b") upper 5; APacket 0 sample_job; AJobStart 0; AJobReturn 0; AJobWrite 0;
   AJobFinish 0; AReconnect 0 None; ARemoveFunc (str "a")].

Lemma abilities_in_sync_witness :
  ∃ w1, Work_start (H := W64) map_to_list (λ _, None) set_up = Val ((), w1) ∧ synced w1 ∧
    match wrun (H := W64) map_to_list sample_acts w1 with
    | None => True
    | Some r => ∃ w2, r = Val w2 ∧ synced w2
    end.
Proof.
  apply (abilities_in_sync (H := W64) map_to_list set_up sample_acts).
  - intros m. reflexivity.
  - exact set_up_fresh.
  - apply Forall_cons_2.
    { split; [by_decide|]. split; [lia|]. vm_compute. congruence. }
    repeat apply Forall_cons_2; [| | | | | | |apply Forall_nil_2]; simpl; (exact I || lia).
Defined.

Lemma packets_answered_witness :
  ∃ w', handleInPack 0 (mkInPack dtNoop (Some []) [] [] []) started = Val ((), w') ∧
    view 0 w' = (λ l, l ++ [grab_pack]) <$> view 0 started.
Proof.
  destruct (packets_answered (H := W64) started 0 (mkInPack dtNoop (Some []) [] [] []) started_sinv)
    as (w' & E & Hv & _).
  - vm_compute. lia.
  - exists w'. split; [exact E|]. exact (Hv 0).
Defined.

Definition republished : W :=
  match publish_conn 0 started with Val (_, w) => w | Panics _ => set_up end.

Definition race : list ract :=
  [RAddFunc (str "b") upper 0; RSnapshot; RWrite; RAddFunc (str "c") upper 7; RWrite; RGrab].

Definition raced : W :=
  match rrun (H := W64) map_to_list 0 race (republished, Published) with
  | Some (w, _) => w | None => set_up
  end.

Lemma addfunc_during_reconnect_witness :
  ∃ l, view 0 raced = Some l ∧
    ∀ name f, funcs (wk raced) !! name = Some f → abilities l !! name = Some (jf_timeout f).
Proof.
  apply (addfunc_during_reconnect (H := W64) map_to_list started republished 0 race raced).
  - intros m. reflexivity.
  - exact started_sinv.
  - vm_compute. lia.
  - vm_compute. reflexivity.
  - repeat apply Forall_cons_2; try exact I; [..|apply Forall_nil_2];
      (split; [by_decide|split; [lia|vm_compute; congruence]]).
  - vm_compute. reflexivity.
Defined.
