(* ===== verification/WorkerJobs.v ===== *)
(** * The jobs of a worker: [exec] and [execTimeout] of worker/worker.go

    What a job server gets for the jobs it assigns: the reports of a job function
    in order and then one answer, however jobs, timeouts, reconnects and the
    worker's methods interleave; no job is answered twice.  A function that
    misses its timeout goes on reporting after its job has been answered, and no
    longer counts against the worker's limit. *)

From S2P Require Import Prelude GoStd Protocol ClientWire WorkerPack AgentIO Agent Worker.
From S2P Require Import WorkerAbilities.
Import WC.

(** ** Answers *)

(** The packet that ends the job with handle [h]. *)
Definition answer (h : bytes) (o : outPack) : Prop :=
  oType o ∈ [dtWorkComplete; dtWorkFail; dtWorkException] ∧ oHandle o = h.
#[global] Instance answer_dec h o : Decision (answer h o).
Proof. unfold answer. apply _. Defined.

(** How many of them have been written, on any connection. *)
Definition count (h : bytes) (l : list outPack) : nat := length (filter (answer h) l).
Definition answers (h : bytes) (n : Net) : nat := sum_list_with (count h) (wires n).

(** Jobs with handle [h] that can still be answered. *)
Definition open_job (h : bytes) (x : job) : Prop :=
  iHandle (j_pack x) = h ∧ match j_state x with Finishing _ => False | _ => True end.
#[global] Instance open_job_dec h x : Decision (open_job h x).
Proof. unfold open_job. destruct (j_state x); apply _. Defined.

Definition open_jobs (h : bytes) (d : Dispatch) : nat := length (filter (open_job h) (jobs d)).

(** The assignments among the actions of a run. *)
Definition assigns (h : bytes) (a : wact) : bool :=
  match a with
  | APacket _ p =>
      bool_decide ((iType p = dtJobAssign ∨ iType p = dtJobAssignUniq) ∧ iHandle p = h)
  | _ => false
  end.
Definition assigned_jobs (h : bytes) (acts : list wact) : nat :=
  length (filter (λ a, assigns h a = true) acts).

Lemma count_app h l k : count h (l ++ k) = count h l + count h k.
Proof. unfold count. by rewrite list.filter_app, length_app. Qed.

Lemma count_one h o : count h [o] = if decide (answer h o) then 1 else 0.
Proof. unfold count. rewrite filter_cons. by case_decide. Qed.

(** One more packet on one connection. *)
Lemma answers_write h o c ws :
  sum_list_with (count h) (alter (λ l, l ++ [o]) c ws) ≤
  sum_list_with (count h) ws + (if decide (answer h o) then 1 else 0).
Proof.
  revert c. induction ws as [|l ws IH]; intros [|c]; simpl; [lia..| |].
  - rewrite count_app, count_one. lia.
  - specialize (IH c). unfold alter in IH. lia.
Qed.

(** No more answers than before, and the same jobs. *)
Definition unanswered (w w' : W) : Prop :=
  (∀ h, answers h (nt w') ≤ answers h (nt w)) ∧ ds w' = ds w.

#[export] Instance unanswered_preorder : PreOrder unanswered.
Proof.
  split; unfold unanswered; [done|]. intros w1 w2 w3 [Ha Ea] [Hb Eb]. split; [|congruence].
  intros h. specialize (Ha h). specialize (Hb h). lia.
Qed.

Section jobs.
Context `{GoArch}.
Variable range : jobFuncs → list (bytes * jobFunc).

Abbreviation quiet := (keeps unanswered).

Lemma quiet_modW f : (∀ w, nt (f w) = nt w ∧ ds (f w) = ds w) → quiet (modW f).
Proof. intros Hf. apply keeps_modW. intros w. destruct (Hf w) as [E1 E2]. split; [by rewrite E1|done]. Qed.

Lemma quiet_write i o : (∀ h, ¬ answer h o) → quiet (agent_Write i o).
Proof.
  intros Ho. unfold agent_Write. apply keeps_bind; [exact _|apply keeps_getW; exact _|]. intros w.
  destruct (_ ≫= getRW) as [c|]; [|apply keeps_lift; exact _].
  apply keeps_modW. intros w1. split; [|done]. intros h. simpl. unfold answers. simpl.
  pose proof (answers_write h o c (wires (nt w1))). rewrite decide_False in H0 by done. lia.
Qed.

Lemma not_answer h o :
  oType o ∈ [dtCanDo; dtCanDoTimeout; dtWorkData; dtWorkWarning; dtWorkStatus] → ¬ answer h o.
Proof.
  intros Ho [Ha _]. set_unfold in Ho. set_unfold in Ha.
  destruct_or! Ho; destruct_or! Ha; try done; rewrite Ha in Ho; discriminate Ho.
Qed.

Lemma prepFuncOutpack_quiet n t o h : prepFuncOutpack n t = Val o → ¬ answer h o.
Proof.
  intros E. apply not_answer. revert E. unfold prepFuncOutpack. case_decide; [by intros [= <-]; set_solver|].
  cbv zeta. rewrite outcome_bind_Val. intros (d & _ & E). rewrite outcome_bind_Val in E.
  destruct E as ([d1 ?] & _ & E). rewrite outcome_bind_Val in E. destruct E as (d2 & _ & E).
  rewrite outcome_bind_Val in E. destruct E as ([d3 ?] & _ & [= <-]). set_solver.
Qed.

Lemma report_pack_quiet p r o h : report_pack p r = Val o → ¬ answer h o.
Proof.
  intros E. apply not_answer. revert E.
  destruct r; simpl; unfold SendData, SendWarning, data_outpack, UpdateStatus; cbv zeta;
    rewrite outcome_bind_Val; intros (b & _ & E);
    rewrite outcome_bind_Val in E; destruct E as ([b1 ?] & _ & E);
    rewrite outcome_bind_Val in E; destruct E as ([b2 ?] & _ & E).
  3: rewrite outcome_bind_Val in E; destruct E as ([b3 ?] & _ & E).
  all: injection E as <-; set_solver.
Qed.

Lemma prep_all_quiet fs os h : prep_all fs = Val os → Forall (λ o, ¬ answer h o) os.
Proof.
  revert os. induction fs as [|[n f] fs IH]; intros os; simpl; [by intros [= <-]|].
  rewrite outcome_bind_Val. intros (o & Ho & E). rewrite outcome_bind_Val in E.
  destruct E as (os' & Hos & [= <-]). constructor; [by eapply prepFuncOutpack_quiet|by apply IH].
Qed.

Ltac quiet_by known := repeat first
  [ match goal with |- ∀ _, _ => intro end | known
  | apply keeps_ret; exact _ | apply keeps_getW; exact _ | apply keeps_lift; exact _
  | apply quiet_modW; intros; by split
  | apply quiet_write; intros ? [Ha _]; revert Ha; by_decide
  | apply keeps_bind; [exact _|..] | apply keeps_for_each; [exact _|]
  | progress cbv zeta | case_decide | case_match ].
Ltac quiet := quiet_by fail.

Lemma quiet_broadcast o : (∀ h, ¬ answer h o) → quiet (broadcast o).
Proof. intros Ho. unfold broadcast. quiet_by ltac:(by apply quiet_write). Qed.

Lemma quiet_for_each_in {A} (xs : list A) f :
  (∀ x, x ∈ xs → quiet (f x)) → quiet (for_each xs f).
Proof.
  intros Hf. induction xs as [|x xs IH]; [apply keeps_ret; exact _|].
  apply keeps_bind; [exact _|apply Hf; set_solver|]. intros _. apply IH. set_solver.
Qed.

Lemma quiet_publish i : quiet (publish_conn i).
Proof.
  apply keeps_modW. intros w. split; [|done]. intros h. unfold answers. simpl.
  rewrite sum_list_with_app. simpl. unfold count. simpl. lia.
Qed.

Lemma quiet_addFunc n t : quiet (addFunc n t).
Proof.
  apply keeps_lift_bind. intros o Ho. apply quiet_broadcast.
  intros h. by eapply prepFuncOutpack_quiet.
Qed.

Lemma quiet_Ready d : quiet (Ready range d).
Proof.
  assert (∀ ixs, quiet (connect_all ixs d)) as Hca.
  { induction ixs as [|i ixs IH]; simpl; quiet_by ltac:(apply quiet_publish || apply IH). }
  unfold Ready, mod_wk. quiet_by ltac:(apply Hca || apply quiet_addFunc).
Qed.

Lemma quiet_reconnect i d : quiet (reconnect range i d).
Proof.
  unfold reconnect, funcOutpacks, Grab. destruct d as [e|]; [quiet|].
  apply keeps_bind; [exact _|apply quiet_publish|intros _].
  intros w b w' E. apply M_bind_Val in E as (os & w1 & Eos & E).
  apply M_bind_Val in Eos as (w2 & w3 & [= <- <-] & Eos). unfold lift in Eos.
  destruct (prep_all _) as [os'|] eqn:Hos; [|done]. injection Eos as <- <-. revert E.
  apply keeps_bind; [exact _|apply quiet_for_each_in|quiet].
  intros o Ho. apply quiet_write. intros h. pose proof (prep_all_quiet _ _ h Hos) as Hf.
  rewrite list.Forall_forall in Hf. by apply Hf.
Qed.

Lemma quiet_methods :
  (∀ n f t, quiet (AddFunc n f t)) ∧ (∀ n, quiet (RemoveFunc n)) ∧ quiet Reset ∧
  (∀ d, quiet (Echo d)) ∧ (∀ d, quiet (SetId d)) ∧ quiet AddServer ∧
  (∀ d, quiet (Work_start range d)) ∧ quiet Close_begin ∧ quiet Close_finish ∧
  (∀ p, quiet (customeHandler p)) ∧ (∀ e, quiet (werr e)) ∧
  (∀ h, quiet (SetErrorHandler h)) ∧ (∀ h, quiet (SetJobHandler h)).
Proof.
  assert (∀ ty d, ty ∈ [dtCantDo; dtResetAbilities; dtEchoReq; dtSetClientId] →
    quiet (broadcast (mkOutPack ty d []))) as Hb.
  { intros ty d Hty. apply quiet_broadcast. intros h [Ha _]. simpl in Ha.
    set_unfold in Hty. set_unfold in Ha. destruct_or! Hty; destruct_or! Ha; subst; done. }
  assert (∀ f, quiet (mod_nt (λ n, mkNet (f n) (wires n)))) as Hn.
  { intros f. apply keeps_modW. by split. }
  unfold AddFunc, RemoveFunc, Reset, Reset_send, Reset_clear, Echo, SetId, AddServer, Work_start, Close_begin, Close_finish,
    customeHandler, werr, SetErrorHandler, SetJobHandler, removeFunc, mod_sd, mod_wk, mod_lg.
  split_and!; quiet_by ltac:(apply quiet_addFunc || apply quiet_Ready || apply Hn ||
    (apply Hb; by_decide) || (unfold Grab; apply quiet_write; intros ? [Ha _]; revert Ha; by_decide)).
  all: apply Hn.
Qed.

Lemma quiet_send_report i p r : quiet (send_report i p r).
Proof. apply keeps_lift_bind. intros o Ho. apply quiet_write. intros h. by eapply report_pack_quiet. Qed.

(** ** What has been answered, with what can still be *)

Definition settled (h : bytes) (w : W) : nat := answers h (nt w) + open_jobs h (ds w).
Definition is_open (h : bytes) (x : job) : nat := if decide (open_job h x) then 1 else 0.

Lemma filter_alter h f j l x :
  l !! j = Some x →
  length (filter (open_job h) (alter f j l)) + is_open h x =
  length (filter (open_job h) l) + is_open h (f x).
Proof.
  revert j. induction l as [|y l IH]; intros [|j] Hj; [done..| |].
  - injection Hj as ->. simpl. rewrite !filter_cons. unfold is_open. repeat case_decide; simpl; lia.
  - specialize (IH j Hj). unfold alter in IH. simpl. rewrite !filter_cons. case_decide; simpl; lia.
Qed.

Lemma filter_delete h j (l : list job) :
  length (filter (open_job h) (delete j l)) ≤ length (filter (open_job h) l).
Proof.
  revert j. induction l as [|y l IH]; intros [|j]; [done..| |]; simpl; rewrite !filter_cons.
  - case_decide; simpl; lia.
  - specialize (IH j). unfold delete in *. case_decide; simpl; lia.
Qed.

Lemma unanswered_settled h w w' : unanswered w w' → settled h w' ≤ settled h w.
Proof. intros [Ha Hd]. specialize (Ha h). unfold settled. rewrite Hd. lia. Qed.

(** A job that moves on stays as open as it was, or less. *)
Lemma set_job_settled h j st x w w' :
  jobs (ds w) !! j = Some x → set_job j st w = Val ((), w') →
  settled h w' + is_open h x = settled h w + is_open h (mkJob (j_agent x) (j_pack x) st).
Proof.
  intros Hj [= <-]. unfold settled, open_jobs. simpl.
  pose proof (filter_alter h (λ x, mkJob (j_agent x) (j_pack x) st) j _ x Hj). simpl in *. lia.
Qed.

Lemma finishing_open h a p e : is_open h (mkJob a p (Finishing e)) = 0.
Proof. unfold is_open. by rewrite decide_False by by intros [??]. Qed.

Lemma open_same h x st :
  (match j_state x with Finishing _ => False | _ => True end) →
  is_open h (mkJob (j_agent x) (j_pack x) st) ≤ is_open h x.
Proof.
  intros Hx. unfold is_open. repeat case_decide; try lia. exfalso. destruct H0 as [? _].
  by apply H1.
Qed.

(** A result: one answer at most, for the job's own handle. *)
Lemma reply_settled h i p d e w w' :
  agent_Write i (reply_pack p d e) w = Val ((), w') →
  ds w' = ds w ∧ answers h (nt w') ≤ answers h (nt w) + (if decide (iHandle p = h) then 1 else 0).
Proof.
  unfold agent_Write. intros (w3 & w4 & [= <- <-] & E)%M_bind_Val.
  destruct (_ ≫= getRW) as [c|]; [|done]. injection E as <-. split; [done|].
  unfold answers. simpl. etrans; [apply answers_write|].
  destruct (decide (answer h (reply_pack p d e))) as [[_ Hh]|]; simpl in *; repeat case_decide; (done || lia).
Qed.

(** [exec]'s end: what it answers, the job gives up. *)
Lemma job_write_settled h j x m w w' :
  jobs (ds w) !! j = Some x → job_write j x = Some m → m w = Val ((), w') →
  settled h w' ≤ settled h w.
Proof.
  intros Hj. unfold job_write. destruct (j_state x) as [| |d e|] eqn:Hx; try done.
  intros [= <-]. unfold recovering.
  destruct (agent_Write _ _ w) as [[[] w1]|] eqn:E; intros Es.
  - destruct (reply_settled h _ _ _ _ _ _ E) as [Ed Ha].
    assert (jobs (ds w1) !! j = Some x) as Hj1 by by rewrite Ed.
    pose proof (set_job_settled h _ _ _ _ _ Hj1 Es) as H1. rewrite finishing_open in H1.
    unfold settled in *. rewrite Ed in *.
    destruct (decide (iHandle (j_pack x) = h)); [|lia].
    assert (is_open h x = 1) by (unfold is_open; rewrite decide_True; [done|split; [done|by rewrite Hx]]).
    lia.
  - pose proof (set_job_settled h _ _ _ _ _ Hj Es) as H1. rewrite finishing_open in H1. lia.
Qed.

Lemma job_step_settled h j x m w w' :
  jobs (ds w) !! j = Some x →
  (m = job_start j x ∧ j_state x = Executing) ∨ job_report_step j x = Some m ∨
  job_return j x = Some m ∨ job_timeout j x = Some m ∨ job_write j x = Some m →
  m w = Val ((), w') → settled h w' ≤ settled h w.
Proof.
  intros Hj.
  assert (∀ st w0, jobs (ds w0) !! j = Some x → settled h w0 ≤ settled h w →
    (match j_state x with Finishing _ => False | _ => True end) →
    set_job j st w0 = Val ((), w') → settled h w' ≤ settled h w) as Hset.
  { intros st w0 Hj0 Hle Hx Es. pose proof (set_job_settled h _ _ _ _ _ Hj0 Es).
    pose proof (open_same h x st Hx). lia. }
  assert (∀ d e w0, jobs (ds w0) !! j = Some x → settled h w0 ≤ settled h w →
    (match j_state x with Finishing _ => False | _ => True end) →
    job_check j d e w0 = Val ((), w') → settled h w' ≤ settled h w) as Hck.
  { intros d e w0 ???. unfold job_check. intros (w1 & w2 & [= <- <-] & E)%M_bind_Val.
    by eapply Hset. }
  intros [[-> Hx]|[Hm|[Hm|[Hm|Hm]]]].
  - unfold job_start. intros (w1 & w2 & [= <- <-] & E)%M_bind_Val.
    by eapply Hset; [exact Hj| |rewrite Hx|exact E].
  - unfold job_report_step in Hm. destruct (j_state x) as [|rs res timed| |] eqn:Hx; try done.
    destruct rs as [|r rs]; [done|]. injection Hm as <-. unfold recovering.
    destruct (send_report _ _ _ w) as [[[] w1]|] eqn:E; [|by apply Hset].
    pose proof (quiet_send_report _ _ _ _ _ _ E) as Hq. apply Hset; [|by apply unanswered_settled|done].
    destruct Hq as [_ ->]. done.
  - unfold job_return in Hm. destruct (j_state x) as [|[|r rs] res timed| |] eqn:Hx; try done.
    destruct res as [d e| |]; [|destruct timed; [done|]..]; injection Hm as <-;
      [|by apply Hset..]. by apply Hck.
  - unfold job_timeout in Hm. destruct (j_state x) as [|rs res [|]| |] eqn:Hx; try done.
    injection Hm as <-. intros ([] & w1 & [= <-] & E)%M_bind_Val.
    eapply Hck; [| | |exact E]; [exact Hj|apply Nat.le_refl|done].
  - by eapply job_write_settled.
Qed.

Lemma stray_settled h k x m w w' :
  stray_step k x = Some m → m w = Val ((), w') → settled h w' ≤ settled h w.
Proof.
  unfold stray_step. destruct (s_reports x) as [|r rs]; [done|]. intros [= <-]. unfold recovering.
  destruct (send_report _ _ _ w) as [[[] w1]|] eqn:E; [|by intros [= <-]].
  intros [= <-]. exact (unanswered_settled h _ _ (quiet_send_report _ _ _ _ _ _ E)).
Qed.

(** Changes of the dispatch state that open no job. *)
Lemma mod_ds_settled h f w w' :
  open_jobs h (f (ds w)) ≤ open_jobs h (ds w) → mod_ds f w = Val ((), w') →
  settled h w' ≤ settled h w.
Proof. intros Hf [= <-]. unfold settled. simpl. lia. Qed.

Lemma bind_settled {A B} h (m : M A) (f : A → M B) w b w' n :
  (∀ a w1, m w = Val (a, w1) → settled h w1 ≤ n) →
  (∀ a w1, m w = Val (a, w1) → f a w1 = Val (b, w') → settled h w' ≤ settled h w1) →
  (m ≫= f) w = Val (b, w') → settled h w' ≤ n.
Proof.
  intros Hm Hf (a & w1 & E1 & E2)%M_bind_Val. specialize (Hm _ _ E1). specialize (Hf _ _ E1 E2). lia.
Qed.

Lemma quiet_settled {A} h (m : M A) w a w' :
  quiet m → m w = Val (a, w') → settled h w' ≤ settled h w.
Proof. intros Hm E. by eapply unanswered_settled, Hm. Qed.

Lemma quiet_grab i : quiet (Grab i) ∧ quiet (PreSleep i).
Proof. split; unfold Grab, PreSleep; quiet. Qed.

Lemma job_end_settled h j e w w' : job_end j e w = Val ((), w') → settled h w' ≤ settled h w.
Proof.
  unfold job_end. apply bind_settled.
  - intros [] w1 E. eapply mod_ds_settled; [|exact E]. apply filter_delete.
  - intros [] w1 _. apply quiet_settled. destruct e; [apply quiet_methods|quiet].
Qed.

Lemma send_done_settled h i w w' : send_done i w = Val ((), w') → settled h w' ≤ settled h w.
Proof.
  unfold send_done. apply bind_settled.
  - intros [] w1 E. by eapply mod_ds_settled; [|exact E].
  - intros [] w1 _. apply quiet_settled, quiet_grab.
Qed.

Lemma handleInPack_settled h i p w w' :
  handleInPack i p w = Val ((), w') →
  settled h w' ≤ settled h w + (if assigns h (APacket i p) then 1 else 0).
Proof.
  unfold handleInPack, assigns. destruct (decide (iType p = dtNoJob)) as [E0|E0].
  { intros E. apply (quiet_settled h) in E; [lia|apply quiet_grab]. }
  destruct (decide (iType p = dtNoop)) as [E1|E1].
  { intros E. apply (quiet_settled h) in E; [lia|apply quiet_grab]. }
  destruct (decide _) as [Ha|Ha].
  - apply bind_settled.
    + intros [] w1 [= <-]. unfold settled, open_jobs. simpl.
      rewrite list.filter_app, filter_cons, filter_nil, length_app.
      destruct (bool_decide_reflect ((iType p = dtJobAssign ∨ iType p = dtJobAssignUniq) ∧ iHandle p = h))
        as [|Hn]; (destruct (decide (open_job h _)) as [[Hh _]|]; simpl in *; [|lia]); [lia|tauto].
    + intros [] w1 _. apply bind_settled; [by intros a w2 [= _ <-]|].
      intros a w2 [= <- <-]. destruct (limit (wk w1)).
      * by apply mod_ds_settled.
      * apply quiet_settled, quiet_grab.
  - intros E. apply (quiet_settled h) in E; [lia|].
    destruct quiet_methods as (_ & _ & _ & _ & _ & _ & _ & _ & _ & Kc & Ke & _).
    apply keeps_bind; [exact _| |intros []; apply Kc].
    destruct (decide (iType p = dtError)); [|quiet]. destruct (inPack_Err p); [apply Ke|quiet].
Qed.

Lemma do_wact_settled h a w w' :
  do_wact range a w = Some (Val ((), w')) →
  settled h w' ≤ settled h w + (if assigns h a then 1 else 0).
Proof.
  destruct quiet_methods as (K1 & K2 & K3 & K4 & K5 & K6 & K7 & K8 & K9 & _ & K11 & K12 & K13).
  assert (∀ m : M unit, quiet m → Some (m w) = Some (Val ((), w')) → settled h w' ≤ settled h w) as Hk.
  { intros m Hm [= E]. by eapply quiet_settled. }
  assert (∀ {A} (m : M A), quiet m → quiet (m ;; mret ())) as Hr.
  { intros A m Hm. apply keeps_bind; [exact _|done|quiet]. }
  assert (∀ n, settled h w' ≤ settled h w → settled h w' ≤ settled h w + n) as Hle by (intros; lia).
  destruct a; simpl do_wact;
    try (intros E; apply Hle; revert E; solve [apply Hk; auto using quiet_Ready, quiet_reconnect, quiet_publish]).
  - intros E. apply Hle. case_decide; [done|]. revert E. by apply Hk.
  - destruct (waiting (ds w)); [done|]. intros [= E]. by apply handleInPack_settled.
  - intros E. apply Hle. destruct (jobs (ds w) !! j) as [x|] eqn:Hj; [|done]. simpl in E.
    destruct (j_state x) eqn:Hx; try done. apply (inj Some) in E. eapply job_step_settled; eauto.
  - intros E. apply Hle. destruct (jobs (ds w) !! j) as [x|] eqn:Hj; [|done]. simpl in E.
    destruct (job_report_step j x) as [m|] eqn:Hm; [|done]. injection E as E.
    eapply job_step_settled; eauto.
  - intros E. apply Hle. destruct (jobs (ds w) !! j) as [x|] eqn:Hj; [|done]. simpl in E.
    destruct (job_return j x) as [m|] eqn:Hm; [|done]. injection E as E.
    eapply job_step_settled; eauto.
  - intros E. apply Hle. destruct (jobs (ds w) !! j) as [x|] eqn:Hj; [|done]. simpl in E.
    destruct (job_timeout j x) as [m|] eqn:Hm; [|done]. injection E as E.
    eapply job_step_settled; eauto.
  - intros E. apply Hle. destruct (jobs (ds w) !! j) as [x|] eqn:Hj; [|done]. simpl in E.
    destruct (job_write j x) as [m|] eqn:Hm; [|done]. injection E as E.
    by eapply job_write_settled.
  - intros E. apply Hle. destruct (strays (ds w) !! k) as [x|] eqn:Hj; [|done]. simpl in E.
    destruct (stray_step k x) as [m|] eqn:Hm; [|done]. injection E as E. eapply stray_settled; eauto.
  - destruct (jobs (ds w) !! j) as [[ai p [| | |e]]|]; try done. intros E. apply Hle. revert E.
    destruct (limit (wk w)); [case_decide; [|done]|]; intros [= E]; [|by eapply job_end_settled].
    revert E. apply bind_settled; intros [] w1 E; [|apply job_end_settled].
    by eapply mod_ds_settled; [|exact E].
  - destruct (waiting (ds w)) as [i|]; [|done]. destruct (limit (wk w)); [|done].
    case_decide; [|done]. intros [= E]. apply Hle. revert E.
    apply bind_settled; intros [] w1 E; [|apply send_done_settled].
    by eapply mod_ds_settled; [|exact E].
  - destruct (waiting (ds w)) as [i|]; [|done]. destruct (limit (wk w)); [|done].
    destruct (jobs (ds w) !! j) as [[ai p [| | |e]]|]; try done. case_decide; [|done].
    intros [= E]. apply Hle. revert E.
    apply bind_settled; intros [] w1 E; [by eapply job_end_settled|apply send_done_settled].
Qed.

(** C12: no job is answered twice.  In any run of a worker - its methods, jobs
    with their reports, timeouts, panics and late functions, reconnects and the
    hand-over of the limit in any order - at most as many results
    (WORK_COMPLETE, WORK_FAIL, WORK_EXCEPTION) for a handle have been written, on
    all connections together, as jobs with that handle have been assigned. *)
Theorem answered_at_most_once lim acts w0 w h :
  New_worker lim = Val w0 → wrun range acts w0 = Some (Val w) →
  answers h (nt w) ≤ assigned_jobs h acts.
Proof.
  intros Hn. assert (settled h w0 = 0) as H0.
  { unfold New_worker in Hn. case_decide; simplify_eq. done. }
  clear Hn. intros Hr. assert (settled h w ≤ settled h w0 + assigned_jobs h acts) as Hs.
  { clear H0. revert w0 Hr. induction acts as [|a acts IH]; intros w0 Hr; simpl in Hr.
    { simplify_eq. lia. }
    destruct (do_wact range a w0) as [[[[] w1]|]|] eqn:E; try done.
    apply (do_wact_settled h) in E. specialize (IH _ Hr). unfold assigned_jobs in *.
    rewrite filter_cons. destruct (assigns h a); simpl; lia. }
  unfold settled in Hs at 1. lia.
Qed.

(** ** What one job writes *)

Fixpoint report_packs (p : inPack) (rs : list job_report) : outcome (list outPack) :=
  match rs with
  | [] => mret []
  | r :: rs => o ← report_pack p r; os ← report_packs p rs; mret (o :: os)
  end.

(** [w] with more written on connection [c] and job [j] in state [st]. *)
Definition job_at (w : W) (c : nat) (os : list outPack) (j : nat) (st : job_state) : W :=
  mkW (wk w) (mkNet (agents (nt w)) (alter (λ l, l ++ os) c (wires (nt w))))
    (mkDispatch (alter (λ x, mkJob (j_agent x) (j_pack x) st) j (jobs (ds w)))
       (tokens (ds w)) (waiting (ds w)) (strays (ds w))) (lg w) (sd w).

Lemma job_at_job_at w c os j st os' st' :
  job_at (job_at w c os j st) c os' j st' = job_at w c (os ++ os') j st'.
Proof.
  unfold job_at. simpl. f_equal.
  - f_equal. rewrite alter_alter. apply list_alter_ext; [|done].
    intros l _. simpl. by rewrite <- (assoc_L app).
  - f_equal. rewrite alter_alter. by apply list_alter_ext.
Qed.

Lemma agent_Write_to i o c w :
  agents (nt w) !! i ≫= getRW = Some c →
  agent_Write i o w = Val ((), mkW (wk w) (mkNet (agents (nt w)) (alter (λ l, l ++ [o]) c (wires (nt w))))
    (ds w) (lg w) (sd w)).
Proof. intros Hc. apply M_bind_Val. exists w, w. split; [done|]. by rewrite Hc. Qed.

Lemma job_at_lookup w c os j i p st st' :
  jobs (ds w) !! j = Some (mkJob i p st) →
  jobs (ds (job_at w c os j st')) !! j = Some (mkJob i p st').
Proof. intros Hj. simpl. by rewrite list_lookup_alter, decide_True, Hj by done. Qed.

Lemma reports_run rs os res timed j w i p c st0 pre :
  jobs (ds w) !! j = Some (mkJob i p st0) → agents (nt w) !! i ≫= getRW = Some c →
  report_packs p rs = Val os →
  wrun range (replicate (length rs) (AJobReport j)) (job_at w c pre j (Running rs res timed)) =
  Some (Val (job_at w c (pre ++ os) j (Running [] res timed))).
Proof.
  intros Hj Hc. revert os pre. induction rs as [|r rs IH]; intros os pre; simpl report_packs.
  { intros [= <-]. by rewrite app_nil_r. }
  rewrite outcome_bind_Val. intros (o & Ho & E). rewrite outcome_bind_Val in E.
  destruct E as (os' & Hos & [= <-]). simpl replicate. cbn [wrun do_wact].
  rewrite (job_at_lookup _ _ _ _ i p st0) by done. simpl.
  unfold recovering, send_report, mbind, M_bind, lift. rewrite Ho.
  rewrite (agent_Write_to i o c) by done.
  specialize (IH os' (pre ++ [o]) Hos). rewrite <- (assoc_L app) in IH. simpl in IH. rewrite <- IH.
  rewrite <- job_at_job_at with (os := pre) (st := Running (r :: rs) res timed). done.
Qed.

Lemma set_job_at w c os j st st' :
  set_job j st' (job_at w c os j st) = Val ((), job_at w c os j st').
Proof.
  unfold set_job, mod_ds, modW, job_at. simpl. do 4 f_equal.
  rewrite alter_alter. by apply list_alter_ext.
Qed.

(** The end of a function: the check of [running], then the write. *)
Lemma reply_run d e timed j w i p c st0 os :
  jobs (ds w) !! j = Some (mkJob i p st0) → agents (nt w) !! i ≫= getRW = Some c →
  running (wk w) = true →
  wrun range [AJobReturn j; AJobWrite j] (job_at w c os j (Running [] (Returns d e) timed)) =
  Some (Val (job_at w c (os ++ [reply_pack p d e]) j (Finishing e))).
Proof.
  intros Hj Hc Hrun. cbn [wrun do_wact].
  rewrite (job_at_lookup _ _ _ _ i p st0) by done. cbn [mbind option_bind job_return j_state].
  unfold job_check, exec_check, mbind, M_bind, getW.
  change (wk (job_at w ?c ?os ?j ?st)) with (wk w). rewrite Hrun.
  rewrite set_job_at. rewrite (job_at_lookup _ _ _ _ i p st0) by done. simpl.
  unfold recovering. rewrite (agent_Write_to i _ c) by done.
  rewrite <- job_at_job_at with (os := os) (st := Replying d e). done.
Qed.

Lemma job_run j i p c f t rs os d e w :
  jobs (ds w) !! j = Some (mkJob i p Executing) →
  funcs (wk w) !! iFn p = Some (mkJobFunc f t) → f p = (rs, Returns d e) →
  running (wk w) = true → agents (nt w) !! i ≫= getRW = Some c → report_packs p rs = Val os →
  wrun range (AJobStart j :: replicate (length rs) (AJobReport j) ++ [AJobReturn j; AJobWrite j]) w =
  Some (Val (job_at w c (os ++ [reply_pack p d e]) j (Finishing e))).
Proof.
  intros Hj Hf Hp Hrun Hc Hos. cbn [wrun do_wact]. rewrite Hj. simpl.
  unfold exec_start. rewrite Hf. simpl. rewrite Hp.
  rewrite <- (reply_run d e (bool_decide (t ≠ 0%Z)) j w i p c Executing os) by done.
  assert (∀ rest, wrun range (replicate (length rs) (AJobReport j) ++ rest)
    (job_at w c [] j (Running rs (Returns d e) (bool_decide (t ≠ 0%Z)))) =
    wrun range rest (job_at w c os j (Running [] (Returns d e) (bool_decide (t ≠ 0%Z))))) as Hrs.
  { intros rest. rewrite wrun_app. by rewrite (reports_run rs os _ _ j w i p c Executing []). }
  rewrite <- Hrs. unfold job_at.
  rewrite (list_alter_id (λ l, l ++ [])) by (intros; apply app_nil_r).
  by destruct w as [? [] [] ? ?].
Qed.

(** What the job server gets for a job.  A job whose function reports [rs]
    and returns, left alone, has written - on the connection its agent holds, and
    nothing else anywhere - its reports in the order it made them and then one
    result: WORK_COMPLETE, or WORK_EXCEPTION with the data or WORK_FAIL without
    when it returned an error; that error is what the error handler will get. *)
Theorem job_writes j i p c f t rs os d e w :
  jobs (ds w) !! j = Some (mkJob i p Executing) →
  funcs (wk w) !! iFn p = Some (mkJobFunc f t) → f p = (rs, Returns d e) →
  running (wk w) = true → agents (nt w) !! i ≫= getRW = Some c → report_packs p rs = Val os →
  wrun range (AJobStart j :: replicate (length rs) (AJobReport j) ++ [AJobReturn j; AJobWrite j]) w =
  Some (Val (job_at w c (os ++ [reply_pack p d e]) j (Finishing e))).
Proof. apply job_run. Qed.
End jobs.

(** ** Functions that outlive their jobs *)

(** A function with a second to run, and jobs for it. *)
Definition slow : JobFunc := λ p, ([Sends_data (str "late")], Returns (Some []) None).
Definition slow_job : inPack := mkInPack dtJobAssign (Some []) (str "H:1") [] (str "slow").
Definition slow_setup : list wact :=
  [AAddServer; AAddFunc (str "slow") slow 1; AWork (λ _, None)].
Definition slow_round : list wact :=
  [APacket 0 slow_job; AJobStart 0; AJobTimeout 0; AJobWrite 0; ARendezvous 0].

Definition running_strays (d : Dispatch) : nat :=
  length (filter (λ x, s_reports x ≠ []) (strays d)).

(** A worker between two rounds. *)
Definition idle (n : nat) (w : W) : Prop :=
  funcs (wk w) = funcs (wk (after_acts slow_setup)) ∧ running (wk w) = true ∧
  limit (wk w) = Some 0%Z ∧ errorHandler (wk w) = false ∧
  agents (nt w) !! 0 ≫= getRW = Some 0 ∧
  jobs (ds w) = [] ∧ tokens (ds w) = 0%Z ∧ waiting (ds w) = None ∧ running_strays (ds w) = n.

Lemma slow_step n w :
  idle n w → ∃ w', wrun (H := W64) map_to_list slow_round w = Some (Val w') ∧ idle (S n) w'.
Proof.
  destruct w as [[fs rn rd cl id eh jh lm] [ag ws] [js tk wt st] [er cu] [qc cs]].
  unfold idle. simpl. intros (-> & -> & -> & -> & Hag & -> & -> & -> & Hn).
  destruct ag as [|[cn [c|] ep] ag]; try done. injection Hag as ->.
  eexists. split; [vm_compute; reflexivity|]. simpl. split_and!; try done.
  change (running_strays (mkDispatch [] 0 None
    (st ++ [mkStray 0 slow_job [Sends_data (str "late")]])) = S n).
  unfold running_strays in *. simpl in *. rewrite list.filter_app, length_app, Hn. simpl. lia.
Qed.

Lemma slow_start : ∃ w0, wrun (H := W64) map_to_list slow_setup new_one = Some (Val w0) ∧ idle 0 w0.
Proof.
  exists (after_acts slow_setup). split; [vm_compute; reflexivity|].
  unfold idle. split_and!; [reflexivity|vm_compute; reflexivity..].
Qed.

Lemma slow_rounds n w0 :
  idle 0 w0 → ∃ acts w, wrun (H := W64) map_to_list acts w0 = Some (Val w) ∧ idle n w.
Proof.
  intros Hi. induction n as [|n (acts & w & Hr & Hw)].
  - exists [], w0. by split.
  - destruct (slow_step n w Hw) as (w' & Hr' & Hw'). exists (acts ++ slow_round), w'.
    rewrite wrun_app, Hr. by split.
Qed.

(** The limit bounds the jobs dispatched, not the functions running.  A
    worker made with [New(1)] has runs after which any number of functions are
    still running and about to report: each missed its timeout, its job was
    answered with WORK_FAIL and its place under the limit given away. *)
Theorem limit_not_running n :
  ∃ acts w, wrun (H := W64) map_to_list acts new_one = Some (Val w) ∧
    jobs (ds w) = [] ∧ running_strays (ds w) = n.
Proof.
  destruct slow_start as (w0 & Hw0 & Hi). destruct (slow_rounds n w0 Hi) as (acts & w & Hr & Hw).
  exists (slow_setup ++ acts), w. rewrite wrun_app, Hw0.
  destruct Hw as (_ & _ & _ & _ & _ & Hj & _ & _ & Hs). split_and!; [exact Hr|exact Hj|exact Hs].
Qed.

(** ** Witnesses *)

(** A job that reports its progress, a part of its data and then fails. *)
Definition flaky : JobFunc := λ p,
  ([Updates_status 1 2; Sends_data (str "half")], Returns None (Some (New "broken"))).
Definition flaky_job : inPack := mkInPack dtJobAssign (Some []) (str "H:7") [] (str "flaky").
Definition flaky_acts : list wact :=
  [AAddServer; AAddFunc (str "flaky") flaky 0; AWork (λ _, None); APacket 0 flaky_job].

Lemma answered_at_most_once_witness :
  answers (str "H:7") (nt (after_acts (flaky_acts ++ [AJobStart 0; AJobReport 0; AJobReport 0; AJobReturn 0; AJobWrite 0]))) ≤ 1.
Proof.
  refine (answered_at_most_once (H := W64) map_to_list 1
    (flaky_acts ++ [AJobStart 0; AJobReport 0; AJobReport 0; AJobReturn 0; AJobWrite 0]) new_one _ (str "H:7") _ _).
  - reflexivity.
  - vm_compute. reflexivity.
Defined.

Lemma job_writes_witness :
  ∃ w, wrun (H := W64) map_to_list [AJobStart 0; AJobReport 0; AJobReport 0; AJobReturn 0; AJobWrite 0]
         (after_acts flaky_acts) = Some (Val w) ∧
    (oType <$> concat (wires (nt w))) =
      [dtCanDo; dtGrabJobUniq; dtWorkStatus; dtWorkData; dtWorkFail].
Proof.
  eexists. split.
  - refine (job_writes (H := W64) map_to_list 0 0 flaky_job 0 flaky 0 (flaky flaky_job).1 _ _ _
      (after_acts flaky_acts) _ _ _ _ _ _).
    + vm_compute. reflexivity.
    + vm_compute. reflexivity.
    + reflexivity.
    + vm_compute. reflexivity.
    + vm_compute. reflexivity.
    + vm_compute. reflexivity.
  - vm_compute. reflexivity.
Defined.
