(* ===== verification/System.v ===== *)
(** * The running worker: worker/worker.go and worker/agent.go together

    Worker.v models the worker over agents whose connections it can only write
    to, Agent.v one agent with its read loops.  Here they run together: the
    loops of all agents send into the one channel [worker.in], the main loop of
    [Work] takes from it, serves, and drains it once [quit] is closed; dials
    publish on both sides, and an error an agent reports reaches the worker's
    error handler.  Each action of the system is some actions of the worker and
    some of its agents.

    In the composition an agent's own [inbox] is a hand-over: what a loop sends
    goes through it into the shared channel in the same step.  [Ready], [Work],
    [reconnect] and the second half of [Close] are not interleaved, as in
    Worker.v, and [Work] is called once. *)

From S2P Require Import Prelude GoStd Protocol ClientWire WorkerPack AgentIO Agent AgentDelivery.
From S2P Require Import Worker.
Import WC.

(** Where [Work] is. *)
Inductive main_pc := NotStarted | Serving | Draining | Returned.
#[export] Instance main_pc_eq_dec : EqDecision main_pc.
Proof. solve_decision. Defined.

(** The worker, the agents with their loops, the channel [worker.in], the main
    loop, and what it has taken from the channel. *)
Record system := mkSystem {
  core : W;
  links : list sys;
  queue : list (nat * inPack);
  main : main_pc;
  served : list (nat * inPack)
}.

Inductive sact :=
| SCore (a : wact)
| SAddServer
| SReady (dials : nat → dial)
| SWork (dials : nat → dial)
| SReconnect (i : nat) (d : dial)
| SLink (i : nat) (a : act)
| SLoopDial (i k : nat) (d : dial)
| SLoopSend (i k : nat)
| SMainTake
| SMainQuit
| SMainReturn
| SCloseFinish.

(** What the worker does by itself: methods, jobs, the hand-over of the limit. *)
Definition core_act (a : wact) : bool :=
  match a with
  | AAddServer | AReady _ | AWork _ | ACloseFinish | AReconnect _ _ | APacket _ _
  | ARedial _ | AAgentErr _ => false
  | _ => true
  end.

(** What a loop or the network does on one agent. *)
Definition link_act (a : act) : bool :=
  match a with
  | NetIn _ _ | LoopRead _ | LoopCheck _ | LoopDisconnect _ | LoopSnapshot _
  | LoopCloseOld _ | LoopQuit _ => true
  | _ => false
  end.

Definition dial_err (d : dial) : option error := match d with inl _ => None | inr e => Some e end.

(** An agent's report, with the agent it is about. *)
Definition tag (i : nat) (e : error) : error :=
  match e with Disconnect e _ => Disconnect e i | e => e end.

(** The actions of agents in a list, each of its own agent. *)
Section system.
Context `{GoArch}.
Variable range : jobFuncs → list (bytes * jobFunc).

Fixpoint run_links (acts : list (nat * act)) (ls : list sys) : option (list sys) :=
  match acts with
  | [] => Some ls
  | (i, a) :: acts => s ← ls !! i; s ← do_act a s; run_links acts (<[i := s]> ls)
  end.

(** The agents' side of [Ready]: each [Connect] up to the first dial that fails. *)
Fixpoint connect_acts (ixs : list nat) (dials : nat → dial) (ls : list sys) : list (nat * act) :=
  match ixs with
  | [] => []
  | i :: ixs =>
      match ls !! i ≫= (getConn ∘ ag) with
      | Some _ => connect_acts ixs dials ls
      | None =>
          (i, ConnectBegin) :: (i, ConnectDial (dials i)) ::
          match dials i with inl _ => connect_acts ixs dials ls | inr _ => [] end
      end
  end.

Definition ready_acts (dials : nat → dial) (st : system) : list (nat * act) :=
  if decide (funcs (wk (core st)) = ∅) then []
  else connect_acts (seq 0 (length (links st))) dials (links st).

(** What an action does on the agents' side. *)
Definition link_acts (a : sact) (st : system) : list (nat * act) :=
  match a with
  | SReady dials => ready_acts dials st
  | SWork dials => if ready (wk (core st)) then [] else ready_acts dials st
  | SReconnect i d => [(i, ReconnectDial d)]
  | SLink i a => [(i, a)]
  | SLoopDial i k d => [(i, LoopDial k d)]
  | SLoopSend i k => [(i, LoopSend k); (i, MainTake)]
  | SCloseFinish => concat ((λ i, [(i, CloseQuit); (i, AgentClose)]) <$> seq 0 (length (links st)))
  | _ => []
  end.

(** The errors agent [i] has reported meanwhile. *)
Definition new_errors (i : nat) (ls ls' : list sys) : list error :=
  match ls !! i, ls' !! i with
  | Some s, Some s' => drop (length (reported s)) (reported s')
  | _, _ => []
  end.

(** What it does on the worker's side; [ls'] are the agents after it. *)
Definition core_acts (a : sact) (st : system) (ls' : list sys) : list wact :=
  match a with
  | SCore a => [a]
  | SAddServer => [AAddServer]
  | SReady dials => [AReady (dial_err ∘ dials)]
  | SWork dials => [AWork (dial_err ∘ dials)]
  | SReconnect i d => [AReconnect i (dial_err d)]
  | SLink i _ => (AAgentErr ∘ tag i) <$> new_errors i (links st) ls'
  | SLoopDial i k (inl _) => [ARedial i]
  | SLoopDial i k (inr _) => (AAgentErr ∘ tag i) <$> new_errors i (links st) ls'
  | SMainTake => match queue st with (i, p) :: _ => [APacket i p] | [] => [] end
  | SCloseFinish => [ACloseFinish]
  | SLoopSend _ _ | SMainQuit | SMainReturn => []
  end.

(** The packet loop [k] of agent [i] is about to send. *)
Definition sending (i k : nat) (st : system) : option inPack :=
  s ← links st !! i; l ← loops s !! k;
  match l_pc l with AtSend p => Some p | _ => None end.

Definition enabled (a : sact) (st : system) : bool :=
  match a with
  | SCore a => core_act a
  | SLink _ a => link_act a
  | SWork _ => bool_decide (main st = NotStarted)
  | SLoopSend i k => bool_decide (Z.of_nat (length (queue st)) < queueSize)%Z
  | SMainTake => bool_decide ((main st = Serving ∨ main st = Draining) ∧ queue st ≠ [])
  | SMainQuit => bool_decide (main st = Serving ∧ waiting (ds (core st)) = None) &&
                 quit_closed (sd (core st))
  | SMainReturn => bool_decide (main st = Draining ∧ queue st = [] ∧ waiting (ds (core st)) = None)
  | _ => true
  end.

(** The channel and the main loop after it. *)
Definition next_queue (a : sact) (st : system) : list (nat * inPack) :=
  match a with
  | SLoopSend i k => match sending i k st with Some p => queue st ++ [(i, p)] | None => queue st end
  | SMainTake => tail (queue st)
  | _ => queue st
  end.

Definition next_main (a : sact) (st : system) : main_pc :=
  match a with
  | SWork _ => Serving
  | SMainQuit => Draining
  | SMainReturn => Returned
  | _ => main st
  end.

Definition next_served (a : sact) (st : system) : list (nat * inPack) :=
  match a with SMainTake => served st ++ take 1 (queue st) | _ => served st end.

(** [AddServer]: the new agent, which sees [quit] as it is. *)
Definition new_link (st : system) : sys :=
  mkSys newAgent [] false [] [] [] [] (quit_closed (sd (core st))).

Definition next_links (a : sact) (st : system) (ls : list sys) : list sys :=
  match a with SAddServer => ls ++ [new_link st] | _ => ls end.

Definition do_sact (a : sact) (st : system) : option (outcome system) :=
  if enabled a st then
    ls ← run_links (link_acts a st) (links st);
    match wrun range (core_acts a st ls) (core st) with
    | None => None
    | Some (Panics p) => Some (Panics p)
    | Some (Val w) =>
        Some (Val (mkSystem w (next_links a st ls) (next_queue a st) (next_main a st)
                     (next_served a st)))
    end
  else None.

Fixpoint srun (acts : list sact) (st : system) : option (outcome system) :=
  match acts with
  | [] => Some (Val st)
  | a :: acts =>
      match do_sact a st with
      | None => None
      | Some (Panics p) => Some (Panics p)
      | Some (Val st) => srun acts st
      end
  end.

(** [New(limit)] *)
Definition New_system (lim : Z) : outcome system :=
  w ← New_worker lim; mret (mkSystem w [] [] NotStarted []).
End system.

(** ** What the worker's own actions leave alone *)

Definition same_agents (w w' : W) : Prop :=
  agents (nt w') = agents (nt w) ∧ length (wires (nt w')) = length (wires (nt w)) ∧
  quit_closed (sd w') = quit_closed (sd w).

#[export] Instance same_agents_preorder : PreOrder same_agents.
Proof.
  split; unfold same_agents; [done|].
  intros ??? (? & ? & ?) (? & ? & ?). split_and!; congruence.
Qed.

Section core_facts.
Context `{GoArch}.
Variable range : jobFuncs → list (bytes * jobFunc).

Abbreviation stays := (keeps same_agents).

Lemma agent_Write_stays i o : stays (agent_Write i o).
Proof.
  unfold agent_Write, mod_nt. apply keeps_bind; [exact _|apply keeps_getW; exact _|]. intros w.
  destruct (_ ≫= getRW) as [c|]; [|apply keeps_lift; exact _].
  apply keeps_modW. intros w1. split_and!; [done| |done]. simpl. apply length_alter.
Qed.

Ltac stays_by known := repeat first
  [ match goal with |- ∀ _, _ => intro end | known | apply agent_Write_stays
  | apply keeps_ret; exact _ | apply keeps_getW; exact _ | apply keeps_lift; exact _
  | apply keeps_modW; intros; by split_and!
  | apply keeps_bind; [exact _|..] | apply keeps_for_each; [exact _|]
  | apply keeps_recovering; [exact _|..]
  | progress cbv zeta | case_decide | case_match ].
Ltac stays := stays_by fail.

Lemma method_stays :
  (∀ n f t, stays (AddFunc n f t)) ∧ (∀ n, stays (RemoveFunc n)) ∧ stays Reset ∧
  (∀ d, stays (Echo d)) ∧ (∀ d, stays (SetId d)) ∧ (∀ h, stays (SetErrorHandler h)) ∧
  (∀ h, stays (SetJobHandler h)) ∧ stays Close_begin ∧ (∀ e, stays (werr e)) ∧
  (∀ i p, stays (handleInPack i p)) ∧ (∀ j e, stays (job_end j e)) ∧
  (∀ i, stays (send_done i)) ∧ (∀ n, stays (add_tokens n)) ∧
  (∀ i o, stays (agent_Write i o)) ∧ (∀ i p r, stays (send_report i p r)) ∧
  (∀ j st, stays (set_job j st)) ∧ (∀ x, stays (add_stray x)) ∧ (∀ k rs, stays (set_stray k rs)).
Proof.
  assert (∀ o, stays (broadcast o)) as Hb by (intros o; unfold broadcast; stays).
  assert (∀ e, stays (werr e)) as He by (intros e; unfold werr, mod_lg; stays).
  assert (∀ n t, stays (addFunc n t)) as Ha
    by (intros n t; unfold addFunc; stays_by ltac:(apply Hb)).
  unfold AddFunc, RemoveFunc, removeFunc, Reset, Reset_send, Reset_clear, Echo, SetId, SetErrorHandler,
    SetJobHandler, Close_begin, handleInPack, customeHandler, job_end, send_done, add_tokens, send_report,
    set_job, add_stray, set_stray, PreSleep, Grab, mod_wk, mod_ds, mod_lg, mod_sd.
  split_and!; stays_by ltac:(apply Hb || apply He || apply Ha).
Qed.

Lemma do_wact_stays a w w' :
  (core_act a = true ∨ (∃ e, a = AAgentErr e) ∨ ∃ i p, a = APacket i p) →
  do_wact range a w = Some (Val ((), w')) → same_agents w w'.
Proof.
  destruct method_stays as (K1 & K2 & K3 & K4 & K5 & K6 & K7 & K8 & K9 & K10 & K11 & K12 & K13 & K14 &
    K15 & K16 & K17 & K18).
  assert (∀ m : M unit, stays m → Some (m w) = Some (Val ((), w')) → same_agents w w') as Hk.
  { intros m Hm [= E]. by eapply Hm. }
  assert (∀ {A} (m : M A), stays m → stays (m ;; mret ())) as Hr.
  { intros A m Hm. stays_by ltac:(apply Hm). }
  intros Hc. destruct a; simpl do_wact; try (by destruct Hc as [|[[]|(? & ? & ?)]]);
    try solve [apply Hk; auto].
  - destruct (waiting (ds w)); [done|]. apply Hk, K10.
  - destruct (jobs (ds w) !! j) as [x|]; [|done]. simpl. destruct (j_state x); try done.
    apply Hk. unfold job_start. stays_by ltac:(apply K16).
  - destruct (jobs (ds w) !! j) as [x|]; [|done]. simpl. unfold job_report_step.
    destruct (j_state x) as [|[|r rs] res timed| |]; try done. simpl. apply Hk.
    stays_by ltac:(apply K15 || apply K16).
  - destruct (jobs (ds w) !! j) as [x|]; [|done]. simpl. unfold job_return.
    destruct (j_state x) as [|[|r rs] [] []| |]; try done; simpl; apply Hk; unfold job_check;
      stays_by ltac:(apply K16).
  - destruct (jobs (ds w) !! j) as [x|]; [|done]. simpl. unfold job_timeout.
    destruct (j_state x) as [|rs res []| |]; try done; simpl; apply Hk; unfold job_check.
    stays_by ltac:(apply K16 || apply K17).
  - destruct (jobs (ds w) !! j) as [x|]; [|done]. simpl. unfold job_write.
    destruct (j_state x); try done; simpl; apply Hk. stays_by ltac:(apply K14 || apply K16).
  - destruct (strays (ds w) !! k) as [x|]; [|done]. simpl. unfold stray_step.
    destruct (s_reports x); [done|]. simpl. apply Hk. stays_by ltac:(apply K15 || apply K18).
  - destruct (jobs (ds w) !! j) as [[ai p [| | |e]]|]; try done.
    destruct (limit (wk w)); [case_decide; [|done]|]; apply Hk;
      stays_by ltac:(apply K11 || apply K13).
  - destruct (waiting (ds w)); [|done]. destruct (limit (wk w)); [|done]. case_decide; [|done].
    apply Hk. stays_by ltac:(apply K12 || apply K13).
  - destruct (waiting (ds w)); [|done]. destruct (limit (wk w)); [|done].
    destruct (jobs (ds w) !! j) as [[ai p [| | |e]]|]; try done. case_decide; [|done].
    apply Hk. stays_by ltac:(apply K11 || apply K12).
Qed.
End core_facts.

(** ** The two views of an agent *)

(** The worker's and the agent's own record of it, up to the names of its
    connections. *)
Definition same_view (a : agent) (s : sys) : Prop :=
  a_epoch a = a_epoch (ag s) ∧ (a_conn a = None ↔ a_conn (ag s) = None) ∧
  (a_rw a = None ↔ a_rw (ag s) = None).

(** The views agree for every agent, each agent writes to connections of its
    own, and all see the same [quit]. *)
Record agree (w : W) (ls : list sys) : Prop := {
  ag_view : Forall2 same_view (agents (nt w)) ls;
  ag_rw : ∀ i a c, agents (nt w) !! i = Some a → a_rw a = Some c → c < length (wires (nt w));
  ag_own : ∀ i j a b c, agents (nt w) !! i = Some a → agents (nt w) !! j = Some b →
    a_rw a = Some c → a_rw b = Some c → i = j;
  ag_conn : Forall (λ a, a_conn a = None ∨ a_conn a = a_rw a) (agents (nt w));
  ag_quit : Forall (λ s, quit s = quit_closed (sd w)) ls
}.

Lemma same_agents_agree w w' ls : same_agents w w' → agree w ls → agree w' ls.
Proof. intros (E1 & E2 & E3) [A1 A2 A3 A4 A5]. split; rewrite ?E1, ?E2, ?E3; done. Qed.

(** A step of one agent that neither publishes nor closes. *)
Lemma link_agree i s s' w ls :
  agree w ls → ls !! i = Some s → ag s' = ag s → quit s' = quit s → agree w (<[i := s']> ls).
Proof.
  intros [A1 A2 A3 A4 A5] Hi Ha Hq. split; [|done..|].
  - apply Forall2_same_length_lookup in A1 as [Hlen A1]. apply Forall2_same_length_lookup.
    rewrite length_insert. split; [done|]. intros j a b Hj Hb.
    rewrite list_lookup_insert in Hb. case_decide as Hd; [|by eapply A1].
    destruct Hd as [-> _]. injection Hb as <-. unfold same_view. rewrite Ha. by eapply A1.
  - apply Forall_insert; [done|]. rewrite Hq. by eapply (Forall_lookup_1 _ _ _ _ A5).
Qed.

(** A dial that succeeds publishes on both sides. *)
Lemma publish_agree i s s' w w' ls c :
  agree w ls → ls !! i = Some s → ag s' = (setConn c (ag s)).1 → quit s' = quit s →
  publish_conn i w = Val ((), w') → agree w' (<[i := s']> ls).
Proof.
  intros [A1 A2 A3 A4 A5] Hi Ha Hq [= <-]. split; simpl.
  - apply Forall2_same_length_lookup in A1 as [Hlen A1]. apply Forall2_same_length_lookup.
    rewrite length_insert, length_alter. split; [done|]. intros j a b Hj Hb.
    rewrite list_lookup_alter in Hj. rewrite list_lookup_insert in Hb.
    destruct (decide (i = j)) as [E|Hd].
    + subst j. rewrite decide_True in Hb by (split; [done|by eapply lookup_lt_Some]).
      injection Hb as <-. destruct (agents (nt w) !! i) as [a0|] eqn:Ea; [|done].
      injection Hj as <-. destruct (A1 _ _ _ Ea Hi) as (E1 & _ & _).
      unfold same_view. rewrite Ha. simpl. by rewrite E1.
    + rewrite decide_False in Hb by naive_solver. by eapply A1.
  - intros j a k Hj Hk. rewrite list_lookup_alter in Hj. rewrite length_app. simpl.
    destruct (decide (i = j)) as [->|Hd]; [|pose proof (A2 _ _ _ Hj Hk); lia].
    destruct (agents (nt w) !! j) as [a0|]; [|done]. injection Hj as <-.
    injection Hk as <-. lia.
  - intros j1 j2 a b k H1 H2 Hk1 Hk2. rewrite list_lookup_alter in H1, H2.
    destruct (decide (i = j1)) as [E1|N1], (decide (i = j2)) as [E2|N2]; [congruence|..|by eapply A3].
    + subst j1. destruct (agents (nt w) !! i) as [a0|]; [|done]. injection H1 as <-. injection Hk1 as <-.
      pose proof (A2 _ _ _ H2 Hk2). lia.
    + subst j2. destruct (agents (nt w) !! i) as [a0|]; [|done]. injection H2 as <-. injection Hk2 as <-.
      pose proof (A2 _ _ _ H1 Hk1). lia.
  - apply Forall_alter; [done|]. intros a Hlk _. by right.
  - apply Forall_insert; [done|]. rewrite Hq. by eapply (Forall_lookup_1 _ _ _ _ A5).
Qed.

Section agree_facts.
Context `{GoArch}.
Variable range : jobFuncs → list (bytes * jobFunc).

(** Only [Close] closes [quit]. *)
Lemma do_act_quit a s s' : a ≠ CloseQuit → do_act a s = Some s' → quit s' = quit s.
Proof.
  intros Hq Ha. destruct a; simpl in Ha; try done.
  - unfold connect_begin in Ha. by case_all.
  - unfold connect_dial in Ha. destruct (connecting s); [|done]. destruct d; by simplify_eq/=.
  - injection Ha as <-. by destruct d.
  - destruct (conns s !! c); by simplify_eq/=.
  - destruct (loops s !! i) as [l|]; [|done]. simpl in Ha. destruct (l_pc l); try done.
    unfold loop_read in Ha. destruct (conns s !! l_rw l); [|done]. simpl in Ha. by case_all.
  - destruct (loops s !! i) as [l|]; [|done]. simpl in Ha. destruct (l_pc l); try done.
    unfold loop_check in Ha. by case_all.
  - destruct (loops s !! i) as [l|]; [|done]. simpl in Ha. destruct (l_pc l); try done.
    injection Ha as <-. unfold disconnect_error. by destruct (getConn (ag s)).
  - destruct (loops s !! i) as [l|]; [|done]. simpl in Ha. destruct (l_pc l); by simplify_eq.
  - destruct (loops s !! i) as [l|]; [|done]. simpl in Ha. destruct (l_pc l); try done.
    injection Ha as <-. destruct d; [done|]. by destruct old.
  - destruct (loops s !! i) as [l|]; [|done]. simpl in Ha. destruct (l_pc l); try done.
    injection Ha as <-. by destruct old.
  - destruct (loops s !! i) as [l|]; [|done]. simpl in Ha. destruct (l_pc l); try done.
    unfold loop_send in Ha. by case_all.
  - destruct (loops s !! i) as [l|]; [|done]. simpl in Ha. destruct (l_pc l); try done. by case_all.
  - by case_all.
  - injection Ha as <-. unfold agent_close. by destruct (a_conn (ag s)).
Qed.

(** The agent's fields after an action: unchanged, or published. *)
Lemma do_act_ag a s s' :
  do_act a s = Some s' →
  match a with
  | AgentClose => True
  | ConnectDial (inl _) | ReconnectDial (inl _) | LoopDial _ (inl _) =>
      ag s' = (setConn (length (conns s)) (ag s)).1
  | _ => ag s' = ag s
  end.
Proof.
  intros Ha. pose proof (do_act_cases _ _ _ Ha) as Hc.
  assert (∀ rd s1 e c, publish rd s = (s1, e, c) → ag s1 = (setConn (length (conns s)) (ag s)).1) as Hp.
  { intros rd s1 e c E. unfold publish in E. simpl in E. by simplify_eq. }
  destruct a as [|[]|[]| | | | | |? []| | | | | |]; try done; simpl in Ha;
    try (destruct Hc as [(Hq & _)|[[? _]|(? & ? & ? & ? & ? & ? & _ & Hl & _)]];
         [exact Hq|done|naive_solver]).
  - unfold connect_dial in Ha. destruct (connecting s); [|done]. by injection Ha as <-.
  - unfold connect_dial in Ha. destruct (connecting s); [|done]. by injection Ha as <-.
  - by simplify_eq/=.
  - destruct (loops s !! i) as [l|]; [|done]. simpl in Ha. destruct (l_pc l); try done.
    by injection Ha as <-.
  - destruct (loops s !! i) as [l|]; [|done]. simpl in Ha. destruct (l_pc l); try done.
    injection Ha as <-. by destruct old.
Qed.

Lemma run_links_cons i a acts ls ls' :
  run_links ((i, a) :: acts) ls = Some ls' ↔
  ∃ s s', ls !! i = Some s ∧ do_act a s = Some s' ∧ run_links acts (<[i := s']> ls) = Some ls'.
Proof.
  simpl. destruct (ls !! i) as [s|]; simpl; [|naive_solver].
  destruct (do_act a s) as [s1|] eqn:E; simpl; [|naive_solver]. split; [eauto|].
  by intros (? & ? & [= <-] & E' & ?); simplify_eq.
Qed.

(** One action of one agent that publishes nothing. *)
Lemma plain_agree i a s s' w ls :
  agree w ls → ls !! i = Some s → do_act a s = Some s' →
  match a with
  | AgentClose | CloseQuit | ConnectDial (inl _) | ReconnectDial (inl _) | LoopDial _ (inl _) => False
  | _ => True
  end → agree w (<[i := s']> ls).
Proof.
  intros Hag Hi Ha Hp. pose proof (do_act_ag _ _ _ Ha) as Hv.
  eapply link_agree; [done..| |eapply do_act_quit; [|exact Ha]; by destruct a].
  by destruct a as [|[]|[]| | | | | |? []| | | | | |].
Qed.

(** ... and one that does. *)
Lemma dialled_agree i a s s' w w' ls :
  agree w ls → ls !! i = Some s → do_act a s = Some s' →
  match a with ConnectDial (inl _) | ReconnectDial (inl _) | LoopDial _ (inl _) => True | _ => False end →
  publish_conn i w = Val ((), w') → agree w' (<[i := s']> ls).
Proof.
  intros Hag Hi Ha Hp. pose proof (do_act_ag _ _ _ Ha) as Hv.
  eapply publish_agree; [done..| |eapply do_act_quit; [|exact Ha]; by destruct a].
  by destruct a as [|[]|[]| | | | | |? []| | | | | |].
Qed.

Lemma agree_lookup w ls i s :
  agree w ls → ls !! i = Some s → ∃ a, agents (nt w) !! i = Some a ∧ same_view a s.
Proof. intros Hag Hi. by eapply Forall2_lookup_r in Hi; [|apply (ag_view _ _ Hag)]. Qed.

(** [Ready]'s loop over the agents, on both sides. *)
Lemma connect_all_agree ixs dials w ls0 ls e w' ls' :
  NoDup ixs → agree w ls → (∀ i, i ∈ ixs → ls !! i = ls0 !! i) →
  connect_all ixs (dial_err ∘ dials) w = Val (e, w') →
  run_links (connect_acts ixs dials ls0) ls = Some ls' → agree w' ls'.
Proof.
  revert w ls. induction ixs as [|i ixs IH]; intros w ls Hnd Hag Hls Hw Hl; cbn [connect_all connect_acts] in *.
  { injection Hw as _ <-. by injection Hl as <-. }
  apply list.NoDup_cons in Hnd as [Hni Hnd].
  apply M_bind_Val in Hw as (e1 & w1 & Ec & Hw). unfold Connect in Ec.
  apply M_bind_Val in Ec as (? & ? & [= <- <-] & Ec).
  rewrite <- (Hls i) in Hl by set_solver.
  assert (∀ i0, i0 ∈ ixs → ∀ s, <[i := s]> ls !! i0 = ls0 !! i0) as Hrest.
  { intros i0 Hi0 s. rewrite list_lookup_insert_ne by set_solver. apply Hls. set_solver. }
  destruct (ls !! i ≫= getConn ∘ ag) as [c|] eqn:Hc.
  - destruct (ls !! i) as [s|] eqn:Hi; [|done]. simpl in Hc.
    destruct (agree_lookup _ _ _ _ Hag Hi) as (a & Ha & (_ & Hv & _)). rewrite Ha in Ec. simpl in Ec.
    unfold getConn in *. destruct (a_conn a) as [c'|]; [|destruct Hv as [Hv _]; rewrite Hv in Hc; done].
    injection Ec as <- <-. eapply IH; [done..| |exact Hw|exact Hl]. intros i0 Hi0. apply Hls. set_solver.
  - apply run_links_cons in Hl as (s & s1 & Hi & E1 & Hl).
    apply run_links_cons in Hl as (s1' & s2 & Hi1 & E2 & Hl).
    rewrite list_lookup_insert_eq in Hi1 by by eapply lookup_lt_Some. injection Hi1 as <-.
    rewrite list_insert_insert_eq in Hl.
    destruct (agree_lookup _ _ _ _ Hag Hi) as (a & Ha & (_ & Hv & _)). rewrite Ha in Ec. simpl in Ec.
    rewrite Hi in Hc. simpl in Hc. unfold getConn in *. rewrite (proj2 Hv Hc) in Ec.
    assert (agree w (<[i := s1]> ls)) as Hag1 by by eapply plain_agree.
    assert (<[i := s1]> ls !! i = Some s1) as Hi1
      by (apply list_lookup_insert_eq; by eapply lookup_lt_Some).
    change ((dial_err ∘ dials) i) with (dial_err (dials i)) in Ec.
    destruct (dials i) as [rd|er]; simpl in Ec.
    + apply M_bind_Val in Ec as ([] & w2 & Ep & [= <- <-]).
      eapply IH; [done| |by intros; apply Hrest|exact Hw|exact Hl].
      rewrite <- (list_insert_insert_eq ls i s2 s1). by eapply dialled_agree.
    + injection Ec as <- <-. injection Hw as <- <-. injection Hl as <-.
      rewrite <- (list_insert_insert_eq ls i s2 s1). by eapply plain_agree.
Qed.

(** [Close]'s loop over the agents. *)
Definition closed_link (s : sys) : sys :=
  agent_close (mkSys (ag s) (conns s) (connecting s) (loops s) (reported s) (inbox s) (handled s) true).

Lemma closed_link_view s :
  a_conn (ag (closed_link s)) = None ∧ a_rw (ag (closed_link s)) = a_rw (ag s) ∧
  a_epoch (ag (closed_link s)) = a_epoch (ag s) ∧ quit (closed_link s) = true.
Proof. unfold closed_link, agent_close. simpl. by destruct (a_conn (ag s)) eqn:E. Qed.

Lemma run_links_close n k ls ls' :
  run_links (concat ((λ i, [(i, CloseQuit); (i, AgentClose)]) <$> seq k n)) ls = Some ls' →
  length ls' = length ls ∧
  ∀ j, ls' !! j = if decide (k ≤ j < k + n) then closed_link <$> ls !! j else ls !! j.
Proof.
  revert k ls. induction n as [|n IH]; intros k ls.
  { intros [= <-]. split; [done|]. intros j. by rewrite decide_False by lia. }
  cbn [seq fmap list_fmap concat app]. intros Hl.
  apply run_links_cons in Hl as (s & s1 & Hk & [= <-] & Hl).
  apply run_links_cons in Hl as (s1 & s2 & Hk1 & E2 & Hl).
  rewrite list_lookup_insert_eq in Hk1 by by eapply lookup_lt_Some. injection Hk1 as <-.
  injection E2 as <-. rewrite list_insert_insert_eq in Hl.
  apply IH in Hl as [Hlen Hl]. rewrite length_insert in Hlen. split; [done|]. intros j. rewrite Hl.
  destruct (decide (j = k)) as [->|Hne].
  - rewrite decide_False, decide_True by lia. rewrite Hk. simpl.
    by rewrite list_lookup_insert_eq by by eapply lookup_lt_Some.
  - rewrite list_lookup_insert_ne by done. repeat case_decide; (done || lia).
Qed.

Lemma Close_agree w w' ls ls' :
  agree w ls → Close_finish w = Val ((), w') →
  run_links (concat ((λ i, [(i, CloseQuit); (i, AgentClose)]) <$> seq 0 (length ls))) ls = Some ls' →
  agree w' ls'.
Proof.
  intros [A1 A2 A3 A4 A5] Hc Hl. apply run_links_close in Hl as [Hlen Hl].
  assert (∀ j s', ls' !! j = Some s' → ∃ s, ls !! j = Some s ∧ s' = closed_link s) as Hls.
  { intros j s' Hj. rewrite Hl in Hj. destruct (ls !! j) as [s|] eqn:E; [|by case_decide].
    rewrite decide_True in Hj by (apply lookup_lt_Some in E; lia). injection Hj as <-. eauto. }
  unfold Close_finish in Hc. apply M_bind_Val in Hc as (? & ? & [= <- <-] & Hc).
  destruct (quit_closed (sd w)); [done|]. apply M_bind_Val in Hc as ([] & w1 & [= <-] & [= <-]).
  assert (∀ j a, ((λ a, mkAgent None (a_rw a) (a_epoch a)) <$> agents (nt w)) !! j = Some a →
    ∃ a0, agents (nt w) !! j = Some a0 ∧ a = mkAgent None (a_rw a0) (a_epoch a0)) as Hag.
  { intros j a Hj. rewrite list_lookup_fmap in Hj.
    destruct (agents (nt w) !! j); [|done]. injection Hj as <-. eauto. }
  split; simpl.
  - apply Forall2_same_length_lookup in A1 as [Hn A1]. apply Forall2_same_length_lookup.
    rewrite length_fmap. split; [congruence|]. intros j a s' Ha Hs.
    apply Hag in Ha as (a0 & Ha & ->). apply Hls in Hs as (s & Hs & ->).
    destruct (A1 _ _ _ Ha Hs) as (V1 & _ & V3). destruct (closed_link_view s) as (C1 & C2 & C3 & _).
    unfold same_view. simpl. by rewrite C1, C2, C3, V1, V3.
  - intros j a c Ha Hc. apply Hag in Ha as (a0 & Ha & ->). by eapply A2.
  - intros i j a b c Ha Hb Hca Hcb. apply Hag in Ha as (a0 & Ha & ->). apply Hag in Hb as (b0 & Hb & ->).
    by eapply A3.
  - apply Forall_fmap, Forall_true. intros a. by left.
  - apply Forall_lookup_2. intros j s' Hs. apply Hls in Hs as (s & _ & ->). apply closed_link_view.
Qed.

Lemma wrun_one a w w' :
  wrun range [a] w = Some (Val w') ↔ do_wact range a w = Some (Val ((), w')).
Proof. simpl. destruct (do_wact range a w) as [[[[] w1]|]|]; split; naive_solver. Qed.

(** Reports only reach the log. *)
Lemma errors_stay (es : list wact) w w' :
  Forall (λ a, ∃ e, a = AAgentErr e) es → wrun range es w = Some (Val w') → same_agents w w'.
Proof.
  intros Hall. revert w. induction Hall as [|a es Ha _ IH]; intros w Hr; simpl in Hr.
  { by simplify_eq. }
  destruct (do_wact range a w) as [[[[] w1]|]|] eqn:E; try done.
  etrans; [|by apply IH]. eapply do_wact_stays; [by right; left|exact E].
Qed.

Lemma reports_stay i es w w' :
  wrun range ((AAgentErr ∘ tag i) <$> es) w = Some (Val w') → same_agents w w'.
Proof. apply errors_stay, Forall_fmap, Forall_true. simpl. eauto. Qed.

Lemma for_each_stays {A} (xs : list A) f : (∀ x, keeps same_agents (f x)) → keeps same_agents (for_each xs f).
Proof. apply keeps_for_each; exact _. Qed.

Lemma addFunc_stays n t : keeps same_agents (addFunc n t).
Proof.
  unfold addFunc, broadcast. apply keeps_bind; [exact _|apply keeps_lift; exact _|]. intros o.
  apply keeps_bind; [exact _|apply keeps_getW; exact _|]. intros w.
  apply for_each_stays. intros i. apply agent_Write_stays.
Qed.

Lemma Ready_agree dials st e w' ls' :
  agree (core st) (links st) → Ready range (dial_err ∘ dials) (core st) = Val (e, w') →
  run_links (ready_acts dials st) (links st) = Some ls' → agree w' ls'.
Proof.
  intros Hag Hr Hl. unfold Ready in Hr. apply M_bind_Val in Hr as (? & ? & [= <- <-] & Hr).
  pose proof (Forall2_length (ag_view _ _ Hag)) as Hlen. unfold ready_acts in Hl.
  destruct (decide (length (agents (nt (core st))) = 0)) as [H0|H0].
  { injection Hr as _ <-. rewrite <- Hlen, H0 in Hl.
    destruct (decide (funcs _ = ∅)); by injection Hl as <-. }
  cbv zeta in Hr. destruct (decide (funcs (wk (core st)) = ∅)).
  { injection Hr as _ <-. by injection Hl as <-. }
  apply M_bind_Val in Hr as (e1 & w1 & Hc & Hr).
  assert (agree w1 ls') as Hag1.
  { rewrite Hlen in Hc. eapply connect_all_agree; [apply NoDup_seq|exact Hag|done|exact Hc|exact Hl]. }
  destruct e1 as [e1|]; [by injection Hr as _ <-|].
  apply M_bind_Val in Hr as ([] & w2 & Hf & Hr). apply M_bind_Val in Hr as ([] & w3 & [= <-] & [= _ <-]).
  apply (same_agents_agree w2); [by split_and!|]. eapply same_agents_agree; [|exact Hag1].
  eapply for_each_stays; [|exact Hf]. intros x. apply addFunc_stays.
Qed.

Lemma Work_agree dials st w' ls' :
  agree (core st) (links st) → Work_start range (dial_err ∘ dials) (core st) = Val ((), w') →
  run_links (if ready (wk (core st)) then [] else ready_acts dials st) (links st) = Some ls' →
  agree w' ls'.
Proof.
  intros Hag Hw Hl. unfold Work_start in Hw. apply M_bind_Val in Hw as (? & ? & [= <- <-] & Hw).
  apply M_bind_Val in Hw as ([] & w1 & Hr & Hw).
  assert (agree w1 ls') as Hag1.
  { destruct (ready (wk (core st))); [by injection Hr as <-; injection Hl as <-|].
    apply M_bind_Val in Hr as (e & w2 & Hr & He). destruct e; [done|]. injection He as <-.
    by eapply Ready_agree. }
  apply M_bind_Val in Hw as ([] & w2 & [= <-] & Hg). eapply same_agents_agree; [|exact Hag1].
  etrans; [|eapply for_each_stays; [|exact Hg]]; [by split_and!|]. intros i. apply agent_Write_stays.
Qed.

Lemma reconnect_agree i d w e w' ls ls' :
  agree w ls → reconnect range i (dial_err d) w = Val (e, w') →
  run_links [(i, ReconnectDial d)] ls = Some ls' → agree w' ls'.
Proof.
  intros Hag Hr Hl. apply run_links_cons in Hl as (s & s' & Hi & Ha & [= <-]).
  destruct d as [rd|er]; simpl in Hr.
  - apply M_bind_Val in Hr as ([] & w1 & Hp & Hr). eapply same_agents_agree; [|by eapply dialled_agree].
    apply M_bind_Val in Hr as (os & w2 & Ho & Hr). unfold funcOutpacks in Ho.
    apply M_bind_Val in Ho as (? & ? & [= <- <-] & Ho). unfold lift in Ho.
    destruct (prep_all _); [|done]. injection Ho as -> <-.
    apply M_bind_Val in Hr as ([] & w3 & Hf & Hr). apply M_bind_Val in Hr as ([] & w4 & Hg & [= _ <-]).
    etrans; [eapply for_each_stays; [|exact Hf]; intros; apply agent_Write_stays|].
    by eapply agent_Write_stays.
  - injection Hr as _ <-. by eapply plain_agree.
Qed.

Lemma AddServer_agree st w' :
  agree (core st) (links st) → AddServer (core st) = Val (None, w') →
  agree w' (links st ++ [new_link st]).
Proof.
  intros [A1 A2 A3 A4 A5] [= <-].
  assert (∀ i a c, (agents (nt (core st)) ++ [newAgent]) !! i = Some a → a_rw a = Some c →
    agents (nt (core st)) !! i = Some a) as Hold.
  { intros i a c [Hi|[_ Ha]]%lookup_app_Some Hc; [done|].
    apply list_lookup_singleton_Some in Ha as [_ <-]. done. }
  split; simpl.
  - apply Forall2_app; [done|]. by repeat constructor.
  - intros i a c Hi Hc. eapply A2; [by eapply Hold|done].
  - intros i j a b c Hi Hj Ha Hb. eapply A3; [by eapply Hold|by eapply Hold|done..].
  - apply Forall_app. split; [done|]. repeat constructor.
  - apply Forall_app. split; [done|]. by repeat constructor.
Qed.

(** ** Every action keeps the views together *)

Lemma do_sact_Val a st st' :
  do_sact range a st = Some (Val st') →
  enabled a st = true ∧ ∃ ls w, run_links (link_acts a st) (links st) = Some ls ∧
    wrun range (core_acts a st ls) (core st) = Some (Val w) ∧
    st' = mkSystem w (next_links a st ls) (next_queue a st) (next_main a st) (next_served a st).
Proof.
  unfold do_sact. destruct (enabled a st); [|done]. simpl.
  destruct (run_links _ _) as [ls|]; [|done]. simpl. intros Hw. split; [done|]. exists ls.
  destruct (wrun range _ _) as [[w|]|]; [|done..]. injection Hw as <-. eauto.
Qed.

Lemma do_sact_agree a st st' :
  agree (core st) (links st) → do_sact range a st = Some (Val st') → agree (core st') (links st').
Proof.
  intros Hag (Hen & ls & w & Hl & Hw & ->)%do_sact_Val. cbn [core links].
  destruct a as [a| |dials|dials|i d|i a|i k d|i k| | | |];
    cbn [link_acts core_acts next_links] in *; try (injection Hl as <-).
  - apply wrun_one in Hw. eapply same_agents_agree; [|done]. eapply do_wact_stays; [by left|exact Hw].
  - apply wrun_one in Hw. injection Hw as <-. by apply AddServer_agree.
  - apply wrun_one in Hw. simpl in Hw. apply (inj Some) in Hw.
    apply M_bind_Val in Hw as (e & w1 & Hr & [= <-]). by eapply Ready_agree.
  - apply wrun_one in Hw. simpl in Hw. apply (inj Some) in Hw. by eapply Work_agree.
  - apply wrun_one in Hw. simpl in Hw. apply (inj Some) in Hw.
    apply M_bind_Val in Hw as (e & w1 & Hr & [= <-]). by eapply reconnect_agree.
  - apply run_links_cons in Hl as (s & s' & Hi & Ha & [= <-]). eapply same_agents_agree.
    + by eapply reports_stay.
    + eapply plain_agree; [done..|]. by destruct a.
  - apply run_links_cons in Hl as (s & s' & Hi & Ha & [= <-]). destruct d as [rd|er].
    + apply wrun_one in Hw. simpl in Hw. apply (inj Some) in Hw. by eapply dialled_agree.
    + eapply same_agents_agree; [by eapply reports_stay|]. by eapply plain_agree.
  - injection Hw as <-. apply run_links_cons in Hl as (s & s1 & Hi & Ha & Hl).
    apply run_links_cons in Hl as (s1' & s2 & Hi' & Ha' & [= <-]).
    eapply plain_agree; [|exact Hi'|exact Ha'|done]. by eapply plain_agree.
  - destruct (queue st) as [|[i p] q]; [by injection Hw as <-|]. apply wrun_one in Hw.
    eapply same_agents_agree; [|done]. eapply do_wact_stays; [by right; right; eauto|exact Hw].
  - by injection Hw as <-.
  - by injection Hw as <-.
  - apply wrun_one in Hw. simpl in Hw. destruct (decide _); [done|]. apply (inj Some) in Hw.
    by eapply Close_agree.
Qed.

(** ** What each part sees of a run *)

Lemma run_links_reachable acts ls ls' :
  Forall reachable ls → run_links acts ls = Some ls' → Forall reachable ls'.
Proof.
  revert ls. induction acts as [|[i a] acts IH]; intros ls Hls Hr; [by simplify_eq/=|].
  apply run_links_cons in Hr as (s & s' & Hi & Ha & Hr). eapply IH; [|exact Hr].
  apply Forall_insert; [done|]. destruct (Forall_lookup_1 _ _ _ _ Hls Hi) as [acts0 Hr0].
  exists (acts0 ++ [a]). rewrite run_app, Hr0. simpl. by rewrite Ha.
Qed.

Lemma new_link_reachable st : reachable (new_link st).
Proof.
  unfold new_link. destruct (quit_closed _); [by exists [CloseQuit]|by exists []].
Qed.

(** A run of the worker alone from [w0] to the worker of [st]. *)
Definition parts_ok (w0 : W) (st : system) : Prop :=
  (∃ acts, wrun range acts w0 = Some (Val (core st))) ∧ Forall reachable (links st) ∧
  agree (core st) (links st).

Lemma do_sact_parts w0 a st st' :
  parts_ok w0 st → do_sact range a st = Some (Val st') → parts_ok w0 st'.
Proof.
  intros ((acts & Hr) & Hre & Hag) Ha. pose proof (do_sact_agree _ _ _ Hag Ha) as Hag'.
  apply do_sact_Val in Ha as (_ & ls & w & Hl & Hw & ->). split_and!; [| |exact Hag'].
  - exists (acts ++ core_acts a st ls). by rewrite wrun_app, Hr.
  - apply run_links_reachable in Hl; [|done]. destruct a; try exact Hl.
    apply Forall_app. split; [exact Hl|]. repeat constructor. apply new_link_reachable.
Qed.

Lemma srun_ind (P : system → Prop) acts st st' :
  (∀ a st st', P st → do_sact range a st = Some (Val st') → P st') →
  P st → srun range acts st = Some (Val st') → P st'.
Proof.
  intros Hstep. revert st. induction acts as [|a acts IH]; intros st Hst Hr; simpl in Hr.
  { by simplify_eq. }
  destruct (do_sact range a st) as [[st1|]|] eqn:E; [|done..]. eauto.
Qed.

Lemma New_parts lim st0 :
  New_system lim = Val st0 → New_worker lim = Val (core st0) ∧ parts_ok (core st0) st0.
Proof.
  unfold New_system. rewrite outcome_bind_Val. intros (w & Hw & [= <-]). split; [done|].
  split_and!; [by exists []|done|]. unfold New_worker in Hw. case_decide; simplify_eq.
  split; simpl; try constructor; done.
Qed.

(** ** The shared channel *)











(** ** No panic in the background *)

(** Agent [i] has had a connection. *)
Definition has_rw (ls : list sys) (i : nat) : Prop := ∃ s c, ls !! i = Some s ∧ a_rw (ag s) = Some c.

Lemma do_act_rw a s s' c :
  do_act a s = Some s' → a_rw (ag s) = Some c → ∃ c', a_rw (ag s') = Some c'.
Proof.
  intros Ha Hc. pose proof (do_act_ag _ _ _ Ha) as Hv.
  destruct a as [|[]|[]| | | | | |? []| | | | | |]; try (rewrite Hv; simpl; eauto; fail).
  simpl in Ha. injection Ha as <-. unfold agent_close. destruct (a_conn (ag s)); simpl; eauto.
Qed.

Lemma run_links_rw acts ls ls' i : run_links acts ls = Some ls' → has_rw ls i → has_rw ls' i.
Proof.
  revert ls. induction acts as [|[j a] acts IH]; intros ls Hr Hi; [by simplify_eq/=|].
  apply run_links_cons in Hr as (s & s1 & Hj & Ha & Hr). apply (IH _ Hr).
  destruct Hi as (s0 & c & Hi & Hc). destruct (decide (j = i)) as [->|Hne].
  - rewrite Hj in Hi. injection Hi as <-. destruct (do_act_rw _ _ _ _ Ha Hc) as [c' Hc'].
    exists s1, c'. by rewrite list_lookup_insert_eq by by eapply lookup_lt_Some.
  - exists s0, c. by rewrite list_lookup_insert_ne.
Qed.

Lemma has_rw_core w ls i :
  agree w ls → has_rw ls i → ∃ c, agents (nt w) !! i ≫= getRW = Some c.
Proof.
  intros Hag (s & c & Hi & Hc). destruct (agree_lookup _ _ _ _ Hag Hi) as (a & Ha & _ & _ & Hv).
  rewrite Ha. simpl. unfold getRW. destruct (a_rw a) as [c'|]; [eauto|].
  destruct Hv as [Hv _]. by rewrite Hv in Hc.
Qed.

(** The main loop parks only for a packet it has just taken. *)
Lemma do_wact_waiting a w w' i :
  do_wact range a w = Some (Val ((), w')) → waiting (ds w') = Some i →
  waiting (ds w) = Some i ∨ ∃ p, a = APacket i p.
Proof.
  destruct (method_keeps range) as (K1 & K2 & K3 & K4 & K5 & K6 & _ & _ & K7 & K8 & K9 & K10 & K11 & K12 & K13).
  assert (∀ m : M unit, keeps same_dispatch m → Some (m w) = Some (Val ((), w')) →
    waiting (ds w') = Some i → waiting (ds w) = Some i ∨ ∃ p, a = APacket i p) as Hk.
  { intros m Hm [= E] Hi. destruct (Hm _ _ _ E) as [Ed _]. left. congruence. }
  assert (∀ {A} (m : M A), keeps same_dispatch m → keeps same_dispatch (m ;; mret ())) as Hr.
  { intros A m Hm. apply keeps_bind; [exact _|done|keeps]. }
  assert (∀ m : M unit, keeps job_shape m → Some (m w) = Some (Val ((), w')) →
    waiting (ds w') = Some i → waiting (ds w) = Some i ∨ ∃ p, a = APacket i p) as Hs.
  { intros m Hm [= E] Hi. destruct (Hm _ _ _ E) as (_ & _ & Ed & _). left. congruence. }
  destruct a; simpl do_wact; try solve [apply Hk; auto using werr_keeps | intros [= <-]; by left].
  - case_decide; [done|]. by apply Hk.
  - destruct (waiting (ds w)) eqn:Hw; [done|]. intros [= E] Hi. right.
    unfold handleInPack in E. case_decide; [apply agent_Write_keeps in E as [E _]; congruence|].
    case_decide; [apply agent_Write_keeps in E as [E _]; congruence|]. case_decide.
    + apply M_bind_Val in E as ([] & w1 & [= <-] & E). apply M_bind_Val in E as (? & ? & [= <- <-] & E).
      simpl in E. destruct (limit (wk w)).
      * injection E as <-. injection Hi as <-. eauto.
      * apply agent_Write_keeps in E as [E _]. rewrite E in Hi. simpl in Hi. congruence.
    + exfalso. assert (keeps same_dispatch ((if decide (iType p = dtError) then
        match inPack_Err p with Some e => werr e | None => mret () end else mret ()) ;; customeHandler p)) as Hkp.
      { apply keeps_bind; [exact _| |intros []; apply K8]. keeps; apply werr_keeps. }
      destruct (Hkp _ _ _ E) as [E' _]. congruence.
  - destruct (jobs (ds w) !! j) as [x|]; [|done]. simpl. destruct (j_state x); try done.
    apply Hs. eapply (job_step_shape range j x). by left.
  - destruct (jobs (ds w) !! j) as [x|]; [|done]. simpl.
    destruct (job_report_step j x) eqn:E; [|done]. apply Hs. eapply (job_step_shape range j x). eauto.
  - destruct (jobs (ds w) !! j) as [x|]; [|done]. simpl.
    destruct (job_return j x) eqn:E; [|done]. apply Hs. eapply (job_step_shape range j x). eauto.
  - destruct (jobs (ds w) !! j) as [x|]; [|done]. simpl.
    destruct (job_timeout j x) eqn:E; [|done]. apply Hs. eapply (job_step_shape range j x). eauto.
  - destruct (jobs (ds w) !! j) as [x|]; [|done]. simpl.
    destruct (job_write j x) eqn:E; [|done]. apply Hs. eapply (job_step_shape range j x). eauto 6.
  - destruct (strays (ds w) !! k) as [x|]; [|done]. simpl.
    destruct (stray_step k x) eqn:E; [|done]. apply Hs. by eapply (stray_step_shape range k x).
  - destruct (jobs (ds w) !! j) as [[ai p [| | |e]]|]; try done.
    destruct (limit (wk w)); [case_decide; [|done]|]; intros [= E] Hi; left.
    + apply M_bind_Val in E as ([] & w1 & [= <-] & E). apply job_end_ds in E as [E _]. by rewrite E in Hi.
    + apply job_end_ds in E as [E _]. by rewrite E in Hi.
  - destruct (waiting (ds w)); [|done]. destruct (limit (wk w)); [|done]. case_decide; [|done].
    intros [= E] Hi. apply M_bind_Val in E as ([] & w1 & [= <-] & E).
    apply send_done_ds in E as [E _]. by rewrite E in Hi.
  - destruct (waiting (ds w)); [|done]. destruct (limit (wk w)); [|done].
    destruct (jobs (ds w) !! j) as [[ai p [| | |e]]|]; try done. case_decide; [|done].
    intros [= E] Hi. apply M_bind_Val in E as ([] & w1 & _ & E).
    apply send_done_ds in E as [E _]. by rewrite E in Hi.
Qed.

Lemma wrun_waiting acts w w' i :
  wrun range acts w = Some (Val w') → waiting (ds w') = Some i →
  waiting (ds w) = Some i ∨ ∃ p, APacket i p ∈ acts.
Proof.
  revert w. induction acts as [|a acts IH]; intros w Hr Hi; simpl in Hr; [simplify_eq; by left|].
  destruct (do_wact range a w) as [[[[] w1]|]|] eqn:E; try done.
  destruct (IH _ Hr Hi) as [Hw|[p Hp]]; [|right; exists p; by right].
  destruct (do_wact_waiting _ _ _ _ E Hw) as [|[p ->]]; [by left|right; exists p; by left].
Qed.

(** Whoever the main loop will write to has a connection. *)
Definition binv (st : system) : Prop :=
  (∀ i, waiting (ds (core st)) = Some i → has_rw (links st) i) ∧
  Forall (λ x, has_rw (links st) x.1) (queue st).

Lemma sending_rw i k st p :
  Forall reachable (links st) → sending i k st = Some p → has_rw (links st) i.
Proof.
  intros Hre Hs. unfold sending in Hs. destruct (links st !! i) as [s|] eqn:Hi; [|done]. simpl in Hs.
  destruct (loops s !! k) as [l|] eqn:Hl; [|done].
  destruct (reachable_inv _ (Forall_lookup_1 _ _ _ _ Hre Hi)) as [_ I2 _ I4 _].
  destruct (Forall_lookup_1 _ _ _ _ I4 Hl) as [Hlt _]. unfold last_conn in I2.
  destruct (length (conns s)) as [|n]; [lia|]. by exists s, n.
Qed.

Lemma do_sact_binv a st st' :
  Forall reachable (links st) → binv st → do_sact range a st = Some (Val st') → binv st'.
Proof.
  intros Hre [Hw Hq] (Hen & ls & w & Hl & Hc & ->)%do_sact_Val.
  assert (∀ i, has_rw (links st) i → has_rw (next_links a st ls) i) as Hmono.
  { intros i Hi. destruct (run_links_rw _ _ _ _ Hl Hi) as (s & c & Hi' & Hs). exists s, c. split; [|done].
    destruct a; try done. simpl. by apply lookup_app_l_Some. }
  split; simpl.
  - intros i Hi. apply Hmono. destruct (wrun_waiting _ _ _ _ Hc Hi) as [|[p Hp]]; [by apply Hw|].
    destruct a as [a| | | | |j b|j k []| | | | |]; simpl in Hp;
      try (apply list_elem_of_singleton in Hp; simplify_eq; done); try (by apply not_elem_of_nil in Hp);
      try (apply list_elem_of_fmap in Hp as (? & ? & _); done).
    destruct (queue st) as [|[j q] qs]; [by apply not_elem_of_nil in Hp|].
    apply list_elem_of_singleton in Hp. injection Hp as <- <-. by apply Forall_cons_1 in Hq as [? _].
  - assert (Forall (λ x, has_rw (next_links a st ls) x.1) (queue st)) as Hq'.
    { eapply Forall_impl; [|exact Hq]. intros x. apply Hmono. }
    destruct a; try exact Hq'; simpl.
    + destruct (sending i k st) as [p|] eqn:Hs; [|exact Hq']. apply Forall_app. split; [exact Hq'|].
      repeat constructor. apply (Hmono i). by eapply sending_rw.
    + destruct (queue st); [done|]. by apply Forall_cons_1 in Hq' as [_ ?].
Qed.

(** The steps of the goroutines the package starts, and of the main loop. *)
Definition background (a : sact) : Prop :=
  match a with
  | SCore (AJobStart _ | AJobReport _ | AJobReturn _ | AJobTimeout _ | AJobWrite _
          | AStrayReport _ | AJobFinish _ | ATokenSend | ARendezvous _) => True
  | SLink _ _ | SLoopDial _ _ _ | SLoopSend _ _ | SMainTake | SMainQuit | SMainReturn => True
  | _ => False
  end.

Definition total {A} (m : M A) : Prop := ∀ w, ∃ a w', m w = Val (a, w').

Lemma total_recovering {A} (m : M A) ok panicked :
  (∀ a, total (ok a)) → total panicked → total (recovering m ok panicked).
Proof. intros Ho Hp w. unfold recovering. destruct (m w) as [[a w1]|]; [apply Ho|apply Hp]. Qed.

Lemma total_bind {A B} (m : M A) (f : A → M B) : total m → (∀ a, total (f a)) → total (m ≫= f).
Proof.
  intros Hm Hf w. destruct (Hm w) as (a & w1 & E). destruct (Hf a w1) as (b & w2 & E2).
  exists b, w2. apply M_bind_Val. eauto.
Qed.

Lemma total_mod f : total (modW f).
Proof. intros w. by eexists _, _. Qed.

Lemma total_werr e : total (werr e).
Proof. intros w. unfold werr, mbind, M_bind, getW. destruct (errorHandler (wk w)); by eexists _, _. Qed.

Lemma total_job_end j e : total (job_end j e).
Proof.
  apply total_bind; [apply total_mod|]. intros _. destruct e; [apply total_werr|]. intros w. by eexists _, _.
Qed.

Lemma total_custom p : total (customeHandler p).
Proof.
  intros w. unfold customeHandler. apply total_bind with (w := w); [intros w1; by eexists _, _|]. intros w1.
  destruct (jobHandler (wk w1)) as [h|]; [|intros w2; by eexists _, _].
  apply total_bind; [apply total_mod|]. intros _.
  destruct (h p); [apply total_werr|intros w2; by eexists _, _].
Qed.

(** A write to an agent that has a connection. *)
Lemma write_ok i o w c :
  agents (nt w) !! i ≫= getRW = Some c → ∃ w', agent_Write i o w = Val ((), w').
Proof.
  intros Hc. eexists. apply M_bind_Val. exists w, w. split; [done|]. rewrite Hc. reflexivity.
Qed.

Lemma handle_ok i p w c :
  agents (nt w) !! i ≫= getRW = Some c → ∃ w', handleInPack i p w = Val ((), w').
Proof.
  intros Hc. unfold handleInPack. case_decide; [by eapply write_ok|]. case_decide; [by eapply write_ok|].
  case_decide.
  - unfold mod_ds, modW, mbind at 1, M_bind at 1. unfold mbind at 1, M_bind at 1, getW. cbn [wk].
    destruct (limit (wk w)); [by eexists|]. by eapply write_ok.
  - destruct (total_bind (if decide (iType p = dtError) then
      match inPack_Err p with Some e => werr e | None => mret () end else mret ())
      (λ _, customeHandler p)) with (w := w) as ([] & w' & E); [|intros; apply total_custom|by exists w'].
    destruct (decide _); [|intros w1; by eexists _, _].
    destruct (inPack_Err p); [apply total_werr|intros w1; by eexists _, _].
Qed.

Lemma send_done_ok i w c :
  agents (nt w) !! i ≫= getRW = Some c → ∃ w', send_done i w = Val ((), w').
Proof.
  intros Hc. destruct (write_ok i grab_pack
    (mkW (wk w) (nt w) (mkDispatch (jobs (ds w)) (tokens (ds w)) None (strays (ds w))) (lg w) (sd w)) c Hc)
    as [w' E]. by exists w'.
Qed.

(** Steps of jobs recover their panics. *)
Lemma job_steps_total j x m :
  m = job_start j x ∨ job_report_step j x = Some m ∨ job_return j x = Some m ∨
  job_timeout j x = Some m ∨ job_write j x = Some m → total m.
Proof.
  assert (∀ st, total (set_job j st)) as Hset by (intros st; apply total_mod).
  assert (∀ d e, total (job_check j d e)) as Hck
    by (intros d e; apply total_bind; [intros w; by eexists _, _|]; intros w; apply Hset).
  intros [->|[Hm|[Hm|[Hm|Hm]]]].
  - apply total_bind; [intros w; by eexists _, _|]. intros w. apply Hset.
  - unfold job_report_step in Hm. destruct (j_state x) as [|[|]| |]; simplify_eq.
    by apply total_recovering.
  - unfold job_return in Hm. destruct (j_state x) as [|[|] [] []| |]; simplify_eq;
      first [apply Hset | apply Hck].
  - unfold job_timeout in Hm. destruct (j_state x) as [|? ? []| |]; simplify_eq.
    apply total_bind; [apply total_mod|]. intros _. apply Hck.
  - unfold job_write in Hm. destruct (j_state x); simplify_eq. by apply total_recovering.
Qed.

Lemma stray_total k x m : stray_step k x = Some m → total m.
Proof.
  unfold stray_step. destruct (s_reports x); intros; simplify_eq.
  apply total_recovering; intros; apply total_mod.
Qed.

Lemma reports_ok i es w : ∃ w', wrun range ((AAgentErr ∘ tag i) <$> es) w = Some (Val w').
Proof.
  revert w. induction es as [|e es IH]; intros w; simpl; [by eexists|].
  destruct (total_werr (tag i e) w) as ([] & w1 & ->). apply IH.
Qed.

(** A worker's action that is not a method call. *)
Lemma core_step_ok a w ls p :
  background (SCore a) → agree w ls → (∀ i, waiting (ds w) = Some i → has_rw ls i) →
  do_wact range a w ≠ Some (Panics p).
Proof.
  intros Hb Hag Hw.
  assert (∀ m : M unit, total m → Some (m w) ≠ Some (Panics p)) as Ht.
  { intros m Hm [= E]. destruct (Hm w) as (? & ? & E2). congruence. }
  destruct a; try done; simpl.
  - destruct (jobs (ds w) !! j) as [x|]; [|done]. simpl. by destruct (j_state x).
  - destruct (jobs (ds w) !! j) as [x|]; [|done]. simpl.
    destruct (job_report_step j x) eqn:E; [|done]. apply Ht. eapply (job_steps_total j x). eauto.
  - destruct (jobs (ds w) !! j) as [x|]; [|done]. simpl.
    destruct (job_return j x) eqn:E; [|done]. apply Ht. eapply (job_steps_total j x). eauto.
  - destruct (jobs (ds w) !! j) as [x|]; [|done]. simpl.
    destruct (job_timeout j x) eqn:E; [|done]. apply Ht. eapply (job_steps_total j x). eauto.
  - destruct (jobs (ds w) !! j) as [x|]; [|done]. simpl.
    destruct (job_write j x) eqn:E; [|done]. apply Ht. eapply (job_steps_total j x). eauto 6.
  - destruct (strays (ds w) !! k) as [x|]; [|done]. simpl.
    destruct (stray_step k x) eqn:E; [|done]. apply Ht. by eapply (stray_total k x).
  - destruct (jobs (ds w) !! j) as [[ai q [| | |e]]|]; try done.
    destruct (limit (wk w)); [case_decide; [|done]|]; apply Ht; [|apply total_job_end].
    apply total_bind; [apply total_mod|]. intros _. apply total_job_end.
  - destruct (waiting (ds w)) as [i|] eqn:Hi; [|done]. destruct (limit (wk w)); [|done].
    case_decide; [|done]. destruct (has_rw_core _ _ _ Hag (Hw i eq_refl)) as [c Hc].
    destruct (send_done_ok i (mkW (wk w) (nt w) (mkDispatch (jobs (ds w)) (tokens (ds w) + 1)
      (waiting (ds w)) (strays (ds w))) (lg w) (sd w)) c Hc) as [w' E].
    intros [= E2]. unfold add_tokens, mod_ds, modW, mbind, M_bind in E2. by rewrite E in E2.
  - destruct (waiting (ds w)) as [i|] eqn:Hi; [|done]. destruct (limit (wk w)); [|done].
    destruct (jobs (ds w) !! j) as [[ai q [| | |e]]|]; try done. case_decide; [|done].
    destruct (has_rw_core _ _ _ Hag (Hw i eq_refl)) as [c Hc]. intros [= E2].
    destruct (total_job_end j e w) as ([] & w1 & E1).
    destruct method_stays as (_ & _ & _ & _ & _ & _ & _ & _ & _ & _ & K11 & _).
    destruct (K11 _ _ _ _ _ E1) as (Ea & _). rewrite <- Ea in Hc.
    destruct (send_done_ok i w1 c Hc) as [w' E]. unfold mbind, M_bind in E2. by rewrite E1, E in E2.
Qed.

(** C16: no panic in the background.  Whatever has happened so far - reconnects,
    redials, timeouts, [Close] - no goroutine the package starts and no step of
    the main loop panics: a packet to handle or a job to grab always belongs to
    an agent that has a connection to write to, and what a job does is recovered. *)
Theorem background_safe lim st0 acts st a p :
  New_system lim = Val st0 → srun range acts st0 = Some (Val st) → background a →
  do_sact range a st ≠ Some (Panics p).
Proof.
  intros Hn Hr Hb Ha. destruct (New_parts _ _ Hn) as [_ Hp].
  assert (parts_ok (core st0) st ∧ binv st) as [(_ & Hre & Hag) [Hw Hq]].
  { eapply (srun_ind (λ st, parts_ok (core st0) st ∧ binv st)); [|split; [exact Hp|]|exact Hr].
    - intros b s1 s2 [H1 H2] E. split; [by eapply do_sact_parts|].
      eapply do_sact_binv; [apply H1|exact H2|exact E].
    - unfold New_system, New_worker in Hn. destruct (decide _); [done|]. injection Hn as <-. by split. }
  unfold do_sact in Ha. destruct (enabled a st); [|done].
  destruct (run_links _ _) as [ls|]; [|done]. simpl in Ha.
  destruct (wrun range _ _) as [[w|q]|] eqn:Hc; try done. clear Ha.
  destruct a as [a| | | | |i a|i k d|i k| | | |]; try done; simpl in Hc.
  - destruct (do_wact range a (core st)) as [[[[] ?]|]|] eqn:E; try done.
    by apply (core_step_ok a (core st) (links st) p0) in E.
  - destruct (reports_ok i (new_errors i (links st) ls) (core st)) as [w' E]. by rewrite E in Hc.
  - destruct d; [done|].
    destruct (reports_ok i (new_errors i (links st) ls) (core st)) as [w' E]. by rewrite E in Hc.
  - destruct (queue st) as [|[i x] qs]; [done|]. simpl in Hc.
    apply Forall_cons_1 in Hq as [Hi _]. destruct (has_rw_core _ _ _ Hag Hi) as [c Hrw].
    destruct (waiting (ds (core st))); [done|].
    destruct (handle_ok i x (core st) c Hrw) as [w' E]. by rewrite E in Hc.
Qed.

(** ** Draining *)

(** Without a limit the main loop never parks. *)
Definition unlimited (w0 : W) (st : system) : Prop :=
  parts_ok w0 st ∧ binv st ∧ dinv None (core st).

Lemma wrun_dinv l acts w w' : dinv l w → wrun range acts w = Some (Val w') → dinv l w'.
Proof. intros Hd Hr. eapply wrun_ind; [|exact Hd|exact Hr]. intros a w1 w2 E. by eapply do_wact_dinv. Qed.

Lemma do_sact_unlimited w0 a st st' :
  unlimited w0 st → do_sact range a st = Some (Val st') → unlimited w0 st'.
Proof.
  intros (Hp & Hb & Hd) Ha. split_and!.
  - by eapply do_sact_parts.
  - eapply do_sact_binv; [apply Hp|exact Hb|exact Ha].
  - apply do_sact_Val in Ha as (_ & ls & w & _ & Hw & ->). simpl. by eapply wrun_dinv.
Qed.

Lemma srun_app acts1 acts2 st :
  srun range (acts1 ++ acts2) st =
  match srun range acts1 st with
  | Some (Val st1) => srun range acts2 st1
  | r => r
  end.
Proof.
  revert st. induction acts1 as [|a acts1 IH]; intros st; simpl; [done|].
  destruct (do_sact range a st) as [[st1|]|]; [apply IH|done..].
Qed.

(** Taking one packet while draining. *)
Lemma drain_one w0 st x q :
  unlimited w0 st → main st = Draining → queue st = x :: q →
  ∃ st', do_sact range SMainTake st = Some (Val st') ∧ unlimited w0 st' ∧
    main st' = Draining ∧ queue st' = q ∧ served st' = served st ++ [x].
Proof.
  intros Hu Hm Hq. destruct Hu as ((Hw & Hre & Hag) & [Hb1 Hb2] & Hd) eqn:E. clear E. destruct x as [i p].
  rewrite Hq in Hb2. apply Forall_cons_1 in Hb2 as [Hi _].
  destruct (has_rw_core _ _ _ Hag Hi) as [c Hc]. destruct (handle_ok i p (core st) c Hc) as [w' E].
  assert (do_sact range SMainTake st = Some (Val
    (mkSystem w' (links st) q Draining (served st ++ [(i, p)])))) as Hs.
  { unfold do_sact, enabled. rewrite bool_decide_eq_true_2 by (split; [by right|by rewrite Hq]).
    cbn [link_acts run_links mbind option_bind core_acts]. rewrite Hq. simpl.
    destruct Hd as [_ ->]. rewrite E. rewrite Hq, Hm. done. }
  eexists. split; [exact Hs|]. split; [|done]. by eapply do_sact_unlimited.
Qed.

Lemma drain_all w0 q st :
  unlimited w0 st → main st = Draining → queue st = q →
  ∃ st', srun range (replicate (length q) SMainTake) st = Some (Val st') ∧ unlimited w0 st' ∧
    main st' = Draining ∧ queue st' = [] ∧ served st' = served st ++ q.
Proof.
  revert st. induction q as [|x q IH]; intros st Hu Hm Hq.
  { exists st. by rewrite app_nil_r. }
  destruct (drain_one _ _ _ _ Hu Hm Hq) as (st1 & E & Hu1 & Hm1 & Hq1 & Hs1).
  destruct (IH st1 Hu1 Hm1 Hq1) as (st2 & E2 & Hu2 & Hm2 & Hq2 & Hs2). exists st2.
  cbn [length replicate srun]. rewrite E. split_and!; try done.
  rewrite Hs2, Hs1, <- (assoc_L app). done.
Qed.

(** C15: [Work] returns after [Close], with everything served.  For a worker
    without a limit, in any reachable state in which [quit] is closed the main
    loop can leave its loop, and it then handles each packet still in the channel
    - one step each, none of them panics or blocks - and returns. *)
Theorem close_drains st0 acts st :
  New_system 0 = Val st0 → srun range acts st0 = Some (Val st) →
  main st = Serving → quit_closed (sd (core st)) = true →
  ∃ st', srun range (SMainQuit :: replicate (length (queue st)) SMainTake ++ [SMainReturn]) st =
    Some (Val st') ∧
    main st' = Returned ∧ queue st' = [] ∧ served st' = served st ++ queue st.
Proof.
  intros Hn Hr Hm Hq. destruct (New_parts _ _ Hn) as [Hw0 Hp].
  assert (unlimited (core st0) st) as Hu.
  { eapply srun_ind; [apply do_sact_unlimited| |exact Hr]. split_and!; [exact Hp| |].
    - unfold New_system, New_worker in Hn. destruct (decide _); [done|]. injection Hn as <-. by split.
    - by apply New_dinv in Hw0 as [? _]. }
  assert (waiting (ds (core st)) = None) as Hwt by (destruct Hu as (_ & _ & _ & H1); exact H1).
  set (st1 := mkSystem (core st) (links st) (queue st) Draining (served st)).
  assert (do_sact range SMainQuit st = Some (Val st1)) as E1.
  { unfold do_sact, enabled. by rewrite bool_decide_eq_true_2, Hq by done. }
  assert (unlimited (core st0) st1) as Hu1 by by eapply do_sact_unlimited.
  destruct (drain_all _ (queue st) st1 Hu1 eq_refl eq_refl) as (st2 & E2 & Hu2 & Hm2 & Hq2 & Hs2).
  eexists. cbn [srun]. rewrite E1, srun_app, E2. cbn [srun]. unfold do_sact, enabled.
  rewrite bool_decide_eq_true_2 by (destruct Hu2 as (_ & _ & _ & H1); done).
  simpl. split; [done|]. by rewrite Hq2.
Qed.
End agree_facts.

(** ** A worker with nothing to do *)

Section quiescent.
Context `{GoArch}.
Variable range : jobFuncs → list (bytes * jobFunc).

(** A loop that is over or waits for its connection. *)
Definition loop_idle (s : sys) (l : loop) : Prop :=
  l_pc l = Stopped ∨ l_pc l = AtRead ∧ ∀ i, loop_read i l s = None.

(** Nothing to do: no job, no packet, every loop idle. *)
Definition quiescent (st : system) : Prop :=
  jobs (ds (core st)) = [] ∧ strays (ds (core st)) = [] ∧ waiting (ds (core st)) = None ∧
  queue st = [] ∧ quit_closed (sd (core st)) = false ∧ main st = Serving ∧
  Forall (λ s, Forall (loop_idle s) (loops s)) (links st).

Lemma quiescent_stuck a st :
  quiescent st → background a → (∀ i c ev, a ≠ SLink i (NetIn c ev)) → do_sact range a st = None.
Proof.
  intros (Hj & Hs & Hw & Hq & Hqc & Hm & Hl) Hb Hn.
  assert (∀ i s k l, links st !! i = Some s → loops s !! k = Some l → loop_idle s l) as Hloop.
  { intros i s k l Hi Hk. by eapply (Forall_lookup_1 _ _ _ _ (Forall_lookup_1 _ _ _ _ Hl Hi)). }
  unfold do_sact. destruct (enabled a st) eqn:Hen; [|done].
  destruct a as [a| | | | |i a|i k d|i k| | | |]; try done; simpl in *.
  - destruct a; try done; simpl; rewrite ?Hj, ?Hs, ?Hw; done.
  - destruct (links st !! i) as [s|] eqn:Hi; [|done]. simpl.
    destruct a as [| | |c ev|k|k|k|k| |k| |k| | |]; try done; [by destruct (Hn i c ev)|..];
      simpl; (destruct (loops s !! k) as [l|] eqn:Hk; [|done]); simpl;
      destruct (Hloop _ _ _ _ Hi Hk) as [->|[-> Hr]]; try done; by rewrite Hr.
  - destruct (links st !! i) as [s|] eqn:Hi; [|done]. simpl.
    destruct (loops s !! k) as [l|] eqn:Hk; [|done]. simpl.
    by destruct (Hloop _ _ _ _ Hi Hk) as [->|[-> _]].
  - destruct (links st !! i) as [s|] eqn:Hi; [|done]. simpl.
    destruct (loops s !! k) as [l|] eqn:Hk; [|done]. simpl.
    by destruct (Hloop _ _ _ _ Hi Hk) as [->|[-> _]].
  - apply bool_decide_eq_true in Hen. naive_solver.
  - rewrite Hqc in Hen. by rewrite andb_false_r in Hen.
  - apply bool_decide_eq_true in Hen. rewrite Hm in Hen. naive_solver.
Qed.
End quiescent.

Definition system_of (lim : Z) : system :=
  match New_system lim with
  | Val st => st
  | Panics _ => mkSystem new_one [] [] NotStarted []
  end.

Definition after_sacts (lim : Z) (acts : list sact) : system :=
  match srun (H := W64) map_to_list acts (system_of lim) with Some (Val st) => st | _ => system_of lim end.

(** ** Witnesses *)

(** Two agents, a job through each channel, [Close] with one packet queued. *)
Definition job_conn (h : bytes) : Reader :=
  mkReader [] [Chunk (frame dtJobAssign (h ++ x00 :: str "f" ++ x00 :: str "in"))].

Definition pass (i : nat) : list sact :=
  [SLink i (LoopRead 0); SLink i (LoopCheck 0); SLoopSend i 0].

Definition two_jobs : list sact :=
  [SAddServer; SAddServer; SCore (AAddFunc (str "f") (λ p, ([], Returns (iData p) None)) 0);
   SWork (λ i, inl (job_conn (if decide (i = 0) then str "H:1" else str "H:2")))] ++
  pass 1 ++ pass 0 ++
  [SMainTake; SCore (AJobStart 0); SCore (AJobReturn 0); SCore (AJobWrite 0);
   SCore ACloseBegin; SCloseFinish].

Lemma two_jobs_runs :
  srun (H := W64) map_to_list two_jobs (system_of 0) = Some (Val (after_sacts 0 two_jobs)).
Proof. vm_compute. reflexivity. Qed.


Lemma background_safe_witness :
  do_sact (H := W64) map_to_list SMainTake (after_sacts 0 two_jobs) ≠ Some (Panics NilDereference).
Proof.
  refine (background_safe (H := W64) map_to_list 0 (system_of 0) two_jobs _ SMainTake NilDereference _
    two_jobs_runs _); [reflexivity|exact I].
Defined.

Lemma close_drains_witness :
  let st := after_sacts 0 two_jobs in
  ∃ st', srun (H := W64) map_to_list [SMainQuit; SMainTake; SMainReturn] st = Some (Val st') ∧
    main st' = Returned ∧ queue st' = [] ∧ served st' = served st ++ queue st.
Proof.
  intros st.
  refine (close_drains (H := W64) map_to_list (system_of 0) two_jobs st _ two_jobs_runs _ _);
    [reflexivity|vm_compute; reflexivity..].
Defined.
