(* ===== verification/Redial.v ===== *)
(** * A redial announces nothing: [work] of worker/agent.go

    A read loop that gets a malformed packet or a connection error it takes for
    a lost connection dials again and publishes the new connection; unlike
    [Reconnect] it neither registers the functions nor grabs.  Here, for the
    running worker of System.v: whatever the goroutines of the package and the
    server do afterwards, the server of the new connection has no function on
    record until a method of the worker is called. *)

From S2P Require Import Prelude GoStd Protocol ClientWire WorkerPack AgentIO Agent Worker.
From S2P Require Import WorkerAbilities System.
Import WC.

(** The worker's table and what each server has on record are left alone. *)
Definition mute (w w' : W) : Prop :=
  funcs (wk w') = funcs (wk w) ∧
  ∀ i l, view i w = Some l → ∃ l', view i w' = Some l' ∧ abilities l' = abilities l.

#[export] Instance mute_preorder : PreOrder mute.
Proof.
  split; unfold mute; [by eauto|]. intros w1 w2 w3 [E1 V1] [E2 V2]. split; [congruence|].
  intros i l Hl. destruct (V1 _ _ Hl) as (l1 & H1 & A1). destruct (V2 _ _ H1) as (l2 & H2 & A2).
  exists l2. split; congruence.
Qed.

Section redial.
Context `{GoArch}.
Variable range : jobFuncs → list (bytes * jobFunc).

Abbreviation mutes := (keeps mute).

Lemma mute_net w w' : funcs (wk w') = funcs (wk w) → nt w' = nt w → mute w w'.
Proof. intros E1 E2. split; [done|]. unfold view. rewrite E2. eauto. Qed.

Lemma mutes_modW f :
  (∀ w, funcs (wk (f w)) = funcs (wk w) ∧ nt (f w) = nt w) → mutes (modW f).
Proof. intros Hf. apply keeps_modW. intros w. destruct (Hf w). by apply mute_net. Qed.

(** A packet that announces nothing. *)
Lemma mutes_write i o : neutral o → mutes (agent_Write i o).
Proof.
  intros Ho. unfold agent_Write, mod_nt. apply keeps_bind; [exact _|apply keeps_getW; exact _|]. intros w.
  destruct (_ ≫= getRW) as [c|]; [|apply keeps_lift; exact _].
  apply keeps_modW. intros w1. split; [done|]. intros j l. unfold view. simpl.
  destruct (agents (nt w1) !! j) as [a|]; [|done]. simpl. destruct (getRW a) as [c'|]; [|done]. simpl.
  intros Hl. rewrite list_lookup_alter. case_decide; [subst c'|eauto].
  rewrite Hl. simpl. exists (l ++ [o]). by rewrite abilities_snoc, ability_neutral.
Qed.

Lemma mutes_report i p r : mutes (send_report i p r).
Proof.
  apply keeps_lift_bind. intros o Ho. by eapply mutes_write, report_pack_neutral.
Qed.

Lemma mutes_reply i p d e : mutes (agent_Write i (reply_pack p d e)).
Proof.
  apply mutes_write, neutral_const. unfold reply_pack. simpl. destruct e; [case_decide|]; set_solver.
Qed.

Ltac mutes := repeat first
  [ match goal with |- ∀ _, _ => intro end
  | apply keeps_ret; exact _ | apply keeps_getW; exact _ | apply keeps_lift; exact _
  | apply mutes_modW; intros; by split | apply mutes_report | apply mutes_reply
  | apply mutes_write, neutral_const; simpl; set_solver
  | apply keeps_bind; [exact _|..] | apply keeps_recovering; [exact _|..]
  | progress cbv zeta | case_decide | case_match ].

Lemma mutes_handle i p : mutes (handleInPack i p).
Proof. unfold handleInPack, PreSleep, Grab, customeHandler, werr, mod_ds, mod_lg. mutes. Qed.

Lemma mutes_job j x :
  mutes (job_start j x) ∧ (∀ m, job_report_step j x = Some m → mutes m) ∧
  (∀ m, job_return j x = Some m → mutes m) ∧ (∀ m, job_timeout j x = Some m → mutes m) ∧
  (∀ m, job_write j x = Some m → mutes m).
Proof.
  unfold job_start, job_report_step, job_return, job_timeout, job_write, job_check, add_stray, set_job, mod_ds.
  split_and!; [mutes|..]; intros m Hm; destruct (j_state x) as [|[|] [] []| |]; simplify_eq; mutes.
Qed.

Lemma mutes_stray k x m : stray_step k x = Some m → mutes m.
Proof. unfold stray_step, set_stray, mod_ds. intros Hm. case_match; simplify_eq. mutes. Qed.

Lemma mutes_end j e : mutes (job_end j e).
Proof. unfold job_end, werr, mod_ds, mod_lg. mutes. Qed.

Lemma mutes_send i : mutes (send_done i).
Proof. unfold send_done, Grab, mod_ds. mutes. Qed.

(** What the goroutines of the package do in the worker. *)
Lemma background_mutes a w w' :
  background (SCore a) ∨ (∃ e, a = AAgentErr e) ∨ (∃ i p, a = APacket i p) →
  do_wact range a w = Some (Val ((), w')) → mute w w'.
Proof.
  assert (∀ m : M unit, mutes m → Some (m w) = Some (Val ((), w')) → mute w w') as Hk.
  { intros m Hm [= E]. by eapply Hm. }
  assert (∀ n, mutes (add_tokens n)) as Ht by (intros n; unfold add_tokens, mod_ds; mutes).
  intros Hb. destruct a; try (by destruct Hb as [|[[]|(? & ? & ?)]]); simpl do_wact.
  - destruct (waiting (ds w)); [done|]. apply Hk, mutes_handle.
  - apply Hk. unfold werr, mod_lg. mutes.
  - destruct (jobs (ds w) !! j) as [x|]; [|done]. simpl. destruct (j_state x); try done.
    apply Hk, mutes_job.
  - destruct (jobs (ds w) !! j) as [x|]; [|done]. simpl.
    destruct (job_report_step j x) eqn:E; [|done]. destruct (mutes_job j x) as (_ & J2 & J3 & J4 & J5). by eapply Hk, J2.
  - destruct (jobs (ds w) !! j) as [x|]; [|done]. simpl.
    destruct (job_return j x) eqn:E; [|done]. destruct (mutes_job j x) as (_ & J2 & J3 & J4 & J5). by eapply Hk, J3.
  - destruct (jobs (ds w) !! j) as [x|]; [|done]. simpl.
    destruct (job_timeout j x) eqn:E; [|done]. destruct (mutes_job j x) as (_ & J2 & J3 & J4 & J5). by eapply Hk, J4.
  - destruct (jobs (ds w) !! j) as [x|]; [|done]. simpl.
    destruct (job_write j x) eqn:E; [|done]. destruct (mutes_job j x) as (_ & J2 & J3 & J4 & J5). by eapply Hk, J5.
  - destruct (strays (ds w) !! k) as [x|]; [|done]. simpl.
    destruct (stray_step k x) eqn:E; [|done]. by eapply Hk, mutes_stray.
  - destruct (jobs (ds w) !! j) as [[ai p [| | |e]]|]; try done.
    destruct (limit (wk w)); [case_decide; [|done]|]; apply Hk; [|apply mutes_end].
    apply keeps_bind; [exact _|apply Ht|intros _; apply mutes_end].
  - destruct (waiting (ds w)); [|done]. destruct (limit (wk w)); [|done]. case_decide; [|done].
    apply Hk, keeps_bind; [exact _|apply Ht|intros _; apply mutes_send].
  - destruct (waiting (ds w)); [|done]. destruct (limit (wk w)); [|done].
    destruct (jobs (ds w) !! j) as [[ai p [| | |e]]|]; try done. case_decide; [|done].
    apply Hk, keeps_bind; [exact _|apply mutes_end|intros _; apply mutes_send].
Qed.

Lemma errors_mute i es w w' :
  wrun range ((AAgentErr ∘ tag i) <$> es) w = Some (Val w') → mute w w'.
Proof.
  revert w. induction es as [|e es IH]; intros w Hr; [by simplify_eq/=|]. cbn [fmap list_fmap wrun] in Hr.
  destruct (do_wact range ((AAgentErr ∘ tag i) e) w) as [[[[] w1]|]|] eqn:E; try done.
  etrans; [|by apply IH]. eapply background_mutes; [|exact E]. right. left. by eexists.
Qed.

(** A redial leaves the connections of the other agents alone. *)
Lemma publish_views i w w' :
  publish_conn i w = Val ((), w') →
  funcs (wk w') = funcs (wk w) ∧ (i < length (agents (nt w)) → view i w' = Some []) ∧
  ∀ j l, j ≠ i → view j w = Some l → view j w' = Some l.
Proof.
  intros [= <-]. unfold view. simpl. split_and!; [done|..].
  - intros [a Ha]%lookup_lt_is_Some_2. rewrite list_lookup_alter, decide_True, Ha by done. simpl.
    rewrite lookup_app_r by done. by rewrite Nat.sub_diag.
  - intros j l Hne. rewrite list_lookup_alter, decide_False by done.
    destruct (agents (nt w) !! j) as [a|]; [|done]. simpl. destruct (getRW a) as [c|]; [|done]. simpl.
    apply lookup_app_l_Some.
Qed.

(** The server of agent [i] has no function of the worker on record. *)
Definition forgotten (i : nat) (w : W) : Prop := ∃ l, view i w = Some l ∧ abilities l = ∅.

Lemma mute_forgotten i w w' : mute w w' → forgotten i w → forgotten i w'.
Proof.
  intros [_ V] (l & Hl & Ha). destruct (V _ _ Hl) as (l' & Hl' & Ha'). exists l'. split; congruence.
Qed.

Lemma background_forgotten fs i a st st' :
  background a → do_sact range a st = Some (Val st') →
  funcs (wk (core st)) = fs → forgotten i (core st) →
  funcs (wk (core st')) = fs ∧ forgotten i (core st').
Proof.
  intros Hb (Hen & ls & w & Hl & Hw & ->)%do_sact_Val Hfs Hi. cbn [core].
  assert (mute (core st) w → funcs (wk w) = fs ∧ forgotten i w) as Hm.
  { intros Hm. split; [destruct Hm; congruence|by eapply mute_forgotten]. }
  destruct a as [a| | | | |j a|j k [rd|e]|j k| | | |]; try done; cbn [core_acts] in Hw.
  - apply wrun_one in Hw. apply Hm. by eapply background_mutes; [left|].
  - apply Hm. by eapply errors_mute.
  - apply wrun_one in Hw. simpl in Hw. apply (inj Some) in Hw.
    destruct (publish_views _ _ _ Hw) as (Ef & Ei & Ej). split; [congruence|].
    destruct Hi as (l & Hl' & Ha). destruct (decide (i = j)) as [->|Hne]; [|exists l; auto].
    exists []. split; [|done]. apply Ei. unfold view in Hl'.
    destruct (agents (nt (core st)) !! j) eqn:E; [|done]. by eapply lookup_lt_Some.
  - apply Hm. by eapply errors_mute.
  - by simplify_eq/=.
  - destruct (queue st) as [|[j p] q]; [by simplify_eq/=|]. apply wrun_one in Hw.
    apply Hm. eapply background_mutes; [|exact Hw]. right. right. by eexists _, _.
  - by simplify_eq/=.
  - by simplify_eq/=.
Qed.

(** C38: a redial forgets the functions, and nothing brings them back.  In any
    reachable state of any worker, when a read loop replaces its connection the
    new one starts empty; and whatever the goroutines of the package, the main
    loop and the servers then do - packets, jobs and their results, grabs,
    further redials of this or another agent, but no call of a method - the
    server of that agent still has no function of the worker on record, while
    the worker's own table is untouched. *)
Theorem redial_forgets_abilities lim st0 acts st i k rd st1 bg st2 :
  New_system lim = Val st0 → srun range acts st0 = Some (Val st) →
  do_sact range (SLoopDial i k (inl rd)) st = Some (Val st1) →
  Forall background bg → srun range bg st1 = Some (Val st2) →
  view i (core st1) = Some [] ∧
  funcs (wk (core st2)) = funcs (wk (core st)) ∧
  ∃ l, view i (core st2) = Some l ∧ abilities l = ∅.
Proof.
  intros Hn Hr Hd Hbg Hr2. destruct (New_parts range _ _ Hn) as [_ Hp].
  assert (parts_ok range (core st0) st) as (_ & _ & Hag)
    by (eapply srun_ind; eauto using do_sact_parts).
  apply do_sact_Val in Hd as (_ & ls & w & Hl & Hw & ->). cbn [link_acts core_acts core] in *.
  apply run_links_cons in Hl as (s & s' & Hi & _). apply wrun_one in Hw.
  simpl in Hw. apply (inj Some) in Hw. destruct (publish_views _ _ _ Hw) as (Ef & Ei & _).
  assert (view i w = Some []) as Hv.
  { apply Ei. destruct (agree_lookup _ _ _ _ Hag Hi) as (a & Ha & _). by eapply lookup_lt_Some. }
  split; [exact Hv|]. rewrite <- Ef.
  assert (∀ st1, funcs (wk (core st1)) = funcs (wk w) → forgotten i (core st1) →
    srun range bg st1 = Some (Val st2) →
    funcs (wk (core st2)) = funcs (wk w) ∧ forgotten i (core st2)) as Hall.
  { clear Hr2. induction Hbg as [|a bg Ha _ IH]; intros sa Hfs Hf Hra; simpl in Hra; [by simplify_eq|].
    destruct (do_sact range a sa) as [[sb|]|] eqn:E; try done.
    destruct (background_forgotten _ _ _ _ _ Ha E Hfs Hf). by apply (IH sb). }
  refine (Hall _ _ _ Hr2); [done|by exists []].
Qed.
End redial.

(** ** Witness *)

(** A worker with one function, connected and serving, whose server sends a
    packet with the wrong magic; its loop redials. *)
Definition malformed : list sact :=
  [SAddServer; SCore (AAddFunc (str "f") (λ p, ([], Returns (iData p) None)) 0);
   SWork (λ _, inl bad_conn); SLink 0 (LoopRead 0); SLink 0 (LoopCheck 0); SLink 0 (LoopSnapshot 0)].

Definition noop_conn : Reader := mkReader [] [Chunk (frame dtNoop [])].
Definition redial : sact := SLoopDial 0 0 (inl noop_conn).

(** The new connection's server sends a NOOP: the worker grabs there. *)
Definition noop_served : list sact :=
  [SLink 0 (LoopCloseOld 0); SLink 0 (LoopRead 0); SLink 0 (LoopCheck 0); SLoopSend 0 0; SMainTake].

Lemma redial_forgets_abilities_witness :
  let st := after_sacts 0 (malformed ++ redial :: noop_served) in
  (∃ l, view 0 (core st) = Some l ∧ abilities l = ∅) ∧
  map (map oType) (wires (nt (core st))) = [[dtCanDo; dtGrabJobUniq]; [dtGrabJobUniq]].
Proof.
  intros st. split; [|vm_compute; reflexivity].
  refine (proj2 (proj2 (redial_forgets_abilities (H := W64) map_to_list 0 (system_of 0) malformed
    (after_sacts 0 malformed) 0 0 noop_conn (after_sacts 0 (malformed ++ [redial])) noop_served st _ _ _ _ _))).
  - reflexivity.
  - vm_compute. reflexivity.
  - vm_compute. reflexivity.
  - repeat constructor.
  - vm_compute. reflexivity.
Defined.
