(* ===== verification/Disconnect.v ===== *)
(** * The disconnect error: worker/worker.go, WorkerDisconnectError

    What an error handler can do with the error of a lost connection: ask for
    its text and for the server, and [Reconnect].  A handler that reconnects
    brings the worker back: the new connection has a reader, the functions are
    announced on it and the next job is asked for. *)

From S2P Require Import Prelude GoStd Protocol ClientWire WorkerPack AgentIO Agent Worker.
From S2P Require Import WorkerAbilities System.
Import WC.

(** The error whose text [Error()] returns: that of the error it wraps. *)
Definition Error_of (e : error) : error :=
  match e with Disconnect err _ => err | e => e end.

(** [Server()]: the agent, which has the network and address it was added with. *)
Definition Server (e : error) : option nat :=
  match e with Disconnect _ a => Some a | _ => None end.

(** [Reconnect()], with its dial; only this error has the method. *)
Definition Reconnect (e : error) (d : dial) : option sact :=
  match e with Disconnect _ a => Some (SReconnect a d) | _ => None end.

Section recover.
Context `{GoArch}.
Variable range : jobFuncs → list (bytes * jobFunc).

(** An agent that reads connection [rd] as its current one. *)
Definition reads (s : sys) (rd : Reader) : Prop :=
  ∃ k l, loops s !! k = Some l ∧ l_pc l = AtRead ∧ l_epoch l = currentEpoch (ag s) ∧
    getConn (ag s) = Some (l_rw l) ∧ conns s !! l_rw l = Some (mkConn rd true (stream rd)).

Lemma reconnect_reads rd s : reads (reconnect_dial (inl rd) s) rd.
Proof.
  unfold reconnect_dial, publish. simpl.
  exists (length (loops s)). eexists. split; [by apply list_lookup_middle|]. simpl.
  split_and!; [done..|]. by apply list_lookup_middle.
Qed.

(** C17: a handler that reconnects brings the worker back.  In any state of a
    running worker whose servers know its functions, when the error of agent [i]'s
    lost connection is answered with [Reconnect] and the dial succeeds, the new
    connection is the agent's current one with a loop reading it, every function
    has been announced on it with its timeout and nothing else has been written
    but, last, the grab for a job; all servers still know all functions. *)
Theorem reconnect_recovers lim st0 acts st err i rd :
  (∀ m, range m ≡ₚ map_to_list m) → New_system lim = Val st0 → srun range acts st0 = Some (Val st) →
  sinv (core st) → i < length (links st) →
  ∃ a st' s, Reconnect (Disconnect err i) (inl rd) = Some a ∧
    do_sact range a st = Some (Val st') ∧ sinv (core st') ∧
    view i (core st') = Some (((λ p, can_do p.1 (jf_timeout p.2)) <$> range (funcs (wk (core st)))) ++
                              [grab_pack]) ∧
    links st' !! i = Some s ∧ reads s rd.
Proof.
  intros Hrange H0 Hr Hs Hi.
  assert (agree (core st) (links st)) as Hag.
  { destruct (New_parts range lim st0 H0) as [_ (_ & _ & Hag)].
    eapply (srun_ind range (λ st, agree (core st) (links st))); [|exact Hag|exact Hr].
    intros a st1 st2. apply do_sact_agree. }
  pose proof (Forall2_length (ag_view _ _ Hag)) as Hlen.
  apply lookup_lt_is_Some in Hi as [s Hs0].
  destruct (reconnect_step range i (core st) Hrange Hs) as (w3 & E & Hw3 & _ & _ & Hv).
  { rewrite Hlen. by eapply lookup_lt_Some. }
  assert (wrun range [AReconnect i (dial_err (inl rd))] (core st) = Some (Val w3)) as Ew.
  { cbn [wrun do_wact dial_err]. unfold mbind, M_bind. by rewrite E. }
  eexists _, _, (reconnect_dial (inl rd) s). split; [done|]. split.
  - unfold do_sact. cbn [enabled link_acts core_acts run_links]. rewrite Hs0.
    cbn [mbind option_bind do_act]. rewrite Ew. reflexivity.
  - split_and!; [done..| |apply reconnect_reads].
    cbn [links next_links]. apply list_lookup_insert_eq. by eapply lookup_lt_Some.
Qed.
End recover.

(** ** Witness *)

(** A worker with one function loses its connection. *)
Definition lost : list sact :=
  [SCore (ASetErrorHandler true); SAddServer; SCore (AAddFunc (str "f") (λ p, ([], Returns (iData p) None)) 5);
   SWork (λ _, inl (mkReader [] [Fail EOF])); SLink 0 (LoopRead 0); SLink 0 (LoopCheck 0);
   SLink 0 (LoopDisconnect 0)].

Definition lost_st : system := after_sacts 0 lost.

Lemma lost_runs : srun (H := W64) map_to_list lost (system_of 0) = Some (Val lost_st).
Proof. vm_compute. reflexivity. Qed.

Lemma lost_sinv : sinv (H := W64) (core lost_st).
Proof.
  assert (nt (core lost_st) = mkNet [mkAgent (Some 0) (Some 0) 1] [[can_do (str "f") 5; grab_pack]]) as En
    by (vm_compute; reflexivity).
  assert (funcs (wk (core lost_st)) = {[str "f" := mkJobFunc (λ p, ([], Returns (iData p) None)) 5]}) as Ef
    by (vm_compute; reflexivity).
  assert (ds (core lost_st) = mkDispatch [] 0 None []) as Ed by (vm_compute; reflexivity).
  split; [| | | |rewrite Ed; by split].
  - rewrite En. split.
    + intros [|i] a Ha; [|done]. injection Ha as <-. exists 0. split; [done|]. simpl. lia.
    + by intros [|i] [|j].
  - vm_compute. reflexivity.
  - unfold funcs_ok. rewrite Ef. apply map_Forall_singleton. split; [by_decide|]. vm_compute. done.
  - intros j Hj. unfold view. rewrite En in Hj |- *. rewrite Ef. destruct j as [|j]; [|simpl in Hj; lia].
    vm_compute. reflexivity.
Qed.

Lemma reconnect_recovers_witness :
  errs (lg (core lost_st)) = [Disconnect EOF 0] ∧
  ∃ a st' s, Reconnect (Disconnect EOF 0) (inl (mkReader [] [])) = Some a ∧
    do_sact (H := W64) map_to_list a lost_st = Some (Val st') ∧ sinv (H := W64) (core st') ∧
    view 0 (core st') = Some [can_do (str "f") 5; grab_pack] ∧
    links st' !! 0 = Some s ∧ reads s (mkReader [] []).
Proof.
  split; [vm_compute; reflexivity|].
  refine (reconnect_recovers (H := W64) map_to_list 0 (system_of 0) lost lost_st EOF 0 (mkReader [] []) _ _
    lost_runs lost_sinv _).
  - done.
  - reflexivity.
  - vm_compute. lia.
Defined.
