(* ===== verification/ClientLoop.v ===== *)
(** * The client's dispatcher: [processLoop] and [deliver] of client/client.go

    [processLoop] is the one consumer of [client.in]: it settles the negotiation
    of the "exceptions" option, gives JOB_CREATED, ECHO_RES and STATUS_RES to the
    caller waiting for it, and WORK_* packets to the handler of their job.  It
    is a step function over a state that holds its locals and the members of
    [Client] it touches, with the clock reading of [take] as an argument.

    The internal handlers are the three closures of client.go, each sending
    once to the result channel of a call; the channels, all of capacity one, are
    numbered.  External handlers are the callers' functions, by a number; what
    they are called with is logged. *)

From S2P Require Import Prelude GoStd Protocol ClientResponse HandlerSlot.
Import CC.

(** [exceptionsState] *)
Definition exceptionsPending : Z := 0.
Definition exceptionsOn : Z := 1.
Definition exceptionsRefused : Z := 2.

(** The closures [do], [Echo] and [Status] register, with their channel. *)
Inductive handler :=
| HCreated (ch : nat)
| HEcho (ch : nat)
| HStatus (ch : nat).

Definition chan_of (h : handler) : nat :=
  match h with HCreated c | HEcho c | HStatus c => c end.

(** What they send. *)
Inductive reply :=
| handleOrError (handle : bytes) (err : option error)
| echoed (data : slice)
| statusOrError (status : option Status) (err : option error).

Abbreviation handled := (handledResponse handler nat).

Record pstate := mkP {
  rhandlers : gmap bytes nat;
  optionPending : bool;
  exceptionsState : Z;
  created : handlerSlot handler nat;
  echo : handlerSlot handler nat;
  status : statusHandlers handler nat;
  errors : list error;
  calls : list (nat * Response);
  chans : gmap nat (list reply)
}.

Definition p_init : pstate := mkP ∅ false exceptionsPending empty_slot empty_slot ∅ [] [] ∅.

Definition set_negotiation (pending : bool) (ex : Z) (s : pstate) : pstate :=
  mkP (rhandlers s) pending ex (created s) (echo s) (status s) (errors s) (calls s) (chans s).
Definition set_rhandlers (m : gmap bytes nat) (s : pstate) : pstate :=
  mkP m (optionPending s) (exceptionsState s) (created s) (echo s) (status s) (errors s) (calls s)
    (chans s).
Definition set_created (q : handlerSlot handler nat) (s : pstate) : pstate :=
  mkP (rhandlers s) (optionPending s) (exceptionsState s) q (echo s) (status s) (errors s) (calls s)
    (chans s).
Definition set_echo (q : handlerSlot handler nat) (s : pstate) : pstate :=
  mkP (rhandlers s) (optionPending s) (exceptionsState s) (created s) q (status s) (errors s)
    (calls s) (chans s).
Definition set_status (m : statusHandlers handler nat) (s : pstate) : pstate :=
  mkP (rhandlers s) (optionPending s) (exceptionsState s) (created s) (echo s) m (errors s) (calls s)
    (chans s).

(** [client.err(e)] *)
Definition client_err (e : error) (s : pstate) : pstate :=
  mkP (rhandlers s) (optionPending s) (exceptionsState s) (created s) (echo s) (status s)
    (errors s ++ [e]) (calls s) (chans s).

(** [cb(resp)] *)
Definition call (cb : nat) (resp : Response) (s : pstate) : pstate :=
  mkP (rhandlers s) (optionPending s) (exceptionsState s) (created s) (echo s) (status s) (errors s)
    (calls s ++ [(cb, resp)]) (chans s).

(** A send on a result channel. *)
Definition send (ch : nat) (r : reply) (s : pstate) : pstate :=
  mkP (rhandlers s) (optionPending s) (exceptionsState s) (created s) (echo s) (status s) (errors s)
    (calls s) (<[ch := default [] (chans s !! ch) ++ [r]]> (chans s)).

Section loop.
Context `{GoArch}.

(** [h.internal(resp)] *)
Definition run_internal (h : handler) (resp : Response) (s : pstate) : outcome pstate :=
  match h with
  | HCreated ch =>
      if decide (DataType resp = dtError)
      then mret (send ch (handleOrError [] (Some (getError (sl (Data resp))))) s)
      else mret (send ch (handleOrError (Handle resp) None) s)
  | HEcho ch => mret (send ch (echoed (Data resp)) s)
  | HStatus ch =>
      '(st, serr) ← _status resp;
      mret (send ch (statusOrError st serr) s)
  end.

(** [client.deliver(h, resp, rhandlers)]; [nilmap] says that the map passed is
    nil, and storing into it panics. *)
Definition deliver (h : handled) (resp : Response) (nilmap : bool) (s : pstate) : outcome pstate :=
  match internal h with
  | None => mret s
  | Some i =>
      s ← match external h with
          | Some e =>
              if decide (Handle resp ≠ []) then
                if nilmap then Panics NilMapWrite
                else mret (set_rhandlers (<[Handle resp := e]> (rhandlers s)) s)
              else mret s
          | None => mret s
          end;
      run_internal i resp s
  end.

Definition work_update (ty : Z) : bool :=
  bool_decide (ty ∈ [dtWorkData; dtWorkWarning; dtWorkStatus]).
Definition work_terminal (ty : Z) : bool :=
  bool_decide (ty ∈ [dtWorkComplete; dtWorkFail; dtWorkException]).

(** The [switch] of [processLoop]. *)
Definition dispatch (now : Z) (resp : Response) (s : pstate) : outcome pstate :=
  let ty := DataType resp in
  if decide (ty = dtError) then mret (client_err (getError (sl (Data resp))) s)
  else if decide (ty = dtOptionRes) then mret s
  else if decide (ty = dtStatusRes) then
    let '(h, m) := status_take (Handle resp) (status s) in
    deliver h resp true (set_status m s)
  else if decide (ty = dtJobCreated) then
    let '(h, q) := slot_take now (created s) in
    deliver h resp false (set_created q s)
  else if decide (ty = dtEchoRes) then
    let '(h, q) := slot_take now (echo s) in
    deliver h resp true (set_echo q s)
  else if work_update ty then
    match rhandlers s !! Handle resp with
    | Some cb => mret (call cb resp s)
    | None => mret s
    end
  else if work_terminal ty then
    match rhandlers s !! Handle resp with
    | Some cb =>
        let s := call cb resp s in
        mret (set_rhandlers (delete (Handle resp) (rhandlers s)) s)
    | None => mret s
    end
  else mret s.

(** One iteration of [processLoop]. *)
Definition process (now : Z) (resp : Response) (s : pstate) : outcome pstate :=
  if decide (DataType resp = dtOptionSent)
  then mret (set_negotiation true (exceptionsState s) s)
  else if optionPending s then
    if decide (DataType resp = dtOptionRes)
    then mret (set_negotiation false exceptionsOn s)
    else
      let s := set_negotiation false exceptionsRefused s in
      if decide (DataType resp = dtError) then mret s else dispatch now resp s
  else dispatch now resp s.

Fixpoint process_all (rs : list (Z * Response)) (s : pstate) : outcome pstate :=
  match rs with
  | [] => mret s
  | (now, resp) :: rs => s ← process now resp s; process_all rs s
  end.
End loop.

(** ** Never panicking *)

(** No handler waiting for an ECHO_RES or a STATUS_RES has an external part:
    [Echo] and [Status] pass nil. *)
Record p_wf (s : pstate) : Prop := {
  pw_echo : Forall (λ e, external (eh e) = None) (queue (echo s));
  pw_status : map_Forall (λ _ h, external h = None) (status s)
}.

Section loop_facts.
Context `{GoArch}.

Lemma _status_total resp : ∃ r, _status resp = Val r.
Proof.
  destruct (split_fields 3 (sl (Data resp))) as [[fs f3]|] eqn:Hf.
  - pose proof (split_fields_length _ _ _ _ Hf) as Hl.
    destruct fs as [|f0 [|f1 [|f2 [|? ?]]]]; try done.
    destruct (decide (f0 = [] ∨ f1 = [])).
    + rewrite _status_malformed by (intros; by simplify_eq). eauto.
    + rewrite (_status_fields _ f0 f1 f2 f3) by tauto. eauto.
  - rewrite _status_malformed by (intros; congruence). eauto.
Qed.

(** [deliver] with what it keeps. *)
Lemma deliver_total h resp nilmap s :
  (nilmap = true → external h = None) →
  ∃ s', deliver h resp nilmap s = Val s' ∧ echo s' = echo s ∧ status s' = status s ∧
    created s' = created s ∧ optionPending s' = optionPending s ∧
    exceptionsState s' = exceptionsState s ∧ errors s' = errors s ∧ calls s' = calls s ∧
    rhandlers s' = match internal h, external h with
                   | Some _, Some e => if decide (Handle resp ≠ []) then <[Handle resp := e]> (rhandlers s)
                                       else rhandlers s
                   | _, _ => rhandlers s
                   end.
Proof.
  intros Hn. unfold deliver. destruct (internal h) as [i|]; [|by exists s].
  assert (∀ s1, ∃ s2, run_internal i resp s1 = Val s2 ∧ echo s2 = echo s1 ∧ status s2 = status s1 ∧
    created s2 = created s1 ∧ optionPending s2 = optionPending s1 ∧
    exceptionsState s2 = exceptionsState s1 ∧ errors s2 = errors s1 ∧ calls s2 = calls s1 ∧
    rhandlers s2 = rhandlers s1) as Hrun.
  { intros s1. destruct i as [ch|ch|ch]; simpl.
    - case_decide; by eexists.
    - by eexists.
    - destruct (_status_total resp) as [[st se] ->]. by eexists. }
  destruct (external h) as [e|]; simpl; [|apply Hrun].
  destruct nilmap; [by specialize (Hn eq_refl)|].
  destruct (decide (Handle resp ≠ [])); [|apply Hrun].
  destruct (Hrun (set_rhandlers (<[Handle resp := e]> (rhandlers s)) s)) as (s2 & E & Hs2).
  exists s2. split; [exact E|exact Hs2].
Qed.

Lemma slot_take_external now (q : handlerSlot handler nat) :
  Forall (λ e, external (eh e) = None) (queue q) →
  external (slot_take now q).1 = None ∧
  Forall (λ e, external (eh e) = None) (queue (slot_take now q).2).
Proof.
  intros Hq. destruct (slot_take now q) as [h q'] eqn:Ht.
  apply slot_take_queue in Ht as (p & _ & _ & [(_ & -> & E)|(e & E & -> & _)]); simpl.
  - by rewrite E.
  - rewrite E in Hq. apply Forall_app in Hq as [_ Hq]. by apply Forall_cons_1 in Hq as [? ?].
Qed.

Lemma dispatch_wf now resp s :
  p_wf s → ∃ s', dispatch now resp s = Val s' ∧ p_wf s' ∧
    optionPending s' = optionPending s ∧ exceptionsState s' = exceptionsState s.
Proof.
  intros [He Hs]. unfold dispatch. cbv zeta.
  case_decide; [by eexists|]. case_decide; [by eexists|]. case_decide.
  { simpl. destruct (deliver_total (default no_handler (status s !! Handle resp)) resp true
      (set_status (delete (Handle resp) (status s)) s)) as (s' & E & E1 & E2 & _ & E4 & E5 & _).
    - intros _. destruct (status s !! Handle resp) eqn:Hl; [|done]. by apply (Hs _ _ Hl).
    - exists s'. split_and!; [done| |done..]. split; [by rewrite E1|]. rewrite E2.
      by apply map_Forall_delete. }
  case_decide.
  { destruct (slot_take now (created s)) as [h q].
    destruct (deliver_total h resp false (set_created q s)) as (s' & E & E1 & E2 & _ & E4 & E5 & _);
      [done|]. exists s'. split_and!; [done| |done..]. split; [by rewrite E1|by rewrite E2]. }
  case_decide.
  { pose proof (slot_take_external now (echo s) He) as [Hx Hq].
    destruct (slot_take now (echo s)) as [h q]. simpl in Hx, Hq.
    destruct (deliver_total h resp true (set_echo q s)) as (s' & E & E1 & E2 & _ & E4 & E5 & _);
      [done|]. exists s'. split_and!; [done| |done..]. split; [by rewrite E1|by rewrite E2]. }
  destruct (work_update _); [destruct (rhandlers s !! _); by eexists|].
  destruct (work_terminal _); [destruct (rhandlers s !! _); by eexists|]. by eexists.
Qed.

Lemma process_wf now resp s : p_wf s → ∃ s', process now resp s = Val s' ∧ p_wf s'.
Proof.
  intros Hs. destruct (Hs) as [He Hst]. unfold process. case_decide; [by eexists|].
  destruct (optionPending s).
  - case_decide; [by eexists|]. case_decide; [by eexists|].
    destruct (dispatch_wf now resp (set_negotiation false exceptionsRefused s)) as (s' & ? & ? & _);
      [done|]. eauto.
  - destruct (dispatch_wf now resp s Hs) as (s' & ? & ? & _). eauto.
Qed.

(** The calls one packet makes. *)
Definition work_calls (resp : Response) (s : pstate) : list (nat * Response) :=
  if work_update (DataType resp) || work_terminal (DataType resp) then
    match rhandlers s !! Handle resp with Some cb => [(cb, resp)] | None => [] end
  else [].

(** The report one packet makes. *)
Definition error_report (resp : Response) : list error :=
  if decide (DataType resp = dtError) then [getError (sl (Data resp))] else [].

(** What one dispatched packet does to calls, handlers and reports. *)
Definition dispatched (resp : Response) (s s' : pstate) : Prop :=
  calls s' = calls s ++ work_calls resp s ∧
  (∀ k, ¬ (DataType resp = dtJobCreated ∧ Handle resp = k) →
    rhandlers s' !! k =
    if decide (Handle resp = k ∧ work_terminal (DataType resp) = true) then None
    else rhandlers s !! k) ∧
  errors s' = errors s ++ error_report resp.

(** A packet that leaves calls, other handlers and reports alone. *)
Lemma dispatched_none resp s s' :
  work_update (DataType resp) = false → work_terminal (DataType resp) = false →
  DataType resp ≠ dtError → calls s' = calls s → errors s' = errors s →
  (rhandlers s' = rhandlers s ∨ (DataType resp = dtJobCreated ∧
    ∃ e, rhandlers s' = <[Handle resp := e]> (rhandlers s))) →
  dispatched resp s s'.
Proof.
  intros Hu Ht He Hc Hr Hm. unfold dispatched, work_calls, error_report.
  rewrite Hu, Ht, (decide_False (P := DataType resp = dtError)), !app_nil_r by done.
  split_and!; [done| |done]. intros k Hk. rewrite decide_False by (intros [_ ?]; done).
  destruct Hm as [->|[Hj [e ->]]]; [done|]. rewrite lookup_insert_ne; [done|]. auto.
Qed.

Lemma dispatch_effect now resp s s' :
  p_wf s → dispatch now resp s = Val s' → dispatched resp s s'.
Proof.
  intros [He Hs] E. unfold dispatch in E. cbv zeta in E.
  destruct (decide (DataType resp = dtError)) as [Hty|Hne].
  { injection E as <-. unfold dispatched, work_calls, error_report. rewrite Hty. simpl.
    rewrite app_nil_r. split_and!; [done| |done]. intros k _. by rewrite decide_False by naive_solver. }
  destruct (decide (DataType resp = dtOptionRes)) as [Hty|].
  { injection E as <-. apply dispatched_none; rewrite ?Hty; auto. }
  destruct (decide (DataType resp = dtStatusRes)) as [Hty|].
  { simpl in E. destruct (deliver_total (default no_handler (status s !! Handle resp)) resp true
      (set_status (delete (Handle resp) (status s)) s)) as (s1 & E1 & _ & _ & _ & _ & _ & H6 & H7 & H8).
    - intros _. destruct (status s !! Handle resp) eqn:Hl; [|done]. by apply (Hs _ _ Hl).
    - rewrite E in E1. injection E1 as <-. apply dispatched_none; rewrite ?Hty; auto. left.
      rewrite H8. destruct (status s !! Handle resp) as [h|] eqn:Hl; [|done]. simpl.
      rewrite (Hs _ _ Hl). by destruct (internal h). }
  destruct (decide (DataType resp = dtJobCreated)) as [Hty|].
  { destruct (slot_take now (created s)) as [h q].
    destruct (deliver_total h resp false (set_created q s))
      as (s1 & E1 & _ & _ & _ & _ & _ & H6 & H7 & H8); [done|].
    rewrite E in E1. injection E1 as <-. apply dispatched_none; rewrite ?Hty; auto.
    rewrite H8. destruct (internal h), (external h); try (by left).
    case_decide; [right; eauto|by left]. }
  destruct (decide (DataType resp = dtEchoRes)) as [Hty|].
  { pose proof (slot_take_external now (echo s) He) as [Hx _].
    destruct (slot_take now (echo s)) as [h q]. simpl in Hx.
    destruct (deliver_total h resp true (set_echo q s))
      as (s1 & E1 & _ & _ & _ & _ & _ & H6 & H7 & H8); [done|].
    rewrite E in E1. injection E1 as <-. apply dispatched_none; rewrite ?Hty; auto. left.
    rewrite H8, Hx. by destruct (internal h). }
  unfold dispatched, work_calls, error_report. rewrite (decide_False (P := _ = dtError)) by done.
  assert (work_update (DataType resp) = true → work_terminal (DataType resp) = false) as Hut.
  { unfold work_update, work_terminal. rewrite bool_decide_eq_true, bool_decide_eq_false.
    rewrite !elem_of_cons. unfold dtWorkData, dtWorkWarning, dtWorkStatus, dtWorkComplete,
      dtWorkFail, dtWorkException. intros Hu Ht. rewrite elem_of_nil in *. lia. }
  rewrite app_nil_r. destruct (work_update (DataType resp)).
  { rewrite (Hut eq_refl). destruct (rhandlers s !! Handle resp); injection E as <-; simpl;
      rewrite ?app_nil_r; (split_and!; [done| |done]); intros k _;
      by rewrite decide_False by naive_solver. }
  destruct (work_terminal (DataType resp)); simpl.
  { destruct (rhandlers s !! Handle resp) eqn:Hl; injection E as <-; simpl;
      rewrite ?app_nil_r; (split_and!; [done| |done]); intros k _.
    - case_decide as Hd; [destruct Hd as [-> _]; by rewrite lookup_delete_eq|].
      rewrite lookup_delete_ne; [done|]. naive_solver.
    - case_decide as Hd; [by destruct Hd as [<- _]|done]. }
  injection E as <-. rewrite app_nil_r. split_and!; [done| |done]. intros k _.
  by rewrite decide_False by naive_solver.
Qed.

(** C33: the dispatcher survives every packet.  Whatever decoded responses arrive,
    in whatever order and at whatever times -- any types, any handles, replies
    nobody waits for -- [processLoop] does not panic: in particular it never
    stores into the nil map it passes for ECHO_RES and STATUS_RES, since no
    handler registered for these has an external part, and that stays so. *)
Theorem processLoop_never_panics rs s :
  p_wf s → ∃ s', process_all rs s = Val s' ∧ p_wf s'.
Proof.
  revert s. induction rs as [|[now resp] rs IH]; intros s Hs; simpl; [by exists s|].
  destruct (process_wf now resp s Hs) as (s1 & -> & Hs1). simpl. by apply IH.
Qed.

(** What one packet of any kind does to the callers' handlers. *)
Lemma process_work now resp s s' :
  p_wf s → process now resp s = Val s' →
  calls s' = calls s ++ work_calls resp s ∧
  ∀ k, ¬ (DataType resp = dtJobCreated ∧ Handle resp = k) →
    rhandlers s' !! k =
    if decide (Handle resp = k ∧ work_terminal (DataType resp) = true) then None
    else rhandlers s !! k.
Proof.
  intros Hs E. unfold process in E.
  assert (∀ ty, ty = DataType resp → (ty = dtOptionSent ∨ ty = dtOptionRes ∨ ty = dtError) →
    calls s' = calls s → rhandlers s' = rhandlers s →
    calls s' = calls s ++ work_calls resp s ∧
    ∀ k, ¬ (DataType resp = dtJobCreated ∧ Handle resp = k) →
      rhandlers s' !! k =
      if decide (Handle resp = k ∧ work_terminal (DataType resp) = true) then None
      else rhandlers s !! k) as Hquiet.
  { intros ty -> Hty Hc Hr. rewrite Hc, Hr. unfold work_calls.
    destruct Hty as [-> |[-> | ->]]; simpl; rewrite app_nil_r; (split; [done|]); intros k _;
      by rewrite decide_False by (intros [_ ?]; done). }
  case_decide; [injection E as <-; by eapply Hquiet; auto|].
  destruct (optionPending s).
  - case_decide; [injection E as <-; by eapply Hquiet; auto|].
    case_decide; [injection E as <-; by eapply Hquiet; auto|].
    apply dispatch_effect in E as (Hc & Hr & _); [done|]. destruct Hs. by split.
  - apply dispatch_effect in E as (Hc & Hr & _); done.
Qed.

(** The packets of job [k] that its handler is to see: updates in order, up to
    and including the first terminal one. *)
Fixpoint until_terminal (k : bytes) (rs : list Response) : list Response :=
  match rs with
  | [] => []
  | r :: rs =>
      if decide (Handle r = k) then
        if work_terminal (DataType r) then [r]
        else if work_update (DataType r) then r :: until_terminal k rs
        else until_terminal k rs
      else until_terminal k rs
  end.

Definition calls_for (k : bytes) (s : pstate) : list (nat * Response) :=
  filter (λ c, Handle c.2 = k) (calls s).

Lemma calls_for_work k resp s s' :
  calls s' = calls s ++ work_calls resp s →
  calls_for k s' = calls_for k s ++
    (if decide (Handle resp = k) then work_calls resp s else []).
Proof.
  intros E. unfold calls_for. rewrite E, list.filter_app. f_equal. unfold work_calls.
  destruct (_ || _); [|by case_decide]. destruct (rhandlers s !! Handle resp); [|by case_decide].
  rewrite filter_cons, filter_nil. done.
Qed.

(** Once a job has no handler, nobody is called for it. *)
Lemma no_handler_no_calls k rs s :
  p_wf s → rhandlers s !! k = None →
  Forall (λ p, ¬ (DataType p.2 = dtJobCreated ∧ Handle p.2 = k)) rs →
  ∃ s', process_all rs s = Val s' ∧ calls_for k s' = calls_for k s.
Proof.
  intros Hs Hk Hall. revert s Hs Hk.
  induction Hall as [|[now r] rs Hr _ IH]; intros s Hs Hk; simpl; [by exists s|].
  destruct (process_wf now r s Hs) as (s1 & E & Hs1). rewrite E. simpl.
  apply process_work in E as [Hc Hm]; [|done].
  destruct (IH s1 Hs1) as (s' & -> & Hc'); [rewrite Hm by done; by destruct (decide (Handle r = k ∧ _))|].
  exists s'. split; [done|]. rewrite Hc', (calls_for_work _ _ _ _ Hc).
  destruct (decide (Handle r = k)) as [Hd|]; [|apply app_nil_r]. unfold work_calls.
  rewrite Hd, Hk. destruct (_ || _); apply app_nil_r.
Qed.

(** C23: a job's handler sees its job.  Once a job's handler is registered,
    [processLoop] calls it with exactly the WORK_DATA, WORK_WARNING and
    WORK_STATUS packets that carry the job's handle, in the order received, and
    with the first WORK_COMPLETE, WORK_FAIL or WORK_EXCEPTION, and never after
    that -- whatever other packets are in between and whatever else the server
    sends, unless it announces another job under the same handle. *)
Theorem handler_sees_its_job k cb rs s :
  p_wf s → rhandlers s !! k = Some cb →
  Forall (λ p, ¬ (DataType p.2 = dtJobCreated ∧ Handle p.2 = k)) rs →
  ∃ s', process_all rs s = Val s' ∧
    calls_for k s' = calls_for k s ++ ((λ r, (cb, r)) <$> until_terminal k rs.*2).
Proof.
  intros Hs Hk Hall. revert s Hs Hk.
  induction Hall as [|[now r] rs Hr Hall IH]; intros s Hs Hk; simpl.
  { exists s. by rewrite app_nil_r. }
  destruct (process_wf now r s Hs) as (s1 & E & Hs1). rewrite E. simpl.
  apply process_work in E as [Hc Hm]; [|done]. specialize (Hm k Hr).
  pose proof (calls_for_work k _ _ _ Hc) as Hck.
  destruct (decide (Handle r = k)) as [Hd|Hd].
  - unfold work_calls in Hck. rewrite Hd, Hk in Hck.
    destruct (work_terminal (DataType r)) eqn:Ht.
    + rewrite orb_true_r in Hck. rewrite decide_True in Hm by done.
      destruct (no_handler_no_calls k rs s1 Hs1 Hm Hall) as (s' & -> & Hc').
      exists s'. split; [done|]. by rewrite Hc', Hck.
    + rewrite decide_False in Hm by naive_solver. rewrite orb_false_r in Hck.
      destruct (IH s1 Hs1) as (s' & -> & Hc'); [by rewrite Hm|].
      exists s'. split; [done|]. rewrite Hc', Hck. destruct (work_update (DataType r)).
      * by rewrite <- app_assoc.
      * by rewrite app_nil_r.
  - rewrite decide_False in Hm by naive_solver. rewrite app_nil_r in Hck.
    destruct (IH s1 Hs1) as (s' & -> & Hc'); [by rewrite Hm|].
    exists s'. split; [done|]. by rewrite Hc', Hck.
Qed.

(** One packet without a negotiation pending. *)
Lemma process_settled now resp s s' :
  p_wf s → optionPending s = false → DataType resp ≠ dtOptionSent →
  process now resp s = Val s' →
  optionPending s' = false ∧ exceptionsState s' = exceptionsState s ∧
  errors s' = errors s ++ error_report resp.
Proof.
  intros Hs Hp Hne E. unfold process in E. rewrite decide_False, Hp in E by done.
  destruct (dispatch_wf now resp s Hs) as (s1 & E1 & _ & H2 & H3). rewrite E in E1.
  injection E1 as <-. apply dispatch_effect in E as (_ & _ & He); [|done].
  split_and!; congruence.
Qed.

Lemma process_all_settled rs s :
  p_wf s → optionPending s = false → Forall (λ p, DataType p.2 ≠ dtOptionSent) rs →
  ∃ s', process_all rs s = Val s' ∧ exceptionsState s' = exceptionsState s ∧
    errors s' = errors s ++ concat (error_report <$> rs.*2).
Proof.
  intros Hs Hp Hall. revert s Hs Hp.
  induction Hall as [|[now r] rs Hr _ IH]; intros s Hs Hp; simpl.
  { exists s. by rewrite app_nil_r. }
  destruct (process_wf now r s Hs) as (s1 & E & Hs1). rewrite E. simpl.
  apply process_settled in E as (Hp1 & Hx1 & He1); [|done..].
  destruct (IH s1 Hs1 Hp1) as (s' & -> & Hx & He). exists s'. split_and!; [done|congruence|].
  by rewrite He, He1, <- app_assoc.
Qed.

(** C8: The "exceptions" option is settled by the first reply.  After the marker
    of a new connection, the first packet decides: OPTION_RES turns the option
    on, anything else means it was refused; an ERROR in that place is that
    refusal and is not reported to the error handler, while every later ERROR
    is, in order; and nothing later on the connection changes the verdict. *)
Theorem negotiation_settled t m rs s :
  p_wf s → DataType m = dtOptionSent → Forall (λ p, DataType p.2 ≠ dtOptionSent) rs →
  ∃ s', process_all ((t, m) :: rs) s = Val s' ∧
    exceptionsState s' =
      match rs with
      | [] => exceptionsState s
      | (_, r) :: _ => if decide (DataType r = dtOptionRes) then exceptionsOn else exceptionsRefused
      end ∧
    errors s' = errors s ++ concat (error_report <$> (tail rs).*2).
Proof.
  intros Hs Hm Hall. cbn [process_all]. unfold process at 1. rewrite decide_True by done.
  unfold mret, outcome_ret. rewrite outcome_bind_ret. destruct Hall as [|[now r] rs Hr Hall]; simpl.
  { eexists. split; [done|]. by rewrite app_nil_r. }
  unfold process. simpl in Hr. rewrite decide_False by done. simpl.
  set (s0 := set_negotiation true (exceptionsState s) s).
  assert (∀ ex, p_wf (set_negotiation false ex s0)) as Hwf by (intros ex; by destruct Hs).
  destruct (decide (DataType r = dtOptionRes)) as [Ho|Ho].
  { unfold mret, outcome_ret. rewrite outcome_bind_ret.
    destruct (process_all_settled rs (set_negotiation false exceptionsOn s0)) as (s' & E & Hx & He);
      [done..|]. exists s'. split_and!; done. }
  destruct (decide (DataType r = dtError)) as [He|Hne].
  { unfold mret, outcome_ret. rewrite outcome_bind_ret.
    destruct (process_all_settled rs (set_negotiation false exceptionsRefused s0))
      as (s' & E & Hx & Her); [done..|]. exists s'. split_and!; done. }
  destruct (dispatch_wf now r (set_negotiation false exceptionsRefused s0)) as
    (s1 & E1 & Hs1 & Hp1 & Hx1); [done|].
  rewrite E1. simpl. apply dispatch_effect in E1 as (_ & _ & He1); [|done].
  unfold error_report in He1. rewrite decide_False, app_nil_r in He1 by done.
  destruct (process_all_settled rs s1) as (s' & E & Hx & Her); [done|by rewrite Hp1|done|].
  exists s'. split_and!; [done|by rewrite Hx, Hx1|by rewrite Her, He1].
Qed.
End loop_facts.

(** ** Witnesses *)

Definition echo_reply : Response := mkResponse dtEchoRes (Some (str "hi")) None [].
Definition job_created : Response := mkResponse dtJobCreated None None (str "H:1").
Definition job_data : Response := mkResponse dtWorkData (Some (str "part")) None (str "H:1").
Definition job_done : Response := mkResponse dtWorkComplete (Some (str "all")) None (str "H:1").
Definition option_sent : Response := mkResponse dtOptionSent None None [].
Definition option_error : Response := mkResponse dtError (Some (str "x")) None [].

(** A call of [do] waiting on channel 0, with caller handler 7. *)
Definition waiting_do : pstate :=
  set_created (snd (slot_set (Some (HCreated 0)) (Some 7) empty_slot)) p_init.

Lemma waiting_do_wf : p_wf waiting_do.
Proof. split; [constructor|]. apply map_Forall_empty. Qed.

(** The same after its JOB_CREATED. *)
Definition submitted : pstate :=
  match process (H := W64) 0 job_created waiting_do with Val s => s | Panics _ => p_init end.

Lemma submitted_wf : p_wf submitted.
Proof. split; [vm_compute; constructor|]. apply map_Forall_empty. Qed.

Lemma processLoop_never_panics_witness :
  ∃ s', process_all (H := W64) [(0%Z, job_created); (1%Z, echo_reply)] waiting_do = Val s' ∧ p_wf s'.
Proof. apply (processLoop_never_panics (H := W64)). exact waiting_do_wf. Defined.

Lemma handler_sees_its_job_witness :
  ∃ s', process_all (H := W64)
    [(0%Z, echo_reply); (1%Z, job_data); (2%Z, job_done); (3%Z, job_data)] submitted = Val s' ∧
    calls_for (str "H:1") s' = calls_for (str "H:1") submitted ++ [(7, job_data); (7, job_done)].
Proof.
  apply (handler_sees_its_job (H := W64) (str "H:1") 7
    [(0%Z, echo_reply); (1%Z, job_data); (2%Z, job_done); (3%Z, job_data)] submitted).
  - exact submitted_wf.
  - vm_compute. reflexivity.
  - repeat apply Forall_cons_2; [..|apply Forall_nil_2]; intros [Hf _]; vm_compute in Hf; discriminate Hf.
Defined.

Lemma negotiation_settled_witness :
  ∃ s', process_all (H := W64) [(0%Z, option_sent); (1%Z, option_error); (2%Z, echo_reply)] p_init
      = Val s' ∧
    exceptionsState s' = exceptionsRefused ∧ errors s' = [].
Proof.
  apply (negotiation_settled (H := W64) 0 option_sent
    [(1%Z, option_error); (2%Z, echo_reply)] p_init).
  - split; [constructor|apply map_Forall_empty].
  - reflexivity.
  - repeat apply Forall_cons_2; [..|apply Forall_nil_2]; vm_compute; congruence.
Defined.
