(* ===== verification/EndToEnd.v ===== *)
(** * From the client to the worker and back

    The two packages never call each other: they meet on the wire, with a job
    server in between.  Here their encoders and decoders are put together.  Of
    the server only the protocol's forwarding is used: a SUBMIT_JOB body behind
    the handle it assigns becomes the body of a JOB_ASSIGN_UNIQ, and a worker's
    WORK_* packet goes to the client with its type and body as they are. *)

From S2P Require Import Prelude GoStd Protocol ClientRequest ClientResponse WorkerPack Worker.

(** The packet a worker gets for a request a client wrote. *)
Definition assigned (h : bytes) (submit : bytes) : bytes :=
  frame WC.dtJobAssignUniq (h ++ x00 :: drop 12 submit).

(** The packet a client gets for a packet a worker wrote: the response magic
    instead of the request magic. *)
Definition relayed (p : bytes) : bytes := be32 CC.res ++ drop 4 p.

Section end_to_end.
Context `{GoArch}.

Lemma relayed_request ty body :
  (0 ≤ blen body < 2 ^ 32)%Z →
  relayed (header WC.req ty (uint32 (blen body)) ++ body) = frame ty body.
Proof.
  intros Hb. unfold relayed, frame, header. rewrite uint32_small by done.
  rewrite <- !app_assoc. by rewrite drop_app_length'.
Qed.

Lemma limit_range (body : bytes) : (blen body ≤ CC.maxPacketLength)%Z → (0 ≤ blen body < 2 ^ 32)%Z.
Proof. change CC.maxPacketLength with 67108864%Z. pose proof (blen_nonneg body). lia. Qed.

Lemma limit_fits (o : outPack) : (blen (out_body o) ≤ CC.maxPacketLength)%Z → out_fits o.
Proof.
  change CC.maxPacketLength with 67108864%Z. unfold out_fits, max_int, int_bits.
  destruct int_width; simpl; lia.
Qed.

(** A worker's packet of a type that carries handle and data, at the client. *)
Lemma report_relayed o h d :
  out_body o = h ++ x00 :: d → x00 ∉ h → (blen (out_body o) ≤ CC.maxPacketLength)%Z →
  oType o ∈ handle_data_types →
  ∃ bs, Encode o = Val bs ∧
    decodeResponse (relayed bs) =
      Val (Some (mkResponse (oType o) (Some d) None h), blen (relayed bs), None).
Proof.
  intros Hbody Hh Hl Hty. unfold Encode. rewrite encodeInto_spec by by apply limit_fits.
  eexists. split; [done|]. rewrite relayed_request by by apply limit_range.
  apply decodeResponse_frame; [|done|].
  - unfold handle_data_types in Hty. rewrite !elem_of_cons, elem_of_nil in Hty.
    unfold CC.dtStatusRes, CC.dtWorkData, CC.dtWorkWarning, CC.dtWorkStatus, CC.dtWorkComplete,
      CC.dtWorkException in Hty. lia.
  - unfold body_meaning. rewrite decide_False by (by intros E; rewrite E in Hty; set_solver).
    by rewrite decide_True, Hbody, split_nul_app by done.
Qed.

Lemma job_arrives dt f id d h :
  x00 ∉ f → x00 ∉ id → x00 ∉ h →
  (blen (h ++ x00 :: job_body f id d) ≤ WC.maxPacketLength)%Z →
  ∃ submit, encodeJob dt f id d = Val submit ∧
    decodeInPack (assigned h submit) =
      Val (Some (mkInPack WC.dtJobAssignUniq (Some d) h id f), blen (assigned h submit), None).
Proof.
  intros Hf Hi Hh Hl. exists (request_bytes dt (job_body f id d)). split.
  - apply encodeJob_spec. revert Hl. change WC.maxPacketLength with 67108864%Z.
    rewrite blen_app, blen_cons. pose proof (blen_nonneg h). pose proof (blen_nonneg (job_body f id d)).
    unfold fits, max_int, int_bits. destruct int_width; simpl; lia.
  - unfold assigned, request_bytes. rewrite drop_app_length' by done.
    rewrite decodeInPack_frame by (done || vm_compute; split; congruence).
    unfold in_meaning. rewrite decide_False, decide_True by done.
    by rewrite (proj2 (split_fields_3 _ h f id d)).
Qed.

(** C25: a job reaches the worker as it was submitted.  The SUBMIT_JOB packet the
    client encodes for a function, a unique id and a payload, forwarded by the
    server under a handle, decodes at the worker to that handle, function, id
    and payload, for every payload. *)
Theorem job_reaches_worker dt f id d h :
  x00 ∉ f → x00 ∉ id → x00 ∉ h →
  (blen (h ++ x00 :: job_body f id d) ≤ WC.maxPacketLength)%Z →
  ∃ submit, encodeJob dt f id d = Val submit ∧
    decodeInPack (assigned h submit) =
      Val (Some (mkInPack WC.dtJobAssignUniq (Some d) h id f), blen (assigned h submit), None).
Proof. apply job_arrives. Qed.

(** C2: what a job returns is what the client's [Result] says.  The packet
    [exec] answers with, encoded by the worker, forwarded and decoded by the
    client, carries the job's handle, and its [Result] is the data and no error
    when the job returned no error, [ErrWorkException] with the data when it
    returned an error and data, and [ErrWorkFail] when it returned an error and
    nothing. *)
Theorem job_result_end_to_end p d e :
  iHandle p ≠ [] → x00 ∉ iHandle p →
  (blen (iHandle p ++ x00 :: sl d) ≤ CC.maxPacketLength)%Z →
  ∃ bs r, Encode (reply_pack p d e) = Val bs ∧
    decodeResponse (relayed bs) = Val (Some r, blen (relayed bs), None) ∧
    Handle r = iHandle p ∧
    Result r = match e with
               | None => (Some (sl d), None)
               | Some _ => if decide (sl d = []) then (None, Some ErrWorkFail)
                           else (Some (sl d), Some ErrWorkException)
               end.
Proof.
  intros Hne Hh Hl.
  assert (∀ o, o = reply_pack p d e → oType o ≠ WC.dtWorkFail → oType o ∈ handle_data_types →
    ∃ bs, Encode o = Val bs ∧ decodeResponse (relayed bs) =
      Val (Some (mkResponse (oType o) (Some (sl d)) None (iHandle p)), blen (relayed bs), None)) as Hdata.
  { intros o -> Hty Hin. assert (out_body (reply_pack p d e) = iHandle p ++ x00 :: sl d) as Hb.
    { unfold out_body. by rewrite decide_False, decide_False by done. }
    apply report_relayed; [done|done|by rewrite Hb|done]. }
  destruct e as [e|]; [destruct (decide (sl d = [])) as [Hd|Hd]|].
  - assert (oType (reply_pack p d (Some e)) = WC.dtWorkFail) as Hty.
    { unfold reply_pack. simpl. rewrite Hd. done. }
    assert (out_body (reply_pack p d (Some e)) = iHandle p) as Hb
      by (unfold out_body; by rewrite decide_True).
    rewrite blen_app, blen_cons in Hl. pose proof (blen_nonneg (sl d)).
    assert (blen (iHandle p) ≤ CC.maxPacketLength)%Z as Hl' by lia.
    unfold Encode. rewrite encodeInto_spec by (apply limit_fits; by rewrite Hb).
    eexists _, (mkResponse CC.dtWorkFail None None (iHandle p)). split; [done|].
    rewrite relayed_request by (rewrite Hb; by apply limit_range). rewrite Hty, Hb.
    split; [|done]. apply decodeResponse_frame; [done..|].
    unfold body_meaning. rewrite decide_False by done. rewrite decide_False by by_decide.
    rewrite decide_True by done. by rewrite (proj2 (split_nul_None _) Hh).
  - assert (oType (reply_pack p d (Some e)) = WC.dtWorkException) as Hty.
    { unfold reply_pack. simpl. rewrite decide_False; [done|]. intros E. apply Hd.
      unfold blen in E. destruct (sl d); [done|]. simpl in E. lia. }
    destruct (Hdata _ eq_refl) as (bs & E1 & E2); [by rewrite Hty|rewrite Hty; by_decide|].
    eexists bs, _. split; [done|]. split; [exact E2|]. rewrite Hty. done.
  - destruct (Hdata _ eq_refl) as (bs & E1 & E2); [done|by_decide|].
    eexists bs, _. split; [done|]. split; [exact E2|]. done.
Qed.

(** The response a report becomes at the client. *)
Definition report_response (p : inPack) (r : job_report) : Response :=
  match r with
  | Sends_data d => mkResponse CC.dtWorkData (Some d) None (iHandle p)
  | Sends_warning d => mkResponse CC.dtWorkWarning (Some d) None (iHandle p)
  | Updates_status n d =>
      mkResponse CC.dtWorkStatus (Some (FormatInt n ++ x00 :: FormatInt d)) None (iHandle p)
  end.

Definition report_payload (r : job_report) : bytes :=
  match r with
  | Sends_data d | Sends_warning d => d
  | Updates_status n d => FormatInt n ++ x00 :: FormatInt d
  end.

(** A report within the packet limit arrives. *)
Lemma report_arrives p r :
  x00 ∉ iHandle p → (blen (iHandle p ++ x00 :: report_payload r) ≤ CC.maxPacketLength)%Z →
  ∃ o bs, report_pack p r = Val o ∧ Encode o = Val bs ∧
    decodeResponse (relayed bs) = Val (Some (report_response p r), blen (relayed bs), None).
Proof.
  intros Hh Hl.
  assert (CC.maxPacketLength + 20 ≤ max_int)%Z as Hmax.
  { change CC.maxPacketLength with 67108864%Z. unfold max_int, int_bits. destruct int_width; simpl; lia. }
  destruct r as [data|data|n d]; cbn [report_pack report_payload report_response] in *.
  - unfold SendData. rewrite data_outpack_spec by (revert Hl; lenlia).
    destruct (report_relayed (mkOutPack WC.dtWorkData (Some (iHandle p ++ x00 :: data)) [])
      (iHandle p) data) as (bs & E1 & E2); [done..|by_decide|]. by eexists _, bs.
  - unfold SendWarning. rewrite data_outpack_spec by (revert Hl; lenlia).
    destruct (report_relayed (mkOutPack WC.dtWorkWarning (Some (iHandle p ++ x00 :: data)) [])
      (iHandle p) data) as (bs & E1 & E2); [done..|by_decide|]. by eexists _, bs.
  - rewrite UpdateStatus_spec by (revert Hl; lenlia).
    destruct (report_relayed (mkOutPack WC.dtWorkStatus
      (Some (iHandle p ++ x00 :: FormatInt n ++ x00 :: FormatInt d)) [])
      (iHandle p) (FormatInt n ++ x00 :: FormatInt d)) as (bs & E1 & E2); [done..|by_decide|].
    by eexists _, bs.
Qed.

(** The numbers of a status report, read back. *)
Lemma status_read p n d :
  (0 ≤ n ≤ max_int)%Z → (0 ≤ d ≤ max_int)%Z →
  resp_Status (report_response p (Updates_status n d)) =
    (Some (mkStatus (iHandle p) true true n d), None).
Proof.
  intros Hn Hd. unfold resp_Status. simpl Data. simpl sl.
  rewrite SplitN2_two by apply FormatInt_no_nul. unfold FormatInt. rewrite !decide_False by lia.
  assert (max_int ≤ max_uint)%Z by (unfold max_int, max_uint, int_bits; destruct int_width; simpl; lia).
  by rewrite !ParseUint_FormatUint by lia.
Qed.

(** Progress and partial results arrive as reported.  A job's [UpdateStatus],
    [SendData] and [SendWarning], encoded, forwarded and decoded, give the
    client's [Status] the two numbers -- for every two that are not negative --
    and its [Update] the data, with [ErrWorkWarning] for a warning. *)
Theorem reports_end_to_end p n d data :
  x00 ∉ iHandle p → (0 ≤ n ≤ max_int)%Z → (0 ≤ d ≤ max_int)%Z →
  (blen (iHandle p ++ x00 :: FormatInt n ++ x00 :: FormatInt d) ≤ CC.maxPacketLength)%Z →
  (blen (iHandle p ++ x00 :: data) ≤ CC.maxPacketLength)%Z →
  let at_client o r := ∃ bs, (o ≫= Encode) = Val bs ∧
    decodeResponse (relayed bs) = Val (Some r, blen (relayed bs), None) in
  (∃ r, at_client (UpdateStatus p n d) r ∧
     resp_Status r = (Some (mkStatus (iHandle p) true true n d), None)) ∧
  (∃ r, at_client (SendData p data) r ∧ Handle r = iHandle p ∧ Update r = (Some data, None)) ∧
  (∃ r, at_client (SendWarning p data) r ∧ Handle r = iHandle p ∧
     Update r = (Some data, Some ErrWorkWarning)).
Proof.
  intros Hh Hn Hd Hl1 Hl2. cbv zeta. split_and!.
  - destruct (report_arrives p (Updates_status n d)) as (o & bs & E1 & E2 & E3); [done..|].
    simpl in E1. exists (report_response p (Updates_status n d)). split; [|by apply (status_read p)]. exists bs. by rewrite E1, outcome_bind_ret.
  - destruct (report_arrives p (Sends_data data)) as (o & bs & E1 & E2 & E3); [done..|].
    simpl in E1. exists (report_response p (Sends_data data)). split; [|done]. exists bs. by rewrite E1, outcome_bind_ret.
  - destruct (report_arrives p (Sends_warning data)) as (o & bs & E1 & E2 & E3); [done..|].
    simpl in E1. exists (report_response p (Sends_warning data)). split; [|done]. exists bs. by rewrite E1, outcome_bind_ret.
Qed.
End end_to_end.

(** ** Witnesses *)

Lemma job_reaches_worker_witness :
  ∃ submit, encodeJob (H := W32) CC.dtSubmitJob (str "ToUpper") (str "42") (str "hi") = Val submit ∧
    decodeInPack (H := W32) (assigned (str "H:1") submit) =
      Val (Some sample_job, blen (assigned (str "H:1") submit), None).
Proof.
  apply (job_reaches_worker (H := W32) CC.dtSubmitJob (str "ToUpper") (str "42") (str "hi") (str "H:1")).
  - by_decide.
  - by_decide.
  - by_decide.
  - vm_compute. congruence.
Defined.

Lemma job_result_end_to_end_witness :
  ∃ bs r, Encode (H := W64) (reply_pack sample_job (Some (str "boom")) (Some ErrTimeOut)) = Val bs ∧
    decodeResponse (H := W64) (relayed bs) = Val (Some r, blen (relayed bs), None) ∧
    Handle r = str "H:1" ∧ Result r = (Some (str "boom"), Some ErrWorkException).
Proof.
  apply (job_result_end_to_end (H := W64) sample_job (Some (str "boom")) (Some ErrTimeOut)).
  - vm_compute. congruence.
  - by_decide.
  - vm_compute. congruence.
Defined.

Lemma reports_end_to_end_witness :
  ∃ r, (∃ bs, (UpdateStatus (H := W32) sample_job 50 100 ≫= Encode (H := W32)) = Val bs ∧
      decodeResponse (H := W32) (relayed bs) = Val (Some r, blen (relayed bs), None)) ∧
    resp_Status (H := W32) r = (Some (mkStatus (str "H:1") true true 50 100), None).
Proof.
  refine (proj1 (reports_end_to_end (H := W32) sample_job 50 100 (str "x") _ _ _ _ _)).
  - by_decide.
  - vm_compute. split; congruence.
  - vm_compute. split; congruence.
  - vm_compute. congruence.
  - vm_compute. congruence.
Defined.
