(* ===== verification/Client.v ===== *)
(** * The client: client/client.go

    A [Client] is used by any number of calling goroutines at once and runs two
    of its own, [readLoop] and [processLoop].  [client.Mutex] is held by one
    caller for a whole round trip; everything else synchronises through
    [connMu], the locks of the handler slots and the channel [client.in].  The
    model is a system of actions, each one critical section, one blocking call
    or one channel operation, in any order: callers by their number, which also
    names their result channel, [readLoop] by its program point, and
    [processLoop] as one step of ClientLoop.v.

    A connection is named by the position of its dial; [k_sent] is the sequence
    of packets written to it.  The connection [connect] has dialled is not
    reachable by anyone else before [setConn], so the dial and the write of the
    OPTION_REQ are one action. *)

From S2P Require Import Prelude GoStd Protocol ClientRequest ClientResponse HandlerSlot.
From S2P Require Import ClientWire ClientLoop.
Import CC.

Record cconn := mkCConn { k_in : Reader; k_sent : list bytes; k_open : bool }.

(** A call of a method of [Client]; [bg] tells [DoBgWithId] from [DoWithId]. *)
Inductive request :=
| RDo (bg : bool) (flag : Z) (funcname id data : bytes) (h : option nat)
| RStatus (handle : bytes)
| REcho (data : bytes)
| RClose.

Inductive call_result :=
| Replied (r : reply)
| Errored (e : error)
| Closed_ok.

(** Where a caller is: before the check of [getConn], before the lock, with its
    handler registered, with the [rw] it will write to, waiting, past its
    timeout, in [Close] between its two sections, or back. *)
Inductive call_pc :=
| CStart
| CChecked
| CLocked (token : Z)
| CWriting (token : Z) (c : nat)
| CWaiting (token : Z)
| CTimedOut
| CClosing
| CReturned (r : call_result).

Record caller := mkCaller { cl_req : request; cl_pc : call_pc }.

(** Where [readLoop] is. *)
Inductive rl_pc :=
| RlTop
| RlGetRW
| RlReading (c : nat)
| RlSend (resp : Response)
| RlCloseConn
| RlCheck
| RlConnect
| RlDial
| RlPublish (c : nat)
| RlMarker
| RlDone.

Record csys := mkC {
  conns : list cconn;
  conn : option nat;
  rw : option nat;
  closed : bool;
  inq : list Response;
  rl : rl_pc;
  ps : pstate;
  callers : list caller;
  mutex : option nat
}.

(** ** Updates *)

Definition set_rl (p : rl_pc) (s : csys) : csys :=
  mkC (conns s) (conn s) (rw s) (closed s) (inq s) p (ps s) (callers s) (mutex s).
Definition set_ps (p : pstate) (s : csys) : csys :=
  mkC (conns s) (conn s) (rw s) (closed s) (inq s) (rl s) p (callers s) (mutex s).
Definition set_inq (q : list Response) (s : csys) : csys :=
  mkC (conns s) (conn s) (rw s) (closed s) q (rl s) (ps s) (callers s) (mutex s).
Definition set_mutex (m : option nat) (s : csys) : csys :=
  mkC (conns s) (conn s) (rw s) (closed s) (inq s) (rl s) (ps s) (callers s) m.
Definition set_conns (l : list cconn) (s : csys) : csys :=
  mkC l (conn s) (rw s) (closed s) (inq s) (rl s) (ps s) (callers s) (mutex s).
Definition set_caller (i : nat) (p : call_pc) (s : csys) : csys :=
  mkC (conns s) (conn s) (rw s) (closed s) (inq s) (rl s) (ps s)
    (alter (λ c, mkCaller (cl_req c) p) i (callers s)) (mutex s).

(** [client.err(e)] *)
Definition report (e : error) (s : csys) : csys := set_ps (client_err e (ps s)) s.

(** A result channel's next value. *)
Definition recv (i : nat) (p : pstate) : option (reply * pstate) :=
  match chans p !! i with
  | Some (r :: rest) =>
      Some (r, mkP (rhandlers p) (optionPending p) (exceptionsState p) (created p) (echo p) (status p)
                 (errors p) (calls p) (<[i := rest]> (chans p)))
  | _ => None
  end.

(** A read on a connection this side has closed. *)
Definition use_of_closed : error := OpError false false.

(** [conn.Close()] *)
Definition close_k (c : nat) (l : list cconn) : list cconn :=
  alter (λ k, mkCConn (k_in k) (k_sent k) false) c l.

(** [closeConn()] *)
Definition closeConn (s : csys) : csys :=
  match conn s with
  | None => s
  | Some c =>
      mkC (close_k c (conns s)) None None (closed s) (inq s) (rl s)
        (set_echo (slot_reset (echo (ps s))) (set_created (slot_reset (created (ps s))) (ps s)))
        (callers s) (mutex s)
  end.

Section client.
Context `{GoArch}.
(** [wantExceptions], fixed in [New]. *)
Variable want : bool.
(** [ResponseTimeout] *)
Variable ttl : Z.

Definition option_packet : outcome bytes := encodeRequestString dtOptionReq optionExceptions.

(** The dial and the handshake write of [connect]: the new connection. *)
Definition dialled (rd : Reader) : outcome cconn :=
  if want then p ← option_packet; mret (mkCConn rd [p] true)
  else mret (mkCConn rd [] true).

Definition option_marker : Response := mkResponse dtOptionSent None None [].

(** [New()] when its dial succeeds. *)
Definition New_client (rd : Reader) : outcome csys :=
  k ← dialled rd;
  let p := p_init in
  mret (mkC [k] (Some 0) (Some 0) false (if want then [option_marker] else []) RlTop p [] None).

(** [ExceptionsEnabled()] *)
Definition ExceptionsEnabled (s : csys) : bool :=
  bool_decide (exceptionsState (ps s) = exceptionsOn).

(** The packet type of a submission. *)
Definition submit_type (bg : bool) (flag : Z) : Z :=
  if decide (flag = JobLow) then if bg then dtSubmitJobLowBg else dtSubmitJobLow
  else if decide (flag = JobHigh) then if bg then dtSubmitJobHighBg else dtSubmitJobHigh
  else if bg then dtSubmitJobBg else dtSubmitJob.

Definition DoWithId (funcname data : bytes) (flag : Z) (h : option nat) (id : bytes) : request :=
  RDo false flag funcname id data h.
Definition DoBgWithId (funcname data : bytes) (flag : Z) (id : bytes) : request :=
  RDo true flag funcname id data None.

(** The packet a call writes. *)
Definition packet_of (r : request) : outcome bytes :=
  match r with
  | RDo bg flag f id d _ => encodeJob (submit_type bg flag) f id d
  | RStatus handle => encodeRequestString dtGetStatus handle
  | REcho d => encodeRequest dtEchoReq d
  | RClose => mret []
  end.

(** [handlers.*.set]: the token and the handlers with the call's closure. *)
Definition register (i : nat) (r : request) (p : pstate) : Z * pstate :=
  match r with
  | RDo _ _ _ _ _ h =>
      let '(t, q) := slot_set (Some (HCreated i)) h (created p) in (t, set_created q p)
  | REcho _ =>
      let '(t, q) := slot_set (Some (HEcho i)) None (echo p) in (t, set_echo q p)
  | RStatus handle => (0%Z, set_status (status_set handle (HStatus i) (status p)) p)
  | RClose => (0%Z, p)
  end.

(** [handlers.*.cancel] *)
Definition unregister (r : request) (t : Z) (p : pstate) : pstate :=
  match r with
  | RDo _ _ _ _ _ _ => set_created (slot_cancel t (created p)) p
  | REcho _ => set_echo (slot_cancel t (echo p)) p
  | RStatus handle => set_status (status_cancel handle (status p)) p
  | RClose => p
  end.

(** Return from a call that holds the lock. *)
Definition return_unlock (i : nat) (r : call_result) (s : csys) : csys :=
  set_mutex None (set_caller i (CReturned r) s).

(** ** The callers *)

(** The checks of [do], after the one of [DoBgWithId]: [do] looks at the id
    before the connection, [DoBgWithId] looks at the connection first. *)
Definition do_check (bg : bool) (id : bytes) (s : csys) : option error :=
  match conn s with
  | None => Some (if decide (bg = false ∧ id = []) then ErrInvalidId else ErrLostConn)
  | Some _ => if decide (id = []) then Some ErrInvalidId else None
  end.

(** The check of [Status] and of [Echo]. *)
Definition conn_check (s : csys) : option error :=
  match conn s with None => Some ErrLostConn | Some _ => None end.

(** The first critical section of [Close]. *)
Definition Close_flag (s : csys) : csys :=
  mkC (conns s) (conn s) (rw s) true (inq s) (rl s) (ps s) (callers s) (mutex s).

(** A call up to its lock, or [Close] up to [closeConn]. *)
Definition check_conn (i : nat) (r : request) (s : csys) : csys :=
  match r with
  | RClose => set_caller i CClosing (Close_flag s)
  | RDo bg _ _ id _ _ =>
      set_caller i (match do_check bg id s with Some e => CReturned (Errored e) | None => CChecked end) s
  | RStatus _ | REcho _ =>
      set_caller i (match conn_check s with Some e => CReturned (Errored e) | None => CChecked end) s
  end.

Definition lock_set (i : nat) (r : request) (s : csys) : csys :=
  let '(t, p) := register i r (ps s) in
  set_mutex (Some i) (set_caller i (CLocked t) (set_ps p s)).

(** [write]: the snapshot of [rw]. *)
Definition get_rw (i : nat) (r : request) (t : Z) (s : csys) : csys :=
  match rw s with
  | None => return_unlock i (Errored ErrLostConn) (set_ps (unregister r t (ps s)) s)
  | Some c => set_caller i (CWriting t c) s
  end.

(** The moment [writeTo] on the snapshot returns: with an error, or without one
    on a connection that is still open.  The code sets no write deadline, so this
    may be as late as the network likes. *)
Definition do_write (i : nat) (r : request) (t : Z) (c : nat) (err : option error) (s : csys) :
    option csys :=
  k ← conns s !! c;
  match packet_of r with
  | Panics _ => None
  | Val p =>
      match err with
      | Some e => Some (return_unlock i (Errored e) (set_ps (unregister r t (ps s)) s))
      | None =>
          if k_open k
          then Some (set_caller i (CWaiting t)
                 (set_conns (<[c := mkCConn (k_in k) (k_sent k ++ [p]) true]> (conns s)) s))
          else None
      end
  end.

Definition receive (i : nat) (s : csys) : option csys :=
  '(r, p) ← recv i (ps s);
  Some (return_unlock i (Replied r) (set_ps p s)).

(** The timer fires: [Status] is done, [do] and [Echo] go on to [closeConn].
    There is no clock here, it may fire at any point of the wait; ClientTimer.v
    says when it does. *)
Definition time_out (i : nat) (r : request) (t now : Z) (s : csys) : csys :=
  match r with
  | RDo _ _ _ _ _ _ =>
      set_caller i CTimedOut (set_ps (set_created (slot_abandon t now ttl (created (ps s))) (ps s)) s)
  | REcho _ =>
      set_caller i CTimedOut (set_ps (set_echo (slot_abandon t now ttl (echo (ps s))) (ps s)) s)
  | _ => return_unlock i (Errored ErrLostConn) (set_ps (unregister r t (ps s)) s)
  end.

(** ** [readLoop] and [connect] *)

(** What [readLoop] reports of a failed read. *)
Definition report_read (e : error) (s : csys) : csys :=
  match e with
  | OpError false _ => s
  | _ => report e s
  end.

(** What is left to read on a connection: once this side has closed it, only
    what the buffer holds. *)
Definition source (k : cconn) : Reader :=
  if k_open k then k_in k else mkReader (rbuf (k_in k)) [Fail use_of_closed].

Definition consumed (k : cconn) (rd : Reader) : cconn :=
  mkCConn (if k_open k then rd else mkReader (rbuf rd) (rconn (k_in k))) (k_sent k) (k_open k).

Definition rl_read (c : nat) (s : csys) : option csys :=
  k ← conns s !! c;
  match readPacket (source k) with
  | Panics _ => None
  | Val (r, rd) =>
      let s := set_conns (<[c := consumed k rd]> (conns s)) s in
      match r with
      | Blocked => None
      | Failed e => Some (set_rl RlCloseConn (report_read e s))
      | Got packet =>
          match decodeResponse packet with
          | Val (Some resp, _, None) => Some (set_rl (RlSend resp) s)
          | Val (_, _, Some e) => Some (set_rl RlTop (report e s))
          | _ => None
          end
      end
  end.

(** The dial of [connect]; [werr] is the error of the handshake write. *)
Definition rl_dial (d : Reader + error) (werr : option error) (s : csys) : option csys :=
  match d with
  | inr e => Some (set_rl RlDone (report e s))
  | inl rd =>
      match dialled rd with
      | Panics _ => None
      | Val k =>
          match werr with
          | Some e =>
              if want then
                Some (set_rl RlDone (report e
                  (set_conns (conns s ++ [mkCConn rd [] false]) s)))
              else None
          | None =>
              let p := ps s in
              let p := if want then set_negotiation (optionPending p) exceptionsPending p else p in
              Some (set_rl (RlPublish (length (conns s)))
                     (set_ps p (set_conns (conns s ++ [k]) s)))
          end
      end
  end.

(** [setConn(conn, rw)]: refused on a closed client, whose dial is closed. *)
Definition setConn (c : nat) (s : csys) : bool * csys :=
  if closed s then (false, set_conns (close_k c (conns s)) s)
  else (true, mkC (conns s) (Some c) (Some c) (closed s) (inq s) (rl s) (ps s) (callers s) (mutex s)).

(** What [connect] and [readLoop] do with its answer. *)
Definition rl_publish (c : nat) (s : csys) : csys :=
  let '(ok, s) := setConn c s in
  set_rl (if ok then if want then RlMarker else RlTop else RlDone) s.

(** A send on [client.in]. *)
Definition in_send (resp : Response) (s : csys) : option csys :=
  if decide (Z.of_nat (length (inq s)) < queueSize)%Z
  then Some (set_inq (inq s ++ [resp]) s) else None.

Inductive cact :=
| Call (r : request)
| CheckConn (i : nat)
| LockSet (i : nat)
| GetRW (i : nat)
| Write (i : nat) (err : option error)
| Receive (i : nat)
| TimeOut (i : nat) (now : Z)
| CloseConn (i : nat)
| NetIn (c : nat) (ev : read_event)
| RlStep
| RlRead
| RlDialled (d : Reader + error) (werr : option error)
| Process (now : Z).

(** The steps of [readLoop] that need nothing from outside. *)
Definition rl_step (s : csys) : option csys :=
  match rl s with
  | RlTop => Some (set_rl (if closed s then RlDone else RlGetRW) s)
  | RlGetRW => Some (set_rl (match rw s with None => RlCheck | Some c => RlReading c end) s)
  | RlSend resp => s ← in_send resp s; Some (set_rl RlTop s)
  | RlCloseConn => Some (set_rl RlCheck (closeConn s))
  | RlCheck => Some (set_rl (if closed s then RlDone else RlConnect) s)
  | RlConnect => Some (set_rl (if closed s then RlDone else RlDial) s)
  | RlPublish c => Some (rl_publish c s)
  | RlMarker => s ← in_send option_marker s; Some (set_rl RlTop s)
  | RlReading _ | RlDial | RlDone => None
  end.

Definition do_cact (a : cact) (s : csys) : option csys :=
  match a with
  | Call r =>
      Some (mkC (conns s) (conn s) (rw s) (closed s) (inq s) (rl s) (ps s)
              (callers s ++ [mkCaller r CStart]) (mutex s))
  | CheckConn i =>
      c ← callers s !! i;
      match cl_pc c with CStart => Some (check_conn i (cl_req c) s) | _ => None end
  | LockSet i =>
      c ← callers s !! i;
      match cl_pc c, mutex s with
      | CChecked, None => Some (lock_set i (cl_req c) s)
      | _, _ => None
      end
  | GetRW i =>
      c ← callers s !! i;
      match cl_pc c with CLocked t => Some (get_rw i (cl_req c) t s) | _ => None end
  | Write i err =>
      c ← callers s !! i;
      match cl_pc c with CWriting t k => do_write i (cl_req c) t k err s | _ => None end
  | Receive i =>
      c ← callers s !! i;
      match cl_pc c with CWaiting _ => receive i s | _ => None end
  | TimeOut i now =>
      c ← callers s !! i;
      match cl_pc c with CWaiting t => Some (time_out i (cl_req c) t now s) | _ => None end
  | CloseConn i =>
      c ← callers s !! i;
      match cl_pc c with
      | CTimedOut => Some (return_unlock i (Errored ErrLostConn) (closeConn s))
      | CClosing => Some (set_caller i (CReturned Closed_ok) (closeConn s))
      | _ => None
      end
  | NetIn c ev =>
      k ← conns s !! c;
      Some (set_conns
        (<[c := mkCConn (mkReader (rbuf (k_in k)) (rconn (k_in k) ++ [ev])) (k_sent k) (k_open k)]>
           (conns s)) s)
  | RlStep => rl_step s
  | RlRead => match rl s with RlReading c => rl_read c s | _ => None end
  | RlDialled d werr => match rl s with RlDial => rl_dial d werr s | _ => None end
  | Process now =>
      match inq s with
      | resp :: q =>
          match process now resp (ps s) with
          | Val p => Some (set_ps p (set_inq q s))
          | Panics _ => None
          end
      | [] => None
      end
  end.

Fixpoint crun (acts : list cact) (s : csys) : option csys :=
  match acts with
  | [] => Some s
  | a :: acts => s ← do_cact a s; crun acts s
  end.

Definition creachable (s : csys) : Prop :=
  ∃ rd s0 acts, New_client rd = Val s0 ∧ crun acts s0 = Some s.
End client.

(** ** Connections *)

(** Program points of [readLoop] at which there is no connection. *)
Definition dialling (p : rl_pc) : Prop :=
  match p with RlCheck | RlConnect | RlDial | RlPublish _ => True | _ => False end.

(** Whether a caller is inside or past [Close]. *)
Definition closing (p : call_pc) : Prop := p = CClosing ∨ p = CReturned Closed_ok.

(** The published pair is one connection; the only open connections are that
    one and the one [connect] is about to publish; a [Close] that has begun has
    set the flag, and one that is over has left no connection. *)
Record ainv (s : csys) : Prop := {
  ai_pair : conn s = rw s;
  ai_open : ∀ c k, conns s !! c = Some k → k_open k = true → conn s = Some c ∨ rl s = RlPublish c;
  ai_dialling : dialling (rl s) → conn s = None;
  ai_closing : ∀ i c, callers s !! i = Some c → closing (cl_pc c) → closed s = true;
  ai_closed : ∀ i c, callers s !! i = Some c → cl_pc c = CReturned Closed_ok → conn s = None
}.

Lemma ainv_set_ps p s : ainv s → ainv (set_ps p s).
Proof. by intros []. Qed.

Lemma ainv_set_inq q s : ainv s → ainv (set_inq q s).
Proof. by intros []. Qed.

Lemma ainv_set_mutex m s : ainv s → ainv (set_mutex m s).
Proof. by intros []. Qed.

Lemma set_caller_lookup i p s j c :
  callers (set_caller i p s) !! j = Some c →
  (j = i ∧ cl_pc c = p ∧ ∃ c0, callers s !! i = Some c0 ∧ cl_req c = cl_req c0) ∨
  (j ≠ i ∧ callers s !! j = Some c).
Proof.
  simpl. rewrite list_lookup_alter. case_decide as Hd; [|by right].
  subst j. destruct (callers s !! i) as [c0|]; [|done]. intros [= <-]. left. eauto.
Qed.

Lemma ainv_set_caller i p s : ainv s → ¬ closing p → ainv (set_caller i p s).
Proof.
  intros [] Hp. split; try done.
  - intros j c Hj Hc. apply set_caller_lookup in Hj as [(_ & <- & _)|[_ Hj]]; [done|eauto].
  - intros j c Hj Hc. apply set_caller_lookup in Hj as [(_ & E & _)|[_ Hj]]; [|eauto].
    exfalso. apply Hp. right. congruence.
Qed.

Lemma ainv_return i r s : ainv s → r ≠ Closed_ok → ainv (return_unlock i r s).
Proof.
  intros Hs Hr. apply ainv_set_mutex, ainv_set_caller; [done|]. intros [?|[=]]; done.
Qed.

(** A connection replaced by one that is open no more than it was. *)
Lemma ainv_update c k k' s :
  ainv s → conns s !! c = Some k → (k_open k' = true → k_open k = true) →
  ainv (set_conns (<[c := k']> (conns s)) s).
Proof.
  intros [] Hk Ho. split; try done. intros j kj. simpl. rewrite list_lookup_insert.
  case_decide as Hd; [|eauto]. destruct Hd as [<- _]. intros [= ->] ?. eauto.
Qed.

Lemma ainv_set_rl p s :
  ainv s → (∀ c, rl s ≠ RlPublish c) → (dialling p → conn s = None) → ainv (set_rl p s).
Proof.
  intros [] Hr Hp. split; try done. intros c k Hk Ho. simpl.
  destruct (ai_open0 c k Hk Ho) as [?|E]; [by left|]. by destruct (Hr c).
Qed.

Lemma closeConn_conn s : conn (closeConn s) = None ∧ rl (closeConn s) = rl s ∧
  closed (closeConn s) = closed s ∧ callers (closeConn s) = callers s ∧
  mutex (closeConn s) = mutex s.
Proof. unfold closeConn. by destruct (conn s) eqn:E. Qed.

Lemma ainv_closeConn s : ainv s → ainv (closeConn s).
Proof.
  unfold closeConn. destruct (conn s) as [c|] eqn:Hc; [|done]. intros []. split; simpl; try done.
  intros j k. unfold close_k. rewrite list_lookup_alter. case_decide as Hd.
  - subst j. destruct (conns s !! c); [|done]. by intros [= <-].
  - intros Hk Ho. destruct (ai_open0 j k Hk Ho) as [E|?]; [congruence|by right].
Qed.

Section client_facts.
Context `{GoArch}.
Variable want : bool.
Variable ttl : Z.

Lemma ainv_call i r t p s :
  ainv s → ainv (return_unlock i (Errored r) (set_ps (unregister t p (ps s)) s)).
Proof. intros Hs. apply ainv_return; [by apply ainv_set_ps|done]. Qed.

Lemma ainv_report e s : ainv s → ainv (report e s).
Proof. apply ainv_set_ps. Qed.

Lemma ainv_report_read e s : ainv s → ainv (report_read e s).
Proof. intros Hs. unfold report_read. repeat case_match; try done; by apply ainv_report. Qed.

Lemma rl_report_read e s : rl (report_read e s) = rl s ∧ conn (report_read e s) = conn s.
Proof. unfold report_read. by repeat case_match. Qed.

Lemma ainv_check i r s : ainv s → ainv (check_conn i r s).
Proof.
  intros Hs.
  assert (∀ p, ¬ closing p → ainv (set_caller i p s)) as Hset by (intros; by apply ainv_set_caller).
  unfold check_conn. destruct r as [bg fl f id d h|?|?|].
  1-3: apply Hset; case_match; by intros [?|?].
  destruct Hs. split; simpl; try done;
    intros j x Hj; apply (set_caller_lookup i CClosing s) in Hj as [(_ & E & _)|[_ Hj]];
    [intros; congruence|eauto].
Qed.

Lemma ainv_write i r t c err s s' : do_write i r t c err s = Some s' → ainv s → ainv s'.
Proof.
  intros Ha Hs. unfold do_write in Ha. destruct (conns s !! c) as [kc|] eqn:Hk; [|done]. simpl in Ha.
  destruct (packet_of _); [|done]. destruct err; [injection Ha as <-; by apply ainv_call|].
  destruct (k_open kc) eqn:Ho; [|done]. injection Ha as <-.
  apply ainv_set_caller; [|by intros [?|?]]. by eapply ainv_update.
Qed.

(** The second half of [Close]. *)
Lemma ainv_close i c s :
  ainv s → callers s !! i = Some c → cl_pc c = CClosing →
  ainv (set_caller i (CReturned Closed_ok) (closeConn s)).
Proof.
  intros Hs Hi Hpc. destruct (closeConn_conn s) as (E1 & _ & E3 & E4 & _).
  pose proof (ai_closing s Hs i c Hi) as Hcl.
  apply ainv_closeConn in Hs. destruct Hs. split; simpl; try done.
  intros j x Hj. apply (set_caller_lookup i _ (closeConn s)) in Hj as [_|[_ Hj]]; [|eauto].
  intros _. rewrite E3. apply Hcl. rewrite Hpc. by left.
Qed.

(** A dial is published only on a client that is not closed. *)
Lemma ainv_publish c s : ainv s → rl s = RlPublish c → ainv (rl_publish want c s).
Proof.
  intros [] Hrl. unfold rl_publish, setConn. destruct (closed s) eqn:Hcl; split; simpl; try done.
  - intros j k. unfold close_k. rewrite list_lookup_alter.
    case_decide as Hd; [subst j; destruct (conns s !! c); [by intros [= <-]|done]|].
    intros Hk Ho. destruct (ai_open0 j k Hk Ho) as [?|E]; [by left|]. congruence.
  - intros j k Hk Ho. left. destruct (ai_open0 j k Hk Ho) as [E|E]; [|congruence].
    rewrite ai_dialling0 in E; [done|by rewrite Hrl].
  - by destruct want.
  - intros i x Hi Hc. exfalso. assert (false = true); [|done].
    eapply ai_closing0; [exact Hi|]. by right.
Qed.

Lemma ainv_rl_step s s' : rl_step want s = Some s' → ainv s → ainv s'.
Proof.
  intros Ha Hs. pose proof (ai_dialling s Hs) as Hd. unfold rl_step in Ha. destruct (rl s) eqn:Hrl; try done.
  - injection Ha as <-. apply ainv_set_rl; [done|by rewrite Hrl|by destruct (closed s)].
  - injection Ha as <-. apply ainv_set_rl; [done|by rewrite Hrl|].
    rewrite (ai_pair s Hs). by destruct (rw s).
  - unfold in_send in Ha. case_decide; [|done]. injection Ha as <-.
    apply ainv_set_rl; [by apply ainv_set_inq|by simpl; rewrite Hrl|done].
  - injection Ha as <-. destruct (closeConn_conn s) as (E1 & E2 & _).
    apply ainv_set_rl; [by apply ainv_closeConn|by rewrite E2, Hrl|done].
  - injection Ha as <-. apply ainv_set_rl; [done|by rewrite Hrl|]. intros _. by apply Hd.
  - injection Ha as <-. apply ainv_set_rl; [done|by rewrite Hrl|]. intros _. by apply Hd.
  - injection Ha as <-. by apply ainv_publish.
  - unfold in_send in Ha. case_decide; [|done]. injection Ha as <-.
    apply ainv_set_rl; [by apply ainv_set_inq|by simpl; rewrite Hrl|done].
Qed.

Lemma ainv_rl_read c s s' : rl_read c s = Some s' → rl s = RlReading c → ainv s → ainv s'.
Proof.
  intros Ha Hrl Hs. unfold rl_read in Ha. destruct (conns s !! c) as [k|] eqn:Hk; [|done]. simpl in Ha.
  destruct (readPacket (source k)) as [[r rd]|]; [|done].
  set (s1 := set_conns _ s) in Ha. assert (ainv s1) as Hs1 by by eapply ainv_update.
  assert (∀ c', rl s1 ≠ RlPublish c') as Hr1 by by simpl; rewrite Hrl.
  destruct r as [packet|e|]; [|injection Ha as <-|done].
  - destruct (decodeResponse packet) as [[[[resp|] ?] [e|]]|]; try done; injection Ha as <-;
      (apply ainv_set_rl; [try apply ainv_report; done|done|done]).
  - destruct (rl_report_read e s1) as [E1 E2].
    apply ainv_set_rl; [by apply ainv_report_read|by rewrite E1|done].
Qed.

Lemma ainv_rl_dial d werr s s' :
  rl_dial want d werr s = Some s' → rl s = RlDial → ainv s → ainv s'.
Proof.
  intros Ha Hrl Hs. unfold rl_dial in Ha.
  assert (conn s = None) as Hcn by (apply (ai_dialling s Hs); by rewrite Hrl).
  destruct d as [rd|e]; [|injection Ha as <-; apply ainv_set_rl; [by apply ainv_report|by simpl; rewrite Hrl|done]].
  destruct (dialled want rd) as [k|]; [|done]. destruct werr as [e|].
  - destruct want; [|done]. injection Ha as <-.
    apply ainv_set_rl; [apply ainv_report|by simpl; rewrite Hrl|done]. destruct Hs. split; simpl; try done.
    intros j kj. rewrite lookup_app_Some, list_lookup_singleton_Some. intros [?|(_ & _ & <-)]; [eauto|done].
  - injection Ha as <-. destruct Hs. split; simpl; try done.
    intros j kj. rewrite lookup_app_Some, list_lookup_singleton_Some. intros [Hj|(? & ? & <-)] Ho.
    + destruct (ai_open0 j kj Hj Ho) as [?|E]; [by left|congruence].
    + right. f_equal. lia.
Qed.

(** Every action keeps the invariant. *)
Lemma do_cact_ainv a s s' : do_cact want ttl a s = Some s' → ainv s → ainv s'.
Proof.
  intros Ha Hs. destruct a; simpl in Ha;
    try (destruct (callers s !! i) as [c|] eqn:Hi; [|done]; simpl in Ha; destruct (cl_pc c) eqn:Hpc; try done).
  - injection Ha as <-. destruct Hs. split; try done; simpl.
    + intros i c. rewrite lookup_app_Some, list_lookup_singleton_Some. intros [?|(_ & _ & <-)]; [eauto|].
      simpl. by intros [?|?].
    + intros i c. rewrite lookup_app_Some, list_lookup_singleton_Some. by intros [?|(_ & _ & <-)]; [eauto|].
  - injection Ha as <-. by apply ainv_check.
  - destruct (mutex s); [done|]. injection Ha as <-. unfold lock_set. destruct (register _ _ _).
    apply ainv_set_mutex, ainv_set_caller; [by apply ainv_set_ps|by intros [?|?]].
  - injection Ha as <-. unfold get_rw.
    destruct (rw s); [apply ainv_set_caller; [done|by intros [?|?]]|by apply ainv_call].
  - by eapply ainv_write.
  - unfold receive in Ha. destruct (recv i (ps s)) as [[r p]|]; [|done]. injection Ha as <-.
    apply ainv_return; [by apply ainv_set_ps|done].
  - injection Ha as <-. unfold time_out. destruct (cl_req c); try (by apply ainv_call);
      (apply ainv_set_caller; [by try apply ainv_set_ps|by intros [?|?]]).
  - injection Ha as <-. apply ainv_return; [by apply ainv_closeConn|done].
  - injection Ha as <-. by eapply ainv_close.
  - destruct (conns s !! c) as [k|] eqn:Hk; [|done]. injection Ha as <-. by eapply ainv_update.
  - by eapply ainv_rl_step.
  - destruct (rl s) eqn:Hrl; try done. by eapply ainv_rl_read.
  - destruct (rl s) eqn:Hrl; try done. by eapply ainv_rl_dial.
  - destruct (inq s) as [|resp q]; [done|]. destruct (process now resp (ps s)); [|done].
    injection Ha as <-. by apply ainv_set_ps, ainv_set_inq.
Qed.

Lemma crun_ind (P : csys → Prop) acts s s' :
  (∀ a s s', do_cact want ttl a s = Some s' → P s → P s') → P s →
  crun want ttl acts s = Some s' → P s'.
Proof.
  intros Hstep. revert s. induction acts as [|a acts IH]; intros s Hs Hr; simpl in Hr.
  { by simplify_eq. }
  destruct (do_cact want ttl a s) as [s1|] eqn:Ha; [|done]. simpl in Hr. eauto.
Qed.

(** The initial state, and reachability from it. *)
Lemma New_client_eq rd s0 :
  New_client want rd = Val s0 →
  ∃ k, dialled want rd = Val k ∧
    s0 = mkC [k] (Some 0) (Some 0) false (if want then [option_marker] else []) RlTop p_init [] None.
Proof.
  unfold New_client. rewrite outcome_bind_Val. intros (k & ? & E). injection E as <-. eauto.
Qed.

Lemma creachable_ind (P : csys → Prop) s :
  (∀ rd s0, New_client want rd = Val s0 → P s0) →
  (∀ a s s', do_cact want ttl a s = Some s' → P s → P s') →
  creachable want ttl s → P s.
Proof. intros H0 Hstep (rd & s0 & acts & E & Hr). eapply crun_ind; eauto. Qed.

Lemma creachable_ainv s : creachable want ttl s → ainv s.
Proof.
  apply creachable_ind; [|apply do_cact_ainv]. intros rd s0 (k & _ & ->)%New_client_eq.
  split; simpl; try done. intros [|c]; [by left|done].
Qed.

(** C28: [Close] is final.  Once a call of [Close] has returned, the client is
    closed and has no connection, in every later state of every interleaving of
    callers, timeouts, read errors and redials: a dial that was in flight is
    closed instead of published.  And the only connection that can still be
    open is such a dial, so when [readLoop] has ended every connection ever
    opened is closed. *)
Theorem close_is_final s i c :
  creachable want ttl s → callers s !! i = Some c → cl_pc c = CReturned Closed_ok →
  closed s = true ∧ conn s = None ∧ rw s = None ∧
  (∀ j k, conns s !! j = Some k → k_open k = true → rl s = RlPublish j) ∧
  (rl s = RlDone → Forall (λ k, k_open k = false) (conns s)).
Proof.
  intros [Hp Ho _ Hcl Hcd]%creachable_ainv Hi Hpc.
  assert (conn s = None) as Hcn by eauto.
  assert (∀ j k, conns s !! j = Some k → k_open k = true → rl s = RlPublish j) as Hopen.
  { intros j k Hk Hko. destruct (Ho j k Hk Hko) as [?|?]; [congruence|done]. }
  split_and!; [|done|congruence|done|].
  - eapply Hcl; [exact Hi|]. by right.
  - intros Hd. apply Forall_lookup. intros j k Hk. destruct (k_open k) eqn:Hko; [|done].
    specialize (Hopen j k Hk Hko). congruence.
Qed.

(** A connection whose first packet is the option request. *)
Definition sent_ok (k : cconn) : Prop :=
  want = true →
  (k_sent k = [] ∧ k_open k = false) ∨ ∃ p rest, option_packet = Val p ∧ k_sent k = p :: rest.

Lemma dialled_sent rd k : dialled want rd = Val k → sent_ok k.
Proof.
  unfold dialled, sent_ok. intros E ->. right. rewrite outcome_bind_Val in E.
  destruct E as (p & Hp & E). injection E as <-. by exists p, [].
Qed.

Lemma close_k_sent c l : Forall sent_ok l → Forall sent_ok (close_k c l).
Proof.
  intros Hall. apply Forall_alter; [done|]. intros k _ Hk Hw. simpl.
  destruct (Hk Hw) as [[? _]|?]; [by left|by right].
Qed.

Lemma closeConn_sent s : Forall sent_ok (conns s) → Forall sent_ok (conns (closeConn s)).
Proof. unfold closeConn. destruct (conn s); [apply close_k_sent|done]. Qed.

Lemma update_sent c k k' l :
  Forall sent_ok l → l !! c = Some k → k_sent k' = k_sent k → k_open k' = k_open k →
  Forall sent_ok (<[c := k']> l).
Proof.
  intros Hall Hk E1 E2. apply Forall_insert; [done|]. intros Hw. rewrite E1, E2.
  rewrite list.Forall_forall in Hall. by apply (Hall k); [by eapply list_elem_of_lookup_2|].
Qed.

Lemma write_sent i r t c err s s' :
  do_write i r t c err s = Some s' → Forall sent_ok (conns s) → Forall sent_ok (conns s').
Proof.
  intros Ha Hs. unfold do_write in Ha. destruct (conns s !! c) as [kc|] eqn:Hk; [|done]. simpl in Ha.
  destruct (packet_of _) as [p|]; [|done]. destruct err; [by injection Ha as <-|].
  destruct (k_open kc) eqn:Ho; [|done]. injection Ha as <-. simpl.
  apply Forall_insert; [done|]. intros Hw. right. rewrite list.Forall_forall in Hs.
  destruct (Hs kc) as [[_ ?]|(p0 & rest & ? & E)]; [by eapply list_elem_of_lookup_2|done|congruence|].
  exists p0, (rest ++ [p]). split; [done|]. simpl. by rewrite E.
Qed.

Lemma rl_read_sent c s s' :
  rl_read c s = Some s' → Forall sent_ok (conns s) → Forall sent_ok (conns s').
Proof.
  intros Ha Hs. unfold rl_read in Ha. destruct (conns s !! c) as [k|] eqn:Hk; [|done]. simpl in Ha.
  destruct (readPacket (source k)) as [[r rd]|]; [|done].
  assert (Forall sent_ok (<[c := consumed k rd]> (conns s))) as Hu by by eapply update_sent.
  destruct r as [packet|e|]; [|injection Ha as <-; unfold report_read; by repeat case_match|done].
  by destruct (decodeResponse packet) as [[[[resp|] ?] [e|]]|]; try done; injection Ha as <-.
Qed.

Lemma rl_dial_sent d werr s s' :
  rl_dial want d werr s = Some s' → Forall sent_ok (conns s) → Forall sent_ok (conns s').
Proof.
  intros Ha Hs.
  assert (∀ k, sent_ok k → Forall sent_ok (conns s ++ [k])) as Happ.
  { intros k Hk. apply Forall_app. split; [done|]. constructor; [done|constructor]. }
  unfold rl_dial in Ha. destruct d as [rd|e]; [|by injection Ha as <-].
  destruct (dialled want rd) as [k|] eqn:Hd; [|done]. destruct werr as [e|].
  - assert (Forall sent_ok (conns s ++ [mkCConn rd [] false])) by (apply Happ; intros _; by left).
    destruct want; [|done]. by injection Ha as <-.
  - injection Ha as <-. by eapply Happ, dialled_sent.
Qed.

Lemma do_cact_sent a s s' :
  do_cact want ttl a s = Some s' → Forall sent_ok (conns s) → Forall sent_ok (conns s').
Proof.
  intros Ha Hs. destruct a; simpl in Ha;
    try (destruct (callers s !! i) as [c|] eqn:Hi; [|done]; simpl in Ha; destruct (cl_pc c) eqn:Hpc; try done).
  - by injection Ha as <-.
  - injection Ha as <-. unfold check_conn. by destruct (cl_req c).
  - destruct (mutex s); [done|]. injection Ha as <-. unfold lock_set. by destruct (register _ _ _).
  - injection Ha as <-. unfold get_rw. by destruct (rw s).
  - by eapply write_sent.
  - unfold receive in Ha. destruct (recv i (ps s)) as [[r p]|]; [|done]. by injection Ha as <-.
  - injection Ha as <-. unfold time_out. by destruct (cl_req c).
  - injection Ha as <-. by apply closeConn_sent.
  - injection Ha as <-. by apply closeConn_sent.
  - destruct (conns s !! c) as [k|] eqn:Hk; [|done]. injection Ha as <-. by eapply update_sent.
  - unfold rl_step, in_send in Ha. destruct (rl s); try done; try (by injection Ha as <-);
      try (case_decide; [by injection Ha as <-|done]).
    + injection Ha as <-. by apply closeConn_sent.
    + injection Ha as <-. unfold rl_publish, setConn. destruct (closed s); [by apply close_k_sent|done].
  - destruct (rl s); try done. by eapply rl_read_sent.
  - destruct (rl s); try done. by eapply rl_dial_sent.
  - destruct (inq s) as [|resp q]; [done|]. destruct (process now resp (ps s)); [|done].
    by injection Ha as <-.
Qed.

(** C29: the option request comes first.  A client that wants exceptions has sent
    OPTION_REQ "exceptions" as the first packet of every connection it ever
    uses, the first one and every redial, before any caller's request, however
    the callers race the redial; a connection on which even that failed is
    closed with nothing sent. *)
Theorem option_request_first s c k :
  creachable want ttl s → want = true → conns s !! c = Some k →
  (k_sent k = [] ∧ k_open k = false) ∨
  ∃ rest, k_sent k = request_bytes dtOptionReq optionExceptions :: rest.
Proof.
  intros Hr Hw Hk.
  assert (Forall sent_ok (conns s)) as Hall.
  { apply (creachable_ind (λ s, Forall sent_ok (conns s)) s); [|apply do_cact_sent|done].
    intros rd s0 (k0 & E & ->)%New_client_eq. simpl. constructor; [|constructor].
    by eapply dialled_sent. }
  rewrite list.Forall_forall in Hall.
  destruct (Hall k) as [?|(p & rest & E & ->)]; [by eapply list_elem_of_lookup_2|done|by left|].
  right. exists rest. f_equal. unfold option_packet in E.
  rewrite encodeRequestString_spec in E; [by injection E|].
  unfold fits. change (blen optionExceptions) with 10%Z. unfold max_int, int_bits.
  destruct int_width; simpl; lia.
Qed.

(** ** Handlers and the mutex *)

(** The token of a caller that has registered a handler and not yet given it up. *)
Definition token_of (p : call_pc) : option Z :=
  match p with CLocked t | CWriting t _ | CWaiting t => Some t | _ => None end.

Definition locked (p : call_pc) : Prop := is_Some (token_of p) ∨ p = CTimedOut.

Definition chan (i : nat) (p : pstate) : list reply := default [] (chans p !! i).

Definition is_do (r : request) : Prop := match r with RDo _ _ _ _ _ _ => True | _ => False end.
Definition is_echo (r : request) : Prop := match r with REcho _ => True | _ => False end.

(** Caller [i] waits with token [t] for a reply of its kind, none has come. *)
Definition awaits (i : nat) (kind : request → Prop) (t : option Z) (s : csys) : Prop :=
  ∃ c, callers s !! i = Some c ∧ kind (cl_req c) ∧ is_Some (token_of (cl_pc c)) ∧
    (∀ x, t = Some x → token_of (cl_pc c) = Some x) ∧ chan i (ps s) = [].

(** Every live entry of a slot belongs to a caller that waits for it. *)
Definition owned (mk : nat → handler) (kind : request → Prop) (q : handlerSlot handler nat)
    (s : csys) : Prop :=
  ∀ e, e ∈ queue q → live e → ∃ i, internal (eh e) = Some (mk i) ∧ awaits i kind (Some (eid e)) s.

Record slot_ok (n : nat) (q : handlerSlot handler nat) : Prop := {
  so_wf : slot_wf q;
  so_live : one_live q;
  so_next : (nextID q ≤ Z.of_nat n)%Z
}.

Record hinv (n : nat) (s : csys) : Prop := {
  hi_mutex : ∀ i c, callers s !! i = Some c → locked (cl_pc c) → mutex s = Some i;
  hi_created : owned HCreated is_do (created (ps s)) s;
  hi_echo : owned HEcho is_echo (echo (ps s)) s;
  hi_status : ∀ k h, status (ps s) !! k = Some h →
    external h = None ∧ ∃ i, internal h = Some (HStatus i) ∧ awaits i (λ r, r = RStatus k) None s;
  hi_chan : ∀ i, length (chan i (ps s)) ≤ 1;
  hi_new : ∀ i, (∀ c, callers s !! i = Some c → cl_pc c = CStart ∨ cl_pc c = CChecked) →
    chan i (ps s) = [];
  hi_slots : slot_ok n (created (ps s)) ∧ slot_ok n (echo (ps s));
  hi_ext : Forall (λ e, external (eh e) = None) (queue (echo (ps s)))
}.

(** A caller that waits holds the mutex. *)
Lemma awaits_mutex n i kind t s : hinv n s → awaits i kind t s → mutex s = Some i.
Proof. intros Hs (c & Hc & _ & Ht & _). eapply (hi_mutex n); [done..|]. by left. Qed.

(** With caller [j] holding the mutex, only [j] can be waited for. *)
Lemma awaits_unique n i j kind t c s :
  hinv n s → awaits i kind t s → mutex s = Some j → callers s !! j = Some c →
  i = j ∧ kind (cl_req c) ∧ (∀ x, t = Some x → token_of (cl_pc c) = Some x) ∧
  is_Some (token_of (cl_pc c)) ∧ chan j (ps s) = [].
Proof.
  intros Hs Ha Hm Hc. pose proof (awaits_mutex _ _ _ _ _ Hs Ha) as Hi.
  assert (i = j) as -> by congruence. destruct Ha as (c' & ? & ? & ? & ? & ?). by simplify_eq.
Qed.

(** Changes that leave callers, channels, handlers and the mutex alone. *)
Lemma hinv_frame n s s' :
  callers s' = callers s → mutex s' = mutex s →
  created (ps s') = created (ps s) → echo (ps s') = echo (ps s) →
  status (ps s') = status (ps s) → chans (ps s') = chans (ps s) → hinv n s → hinv n s'.
Proof.
  intros E1 E2 E3 E4 E5 E6 []. split;
    unfold owned, awaits, chan in *; rewrite ?E1, ?E2, ?E3, ?E4, ?E5, ?E6; done.
Qed.

Lemma slot_ok_weaken n m q : n ≤ m → slot_ok n q → slot_ok m q.
Proof. intros Hnm []. split; [done..|lia]. Qed.

Lemma hinv_weaken n m s : n ≤ m → hinv n s → hinv m s.
Proof.
  intros Hnm []. split; try done.
  destruct hi_slots0. split; by eapply slot_ok_weaken.
Qed.

(** An operation on a slot that its discipline allows. *)
Lemma slot_ok_apply n o q :
  slot_ok n q → (Z.of_nat n + 1 < 2 ^ 64)%Z → disciplined o q →
  slot_ok (S n) (slot_apply o q).2.
Proof.
  intros [Hwf Hol Hnx] Hn Hd. pose proof (wf_counter _ Hwf). split.
  - apply slot_apply_wf; [done|lia].
  - by apply one_live_step.
  - destruct (slot_apply_next o q) as [->| ->]; [lia|].
    unfold uint64, to_unsigned. rewrite Z.mod_small; lia.
Qed.

(** Giving a slot's entries up. *)
Lemma cancel_elem t (q : handlerSlot handler nat) e :
  slot_wf q → e ∈ queue (slot_cancel t q) → e ∈ queue q ∧ eid e ≠ t.
Proof.
  intros Hwf He. simpl in He. rewrite remove_id_filter in He by by apply slot_wf_NoDup.
  apply list_elem_of_filter in He as [? ?]. done.
Qed.

Lemma abandon_elem t now d (q : handlerSlot handler nat) e :
  slot_wf q → e ∈ queue (slot_abandon t now d q) → live e → e ∈ queue q ∧ eid e ≠ t.
Proof.
  intros Hwf He Hl. simpl in He. rewrite spend_id_map in He by by apply slot_wf_NoDup.
  apply list_elem_of_fmap in He as (x & -> & Hx). case_decide; [by destruct Hl|done].
Qed.

Lemma take_elem now (q : handlerSlot handler nat) h q' e :
  slot_take now q = (h, q') → e ∈ queue q' → e ∈ queue q.
Proof.
  intros Ht He. apply slot_take_queue in Ht as (p & _ & _ & [(_ & _ & E)|(x & E & _)]).
  - rewrite E in He. by apply not_elem_of_nil in He.
  - rewrite E. set_solver.
Qed.

Lemma set_status_id p : set_status (status p) p = p.
Proof. by destruct p. Qed.

(** No handler is waiting. *)
Record idle (p : pstate) : Prop := {
  id_created : Forall (λ e, ¬ live e) (queue (created p));
  id_echo : Forall (λ e, ¬ live e) (queue (echo p));
  id_status : status p = ∅
}.

(** When the caller holding the mutex awaits nothing, nobody does. *)
Lemma holder_idle n s i c :
  hinv n s → mutex s = Some i → callers s !! i = Some c →
  (token_of (cl_pc c) = None ∨ chan i (ps s) ≠ []) → idle (ps s).
Proof.
  intros Hs Hm Hc Hno.
  assert (∀ j kind t, ¬ awaits j kind t s) as Hnone.
  { intros j kind t Ha. destruct (awaits_unique _ _ _ _ _ _ _ Hs Ha Hm Hc) as (_ & _ & _ & Ht & Hch).
    destruct Hno as [E|?]; [|done]. rewrite E in Ht. by destruct Ht. }
  split.
  - apply list.Forall_forall. intros e He Hl. destruct (hi_created n s Hs e He Hl) as (j & _ & Ha).
    by eapply Hnone.
  - apply list.Forall_forall. intros e He Hl. destruct (hi_echo n s Hs e He Hl) as (j & _ & Ha).
    by eapply Hnone.
  - apply map_eq. intros k. rewrite lookup_empty. destruct (status (ps s) !! k) eqn:E; [|done].
    destruct (hi_status n s Hs k _ E) as (_ & j & _ & Ha). by destruct (Hnone _ _ _ Ha).
Qed.

(** A free mutex: nobody awaits anything. *)
Lemma free_idle n s : hinv n s → mutex s = None → idle (ps s).
Proof.
  intros Hs Hm.
  assert (∀ j kind t, ¬ awaits j kind t s) as Hnone.
  { intros j kind t Ha. pose proof (awaits_mutex _ _ _ _ _ Hs Ha). congruence. }
  split.
  - apply list.Forall_forall. intros e He Hl. destruct (hi_created n s Hs e He Hl) as (j & _ & Ha).
    by eapply Hnone.
  - apply list.Forall_forall. intros e He Hl. destruct (hi_echo n s Hs e He Hl) as (j & _ & Ha).
    by eapply Hnone.
  - apply map_eq. intros k. rewrite lookup_empty. destruct (status (ps s) !! k) eqn:E; [|done].
    destruct (hi_status n s Hs k _ E) as (_ & j & _ & Ha). by destruct (Hnone _ _ _ Ha).
Qed.

Lemma idle_lives p : idle p → lives (created p) = [] ∧ lives (echo p) = [].
Proof. intros []. split; by apply filter_drops_all. Qed.

(** The slots after the holder has given its handler up. *)
Record given_up (n : nat) (i : nat) (p p' : pstate) : Prop := {
  gu_idle : idle p';
  gu_slots : slot_ok n (created p') ∧ slot_ok n (echo p');
  gu_ext : Forall (λ e, external (eh e) = None) (queue (echo p'));
  gu_chans : ∀ j, j ≠ i → chan j p' = chan j p;
  gu_chan : length (chan i p') ≤ 1
}.

(** Going on to [closeConn] after a timeout, and returning. *)
Lemma hinv_release n m s i c p' q mu :
  hinv n s → mutex s = Some i → callers s !! i = Some c → locked (cl_pc c) →
  given_up m i (ps s) p' → (q = CTimedOut ∧ mu = Some i ∨ (∃ r, q = CReturned r) ∧ mu = None) →
  hinv m (set_mutex mu (set_caller i q (set_ps p' s))).
Proof.
  intros Hs Hm Hc Hl [[Hi1 Hi2 Hi3] Hsl He Hch Hci] Hq.
  assert (∀ j x, callers (set_caller i q (set_ps p' s)) !! j = Some x →
    locked (cl_pc x) → mu = Some j) as Hmu.
  { intros j x Hj Hlx. apply (set_caller_lookup i q (set_ps p' s)) in Hj as [(-> & E & _)|[Hne Hj]].
    - rewrite E in Hlx. destruct Hq as [[-> ->]|[[r ->] _]]; [done|]. by destruct Hlx as [[? ?]|?].
    - pose proof (hi_mutex n s Hs j x Hj Hlx). congruence. }
  split; simpl; try done.
  - intros e Hin Hlv. rewrite list.Forall_forall in Hi1. by destruct (Hi1 e Hin).
  - intros e Hin Hlv. rewrite list.Forall_forall in Hi2. by destruct (Hi2 e Hin).
  - intros k h. by rewrite Hi3.
  - intros j. destruct (decide (j = i)) as [->|Hne]; [done|]. rewrite Hch by done. apply Hs.
  - intros j Hj. destruct (decide (j = i)) as [->|Hne].
    + exfalso. destruct (Hj (mkCaller (cl_req c) q)) as [E|E].
      { by rewrite list_lookup_alter_eq, Hc. }
      all: simpl in E; destruct Hq as [[-> _]|[[r ->] _]]; done.
    + rewrite Hch by done. apply Hs. intros x Hx. apply Hj. by rewrite list_lookup_alter_ne.
Qed.

(** What is waiting is what the holder of the mutex registered. *)
Lemma holder_entries n s i c t :
  hinv n s → mutex s = Some i → callers s !! i = Some c → token_of (cl_pc c) = Some t →
  (∀ e, e ∈ queue (created (ps s)) → live e → is_do (cl_req c) ∧ eid e = t) ∧
  (∀ e, e ∈ queue (echo (ps s)) → live e → is_echo (cl_req c) ∧ eid e = t) ∧
  (∀ k h, status (ps s) !! k = Some h → cl_req c = RStatus k).
Proof.
  intros Hs Hm Hc Ht.
  assert (∀ j kind x, awaits j kind x s → kind (cl_req c) ∧ (∀ y, x = Some y → y = t)) as Hu.
  { intros j kind x Ha. destruct (awaits_unique _ _ _ _ _ _ _ Hs Ha Hm Hc) as (? & ? & Hx & _).
    split; [done|]. intros y ->. specialize (Hx y eq_refl). congruence. }
  split_and!.
  - intros e He Hl. destruct (hi_created n s Hs e He Hl) as (j & _ & Ha). apply Hu in Ha as [? E]. auto.
  - intros e He Hl. destruct (hi_echo n s Hs e He Hl) as (j & _ & Ha). apply Hu in Ha as [? E]. auto.
  - intros k h E. destruct (hi_status n s Hs k h E) as (_ & j & _ & Ha). by apply Hu in Ha as [? _].
Qed.

Lemma no_status (c : caller) (m : statusHandlers handler nat) :
  (∀ k h, m !! k = Some h → cl_req c = RStatus k) → (∀ k, cl_req c ≠ RStatus k) → m = ∅.
Proof.
  intros Hq Hne. apply map_eq. intros k. rewrite lookup_empty.
  destruct (m !! k) eqn:E; [|done]. by destruct (Hne k (Hq _ _ E)).
Qed.

(** A call of [do] takes its entry out of the queue or spends it. *)
Lemma given_up_created n s i c t q :
  hinv n s → mutex s = Some i → callers s !! i = Some c → token_of (cl_pc c) = Some t →
  is_do (cl_req c) → slot_ok (S n) q →
  (∀ e, e ∈ queue q → live e → e ∈ queue (created (ps s)) ∧ eid e ≠ t) →
  given_up (S n) i (ps s) (set_created q (ps s)).
Proof.
  intros Hs Hm Hc Ht Hreq Hq Hlive.
  destruct (holder_entries n s i c t Hs Hm Hc Ht) as (Hcr & Hec & Hst).
  split; simpl; try apply Hs; [|split; [done|]|done].
  - split; simpl.
    + apply list.Forall_forall. intros e He Hl. destruct (Hlive e He Hl) as [He' Hne].
      by destruct (Hcr e He' Hl).
    + apply list.Forall_forall. intros e He Hl. destruct (Hec e He Hl) as [Hk _].
      by destruct (cl_req c).
    + apply (no_status c); [done|]. intros k E. by rewrite E in Hreq.
  - eapply slot_ok_weaken; [|apply Hs]. lia.
Qed.

Lemma given_up_echo n s i c t q :
  hinv n s → mutex s = Some i → callers s !! i = Some c → token_of (cl_pc c) = Some t →
  is_echo (cl_req c) → slot_ok (S n) q →
  (∀ e, e ∈ queue q → live e → e ∈ queue (echo (ps s)) ∧ eid e ≠ t) →
  Forall (λ e, external (eh e) = None) (queue q) →
  given_up (S n) i (ps s) (set_echo q (ps s)).
Proof.
  intros Hs Hm Hc Ht Hreq Hq Hlive Hext.
  destruct (holder_entries n s i c t Hs Hm Hc Ht) as (Hcr & Hec & Hst).
  split; simpl; try apply Hs; [|split; [|done]|done|done].
  - split; simpl.
    + apply list.Forall_forall. intros e He Hl. destruct (Hcr e He Hl) as [Hk _].
      by destruct (cl_req c).
    + apply list.Forall_forall. intros e He Hl. destruct (Hlive e He Hl) as [He' Hne].
      by destruct (Hec e He' Hl).
    + apply (no_status c); [done|]. intros k E. by rewrite E in Hreq.
  - eapply slot_ok_weaken; [|apply Hs]. lia.
Qed.

(** Cancelling one's own entry leaves nobody waiting. *)
Lemma unregister_given_up n s i c t :
  hinv n s → (Z.of_nat n + 1 < 2 ^ 64)%Z → mutex s = Some i → callers s !! i = Some c →
  token_of (cl_pc c) = Some t → given_up (S n) i (ps s) (unregister (cl_req c) t (ps s)).
Proof.
  intros Hs Hn Hm Hc Ht. destruct (hi_slots n s Hs) as [Hsc Hse].
  destruct (holder_entries n s i c t Hs Hm Hc Ht) as (Hcr & Hec & Hst).
  pose proof (given_up_created n s i c t (slot_cancel t (created (ps s))) Hs Hm Hc Ht) as Hg1.
  pose proof (given_up_echo n s i c t (slot_cancel t (echo (ps s))) Hs Hm Hc Ht) as Hg2.
  assert (∀ m, m = ∅ → ¬ is_do (cl_req c) → ¬ is_echo (cl_req c) →
    given_up (S n) i (ps s) (set_status m (ps s))) as Hg3.
  { intros m -> Hd He. split; simpl; try apply Hs.
    - split; simpl; [| |done]; apply list.Forall_forall; intros e Hin Hl.
      + by destruct (Hcr e Hin Hl).
      + by destruct (Hec e Hin Hl).
    - split; (eapply slot_ok_weaken; [|done]; lia).
    - done. }
  destruct (cl_req c) as [bg fl f id d h|k|d|] eqn:Hreq; simpl in *.
  - apply Hg1; [done|by apply (slot_ok_apply n (OpCancel t))|].
    intros e He _. apply cancel_elem in He; [done|apply Hsc].
  - apply Hg3; [|tauto..]. apply map_eq. intros k'. rewrite lookup_empty. unfold status_cancel.
    destruct (decide (k = k')) as [->|Hne]; [by rewrite lookup_delete_eq|].
    rewrite lookup_delete_ne by done. destruct (status (ps s) !! k') eqn:E; [|done].
    specialize (Hst _ _ E). congruence.
  - apply Hg2; [done|by apply (slot_ok_apply n (OpCancel t))| |].
    + intros e He _. apply cancel_elem in He; [done|apply Hse].
    + eapply Forall_sublist; [apply remove_id_sublist|apply Hs].
  - specialize (Hg3 (status (ps s))). rewrite set_status_id in Hg3. apply Hg3; [|tauto..].
    apply (no_status c); [by rewrite Hreq|by rewrite Hreq].
Qed.

(** Handlers removed and nothing delivered. *)
Lemma hinv_shrink n m p s :
  hinv n s →
  (∀ e, e ∈ queue (created p) → e ∈ queue (created (ps s))) →
  (∀ e, e ∈ queue (echo p) → e ∈ queue (echo (ps s))) → status p ⊆ status (ps s) →
  slot_ok m (created p) ∧ slot_ok m (echo p) → chans p = chans (ps s) → hinv m (set_ps p s).
Proof.
  intros Hs Hc He Hst Hsl Hch.
  assert (∀ i kind t, awaits i kind t s → awaits i kind t (set_ps p s)) as Haw.
  { intros i kind t (c & ? & ? & ? & ? & E). exists c. unfold chan in *. simpl. rewrite Hch. auto. }
  assert (∀ i, chan i p = chan i (ps s)) as Hci by (intros i; unfold chan; by rewrite Hch).
  destruct Hs. split; simpl; try done.
  - intros e Hin Hl. destruct (hi_created0 e) as (i & ? & ?); eauto.
  - intros e Hin Hl. destruct (hi_echo0 e) as (i & ? & ?); eauto.
  - intros k h Hk. destruct (hi_status0 k h) as (? & i & ? & ?); [by eapply lookup_weaken|]. eauto.
  - intros i. by rewrite Hci.
  - intros i Hi. rewrite Hci. auto.
  - rewrite list.Forall_forall in *. auto.
Qed.

(** A reply handed to the caller that awaits it, with no handler left. *)
Lemma hinv_delivered n m p s i kind t r :
  hinv n s → awaits i kind t s → idle p → slot_ok m (created p) ∧ slot_ok m (echo p) →
  Forall (λ e, external (eh e) = None) (queue (echo p)) →
  chans p = <[i := chan i (ps s) ++ [r]]> (chans (ps s)) → hinv m (set_ps p s).
Proof.
  intros Hs (c & Hc & _ & Ht & _ & E) [Hi1 Hi2 Hi3] Hsl He Hch. rewrite E in Hch. simpl in Hch.
  assert (∀ j, j ≠ i → chan j p = chan j (ps s)) as Hne.
  { intros j Hj. unfold chan. by rewrite Hch, lookup_insert_ne. }
  destruct Hs. split; simpl; try done.
  - intros e Hin Hl. rewrite list.Forall_forall in Hi1. by destruct (Hi1 e Hin).
  - intros e Hin Hl. rewrite list.Forall_forall in Hi2. by destruct (Hi2 e Hin).
  - intros k h. by rewrite Hi3.
  - intros j. destruct (decide (j = i)) as [->|Hj]; [|by rewrite Hne].
    unfold chan. by rewrite Hch, lookup_insert_eq.
  - intros j Hj. destruct (decide (j = i)) as [->|Hji]; [|rewrite Hne; auto].
    exfalso. destruct (Hj c Hc) as [E'|E']; rewrite E' in Ht; by destruct Ht.
Qed.

Lemma holder_token n s i kind t :
  hinv n s → awaits i kind t s → ∃ c x, mutex s = Some i ∧ callers s !! i = Some c ∧
    kind (cl_req c) ∧ token_of (cl_pc c) = Some x ∧ (∀ y, t = Some y → y = x).
Proof.
  intros Hs Ha. pose proof (awaits_mutex _ _ _ _ _ Hs Ha). destruct Ha as (c & Hc & Hk & [x Hx] & Ht & _).
  exists c, x. split_and!; [done..|]. intros y ->. specialize (Ht y eq_refl). congruence.
Qed.

(** What [deliver] does to the result channels. *)
Definition delivered (h : handled) (p p' : pstate) : Prop :=
  match internal h with
  | None => chans p' = chans p
  | Some i => ∃ r, chans p' = <[chan_of i := chan (chan_of i) p ++ [r]]> (chans p)
  end.

Lemma deliver_chans h resp nilmap p p' : deliver h resp nilmap p = Val p' → delivered h p p'.
Proof.
  unfold deliver, delivered, chan. destruct (internal h) as [i|]; [|intros E; by injection E as <-].
  rewrite outcome_bind_Val. intros (p1 & E1 & E2).
  assert (chans p1 = chans p) as <-.
  { destruct (external h); [|by injection E1 as <-].
    destruct (decide (Handle resp ≠ [])); [|by injection E1 as <-].
    destruct nilmap; [done|by injection E1 as <-]. }
  destruct i as [ch|ch|ch]; simpl in E2.
  - case_decide; injection E2 as <-; by eexists.
  - injection E2 as <-. by eexists.
  - destruct (_status_total resp) as [[st se] E]. rewrite E in E2. injection E2 as <-. by eexists.
Qed.


(** What one packet does to the waiting handlers. *)
Inductive processed (now : Z) (p p' : pstate) : Prop :=
| proc_none :
    created p' = created p → echo p' = echo p → status p' = status p → chans p' = chans p →
    processed now p p'
| proc_created h :
    slot_take now (created p) = (h, created p') → echo p' = echo p → status p' = status p →
    delivered h p p' → processed now p p'
| proc_echo h :
    slot_take now (echo p) = (h, echo p') → created p' = created p → status p' = status p →
    delivered h p p' → processed now p p'
| proc_status k :
    created p' = created p → echo p' = echo p → status p' = delete k (status p) →
    delivered (default no_handler (status p !! k)) p p' → processed now p p'.

Lemma dispatch_processed now resp p p' :
  p_wf p → dispatch now resp p = Val p' → processed now p p'.
Proof.
  intros [He Hs] E. unfold dispatch in E. cbv zeta in E.
  destruct (decide (DataType resp = dtError)); [injection E as <-; by apply proc_none|].
  destruct (decide (DataType resp = dtOptionRes)); [injection E as <-; by apply proc_none|].
  destruct (decide (DataType resp = dtStatusRes)).
  { simpl in E. pose proof (deliver_chans _ _ _ _ _ E) as Hd.
    destruct (deliver_total (default no_handler (status p !! Handle resp)) resp true
      (set_status (delete (Handle resp) (status p)) p)) as (p1 & E1 & H1 & H2 & H3 & _).
    - intros _. destruct (status p !! Handle resp) eqn:Hl; [|done]. by apply (Hs _ _ Hl).
    - rewrite E in E1. injection E1 as <-. by apply proc_status with (Handle resp). }
  destruct (decide (DataType resp = dtJobCreated)).
  { destruct (slot_take now (created p)) as [h q] eqn:Ht. pose proof (deliver_chans _ _ _ _ _ E) as Hd.
    destruct (deliver_total h resp false (set_created q p)) as (p1 & E1 & H1 & H2 & H3 & _); [done|].
    rewrite E in E1. injection E1 as <-. apply proc_created with h; [by rewrite H3|done..]. }
  destruct (decide (DataType resp = dtEchoRes)).
  { pose proof (slot_take_external now (echo p) He) as [Hx _].
    destruct (slot_take now (echo p)) as [h q] eqn:Ht. pose proof (deliver_chans _ _ _ _ _ E) as Hd.
    destruct (deliver_total h resp true (set_echo q p)) as (p1 & E1 & H1 & H2 & H3 & _); [done|].
    rewrite E in E1. injection E1 as <-. apply proc_echo with h; [by rewrite H1|done..]. }
  apply proc_none; destruct (work_update (DataType resp)), (work_terminal (DataType resp)),
    (rhandlers p !! Handle resp); by injection E as <-.
Qed.

Lemma process_processed now resp p p' :
  p_wf p → process now resp p = Val p' → processed now p p'.
Proof.
  intros Hp E. unfold process in E.
  destruct (decide (DataType resp = dtOptionSent)); [injection E as <-; by apply proc_none|].
  destruct (optionPending p); [|by eapply dispatch_processed].
  destruct (decide (DataType resp = dtOptionRes)); [injection E as <-; by apply proc_none|].
  destruct (decide (DataType resp = dtError)); [injection E as <-; by apply proc_none|].
  assert (p_wf (set_negotiation false exceptionsRefused p)) as Hw by (destruct Hp; by split).
  destruct (dispatch_processed _ _ _ _ Hw E);
    [by apply proc_none|by eapply proc_created|by eapply proc_echo|by eapply proc_status].
Qed.

Lemma hinv_p_wf n s : hinv n s → p_wf (ps s).
Proof. intros []. split; [done|]. intros k h Hk. by destruct (hi_status0 k h Hk). Qed.

(** The entry [take] handed out, when it is live. *)
Lemma take_live now (q q' : handlerSlot handler nat) h j :
  slot_wf q → slot_take now q = (h, q') → internal h = Some j →
  ∃ x, x ∈ queue q ∧ live x ∧ internal (eh x) = Some j ∧ ∀ e, e ∈ queue q' → e ∈ queue q ∧ eid e ≠ eid x.
Proof.
  intros Hwf Ht Hj.
  destruct (slot_take_queue now q h q' Ht) as (p & _ & _ & [(_ & -> & _)|(x & E & -> & _)]); [done|].
  exists x. split_and!; [rewrite E; set_solver|by unfold live; rewrite Hj|done|].
  intros e He. split; [by eapply take_elem|]. apply slot_wf_NoDup in Hwf.
  rewrite E, fmap_app, fmap_cons in Hwf. apply list.NoDup_app in Hwf as (_ & _ & Hwf).
  apply list.NoDup_cons in Hwf as [Hwf _]. intros Heq. apply Hwf. rewrite <- Heq.
  by apply list_elem_of_fmap_2.
Qed.

(** Nobody is left waiting once a handler of the holder's kind is gone. *)
Lemma processed_hinv n now p s :
  hinv n s → (Z.of_nat n + 1 < 2 ^ 64)%Z → processed now (ps s) p → hinv (S n) (set_ps p s).
Proof.
  intros Hs Hn Hp. destruct (hi_slots n s Hs) as [Hsc Hse].
  assert (∀ q, slot_ok n q → slot_ok (S n) q) as Hw by (intros; eapply slot_ok_weaken; [|done]; lia).
  destruct Hp as [E1 E2 E3 E4|h Ht E2 E3 Hd|h Ht E1 E3 Hd|k E1 E2 E3 Hd].
  - apply (hinv_shrink n); rewrite ?E1, ?E2, ?E3; auto.
  - assert (slot_ok (S n) (created p)) as Hsl.
    { pose proof (slot_ok_apply n (OpTake now) _ Hsc Hn I) as Hx. simpl in Hx. by rewrite Ht in Hx. }
    unfold delivered in Hd. destruct (internal h) as [j|] eqn:Hj.
    + destruct Hd as [r Hd]. destruct (take_live _ _ _ _ _ (so_wf _ _ Hsc) Ht Hj) as (x & Hx & Hlx & Hjx & Hq).
      destruct (hi_created n s Hs x Hx Hlx) as (i & Hi & Ha). rewrite Hjx in Hi. injection Hi as ->.
      destruct (holder_token _ _ _ _ _ Hs Ha) as (c & t & Hm & Hc & Hk & Htk & Hy).
      specialize (Hy _ eq_refl). subst t.
      destruct (given_up_created n s i c _ (created p) Hs Hm Hc Htk Hk Hsl) as [[G1 G2 G3] _ _ _ _];
        [intros e He _; by apply Hq|].
      eapply hinv_delivered; [done..| |by rewrite E2; auto|rewrite E2; apply Hs|done].
      split; [done|by rewrite E2|by rewrite E3].
    + apply (hinv_shrink n); rewrite ?E2, ?E3; auto. intros e. by eapply take_elem.
  - assert (slot_ok (S n) (echo p)) as Hsl.
    { pose proof (slot_ok_apply n (OpTake now) _ Hse Hn I) as Hx. simpl in Hx. by rewrite Ht in Hx. }
    unfold delivered in Hd. destruct (internal h) as [j|] eqn:Hj.
    + destruct Hd as [r Hd]. destruct (take_live _ _ _ _ _ (so_wf _ _ Hse) Ht Hj) as (x & Hx & Hlx & Hjx & Hq).
      destruct (hi_echo n s Hs x Hx Hlx) as (i & Hi & Ha). rewrite Hjx in Hi. injection Hi as ->.
      destruct (holder_token _ _ _ _ _ Hs Ha) as (c & t & Hm & Hc & Hk & Htk & Hy).
      specialize (Hy _ eq_refl). subst t.
      assert (Forall (λ e, external (eh e) = None) (queue (echo p))) as Hext.
      { pose proof (slot_take_external now _ (hi_ext n s Hs)) as [_ Hf]. by rewrite Ht in Hf. }
      destruct (given_up_echo n s i c _ (echo p) Hs Hm Hc Htk Hk Hsl) as [[G1 G2 G3] _ _ _ _];
        [intros e He _; by apply Hq|done|].
      eapply hinv_delivered; [done..| |by rewrite E1; auto|done|done].
      split; [by rewrite E1|done|by rewrite E3].
    + apply (hinv_shrink n); rewrite ?E1, ?E3; auto. intros e. by eapply take_elem.
  - unfold delivered in Hd. destruct (status (ps s) !! k) as [h|] eqn:Hk; simpl in Hd.
    + destruct (hi_status n s Hs k h Hk) as (_ & i & Hi & Ha). rewrite Hi in Hd. destruct Hd as [r Hd].
      destruct (holder_token _ _ _ _ _ Hs Ha) as (c & t & Hm & Hc & Hreq & Htk & _).
      destruct (unregister_given_up n s i c t Hs Hn Hm Hc Htk) as [[G1 G2 G3] _ _ _ _].
      rewrite Hreq in G1, G2, G3.
      eapply hinv_delivered; [done..| |by rewrite E1, E2; auto|rewrite E2; apply Hs|done].
      split; [by rewrite E1|by rewrite E2|by rewrite E3].
    + apply (hinv_shrink n); rewrite ?E1, ?E2, ?E3; auto. apply delete_subseteq.
Qed.

(** A caller whose pc changes with what it awaits, or that awaited nothing. *)
Lemma hinv_set_caller n s i c q :
  hinv n s → callers s !! i = Some c →
  (token_of q = token_of (cl_pc c) ∧ q ≠ CTimedOut ∧ is_Some (token_of q) ∨
   cl_pc c = CStart ∧ ¬ locked q ∨ cl_pc c = CClosing ∧ ∃ r, q = CReturned r) →
  hinv n (set_caller i q s).
Proof.
  intros Hs Hc Hq.
  assert (∀ j kind t, awaits j kind t s → awaits j kind t (set_caller i q s)) as Haw.
  { intros j kind t (x & Hx & Hk & Ht & Hy & E). destruct (decide (j = i)) as [->|Hne].
    - simplify_eq. exists (mkCaller (cl_req c) q). simpl. rewrite list_lookup_alter_eq, Hc.
      destruct Hq as [(Ht' & _ & _)|[[E' _]|[E' _]]]; [|rewrite E' in Ht; by destruct Ht..].
      split_and!; [done|done|by rewrite Ht'|by rewrite Ht'|done].
    - exists x. simpl. by rewrite list_lookup_alter_ne. }
  destruct Hs. split; simpl; try done.
  - intros j x Hj Hl. apply (set_caller_lookup i q s) in Hj as [(-> & E & _)|[_ Hj]]; [|eauto].
    rewrite E in Hl. destruct Hq as [(Ht & _ & Hs)|[[_ Hq]|[_ [r ->]]]].
    + eapply hi_mutex0; [exact Hc|]. left. by rewrite <- Ht.
    + done.
    + by destruct Hl as [[? ?]|?].
  - intros e Hin Hl. destruct (hi_created0 e Hin Hl) as (j & ? & ?). eauto.
  - intros e Hin Hl. destruct (hi_echo0 e Hin Hl) as (j & ? & ?). eauto.
  - intros k h Hk. destruct (hi_status0 k h Hk) as (? & j & ? & ?). eauto.
  - intros j Hj. apply hi_new0. intros x Hx. destruct (decide (j = i)) as [->|Hne].
    + simplify_eq. destruct (Hj (mkCaller (cl_req c) q)) as [E|E].
      { by rewrite list_lookup_alter_eq, Hc. }
      all: simpl in E; subst q; destruct Hq as [(_ & _ & [? ?])|[[? _]|[_ [? ?]]]]; auto; done.
    + apply Hj. by rewrite list_lookup_alter_ne.
Qed.

(** The only live entry after [set] is the new one. *)
Lemma set_elem int ext (q : handlerSlot handler nat) e :
  Forall (λ e, ¬ live e) (queue q) → e ∈ queue (slot_set int ext q).2 → live e →
  e = mkEntry (nextID q) (mkHandled int ext) None.
Proof.
  intros Hq He Hl. destruct (slot_set_queue int ext q) as (p & q' & E & _ & _ & E' & _).
  rewrite E' in He. apply elem_of_app in He as [He|He%list_elem_of_singleton]; [|done].
  rewrite list.Forall_forall in Hq. destruct (Hq e); [|done]. rewrite E. set_solver.
Qed.

Lemma set_ext int (q : handlerSlot handler nat) :
  Forall (λ e, external (eh e) = None) (queue q) →
  Forall (λ e, external (eh e) = None) (queue (slot_set int None q).2).
Proof.
  intros Hq. destruct (slot_set_queue int None q) as (p & q' & E & _ & _ & E' & _).
  rewrite E'. rewrite E in Hq. apply Forall_app in Hq as [_ Hq]. apply Forall_app. split; [done|].
  by repeat constructor.
Qed.

(** What [set] registers under the mutex. *)
Record registered (n i : nat) (r : request) (t : Z) (p p' : pstate) : Prop := {
  rg_created : ∀ e, e ∈ queue (created p') → live e →
    internal (eh e) = Some (HCreated i) ∧ is_do r ∧ eid e = t;
  rg_echo : ∀ e, e ∈ queue (echo p') → live e →
    internal (eh e) = Some (HEcho i) ∧ is_echo r ∧ eid e = t;
  rg_status : ∀ k h, status p' !! k = Some h →
    external h = None ∧ internal h = Some (HStatus i) ∧ r = RStatus k;
  rg_slots : slot_ok n (created p') ∧ slot_ok n (echo p');
  rg_ext : Forall (λ e, external (eh e) = None) (queue (echo p'));
  rg_chans : chans p' = chans p
}.

Lemma register_registered n s i r :
  hinv n s → (Z.of_nat n + 1 < 2 ^ 64)%Z → mutex s = None →
  registered (S n) i r (register i r (ps s)).1 (ps s) (register i r (ps s)).2.
Proof.
  intros Hs Hn Hm. pose proof (free_idle n s Hs Hm) as Hid. destruct (Hid) as [H1 H2 H3].
  destruct (idle_lives _ Hid) as [L1 L2]. destruct (hi_slots n s Hs) as [Hsc Hse].
  assert (∀ q, slot_ok n q → slot_ok (S n) q) as Hw by (intros; eapply slot_ok_weaken; [|done]; lia).
  assert (∀ (P : Prop) q (e : slotEntry handler nat), Forall (λ e, ¬ live e) q → e ∈ q → live e → P) as Hno.
  { intros P q e Hq He Hl. rewrite list.Forall_forall in Hq. by destruct (Hq e He). }
  destruct r as [bg fl f id d h|k|d|]; split; simpl; try done; try apply Hs;
    try (by intros e; apply Hno); try (intros k' h'; by rewrite H3); auto.
  - intros e He Hl. by rewrite (set_elem (Some (HCreated i)) h (created (ps s)) e H1 He Hl).
  - split; [|auto]. by apply (slot_ok_apply n (OpSet (Some (HCreated i)) h)).
  - intros k' h'. unfold status_set. rewrite H3. rewrite lookup_insert_Some, lookup_empty.
    by intros [[<- <-]|[_ ?]].
  - intros e He Hl. by rewrite (set_elem (Some (HEcho i)) None (echo (ps s)) e H2 He Hl).
  - split; [auto|]. by apply (slot_ok_apply n (OpSet (Some (HEcho i)) None)).
  - by apply (set_ext (Some (HEcho i)) (echo (ps s))), Hs.
Qed.

Lemma hinv_lock n s i c :
  hinv n s → (Z.of_nat n + 1 < 2 ^ 64)%Z → mutex s = None → callers s !! i = Some c →
  cl_pc c = CChecked → hinv (S n) (lock_set i (cl_req c) s).
Proof.
  intros Hs Hn Hm Hc Hpc. unfold lock_set.
  pose proof (register_registered n s i (cl_req c) Hs Hn Hm) as Hr.
  destruct (register i (cl_req c) (ps s)) as [t p]. simpl in Hr.
  destruct Hr as [Rc Re Rst Rsl Rx Rch].
  assert (∀ j, chan j p = chan j (ps s)) as Hch by (intros; unfold chan; by rewrite Rch).
  assert (∀ kind x, kind (cl_req c) → (∀ y, x = Some y → y = t) →
    awaits i kind x (set_mutex (Some i) (set_caller i (CLocked t) (set_ps p s)))) as Haw.
  { intros kind x Hk Hx. exists (mkCaller (cl_req c) (CLocked t)). simpl.
    rewrite list_lookup_alter_eq, Hc, Hch. split_and!; [done..| |].
    - intros y Hy. by rewrite (Hx y Hy).
    - apply (hi_new n s Hs). intros x' Hx'. simplify_eq. by right. }
  split; simpl; try done.
  - intros j x Hj Hl. apply (set_caller_lookup i _ (set_ps p s)) in Hj as [(-> & _)|[_ Hj]]; [done|].
    pose proof (hi_mutex n s Hs j x Hj Hl). congruence.
  - intros e He Hl. destruct (Rc e He Hl) as (? & ? & ?). exists i. split; [done|]. apply Haw; [done|].
    congruence.
  - intros e He Hl. destruct (Re e He Hl) as (? & ? & ?). exists i. split; [done|]. apply Haw; [done|].
    congruence.
  - intros k h Hk. destruct (Rst k h Hk) as (? & ? & ?). split; [done|]. exists i. split; [done|].
    by apply Haw.
  - intros j. rewrite Hch. apply Hs.
  - intros j Hj. rewrite Hch. apply (hi_new n s Hs). intros x Hx. destruct (decide (j = i)) as [->|Hne].
    + simplify_eq. by right.
    + apply Hj. by rewrite list_lookup_alter_ne.
Qed.

(** The reset of [closeConn]. *)
Lemma closeConn_hinv n s :
  hinv n s → (Z.of_nat n + 1 < 2 ^ 64)%Z → hinv (S n) (closeConn s).
Proof.
  intros Hs Hn. unfold closeConn. destruct (conn s) as [c|].
  2:{ eapply hinv_weaken; [|done]. lia. }
  destruct (hi_slots n s Hs) as [Hsc Hse].
  eapply (hinv_frame _ (set_ps (set_echo (slot_reset (echo (ps s)))
    (set_created (slot_reset (created (ps s))) (ps s))) s)); try done.
  apply (hinv_shrink n); simpl; try done.
  - by intros e ?%not_elem_of_nil.
  - by intros e ?%not_elem_of_nil.
  - split; [by apply (slot_ok_apply n OpReset)|by apply (slot_ok_apply n OpReset)].
Qed.

Lemma given_up_idle n s i : hinv n s → idle (ps s) → given_up n i (ps s) (ps s).
Proof. intros [] Hid. by split. Qed.

Lemma holder n s i c t :
  hinv n s → callers s !! i = Some c → token_of (cl_pc c) = Some t →
  mutex s = Some i ∧ locked (cl_pc c).
Proof.
  intros Hs Hc Ht. assert (locked (cl_pc c)) as Hl by (left; by rewrite Ht).
  split; [|done]. by eapply (hi_mutex n).
Qed.

(** A call that gives its handler up and returns. *)
Lemma hinv_cancel_return n s i c t e :
  hinv n s → (Z.of_nat n + 1 < 2 ^ 64)%Z → callers s !! i = Some c → token_of (cl_pc c) = Some t →
  hinv (S n) (return_unlock i (Errored e) (set_ps (unregister (cl_req c) t (ps s)) s)).
Proof.
  intros Hs Hn Hc Ht. destruct (holder n s i c t Hs Hc Ht) as [Hm Hl].
  eapply hinv_release; [done..|by eapply unregister_given_up|]. right. eauto.
Qed.

Lemma hinv_receive n s s' i c t :
  hinv n s → callers s !! i = Some c → token_of (cl_pc c) = Some t → receive i s = Some s' →
  hinv n s'.
Proof.
  intros Hs Hc Ht Hr. destruct (holder n s i c t Hs Hc Ht) as [Hm Hl].
  unfold receive, recv in Hr. destruct (chans (ps s) !! i) as [[|r rest]|] eqn:Hch; try done.
  injection Hr as <-.
  assert (chan i (ps s) = r :: rest) as Hci by (unfold chan; by rewrite Hch).
  assert (idle (ps s)) as [I1 I2 I3] by (eapply holder_idle; [done..|right; by rewrite Hci]).
  eapply hinv_release; [done..| |right; eauto].
  split; try apply Hs; [by split| |].
  - intros j Hj. unfold chan. simpl. by rewrite lookup_insert_ne.
  - unfold chan at 1. simpl. rewrite lookup_insert_eq. simpl.
    pose proof (hi_chan n s Hs i) as Hlen. rewrite Hci in Hlen. simpl in Hlen. lia.
Qed.

Lemma hinv_time_out n s i c t now :
  hinv n s → (Z.of_nat n + 1 < 2 ^ 64)%Z → callers s !! i = Some c → token_of (cl_pc c) = Some t →
  hinv (S n) (time_out ttl i (cl_req c) t now s).
Proof.
  intros Hs Hn Hc Ht. destruct (holder n s i c t Hs Hc Ht) as [Hm Hl].
  destruct (hi_slots n s Hs) as [Hsc Hse].
  pose proof (hinv_cancel_return n s i c t ErrLostConn Hs Hn Hc Ht) as Hcr.
  assert (∀ p, given_up (S n) i (ps s) p → hinv (S n) (set_caller i CTimedOut (set_ps p s))) as Hto.
  { intros p Hp. eapply (hinv_frame _ (set_mutex (Some i) (set_caller i CTimedOut (set_ps p s))));
      try done. eapply hinv_release; [done..|]. by left. }
  unfold time_out. destruct (cl_req c) as [bg fl f id d h|k|d|] eqn:Hreq; try apply Hcr; apply Hto.
  - eapply given_up_created; [done..|by rewrite Hreq|by apply (slot_ok_apply n (OpAbandon t now ttl))|].
    intros e He Hle. apply abandon_elem in He; [done|apply Hsc|done].
  - eapply given_up_echo; [done..|by rewrite Hreq|by apply (slot_ok_apply n (OpAbandon t now ttl))| |].
    + intros e He Hle. apply abandon_elem in He; [done|apply Hse|done].
    + simpl. rewrite spend_id_map by apply slot_wf_NoDup, Hse. apply Forall_fmap.
      eapply Forall_impl; [|apply Hs]. intros e He. simpl. by case_decide.
Qed.

Lemma hinv_check n s i c :
  hinv n s → callers s !! i = Some c → cl_pc c = CStart → hinv n (check_conn i (cl_req c) s).
Proof.
  intros Hs Hc Hpc.
  assert (∀ q, ¬ locked q → hinv n (set_caller i q s)) as Hq.
  { intros q Hq. eapply hinv_set_caller; [done..|]. right. by left. }
  unfold check_conn. destruct (cl_req c) as [bg fl f id d h|?|?|].
  1-3: apply Hq; case_match; by intros [[? ?]|?].
  eapply (hinv_frame _ (set_caller i CClosing s)); try done. apply Hq. by intros [[? ?]|?].
Qed.

Lemma hinv_call n s r :
  hinv n s →
  hinv n (mkC (conns s) (conn s) (rw s) (closed s) (inq s) (rl s) (ps s)
            (callers s ++ [mkCaller r CStart]) (mutex s)).
Proof.
  intros Hs.
  assert (∀ i kind t, awaits i kind t s → awaits i kind t
    (mkC (conns s) (conn s) (rw s) (closed s) (inq s) (rl s) (ps s)
       (callers s ++ [mkCaller r CStart]) (mutex s))) as Haw.
  { intros i kind t (c & Hc & ?). exists c. simpl. split; [by apply lookup_app_l_Some|done]. }
  destruct Hs. split; simpl; try done.
  - intros i c. rewrite lookup_app_Some, list_lookup_singleton_Some. intros [?|(_ & _ & <-)]; [eauto|].
    by intros [[? ?]|?].
  - intros e Hin Hl. destruct (hi_created0 e Hin Hl) as (j & ? & ?). eauto.
  - intros e Hin Hl. destruct (hi_echo0 e Hin Hl) as (j & ? & ?). eauto.
  - intros k h Hk. destruct (hi_status0 k h Hk) as (? & j & ? & ?). eauto.
  - intros i Hi. apply hi_new0. intros c Hc. apply Hi. by apply lookup_app_l_Some.
Qed.

(** The steps of [readLoop] touch the handlers only in [closeConn]. *)
Lemma hinv_rl n s s' :
  hinv n s → (Z.of_nat n + 1 < 2 ^ 64)%Z → rl_step want s = Some s' → hinv (S n) s'.
Proof.
  intros Hs Hn Ha. assert (hinv (S n) s) as Hs1 by (eapply hinv_weaken; [|done]; lia).
  unfold rl_step, in_send in Ha.
  destruct (rl s); try done; try (injection Ha as <-; by apply (hinv_frame _ s)).
  - case_decide; [|done]. injection Ha as <-. by apply (hinv_frame _ s).
  - injection Ha as <-. eapply (hinv_frame _ (closeConn s)); try done. by apply closeConn_hinv.
  - injection Ha as <-. unfold rl_publish, setConn. destruct (closed s); by apply (hinv_frame _ s).
  - case_decide; [|done]. injection Ha as <-. by apply (hinv_frame _ s).
Qed.

Lemma hinv_report_read n e s : hinv n s → hinv n (report_read e s).
Proof. intros Hs. unfold report_read. repeat case_match; try done; by apply (hinv_frame _ s). Qed.

Lemma hinv_rl_read n c s s' : hinv n s → rl_read c s = Some s' → hinv n s'.
Proof.
  intros Hs Ha. unfold rl_read in Ha. destruct (conns s !! c) as [k|]; [|done]. simpl in Ha.
  destruct (readPacket (source k)) as [[r rd]|]; [|done]. destruct r as [packet|e|]; [| |done].
  - destruct (decodeResponse packet) as [[[[resp|] ?] [e|]]|]; try done; injection Ha as <-;
      by apply (hinv_frame _ s).
  - injection Ha as <-. eapply (hinv_frame _ (report_read e _)); try reflexivity.
    apply hinv_report_read. by apply (hinv_frame _ s).
Qed.

Lemma hinv_rl_dial n d werr s s' : hinv n s → rl_dial want d werr s = Some s' → hinv n s'.
Proof.
  intros Hs Ha. unfold rl_dial in Ha. destruct d as [rd|e]; [|injection Ha as <-; by apply (hinv_frame _ s)].
  destruct (dialled want rd) as [k|]; [|done]. destruct werr as [e|].
  - destruct want; [|done]. injection Ha as <-. by apply (hinv_frame _ s).
  - injection Ha as <-. destruct want; by apply (hinv_frame _ s).
Qed.

(** Every action keeps the invariant, and issues at most one identifier per slot. *)
Lemma do_cact_hinv n a s s' :
  hinv n s → (Z.of_nat n + 1 < 2 ^ 64)%Z → do_cact want ttl a s = Some s' → hinv (S n) s'.
Proof.
  intros Hs Hn Ha.
  assert (∀ x, hinv n x → hinv (S n) x) as Hw by (intros; eapply hinv_weaken; [|done]; lia).
  destruct a; simpl in Ha;
    try (destruct (callers s !! i) as [c|] eqn:Hc; [|done]; simpl in Ha; destruct (cl_pc c) eqn:Hpc; try done).
  - injection Ha as <-. by apply Hw, hinv_call.
  - injection Ha as <-. by apply Hw, hinv_check.
  - destruct (mutex s) eqn:Hm; [done|]. injection Ha as <-. by apply hinv_lock.
  - injection Ha as <-. unfold get_rw. destruct (rw s).
    + apply Hw. eapply hinv_set_caller; [done..|]. left. by rewrite Hpc.
    + eapply hinv_cancel_return; [done..|by rewrite Hpc].
  - unfold do_write in Ha. destruct (conns s !! c0) as [k|]; [|done]. simpl in Ha.
    destruct (packet_of _); [|done]. destruct err as [e|].
    + injection Ha as <-. eapply hinv_cancel_return; [done..|by rewrite Hpc].
    + destruct (k_open k); [|done]. injection Ha as <-.
      eapply (hinv_frame _ (set_caller i (CWaiting token) s)); try done.
      apply Hw. eapply hinv_set_caller; [done..|]. left. by rewrite Hpc.
  - apply Hw. eapply hinv_receive; [done..|by rewrite Hpc|done].
  - injection Ha as <-. eapply hinv_time_out; [done..|by rewrite Hpc].
  - injection Ha as <-. assert (locked (cl_pc c)) as Hl by by right.
    pose proof (hi_mutex n s Hs i c Hc Hl) as Hm. pose proof (closeConn_hinv n s Hs Hn) as Hcl.
    destruct (closeConn_conn s) as (_ & _ & _ & E4 & E5).
    eapply (hinv_release (S n) (S n) (closeConn s) i c (ps (closeConn s))); [done|by rewrite E5|by rewrite E4|done| |].
    + apply given_up_idle; [done|]. eapply (holder_idle (S n)); [done|by rewrite E5|by rewrite E4|].
      left. by rewrite Hpc.
    + right. eauto.
  - injection Ha as <-. destruct (closeConn_conn s) as (_ & _ & _ & E4 & _).
    eapply hinv_set_caller; [by apply closeConn_hinv|by rewrite E4|]. right. right. rewrite Hpc. eauto.
  - destruct (conns s !! c); [|done]. injection Ha as <-. apply Hw. by apply (hinv_frame _ s).
  - by eapply hinv_rl.
  - destruct (rl s); try done. apply Hw. by eapply hinv_rl_read.
  - destruct (rl s); try done. apply Hw. by eapply hinv_rl_dial.
  - destruct (inq s) as [|resp q]; [done|]. destruct (process now resp (ps s)) as [p|] eqn:Hp; [|done].
    injection Ha as <-. eapply (hinv_frame _ (set_ps p s)); try done.
    eapply processed_hinv; [done..|]. eapply process_processed; [by eapply hinv_p_wf|done].
Qed.

Lemma crun_hinv acts n s s' :
  hinv n s → (Z.of_nat n + Z.of_nat (length acts) < 2 ^ 64)%Z → crun want ttl acts s = Some s' →
  hinv (n + length acts) s'.
Proof.
  revert n s. induction acts as [|a acts IH]; intros n s Hs Hn Hr; simpl in Hr, Hn.
  { simplify_eq. simpl. by rewrite Nat.add_0_r. }
  destruct (do_cact want ttl a s) as [s1|] eqn:Ha; [|done]. simpl in Hr.
  simpl length. rewrite <- Nat.add_succ_comm. apply (IH (S n) s1); [|lia|done].
  eapply do_cact_hinv; [done|lia|done].
Qed.

Lemma New_client_hinv rd s0 : New_client want rd = Val s0 → hinv 0 s0.
Proof.
  intros (k & _ & ->)%New_client_eq.
  assert (slot_ok 0 (empty_slot (I := handler) (E := nat))) as Hsl.
  { split; [apply empty_slot_wf| |done]. split; [done|]. by vm_compute. }
  split; simpl; try done.
  - by intros e ?%not_elem_of_nil.
  - by intros e ?%not_elem_of_nil.
  - intros i. unfold chan. simpl. rewrite lookup_empty. simpl. lia.
Qed.

(** C1: the waiting handlers are those of the one call in flight.  In every state
    reached by any interleaving of callers, timeouts, closes, redials,
    readLoop and processLoop (fewer than [2^64] steps, so that no identifier is
    issued twice): at most one call is between its lock and its return; every
    handler still waiting in either queue is that call's own, of that call's
    kind, under the token it holds, and its result channel is still empty; the
    same for a waiting STATUS_RES handler, under the handle it asked about; no
    queue exceeds its cap, and no result channel ever holds more than the one
    value it has room for, so [processLoop] never blocks on a call that has
    given up. *)
Theorem mutex_discipline rd s0 acts s :
  New_client want rd = Val s0 → crun want ttl acts s0 = Some s →
  (Z.of_nat (length acts) < 2 ^ 64)%Z →
  (∀ i j c d, callers s !! i = Some c → callers s !! j = Some d →
    locked (cl_pc c) → locked (cl_pc d) → i = j) ∧
  (∀ e, e ∈ queue (created (ps s)) → live e → ∃ i c, callers s !! i = Some c ∧ mutex s = Some i ∧
    internal (eh e) = Some (HCreated i) ∧ is_do (cl_req c) ∧ token_of (cl_pc c) = Some (eid e) ∧
    chan i (ps s) = []) ∧
  (∀ e, e ∈ queue (echo (ps s)) → live e → ∃ i c, callers s !! i = Some c ∧ mutex s = Some i ∧
    internal (eh e) = Some (HEcho i) ∧ is_echo (cl_req c) ∧ token_of (cl_pc c) = Some (eid e) ∧
    chan i (ps s) = []) ∧
  (∀ k h, status (ps s) !! k = Some h → ∃ i c, callers s !! i = Some c ∧ mutex s = Some i ∧
    internal h = Some (HStatus i) ∧ cl_req c = RStatus k ∧ chan i (ps s) = []) ∧
  (Z.of_nat (length (queue (created (ps s)))) ≤ handlerSlotCap)%Z ∧
  (Z.of_nat (length (queue (echo (ps s)))) ≤ handlerSlotCap)%Z ∧
  (∀ i, length (chan i (ps s)) ≤ 1).
Proof.
  intros H0 Hr Hn. pose proof (crun_hinv _ _ _ _ (New_client_hinv _ _ H0) Hn Hr) as Hs.
  destruct (hi_slots _ _ Hs) as [Hsc Hse]. split_and!.
  - intros i j c d Hi Hj Hli Hlj. pose proof (hi_mutex _ _ Hs _ _ Hi Hli).
    pose proof (hi_mutex _ _ Hs _ _ Hj Hlj). congruence.
  - intros e He Hl. destruct (hi_created _ _ Hs e He Hl) as (i & Hi & Ha).
    pose proof (awaits_mutex _ _ _ _ _ Hs Ha). destruct Ha as (c & ? & ? & ? & Ht & ?).
    exists i, c. split_and!; auto.
  - intros e He Hl. destruct (hi_echo _ _ Hs e He Hl) as (i & Hi & Ha).
    pose proof (awaits_mutex _ _ _ _ _ Hs Ha). destruct Ha as (c & ? & ? & ? & Ht & ?).
    exists i, c. split_and!; auto.
  - intros k h Hk. destruct (hi_status _ _ Hs k h Hk) as (_ & i & Hi & Ha).
    pose proof (awaits_mutex _ _ _ _ _ Hs Ha). destruct Ha as (c & ? & ? & ? & Ht & ?).
    exists i, c. split_and!; auto.
  - apply Hsc.
  - apply Hse.
  - apply Hs.
Qed.

(** ** Releasing the mutex *)

(** Every connection that is named has been dialled. *)
Record winv (s : csys) : Prop := {
  wi_rw : ∀ k, rw s = Some k → k < length (conns s);
  wi_publish : ∀ k, rl s = RlPublish k → k < length (conns s);
  wi_writing : ∀ i c t k, callers s !! i = Some c → cl_pc c = CWriting t k → k < length (conns s)
}.

(** A step that forgets no connection and names no new one. *)
Lemma winv_keep s s' :
  winv s → length (conns s) ≤ length (conns s') →
  (∀ k, rw s' = Some k → rw s = Some k ∨ k < length (conns s')) →
  (∀ k, rl s' = RlPublish k → rl s = RlPublish k ∨ k < length (conns s')) →
  (∀ i c t k, callers s' !! i = Some c → cl_pc c = CWriting t k →
    (∃ c', callers s !! i = Some c' ∧ cl_pc c' = CWriting t k) ∨ rw s = Some k) →
  winv s'.
Proof.
  intros [H1 H2 H3] Hl Hrw Hrl Hc. split.
  - intros k [?%H1|?]%Hrw; lia.
  - intros k [?%H2|?]%Hrl; lia.
  - intros i c t k Hi Hk. destruct (Hc i c t k Hi Hk) as [(c' & Hi' & Hk')|?%H1]; [|lia].
    specialize (H3 i c' t k Hi' Hk'). lia.
Qed.

(** A caller moves on, not to a write. *)
Lemma winv_caller i q s s' :
  winv s → conns s' = conns s → rw s' = rw s ∨ rw s' = None → rl s' = rl s →
  callers s' = alter (λ c, mkCaller (cl_req c) q) i (callers s) →
  (∀ t k, q = CWriting t k → rw s = Some k) → winv s'.
Proof.
  intros Hs E1 E2 E3 E4 Hq. apply (winv_keep s); [done|by rewrite E1| | |].
  - intros k Hk. left. destruct E2; congruence.
  - rewrite E3. auto.
  - intros j c t k. rewrite E4. intros Hj Hk.
    apply (set_caller_lookup i q s) in Hj as [(-> & <- & _)|[_ Hj]]; [right|left]; eauto.
Qed.

Lemma winv_other s s' :
  winv s → length (conns s) ≤ length (conns s') → rw s' = rw s ∨ rw s' = None →
  (∀ k, rl s' = RlPublish k → rl s = RlPublish k ∨ k < length (conns s')) →
  callers s' = callers s → winv s'.
Proof.
  intros Hs Hl Hrw Hrl Hc. apply (winv_keep s); [done..| |done|].
  - intros k Hk. left. destruct Hrw; congruence.
  - rewrite Hc. eauto.
Qed.

Lemma closeConn_frame s :
  length (conns (closeConn s)) = length (conns s) ∧
  (rw (closeConn s) = rw s ∨ rw (closeConn s) = None).
Proof.
  unfold closeConn. destruct (conn s); simpl; [|by auto].
  unfold close_k. rewrite length_alter. auto.
Qed.

Lemma winv_closeConn s : winv s → winv (closeConn s).
Proof.
  intros Hs. destruct (closeConn_frame s) as [E1 E2]. destruct (closeConn_conn s) as (_ & E3 & _ & E4 & _).
  apply (winv_other s); [done|lia|done| |done]. rewrite E3. auto.
Qed.

Lemma winv_rl_step s s' : rl_step want s = Some s' → winv s → winv s'.
Proof.
  intros Ha Hs. unfold rl_step, in_send in Ha.
  destruct (rl s) eqn:Hrl; try done; try (case_decide; [|done]); injection Ha as <-;
    try (apply (winv_other s); simpl; try done; auto; repeat case_match; done).
  - destruct (closeConn_conn s) as (_ & _ & _ & E4 & _). apply winv_closeConn in Hs.
    by apply (winv_other (closeConn s)); simpl; auto.
  - pose proof (wi_publish s Hs c Hrl). unfold rl_publish, setConn. destruct (closed s); simpl.
    + apply (winv_other s); simpl; try done; auto. unfold close_k. by rewrite length_alter.
    + apply (winv_keep s); simpl; try done; eauto.
      * intros k [= <-]. auto.
      * intros k. by destruct want.
Qed.

Lemma winv_rl_read c s s' : rl_read c s = Some s' → winv s → winv s'.
Proof.
  intros Ha Hs. unfold rl_read in Ha. destruct (conns s !! c) as [k|]; [|done]. simpl in Ha.
  destruct (readPacket (source k)) as [[r rd]|]; [|done].
  destruct r as [packet|e|]; [| |done].
  - destruct (decodeResponse packet) as [[[[resp|] ?] [e|]]|]; try done; injection Ha as <-;
      apply (winv_other s); simpl; rewrite ?length_insert; auto; done.
  - injection Ha as <-. unfold report_read.
    repeat case_match; apply (winv_other s); simpl; rewrite ?length_insert; auto; done.
Qed.

Lemma winv_rl_dial d werr s s' : rl_dial want d werr s = Some s' → winv s → winv s'.
Proof.
  intros Ha Hs. unfold rl_dial in Ha.
  destruct d as [rd|e]; [|injection Ha as <-; by apply (winv_other s); simpl; auto].
  destruct (dialled want rd) as [k|]; [|done]. destruct werr as [e|].
  - destruct want; [|done]. injection Ha as <-.
    apply (winv_other s); simpl; rewrite ?length_app; auto; [lia|done].
  - injection Ha as <-. apply (winv_other s); simpl; rewrite ?length_app; auto; [lia|].
    intros k' [= <-]. right. simpl. lia.
Qed.

Lemma do_cact_winv a s s' : do_cact want ttl a s = Some s' → winv s → winv s'.
Proof.
  intros Ha Hs. destruct a; simpl in Ha;
    try (destruct (callers s !! i) as [c|] eqn:Hi; [|done]; simpl in Ha; destruct (cl_pc c) eqn:Hpc; try done).
  - injection Ha as <-. apply (winv_keep s); simpl; try done; auto. intros i c t k.
    rewrite lookup_app_Some, list_lookup_singleton_Some. intros [?|(_ & _ & <-)]; [eauto|done].
  - injection Ha as <-. unfold check_conn. destruct (cl_req c); eapply (winv_caller i); try done; auto;
      intros t k; by repeat case_match.
  - destruct (mutex s); [done|]. injection Ha as <-. unfold lock_set. destruct (register _ _ _).
    eapply (winv_caller i); simpl; auto; done.
  - injection Ha as <-. unfold get_rw. destruct (rw s) as [k|] eqn:Hrw; eapply (winv_caller i); simpl; auto; try done.
    by intros t k' [= _ ->].
  - unfold do_write in Ha. destruct (conns s !! c0) as [k|] eqn:Hk; [|done]. simpl in Ha.
    destruct (packet_of _); [|done]. destruct err; [injection Ha as <-; eapply (winv_caller i); simpl; auto; done|].
    destruct (k_open k); [|done]. injection Ha as <-.
    apply (winv_other (set_caller i (CWaiting token) s)); simpl; rewrite ?length_insert; auto; try done.
    eapply (winv_caller i); simpl; auto; done.
  - unfold receive in Ha. destruct (recv i (ps s)) as [[r p]|]; [|done]. injection Ha as <-.
    eapply (winv_caller i); simpl; auto; done.
  - injection Ha as <-. unfold time_out. destruct (cl_req c); eapply (winv_caller i); simpl; auto; done.
  - injection Ha as <-. apply winv_closeConn in Hs. eapply (winv_caller i _ (closeConn s)); simpl; auto; done.
  - injection Ha as <-. apply winv_closeConn in Hs. eapply (winv_caller i _ (closeConn s)); simpl; auto; done.
  - destruct (conns s !! c) as [k|]; [|done]. injection Ha as <-.
    by apply (winv_other s); simpl; rewrite ?length_insert; auto.
  - by eapply winv_rl_step.
  - destruct (rl s); try done. by eapply winv_rl_read.
  - destruct (rl s); try done. by eapply winv_rl_dial.
  - destruct (inq s) as [|resp q]; [done|]. destruct (process now resp (ps s)); [|done].
    injection Ha as <-. by apply (winv_other s); simpl; auto.
Qed.

Lemma creachable_winv s : creachable want ttl s → winv s.
Proof.
  apply creachable_ind; [|apply do_cact_winv]. intros rd s0 (k & _ & ->)%New_client_eq.
  split; simpl; try done. intros k' [= <-]. lia.
Qed.

(** ** Who holds the mutex *)

(** The steps of caller [i] once it has the lock: the snapshot of the writer, the
    return of its write, a reply, its timer, the drop of the connection. *)
Definition own (i : nat) (a : cact) : Prop :=
  match a with
  | GetRW j | Write j _ | Receive j | TimeOut j _ | CloseConn j => j = i
  | _ => False
  end.

(** How many of them it has left at most. *)
Definition steps_left (p : call_pc) : nat :=
  match p with
  | CLocked _ => 4
  | CWriting _ _ => 3
  | CWaiting _ => 2
  | CTimedOut => 1
  | _ => 0
  end.

Definition moves (j : nat) (q : call_pc) (s s' : csys) : Prop :=
  callers s' = alter (λ c, mkCaller (cl_req c) q) j (callers s).

(** What an action does to the mutex: nothing, with no caller in or out of the
    locked part; the lock; or a step of a caller in its locked part, which leaves
    it there with fewer steps to go, or ends it. *)
Lemma do_cact_locks a s s' :
  do_cact want ttl a s = Some s' →
  (mutex s' = mutex s ∧ (∀ j c, own j a → callers s !! j = Some c → ¬ locked (cl_pc c)) ∧
   (callers s' = callers s ∨ (∃ r, callers s' = callers s ++ [mkCaller r CStart]) ∨
    ∃ j c q, callers s !! j = Some c ∧ ¬ locked (cl_pc c) ∧ ¬ locked q ∧ moves j q s s')) ∨
  (∃ j c q, callers s !! j = Some c ∧ cl_pc c = CChecked ∧ mutex s = None ∧ mutex s' = Some j ∧
     locked q ∧ moves j q s s') ∨
  (∃ j c q, own j a ∧ callers s !! j = Some c ∧ locked (cl_pc c) ∧ moves j q s s' ∧
     ((mutex s' = mutex s ∧ locked q ∧ steps_left q < steps_left (cl_pc c)) ∨
      (mutex s' = None ∧ ∃ r, q = CReturned r))).
Proof.
  assert (¬ locked CStart ∧ ¬ locked CChecked ∧ ¬ locked CClosing ∧ ∀ r, ¬ locked (CReturned r))
    as (N1 & N2 & N3 & N4) by (unfold locked; simpl; split_and!; intros; intros [[]|]; done).
  assert ((∀ t, locked (CLocked t)) ∧ (∀ t k, locked (CWriting t k)) ∧ (∀ t, locked (CWaiting t)) ∧
    locked CTimedOut) as (L1 & L2 & L3 & L4) by (unfold locked; simpl; split_and!; eauto).
  intros Ha. destruct a; simpl in Ha;
    try (destruct (callers s !! i) as [c|] eqn:Hi; [|done]; simpl in Ha; destruct (cl_pc c) eqn:Hpc; try done).
  - injection Ha as <-. left. split_and!; [done|done|]. right; left. by eexists.
  - injection Ha as <-. left. unfold check_conn.
    destruct (cl_req c); (split_and!; [done|done|]; right; right; eexists i, c, _; split_and!;
      [done|by rewrite Hpc| |reflexivity]); [by repeat case_match..|done].
  - destruct (mutex s) eqn:Hm; [done|]. injection Ha as <-. right; left. unfold lock_set.
    destruct (register _ _ _) as [t p]. exists i, c, (CLocked t). by split_and!.
  - injection Ha as <-. right; right. unfold get_rw.
    destruct (rw s); eexists i, c, _; (split_and!; [done|done|by rewrite Hpc|reflexivity|]).
    + left. rewrite Hpc. simpl. split_and!; [done|done|lia].
    + right. eauto.
  - right; right. unfold do_write in Ha. destruct (conns s !! c0) as [k|]; [|done]. simpl in Ha.
    destruct (packet_of _); [|done]. destruct err.
    + injection Ha as <-. eexists i, c, _. split_and!; [done|done|by rewrite Hpc|reflexivity|]. right. eauto.
    + destruct (k_open k); [|done]. injection Ha as <-. eexists i, c, _.
      split_and!; [done|done|by rewrite Hpc|reflexivity|]. left. rewrite Hpc. simpl. split_and!; [done|done|lia].
  - right; right. unfold receive in Ha. destruct (recv i (ps s)) as [[r p]|]; [|done]. injection Ha as <-.
    eexists i, c, _. split_and!; [done|done|by rewrite Hpc|reflexivity|]. right. eauto.
  - injection Ha as <-. right; right. unfold time_out.
    destruct (cl_req c); eexists i, c, _; (split_and!; [done|done|by rewrite Hpc|reflexivity|]);
      first [right; by eauto | left; rewrite Hpc; simpl; split_and!; [done|done|lia]].
  - injection Ha as <-. right; right. destruct (closeConn_conn s) as (_ & _ & _ & E & _).
    eexists i, c, _. split_and!; [done|done|by rewrite Hpc|unfold moves; simpl; by rewrite E|]. right. eauto.
  - injection Ha as <-. left. destruct (closeConn_conn s) as (_ & _ & _ & E & E5).
    split_and!; [exact E5|intros j c' -> ?; simplify_eq; by rewrite Hpc|]. right; right. eexists i, c, _.
    split_and!; [done|by rewrite Hpc|apply N4|unfold moves; simpl; by rewrite E].
  - destruct (conns s !! c); [|done]. injection Ha as <-. left. by split_and!; [|intros|left].
  - left. unfold rl_step in Ha. destruct (closeConn_conn s) as (_ & _ & _ & E & E5).
    destruct (rl s); try done; try (unfold in_send in Ha; case_decide; [|done]); injection Ha as <-;
      try (by split_and!; [|intros|left]).
    unfold rl_publish, setConn. destruct (closed s); by split_and!; [|intros|left].
  - left. destruct (rl s); try done. unfold rl_read in Ha. destruct (conns s !! c) as [k|]; [|done].
    simpl in Ha. destruct (readPacket (source k)) as [[r rd]|]; [|done]. destruct r as [packet|e|]; [| |done].
    + destruct (decodeResponse packet) as [[[[resp|] ?] [e|]]|]; try done; injection Ha as <-; by split_and!; [|intros|left].
    + injection Ha as <-. unfold report_read. repeat case_match; by split_and!; [|intros|left].
  - left. destruct (rl s); try done. unfold rl_dial in Ha. destruct d as [rd|e].
    + destruct (dialled want rd) as [k|]; [|done]. destruct werr as [e|].
      * destruct want; [|done]. injection Ha as <-. by split_and!; [|intros|left].
      * injection Ha as <-. by split_and!; [|intros|left].
    + injection Ha as <-. by split_and!; [|intros|left].
  - left. destruct (inq s) as [|resp q]; [done|]. destruct (process now resp (ps s)); [|done].
    injection Ha as <-. by split_and!; [|intros|left].
Qed.

(** The holder is the one caller in its locked part. *)
Definition lockinv (s : csys) : Prop :=
  ∀ i, mutex s = Some i ↔ ∃ c, callers s !! i = Some c ∧ locked (cl_pc c).

Lemma moves_lookup j q s s' i c :
  moves j q s s' → callers s !! j = Some c →
  callers s' !! i = if decide (i = j) then Some (mkCaller (cl_req c) q) else callers s !! i.
Proof.
  intros Hm Hc. rewrite Hm, list_lookup_alter. repeat case_decide; try congruence.
  subst j. by rewrite Hc.
Qed.

Lemma do_cact_lockinv a s s' : do_cact want ttl a s = Some s' → lockinv s → lockinv s'.
Proof.
  intros Ha Hl i. destruct (do_cact_locks _ _ _ Ha) as
    [(Hm & _ & [Ec|[[r Ec]|(j & c & q & Hc & Nc & Nq & Hmv)]])|
     [(j & c & q & Hc & Hpc & Hm0 & Hm & Hq & Hmv)|
      (j & c & q & _ & Hc & Lc & Hmv & [(Hm & Hq & _)|(Hm & r & ->)])]].
  - by rewrite Hm, Ec.
  - rewrite Hm, Ec, (Hl i). split; intros (c & Hc & Hlk).
    + exists c. split; [by apply lookup_app_l_Some|done].
    + apply lookup_app_Some in Hc as [Hc|[_ Hc]]; [by exists c|].
      apply list_lookup_singleton_Some in Hc as [_ <-]. by destruct Hlk as [[]|].
  - rewrite Hm, (Hl i), (moves_lookup _ _ _ _ i _ Hmv Hc). case_decide as Hd; [subst i|done].
    split; intros (c' & Hc' & Hlk); [congruence|by simplify_eq].
  - rewrite Hm, (moves_lookup _ _ _ _ i _ Hmv Hc). case_decide as Hd; [subst i; split; [|done]; by eauto|].
    split; [congruence|]. intros Hx. apply Hl in Hx. congruence.
  - rewrite Hm, (Hl i), (moves_lookup _ _ _ _ i _ Hmv Hc). case_decide as Hd; [subst i|done]. split; eauto.
  - assert (mutex s = Some j) as Hj by (apply Hl; eauto).
    rewrite Hm, (moves_lookup _ _ _ _ i _ Hmv Hc). split; [done|]. case_decide as Hd.
    + intros (c' & [= <-] & [[]|]); done.
    + intros Hx. apply Hl in Hx. congruence.
Qed.

Lemma creachable_lockinv s : creachable want ttl s → lockinv s.
Proof.
  apply creachable_ind; [|apply do_cact_lockinv]. intros rd s0 (k & _ & ->)%New_client_eq i.
  split; [done|]. by intros (? & ? & _).
Qed.

(** A caller in its locked part has a step to take: it waits for its write to
    return or for its timer at most. *)
Lemma own_enabled s i c p :
  winv s → callers s !! i = Some c → locked (cl_pc c) → packet_of (cl_req c) = Val p →
  ∃ a s', own i a ∧ do_cact want ttl a s = Some s'.
Proof.
  intros Hs Hc Hl Hp. destruct (cl_pc c) as [| |t|t k|t| | |] eqn:Hpc; try (by destruct Hl as [[? ?]|?]).
  - eexists (GetRW i), _. split; [done|]. simpl. rewrite Hc. simpl. by rewrite Hpc.
  - destruct (lookup_lt_is_Some_2 (conns s) k) as [kc Hk]; [by eapply wi_writing|].
    eexists (Write i (Some use_of_closed)), _. split; [done|]. simpl. rewrite Hc. simpl. rewrite Hpc.
    unfold do_write. rewrite Hk. simpl. by rewrite Hp.
  - eexists (TimeOut i 0), _. split; [done|]. simpl. rewrite Hc. simpl. by rewrite Hpc.
  - eexists (CloseConn i), _. split; [done|]. simpl. rewrite Hc. simpl. by rewrite Hpc.
Qed.

(** C21: the mutex is always given back.  In every reachable state the holder of
    [client.Mutex] is the one caller between its lock and its return.  Nothing any
    other caller, [readLoop], [processLoop] or the network does takes the mutex
    from it or moves it; each step of its own - the snapshot of the writer, the
    return of its write, a reply, its timer, the drop of the connection, in
    whatever order they come - leaves it with fewer of at most four steps to go,
    or returns from the call with the mutex free; and there is always such a step
    for it to take.  All it can wait for is its write to return, which the
    network may delay, and then its timer. *)
Theorem mutex_released s i :
  creachable want ttl s → mutex s = Some i →
  ∃ c, callers s !! i = Some c ∧ locked (cl_pc c) ∧ steps_left (cl_pc c) ≤ 4 ∧
    (∀ j c', callers s !! j = Some c' → locked (cl_pc c') → j = i) ∧
    (∀ a s', do_cact want ttl a s = Some s' → ¬ own i a →
       mutex s' = Some i ∧ callers s' !! i = Some c) ∧
    (∀ a s', do_cact want ttl a s = Some s' → own i a →
       ∃ c', callers s' !! i = Some c' ∧ cl_req c' = cl_req c ∧
         ((mutex s' = Some i ∧ locked (cl_pc c') ∧ steps_left (cl_pc c') < steps_left (cl_pc c)) ∨
          (mutex s' = None ∧ ∃ r, cl_pc c' = CReturned r))) ∧
    (∀ p, packet_of (cl_req c) = Val p → ∃ a s', own i a ∧ do_cact want ttl a s = Some s').
Proof.
  intros Hr Hm. pose proof (creachable_lockinv s Hr) as Hl. destruct (proj1 (Hl i) Hm) as (c & Hc & Hlk).
  exists c. split_and!; [done|done|destruct (cl_pc c); simpl; lia| | | |].
  - intros j c' Hj Hlj. assert (mutex s = Some j) by (apply Hl; eauto). congruence.
  - intros a s' Ha Ho. pose proof (do_cact_lockinv _ _ _ Ha Hl) as Hl'. destruct (do_cact_locks _ _ _ Ha) as
      [(Em & _ & [Ec|[[r Ec]|(j & cj & q & Hj & Nc & Nq & Hmv)]])|
       [(j & cj & q & _ & _ & Hm0 & _)|(j & cj & q & Oj & Hj & Lj & _)]].
    + by rewrite Em, Ec.
    + rewrite Em, Ec. split; [done|]. by apply lookup_app_l_Some.
    + rewrite Em, (moves_lookup _ _ _ _ i _ Hmv Hj). case_decide; [|done]. subst j. congruence.
    + congruence.
    + assert (mutex s = Some j) by (apply Hl; eauto). congruence.
  - intros a s' Ha Ho. destruct (do_cact_locks _ _ _ Ha) as
      [(_ & Hx & _)|[(j & cj & q & _ & _ & Hm0 & _)|(j & cj & q & Oj & Hj & Lj & Hmv & Hx)]].
    + by destruct (Hx i c Ho Hc).
    + congruence.
    + assert (mutex s = Some j) as Hmj by (apply Hl; eauto). rewrite Hm in Hmj. injection Hmj as <-.
      rewrite Hc in Hj. injection Hj as <-.
      exists (mkCaller (cl_req c) q). split; [|split; [done|]].
      * rewrite (moves_lookup _ _ _ _ i _ Hmv Hc). by rewrite decide_True.
      * destruct Hx as [(Em & Hq & Hs)|(Em & r & ->)]; [left|right; eauto]. by rewrite Em.
  - intros p Hp. by eapply own_enabled; [apply creachable_winv| | |].
Qed.
End client_facts.


(** ** Two races *)

Definition no_input : Reader := mkReader [] [].

(** A request that gets its connection and is written. *)
Definition submit (i : nat) (id : string) : list cact :=
  [Call (DoWithId (str "f") (str "x") JobNormal None (str id)); CheckConn i; LockSet i; GetRW i;
   Write i None].

(** [readLoop] from the top of its loop to the send of one packet. *)
Definition take_packet : list cact := [RlStep; RlStep; RlRead; RlStep].

(** [readLoop] after a lost connection, until the next one is published. *)
Definition redial : list cact := [RlStep; RlStep; RlDialled (inl no_input) None; RlStep].

Definition job_created (handle : string) : read_event := Chunk (frame dtJobCreated (str handle)).

(** What is seen of a run: the results of the calls. *)
Definition results (r : option csys) : option (list call_pc) :=
  s ← r; Some (cl_pc <$> callers s).

(** C37: a reply outlives the connection it came on.  The timeout of [do] drops the
    connection and empties the handler queue so that no late reply can be taken
    for the next caller's, but not [client.in]: the JOB_CREATED of a first call,
    read just before its timeout, is delivered to the second call, which
    returns the handle of the first one's job as its own. *)
Theorem stale_reply_misdelivered (w : GoArch) (ttl : Z) :
  ∃ s0, New_client false no_input = Val s0 ∧
  results (crun false ttl
    (submit 0 "one" ++ NetIn 0 (job_created "H:1") :: take_packet ++ [TimeOut 0 0; CloseConn 0] ++
     [RlStep; RlStep] ++ redial ++ submit 1 "two" ++ [Process 0; Receive 1]) s0) =
  Some [CReturned (Errored ErrLostConn); CReturned (Replied (handleOrError (str "H:1") None))].
Proof.
  eexists. split; [reflexivity|]. destruct w; vm_compute; reflexivity.
Qed.

(** A redial between a call's [set] and its write loses the reply.  The
    [closeConn] of [readLoop] empties the handler queues without [client.Mutex],
    so it can drop the handler of a call that has not written yet; the call
    then writes to the new connection, the job server creates the job and
    answers, and the answer finds no handler: the call reports [ErrLostConn]
    for a job that exists. *)
Theorem reset_loses_handler (w : GoArch) (ttl : Z) :
  ∃ s0, New_client false no_input = Val s0 ∧
  results (crun false ttl
    ([NetIn 0 (Fail EOF); RlStep; RlStep; RlRead;
      Call (DoWithId (str "f") (str "x") JobNormal None (str "one")); CheckConn 0; LockSet 0] ++
     RlStep :: redial ++ [GetRW 0; Write 0 None; NetIn 1 (job_created "H:1")] ++ take_packet ++
     [Process 0; TimeOut 0 0; CloseConn 0]) s0) =
  Some [CReturned (Errored ErrLostConn)] ∧
  (∃ s p, crun false ttl
    ([NetIn 0 (Fail EOF); RlStep; RlStep; RlRead;
      Call (DoWithId (str "f") (str "x") JobNormal None (str "one")); CheckConn 0; LockSet 0] ++
     RlStep :: redial ++ [GetRW 0; Write 0 None]) s0 = Some s ∧
    encodeJob dtSubmitJob (str "f") (str "one") (str "x") = Val p ∧
    k_sent <$> conns s !! 1 = Some [p] ∧ k_open <$> conns s !! 1 = Some true).
Proof.
  eexists. split; [reflexivity|]. split; [destruct w; vm_compute; reflexivity|].
  destruct w; (eexists _, _; split_and!; [vm_compute; reflexivity..]).
Qed.

(** ** Witnesses *)

Definition run_from (want : bool) (acts : list cact) : option csys :=
  match New_client (H := W64) want no_input with
  | Val s0 => crun (H := W64) want 1000 acts s0
  | Panics _ => None
  end.

Definition state_after (want : bool) (acts : list cact) : csys :=
  default (mkC [] None None true [] RlDone p_init [] None) (run_from want acts).

(** A redial in flight when [Close] returns. *)
Definition close_while_dialling : list cact :=
  [NetIn 0 (Fail EOF); RlStep; RlStep; RlRead; RlStep; RlStep; RlStep; RlDialled (inl no_input) None;
   Call RClose; CheckConn 0; CloseConn 0; RlStep].

Lemma close_is_final_witness :
  closed (state_after false close_while_dialling) = true ∧
  conn (state_after false close_while_dialling) = None.
Proof.
  destruct (close_is_final (H := W64) false 1000 (state_after false close_while_dialling) 0
    (mkCaller RClose (CReturned Closed_ok))) as (E1 & E2 & _).
  - eexists no_input, _, close_while_dialling. split; [reflexivity|]. vm_compute. reflexivity.
  - vm_compute. reflexivity.
  - reflexivity.
  - split; [exact E1|exact E2].
Defined.

Lemma mutex_discipline_witness :
  let s := state_after false (submit 0 "one" ++ [NetIn 0 (job_created "H:1")]) in
  ∃ i c, callers s !! i = Some c ∧ mutex s = Some i ∧ token_of (cl_pc c) = Some 0%Z.
Proof.
  destruct (mutex_discipline (H := W64) false 1000 no_input
    (mkC [mkCConn no_input [] true] (Some 0) (Some 0) false [] RlTop p_init [] None)
    (submit 0 "one" ++ [NetIn 0 (job_created "H:1")])
    (state_after false (submit 0 "one" ++ [NetIn 0 (job_created "H:1")]))) as (_ & Hc & _).
  - reflexivity.
  - vm_compute. reflexivity.
  - vm_compute. reflexivity.
  - destruct (Hc (mkEntry 0 (mkHandled (Some (HCreated 0)) None) None)) as (i & c & E1 & E2 & _ & _ & E3 & _).
    + vm_compute. left.
    + unfold live. simpl. congruence.
    + exists i, c. split; [exact E1|split; [exact E2|exact E3]].
Defined.

Lemma option_request_first_witness :
  let s := state_after true (submit 0 "one") in
  ∃ k rest, conns s !! 0 = Some k ∧ k_open k = true ∧
    k_sent k = request_bytes dtOptionReq optionExceptions :: rest.
Proof.
  cbv zeta. destruct (conns (state_after true (submit 0 "one")) !! 0) as [k|] eqn:Hk;
    [|vm_compute in Hk; discriminate].
  assert (k_open k = true) as Ho by (vm_compute in Hk; injection Hk as <-; reflexivity).
  destruct (option_request_first (H := W64) true 1000 (state_after true (submit 0 "one")) 0 k)
    as [[_ Hc]|[rest E]].
  - eexists no_input, _, (submit 0 "one"). split; [reflexivity|]. vm_compute. reflexivity.
  - reflexivity.
  - exact Hk.
  - congruence.
  - exists k, rest. split_and!; [reflexivity|exact Ho|exact E].
Defined.

(** A reply in the channel of the call that holds the mutex. *)
Definition answered : list cact :=
  submit 0 "one" ++ [NetIn 0 (job_created "H:1")] ++ take_packet ++ [Process 0].

Lemma mutex_released_witness :
  mutex (state_after false answered) = Some 0 ∧
  mutex (state_after false (answered ++ [Receive 0])) = None.
Proof.
  destruct (mutex_released (H := W64) false 1000 (state_after false answered) 0)
    as (c & Hc & _ & _ & _ & _ & Hown & _).
  - eexists no_input, _, answered. split; [reflexivity|]. vm_compute. reflexivity.
  - vm_compute. reflexivity.
  - split; [vm_compute; reflexivity|].
    destruct (Hown (Receive 0) (state_after false (answered ++ [Receive 0])))
      as (c' & Hc' & _ & [(Hm & _)|[Hm _]]);
      [vm_compute; reflexivity|reflexivity| |exact Hm].
    vm_compute in Hm. discriminate Hm.
Defined.
