(* ===== verification/ClientReplies.v ===== *)
(** * What callers get back: client/client.go

    [processLoop] hands a reply to whichever handler is next in the queue of its
    packet type.  Here: whatever a call returns was taken from a packet of the
    type it waits for, which [processLoop] has processed - the handle of a
    JOB_CREATED for [Do], the payload of an ECHO_RES for [Echo], for [Status] the
    status in a STATUS_RES about the very job it was asked about - however calls,
    timeouts, reconnects and late replies interleave. *)

From S2P Require Import Prelude GoStd Protocol ClientRequest ClientResponse HandlerSlot.
From S2P Require Import ClientWire ClientLoop Client.
Import CC.

(** The kinds of replies a request may return with. *)
Definition reply_for (r : request) (x : reply) : Prop :=
  match r, x with
  | RDo _ _ _ _ _ _, handleOrError _ _ => True
  | REcho _, echoed _ => True
  | RStatus handle, statusOrError st err =>
      (∀ y, st = Some y → sHandle y = handle) ∧ (err = None → st ≠ None)
  | _, _ => False
  end.

Definition result_for (r : request) (x : call_result) : Prop :=
  match x with
  | Replied y => reply_for r y
  | Errored _ => True
  | Closed_ok => r = RClose
  end.

Lemma spend_elem (id u : Z) (q : list (slotEntry handler nat)) e h :
  e ∈ spend_id id u q → internal (eh e) = Some h → e ∈ q.
Proof.
  induction q as [|x q IH]; simpl; [done|]. case_decide.
  - intros [->|?]%elem_of_cons Hh; [done|]. by apply elem_of_cons; right.
  - intros [->|?]%elem_of_cons Hh; apply elem_of_cons; [by left|right; by apply IH].
Qed.

(** The request of each caller. *)
Definition req (s : csys) (i : nat) : option request := cl_req <$> callers s !! i.

Section replies.
Context `{GoArch}.
Variable want : bool.
Variable ttl : Z.

(** The reply a packet is to a request. *)
Definition answers (r : request) (resp : Response) (x : reply) : Prop :=
  match r with
  | RDo _ _ _ _ _ _ => DataType resp = dtJobCreated ∧ x = handleOrError (Handle resp) None
  | REcho _ => DataType resp = dtEchoRes ∧ x = echoed (Data resp)
  | RStatus handle => DataType resp = dtStatusRes ∧ Handle resp = handle ∧
      ∃ st err, _status resp = Val (st, err) ∧ x = statusOrError st err
  | RClose => False
  end.

Lemma answers_for r resp x : answers r resp x → reply_for r x.
Proof.
  destruct r; simpl; [by intros [_ ->]| |by intros [_ ->]|done].
  intros (_ & <- & st & se & Es & ->). unfold _status in Es.
  rewrite outcome_bind_Val in Es. destruct Es as (r & _ & Es).
  destruct r as [[[|f0 [|f1 [|f2 [|]]]] f3]|]; try by injection Es as <- <-.
  destruct (decide _); [by injection Es as <- <-|].
  rewrite outcome_bind_Val in Es. destruct Es as (k & _ & Es).
  rewrite outcome_bind_Val in Es. destruct Es as (u & _ & Es). cbv zeta in Es.
  destruct (ParseUint f2) as [num [e2|]]; [injection Es as <- <-; split; naive_solver|].
  destruct (ParseUint f3) as [den [e3|]]; injection Es as <- <-; split; naive_solver.
Qed.

(** What a call may return with when the packets of [hist] have been
    processed. *)
Definition reply_from (hist : list Response) (r : request) (x : reply) : Prop :=
  ∃ resp, resp ∈ hist ∧ answers r resp x.

Definition result_from (hist : list Response) (r : request) (x : call_result) : Prop :=
  match x with
  | Replied y => reply_from hist r y
  | Errored _ => True
  | Closed_ok => r = RClose
  end.

Definition pc_for (hist : list Response) (r : request) (p : call_pc) : Prop :=
  match p with
  | CReturned x => result_from hist r x
  | CClosing => r = RClose
  | _ => True
  end.

Section history.
Variable hist : list Response.

(** Handlers are queued for the type of packet their caller waits for, and
    channels hold replies of its kind; [R] gives the callers' requests. *)
Record typed (R : nat → option request) (p : pstate) : Prop := {
  ty_created : ∀ e h, e ∈ queue (created p) → internal (eh e) = Some h →
    ∃ i r, h = HCreated i ∧ R i = Some r ∧ is_do r;
  ty_echo : ∀ e h, e ∈ queue (echo p) → internal (eh e) = Some h →
    ∃ i r, h = HEcho i ∧ R i = Some r ∧ is_echo r;
  ty_status : ∀ k x h, status p !! k = Some x → internal x = Some h →
    ∃ i, h = HStatus i ∧ R i = Some (RStatus k);
  ty_chan : ∀ i x, x ∈ chan i p → ∃ r, R i = Some r ∧ reply_from hist r x
}.

Lemma typed_mono R R' p : (∀ i r, R i = Some r → R' i = Some r) → typed R p → typed R' p.
Proof.
  intros HR [T1 T2 T3 T4]. split.
  - intros e h He Hh. destruct (T1 e h He Hh) as (i & r & ? & ? & ?). eauto 6.
  - intros e h He Hh. destruct (T2 e h He Hh) as (i & r & ? & ? & ?). eauto 6.
  - intros k x h Hk Hh. destruct (T3 k x h Hk Hh) as (i & ? & ?). eauto.
  - intros i x Hx. destruct (T4 i x Hx) as (r & ? & ?). eauto.
Qed.

(** Fewer handlers waiting, the same channels. *)
Lemma typed_shrink R p p' :
  typed R p →
  (∀ e h, e ∈ queue (created p') → internal (eh e) = Some h → e ∈ queue (created p)) →
  (∀ e h, e ∈ queue (echo p') → internal (eh e) = Some h → e ∈ queue (echo p)) →
  status p' ⊆ status p → chans p' = chans p → typed R p'.
Proof.
  intros [T1 T2 T3 T4] H1 H2 H3 H4. split.
  - intros e h He Hh. eapply T1; [by eapply H1|done].
  - intros e h He Hh. eapply T2; [by eapply H2|done].
  - intros k x h Hk Hh. eapply T3; [|done]. by eapply lookup_weaken.
  - intros i x. unfold chan. rewrite H4. apply T4.
Qed.

Lemma typed_send R p p' ch x r :
  typed R p → created p' = created p → echo p' = echo p → status p' = status p →
  chans p' = <[ch := chan ch p ++ [x]]> (chans p) → R ch = Some r → reply_from hist r x → typed R p'.
Proof.
  intros [T1 T2 T3 T4] E1 E2 E3 E4 Hr Hx. split; rewrite ?E1, ?E2, ?E3; [done..|].
  intros i y. unfold chan at 1. rewrite E4. destruct (decide (ch = i)) as [->|Hne].
  - rewrite lookup_insert_eq. simpl. intros [Hy|Hy%list_elem_of_singleton]%elem_of_app; [by apply T4|].
    subst y. eauto.
  - rewrite lookup_insert_ne by done. apply T4.
Qed.

(** What the closures send. *)
Lemma run_internal_typed h resp p p' :
  run_internal h resp p = Val p' →
  created p' = created p ∧ echo p' = echo p ∧ status p' = status p ∧
  ∃ x, chans p' = <[chan_of h := chan (chan_of h) p ++ [x]]> (chans p) ∧
    match h with
    | HCreated _ => DataType resp ≠ dtError → x = handleOrError (Handle resp) None
    | HEcho _ => x = echoed (Data resp)
    | HStatus _ => ∃ st e, _status resp = Val (st, e) ∧ x = statusOrError st e
    end.
Proof.
  destruct h as [ch|ch|ch]; simpl; intros E.
  - case_decide; injection E as <-; (split_and!; [done..|]); eexists; by (split; [reflexivity|]).
  - injection E as <-. split_and!; [done..|]. eexists. by split; [reflexivity|].
  - rewrite outcome_bind_Val in E. destruct E as ([st se] & Es & [= <-]). split_and!; [done..|].
    eexists. split; [reflexivity|]. by exists st, se.
Qed.

(** A handler taken out of its slot for [resp]. *)
Definition fits (R : nat → option request) (resp : Response) (x : handler) : Prop :=
  match x with
  | HCreated i => DataType resp = dtJobCreated ∧ ∃ r, R i = Some r ∧ is_do r
  | HEcho i => DataType resp = dtEchoRes ∧ ∃ r, R i = Some r ∧ is_echo r
  | HStatus i => DataType resp = dtStatusRes ∧ R i = Some (RStatus (Handle resp))
  end.

Lemma deliver_typed R h resp nilmap p p' :
  resp ∈ hist → typed R p → (∀ x, internal h = Some x → fits R resp x) →
  deliver h resp nilmap p = Val p' → typed R p'.
Proof.
  intros Hin Hp Hf. unfold deliver. destruct (internal h) as [x|]; [|by intros [= <-]].
  specialize (Hf x eq_refl). rewrite outcome_bind_Val. intros (p1 & E1 & E2).
  assert (typed R p1) as Hp1.
  { destruct (external h); [|by injection E1 as <-].
    destruct (decide (Handle resp ≠ [])); [|by injection E1 as <-].
    destruct nilmap; [done|]. injection E1 as <-. by apply (typed_shrink R p); try done. }
  apply run_internal_typed in E2 as (E3 & E4 & E5 & y & E6 & Hy).
  assert (∃ r, R (chan_of x) = Some r ∧ answers r resp y) as (r & Hr & Hry).
  { destruct x as [i|i|i]; simpl in *.
    - destruct Hf as (Hty & [] & Hr & ?); try done. eexists. split; [exact Hr|]. split; [done|].
      apply Hy. by rewrite Hty.
    - destruct Hf as (Hty & [] & Hr & ?); try done. by eexists.
    - destruct Hf as [Hty Hr]. eexists. split; [exact Hr|]. by split_and!. }
  eapply (typed_send R p1); try done. by exists resp.
Qed.

Lemma dispatch_typed R now resp p p' :
  resp ∈ hist → typed R p → dispatch now resp p = Val p' → typed R p'.
Proof.
  intros Hin Hp. unfold dispatch. cbv zeta.
  case_decide; [intros [= <-]; by apply (typed_shrink R p)|].
  case_decide; [by intros [= <-]|]. case_decide.
  { simpl. apply deliver_typed; [done|..].
    - apply (typed_shrink R p); try done. apply delete_subseteq.
    - intros x Hx. destruct (status p !! Handle resp) as [h|] eqn:Hh; [|done].
      destruct (ty_status R p Hp _ _ _ Hh Hx) as (i & -> & Hi). by split. }
  case_decide.
  { destruct (slot_take now (created p)) as [h q] eqn:Ht. apply deliver_typed; [done|..].
    - apply (typed_shrink R p); try done. intros e y He _. by eapply take_elem.
    - intros x Hx. apply slot_take_queue in Ht as (l & _ & _ & [(_ & -> & _)|(e & E & -> & _)]); [done|].
      destruct (ty_created R p Hp e x) as (i & r & -> & Hr & Hd); [rewrite E; set_solver|done|].
      split; [done|]. by exists r. }
  case_decide.
  { destruct (slot_take now (echo p)) as [h q] eqn:Ht. apply deliver_typed; [done|..].
    - apply (typed_shrink R p); try done. intros e y He _. by eapply take_elem.
    - intros x Hx. apply slot_take_queue in Ht as (l & _ & _ & [(_ & -> & _)|(e & E & -> & _)]); [done|].
      destruct (ty_echo R p Hp e x) as (i & r & -> & Hr & Hd); [rewrite E; set_solver|done|].
      split; [done|]. by exists r. }
  destruct (work_update (DataType resp)), (work_terminal (DataType resp)), (rhandlers p !! Handle resp); intros [= <-];
    try exact Hp; by apply (typed_shrink R p).
Qed.

Lemma process_typed R now resp p p' :
  resp ∈ hist → typed R p → process now resp p = Val p' → typed R p'.
Proof.
  intros Hin Hp. assert (∀ b ex, typed R (set_negotiation b ex p)) as Hn.
  { intros b ex. by apply (typed_shrink R p). }
  unfold process. case_decide; [by intros [= <-]|]. destruct (optionPending p).
  - case_decide; [by intros [= <-]|]. case_decide; [by intros [= <-]|]. by apply dispatch_typed.
  - by apply dispatch_typed.
Qed.

Lemma set_elem_typed int ext (q : handlerSlot handler nat) e h :
  e ∈ queue (slot_set int ext q).2 → internal (eh e) = Some h → e ∈ queue q ∨ int = Some h.
Proof.
  destruct (slot_set_queue int ext q) as (l & q' & E & _ & _ & E' & _). rewrite E', E.
  intros [He|He%list_elem_of_singleton]%elem_of_app Hh; [left; set_solver|]. subst e. by right.
Qed.

Lemma register_typed R i r p : R i = Some r → typed R p → typed R (register i r p).2.
Proof.
  intros Hr [T1 T2 T3 T4]. destruct r as [bg fl f id d h|k|d|]; cbn [register].
  - destruct (slot_set (Some (HCreated i)) h (created p)) as [t q] eqn:E. split; try done.
    intros e x He Hx. simpl in He.
    destruct (set_elem_typed (Some (HCreated i)) h (created p) e x) as [Hc|[= <-]];
      [by rewrite E|done|by eapply T1|]. by eexists _, _.
  - split; try done. intros k' x h. simpl. unfold status_set.
    rewrite lookup_insert_Some. intros [[<- <-]|[_ Hk]]; [|by eapply T3]. intros [= <-]. eauto.
  - destruct (slot_set (Some (HEcho i)) None (echo p)) as [t q] eqn:E. split; try done.
    intros e x He Hx. simpl in He.
    destruct (set_elem_typed (Some (HEcho i)) None (echo p) e x) as [Hc|[= <-]];
      [by rewrite E|done|by eapply T2|]. by eexists _, _.
  - by split.
Qed.

Lemma unregister_typed R r t p : typed R p → typed R (unregister r t p).
Proof.
  intros Hp. destruct r; simpl; apply (typed_shrink R p); simpl; try done.
  - intros e x He _. eapply elem_of_sublist; [exact He|]. apply remove_id_sublist.
  - apply delete_subseteq.
  - intros e x He _. eapply elem_of_sublist; [exact He|]. apply remove_id_sublist.
Qed.

(** ** Every action keeps the replies typed *)

Definition tinv (s : csys) : Prop :=
  typed (req s) (ps s) ∧
  ∀ i c, callers s !! i = Some c → pc_for hist (cl_req c) (cl_pc c).

(** Steps that leave the callers alone, and steps of one caller. *)
Lemma tinv_ps s s' : callers s' = callers s → typed (req s) (ps s') → tinv s → tinv s'.
Proof.
  intros E Hty [_ Hret]. split; [|by rewrite E].
  eapply typed_mono; [|exact Hty]. intros i r. unfold req. by rewrite E.
Qed.

Lemma tinv_caller i q s s' :
  callers s' = callers (set_caller i q s) → typed (req s) (ps s') → tinv s →
  (∀ c, callers s !! i = Some c → pc_for hist (cl_req c) q) → tinv s'.
Proof.
  intros E Hty [_ Hret] Hq. split.
  - eapply typed_mono; [|exact Hty]. intros j r. unfold req. rewrite E. simpl.
    rewrite list_lookup_alter. case_decide; [|done]. subst. by destruct (callers s !! j).
  - intros j c Hj. rewrite E in Hj.
    apply set_caller_lookup in Hj as [(-> & Hpc & c0 & Hc0 & Er)|[_ Hj]]; [|by eapply Hret].
    rewrite Er, Hpc. by apply Hq.
Qed.

(** Resetting and abandoning only take handlers away. *)
Lemma closeConn_typed R s : typed R (ps s) → typed R (ps (closeConn s)).
Proof.
  intros Hp. unfold closeConn. destruct (conn s); [|done].
  apply (typed_shrink R (ps s)); simpl; try done; by intros e h ?%not_elem_of_nil.
Qed.

Lemma abandon_typed R t now p :
  typed R p → typed R (set_created (slot_abandon t now ttl (created p)) p) ∧
  typed R (set_echo (slot_abandon t now ttl (echo p)) p).
Proof.
  intros Hp. split; apply (typed_shrink R p); simpl; try done; intros e h; apply spend_elem.
Qed.

Lemma recv_typed R i p x p' :
  typed R p → recv i p = Some (x, p') → typed R p' ∧ ∃ r, R i = Some r ∧ reply_from hist r x.
Proof.
  intros [T1 T2 T3 T4] E. unfold recv in E.
  destruct (chans p !! i) as [[|y rest]|] eqn:Hc; try done. injection E as <- <-.
  assert (chan i p = y :: rest) as Hi by (unfold chan; by rewrite Hc).
  split; [|apply T4; rewrite Hi; by left]. split; try done. intros j z. unfold chan at 1. simpl.
  destruct (decide (i = j)) as [->|Hne].
  - rewrite lookup_insert_eq. simpl. intros Hz. apply T4. rewrite Hi. by right.
  - rewrite lookup_insert_ne by done. apply T4.
Qed.

Lemma do_cact_tinv_in a s s' :
  (∀ now resp q, a = Process now → inq s = resp :: q → resp ∈ hist) →
  do_cact want ttl a s = Some s' → tinv s → tinv s'.
Proof.
  intros Hproc Ha Hs. pose proof (proj1 Hs) as Hty.
  assert (∀ e, typed (req s) (client_err e (ps s))) as Herr.
  { intros e. by apply (typed_shrink _ (ps s)). }
  assert (∀ e s0, ps s0 = ps s → typed (req s) (ps (report_read e s0))) as Hrr.
  { intros e s0 E. unfold report_read, report. repeat case_match; simpl; rewrite E; auto. }
  destruct a; simpl in Ha;
    try (destruct (callers s !! i) as [c|] eqn:Hi; [|done]; simpl in Ha; destruct (cl_pc c) eqn:Hpc; try done).
  - injection Ha as <-. split; simpl.
    + eapply typed_mono; [|exact Hty]. intros j x. unfold req. simpl.
      destruct (callers s !! j) eqn:Hj; [|done]. by rewrite (lookup_app_l_Some _ _ _ _ Hj).
    + intros j c [Hj|[_ Hj]]%lookup_app_Some; [by eapply (proj2 Hs)|].
      apply list_lookup_singleton_Some in Hj as [_ <-]. done.
  - injection Ha as <-. unfold check_conn.
    destruct (cl_req c) eqn:Hrq; (eapply (tinv_caller i _ s); [reflexivity|done|done|]);
      intros c0 Hc0; rewrite Hi in Hc0; injection Hc0 as <-; by repeat case_match.
  - destruct (mutex s); [done|]. injection Ha as <-. unfold lock_set.
    pose proof (register_typed (req s) i (cl_req c) (ps s)) as Hr. unfold req at 1 in Hr.
    rewrite Hi in Hr. specialize (Hr eq_refl Hty). destruct (register _ _ _) as [t p].
    by eapply (tinv_caller i (CLocked t) s).
  - injection Ha as <-. unfold get_rw.
    destruct (rw s); (eapply (tinv_caller i _ s); [reflexivity| |done|done]); [done|].
    by apply unregister_typed.
  - unfold do_write in Ha. destruct (conns s !! c0) as [kc|]; [|done]. simpl in Ha.
    destruct (packet_of _); [|done]. destruct err.
    + injection Ha as <-. eapply (tinv_caller i _ s); [reflexivity| |done|done]. by apply unregister_typed.
    + destruct (k_open kc); [|done]. injection Ha as <-. by eapply (tinv_caller i _ s).
  - unfold receive in Ha. destruct (recv i (ps s)) as [[x p]|] eqn:Hr; [|done]. injection Ha as <-.
    apply (recv_typed (req s)) in Hr as (Hp & r & Hri & Hx); [|done].
    eapply (tinv_caller i _ s); [reflexivity|done|done|]. intros c0 Hc. unfold req in Hri.
    rewrite Hc in Hri. by injection Hri as ->.
  - injection Ha as <-. unfold time_out.
    destruct (cl_req c); (eapply (tinv_caller i _ s); [reflexivity| |done|done]);
      try (by apply abandon_typed); by apply unregister_typed.
  - injection Ha as <-. eapply (tinv_caller i (CReturned (Errored ErrLostConn)) s); [|by apply closeConn_typed|done|done].
    simpl. by destruct (closeConn_conn s) as (_ & _ & _ & -> & _).
  - injection Ha as <-. eapply (tinv_caller i (CReturned Closed_ok) s); [|by apply closeConn_typed|done|].
    + simpl. by destruct (closeConn_conn s) as (_ & _ & _ & -> & _).
    + intros c0 Hc0. pose proof (proj2 Hs _ _ Hi) as Hp. rewrite Hpc in Hp. by simplify_eq.
  - destruct (conns s !! c); [|done]. injection Ha as <-. by apply (tinv_ps s).
  - unfold rl_step in Ha. destruct (rl s); try done;
      try (unfold in_send in Ha; case_decide; [|done]); injection Ha as <-;
      try (by apply (tinv_ps s)).
    + apply (tinv_ps s); [apply closeConn_conn|by apply closeConn_typed|done].
    + unfold rl_publish, setConn. destruct (closed s); by apply (tinv_ps s).
  - destruct (rl s); try done. unfold rl_read in Ha. destruct (conns s !! c) as [k|]; [|done].
    simpl in Ha. destruct (readPacket (source k)) as [[r rd]|]; [|done]. destruct r as [packet|e|]; [| |done].
    + destruct (decodeResponse packet) as [[[[resp|] ?] [e|]]|]; try done; injection Ha as <-;
        apply (tinv_ps s); simpl; auto.
    + injection Ha as <-. apply (tinv_ps s); [|by apply Hrr|done].
      unfold report_read. by repeat case_match.
  - destruct (rl s); try done. unfold rl_dial in Ha. destruct d as [rd|e].
    + destruct (dialled want rd) as [k|]; [|done]. destruct werr as [e|].
      * destruct want; [|done]. injection Ha as <-. apply (tinv_ps s); simpl; auto.
      * injection Ha as <-. apply (tinv_ps s); [done| |done]. simpl.
        destruct want; [|done]. by apply (typed_shrink _ (ps s)).
    + injection Ha as <-. apply (tinv_ps s); simpl; auto.
  - destruct (inq s) as [|resp q] eqn:Hq; [done|]. destruct (process now resp (ps s)) eqn:E; [|done].
    injection Ha as <-. apply (tinv_ps s); [done| |done]. eapply process_typed; eauto.
Qed.
End history.

(** ** The packets [processLoop] has taken in a run *)

Fixpoint processed (acts : list cact) (s : csys) : list Response :=
  match acts with
  | [] => []
  | a :: acts =>
      (match a with Process _ => take 1 (inq s) | _ => [] end) ++
      match do_cact want ttl a s with Some s' => processed acts s' | None => [] end
  end.

Lemma reply_from_mono hist hist' r x : hist ⊆ hist' → reply_from hist r x → reply_from hist' r x.
Proof. intros Hs (resp & ? & ?). exists resp. auto. Qed.

Lemma tinv_mono hist hist' s : hist ⊆ hist' → tinv hist s → tinv hist' s.
Proof.
  intros Hs [[T1 T2 T3 T4] Hret]. split; [split; try done|].
  - intros i x Hx. destruct (T4 i x Hx) as (r & ? & ?). eauto using reply_from_mono.
  - intros i c Hi. specialize (Hret i c Hi). destruct (cl_pc c) as [| | | | | | |[]]; try done.
    by eapply reply_from_mono.
Qed.

Lemma crun_tinv hist acts s s' :
  crun want ttl acts s = Some s' → tinv hist s → tinv (hist ++ processed acts s) s'.
Proof.
  revert hist s. induction acts as [|a acts IH]; intros hist s Hr Hs; simpl in *.
  { injection Hr as <-. by rewrite app_nil_r. }
  destruct (do_cact want ttl a s) as [s1|] eqn:E; [|done]. simpl in Hr. rewrite (assoc_L app).
  apply (IH _ _ Hr). eapply do_cact_tinv_in; [|exact E|].
  - intros now resp q -> Hq. rewrite Hq. set_solver.
  - eapply tinv_mono; [|exact Hs]. set_solver.
Qed.

Lemma New_tinv rd s0 : New_client want rd = Val s0 → tinv [] s0.
Proof.
  intros (k & _ & ->)%New_client_eq. split; [|done]. split; simpl; try done.
  - by intros e h ?%not_elem_of_nil.
  - by intros e h ?%not_elem_of_nil.
  - intros j y. unfold chan. simpl. rewrite lookup_empty. by intros ?%not_elem_of_nil.
Qed.

Lemma returned_from rd s0 acts s i c x :
  New_client want rd = Val s0 → crun want ttl acts s0 = Some s →
  callers s !! i = Some c → cl_pc c = CReturned x → result_from (processed acts s0) (cl_req c) x.
Proof.
  intros H0 Hr Hi Hx. destruct (crun_tinv [] _ _ _ Hr (New_tinv _ _ H0)) as [_ Hret].
  specialize (Hret _ _ Hi). by rewrite Hx in Hret.
Qed.

Lemma returned_typed s i c x :
  creachable want ttl s → callers s !! i = Some c → cl_pc c = CReturned x → result_for (cl_req c) x.
Proof.
  intros (rd & s0 & acts & H0 & Hr) Hi Hx. pose proof (returned_from _ _ _ _ _ _ _ H0 Hr Hi Hx) as Hf.
  destruct x as [y| |]; try done. destruct Hf as (resp & _ & Ha). by eapply answers_for.
Qed.

(** C11: a call returns what a packet of its own type says.  In any interleaving
    of callers, timeouts, closes, reconnects and replies - late ones and ones for
    calls given up on included - what a call returns comes from a packet that
    [processLoop] has processed in that run: [Do] and [DoBg] return the handle of
    a JOB_CREATED, [Echo] the payload of an ECHO_RES, and [Status] what a
    STATUS_RES about the very job it was asked about says - or any of them an
    error of its own; only [Close] just returns. *)
Theorem replies_typed rd s0 acts s i r x :
  New_client want rd = Val s0 → crun want ttl acts s0 = Some s →
  callers s !! i = Some (mkCaller r (CReturned x)) →
  match x with
  | Replied y => ∃ resp, resp ∈ processed acts s0 ∧
      match r with
      | RDo _ _ _ _ _ _ => DataType resp = dtJobCreated ∧ y = handleOrError (Handle resp) None
      | REcho _ => DataType resp = dtEchoRes ∧ y = echoed (Data resp)
      | RStatus handle => DataType resp = dtStatusRes ∧ Handle resp = handle ∧
          ∃ st err, _status resp = Val (st, err) ∧ y = statusOrError st err
      | RClose => False
      end
  | Errored _ => True
  | Closed_ok => r = RClose
  end.
Proof. intros H0 Hr Hi. exact (returned_from rd s0 acts s i _ x H0 Hr Hi eq_refl). Qed.
End replies.

(** ** Witness *)

(** A STATUS_RES for the job asked about. *)
Definition status_conn : Reader :=
  mkReader [] [Chunk (frame dtStatusRes
    (str "H:1" ++ x00 :: str "1" ++ x00 :: str "1" ++ x00 :: str "3" ++ x00 :: str "7"))].

Definition asked : list cact :=
  [Call (RStatus (str "H:1")); CheckConn 0; LockSet 0; GetRW 0; Write 0 None;
   RlStep; RlStep; RlRead; RlStep; Process 0; Receive 0].

Definition asked_start : csys :=
  match New_client (H := W64) false status_conn with
  | Val s => s
  | Panics _ => mkC [] None None true [] RlDone p_init [] None
  end.

Definition asked_state : csys := default asked_start (crun (H := W64) false 1 asked asked_start).

Lemma replies_typed_witness :
  ∃ resp, resp ∈ processed (H := W64) false 1 asked asked_start ∧ DataType resp = dtStatusRes ∧
    Handle resp = str "H:1" ∧
    ∃ st err, _status (H := W64) resp = Val (st, err) ∧
      statusOrError (Some (mkStatus (str "H:1") true true 3 7)) None = statusOrError st err.
Proof.
  refine (replies_typed (H := W64) false 1 status_conn asked_start asked asked_state 0
    (RStatus (str "H:1")) (Replied _) _ _ _); vm_compute; reflexivity.
Defined.
