(* ===== verification/ClientStop.v ===== *)
(** * The client's goroutines come to an end: client/client.go

    [readLoop] and [processLoop] move on their own only as long as there is
    something to read or to dispatch: a measure bounds the steps they can take
    before they need a new packet, a dial that succeeds, or a call.  Once [Close]
    has returned they run to their end: [readLoop] returns and closes
    [client.in], and [processLoop] leaves it empty. *)

From S2P Require Import Prelude GoStd Protocol ClientRequest ClientResponse HandlerSlot.
From S2P Require Import ClientWire ClientLoop Client.
Import CC.

(** ** Reading uses something up *)

Lemma read_packet_stream_length s r s' :
  read_packet_stream s = (r, s') →
  length s' ≤ length s ∧ ∀ p, r = Got p → length s' < length s.
Proof.
  intros Hr. split.
  - unfold read_packet_stream in Hr.
    destruct (readfull_stream 12 s) as [[hdr|e|] s1] eqn:Hh;
      pose proof (readfull_stream_length _ _ _ _ Hh) as Hl; simpl in Hl.
    2-3: injection Hr as <- <-; lia.
    case_decide; [injection Hr as <- <-; lia|]. case_decide; [injection Hr as <- <-; lia|].
    case_decide; [|injection Hr as <- <-; lia].
    destruct (readfull_stream _ s1) as [[body|e|] s2] eqn:Hb; injection Hr as <- <-;
      pose proof (readfull_stream_length _ _ _ _ Hb) as Hl2; simpl in Hl2; lia.
  - intros p ->. apply read_packet_stream_whole in Hr as (-> & _ & _ & Hb).
    rewrite length_app, length_fmap. unfold blen in Hb. pose proof (declared_len_range p). lia.
Qed.

(** What is left of a connection this side has closed: the read returns. *)
Lemma read_packet_closed b r s' :
  read_packet_stream ((inl <$> b) ++ [inr use_of_closed]) = (r, s') →
  r ≠ Blocked ∧ length (lead s') ≤ length b ∧ ∀ p, r = Got p → length (lead s') < length b.
Proof.
  assert (∀ n x, readfull_stream n ((inl <$> x) ++ [inr use_of_closed]) =
    if decide (n ≤ length x) then (Got (take n x), (inl <$> drop n x) ++ [inr use_of_closed])
    else (Failed use_of_closed, [])) as Hrf.
  { intros n x. unfold readfull_stream. rewrite lead_app, after_app, app_nil_r. simpl after.
    case_decide; [|done]. by rewrite drop_app_le, fmap_drop by by rewrite length_fmap. }
  unfold read_packet_stream. rewrite Hrf. destruct (decide (12 ≤ length b)) as [Hb|Hb].
  2: { intros [= <- <-]. simpl. split_and!; [done|lia|done]. }
  assert (∀ x, lead ((inl <$> x) ++ [inr use_of_closed]) = x) as Hlead.
  { intros x. by rewrite lead_app, app_nil_r. }
  case_decide; [intros [= <- <-]; rewrite Hlead, length_drop; split_and!; [done|lia|done]|].
  case_decide; [intros [= <- <-]; rewrite Hlead, length_drop; split_and!; [done|lia|done]|].
  case_decide.
  2: { intros [= <- <-]. rewrite Hlead, length_drop. split_and!; [done|lia|intros; lia]. }
  rewrite Hrf. case_decide.
  - intros [= <- <-]. rewrite Hlead, !length_drop. split_and!; [done|lia|intros; lia].
  - intros [= <- <-]. simpl. split_and!; [done|lia|done].
Qed.

(** ** The measure *)

Definition left_in (k : cconn) : nat :=
  if k_open k then length (stream (k_in k)) else length (rbuf (k_in k)).

Definition rank (p : rl_pc) : nat :=
  match p with
  | RlDone => 0
  | RlDial => 1
  | RlConnect => 2
  | RlCheck => 3
  | RlCloseConn => 4
  | RlReading _ => 5
  | RlGetRW => 6
  | RlTop => 7
  | RlSend _ | RlMarker => 9
  | RlPublish _ => 10
  end.

Definition measure (s : csys) : nat :=
  5 * sum_list_with left_in (conns s) + rank (rl s) + length (inq s).

(** The steps [readLoop] and [processLoop] take by themselves; a dial may fail. *)
Definition internal_step (a : cact) : Prop :=
  match a with
  | RlStep | RlRead | RlDialled (inr _) _ | Process _ => True
  | _ => False
  end.

Lemma close_k_left c l : sum_list_with left_in (close_k c l) ≤ sum_list_with left_in l.
Proof.
  unfold close_k. destruct (l !! c) as [k|] eqn:Hk; [|by rewrite list_alter_none].
  pose proof (sum_alter left_in (λ k, mkCConn (k_in k) (k_sent k) false) c l k Hk) as Hs.
  assert (left_in (mkCConn (k_in k) (k_sent k) false) ≤ left_in k); [|lia].
  unfold left_in. simpl. destruct (k_open k); [|done]. unfold stream.
  rewrite length_app, length_fmap. lia.
Qed.

Section stop.
Context `{GoArch}.
Variable want : bool.
Variable ttl : Z.

Lemma client_read_left k r rd :
  readPacket (source k) = Val (r, rd) →
  left_in (consumed k rd) ≤ left_in k ∧
  (∀ p, r = Got p → left_in (consumed k rd) < left_in k) ∧
  (k_open k = false → r ≠ Blocked).
Proof.
  destruct (readPacket_stream (source k)) as (r1 & rd1 & -> & Hs). intros [= -> ->].
  unfold source, consumed, left_in in *. revert Hs. simpl. destruct (k_open k); intros Hs.
  - destruct (read_packet_stream_length _ _ _ Hs) as [Hle Hlt]. by split_and!; [|exact Hlt|].
  - unfold stream at 1 in Hs. simpl in Hs. apply read_packet_closed in Hs as (? & ? & Hp).
    pose proof (rbuf_lead rd). simpl. split_and!; [lia| |done]. intros p Hr. specialize (Hp p Hr). lia.
Qed.

Lemma client_measure a s s' :
  internal_step a → do_cact want ttl a s = Some s' → measure s' < measure s.
Proof.
  intros Hint Ha. unfold measure.
  destruct a as [| | | | | | | | | | |[|e]|]; try done; simpl in Ha.
  - unfold rl_step in Ha. destruct (rl s) eqn:Hrl; try done;
      try (unfold in_send in Ha; case_decide; [|done]); injection Ha as <-; cbn [rl conns inq set_rl set_inq].
    + destruct (closed s); simpl; lia.
    + destruct (rw s); simpl; lia.
    + rewrite length_app. simpl. lia.
    + pose proof (closeConn_conn s) as _. unfold closeConn. destruct (conn s) as [c|]; simpl; [|lia].
      pose proof (close_k_left c (conns s)). lia.
    + destruct (closed s); simpl; lia.
    + destruct (closed s); simpl; lia.
    + unfold rl_publish, setConn. destruct (closed s); simpl.
      * pose proof (close_k_left c (conns s)). lia.
      * destruct want; simpl; lia.
    + rewrite length_app. simpl. lia.
  - destruct (rl s) as [| |c| | | | | | | |] eqn:Hrl; try done. unfold rl_read in Ha.
    destruct (conns s !! c) as [k|] eqn:Hk; [|done]. simpl in Ha.
    destruct (readPacket (source k)) as [[r rd]|] eqn:Hr; [|done].
    destruct (client_read_left _ _ _ Hr) as (Hle & Hlt & _).
    pose proof (sum_insert left_in _ _ _ (consumed k rd) Hk) as Hsum. destruct r as [packet|e|]; [| |done].
    + specialize (Hlt _ eq_refl).
      destruct (decodeResponse packet) as [[[[resp|] ?] [e|]]|]; try done; injection Ha as <-;
        cbn [rl conns inq set_rl set_conns report set_ps rank]; lia.
    + injection Ha as <-. assert (∀ s0, conns (report_read e s0) = conns s0 ∧ inq (report_read e s0) = inq s0) as Hrr.
      { intros s0. unfold report_read. by repeat case_match. }
      cbn [rl conns inq set_rl rank]. rewrite (proj1 (Hrr _)), (proj2 (Hrr _)). cbn [conns inq set_conns]. lia.
  - destruct (rl s) eqn:Hrl; try done. unfold rl_dial in Ha. injection Ha as <-. simpl. lia.
  - destruct (inq s) as [|resp q] eqn:Hq; [done|]. destruct (process now resp (ps s)); [|done].
    injection Ha as <-. simpl. lia.
Qed.

Lemma client_internal_run acts s s' :
  Forall internal_step acts → crun want ttl acts s = Some s' → length acts + measure s' ≤ measure s.
Proof.
  intros Hall. revert s. induction Hall as [|a acts Ha _ IH]; intros s Hr; simpl in Hr.
  { simplify_eq. simpl. lia. }
  destruct (do_cact want ttl a s) as [s1|] eqn:E; [|done]. simpl in Hr. specialize (IH _ Hr).
  apply client_measure in E; [|done]. simpl. lia.
Qed.

(** ** At the end *)

(** [readLoop] reads a connection that was dialled. *)
Definition reads_known (s : csys) : Prop := ∀ c, rl s = RlReading c → c < length (conns s).

Lemma do_cact_reads a s s' :
  do_cact want ttl a s = Some s' → winv s → reads_known s → reads_known s'.
Proof.
  intros Ha Hw Hs.
  assert (∀ s1, rl s1 = rl s → length (conns s) ≤ length (conns s1) → reads_known s1) as Hk.
  { intros s1 E Hl c Hc. rewrite E in Hc. specialize (Hs c Hc). lia. }
  assert (∀ s1, (∀ c, rl s1 ≠ RlReading c) → reads_known s1) as Hn.
  { intros s1 Hne c Hc. by destruct (Hne c). }
  destruct a; simpl in Ha;
    try (destruct (callers s !! i) as [c|] eqn:Hi; [|done]; simpl in Ha; destruct (cl_pc c) eqn:Hpc; try done).
  - injection Ha as <-. by apply Hk.
  - injection Ha as <-. unfold check_conn. destruct (cl_req c); by apply Hk.
  - destruct (mutex s); [done|]. injection Ha as <-. unfold lock_set. destruct (register _ _ _). by apply Hk.
  - injection Ha as <-. unfold get_rw. destruct (rw s); by apply Hk.
  - unfold do_write in Ha. destruct (conns s !! c0) as [kc|]; [|done]. simpl in Ha.
    destruct (packet_of _); [|done]. destruct err; [injection Ha as <-; by apply Hk|].
    destruct (k_open kc); [|done]. injection Ha as <-. apply Hk; [done|]. simpl. by rewrite length_insert.
  - unfold receive in Ha. destruct (recv i (ps s)) as [[x p]|]; [|done]. injection Ha as <-. by apply Hk.
  - injection Ha as <-. unfold time_out. destruct (cl_req c); by apply Hk.
  - injection Ha as <-. apply Hk; simpl; [apply closeConn_conn|].
    unfold closeConn, close_k. destruct (conn s); simpl; [by rewrite length_alter|done].
  - injection Ha as <-. apply Hk; simpl; [apply closeConn_conn|].
    unfold closeConn, close_k. destruct (conn s); simpl; [by rewrite length_alter|done].
  - destruct (conns s !! c); [|done]. injection Ha as <-. apply Hk; [done|]. simpl. by rewrite length_insert.
  - unfold rl_step in Ha. destruct (rl s) eqn:Hrl; try done;
      try (unfold in_send in Ha; case_decide; [|done]); injection Ha as <-.
    + apply Hn. intros c. simpl. by destruct (closed s).
    + intros c. simpl. destruct (rw s) as [k|] eqn:Hrw; [|done]. intros [= <-]. by apply (wi_rw s Hw).
    + by apply Hn.
    + by apply Hn.
    + apply Hn. intros c. simpl. by destruct (closed s).
    + apply Hn. intros c. simpl. by destruct (closed s).
    + apply Hn. intros c'. unfold rl_publish, setConn. destruct (closed s), want; done.
    + by apply Hn.
  - destruct (rl s); try done. unfold rl_read in Ha. destruct (conns s !! c) as [k|]; [|done].
    simpl in Ha. destruct (readPacket (source k)) as [[r rd]|]; [|done].
    destruct r as [packet|e|]; [|injection Ha as <-; by apply Hn|done].
    by destruct (decodeResponse packet) as [[[[resp|] ?] [e|]]|]; try done; injection Ha as <-; apply Hn.
  - destruct (rl s); try done. unfold rl_dial in Ha. destruct d as [rd|e]; [|injection Ha as <-; by apply Hn].
    destruct (dialled want rd); [|done]. destruct werr; [destruct want; [|done]|]; injection Ha as <-; by apply Hn.
  - destruct (inq s) as [|resp q]; [done|]. destruct (process now resp (ps s)); [|done].
    injection Ha as <-. by apply Hk.
Qed.

Lemma creachable_reads s : creachable want ttl s → winv s ∧ reads_known s.
Proof.
  apply (creachable_ind want ttl (λ s, winv s ∧ reads_known s)).
  - intros rd s0 Hn. split; [apply (creachable_winv want ttl); by exists rd, s0, []|].
    apply New_client_eq in Hn as (k & _ & ->). by intros c.
  - intros a s1 s2 Ha [Hw Hr]. split; [by eapply do_cact_winv|by eapply do_cact_reads].
Qed.

(** A read on a closed connection returns, and what it got is decoded. *)
Lemma closed_read_enabled c k s :
  conns s !! c = Some k → k_open k = false → rl_read c s ≠ None.
Proof.
  intros Hk Ho. unfold rl_read. rewrite Hk. simpl.
  destruct (readPacket_stream (source k)) as (r & rd & E & Hs). rewrite E.
  destruct (client_read_left _ _ _ E) as (_ & _ & Hb). specialize (Hb Ho).
  destruct r as [packet|e|]; [|done..].
  apply read_packet_stream_whole in Hs as (_ & _ & Hl & _).
  rewrite decodeResponse_spec; [|apply limit_safe; pose proof (declared_len_range packet); lia].
  unfold decode_meaning. case_decide; [done|]. by destruct (body_meaning _ _).
Qed.

Lemma stuck_done s :
  p_wf (ps s) → ainv s → reads_known s → conn s = None →
  (∀ a, internal_step a → do_cact want ttl a s = None) → rl s = RlDone ∧ inq s = [].
Proof.
  intros Hp Ha Hr Hc Hstuck.
  assert (inq s = []) as Hq.
  { specialize (Hstuck (Process 0) I). simpl in Hstuck. destruct (inq s) as [|resp q]; [done|].
    destruct (process_wf 0 resp (ps s) Hp) as (p & E & _). by rewrite E in Hstuck. }
  split; [|done]. pose proof (Hstuck RlStep I) as Hstep. pose proof (Hstuck RlRead I) as Hread.
  pose proof (Hstuck (RlDialled (inr EOF) None) I) as Hdial.
  simpl in Hstep, Hread, Hdial. unfold rl_step, in_send in Hstep. rewrite Hq in Hstep.
  destruct (rl s) as [| |c| | | | | | | |] eqn:Hrl; try done. exfalso.
  destruct (lookup_lt_is_Some_2 (conns s) c (Hr c Hrl)) as [k Hk].
  destruct (k_open k) eqn:Ho; [|by apply (closed_read_enabled c k s)].
  destruct (ai_open s Ha c k Hk Ho) as [E|E]; congruence.
Qed.

(** C14: the client's goroutines terminate.  From any reachable state [readLoop]
    and [processLoop], however they are scheduled, take at most [measure] steps
    before they need a new packet, a successful dial or a call from outside; and
    when a [Close] has returned they cannot get stuck before [readLoop] is done
    and [processLoop] has emptied [client.in]. *)
Theorem client_shuts_down rd s0 acts0 s acts s' :
  New_client want rd = Val s0 → crun want ttl acts0 s0 = Some s →
  Forall internal_step acts → crun want ttl acts s = Some s' →
  (Z.of_nat (length (acts0 ++ acts)) < 2 ^ 64)%Z →
  length acts ≤ measure s ∧
  ∀ i c, callers s' !! i = Some c → cl_pc c = CReturned Closed_ok →
    (∀ a, internal_step a → do_cact want ttl a s' = None) → rl s' = RlDone ∧ inq s' = [].
Proof.
  intros Hn Hr0 Hint Hr Hlen. split; [apply client_internal_run in Hr; [lia|done]|].
  assert (crun want ttl (acts0 ++ acts) s0 = Some s') as Hall.
  { clear -Hr0 Hr. revert s0 Hr0. induction acts0 as [|a acts0 IH]; intros s0 Hr0; simpl in *.
    - by simplify_eq.
    - destruct (do_cact want ttl a s0); [|done]. simpl in *. by apply IH. }
  assert (creachable want ttl s') as Hre by by exists rd, s0, (acts0 ++ acts).
  destruct (creachable_reads s' Hre) as [_ Hrk]. pose proof (creachable_ainv _ _ _ Hre) as Hai.
  assert (p_wf (ps s')) as Hwf.
  { eapply (hinv_p_wf (0 + length (acts0 ++ acts))).
    eapply (crun_hinv want ttl _ 0); [by eapply New_client_hinv|lia|done]. }
  intros i c Hi Hpc Hstuck. apply stuck_done; try done. by eapply (ai_closed s' Hai).
Qed.
End stop.

(** ** Witness *)

(** [Close] while [readLoop] is inside a read, with a packet and a half in its
    buffer. *)
Definition closing_conn : Reader := mkReader [] [Chunk (frame dtEchoRes [] ++ frame dtEchoRes [] ++ str "half")].

Definition closing_acts : list cact :=
  [RlStep; RlStep; RlRead; RlStep; RlStep; RlStep; Call RClose; CheckConn 0; CloseConn 0].

Definition leaving : list cact :=
  [RlRead; RlStep; Process 0; RlStep; Process 0].

Definition client_at (acts : list cact) : csys :=
  default (mkC [] None None true [] RlDone p_init [] None)
    (match New_client (H := W64) false closing_conn with
     | Val s => crun (H := W64) false 1 acts s
     | Panics _ => None
     end).

Lemma client_shuts_down_witness :
  length leaving ≤ measure (client_at closing_acts) ∧
  rl (client_at (closing_acts ++ leaving)) = RlDone ∧ inq (client_at (closing_acts ++ leaving)) = [].
Proof.
  split; [|split; vm_compute; reflexivity].
  refine (proj1 (client_shuts_down (H := W64) false 1 closing_conn (client_at []) closing_acts
    (client_at closing_acts) leaving (client_at (closing_acts ++ leaving)) _ _ _ _ _)).
  - vm_compute. reflexivity.
  - vm_compute. reflexivity.
  - by repeat constructor.
  - vm_compute. reflexivity.
  - vm_compute. reflexivity.
Defined.
