(* ===== verification/ClientTimer.v ===== *)
(** * The shared response timer: [startTimer] and [stopTimer] of client/client.go

    [do], [Status] and [Echo] wait for their reply against one [time.Timer] that
    is created once and reset for every call.  The calls hold [client.Mutex], so
    they wait one after the other, but the timer fires on its own: a reply may
    race the fire.  The model has the clock, the timer of the Go runtime and the
    waits in sequence.  Before Go 1.23 a value already sent on the timer's
    channel survived [Reset] and [Stop]; since 1.23 both discard it.  go.mod asks
    for 1.23, and the two theorems say why it has to. *)

From S2P Require Import Prelude GoStd.

(** Which timers the Go release has. *)
Inductive go_release := Before_1_23 | Since_1_23.

(** A [time.Timer]: when it will fire, and whether its channel holds a value. *)
Record Timer := mkTimer { t_when : option Z; t_sent : bool }.

Definition NewTimer (now d : Z) : Timer := mkTimer (Some (now + d)%Z) false.

(** What becomes of a value already sent. *)
Definition kept (r : go_release) (t : Timer) : bool :=
  match r with Before_1_23 => t_sent t | Since_1_23 => false end.

Definition Reset (r : go_release) (now d : Z) (t : Timer) : Timer :=
  mkTimer (Some (now + d)%Z) (kept r t).
Definition Stop (r : go_release) (t : Timer) : Timer := mkTimer None (kept r t).

(** [client.startTimer()] and [client.stopTimer()], on the field [timer]. *)
Definition startTimer (r : go_release) (now timeout : Z) (timer : option Timer) : option Timer :=
  match timer with
  | None => Some (NewTimer now timeout)
  | Some t => Some (Reset r now timeout t)
  end.
Definition stopTimer (r : go_release) (timer : option Timer) : option Timer := Stop r <$> timer.

(** A wait: when it began and with which [ResponseTimeout], or how it ended. *)
Record wait := mkWait { w_start : Z; w_timeout : Z }.
Inductive ended := Got_reply (w : wait) (at_ : Z) | Timed_out (w : wait) (at_ : Z).

Record tsys := mkT { clock : Z; timer : option Timer; waits : option wait; past : list ended }.

Inductive tact :=
| Pass (d : nat)
| Fire
| Begin (timeout : Z)
| Reply
| Tick.

(** One step; [Tick] is the [case <-timeout] of the select, and the deferred
    [stopTimer] runs before the mutex is released. *)
Definition do_tact (r : go_release) (a : tact) (s : tsys) : option tsys :=
  match a with
  | Pass d => Some (mkT (clock s + Z.of_nat d) (timer s) (waits s) (past s))
  | Fire =>
      t ← timer s; w ← t_when t;
      if decide (w ≤ clock s)%Z
      then Some (mkT (clock s) (Some (mkTimer None true)) (waits s) (past s)) else None
  | Begin d =>
      match waits s with
      | Some _ => None
      | None => Some (mkT (clock s) (startTimer r (clock s) d (timer s)) (Some (mkWait (clock s) d)) (past s))
      end
  | Reply =>
      w ← waits s;
      Some (mkT (clock s) (stopTimer r (timer s)) None (past s ++ [Got_reply w (clock s)]))
  | Tick =>
      w ← waits s; t ← timer s;
      if t_sent t
      then Some (mkT (clock s) (stopTimer r (Some (mkTimer (t_when t) false))) None
                   (past s ++ [Timed_out w (clock s)]))
      else None
  end.

Fixpoint trun (r : go_release) (acts : list tact) (s : tsys) : option tsys :=
  match acts with
  | [] => Some s
  | a :: acts => s ← do_tact r a s; trun r acts s
  end.

(** A client that has not waited yet. *)
Definition tinit (now : Z) : tsys := mkT now None None [].

(** A call that gave up waited for its whole timeout. *)
Definition patient (e : ended) : Prop :=
  match e with Timed_out w t => (w_start w + w_timeout w ≤ t)%Z | Got_reply _ _ => True end.

(** ** With the timers of Go 1.23 *)

(** Between calls the timer is quiet; during a call it will fire for it, or has. *)
Definition tinv (s : tsys) : Prop :=
  Forall patient (past s) ∧
  match waits s with
  | None => match timer s with None => True | Some t => t = mkTimer None false end
  | Some w =>
      ∃ t, timer s = Some t ∧
        ((t = mkTimer (Some (w_start w + w_timeout w)%Z) false) ∨
         (t = mkTimer None true ∧ (w_start w + w_timeout w ≤ clock s)%Z))
  end.

Lemma do_tact_tinv a s s' : do_tact Since_1_23 a s = Some s' → tinv s → tinv s'.
Proof.
  destruct s as [now tm wt ps]. unfold tinv. simpl. intros Ha [Hp Ht]. destruct a; simpl in Ha.
  - injection Ha as <-. simpl. split; [done|]. destruct wt as [w|]; [|done].
    destruct Ht as (t & -> & [->|[-> ?]]); (eexists; split; [reflexivity|]); [by left|right]. split; [done|lia].
  - destruct tm as [t|]; [|done]. simpl in Ha. destruct (t_when t) as [x|] eqn:Hx; [|done]. simpl in Ha.
    destruct (decide _); [|done]. injection Ha as <-. simpl. split; [done|].
    destruct wt as [w|]; [|by subst t]. destruct Ht as (t' & [= <-] & [->|[-> _]]); [|done].
    injection Hx as <-. eexists. split; [reflexivity|]. right. done.
  - destruct wt; [done|]. injection Ha as <-. simpl. split; [done|].
    destruct tm; (eexists; split; [reflexivity|by left]).
  - destruct wt as [w|]; [|done]. injection Ha as <-. simpl. split.
    + apply Forall_app. split; [done|]. by repeat constructor.
    + destruct Ht as (t & -> & _). done.
  - destruct wt as [w|]; [|done]. simpl in Ha. destruct Ht as (t & -> & Ht). simpl in Ha.
    destruct (t_sent t) eqn:Hs; [|done]. injection Ha as <-. simpl. split; [|done].
    apply Forall_app. split; [done|]. repeat constructor. simpl.
    destruct Ht as [->|[-> ?]]; done.
Qed.

Lemma trun_tinv acts s s' : trun Since_1_23 acts s = Some s' → tinv s → tinv s'.
Proof.
  revert s. induction acts as [|a acts IH]; intros s Hr Hs; simpl in Hr; [by simplify_eq|].
  destruct (do_tact Since_1_23 a s) as [s1|] eqn:E; [|done]. simpl in Hr.
  eapply IH; [done|]. by eapply do_tact_tinv.
Qed.

(** C18: sharing the timer is safe.  In any sequence of calls with any timeouts,
    replies racing the timer included, a call gives up only when its own timeout
    has passed since it began to wait; and a call still waiting then is woken:
    its timer has fired, or can. *)
Theorem timeouts_are_own now acts s :
  trun Since_1_23 acts (tinit now) = Some s →
  Forall patient (past s) ∧
  ∀ w, waits s = Some w → (w_start w + w_timeout w ≤ clock s)%Z →
    is_Some (do_tact Since_1_23 Tick s) ∨ is_Some (do_tact Since_1_23 Fire s).
Proof.
  intros Hr. assert (tinv s) as [Hp Ht] by (eapply trun_tinv; [exact Hr|by split]).
  split; [done|]. intros w Hw Hc. rewrite Hw in Ht. destruct Ht as (t & Et & [->|[-> _]]); simpl; rewrite Et.
  - right. simpl. rewrite decide_True by done. by eexists.
  - left. rewrite Hw. simpl. by eexists.
Qed.

(** ** Before Go 1.23 *)

(** The reply and the fire race: the reply wins, the value stays in the channel. *)
Definition stale_tick : list tact := [Begin 1; Pass 1; Fire; Reply; Begin 1000; Tick].

(** With older timers a call inherits the tick of the one before.  The same
    code before Go 1.23 lets the second call time out at once, although it asked
    to wait for a thousand units. *)
Theorem stale_tick_before_1_23 :
  ∃ s, trun Before_1_23 stale_tick (tinit 0) = Some s ∧ ¬ Forall patient (past s) ∧
    past s !! 1 = Some (Timed_out (mkWait 1 1000) 1) ∧
    trun Since_1_23 stale_tick (tinit 0) = None.
Proof.
  eexists. split; [vm_compute; reflexivity|]. split_and!; [|done|done].
  intros [_ [Hf _]%Forall_cons_1]%Forall_cons_1. simpl in Hf. lia.
Qed.

(** ** Witness *)

Lemma timeouts_are_own_witness :
  ∃ s, trun Since_1_23 [Begin 5; Pass 3; Reply; Begin 5; Pass 6; Fire; Tick] (tinit 0) = Some s ∧
    Forall patient (past s) ∧ length (past s) = 2.
Proof.
  eexists. split; [vm_compute; reflexivity|]. split; [|reflexivity].
  refine (proj1 (timeouts_are_own 0 [Begin 5; Pass 3; Reply; Begin 5; Pass 6; Fire; Tick] _ _)).
  vm_compute. reflexivity.
Defined.
