(* ===== verification/ClientApp.v ===== *)
(** * Using a client: [New], [Do], [DoBg] and the error handler

    Client.v has every goroutine of a client; here is what a program puts around
    it: the options of [New], the error handler, replaced at any time, that the
    goroutines' errors go to, and [Do] and [DoBg], which draw the unique id of a
    job from the package's [IdGen], a global shared by all clients of the
    process.  The generator is an interface in the code and a class here; the
    interface promises nothing about the ids, the default generator [autoincId]
    is shown to give each job one of its own. *)

From S2P Require Import Prelude GoStd Protocol ClientRequest ClientResponse HandlerSlot.
From S2P Require Import ClientWire IdGen ClientLoop Client.
Import CC.

(** ** The interface *)

(** [type IdGenerator interface] *)
Class IdGenerator (G : Type) := next_id : G → bytes * G.

Fixpoint drawn {G} `{IdGenerator G} (n : nat) (g : G) : list bytes :=
  match n with
  | O => []
  | S n => let '(id, g) := next_id g in id :: drawn n g
  end.

#[export] Instance autoincId_generator : IdGenerator autoincId := Id.

Lemma drawn_draw n (ai : autoincId) : drawn n ai = draw n ai.
Proof. revert ai. induction n as [|n IH]; intros ai; simpl; [done|]. by rewrite IH. Qed.

Lemma length_draw n ai : length (draw n ai) = n.
Proof. revert ai. induction n as [|n IH]; intros ai; simpl; [done|]. by rewrite IH. Qed.

(** The default generator: distinct counter values, modulo [2^64], print
    differently, and what is printed can be used as an id. *)
Lemma autoincId_unique n (ai : autoincId) :
  (Z.of_nat n ≤ 2 ^ 64)%Z →
  NoDup (drawn n ai) ∧ Forall (λ id, id ≠ [] ∧ x00 ∉ id) (drawn n ai).
Proof.
  intros Hn. split; rewrite drawn_draw.
  - apply NoDup_alt. intros i j a Hi Hj. pose proof (lookup_lt_Some _ _ _ Hi) as Li.
    pose proof (lookup_lt_Some _ _ _ Hj) as Lj. rewrite length_draw in Li, Lj.
    rewrite draw_lookup in Hi, Hj by done. injection Hi as <-. injection Hj as Hj.
    apply FormatInt_inj, int64_eq in Hj.
    assert (∃ q, Z.of_nat i - Z.of_nat j = q * 2 ^ 64)%Z as [q Hq].
    { apply Z.mod_divide; [lia|].
      replace (Z.of_nat i - Z.of_nat j)%Z
        with ((value ai + 1 + Z.of_nat i) - (value ai + 1 + Z.of_nat j))%Z by lia.
      rewrite Zminus_mod, Hj, Z.sub_diag. done. }
    assert (q = 0)%Z by nia. lia.
  - apply Forall_lookup. intros i a Hi. pose proof (lookup_lt_Some _ _ _ Hi) as Li.
    rewrite length_draw in Li. rewrite draw_lookup in Hi by done. simplify_eq.
    split; [apply FormatInt_nonempty|apply FormatInt_no_nul].
Qed.

(** ** The program's view *)

(** [type Option func( *Client)]: the only one there is. *)
Inductive Option := WithErrorHandler (h : option nat).

(** A client, its error handler and what it was called with, the package's
    generator, the calls made with a drawn id, and the ids other clients of the
    process have drawn meanwhile. *)
Record App (G : Type) := mkApp {
  client : csys;
  errorHandler : option nat;
  delivered : list (nat * error);
  gen : G;
  auto : list (nat * bytes);
  others : list bytes
}.
Arguments mkApp {G}. Arguments client {G}. Arguments errorHandler {G}.
Arguments delivered {G}. Arguments gen {G}. Arguments auto {G}. Arguments others {G}.

(** [SetErrorHandler(h)], and the options in the order given. *)
Definition SetErrorHandler {G} (h : option nat) (a : App G) : App G :=
  mkApp (client a) h (delivered a) (gen a) (auto a) (others a).

Definition apply_options (opts : list Option) : option nat :=
  fold_left (λ _ o, match o with WithErrorHandler h => h end) opts None.

Inductive aact :=
| AClient (a : cact)
| ASetErrorHandler (h : option nat)
| ADo (funcname data : bytes) (flag : Z) (h : option nat)
| ADoBg (funcname data : bytes) (flag : Z)
| ADrawElsewhere.

Section app.
Context `{GoArch} {G : Type} `{IdGenerator G}.
Variable want : bool.
Variable ttl : Z.

(** [New(network, addr, opts...)]: its dial and the error of its handshake write
    are given; either error is returned and nothing is started. *)
Definition New (opts : list Option) (d : Reader + error) (werr : option error) (g : G) :
    outcome (App G + error) :=
  match d with
  | inr e => mret (inr e)
  | inl rd =>
      match (if want then werr else None) with
      | Some e => mret (inr e)
      | None => s ← New_client want rd; mret (inl (mkApp s (apply_options opts) [] g [] []))
      end
  end.

(** What the goroutines report in a step goes to the handler there is. *)
Definition report_to (h : option nat) (s s' : csys) : list (nat * error) :=
  match h with
  | None => []
  | Some h => (λ e, (h, e)) <$> drop (length (errors (ps s))) (errors (ps s'))
  end.

(** [Do] and [DoBg]: the next id, then [DoWithId] or [DoBgWithId]. *)
Definition call_with_id (r : bytes → request) (a : App G) : option (App G) :=
  let '(id, g) := next_id (gen a) in
  s ← do_cact want ttl (Call (r id)) (client a);
  Some (mkApp s (errorHandler a) (delivered a) g (auto a ++ [(length (callers (client a)), id)])
          (others a)).

Definition do_aact (x : aact) (a : App G) : option (App G) :=
  match x with
  | AClient c =>
      s ← do_cact want ttl c (client a);
      Some (mkApp s (errorHandler a) (delivered a ++ report_to (errorHandler a) (client a) s)
              (gen a) (auto a) (others a))
  | ASetErrorHandler h => Some (SetErrorHandler h a)
  | ADo f d flag h => call_with_id (DoWithId f d flag h) a
  | ADoBg f d flag => call_with_id (DoBgWithId f d flag) a
  | ADrawElsewhere =>
      let '(id, g) := next_id (gen a) in
      Some (mkApp (client a) (errorHandler a) (delivered a) g (auto a) (others a ++ [id]))
  end.

Fixpoint arun (xs : list aact) (a : App G) : option (App G) :=
  match xs with
  | [] => Some a
  | x :: xs => a ← do_aact x a; arun xs a
  end.

(** ** Ids *)

Definition id_of (r : request) : option bytes :=
  match r with RDo _ _ _ id _ _ => Some id | _ => None end.

(** The calls with a drawn id, the ids drawn elsewhere, and where the generator
    stands. *)
Definition ids_inv (g0 : G) (n : nat) (a : App G) : Prop :=
  (snd <$> auto a) ++ others a ≡ₚ drawn n g0 ∧
  (∀ m, drawn (n + m) g0 = drawn n g0 ++ drawn m (gen a)) ∧
  Forall (λ x, ∃ c, callers (client a) !! x.1 = Some c ∧ id_of (cl_req c) = Some x.2) (auto a).

Definition draws (x : aact) : nat :=
  match x with ADo _ _ _ _ | ADoBg _ _ _ | ADrawElsewhere => 1 | _ => 0 end.
Definition own_draws (x : aact) : nat :=
  match x with ADo _ _ _ _ | ADoBg _ _ _ => 1 | _ => 0 end.

(** ** What no action of a client does *)

Definition grows (p p' : pstate) : Prop := errors p `prefix_of` errors p'.

#[local] Instance grows_preorder : PreOrder grows.
Proof. split; unfold grows; [by intros p|]. intros p1 p2 p3. apply transitivity. Qed.

Lemma deliver_errors h resp nilmap p p' : deliver h resp nilmap p = Val p' → errors p' = errors p.
Proof.
  unfold deliver. destruct (internal h) as [i|]; [|by intros [= <-]].
  rewrite outcome_bind_Val. intros (p1 & E1 & E2).
  assert (errors p1 = errors p) as <-.
  { destruct (external h); [|by injection E1 as <-].
    destruct (decide (Handle resp ≠ [])); [|by injection E1 as <-].
    destruct nilmap; [done|by injection E1 as <-]. }
  destruct i; simpl in E2.
  - case_decide; by injection E2 as <-.
  - by injection E2 as <-.
  - apply outcome_bind_Val in E2 as ([st se] & _ & [= <-]). done.
Qed.

Lemma dispatch_errors now resp p p' : dispatch now resp p = Val p' → grows p p'.
Proof.
  unfold dispatch, grows. cbv zeta. case_decide; [intros [= <-]; by apply prefix_app_r|].
  case_decide; [by intros [= <-]|]. case_decide; [by intros ->%deliver_errors|].
  case_decide; [destruct (slot_take now (created p)); by intros ->%deliver_errors|].
  case_decide; [destruct (slot_take now (echo p)); by intros ->%deliver_errors|].
  destruct (work_update (DataType resp)), (work_terminal (DataType resp)), (rhandlers p !! Handle resp);
    by intros [= <-].
Qed.

Lemma process_errors now resp p p' : process now resp p = Val p' → grows p p'.
Proof.
  assert (∀ b ex, grows p (set_negotiation b ex p)) as Hn by (intros; unfold grows; reflexivity).
  unfold process. case_decide; [by intros [= <-]|]. destruct (optionPending p); [|apply dispatch_errors].
  case_decide; [by intros [= <-]|]. case_decide; [by intros [= <-]|].
  intros E. etrans; [apply Hn|]. by eapply dispatch_errors.
Qed.

(** It changes no request and no call that has returned, [Call] adding one; it
    takes no error back; and it gives a closed client no connection. *)
Definition calls_kept (n : nat) (s s' : csys) : Prop :=
  length (callers s') = length (callers s) + n ∧
  ∀ i c, callers s !! i = Some c →
    ∃ c', callers s' !! i = Some c' ∧ cl_req c' = cl_req c ∧ ((∃ r, cl_pc c = CReturned r) → c' = c).

Definition stays_dead (s s' : csys) : Prop :=
  closed s = true → conn s = None → closed s' = true ∧ conn s' = None.

Record steady (n : nat) (s s' : csys) : Prop := {
  st_calls : calls_kept n s s';
  st_errors : grows (ps s) (ps s');
  st_dead : stays_dead s s'
}.

Definition calls (a : cact) : nat := match a with Call _ => 1 | _ => 0 end.

Lemma same_steady s s' :
  callers s' = callers s → grows (ps s) (ps s') → stays_dead s s' → steady 0 s s'.
Proof.
  intros E. split; [|done..]. split; [rewrite E; lia|]. intros i c Hc. exists c. by rewrite E.
Qed.

Lemma set_caller_steady j x p s s' :
  callers s !! j = Some x → (∀ r, cl_pc x ≠ CReturned r) →
  callers s' = alter (λ c, mkCaller (cl_req c) p) j (callers s) →
  errors (ps s') = errors (ps s) → stays_dead s s' → steady 0 s s'.
Proof.
  intros Hx Hp E Ee. split; [|unfold grows; by rewrite Ee|done]. split; [rewrite E, length_alter; lia|].
  intros i c Hc. rewrite E, list_lookup_alter. case_decide as Hij; [|by eauto].
  subst j. rewrite Hc in Hx. injection Hx as ->. rewrite Hc. exists (mkCaller (cl_req x) p).
  split_and!; [done..|]. intros [r Hr]. by destruct (Hp r).
Qed.

Lemma closeConn_errors s : errors (ps (closeConn s)) = errors (ps s).
Proof. unfold closeConn. by destruct (conn s). Qed.

Lemma closeConn_dead s s' : closed s' = closed s → conn s' = conn (closeConn s) → stays_dead s s'.
Proof. intros E1 E2 Hcl _. rewrite E1, E2. split; [done|]. apply closeConn_conn. Qed.

(** The steps of the read loop leave the callers alone. *)
Lemma rl_step_steady s s' : rl_step want s = Some s' → steady 0 s s'.
Proof.
  intros Ha. unfold rl_step in Ha.
  destruct (rl s); try done; try (unfold in_send in Ha; case_decide; [|done]); injection Ha as <-;
    try by apply same_steady.
  - destruct (closeConn_conn s) as (E1 & _ & E2 & E3 & _). apply same_steady; [done| |].
    + unfold grows. simpl. by rewrite closeConn_errors.
    + by apply closeConn_dead.
  - apply same_steady; unfold rl_publish, setConn; [by destruct (closed s)..|].
    intros Hcl. by rewrite Hcl.
Qed.

Lemma do_cact_steady a s s' : do_cact want ttl a s = Some s' → steady (calls a) s s'.
Proof.
  assert (∀ e p, grows p (client_err e p)) as Herr by (intros; by apply prefix_app_r).
  assert (∀ r t p, errors (unregister r t p) = errors p) as Hun by by intros [].
  intros Ha. destruct a; simpl in Ha;
    try (destruct (callers s !! i) as [x|] eqn:Hx; [|done]; simpl in Ha; destruct (cl_pc x) eqn:Hpc; try done;
         assert (∀ r, cl_pc x ≠ CReturned r) as Hnr by (intros ?; congruence);
         pose proof (λ p s', set_caller_steady i x p s s' Hx Hnr) as Hset).
  - injection Ha as <-. split; [|done..]. split; [apply length_app|]. intros i c Hc. exists c.
    split; [|done]. by apply lookup_app_l_Some.
  - injection Ha as <-. unfold check_conn. destruct (cl_req x); by eapply Hset.
  - destruct (mutex s); [done|]. injection Ha as <-. unfold lock_set.
    assert (errors (register i (cl_req x) (ps s)).2 = errors (ps s)) as E by by destruct (cl_req x).
    destruct (register _ _ _) as [t p]. by eapply Hset.
  - injection Ha as <-. unfold get_rw. destruct (rw s); eapply Hset; try done. simpl. by rewrite Hun.
  - unfold do_write in Ha. destruct (conns s !! c); [|done]. simpl in Ha. destruct (packet_of _); [|done].
    destruct err; [injection Ha as <-; eapply Hset; try done; simpl; by rewrite Hun|].
    destruct (k_open _); [|done]. injection Ha as <-. by eapply Hset.
  - unfold receive, recv in Ha. destruct (chans (ps s) !! i) as [[|]|]; try done. injection Ha as <-.
    by eapply Hset.
  - injection Ha as <-. unfold time_out. destruct (cl_req x); by eapply Hset.
  - injection Ha as <-. destruct (closeConn_conn s) as (_ & _ & E2 & E3 & _).
    eapply Hset; [by simpl; rewrite E3|apply closeConn_errors|by apply closeConn_dead].
  - injection Ha as <-. destruct (closeConn_conn s) as (_ & _ & E2 & E3 & _).
    eapply Hset; [by simpl; rewrite E3|apply closeConn_errors|by apply closeConn_dead].
  - destruct (conns s !! c); [|done]. injection Ha as <-. by apply same_steady.
  - by apply rl_step_steady.
  - destruct (rl s); try done. unfold rl_read in Ha. destruct (conns s !! c); [|done].
    simpl in Ha. destruct (readPacket _) as [[r0 rd]|]; [|done]. destruct r0 as [packet|e|]; [| |done].
    + destruct (decodeResponse packet) as [[[[resp|] ?] [e|]]|]; try done; injection Ha as <-;
        apply same_steady; try done; apply Herr.
    + injection Ha as <-. unfold report_read. repeat case_match; apply same_steady; try done; apply Herr.
  - destruct (rl s); try done. unfold rl_dial in Ha.
    destruct d; [|injection Ha as <-; apply same_steady; try done; apply Herr].
    destruct (dialled want _); [|done].
    destruct werr; [destruct want; [|done]|]; injection Ha as <-; apply same_steady; try done.
    + apply Herr.
    + unfold grows. by destruct want.
  - destruct (inq s); [done|]. destruct (process _ _ _) eqn:E; [|done]. injection Ha as <-.
    apply same_steady; try done. by eapply process_errors.
Qed.

Lemma drawn_next (g0 : G) n g id g' :
  (∀ m, drawn (n + m) g0 = drawn n g0 ++ drawn m g) → next_id g = (id, g') →
  drawn (S n) g0 = drawn n g0 ++ [id] ∧
  ∀ m, drawn (S n + m) g0 = drawn (S n) g0 ++ drawn m g'.
Proof.
  intros E Hg. assert (drawn (S n) g0 = drawn n g0 ++ [id]) as Hn.
  { rewrite <- Nat.add_1_r, E. simpl. by rewrite Hg. }
  split; [done|]. intros m. rewrite Hn, <- (assoc_L app). replace (S n + m) with (n + S m) by lia.
  rewrite E. f_equal. simpl. by rewrite Hg.
Qed.

Lemma call_ids g0 n r a a' :
  ids_inv g0 n a → (∀ id, id_of (r id) = Some id) → call_with_id r a = Some a' → ids_inv g0 (S n) a'.
Proof.
  intros (E1 & E2 & E3) Hr Ha. unfold call_with_id in Ha.
  destruct (next_id (gen a)) as [id g] eqn:Hg. simpl in Ha. injection Ha as <-. unfold ids_inv.
  cbn [auto gen client callers others]. destruct (drawn_next g0 n (gen a) id g E2 Hg) as [Hn Hm].
  split_and!.
  - rewrite fmap_app, Hn, <- E1. simpl. rewrite <- !(assoc_L app). by rewrite (Permutation_app_comm [id]).
  - exact Hm.
  - apply Forall_app. split.
    + eapply Forall_impl; [|exact E3]. intros x (c & Hc & Hi). exists c. split; [|done].
      by apply lookup_app_l_Some.
    + repeat constructor. simpl. eexists. split; [by apply list_lookup_middle|]. apply Hr.
Qed.

Lemma do_aact_ids g0 n x a a' :
  ids_inv g0 n a → do_aact x a = Some a' → ids_inv g0 (n + draws x) a'.
Proof.
  intros Hi Ha. destruct x; cbn [do_aact draws] in Ha |- *.
  - rewrite Nat.add_0_r. destruct (do_cact want ttl a0 (client a)) as [s|] eqn:E; [|done]. simpl in Ha.
    injection Ha as <-. destruct Hi as (E1 & E2 & E3). split_and!; [done..|]. simpl.
    eapply Forall_impl; [|exact E3]. intros x (c & Hc & Hx).
    destruct (proj2 (st_calls _ _ _ (do_cact_steady _ _ _ E)) x.1 c Hc) as (c' & Hc' & Hr & _). exists c'. by rewrite Hr.
  - injection Ha as <-. by rewrite Nat.add_0_r.
  - rewrite Nat.add_1_r. by eapply call_ids; [exact Hi| |exact Ha].
  - rewrite Nat.add_1_r. by eapply call_ids; [exact Hi| |exact Ha].
  - rewrite Nat.add_1_r. destruct Hi as (E1 & E2 & E3).
    destruct (next_id (gen a)) as [id g] eqn:Hg. injection Ha as <-.
    destruct (drawn_next g0 n (gen a) id g E2 Hg) as [Hn Hm]. split_and!; [|exact Hm|done].
    cbn [auto others]. by rewrite (assoc_L app), E1, Hn.
Qed.

Lemma do_aact_auto x a a' :
  do_aact x a = Some a' → length (auto a') = length (auto a) + own_draws x.
Proof.
  intros Ha. destruct x; cbn [do_aact own_draws] in *.
  - destruct (do_cact want ttl a0 (client a)); [|done]. injection Ha as <-. simpl. lia.
  - injection Ha as <-. simpl. lia.
  - unfold call_with_id in Ha. destruct (next_id (gen a)). injection Ha as <-. apply length_app.
  - unfold call_with_id in Ha. destruct (next_id (gen a)). injection Ha as <-. apply length_app.
  - destruct (next_id (gen a)). injection Ha as <-. simpl. lia.
Qed.

Lemma arun_auto xs a a' :
  arun xs a = Some a' → length (auto a') = length (auto a) + sum_list_with own_draws xs.
Proof.
  revert a. induction xs as [|x xs IH]; intros a Hr; simpl in *; [simplify_eq; lia|].
  destruct (do_aact x a) as [a1|] eqn:E; [|done]. simpl in Hr. rewrite (IH _ Hr), (do_aact_auto _ _ _ E). lia.
Qed.

Lemma arun_ids g0 n xs a a' :
  ids_inv g0 n a → arun xs a = Some a' → ids_inv g0 (n + sum_list_with draws xs) a'.
Proof.
  revert n a. induction xs as [|x xs IH]; intros n a Hi Hr; simpl in *.
  { simplify_eq. by rewrite Nat.add_0_r. }
  destruct (do_aact x a) as [a1|] eqn:E; [|done]. simpl in Hr. rewrite Nat.add_assoc.
  eapply IH; [|done]. by eapply do_aact_ids.
Qed.

(** ** Errors *)

(** A handler installed through an option gets every error of the goroutines,
    in order, as long as it is not replaced. *)
Theorem errors_delivered opts rd werr g0 h a0 xs a :
  New opts (inl rd) werr g0 = Val (inl a0) → apply_options opts = Some h →
  Forall (λ x, match x with ASetErrorHandler _ => False | _ => True end) xs →
  arun xs a0 = Some a → delivered a = (λ e, (h, e)) <$> errors (ps (client a)).
Proof.
  intros Hn Ho Hall Hr.
  assert (errorHandler a0 = Some h ∧ delivered a0 = (λ e, (h, e)) <$> errors (ps (client a0))) as Hinv.
  { simpl in Hn. destruct (if want then werr else None); [done|].
    apply outcome_bind_Val in Hn as (s & Hs & [= <-]). split; [done|].
    apply New_client_eq in Hs as (k & _ & ->). done. }
  clear Hn Ho. revert a0 Hr Hinv. induction Hall as [|x xs Hx _ IH]; intros a0 Hr [Hh Hd]; simpl in Hr.
  { by simplify_eq. }
  destruct (do_aact x a0) as [a1|] eqn:E; [|done]. simpl in Hr. apply (IH a1 Hr). clear IH Hr.
  assert (∀ r a2, call_with_id r a0 = Some a2 → errorHandler a2 = Some h ∧
    delivered a2 = (λ e, (h, e)) <$> errors (ps (client a2))) as Hc.
  { intros r a2 E2. unfold call_with_id in E2. destruct (next_id (gen a0)). simpl in E2.
    injection E2 as <-. by split. }
  destruct x; simpl in E; [|done|by eapply Hc..|destruct (next_id (gen a0)); by injection E as <-].
  destruct (do_cact want ttl a2 (client a0)) as [s|] eqn:Es; [|done]. simpl in E. injection E as <-.
  split; [done|]. simpl. apply do_cact_steady, st_errors in Es as [l El]. unfold report_to.
  rewrite Hh, El, drop_app_length, fmap_app, Hd. done.
Qed.
End app.

(** ** Jobs and their ids *)

Section ids.
Context `{GoArch}.
Variable want : bool.
Variable ttl : Z.

(** C19: jobs get ids of their own.  With the default generator, which all clients
    of the process share and which may have been used before: however [Do] and
    [DoBg] are mixed with other calls, from any number of goroutines, and with
    whatever other clients draw meanwhile, as long as no more than [2^64] ids are
    drawn each of them submits its job under an id that neither another of them
    nor another client has drawn, and none is rejected for its id. *)
Theorem do_ids_distinct opts rd werr (g0 : autoincId) a0 xs a :
  New want opts (inl rd) werr g0 = Val (inl a0) → arun want ttl xs a0 = Some a →
  (Z.of_nat (sum_list_with draws xs) ≤ 2 ^ 64)%Z →
  length (auto a) = sum_list_with own_draws xs ∧ NoDup ((snd <$> auto a) ++ others a) ∧
  ∀ i id, (i, id) ∈ auto a →
    (∃ c, callers (client a) !! i = Some c ∧ id_of (cl_req c) = Some id) ∧
    ∀ bg s, do_check bg id s ≠ Some ErrInvalidId.
Proof.
  intros Hn Hr [Hd Hv]%(autoincId_unique _ g0). simpl in Hn.
  destruct (if want then werr else None); [done|]. apply outcome_bind_Val in Hn as (s0 & _ & [= <-]).
  assert (ids_inv g0 (sum_list_with draws xs) a) as (E1 & _ & E3)
    by (eapply (arun_ids want ttl g0 0); [|exact Hr]; by split_and!).
  split_and!.
  - by apply arun_auto in Hr.
  - by rewrite E1.
  - intros i id Hin. split.
    + rewrite list.Forall_forall in E3. by apply (E3 (i, id)).
    + intros bg s. assert (id ≠ []) as Hne.
      { rewrite <- E1 in Hv. rewrite list.Forall_forall in Hv. apply (Hv id), elem_of_app. left.
        apply list_elem_of_fmap. by exists (i, id). }
      unfold do_check. destruct (conn s); [by rewrite decide_False|].
      rewrite decide_False by tauto. done.
Qed.
End ids.

(** ** Witness *)

(** Two calls with ids of the default generator and one with an id of its own,
    while another client draws one. *)
Definition three_calls : list aact :=
  [ADo (str "f") [] JobNormal None; ADrawElsewhere;
   AClient (Call (DoWithId (str "f") [] JobNormal None (str "mine")));
   ADoBg (str "g") [] JobHigh].

Definition app_start : App autoincId :=
  match New (H := W64) false [] (inl (mkReader [] [])) None (NewAutoIncId 7) with
  | Val (inl a) => a
  | _ => mkApp (mkC [] None None true [] RlDone p_init [] None) None [] (NewAutoIncId 7) [] []
  end.

Definition app_end : App autoincId :=
  default app_start (arun (H := W64) false 1 three_calls app_start).

Lemma do_ids_distinct_witness :
  fst <$> auto app_end = [0; 2] ∧ length (others app_end) = 1 ∧
  NoDup ((snd <$> auto app_end) ++ others app_end).
Proof.
  split_and!; [vm_compute; reflexivity..|].
  refine (proj1 (proj2 (do_ids_distinct (H := W64) false 1 [] (mkReader [] []) None (NewAutoIncId 7)
    app_start three_calls app_end _ _ _))).
  - vm_compute. reflexivity.
  - vm_compute. reflexivity.
  - vm_compute. congruence.
Defined.
