(* ===== verification/PoolClients.v ===== *)
(** * A pool of the clients there are: client/pool.go over client/client.go

    Pool.v is proved against the interface of a client.  Here the client of
    ClientApp.v, with all its goroutines, is shown to have that interface, and
    the pool runs with it: between the sections of the pool's methods every
    client in the heap, pooled or not, goes on with actions of its own. *)

From S2P Require Import Prelude GoStd Protocol ClientRequest ClientResponse HandlerSlot.
From S2P Require Import ClientWire IdGen Pool ClientLoop Client ClientApp.

Section pooled.
Context `{GoArch} {G : Type} `{IdGenerator G}.
Variable want : bool.
Variable ttl : Z.

(** A client with the address it was made for. *)
Abbreviation addressed := (bytes * App G)%type.

(** [Close()]: both its sections.  For a client the pool is closing the first
    may also come well before, as a step of its own below. *)
Definition client_Close (s : csys) : csys := closeConn (Close_flag s).

Definition with_client (s : csys) (c : addressed) : addressed :=
  (c.1, mkApp s (ClientApp.errorHandler c.2) (delivered c.2) (gen c.2) (auto c.2)
          (others c.2)).

(** Closed, and without a connection. *)
Definition dead (c : addressed) : bool :=
  closed (client c.2) && bool_decide (conn (client c.2) = None).

Lemma client_Close_dead c : dead (with_client (client_Close (client c.2)) c) = true.
Proof.
  unfold dead, client_Close. simpl. destruct (closeConn_conn (Close_flag (client c.2))) as (E1 & _ & E2 & _).
  by rewrite E1, E2.
Qed.

(** What [Close] returns is the error of closing the socket, which the pool's
    callers get and nothing depends on. *)
#[export] Program Instance app_iface : ClientIface addressed nat := {|
  c_addr := fst;
  c_closed := dead;
  c_handler c := ClientApp.errorHandler c.2;
  c_close c := (None, with_client (client_Close (client c.2)) c);
  c_set_handler h c := (c.1, ClientApp.SetErrorHandler h c.2)
|}.
Next Obligation. intros c. apply client_Close_dead. Qed.
Next Obligation. done. Qed.
Next Obligation. done. Qed.
Next Obligation. done. Qed.
Next Obligation. done. Qed.

(** ** A closed client stays closed *)

Lemma do_aact_dead x (a a' : App G) addr :
  do_aact want ttl x a = Some a' → dead (addr, a) = true → dead (addr, a') = true.
Proof.
  unfold dead. rewrite !andb_true_iff, !bool_decide_eq_true. simpl. intros Ha [Hcl Hcn].
  destruct x as [c|h|f d flag h|f d flag|]; cbn [do_aact] in Ha.
  - destruct (do_cact want ttl c (client a)) as [s|] eqn:E; [|done]. injection Ha as <-. 
    by apply do_cact_steady, st_dead in E; apply E.
  - by injection Ha as <-.
  - unfold call_with_id in Ha. destruct (next_id (gen a)).
    destruct (do_cact want ttl _ (client a)) as [s|] eqn:E; [|done]. injection Ha as <-. 
    by apply do_cact_steady, st_dead in E; apply E.
  - unfold call_with_id in Ha. destruct (next_id (gen a)).
    destruct (do_cact want ttl _ (client a)) as [s|] eqn:E; [|done]. injection Ha as <-. 
    by apply do_cact_steady, st_dead in E; apply E.
  - destruct (next_id (gen a)). by injection Ha as <-.
Qed.

(** ** The pool with its clients *)

Abbreviation pool_sys := (Pool.Sys (C := addressed) (HD := nat)).

(** A section of the pool, an action of a client or its callers, or the first
    section of [Close] on a client the pool is about to close: the second follows
    with [step_close], any number of steps later. *)
Inductive live_step : pool_sys → pool_sys → Prop :=
| live_pool s s' : pool_step s s' → live_step s s'
| live_client r addr x a a' w ds bs cs :
    heap w !! r = Some (addr, a) → do_aact want ttl x a = Some a' →
    live_step (Pool.mkSys w ds bs cs) (Pool.mkSys (set_heap (<[r := (addr, a')]> (heap w)) w) ds bs cs)
| live_flag r c w ds bs cs :
    r ∈ cs → heap w !! r = Some c →
    live_step (Pool.mkSys w ds bs cs)
      (Pool.mkSys (set_heap (<[r := with_client (Close_flag (client c.2)) c]> (heap w)) w) ds bs cs).

(** A client replaced by one that is no less closed. *)
Lemma heap_inv r c c' w ds bs cs :
  heap w !! r = Some c → c'.1 = c.1 → (dead c = true → dead c' = true) →
  sys_inv (Pool.mkSys w ds bs cs) →
  sys_inv (Pool.mkSys (set_heap (<[r := c']> (heap w)) w) ds bs cs).
Proof.
  intros Hr Haddr Hdead Hinv.
  assert (heap_evolves (heap w) (<[r := c']> (heap w))) as He.
  { intros r' x Hx. destruct (decide (r = r')) as [<-|Hne].
    - exists c'. rewrite lookup_insert_eq. rewrite Hr in Hx. injection Hx as <-. by split_and!.
    - exists x. by rewrite lookup_insert_ne. }
  eapply (sys_inv_heap (Pool.mkSys w ds bs cs)); [done|done|exact He|done|].
  intros r' x Hx. simpl in Hx. destruct (decide (r = r')) as [<-|Hne].
  - rewrite lookup_insert_eq in Hx. injection Hx as <-.
    destruct (inv_accounted _ Hinv r _ Hr) as [Hd|Hrest]; [left; by apply Hdead|by right].
  - rewrite lookup_insert_ne in Hx by done. by apply (inv_accounted _ Hinv).
Qed.

Lemma live_step_inv s s' : live_step s s' → sys_inv s → sys_inv s'.
Proof.
  destruct 1 as [s s' Hs|r addr x a a' w ds bs cs Hr Ha|r c w ds bs cs _ Hr]; [by apply pool_step_inv|..].
  - apply (heap_inv r (addr, a)); [done|done|]. by eapply do_aact_dead.
  - apply (heap_inv r c); [done|done|]. unfold dead. simpl. by destruct (closed (client c.2)).
Qed.

(** C24: a pool of real clients leaks none.  While the clients' own goroutines
    read, redial, time out and are called by anyone who holds them, and calls of
    the pool's methods interleave with that, every client ever dialled for the
    pool is closed for good and without a connection, or in the pool under its own
    address, or in the hands of a call that is about to insert it or close it. *)
Theorem live_pool_no_leak s r addr a :
  rtc live_step init_sys s → heap (world s) !! r = Some (addr, a) →
  (closed (client a) = true ∧ conn (client a) = None) ∨
  (∃ pc, Clients (pool (world s)) !! addr = Some pc ∧ ref pc = r) ∨
  (∃ rate, (addr, rate, r) ∈ built s) ∨ r ∈ Pool.closing s.
Proof.
  intros Hs Hr. assert (sys_inv s) as [Hf Hb Ha].
  { assert (sys_inv (C := addressed) (HD := nat) init_sys) as H1 by by apply pool_reach_inv, rtc_refl.
    clear Hr. revert H1. induction Hs as [|s1 s2 s3 Hstep _ IH]; [done|].
    intros H1. apply IH. by eapply live_step_inv. }
  destruct (Ha r _ Hr) as [Hd|[(b & pc & Hpc & <-)|[(b & rate & Hin)|Hcl]]]; [| | |by auto].
  - left. simpl in Hd. unfold dead in Hd. by rewrite andb_true_iff, bool_decide_eq_true in Hd.
  - right; left. destruct (Hf b pc Hpc) as (c' & Hc' & <-). rewrite Hr in Hc'. injection Hc' as <-. eauto.
  - right; right; left. destruct (Hb b rate r Hin) as (c' & Hc' & <-). rewrite Hr in Hc'.
    injection Hc' as <-. eauto.
Qed.
End pooled.

(** ** Witness *)

(** A client is dialled and inserted, starts reading, is removed and closed. *)
Definition reading_app : App autoincId := default app_start (do_aact (H := W64) false 1 (AClient RlStep) app_start).

Definition closed_app : App autoincId :=
  (with_client (client_Close (client reading_app)) (str "a", reading_app)).2.

Definition live_end : Pool.Sys (C := bytes * App autoincId) (HD := nat) :=
  Pool.mkSys (mkWorld (mkPool ∅ [] None) {[ 0 := (str "a", closed_app) ]}) [] [] [].

Lemma live_reachable : rtc (live_step (H := W64) (H0 := autoincId_generator) false 1) init_sys live_end.
Proof.
  eapply rtc_l; [apply live_pool; eexists; apply (step_add_miss (str "a") 5); reflexivity|].
  eapply rtc_l.
  { apply live_pool. eexists. apply (step_dial_ok (str "a") 5 0 (str "a", app_start) _ []); [done..|].
    vm_compute. reflexivity. }
  eapply rtc_l; [apply live_pool; eexists; apply (step_add_insert (str "a") 5 0 _ _ [] [])|].
  eapply rtc_l.
  { apply (live_client (H := W64) (H0 := autoincId_generator) false 1 0 (str "a") (AClient RlStep) app_start
      reading_app); vm_compute; reflexivity. }
  eapply rtc_l; [apply live_pool; eexists; apply (step_remove (str "a")); reflexivity|].
  eapply rtc_l; [apply live_pool; eexists; apply (step_close 0 _ _ _ [] [])|].
  match goal with |- rtc _ ?s _ => assert (s = live_end) as -> by (vm_compute; reflexivity) end.
  apply rtc_refl.
Qed.

Lemma live_pool_no_leak_witness :
  (closed (client closed_app) = true ∧ conn (client closed_app) = None) ∨
  (∃ pc, Clients (pool (world live_end)) !! str "a" = Some pc ∧ ref pc = 0) ∨
  (∃ rate, (str "a", rate, 0) ∈ built live_end) ∨ 0 ∈ Pool.closing live_end.
Proof.
  refine (live_pool_no_leak (H := W64) (H0 := autoincId_generator) false 1 live_end 0 (str "a") closed_app _ _).
  - exact live_reachable.
  - vm_compute. reflexivity.
Defined.
