(* ===== verification/GoText.v ===== *)
(** * Text in Go: UTF-8, strings.ToUpper and encoding/json

    The job functions of worker/func.go and of the examples work on text with
    three packages of the standard library; here is what they use of them.  The
    case table of package unicode is an argument; the ASCII fast path of
    [strings.ToUpper] is proved to be the mapping it shortcuts. *)

From S2P Require Import Prelude GoStd.

(** ** Package unicode/utf8 *)

Definition RuneError : Z := 65533.

(** The sequence a first byte starts: its length, the payload of the byte, and
    the range of the second byte. *)
Definition first_byte (b : Z) : option (nat * Z * Z * Z) :=
  if decide (b < 128)%Z then Some (1%nat, b, 0, 0)%Z
  else if decide (194 ≤ b < 224)%Z then Some (2%nat, b - 192, 128, 191)%Z
  else if decide (b = 224)%Z then Some (3%nat, 0, 160, 191)%Z
  else if decide (b = 237)%Z then Some (3%nat, 13, 128, 159)%Z
  else if decide (224 ≤ b < 240)%Z then Some (3%nat, b - 224, 128, 191)%Z
  else if decide (b = 240)%Z then Some (4%nat, 0, 144, 191)%Z
  else if decide (240 ≤ b < 244)%Z then Some (4%nat, b - 240, 128, 191)%Z
  else if decide (b = 244)%Z then Some (4%nat, 4, 128, 143)%Z
  else None.

(** [utf8.DecodeRune(p)]: the rune and its size; an invalid sequence is
    [RuneError] of size 1. *)
Definition DecodeRune (p : bytes) : Z * nat :=
  match byte_val <$> take 4 p with
  | [] => (RuneError, 0)
  | b0 :: rest =>
      match first_byte b0 with
      | None => (RuneError, 1)
      | Some (n, x, lo, hi) =>
          match n, rest with
          | 1, _ => (b0, 1)
          | S _, b1 :: rest =>
              if decide (lo ≤ b1 ≤ hi)%Z then
                match n, rest with
                | 2, _ => (x * 64 + b1 mod 64, 2%nat)%Z
                | 3, b2 :: _ =>
                    if decide (128 ≤ b2 ≤ 191)%Z
                    then ((x * 64 + b1 mod 64) * 64 + b2 mod 64, 3%nat)%Z else (RuneError, 1)
                | 4, b2 :: b3 :: _ =>
                    if decide (128 ≤ b2 ≤ 191 ∧ 128 ≤ b3 ≤ 191)%Z
                    then (((x * 64 + b1 mod 64) * 64 + b2 mod 64) * 64 + b3 mod 64, 4%nat)%Z
                    else (RuneError, 1)
                | _, _ => (RuneError, 1)
                end
              else (RuneError, 1)
          | _, _ => (RuneError, 1)
          end
      end
  end.

(** [utf8.AppendRune(nil, r)] *)
Definition EncodeRune (r : Z) : bytes :=
  let r := if decide (r < 0 ∨ 55296 ≤ r ≤ 57343 ∨ 1114111 < r)%Z then RuneError else r in
  let tail n := byte_of (128 + (r / 64 ^ n) mod 64) in
  if decide (r < 128)%Z then [byte_of r]
  else if decide (r < 2048)%Z then [byte_of (192 + r / 64); tail 0%Z]
  else if decide (r < 65536)%Z then [byte_of (224 + r / 4096); tail 1%Z; tail 0%Z]
  else [byte_of (240 + r / 262144); tail 2%Z; tail 1%Z; tail 0%Z].

(** A loop over the runes of a string, [f] on each rune and its bytes; a
    string of [n] bytes has at most [n] runes. *)
Fixpoint range_runes (fuel : nat) (f : Z → bytes → bytes) (s : bytes) : bytes :=
  match fuel, s with
  | O, _ | _, [] => []
  | S fuel, _ =>
      let '(r, n) := DecodeRune s in f r (take n s) ++ range_runes fuel f (drop n s)
  end.

(** ** Package strings *)

Section upper.
(** [unicode.ToUpper] *)
Variable upper : Z → Z.

Definition ascii_upper (c : byte) : byte :=
  if decide (97 ≤ byte_val c ≤ 122)%Z then byte_of (byte_val c - 32) else c.

(** [strings.Map(unicode.ToUpper, s)]: a negative rune is dropped. *)
Definition map_upper (s : bytes) : bytes :=
  range_runes (length s) (λ r _, if decide (upper r < 0)%Z then [] else EncodeRune (upper r)) s.

(** [strings.ToUpper(s)] *)
Definition ToUpper (s : bytes) : bytes :=
  if forallb (λ c, bool_decide (byte_val c < 128)%Z) s then ascii_upper <$> s else map_upper s.
End upper.

(** ** Package encoding/json *)

(** A value to be marshalled: a number with its digits, the fields of a struct. *)
Inductive json :=
| JNum (digits : bytes)
| JStr (s : bytes)
| JObj (fields : list (bytes * json)).

Definition hex_digit (d : Z) : byte := if decide (d < 10)%Z then byte_of (48 + d) else byte_of (87 + d).

Definition u_escape (r : Z) : bytes :=
  str "\u" ++ [hex_digit (r / 4096 mod 16); hex_digit (r / 256 mod 16);
               hex_digit (r / 16 mod 16); hex_digit (r mod 16)].

(** The characters with a short escape. *)
Definition short_escape (r : Z) : option byte :=
  if decide (r = 34 ∨ r = 92)%Z then Some (byte_of r)
  else if decide (r = 8)%Z then Some (byte_of 98)
  else if decide (r = 12)%Z then Some (byte_of 102)
  else if decide (r = 10)%Z then Some (byte_of 110)
  else if decide (r = 13)%Z then Some (byte_of 114)
  else if decide (r = 9)%Z then Some (byte_of 116)
  else None.

(** One rune in a string literal: control characters, <, >, & and the line
    separators are escaped, and so is a byte that is not UTF-8. *)
Definition json_rune (r : Z) (bs : bytes) : bytes :=
  match short_escape r with
  | Some c => [byte_of 92; c]
  | None =>
      if decide (r < 32 ∨ r = 60 ∨ r = 62 ∨ r = 38 ∨ r = 8232 ∨ r = 8233)%Z then u_escape r
      else if decide (r = RuneError ∧ length bs = 1) then u_escape RuneError
      else bs
  end.

Definition json_string (s : bytes) : bytes :=
  byte_of 34 :: range_runes (length s) json_rune s ++ [byte_of 34].

(** [json.Marshal] of a struct. *)
Fixpoint marshal (v : json) : bytes :=
  match v with
  | JNum d => d
  | JStr s => json_string s
  | JObj fields =>
      str "{" ++
      (fix go (first : bool) (fs : list (bytes * json)) :=
         match fs with
         | [] => []
         | (k, v) :: fs =>
             (if first then [] else str ",") ++ json_string k ++ str ":" ++ marshal v ++ go false fs
         end) true fields ++ str "}"
  end.

(** ** The fast path *)

Lemma DecodeRune_ascii c s : (byte_val c < 128)%Z → DecodeRune (c :: s) = (byte_val c, 1).
Proof. intros Hc. unfold DecodeRune. cbn. unfold first_byte. by rewrite decide_True. Qed.

Lemma EncodeRune_ascii r : (0 ≤ r < 128)%Z → EncodeRune r = [byte_of r].
Proof.
  intros Hr. unfold EncodeRune. cbv zeta.
  destruct (decide (r < 0 ∨ 55296 ≤ r ≤ 57343 ∨ 1114111 < r)%Z); [lia|]. by rewrite decide_True by lia.
Qed.

(** A table that treats ASCII as ASCII: upper case of a letter, nothing else. *)
Definition ascii_table (upper : Z → Z) : Prop :=
  ∀ r, (0 ≤ r < 128)%Z → upper r = if decide (97 ≤ r ≤ 122)%Z then (r - 32)%Z else r.

(** [strings.ToUpper] is the mapping of the case table over the runes. *)
Lemma ToUpper_map upper s : ascii_table upper → ToUpper upper s = map_upper upper s.
Proof.
  intros Ht. unfold ToUpper. destruct (forallb _ s) eqn:Hs; [|done]. unfold map_upper.
  induction s as [|c s IH]; [done|]. simpl in Hs. apply andb_true_iff in Hs as [Hc Hs].
  apply bool_decide_eq_true in Hc. pose proof (byte_val_range c).
  cbn [range_runes length]. rewrite DecodeRune_ascii by done. simpl take. simpl drop.
  rewrite ?drop_0, <- (IH Hs). rewrite Ht by lia. csimpl. unfold ascii_upper.
  destruct (decide (97 ≤ byte_val c ≤ 122)%Z);
    rewrite decide_False, EncodeRune_ascii by lia; simpl; [done|].
  by rewrite byte_of_val.
Qed.
