(* ===== verification/JobFuncs.v ===== *)
(** * The job interface and the built-in job functions: worker/job.go, worker/func.go

    A job function sees its job through the interface [Job] only: a class here,
    with [inPack] as its instance, so that a function is written once against
    the interface and becomes a [JobFunc] of Worker.v at [inPack].  What it sends
    is the output of a small writer monad.

    [SysInfo] marshals what the runtime says of itself.  [MemInfo] marshals the
    package variable [memState], which all its calls fill and read: its calls are
    goroutines over that variable. *)

From S2P Require Import Prelude GoStd Protocol WorkerPack AgentIO Agent Worker GoText.
Import WC.

(** ** Programs that report *)

Definition Prog (A : Type) : Type := list job_report * A.

#[export] Instance Prog_ret : MRet Prog := λ A a, ([], a).
#[export] Instance Prog_bind : MBind Prog := λ A B f m,
  let '(rs, a) := m in let '(rs', b) := f a in (rs ++ rs', b).

(** [type Job interface] *)
Class Job (J : Type) := {
  Err : J → option error;
  job_Data : J → slice;
  Fn : J → bytes;
  job_SendWarning : J → bytes → Prog unit;
  job_SendData : J → bytes → Prog unit;
  job_UpdateStatus : J → Z → Z → Prog unit;
  job_Handle : J → bytes;
  UniqueId : J → bytes
}.

#[export] Instance inPack_Job : Job inPack := {
  Err := inPack_Err;
  job_Data := iData;
  Fn := iFn;
  job_SendWarning _ d := ([Sends_warning d], ());
  job_SendData _ d := ([Sends_data d], ());
  job_UpdateStatus _ n d := ([Updates_status n d], ());
  job_Handle := iHandle;
  UniqueId := iUniqueId
}.

(** A function against the interface, as the worker calls it. *)
Definition as_JobFunc (f : inPack → Prog (slice * option error)) : JobFunc := λ p,
  let '(rs, (d, e)) := f p in (rs, Returns d e).

(** ** SysInfo *)

(** [type systemInfo struct] *)
Record systemInfo := mkSystemInfo {
  GOOS : bytes; GOARCH : bytes; GOROOT : bytes; Version : bytes;
  NumCPU : Z; NumGoroutine : Z; NumCgoCall : Z
}.

Definition systemInfo_json (s : systemInfo) : json :=
  JObj [(str "GOOS", JStr (GOOS s)); (str "GOARCH", JStr (GOARCH s));
        (str "GOROOT", JStr (GOROOT s)); (str "Version", JStr (Version s));
        (str "NumCPU", JNum (FormatInt (NumCPU s)));
        (str "NumGoroutine", JNum (FormatInt (NumGoroutine s)));
        (str "NumCgoCall", JNum (FormatInt (NumCgoCall s)))].

(** [SysInfo(job)], with what package runtime says. *)
Definition SysInfo {J} `{Job J} (runtime : systemInfo) (job : J) : Prog (slice * option error) :=
  mret (Some (marshal (systemInfo_json runtime)), None).

(** ** MemInfo *)

(** [runtime.MemStats]: its fields in order, with their values, or the error
    [json.Marshal] has for one that JSON cannot hold, as a float that is not
    finite. *)
Abbreviation MemStats := (list (bytes * (json + error))).

(** A call of [MemInfo]: before [ReadMemStats]; in [Marshal], with the fields it
    has read so far; returned. *)
Inductive mem_pc :=
| MCalled
| MMarshal (got : list (bytes * json))
| MReturned (d : slice) (err : option error).

(** The package variable and the calls there are. *)
Record mem := mkMem { memState : MemStats; mcalls : list mem_pc }.

(** A call; its [ReadMemStats], which stores [stats] with the world stopped; a
    step of its [Marshal], which reads the next field of the variable and gives up
    on one it cannot encode, or, after the last, returns the text. *)
Inductive mact :=
| MCall
| MRead (i : nat) (stats : MemStats)
| MField (i : nat).

Definition do_mact (a : mact) (m : mem) : option mem :=
  match a with
  | MCall => Some (mkMem (memState m) (mcalls m ++ [MCalled]))
  | MRead i stats =>
      match mcalls m !! i with
      | Some MCalled => Some (mkMem stats (<[i := MMarshal []]> (mcalls m)))
      | _ => None
      end
  | MField i =>
      match mcalls m !! i with
      | Some (MMarshal got) =>
          let pc := match memState m !! length got with
                    | Some (name, inl v) => MMarshal (got ++ [(name, v)])
                    | Some (_, inr e) => MReturned None (Some e)
                    | None => MReturned (Some (marshal (JObj got))) None
                    end in
          Some (mkMem (memState m) (<[i := pc]> (mcalls m)))
      | _ => None
      end
  end.

Fixpoint mrun (acts : list mact) (m : mem) : option mem :=
  match acts with
  | [] => Some m
  | a :: acts => m ← do_mact a m; mrun acts m
  end.

Lemma mrun_app xs ys m : mrun (xs ++ ys) m = m ← mrun xs m; mrun ys m.
Proof.
  revert m. induction xs as [|x xs IH]; intros m; simpl; [done|].
  destruct (do_mact x m); simpl; [apply IH|done].
Qed.

(** ** Where the fields come from *)











(** ** Torn snapshots *)

(** Call [i] reads [n] more fields of the variable. *)
Lemma fields_read n i got m vals :
  mcalls m !! i = Some (MMarshal got) →
  take n (drop (length got) (memState m)) = (λ x, (x.1, inl x.2)) <$> vals → length vals = n →
  ∃ m', mrun (replicate n (MField i)) m = Some m' ∧ memState m' = memState m ∧
    mcalls m' = <[i := MMarshal (got ++ vals)]> (mcalls m).
Proof.
  revert got m vals. induction n as [|n IH]; intros got m vals Hi Hv Hl.
  { apply length_zero_iff_nil in Hl as ->. exists m. rewrite app_nil_r. split_and!; [done..|].
    by rewrite list_insert_id. }
  destruct vals as [|[k v] vals]; [done|]. simpl in Hl.
  destruct (drop (length got) (memState m)) as [|x rest] eqn:Hd; [done|]. simpl in Hv. injection Hv as -> Hv.
  assert (memState m !! length got = Some (k, inl v)) as Hk
    by (by rewrite <- (Nat.add_0_r (length got)), <- lookup_drop, Hd).
  destruct (IH (got ++ [(k, v)]) (mkMem (memState m) (<[i := MMarshal (got ++ [(k, v)])]> (mcalls m))) vals)
    as (m' & Hr & Hs & Hc).
  - simpl. apply list_lookup_insert_eq. by eapply lookup_lt_Some.
  - simpl. rewrite length_app. simpl. rewrite <- drop_drop, Hd. done.
  - lia.
  - exists m'. cbn [replicate mrun do_mact]. rewrite Hi, Hk. cbn [mbind option_bind].
    split_and!; [done..|]. rewrite Hc. simpl. rewrite list_insert_insert_eq. by rewrite <- (assoc_L app).
Qed.

(** Two [MemInfo] jobs at once can mix their snapshots in any proportion: when
    the second [ReadMemStats] overwrites the variable after the first job has
    marshalled [n] fields, the first returns [n] fields of its own snapshot and
    the rest of the other's, a state the program was never in. *)
Theorem meminfo_torn n (s1 s2 : list (bytes * json)) :
  length s1 = length s2 → n ≤ length s1 →
  let enc := fmap (λ x : bytes * json, (x.1, inl x.2)) : list (bytes * json) → MemStats in
  ∃ m, mrun ([MCall; MCall; MRead 0 (enc s1)] ++ replicate n (MField 0) ++ [MRead 1 (enc s2)] ++
             replicate (length s2 - n) (MField 0) ++ [MField 0]) (mkMem [] []) = Some m ∧
    mcalls m !! 0 = Some (MReturned (Some (marshal (JObj (take n s1 ++ drop n s2)))) None).
Proof.
  intros Hlen Hn enc. rewrite mrun_app. cbn [mrun do_mact mcalls app lookup list_lookup insert list_insert
    mbind option_bind]. rewrite mrun_app.
  destruct (fields_read n 0 [] (mkMem (enc s1) [MMarshal []; MCalled]) (take n s1)) as (m1 & -> & E1 & E2).
  { done. } { simpl. unfold enc. by rewrite drop_0, fmap_take. } { rewrite length_take. lia. }
  cbn [mbind option_bind mrun do_mact]. rewrite E2. cbn [mcalls lookup list_lookup
    insert list_insert mbind option_bind app]. rewrite mrun_app.
  destruct (fields_read (length s2 - n) 0 (take n s1)
    (mkMem (enc s2) [MMarshal (take n s1); MMarshal []]) (drop n s2)) as (m2 & -> & E3 & E4).
  { done. }
  { simpl. rewrite length_take, Nat.min_l by lia. unfold enc. rewrite <- fmap_drop, take_ge; [done|].
    rewrite length_fmap, length_drop. lia. }
  { by rewrite length_drop. }
  cbn [mbind option_bind mrun do_mact]. rewrite E4, E3. cbn [mcalls lookup list_lookup insert list_insert memState].
  rewrite (proj2 (lookup_ge_None (enc s2) _)).
  - eexists. split; [reflexivity|]. done.
  - unfold enc. rewrite length_fmap, length_app, length_take, length_drop. lia.
Qed.

(** ** Witness *)




