(* ===== verification/ExampleWorker.v ===== *)
(** * The example worker: example/worker/worker.go

    The example's three job functions are written against the interface of
    JobFuncs.v, and its [main] is a sequence of actions of the running worker of
    System.v: handlers, one server, six functions, [Ready], [Work].  Package
    unicode's case table, the runtime's answers to [SysInfo] and what [MemInfo]
    returns are arguments. *)

From S2P Require Import Prelude GoStd Protocol ClientWire WorkerPack AgentIO Agent Worker.
From S2P Require Import WorkerAbilities WorkerJobs System GoText JobFuncs.
Import WC.

(** ** The job functions *)

(** [time.Sleep]: time passes, nothing is sent. *)
Definition Sleep (seconds : Z) : Prog unit := mret ().

Section functions.
Context {J : Type} `{Job J}.
Variable upper : Z → Z.

Definition ex_ToUpper (job : J) : Prog (slice * option error) :=
  let data := ToUpper upper (sl (job_Data job)) in
  mret (Some data, None).

Definition ToUpperDelay10 (job : J) : Prog (slice * option error) :=
  Sleep 10 ;;
  let data := ToUpper upper (sl (job_Data job)) in
  mret (Some data, None).

(** The loop of [Foobar] from [i] on, for [n] more rounds. *)
Fixpoint Foobar_loop (n : nat) (i : Z) (job : J) : Prog unit :=
  match n with
  | O => mret ()
  | S n =>
      job_SendWarning job [byte_of i] ;;
      job_SendData job [byte_of i] ;;
      job_UpdateStatus job (i + 1) 100 ;;
      Foobar_loop n (i + 1) job
  end.

Definition Foobar (job : J) : Prog (slice * option error) :=
  Foobar_loop 10 0 job ;;
  mret (job_Data job, None).
End functions.

(** ** [main] *)

(** The error handler interrupts the process for this error. *)
Definition interrupts (e : error) : bool :=
  match e with OpError _ temporary => negb temporary | _ => false end.

Section main.
Variable upper : Z → Z.
Variable runtime : systemInfo.
Variable mem_info : inPack → Prog (slice * option error).

Definition ex_functions : list (bytes * JobFunc * Z) :=
  [(str "Foobar", as_JobFunc Foobar, Unlimited);
   (str "ToUpper", as_JobFunc (ex_ToUpper upper), Unlimited);
   (str "ToUpperTimeOut5", as_JobFunc (ToUpperDelay10 upper), 5%Z);
   (str "ToUpperTimeOut20", as_JobFunc (ToUpperDelay10 upper), 20%Z);
   (str "SysInfo", as_JobFunc (SysInfo runtime), Unlimited);
   (str "MemInfo", as_JobFunc mem_info, Unlimited)].

(** [main] up to [signal.Wait], its dial given: [Ready] fails or [Work] runs. *)
Definition ex_setup : list sact :=
  [SCore (ASetErrorHandler true); SCore (ASetJobHandler (Some (λ _, None))); SAddServer] ++
  ((λ x, SCore (AAddFunc x.1.1 x.1.2 x.2)) <$> ex_functions).

Definition ex_main (d : dial) : list sact :=
  ex_setup ++
  match d with
  | inl rd => [SReady (λ _, d); SWork (λ _, d)]
  | inr _ => [SReady (λ _, d)]
  end.

(** Its deferred [w.Close()], after an interrupt. *)
Definition ex_close : list sact := [SCore ACloseBegin; SCloseFinish].
End main.

(** ** What [main] sets up *)

(** The state some actions lead to, and that they do; evaluated without looking
    into the functions. *)
Definition end_of (r : option (outcome system)) : system :=
  match r with Some (Val st) => st | _ => system_of Unlimited end.
Definition ends (r : option (outcome system)) : bool :=
  match r with Some (Val _) => true | _ => false end.

Lemma end_of_eq r : ends r = true → r = Some (Val (end_of r)).
Proof. by destruct r as [[]|]. Qed.

Ltac hide_functions :=
  unfold ex_main, ex_setup, ex_functions;
  generalize (as_JobFunc Foobar);
  lazymatch goal with |- context [as_JobFunc (ex_ToUpper ?u)] =>
    generalize (as_JobFunc (ex_ToUpper u)); generalize (as_JobFunc (ToUpperDelay10 u)) end;
  lazymatch goal with |- context [as_JobFunc (SysInfo ?r)] => generalize (as_JobFunc (SysInfo r)) end;
  lazymatch goal with |- context [as_JobFunc ?m] => generalize (as_JobFunc m) end; intros.

(** The example worker comes up.  When its dial succeeds, [main] reaches
    [signal.Wait] with the worker serving: the server has been told of the six
    functions with their timeouts and has one grab; when the dial fails, [Ready]
    has announced nothing and there is no read loop. *)
Theorem example_worker_serves w upper rt mi d :
  ∃ st, srun (H := w) map_to_list (ex_main upper rt mi d) (system_of Unlimited) = Some (Val st) ∧
    match d with
    | inl _ =>
        main st = Serving ∧ map l_pc (concat (map loops (links st))) = [AtRead] ∧
        ∃ os, wires (nt (core st)) = [os ++ [grab_pack]] ∧
          abilities os = list_to_map ((λ x, (x.1.1, x.2)) <$> ex_functions upper rt mi)
    | inr _ => main st = NotStarted ∧ wires (nt (core st)) = [] ∧ map loops (links st) = [[]]
    end.
Proof.
  hide_functions. eexists. split; [apply end_of_eq; destruct w, d; vm_compute; reflexivity|].
  destruct d as [rd|e]; (split; [destruct w; vm_compute; reflexivity|]);
    (split; [destruct w; vm_compute; reflexivity|]); [|destruct w; vm_compute; reflexivity].
  match goal with |- ∃ os, wires (nt (core ?st)) = _ ∧ _ =>
    exists (removelast (concat (wires (nt (core st))))) end.
  split.
  - destruct w; vm_compute; reflexivity.
  - apply (bool_decide_unpack _). destruct w; vm_compute; exact I.
Qed.

(** ** A lost connection *)

(** A server that goes away: the loop reads, checks and reports. *)
Definition ex_lost (e : error) : list sact :=
  [SLink 0 (NetIn 0 (Fail e)); SLink 0 (LoopRead 0); SLink 0 (LoopCheck 0); SLink 0 (LoopDisconnect 0)].

(** C39: the example worker does not notice that its server is gone.  Its error
    handler is written to end the process on a permanent network error, but what
    a lost connection hands it is a [*WorkerDisconnectError] around the error:
    the handler logs it and does not interrupt, the read loop is over, and no
    goroutine of the worker will ever move again. *)
Theorem lost_connection_unnoticed upper rt mi t :
  let e := OpError t false in
  ∃ st, srun (H := W64) map_to_list (ex_main upper rt mi (inl (mkReader [] [])) ++ ex_lost e)
          (system_of Unlimited) = Some (Val st) ∧
    interrupts e = true ∧
    errs (lg (core st)) = [Disconnect e 0] ∧ existsb interrupts (errs (lg (core st))) = false ∧
    main st = Serving ∧
    ∀ a, background a → (∀ i c ev, a ≠ SLink i (NetIn c ev)) → do_sact (H := W64) map_to_list a st = None.
Proof.
  intros e. unfold e. clear e. hide_functions. eexists. split; [apply end_of_eq; vm_compute; reflexivity|].
  do 4 (split; [vm_compute; reflexivity|]).
  intros a. apply quiescent_stuck. unfold quiescent. do 6 (split; [vm_compute; reflexivity|]).
  match goal with |- Forall _ (links ?st) =>
    assert (links st = [mkSys (mkAgent (Some 0) (Some 0) 1) 
      [mkConn (mkReader [] []) true [inr (OpError t false)]] false
      [mkLoop 1 0 Stopped] [Disconnect (OpError t false) 0] [] [] false]) as ->
  end.
  { vm_compute. reflexivity. }
  repeat constructor.
Qed.
