(* ===== verification/ExampleClient.v ===== *)
(** * The example client, and the two examples together: example/client/client.go

    The handler the example client gives its jobs is a function from a response
    to the line it logs.  With EndToEnd.v it says what a user sees of a job of
    the example worker: the packets the worker writes for it, forwarded by the
    server, decoded and handled.  [main] is a small program that makes one call
    after the other on the client of ClientApp.v and stops at the first error. *)

From S2P Require Import Prelude GoStd Protocol ClientRequest ClientResponse HandlerSlot.
From S2P Require Import ClientWire IdGen WorkerPack AgentIO Agent Worker WorkerJobs System ClientLoop EndToEnd.
From S2P Require Import Client ClientReplies ClientApp GoText JobFuncs ExampleWorker.
Import CC.

(** ** What is logged *)

Inductive log_arg :=
| LBytes (b : slice)
| LError (e : error)
| LStatus (s : option Status).

(** A call of [log.Printf] or [log.Println]. *)
Inductive log_line := Logf (format : string) (args : list log_arg).

(** The handler of both jobs. *)
Definition jobHandler `{GoArch} (resp : Response) : log_line :=
  if decide (DataType resp = WorkException ∨ DataType resp = WorkFail ∨ DataType resp = WorkComplate)
  then
    let '(data, err) := Result resp in
    match err with
    | None => Logf "RESULT: %v" [LBytes data]
    | Some err => Logf "RESULT: %s, %v" [LError err; LBytes data]
    end
  else if decide (DataType resp = WorkWarning ∨ DataType resp = WorkData) then
    let '(data, err) := Update resp in
    match err with
    | None => Logf "UPDATE: %v" [LBytes data]
    | Some err => Logf "UPDATE: %v, %s" [LBytes data; LError err]
    end
  else if decide (DataType resp = WorkStatus) then
    let '(data, err) := resp_Status resp in
    match err with
    | None => Logf "STATUS: %v" [LStatus data]
    | Some err => Logf "STATUS: %s" [LError err]
    end
  else Logf "UNKNOWN: %v" [LBytes (Data resp)].

(** ** Jobs of the example worker, seen by the example client *)

Section jobs.
Context `{GoArch}.
Variable range : jobFuncs → list (bytes * jobFunc).

(** The line for a packet of the worker, if it arrives. *)
Definition seen (o : outPack) : option log_line :=
  match Encode o with
  | Val bs =>
      match decodeResponse (relayed bs) with
      | Val (Some r, _, None) => Some (jobHandler r)
      | _ => None
      end
  | Panics _ => None
  end.

Definition report_line (p : inPack) (r : job_report) : log_line :=
  match r with
  | Sends_data d => Logf "UPDATE: %v" [LBytes (Some d)]
  | Sends_warning d => Logf "UPDATE: %v, %s" [LBytes (Some d); LError ErrWorkWarning]
  | Updates_status n d => Logf "STATUS: %v" [LStatus (Some (mkStatus (iHandle p) true true n d))]
  end.

(** A report that fits a packet, with numbers a status can hold. *)
Definition report_fits (p : inPack) (r : job_report) : Prop :=
  (blen (iHandle p ++ x00 :: report_payload r) ≤ maxPacketLength)%Z ∧
  match r with Updates_status n d => (0 ≤ n ≤ max_int ∧ 0 ≤ d ≤ max_int)%Z | _ => True end.

Lemma reports_seen p rs :
  x00 ∉ iHandle p → Forall (report_fits p) rs →
  ∃ os, report_packs p rs = Val os ∧ mapM seen os = Some (report_line p <$> rs).
Proof.
  intros Hh. induction 1 as [|r rs [Hl Hn] _ (os & E1 & E2)]; [by exists []|].
  destruct (report_arrives p r Hh Hl) as (o & bs & Er & Eo & Ed). exists (o :: os). split.
  - simpl. by rewrite Er, outcome_bind_ret, E1, outcome_bind_ret.
  - assert (jobHandler (report_response p r) = report_line p r) as Hr.
    { destruct r as [d|d|n d]; [reflexivity..|]. unfold jobHandler.
      rewrite (status_read p n d) by tauto. reflexivity. }
    assert (seen o = Some (report_line p r)) as Ho by (unfold seen; by rewrite Eo, Ed, Hr).
    apply mapM_Some. csimpl. constructor; [done|by apply mapM_Some].
Qed.

Lemma result_seen p d :
  iHandle p ≠ [] → x00 ∉ iHandle p → (blen (iHandle p ++ x00 :: sl d) ≤ maxPacketLength)%Z →
  seen (reply_pack p d None) = Some (Logf "RESULT: %v" [LBytes (Some (sl d))]).
Proof.
  intros Hne Hh Hl. assert (out_body (reply_pack p d None) = iHandle p ++ x00 :: sl d) as Hb.
  { unfold out_body. by rewrite decide_False, decide_False by done. }
  destruct (report_relayed (reply_pack p d None) (iHandle p) (sl d)) as (bs & E1 & E2);
    [done|done|by rewrite Hb|by_decide|]. unfold seen. by rewrite E1, E2.
Qed.

(** A job whose function reports and returns without an error, from the worker's
    dispatch to the client's log. *)
Lemma job_seen j i p c f t rs d w :
  jobs (ds w) !! j = Some (mkJob i p Executing) →
  funcs (wk w) !! iFn p = Some (mkJobFunc f t) → f p = (rs, Returns d None) →
  running (wk w) = true → agents (nt w) !! i ≫= getRW = Some c →
  iHandle p ≠ [] → x00 ∉ iHandle p → Forall (report_fits p) rs →
  (blen (iHandle p ++ x00 :: sl d) ≤ maxPacketLength)%Z →
  ∃ os, wrun range (AJobStart j :: replicate (length rs) (AJobReport j) ++ [AJobReturn j; AJobWrite j]) w =
          Some (Val (job_at w c os j (Finishing None))) ∧
    mapM seen os = Some ((report_line p <$> rs) ++ [Logf "RESULT: %v" [LBytes (Some (sl d))]]).
Proof.
  intros Hj Hf Hp Hrun Hc Hne Hh Hrs Hl. destruct (reports_seen p rs Hh Hrs) as (os & E1 & E2).
  eexists. split; [by apply (job_run range j i p c f t rs os d None w)|].
  apply mapM_Some. apply Forall2_app; [by apply mapM_Some|]. repeat constructor. by apply result_seen.
Qed.

(** From the packet: the worker takes the job, grabs the next, and the job runs. *)
Definition job_acts (i : nat) (p : inPack) (j n : nat) : list wact :=
  APacket i p :: AJobStart j :: replicate n (AJobReport j) ++ [AJobReturn j; AJobWrite j].

(** A running worker without a limit, ready for packets of agent [i]. *)
Definition accepts (w : W) (i c : nat) : Prop :=
  running (wk w) = true ∧ limit (wk w) = None ∧ waiting (ds w) = None ∧
  agents (nt w) !! i ≫= getRW = Some c.

Lemma assigned_job i p c w :
  accepts w i c → iType p = WC.dtJobAssignUniq →
  ∃ w1, do_wact range (APacket i p) w = Some (Val ((), w1)) ∧ wk w1 = wk w ∧
    agents (nt w1) = agents (nt w) ∧ jobs (ds w1) = jobs (ds w) ++ [mkJob i p Executing] ∧
    wires (nt w1) = alter (λ l, l ++ [grab_pack]) c (wires (nt w)).
Proof.
  intros (_ & Hl & Hw & Hc) Ht. simpl. rewrite Hw. unfold handleInPack. rewrite Ht.
  rewrite decide_False, decide_False, decide_True by (try done; by right).
  unfold mbind, M_bind, mod_ds, modW, getW. simpl. rewrite Hl. unfold Grab.
  rewrite (agent_Write_to i _ c) by done. by eexists.
Qed.

(** A job of the client, all the way: submitted, assigned, run and logged. *)
Lemma job_round_trip dt fn id d h i c f t rs res w :
  accepts w i c → funcs (wk w) !! fn = Some (mkJobFunc f t) →
  let p := mkInPack WC.dtJobAssignUniq (Some d) h id fn in
  f p = (rs, Returns res None) → h ≠ [] → x00 ∉ h → x00 ∉ fn → x00 ∉ id →
  (blen (h ++ x00 :: job_body fn id d) ≤ maxPacketLength)%Z →
  Forall (report_fits p) rs → (blen (h ++ x00 :: sl res) ≤ maxPacketLength)%Z →
  ∃ submit os w',
    encodeJob dt fn id d = Val submit ∧
    decodeInPack (assigned h submit) = Val (Some p, blen (assigned h submit), None) ∧
    wrun range (job_acts i p (length (jobs (ds w))) (length rs)) w = Some (Val w') ∧
    wires (nt w') = alter (λ l, l ++ grab_pack :: os) c (wires (nt w)) ∧
    mapM seen os = Some ((report_line p <$> rs) ++ [Logf "RESULT: %v" [LBytes (Some (sl res))]]).
Proof.
  intros Hacc Hf p Hp Hne Hh Hfn Hid Hl Hrs Hres.
  destruct (job_arrives dt fn id d h Hfn Hid Hh Hl) as (submit & E1 & E2).
  destruct (assigned_job i p c w Hacc eq_refl) as (w1 & E3 & Ewk & Eag & Ejobs & Ewires).
  destruct Hacc as (Hrun & _ & _ & Hc).
  destruct (job_seen (length (jobs (ds w))) i p c f t rs res w1) as (os & E4 & E5);
    [rewrite Ejobs; by apply list_lookup_middle|by rewrite Ewk|done|by rewrite Ewk|by rewrite Eag|done..|].
  exists submit, os. eexists. split_and!; [done..| | |done].
  - unfold job_acts. cbn [wrun]. rewrite E3. exact E4.
  - simpl. rewrite Ewires, alter_alter. apply list_alter_ext; [|done].
    intros l _. simpl. by rewrite <- (assoc_L app).
Qed.

(** ** Foobar and ToUpper *)

Definition foobar_reports : list job_report :=
  concat ((λ i, [Sends_warning [byte_of i]; Sends_data [byte_of i]; Updates_status (i + 1) 100]) <$>
    seqZ 0 10).

(** The line of round [i] and the last one, as the user of the client sees them. *)
Definition foobar_log (h d : bytes) : list log_line :=
  concat ((λ i, [Logf "UPDATE: %v, %s" [LBytes (Some [byte_of i]); LError ErrWorkWarning];
                 Logf "UPDATE: %v" [LBytes (Some [byte_of i])];
                 Logf "STATUS: %v" [LStatus (Some (mkStatus h true true (i + 1) 100))]]) <$> seqZ 0 10)
  ++ [Logf "RESULT: %v" [LBytes (Some d)]].

Lemma foobar_fits p : (blen (iHandle p) + 7 ≤ maxPacketLength)%Z → Forall (report_fits p) foobar_reports.
Proof.
  intros Hl. assert (Forall (λ r, blen (report_payload r) ≤ 6 ∧
    match r with Updates_status n d => 0 ≤ n ≤ 10 ∧ d = 100 | _ => True end)%Z foobar_reports) as Hr.
  { repeat constructor; vm_compute; congruence. }
  eapply Forall_impl; [|exact Hr]. intros r [Hp Hn]. split.
  - rewrite blen_app, blen_cons. lia.
  - destruct r; [done..|]. assert (100 ≤ max_int)%Z.
    { unfold max_int, int_bits. destruct int_width; simpl; lia. }
    lia.
Qed.

(** C3: the two examples together, on [Foobar].  A job the client submits, taken
    by the example worker's function, shows in the client's log as ten rounds of
    a warning with the round's number, data with it and a status of one percent
    more, in that order, and then the payload as it was sent, whatever it is; on
    the worker's side nothing but the grab for the next job is written besides. *)
Theorem foobar_end_to_end dt id d h i c w :
  accepts w i c → funcs (wk w) !! str "Foobar" = Some (mkJobFunc (as_JobFunc Foobar) Unlimited) →
  h ≠ [] → x00 ∉ h → x00 ∉ id →
  (blen (h ++ x00 :: job_body (str "Foobar") id d) ≤ maxPacketLength)%Z →
  let p := mkInPack WC.dtJobAssignUniq (Some d) h id (str "Foobar") in
  ∃ submit os w',
    encodeJob dt (str "Foobar") id d = Val submit ∧
    decodeInPack (assigned h submit) = Val (Some p, blen (assigned h submit), None) ∧
    wrun range (job_acts i p (length (jobs (ds w))) 30) w = Some (Val w') ∧
    wires (nt w') = alter (λ l, l ++ grab_pack :: os) c (wires (nt w)) ∧
    mapM seen os = Some (foobar_log h d).
Proof.
  intros Hacc Hf Hne Hh Hid Hl p.
  assert (blen (h ++ x00 :: d) ≤ maxPacketLength ∧ blen h + 7 ≤ maxPacketLength)%Z as [Hd Hh7].
  { unfold job_body in Hl. revert Hl. simpl. lenlia. }
  apply (job_round_trip dt (str "Foobar") id d h i c (as_JobFunc Foobar) Unlimited foobar_reports
    (Some d) w Hacc Hf eq_refl Hne Hh); [by_decide|done|done|by apply foobar_fits|done].
Qed.

(** The two examples together, on [ToUpper].  The client logs one line, the
    payload with each of its runes mapped to upper case by the Unicode table,
    although [strings.ToUpper] takes a shortcut for ASCII text. *)
Theorem toupper_end_to_end upper dt id d h i c w :
  ascii_table upper →
  accepts w i c → funcs (wk w) !! str "ToUpper" = Some (mkJobFunc (as_JobFunc (ex_ToUpper upper)) Unlimited) →
  h ≠ [] → x00 ∉ h → x00 ∉ id →
  (blen (h ++ x00 :: job_body (str "ToUpper") id d) ≤ maxPacketLength)%Z →
  (blen (h ++ x00 :: map_upper upper d) ≤ maxPacketLength)%Z →
  let p := mkInPack WC.dtJobAssignUniq (Some d) h id (str "ToUpper") in
  ∃ submit os w',
    encodeJob dt (str "ToUpper") id d = Val submit ∧
    decodeInPack (assigned h submit) = Val (Some p, blen (assigned h submit), None) ∧
    wrun range (job_acts i p (length (jobs (ds w))) 0) w = Some (Val w') ∧
    wires (nt w') = alter (λ l, l ++ grab_pack :: os) c (wires (nt w)) ∧
    mapM seen os = Some [Logf "RESULT: %v" [LBytes (Some (map_upper upper d))]].
Proof.
  intros Ht Hacc Hf Hne Hh Hid Hl Hu p. rewrite <- (ToUpper_map upper d Ht) in Hu |- *.
  apply (job_round_trip dt (str "ToUpper") id d h i c (as_JobFunc (ex_ToUpper upper)) Unlimited []
    (Some (ToUpper upper d)) w Hacc Hf eq_refl Hne Hh); [by_decide|done..].
Qed.
End jobs.

(** ** [main] *)

(** A sequential program over a client; [Crash] is a nil dereference or a reply
    of the wrong kind, which the types of the code rule out. *)
Inductive cmain :=
| Calling (x : aact) (k : call_result → cmain)
| Logs (l : log_line) (k : cmain)
| Fatal (e : error)
| Crash
| Waits.

(** The results of [Echo], [Do] and [Status]. *)
Definition echo_result (r : call_result) : option (slice * option error) :=
  match r with
  | Replied (echoed d) => Some (d, None)
  | Errored e => Some (None, Some e)
  | _ => None
  end.

Definition do_result (r : call_result) : option (bytes * option error) :=
  match r with
  | Replied (handleOrError h e) => Some (h, e)
  | Errored e => Some ([], Some e)
  | _ => None
  end.

Definition status_result (r : call_result) : option (option Status * option error) :=
  match r with
  | Replied (statusOrError s e) => Some (s, e)
  | Errored e => Some (None, Some e)
  | _ => None
  end.

(** [if err != nil { log.Fatalln(err) }] *)
Definition checked {A} (r : option (A * option error)) (k : A → cmain) : cmain :=
  match r with
  | None => Crash
  | Some (_, Some e) => Fatal e
  | Some (a, None) => k a
  end.

Definition echo_data : bytes := str "Hello" ++ x00 :: str " world".

(** [main] from its last call back to its first. *)
Definition main_foobar : cmain :=
  Calling (ADo (str "Foobar") echo_data JobNormal (Some 0)) (λ r, checked (do_result r) (λ _,
  Logs (Logf "Press Ctrl-C to exit ..." []) Waits)).

Definition main_status (handle : bytes) : cmain :=
  Calling (AClient (Call (RStatus handle))) (λ r, checked (status_result r) (λ status,
  match status with
  | None => Crash
  | Some _ => Logs (Logf "%v" [LStatus status]) main_foobar
  end)).

Definition main_toupper : cmain :=
  Calling (ADo (str "ToUpper") echo_data JobNormal (Some 0)) (λ r, checked (do_result r) main_status).

Definition main_echo : cmain :=
  Calling (AClient (Call (REcho echo_data))) (λ r, checked (echo_result r) (λ echomsg,
  Logs (Logf "%s" [LBytes echomsg]) main_toupper)).

(** The process: [main], the caller it waits for, the client, the log.  The
    client's error handler ends the process. *)
Record process_state := mkProc {
  prog : cmain;
  pending : option nat;
  the_app : App autoincId;
  logged : list log_line
}.

Inductive eact :=
| EMain
| EClient (c : cact).


Section main.
Context `{GoArch}.
Variable want : bool.
Variable ttl : Z.

Definition exited (s : process_state) : bool :=
  match delivered (the_app s) with [] => false | _ :: _ => true end.

Definition main_step (s : process_state) : option process_state :=
  match prog s, pending s with
  | Calling x k, None =>
      a ← do_aact want ttl x (the_app s);
      Some (mkProc (prog s) (Some (length (callers (client (the_app s))))) a (logged s))
  | Calling x k, Some i =>
      c ← callers (client (the_app s)) !! i;
      match cl_pc c with
      | CReturned r => Some (mkProc (k r) None (the_app s) (logged s))
      | _ => None
      end
  | Logs l k, _ => Some (mkProc k None (the_app s) (logged s ++ [l]))
  | _, _ => None
  end.

(** Only [main] makes calls. *)
Definition do_eact (x : eact) (s : process_state) : option process_state :=
  if exited s then None
  else match x with
       | EMain => main_step s
       | EClient c =>
           if decide (calls c ≠ 0) then None
           else a ← do_aact want ttl (AClient c) (the_app s);
                Some (mkProc (prog s) (pending s) a (logged s))
       end.

Fixpoint erun (xs : list eact) (s : process_state) : option process_state :=
  match xs with
  | [] => Some s
  | x :: xs => s ← do_eact x s; erun xs s
  end.

(** [main] with a connection dialled, up to its first call. *)
Definition main_start (rd : Reader) (g : autoincId) : outcome (process_state + error) :=
  r ← New want [WithErrorHandler (Some 0)] (inl rd) None g;
  mret (match r with
        | inl a => inl (mkProc main_echo None a [])
        | inr e => inr e
        end).

(** ** What [main] does *)

Definition returned (a : csys) (i : nat) (x : call_result) : Prop :=
  ∃ c, callers a !! i = Some c ∧ cl_pc c = CReturned x.

Definition requests (s : process_state) : list request := cl_req <$> callers (client (the_app s)).

Definition job_request (f id : bytes) : request := DoWithId f echo_data JobNormal (Some 0) id.

Definition echo_line (m : slice) : log_line := Logf "%s" [LBytes m].
Definition status_line (st : Status) : log_line := Logf "%v" [LStatus (Some st)].
Definition last_line : log_line := Logf "Press Ctrl-C to exit ..." [].

(** What [main]'s four calls, by their position, came back with. *)
Definition got_echo (a : csys) (m : slice) : Prop := returned a 0 (Replied (echoed m)).
Definition got_job (a : csys) (h : bytes) : Prop := returned a 1 (Replied (handleOrError h None)).
Definition got_status (a : csys) (h : bytes) (st : Status) : Prop :=
  returned a 2 (Replied (statusOrError (Some st) None)) ∧ sHandle st = h.
Definition got_foobar (a : csys) : Prop := ∃ h, returned a 3 (Replied (handleOrError h None)).

(** The error a call came back with. *)
Definition failed (x : call_result) (e : error) : Prop :=
  x = Errored e ∨ (∃ h, x = Replied (handleOrError h (Some e))) ∨
  ∃ st, x = Replied (statusOrError st (Some e)).

(** The calls and the lines of a run, as far as it has come.  Each call is made
    only after the one before has come back without an error and what it came
    back with has been logged; the status asked about is that of the first job,
    and so is the one logged. *)
Definition script (a : csys) (ls : list log_line) (rs : list request) : Prop :=
  ∃ m id1 h st id2,
    ls `prefix_of` [echo_line m; status_line st; last_line] ∧
    rs `prefix_of` [REcho echo_data; job_request (str "ToUpper") id1; RStatus h;
                    job_request (str "Foobar") id2] ∧
    (0 < length ls → got_echo a m) ∧ (1 < length rs → 0 < length ls) ∧
    (2 < length rs → got_job a h) ∧
    (1 < length ls → got_status a h st) ∧ (3 < length rs → 1 < length ls) ∧
    (2 < length ls → got_foobar a).

Inductive stage (a : csys) : cmain → option nat → list log_line → list request → Prop :=
| S_echo : stage a main_echo None [] []
| S_echo_wait : stage a main_echo (Some 0) [] [REcho echo_data]
| S_echoed m :
    got_echo a m → stage a (Logs (echo_line m) main_toupper) None [] [REcho echo_data]
| S_toupper m : got_echo a m → stage a main_toupper None [echo_line m] [REcho echo_data]
| S_toupper_wait m id :
    got_echo a m →
    stage a main_toupper (Some 1) [echo_line m] [REcho echo_data; job_request (str "ToUpper") id]
| S_status m id h :
    got_echo a m → got_job a h →
    stage a (main_status h) None [echo_line m] [REcho echo_data; job_request (str "ToUpper") id]
| S_status_wait m id h :
    got_echo a m → got_job a h →
    stage a (main_status h) (Some 2) [echo_line m]
      [REcho echo_data; job_request (str "ToUpper") id; RStatus h]
| S_got_status m id h st :
    got_echo a m → got_job a h → got_status a h st →
    stage a (Logs (status_line st) main_foobar) None [echo_line m]
      [REcho echo_data; job_request (str "ToUpper") id; RStatus h]
| S_foobar m id h st :
    got_echo a m → got_job a h → got_status a h st →
    stage a main_foobar None [echo_line m; status_line st]
      [REcho echo_data; job_request (str "ToUpper") id; RStatus h]
| S_foobar_wait m id h st id2 :
    got_echo a m → got_job a h → got_status a h st →
    stage a main_foobar (Some 3) [echo_line m; status_line st]
      [REcho echo_data; job_request (str "ToUpper") id; RStatus h; job_request (str "Foobar") id2]
| S_last m id h st id2 :
    got_echo a m → got_job a h → got_status a h st → got_foobar a →
    stage a (Logs last_line Waits) None [echo_line m; status_line st]
      [REcho echo_data; job_request (str "ToUpper") id; RStatus h; job_request (str "Foobar") id2]
| S_waits m id h st id2 :
    got_echo a m → got_job a h → got_status a h st → got_foobar a →
    stage a Waits None [echo_line m; status_line st; last_line]
      [REcho echo_data; job_request (str "ToUpper") id; RStatus h; job_request (str "Foobar") id2]
| S_fatal e x ls rs :
    script a ls rs → returned a (pred (length rs)) x → failed x e → stage a (Fatal e) None ls rs.

Lemma stage_script a q w ls rs : stage a q w ls rs → script a ls rs.
Proof.
  destruct 1 as [| |m|m|m id|m id h|m id h|m id h st|m id h st|m id h st id2|m id h st id2|m id h st id2|]; [..|done].
  1-2: exists None, [], [], (mkStatus [] false false 0 0), [].
  3-4: exists m, [], [], (mkStatus [] false false 0 0), [].
  5: exists m, id, [], (mkStatus [] false false 0 0), [].
  6-7: exists m, id, h, (mkStatus [] false false 0 0), [].
  8-9: exists m, id, h, st, [].
  10-12: exists m, id, h, st, id2.
  all: split_and!; [eexists; reflexivity|eexists; reflexivity|simpl; auto; lia..].
Qed.

Lemma stage_mono a a' q w ls rs :
  (∀ i x, returned a i x → returned a' i x) → stage a q w ls rs → stage a' q w ls rs.
Proof.
  intros Hr Hs.
  assert (∀ h st, got_status a h st → got_status a' h st) as Hst by (intros ?? []; split; auto).
  assert (got_foobar a → got_foobar a') as Hf by (intros [h ?]; exists h; auto).
  unfold got_echo, got_job in *.
  destruct Hs as [| | | | | | | | | | | |e x ls rs (m & id1 & h & st & id2 & ? & ? & ? & ? & ? & ? & ? & ?)];
    econstructor; unfold got_echo, got_job in *; eauto. exists m, id1, h, st, id2. split_and!; auto.
  all: intros; apply Hr; auto.
Qed.

Lemma kept_requests n s s' :
  calls_kept n s s' → cl_req <$> callers s `prefix_of` cl_req <$> callers s'.
Proof.
  intros [Hl Hk]. exists (drop (length (callers s)) (cl_req <$> callers s')).
  rewrite <- (take_drop (length (callers s)) (cl_req <$> callers s')) at 1. f_equal.
  apply list_eq. intros i. destruct (callers s !! i) as [c|] eqn:Hi.
  - destruct (Hk _ _ Hi) as (c' & Hc' & Hr & _). pose proof (lookup_lt_Some _ _ _ Hi).
    rewrite lookup_take_lt, !list_lookup_fmap, Hi, Hc' by done. simpl. by rewrite Hr.
  - apply lookup_ge_None in Hi. rewrite lookup_take_ge by done.
    symmetry. apply lookup_ge_None. by rewrite length_fmap.
Qed.

Lemma kept_same s s' : calls_kept 0 s s' → cl_req <$> callers s' = cl_req <$> callers s.
Proof.
  intros Hk. destruct (kept_requests 0 s s' Hk) as [l E]. destruct Hk as [Hl _].
  apply (f_equal length) in E as El. rewrite length_app, !length_fmap, Hl in El.
  destruct l; [|simpl in El; lia]. by rewrite app_nil_r in E.
Qed.

Lemma kept_returned n s s' i x : calls_kept n s s' → returned s i x → returned s' i x.
Proof.
  intros [_ Hk] (c & Hc & Hx). destruct (Hk _ _ Hc) as (c' & Hc' & _ & Hr).
  exists c'. split; [done|]. rewrite Hr; [done|]. by exists x.
Qed.

(** The invariant: the client is in a state its actions lead to, [main] is
    somewhere in its script. *)
Definition minv (s : process_state) : Prop :=
  creachable want ttl (client (the_app s)) ∧
  stage (client (the_app s)) (prog s) (pending s) (logged s) (requests s).

Lemma creachable_step a s s' :
  creachable want ttl s → do_cact want ttl a s = Some s' → creachable want ttl s'.
Proof.
  intros (rd & s0 & acts & E & Hr) Ha. exists rd, s0, (acts ++ [a]). split; [done|].
  clear E. revert s0 Hr. induction acts as [|b acts IH]; intros s0 Hr; simpl in *.
  - injection Hr as ->. by rewrite Ha.
  - destruct (do_cact want ttl b s0); [|done]. by apply IH.
Qed.

(** [main] makes a call. *)
Lemma call_step r a s' :
  do_cact want ttl (Call r) a = Some s' → creachable want ttl a →
  creachable want ttl s' ∧ cl_req <$> callers s' = (cl_req <$> callers a) ++ [r] ∧
  ∀ i x, returned a i x → returned s' i x.
Proof.
  intros E Hr. split_and!; [by eapply creachable_step| |].
  - injection E as <-. simpl. by rewrite fmap_app.
  - intros i x. by eapply kept_returned, st_calls, do_cact_steady.
Qed.

(** The request a call of [main] makes. *)
Definition asks (x : aact) (r : request) : Prop :=
  match x with
  | AClient (Call r') => r = r'
  | ADo f d flag h => ∃ id, r = DoWithId f d flag h id
  | _ => False
  end.

Lemma main_call x (a a' : App autoincId) :
  (∃ r, asks x r) → do_aact want ttl x a = Some a' → creachable want ttl (client a) →
  ∃ r, asks x r ∧ creachable want ttl (client a') ∧
    cl_req <$> callers (client a') = (cl_req <$> callers (client a)) ++ [r] ∧
    ∀ i y, returned (client a) i y → returned (client a') i y.
Proof.
  intros [r0 Hx] E Hr. destruct x as [[]| |f d flag h| |]; try done.
  - exists r. split; [done|]. cbn [do_aact] in E.
    destruct (do_cact want ttl (Call r) (client a)) as [s'|] eqn:Es; [|done]. injection E as <-.
    by apply call_step.
  - cbn [do_aact] in E. unfold call_with_id in E. destruct (next_id (gen a)) as [id g].
    destruct (do_cact want ttl _ (client a)) as [s'|] eqn:Es; [|done]. injection E as <-.
    exists (DoWithId f d flag h id). split; [by exists id|]. by apply call_step.
Qed.

(** A call that [main] waits for has returned. *)
Lemma main_returned s i c x r :
  minv s → callers (client (the_app s)) !! i = Some c → cl_pc c = CReturned x →
  requests s !! i = Some r → result_for r x.
Proof.
  intros [Hr _] Hc Hx Hi. unfold requests in Hi. rewrite list_lookup_fmap, Hc in Hi. injection Hi as <-.
  by apply (returned_typed want ttl (client (the_app s)) i).
Qed.

Ltac logs := match goal with
  | Hs : Some _ = Some ?s', Hrs : _ = cl_req <$> _ |- minv ?s' =>
      injection Hs as <-; split; [done|]; unfold requests; simpl; rewrite <- Hrs; by constructor
  end.

Lemma main_step_minv s s' : minv s → main_step s = Some s' → minv s'.
Proof.
  intros Hm Hs. pose proof Hm as [Hr Hst]. pose proof (stage_script _ _ _ _ _ Hst) as Hscr.
  unfold main_step in Hs. destruct s as [q w a ls]. cbn [prog pending the_app logged] in *.
  assert (∀ x k, q = Calling x k → (∃ r, asks x r) → w = None →
    (∀ r cs, asks x r → (∀ i y, returned (client a) i y → returned cs i y) →
       stage cs q (Some (length (callers (client a)))) ls (requests (mkProc q w a ls) ++ [r])) →
    minv s') as Hcall.
  { intros x k -> Hx -> Hnext. destruct (do_aact want ttl x a) as [a'|] eqn:Ea; [|done].
    injection Hs as <-. destruct (main_call x a a' Hx Ea Hr) as (r & Har & Hr' & Hq & Hk).
    split; [done|]. unfold requests. simpl. rewrite Hq. by apply Hnext. }
  assert (∀ x k i, q = Calling x k → w = Some i →
    (∀ r y, requests (mkProc q w a ls) !! i = Some r → result_for r y →
       returned (client a) i y → stage (client a) (k y) None ls (requests (mkProc q w a ls))) →
    minv s') as Hret.
  { intros x k i -> -> Hnext. destruct (callers (client a) !! i) as [c|] eqn:Hc; [|done]. simpl in Hs.
    destruct (cl_pc c) as [| | | | | | |y] eqn:Hpc; try done. injection Hs as <-. split; [done|].
    assert (requests (mkProc (Calling x k) (Some i) a ls) !! i = Some (cl_req c)) as Hq
      by (unfold requests; simpl; by rewrite list_lookup_fmap, Hc).
    apply (Hnext _ y Hq); [|by exists c]. by eapply main_returned. }
  assert (length (callers (client a)) = length (requests (mkProc q w a ls))) as Hlen
    by (unfold requests; by rewrite length_fmap).
  unfold requests in *. cbn [the_app] in *. rewrite Hlen in Hcall. clear Hlen.
  remember (cl_req <$> callers (client a)) as rs eqn:Hrs.
  destruct Hst.
  - eapply Hcall; [done|by eexists|done|]. intros r cs -> Hk. constructor.
  - eapply Hret; [done..|]. intros r y [= <-] Hy Hd. destruct y as [[]|e|]; try done.
    + by constructor.
    + eapply S_fatal; [done|exact Hd|by left].
  - logs.
  - eapply Hcall; [done|by eexists; exists []|done|]. intros r cs [id ->] Hk.
    constructor. by apply Hk.
  - eapply Hret; [done..|]. intros r y [= <-] Hy Hd. destruct y as [[h [e|]| |]|e|]; try done.
    + eapply S_fatal; [done|exact Hd|by right; left; exists h].
    + by constructor.
    + eapply S_fatal; [done|exact Hd|by left].
  - eapply Hcall; [done|by eexists|done|]. intros r cs -> Hk. constructor; by apply Hk.
  - eapply Hret; [done..|]. intros r y [= <-] Hy Hd. destruct y as [[| |st [e|]]|e|]; try done.
    + eapply S_fatal; [done|exact Hd|by right; right; exists st].
    + destruct Hy as [Hy1 Hy2]. destruct st as [st|]; [|by destruct Hy2]. simpl.
      apply S_got_status; [done..|]. split; [done|]. by apply Hy1.
    + eapply S_fatal; [done|exact Hd|by left].
  - logs.
  - destruct H2. eapply Hcall; [done|by eexists; exists []|done|]. intros r cs [id2 ->] Hk.
    constructor; [by apply Hk..|split; [by apply Hk|done]].
  - eapply Hret; [done..|]. intros r y [= <-] Hy Hd. destruct y as [[h2 [e|]| |]|e|]; try done.
    + eapply S_fatal; [done|exact Hd|by right; left; exists h2].
    + constructor; [done..|by exists h2].
    + eapply S_fatal; [done|exact Hd|by left].
  - logs.
  - done.
  - done.
Qed.

Lemma do_eact_minv x s s' : minv s → do_eact x s = Some s' → minv s'.
Proof.
  intros Hm Hs. unfold do_eact in Hs. destruct (exited s); [done|].
  destruct x as [|c]; [by eapply main_step_minv|]. case_decide as Hc; [done|]. cbn [do_aact] in Hs.
  destruct (do_cact want ttl c (client (the_app s))) as [cs|] eqn:E; [|done]. simpl in Hs.
  injection Hs as <-. destruct Hm as [Hr Hst].
  assert (calls_kept 0 (client (the_app s)) cs) as Hk.
  { apply do_cact_steady, st_calls in E. by replace (calls c) with 0 in E by lia. }
  split; [by eapply creachable_step|]. unfold requests. simpl. rewrite (kept_same _ _ Hk).
  eapply stage_mono; [|exact Hst]. intros i y. by eapply kept_returned.
Qed.

(** C20: what the example client does.  Whatever its client's goroutines and the
    server do, [main] never dereferences a nil status and no call hands it a reply
    of another kind.  Its calls are a prefix of: echo, the job ToUpper, the status
    of the very handle that job got, the job Foobar; each is made only after the
    one before has come back without an error, with the echo and the status of
    that job logged first, and the last line only once Foobar has its handle.
    [main] ends fatally only with the error its last call came back with, and
    does nothing more. *)
Theorem example_client_script rd g s0 xs s :
  main_start rd g = Val (inl s0) → erun xs s0 = Some s →
  prog s ≠ Crash ∧ script (client (the_app s)) (logged s) (requests s) ∧
  (∀ e, prog s = Fatal e →
     (∃ x, returned (client (the_app s)) (pred (length (requests s))) x ∧ failed x e) ∧
     do_eact EMain s = None).
Proof.
  intros H0 Hr. assert (minv s) as [_ Hst].
  { assert (minv s0) as Hm.
    { apply outcome_bind_Val in H0 as ([a|e] & E & [= <-]). unfold New in E.
      replace (if want then None else None) with (None : option error) in E by by destruct want.
      apply outcome_bind_Val in E as (cs & E & [= <-]). split; [by exists rd, cs, []|].
      apply New_client_eq in E as (k & _ & ->). constructor. }
    clear H0. revert s0 Hr Hm. induction xs as [|x xs IH]; intros s0 Hr Hm; simpl in Hr; [by simplify_eq|].
    destruct (do_eact x s0) as [s1|] eqn:E; [|done]. by eapply IH, do_eact_minv. }
  split_and!.
  - by destruct Hst.
  - by eapply stage_script.
  - intros e Hp. split; [rewrite Hp in Hst; inversion Hst; eauto|]. unfold do_eact, main_step. rewrite Hp. by destruct (exited s).
Qed.
End main.

(** ** Witnesses *)

(** The example worker after its [main], with a table for ASCII. *)
Definition ascii_case (r : Z) : Z := if decide (97 ≤ r ≤ 122)%Z then (r - 32)%Z else r.

Definition ex_acts : list sact :=
  ex_main ascii_case (mkSystemInfo (str "linux") (str "amd64") (str "/usr/local/go") (str "go1.23") 8 12 0)
    (λ _, ([], (Some (str "{}"), None))) (inl (mkReader [] [])).

Definition ex_worker : W := core (end_of (srun (H := W64) map_to_list ex_acts (system_of Unlimited))).

Lemma foobar_end_to_end_witness :
  ∃ submit os w',
    encodeJob (H := W64) dtSubmitJob (str "Foobar") (str "7") echo_data = Val submit ∧
    decodeInPack (H := W64) (assigned (str "H:1") submit) =
      Val (Some (mkInPack WC.dtJobAssignUniq (Some echo_data) (str "H:1") (str "7") (str "Foobar")),
           blen (assigned (str "H:1") submit), None) ∧
    wrun (H := W64) map_to_list
      (job_acts 0 (mkInPack WC.dtJobAssignUniq (Some echo_data) (str "H:1") (str "7") (str "Foobar"))
         (length (jobs (ds ex_worker))) 30) ex_worker = Some (Val w') ∧
    wires (nt w') = alter (λ l, l ++ grab_pack :: os) 0 (wires (nt ex_worker)) ∧
    mapM (seen (H := W64)) os = Some (foobar_log (str "H:1") echo_data).
Proof.
  refine (foobar_end_to_end (H := W64) map_to_list dtSubmitJob (str "7") echo_data (str "H:1") 0 0
    ex_worker _ _ _ _ _ _).
  - unfold accepts, ex_worker, ex_acts. hide_functions. split_and!; vm_compute; reflexivity.
  - unfold ex_worker, ex_acts. hide_functions. vm_compute. reflexivity.
  - done.
  - by_decide.
  - by_decide.
  - vm_compute. congruence.
Defined.

Lemma toupper_end_to_end_witness :
  ∃ submit os w',
    encodeJob (H := W64) dtSubmitJob (str "ToUpper") (str "7") (str "hello") = Val submit ∧
    decodeInPack (H := W64) (assigned (str "H:1") submit) =
      Val (Some (mkInPack WC.dtJobAssignUniq (Some (str "hello")) (str "H:1") (str "7") (str "ToUpper")),
           blen (assigned (str "H:1") submit), None) ∧
    wrun (H := W64) map_to_list
      (job_acts 0 (mkInPack WC.dtJobAssignUniq (Some (str "hello")) (str "H:1") (str "7") (str "ToUpper"))
         (length (jobs (ds ex_worker))) 0) ex_worker = Some (Val w') ∧
    wires (nt w') = alter (λ l, l ++ grab_pack :: os) 0 (wires (nt ex_worker)) ∧
    mapM (seen (H := W64)) os = Some [Logf "RESULT: %v" [LBytes (Some (str "HELLO"))]].
Proof.
  change (str "HELLO") with (map_upper ascii_case (str "hello")).
  refine (toupper_end_to_end (H := W64) map_to_list ascii_case dtSubmitJob (str "7") (str "hello")
    (str "H:1") 0 0 ex_worker _ _ _ _ _ _ _ _).
  - by intros r _.
  - unfold accepts, ex_worker, ex_acts. hide_functions. split_and!; vm_compute; reflexivity.
  - unfold ex_worker, ex_acts. hide_functions. vm_compute. reflexivity.
  - done.
  - by_decide.
  - by_decide.
  - vm_compute. congruence.
  - vm_compute. congruence.
Defined.

(** The client's echo is answered, its first job created. *)
Definition ex_replies : Reader :=
  mkReader [] [Chunk (frame dtEchoRes echo_data); Chunk (frame dtJobCreated (str "H:1"))].

Definition round (i : nat) : list eact :=
  EMain :: (EClient <$> [CheckConn i; LockSet i; GetRW i; Write i None; RlStep; RlStep; RlRead; RlStep; Process 0; Receive i])
  ++ [EMain].

Definition ex_client_acts : list eact :=
  round 0 ++ [EMain] ++ round 1 ++ [EMain].

Definition ex_client_start : process_state :=
  match main_start (H := W64) false ex_replies (NewAutoIncId 7) with
  | Val (inl s) => s
  | _ => mkProc Waits None app_start []
  end.

Definition ex_client_end : process_state :=
  default ex_client_start (erun (H := W64) false 1 ex_client_acts ex_client_start).

Lemma example_client_script_witness :
  requests ex_client_end !! 2 = Some (RStatus (str "H:1")) ∧
  script (client (the_app ex_client_end)) (logged ex_client_end) (requests ex_client_end).
Proof.
  split; [vm_compute; reflexivity|].
  refine (proj1 (proj2 (example_client_script (H := W64) false 1 ex_replies (NewAutoIncId 7)
    ex_client_start ex_client_acts ex_client_end _ _))).
  - vm_compute. reflexivity.
  - vm_compute. reflexivity.
Defined.
